(* ===== verification/_CoqProject ===== *)
-Q . S2P
Prelude.v
Cxx.v
LruCache.v
LockManager.v
SnapshotChain.v
Mvcc.v
ServerConfig.v
Sql.v
Database.v
PgService.v
DbFacts.v
Typing.v
RefServer.v
PgClient.v
PgSpec.v
PgWrites.v
Changes.v
ConnectionPool.v
World.v
SchemaStore.v
CatalogManager.v
PartitionRegistry.v
MetadataServer.v
Structure.v
Serving.v
Demo.v
Transactions.v
PgCatalog.v
RegistrySpec.v
ServerSpec.v
CatalogSpec.v
HandlerSpec.v
Requests.v
Hygiene.v
Main.v
Sent.v
History.v
Listing.v
Faults.v
Unchecked.v
