(* ===== verification/Prelude.v ===== *)
(** * IceLog verification library

    A model in Rocq of the IceLog metadata server (C++20, src/src) and the
    theorems that make it correct. IceLog keeps a catalog of tables, their
    partitions, and a chain of snapshots in PostgreSQL; it answers thirteen
    gRPC requests. A handler (server/metadata_server) calls a manager
    (catalog/), which takes a lock of the table (lock/), a connection of the
    pool (db/connection_pool) and sends statements through the query layer
    (db/pg_client). Partition lists are cached (cache/lru_cache). Transactions
    and the counter of committed ones are in memory (transaction/).

    ** The parts

    Shared:
    - Prelude.v: scopes, generic lemmas on lists, maps and sorting.
    - Cxx.v: fixed-width integers with their wrap-around, [std::to_string],
      [std::stoll], [std::stoi], [std::stoul], C strings, exceptions.

    Components without a database, each with its state as a record and one
    definition per member function, under the names of the source:
    - LruCache.v: cache/lru_cache.h. List nodes and the hash map are kept
      apart, iterators are node numbers, so that a dangling one would show; an
      undefined call is [None]. [run_refines] relates every sequence of calls
      to a recency list.
    - LockManager.v: lock/. Mutexes with an owner, the guards and their
      destructors, [sys_step] for the interleaving of threads.
    - SnapshotChain.v: transaction/snapshot.h. The walk over parents has fuel;
      one more than the number of snapshots is enough when parents are older,
      and none is enough on a cycle.
    - Mvcc.v: transaction/mvcc_manager. The compare-and-swap loop is driven by
      a list of its spurious failures; [mvcc_step] interleaves threads between
      the atomics and the critical sections.
    - ServerConfig.v: config/server_config.h, with the environment as a function.

    The database. PostgreSQL and libpq are not in the repository:
    - Sql.v parses the statements, which the model keeps as the text of the
      sources, into a small syntax. Its fuel (40) bounds list lengths and is
      more than any statement needs: every parse is evaluated in the proofs.
    - Database.v: scripts/init_db.sql as records, and the documented effect of
      a statement on them (three-valued conditions, input conversion, defaults,
      constraints, order with nulls, LIMIT and OFFSET).
    - PgService.v: libpq as a class [PgService] with an unknown state; its laws
      [PgLaws] say which changes a call may make to a ghost view (committed
      data, transaction of each connection, sequences) and allow any statement
      to fail and any connection to be lost; [PgRuns] excludes that for queries
      and [PgReliable] for BEGIN, COMMIT and ROLLBACK too.
    - DbFacts.v and Typing.v are about statements (keys, permutation of rows;
      fitting the schema). RefServer.v is an executable instance, with and
      without faults, that satisfies the laws: the witnesses run on it.
    - PgClient.v: db/pg_client, one definition per method, in the state and
      error monad [PgM]. PgSpec.v and PgWrites.v say without SQL what each
      method reads and writes; Changes.v composes the writes of a commit.
    - ConnectionPool.v: db/connection_pool, with handles as objects that move
      and [pool_step] for the interleaving of threads.

    The server:
    - World.v: the objects [MetadataServer] owns as one state and the monad of
      the handlers, whose runs answer, throw, wait (for a lock or a connection)
      or are undefined. [with_guard] and [with_connection] are the scopes of
      guards and handles; they release on exceptions too.
    - SchemaStore.v, CatalogManager.v, PartitionRegistry.v: catalog/.
    - MetadataServer.v: server/metadata_server, every handler on the messages
      of proto/metadata_service.proto. Main.v: main.cpp.
    - Structure.v: the requests as one type, and the principle that a property
      kept by the constructs of the code holds of every handler.

    ** The theorems

    Serving.v defines a server at rest ([serving w d]): [d] is committed, no
    transaction is open, no table is locked, the pooled connections are idle,
    and the cache holds nothing but what a query of [d] would answer. The
    specifications start and end there:
    - Requests.v: any sequence of requests ends at rest and never waits, unless
      a request is undefined (a total that overflows, a rename to itself).
    - RegistrySpec.v: commits are atomic, checked for conflicts, visible from
      their snapshot on and invisible before; reads through the cache answer
      what the database holds. ServerSpec.v: paging, metadata, statistics.
    - CatalogSpec.v (on PgCatalog.v) and HandlerSpec.v: create, drop, rename
      and schema changes, as later readers see them.
    - History.v: the log of snapshots, and what "latest" means after a commit.
      Listing.v: the list of tables and its paging by offsets.
    - Faults.v: what is left of atomicity when the database fails. Unchecked.v:
      what is lost when it refuses BEGIN, COMMIT or the query of the current
      snapshot, whose results the code does not check.
    - Hygiene.v and Sent.v hold for every service, without any law: locks and
      connections are given back; statements fit the schema.
    Transactions.v has the specifications of BEGIN, COMMIT and ROLLBACK, and
    Demo.v the server on which the witnesses run. Theorems about the code's
    defects (a shared pin that is lost, a pool that drains, a rename that
    reports success, results that are not checked, sizes of zero, a cycle of
    snapshots) are stated as what the code does.

    ** Bounds

    Integers are [Z] with the width of their C++ type made explicit where a
    conversion or an overflow can happen; signed overflow is undefined
    behaviour ([int32_op], [int64_op]). [walk] (the client that follows page
    tokens) needs one request more than there are partitions.
    [try_acquire_exclusive] ends by its deadline, [cleanup_loop] of Main.v after
    the test that finds the flag cleared.

    ** Not modelled

    - Handlers run one after the other: the interleavings that are modelled
      are those inside the lock manager, the pool and the transaction manager.
      The laws of [PgService] speak of one open transaction at a time.
    - Messages on std::cout and std::cerr, [PQclear], [hit_rate()] (a
      quotient of doubles; its counters are fields of the cache).
    - gRPC: transport, cancellation, threads. The generated message classes
      are records with the fields the handlers use.
    - The schema names its indexes, which do not change results; JSON is the
      parameter [pg_jsonb_in], so what is a document is left to PostgreSQL.
    - Tests, benchmarks and deployment files. *)
From stdpp Require Export base list gmap strings sorting.
From Stdlib Require Export ZArith Lia.
From Stdlib Require Strings.Ascii.
Export Stdlib.Strings.Ascii (ascii(..), ascii_of_nat, nat_of_ascii, zero).
Export (notations) Stdlib.Strings.Ascii.
#[export] Set Default Goal Selector "!".
#[global] Open Scope Z_scope.

Create HintDb icelog.
Create Rewrite HintDb cxx.

(** ** Lists *)

Lemma filter_ext_elem {A} (P Q : A -> Prop) `{!forall x, Decision (P x)} `{!forall x, Decision (Q x)} (l : list A) :
  (forall x, x ∈ l -> P x <-> Q x) -> filter P l = filter Q l.
Proof.
  induction l as [|x l IH]; intros Hl; [done|].
  rewrite !filter_cons. rewrite IH by (intros; apply Hl; by right).
  specialize (Hl x ltac:(by left)). repeat case_decide; tauto.
Qed.

Lemma filter_all {A} (P : A -> Prop) `{!forall x, Decision (P x)} (l : list A) :
  (forall x, x ∈ l -> P x) -> filter P l = l.
Proof.
  induction l as [|x l IH]; intros Hl; [done|].
  rewrite filter_cons, decide_True by (apply Hl; by left). f_equal. apply IH. intros. apply Hl. by right.
Qed.

Lemma filter_none {A} (P : A -> Prop) `{!forall x, Decision (P x)} (l : list A) :
  (forall x, x ∈ l -> ~ P x) -> filter P l = [].
Proof.
  induction l as [|x l IH]; intros Hl; [done|].
  rewrite filter_cons, decide_False by (apply Hl; by left). apply IH. intros. apply Hl. by right.
Qed.

Lemma filter_fmap_comm {A B} (f : A -> B) (P : B -> Prop) `{!forall x, Decision (P x)} (l : list A) :
  filter P (f <$> l) = f <$> filter (fun x => P (f x)) l.
Proof.
  induction l as [|x l IH]; [done|]. rewrite fmap_cons, !filter_cons.
  case_decide; rewrite IH; done.
Qed.

Lemma NoDup_fmap_elem {A B} (f : A -> B) (l : list A) x y :
  NoDup (f <$> l) -> x ∈ l -> y ∈ l -> f x = f y -> x = y.
Proof.
  intros Hn Hx Hy E. apply list_elem_of_lookup in Hx as [i Hi].
  apply list_elem_of_lookup in Hy as [j Hj].
  assert (i = j) as ->; [|congruence].
  apply (NoDup_lookup (f <$> l) i j (f x)); [done|..];
    rewrite list_lookup_fmap, ?Hi, ?Hj; simpl; congruence.
Qed.

Lemma NoDup_fmap_filter {A B} (f : A -> B) (P : A -> Prop) `{!forall x, Decision (P x)} (l : list A) :
  NoDup (f <$> l) -> NoDup (f <$> filter P l).
Proof.
  intros Hn. eapply sublist_NoDup; [exact Hn|]. apply fmap_sublist, sublist_filter.
Qed.

(** The element of a list with a given key, when the keys are distinct. *)
Lemma filter_key_unique {A B} `{!EqDecision B} (f : A -> B) (l : list A) x :
  NoDup (f <$> l) -> x ∈ l -> filter (fun y => f y = f x) l = [x].
Proof.
  induction l as [|y l IH]; intros Hn Hx; [by apply not_elem_of_nil in Hx|].
  rewrite fmap_cons, NoDup_cons in Hn. destruct Hn as [Hy Hn]. rewrite filter_cons.
  apply elem_of_cons in Hx as [->|Hx].
  - rewrite decide_True by done. f_equal. apply filter_none. intros z Hz E.
    apply Hy. rewrite <- E. by apply list_elem_of_fmap_2.
  - rewrite decide_False; [by apply IH|]. intros E. apply Hy. rewrite E. by apply list_elem_of_fmap_2.
Qed.

Lemma filter_partition_perm {A} (P : A -> Prop) `{!forall x, Decision (P x)} (l : list A) :
  l ≡ₚ filter P l ++ filter (fun x => ~ P x) l.
Proof.
  induction l as [|x l IH]; [done|]. rewrite !filter_cons. repeat case_decide; try tauto; simpl.
  - by f_equiv.
  - rewrite <- Permutation_middle. by f_equiv.
Qed.

(** Filters by a boolean test. *)
Lemma filter_bool_cons {A} (f : A -> bool) x (l : list A) :
  filter (fun y => f y) (x :: l) = if f x then x :: filter (fun y => f y) l else filter (fun y => f y) l.
Proof. rewrite filter_cons. by destruct (f x). Qed.

(** A map split by a boolean test of its entries. *)
Lemma map_size_filter_bool {K A} `{Countable K} (f : K * A -> bool) (m : gmap K A) :
  size m = (length (filter (fun e => f e) (map_to_list m)) + size (filter (fun e => f e = false) m))%nat.
Proof.
  induction m as [|i x m Hi IH] using map_ind.
  - rewrite map_to_list_empty, map_filter_empty. done.
  - rewrite map_to_list_insert, filter_bool_cons, map_size_insert_None by done.
    destruct (f (i, x)) eqn:E.
    + rewrite map_filter_insert_False by (rewrite E; done).
      rewrite delete_id by done. simpl. lia.
    + rewrite map_filter_insert_True by done. rewrite map_size_insert_None.
      * lia.
      * apply map_lookup_filter_None. by left.
Qed.

(** [E : (x ← m; k x) = Some r]: the case in which [m] has a value. *)
Tactic Notation "bind_inv" hyp(E) "as" ident(x) ident(Ex) :=
  match type of E with
  | mbind _ ?m = Some _ => destruct m as [x|] eqn:Ex; [cbn [mbind option_bind] in E|discriminate E]
  end.

(** Two sorted arrangements of the same rows agree when the sort key is
    unique. *)
Lemma sorted_key_unique {A} (key : A -> Z) (l l' : list A) :
  l ≡ₚ l' -> NoDup (key <$> l) ->
  Sorted (fun x y => key x <= key y) l -> Sorted (fun x y => key x <= key y) l' -> l = l'.
Proof.
  intros Hp Hn S S'. assert (Transitive (fun x y => key x <= key y)) by (intros x y z; lia).
  apply (Sorted_unique_strong (fun x y => key x <= key y)); [|done..].
  intros x y Hx Hy H1 H2. apply (NoDup_fmap_elem key l); [done|done| |lia]. by rewrite Hp.
Qed.

Lemma StronglySorted_filter {A} (R : relation A) (P : A -> Prop) `{!forall x, Decision (P x)} (l : list A) :
  StronglySorted R l -> StronglySorted R (filter P l).
Proof.
  induction 1 as [|x l Hl IH Hx]; [constructor|]. rewrite filter_cons. case_decide; [|done].
  constructor; [done|]. rewrite !Forall_forall in *. intros y [_ Hy]%list_elem_of_filter. by apply Hx.
Qed.

Lemma Sorted_impl {A} (R S : relation A) (l : list A) :
  (forall x y, R x y -> S x y) -> Sorted R l -> Sorted S l.
Proof.
  intros HRS. induction 1 as [|x l Hl IH Hx]; constructor; [done|].
  inversion Hx; constructor. by apply HRS.
Qed.
