(* ===== verification/Cxx.v ===== *)
(** * The C++ standard library the sources use on numbers and strings

    Machine integers are values of [Z] with the wrap-around written out.
    [to_string], [stoll], [stoi] and [stoul] are the conversions of [<string>]
    (base 10), with the exceptions the last three throw; [c_str] is what a
    C interface sees of a [std::string]. *)
From S2P Require Import Prelude.

(** ** Fixed width integers *)

Definition u64_mod : Z := 18446744073709551616.
Definition i64_max : Z := 9223372036854775807.
Definition i64_min : Z := -9223372036854775808.
Definition i32_max : Z := 2147483647.
Definition i32_min : Z := -2147483648.

(** [static_cast<uint64_t>] *)
Definition u64 (z : Z) : Z := z mod u64_mod.
(** [static_cast<int64_t>] *)
Definition i64 (z : Z) : Z := (z + 9223372036854775808) mod u64_mod - 9223372036854775808.
(** [static_cast<int32_t>] *)
Definition i32 (z : Z) : Z := (z + 2147483648) mod 4294967296 - 2147483648.

Definition in_u64 (z : Z) : bool := (0 <=? z) && (z <? u64_mod).
Definition in_i64 (z : Z) : bool := (i64_min <=? z) && (z <=? i64_max).
Definition in_i32 (z : Z) : bool := (i32_min <=? z) && (z <=? i32_max).

Lemma in_i32_i64 z : in_i32 z = true -> in_i64 z = true.
Proof. unfold in_i32, in_i64, i32_min, i32_max, i64_min, i64_max. rewrite !andb_true_iff, !Z.leb_le. lia. Qed.

(** ** Exceptions *)

Inductive cxx_exn :=
  | InvalidArgument
  | OutOfRange
  | RuntimeError (what : string).

#[export] Instance cxx_exn_eq_dec : EqDecision cxx_exn.
Proof. solve_decision. Defined.

(** ** Characters *)

Definition digit_char (d : Z) : ascii := ascii_of_nat (48 + Z.to_nat d).

Definition char_digit (c : ascii) : option Z :=
  let n := Z.of_nat (nat_of_ascii c) in
  if (48 <=? n) && (n <=? 57) then Some (n - 48) else None.

(** [isspace] in the "C" locale *)
Definition is_space (c : ascii) : bool :=
  let n := Z.of_nat (nat_of_ascii c) in (n =? 32) || ((9 <=? n) && (n <=? 13)).

(** ** [std::to_string] *)

Fixpoint digits_fuel (fuel : nat) (n : Z) (acc : string) : string :=
  match fuel with
  | O => acc
  | S f =>
      let acc' := String (digit_char (n mod 10)) acc in
      if n / 10 =? 0 then acc' else digits_fuel f (n / 10) acc'
  end.

(** [log2 n + 1] binary digits are at least as many as the decimal ones. *)
Definition digits (n : Z) : string := digits_fuel (S (Z.to_nat (Z.log2 n))) n EmptyString.

Definition to_string (z : Z) : string :=
  if z <? 0 then String "-" (digits (- z)) else digits z.

(** ** [std::stoll], [std::stoi], [std::stoul] *)

(** The longest prefix of digits, accumulated; [None] when there is none. *)
Fixpoint read_digits (s : string) (acc : Z) : Z :=
  match s with
  | EmptyString => acc
  | String c s' =>
      match char_digit c with
      | Some d => read_digits s' (10 * acc + d)
      | None => acc
      end
  end.

Definition read_nat (s : string) : option Z :=
  match s with
  | String c _ => match char_digit c with Some _ => Some (read_digits s 0) | None => None end
  | EmptyString => None
  end.

Fixpoint skip_spaces (s : string) : string :=
  match s with
  | String c s' => if is_space c then skip_spaces s' else s
  | EmptyString => s
  end.

(** The subject sequence of [strtol]: white space, an optional sign, digits.
    The result is the sign and the magnitude. *)
Definition read_int (s : string) : option (bool * Z) :=
  match skip_spaces s with
  | String "-" s' => option_map (pair true) (read_nat s')
  | String "+" s' => option_map (pair false) (read_nat s')
  | s' => option_map (pair false) (read_nat s')
  end.

Definition signed_magnitude (r : bool * Z) : Z := if r.1 then - r.2 else r.2.

Definition sto_signed (in_range : Z -> bool) (s : string) : cxx_exn + Z :=
  match read_int s with
  | None => inl InvalidArgument
  | Some r =>
      let z := signed_magnitude r in
      if in_range z then inr z else inl OutOfRange
  end.

Definition stoll : string -> cxx_exn + Z := sto_signed in_i64.
Definition stoi : string -> cxx_exn + Z := sto_signed in_i32.

(** [strtoul] negates in the unsigned type when the sign is a minus. *)
Definition stoul (s : string) : cxx_exn + Z :=
  match read_int s with
  | None => inl InvalidArgument
  | Some r => if r.2 <? u64_mod then inr (u64 (signed_magnitude r)) else inl OutOfRange
  end.

(** ** [std::string::c_str]: a C reader stops at the first NUL *)

Fixpoint c_str (s : string) : string :=
  match s with
  | EmptyString => EmptyString
  | String c s' => if bool_decide (c = zero) then EmptyString else String c (c_str s')
  end.

Example to_string_ex : to_string (-9223372036854775808) = "-9223372036854775808".
Proof. reflexivity. Qed.
Example to_string_0 : to_string 0 = "0".
Proof. reflexivity. Qed.
Example stoll_ex : stoll "  +42abc" = inr 42.
Proof. reflexivity. Qed.
Example stoul_wraps : stoul "-1" = inr 18446744073709551615.
Proof. reflexivity. Qed.

(** ** Round trips *)

Lemma char_digit_char d : 0 <= d <= 9 -> char_digit (digit_char d) = Some d.
Proof.
  intros H. assert (d = 0 \/ d = 1 \/ d = 2 \/ d = 3 \/ d = 4 \/ d = 5 \/ d = 6
    \/ d = 7 \/ d = 8 \/ d = 9) as Hd by lia.
  by repeat destruct Hd as [-> | Hd]; subst.
Qed.

(** A digit is none of the characters the readers treat specially. *)
Lemma digit_char_plain c d :
  char_digit c = Some d -> is_space c = false /\ c <> "-"%char /\ c <> "+"%char /\ c <> zero.
Proof.
  unfold char_digit, is_space. cbv zeta. intros H. case_match eqn:E; [|done].
  repeat split; [|intros ->; vm_compute in E; discriminate..].
  apply andb_prop in E as [E1 E2]. apply Z.leb_le in E1, E2.
  apply orb_false_intro; [lia|]. apply andb_false_intro2. lia.
Qed.

Lemma read_digits_fuel f n acc :
  0 <= n < 10 ^ Z.of_nat f ->
  read_digits (digits_fuel f n acc) 0 = read_digits acc n.
Proof.
  revert n acc. induction f as [|f IH]; intros n acc Hn.
  { simpl in *. by assert (n = 0) as -> by lia. }
  cbn [digits_fuel]. pose proof (Z.mod_pos_bound n 10 ltac:(lia)).
  pose proof (Z.div_mod n 10 ltac:(lia)).
  destruct (Z.eqb_spec (n / 10) 0) as [E|E].
  - cbn [read_digits]. rewrite char_digit_char by lia. f_equal. lia.
  - rewrite IH.
    + cbn [read_digits]. rewrite char_digit_char by lia. f_equal. lia.
    + rewrite Nat2Z.inj_succ, Z.pow_succ_r in Hn by lia. split; [apply Z.div_pos; lia|].
      apply Z.div_lt_upper_bound; lia.
Qed.

Lemma digits_bound n : 0 <= n -> n < 10 ^ Z.of_nat (S (Z.to_nat (Z.log2 n))).
Proof.
  intros Hn. rewrite Nat2Z.inj_succ, Z2Nat.id by apply Z.log2_nonneg.
  destruct (decide (n = 0)) as [->|]; [reflexivity|].
  pose proof (Z.log2_spec n ltac:(lia)) as [_ H].
  eapply Z.lt_le_trans; [exact H|]. apply Z.pow_le_mono_l. lia.
Qed.

Lemma digits_fuel_head f n acc :
  0 <= n -> exists c d s, digits_fuel (S f) n acc = String c s /\ char_digit c = Some d.
Proof.
  revert n acc. induction f as [|f IH]; intros n acc Hn;
    pose proof (Z.mod_pos_bound n 10 ltac:(lia)).
  - simpl. exists (digit_char (n mod 10)), (n mod 10), acc.
    split; [by case_match|]. apply char_digit_char. lia.
  - cbn [digits_fuel]. destruct (n / 10 =? 0) eqn:E.
    + exists (digit_char (n mod 10)), (n mod 10), acc.
      split; [done|]. apply char_digit_char. lia.
    + apply IH, Z.div_pos; lia.
Qed.

Lemma read_nat_digits n : 0 <= n -> read_nat (digits n) = Some n.
Proof.
  intros Hn. destruct (digits_fuel_head (Z.to_nat (Z.log2 n)) n EmptyString Hn)
    as (c & d & s & E & Hc).
  unfold read_nat, digits. pose proof (read_digits_fuel _ n EmptyString (conj Hn (digits_bound n Hn))) as R.
  rewrite E in R |- *. rewrite Hc. by rewrite R.
Qed.

Lemma read_int_unsigned c d s :
  char_digit c = Some d ->
  read_int (String c s) = option_map (pair false) (read_nat (String c s)).
Proof.
  intros Hc. destruct (digit_char_plain c d Hc) as (Hs & Hm & Hp & _).
  unfold read_int. cbn [skip_spaces]. rewrite Hs.
  destruct c as [[] [] [] [] [] [] [] []]; done.
Qed.

Lemma read_int_to_string z : read_int (to_string z) = Some (z <? 0, Z.abs z).
Proof.
  unfold to_string. destruct (Z.ltb_spec z 0) as [Hz|Hz].
  - unfold read_int. cbn [skip_spaces is_space]. simpl.
    rewrite read_nat_digits by lia. simpl. by rewrite Z.abs_neq by lia.
  - destruct (digits_fuel_head (Z.to_nat (Z.log2 z)) z EmptyString Hz) as (c & d & s & E & Hc).
    unfold digits. rewrite E, (read_int_unsigned c d s Hc), <- E.
    fold (digits z). rewrite read_nat_digits by lia. simpl. by rewrite Z.abs_eq.
Qed.

Lemma signed_magnitude_abs z : signed_magnitude (z <? 0, Z.abs z) = z.
Proof. unfold signed_magnitude. simpl. destruct (Z.ltb_spec z 0); lia. Qed.

Lemma sto_signed_to_string f z :
  sto_signed f (to_string z) = if f z then inr z else inl OutOfRange.
Proof. unfold sto_signed. by rewrite read_int_to_string, signed_magnitude_abs. Qed.

(** [std::stoll] reads back what [std::to_string] prints on every
    [int64_t]; outside of that range it throws [out_of_range]. *)
Theorem stoll_to_string z :
  stoll (to_string z) = if in_i64 z then inr z else inl OutOfRange.
Proof. apply sto_signed_to_string. Qed.

Lemma stoi_to_string z :
  stoi (to_string z) = if in_i32 z then inr z else inl OutOfRange.
Proof. apply sto_signed_to_string. Qed.

(** [std::stoul] takes a minus sign and wraps around. *)
Lemma stoul_to_string z :
  stoul (to_string z) = if Z.abs z <? u64_mod then inr (u64 z) else inl OutOfRange.
Proof. unfold stoul. rewrite read_int_to_string, signed_magnitude_abs. done. Qed.

Lemma to_string_inj z1 z2 : to_string z1 = to_string z2 -> z1 = z2.
Proof.
  intros H. apply (f_equal read_int) in H. rewrite !read_int_to_string in H.
  injection H as H1 H2. destruct (Z.ltb_spec z1 0), (Z.ltb_spec z2 0); lia || done.
Qed.

(** ** NUL-free strings *)

Definition nul_free (s : string) : Prop := c_str s = s.
#[export] Instance nul_free_dec s : Decision (nul_free s).
Proof. unfold nul_free. apply _. Defined.

Lemma c_str_idemp s : c_str (c_str s) = c_str s.
Proof. induction s as [|c s IH]; simpl; [done|]. case_bool_decide; [done|]. simpl. by rewrite bool_decide_eq_false_2, IH. Qed.

Lemma digits_fuel_nul_free f n acc : 0 <= n -> nul_free acc -> nul_free (digits_fuel f n acc).
Proof.
  revert n acc. induction f as [|f IH]; intros n acc Hn Ha; [done|].
  cbn [digits_fuel]. pose proof (Z.mod_pos_bound n 10 ltac:(lia)).
  assert (nul_free (String (digit_char (n mod 10)) acc)) as Hs.
  { unfold nul_free. cbn [c_str]. rewrite bool_decide_eq_false_2; [by f_equal|].
    by apply (digit_char_plain _ (n mod 10)), char_digit_char; lia. }
  destruct (n / 10 =? 0); [done|]. apply IH; [apply Z.div_pos; lia|done].
Qed.

Lemma to_string_nul_free z : c_str (to_string z) = to_string z.
Proof.
  unfold to_string. destruct (Z.ltb_spec z 0).
  - cbn [c_str]. rewrite bool_decide_eq_false_2 by done. f_equal.
    by apply digits_fuel_nul_free; [lia|].
  - by apply digits_fuel_nul_free; [lia|].
Qed.

#[export] Hint Rewrite to_string_nul_free c_str_idemp : cxx.

Lemma u64_in_i64 z : 0 <= z -> in_i64 z = true -> u64 z = z.
Proof.
  unfold in_i64, u64, u64_mod, i64_max. rewrite andb_true_iff, !Z.leb_le. intros. apply Z.mod_small. lia.
Qed.

(** ** Splitting at a separator *)

Fixpoint free_of (c : ascii) (s : string) : Prop :=
  match s with EmptyString => True | String c' s' => c' <> c /\ free_of c s' end.

Lemma digits_fuel_free_of c f n acc :
  char_digit c = None -> 0 <= n -> free_of c acc -> free_of c (digits_fuel f n acc).
Proof.
  intros Hc. revert n acc. induction f as [|f IH]; intros n acc Hn Ha; [done|].
  cbn [digits_fuel]. pose proof (Z.mod_pos_bound n 10 ltac:(lia)).
  assert (free_of c (String (digit_char (n mod 10)) acc)) as Hs.
  { split; [|done]. intros <-. rewrite char_digit_char in Hc by lia. done. }
  destruct (n / 10 =? 0); [done|]. apply IH; [apply Z.div_pos; lia|done].
Qed.

Lemma to_string_free_of c z : char_digit c = None -> c <> "-"%char -> free_of c (to_string z).
Proof.
  intros Hc Hm. unfold to_string. destruct (Z.ltb_spec z 0).
  - split; [done|]. apply digits_fuel_free_of; [done|lia|done].
  - apply digits_fuel_free_of; [done|lia|done].
Qed.

(** The last separator splits a string in one way. *)
Lemma split_last c s s' t t' :
  free_of c t -> free_of c t' -> s +:+ String c t = s' +:+ String c t' -> s = s' /\ t = t'.
Proof.
  assert (forall u v, free_of c (u +:+ String c v) -> False) as Hno.
  { induction u as [|x u IH]; intros v; cbn; [by intros [? _]|]. intros [_ Hf]. by eapply IH. }
  intros Ht Ht'. revert s'. induction s as [|x s IH]; intros [|y s'] E; cbn in E; simplify_eq.
  - done.
  - by apply Hno in Ht.
  - by apply Hno in Ht'.
  - by destruct (IH s' ltac:(done)) as [-> ->].
Qed.

Lemma prefix_app s t : String.prefix s (s +:+ t) = true.
Proof.
  induction s as [|x s IH]; [by destruct t|].
  change ((if Ascii.ascii_dec x x then String.prefix s (s +:+ t) else false) = true).
  destruct (Ascii.ascii_dec x x); [exact IH|congruence].
Qed.

Lemma append_assoc (s t u : string) : s +:+ (t +:+ u) = (s +:+ t) +:+ u.
Proof. induction s as [|x s IH]; [done|]. change (String x (s +:+ (t +:+ u)) = String x ((s +:+ t) +:+ u)). by rewrite IH. Qed.
