(* ===== verification/LruCache.v ===== *)
(** * The LRU cache (src/cache/lru_cache.h)

    [lru_list_] is a doubly linked list whose nodes keep their identity when
    they are spliced, and [map_] maps a key to an iterator, that is, to a
    node. Nodes are numbers drawn from [next_node]; dereferencing or erasing
    an iterator whose node is not in the list, and [back()] on an empty list,
    are undefined behaviour and give [None].

    Each method locks [mutex_] for its whole body, so a call is one step. *)
From S2P Require Import Prelude Cxx.

Section LRUCache.
Context {K V : Type} `{Countable K}.

Abbreviation node := nat (only parsing).

Record LRUCache := mkLRU {
  capacity_ : Z;
  lru_list_ : list (node * (K * V));
  map_ : gmap K node;
  next_node : node;
  hit_count_ : Z;
  miss_count_ : Z;
  eviction_count_ : Z }.

(** [explicit LRUCache(size_t capacity)] *)
Definition make_cache (capacity : Z) : LRUCache := mkLRU capacity [] ∅ 0%nat 0 0 0.

(** ** Iterators *)

Definition deref (it : node) (l : list (node * (K * V))) : option (K * V) :=
  snd <$> head (filter (fun p => p.1 = it) l).

Definition erase_node (it : node) (l : list (node * (K * V))) : list (node * (K * V)) :=
  filter (fun p => p.1 <> it) l.

#[local] Arguments erase_node : simpl never.

(** [lru_list_.splice(lru_list_.begin(), lru_list_, it)] *)
Definition splice_front (it : node) (l : list (node * (K * V))) : option (list (node * (K * V))) :=
  kv ← deref it l; Some ((it, kv) :: erase_node it l).

(** [it->second = value] *)
Definition assign (it : node) (v : V) (l : list (node * (K * V))) : list (node * (K * V)) :=
  (fun p => if decide (p.1 = it) then (p.1, (p.2.1, v)) else p) <$> l.

(** ** Operations *)

Definition get (key : K) (c : LRUCache) : option (option V * LRUCache) :=
  match map_ c !! key with
  | None =>
      Some (None, mkLRU (capacity_ c) (lru_list_ c) (map_ c) (next_node c)
                    (hit_count_ c) (u64 (miss_count_ c + 1)) (eviction_count_ c))
  | Some it =>
      l ← splice_front it (lru_list_ c);
      kv ← deref it l;
      Some (Some kv.2, mkLRU (capacity_ c) l (map_ c) (next_node c)
                         (u64 (hit_count_ c + 1)) (miss_count_ c) (eviction_count_ c))
  end.

(** The eviction of [put]: [None] when [back()] is called on an empty list. *)
Definition evict (c : LRUCache) : option LRUCache :=
  if capacity_ c <=? Z.of_nat (length (lru_list_ c)) then
    last_ ← last (lru_list_ c);
    Some (mkLRU (capacity_ c) (removelast (lru_list_ c)) (delete last_.2.1 (map_ c))
            (next_node c) (hit_count_ c) (miss_count_ c) (u64 (eviction_count_ c + 1)))
  else Some c.

Definition put (key : K) (value : V) (c : LRUCache) : option LRUCache :=
  match map_ c !! key with
  | Some it =>
      _ ← deref it (lru_list_ c);
      l ← splice_front it (assign it value (lru_list_ c));
      Some (mkLRU (capacity_ c) l (map_ c) (next_node c)
              (hit_count_ c) (miss_count_ c) (eviction_count_ c))
  | None =>
      c' ← evict c;
      Some (mkLRU (capacity_ c') ((next_node c', (key, value)) :: lru_list_ c')
              (<[key := next_node c']> (map_ c')) (S (next_node c'))
              (hit_count_ c') (miss_count_ c') (eviction_count_ c'))
  end.

Definition invalidate (key : K) (c : LRUCache) : option LRUCache :=
  match map_ c !! key with
  | Some it =>
      _ ← deref it (lru_list_ c);
      Some (mkLRU (capacity_ c) (erase_node it (lru_list_ c)) (delete key (map_ c))
              (next_node c) (hit_count_ c) (miss_count_ c) (eviction_count_ c))
  | None => Some c
  end.

(** The loop of [invalidate_if] over the entries of [map_] in the order the
    hash table enumerates them; [removed] counts. *)
Fixpoint invalidate_loop (predicate : K -> bool) (entries : list (K * node))
    (l : list (node * (K * V))) (m : gmap K node) (removed : Z)
    : option (list (node * (K * V)) * gmap K node * Z) :=
  match entries with
  | [] => Some (l, m, removed)
  | (k, it) :: rest =>
      if predicate k then
        _ ← deref it l;
        invalidate_loop predicate rest (erase_node it l) (delete k m) (removed + 1)
      else invalidate_loop predicate rest l m removed
  end.

Definition invalidate_if (predicate : K -> bool) (c : LRUCache) : option (Z * LRUCache) :=
  '(l, m, removed) ← invalidate_loop predicate (map_to_list (map_ c)) (lru_list_ c) (map_ c) 0;
  Some (removed, mkLRU (capacity_ c) l m (next_node c)
                   (hit_count_ c) (miss_count_ c) (eviction_count_ c)).

Definition clear (c : LRUCache) : LRUCache :=
  mkLRU (capacity_ c) [] ∅ (next_node c) (hit_count_ c) (miss_count_ c) (eviction_count_ c).

Definition cache_size (c : LRUCache) : Z := Z.of_nat (size (map_ c)).

(** ** What the cache promises: a recency list

    The abstract state is the list of the entries, most recently used first. *)
Definition view (c : LRUCache) : list (K * V) := snd <$> lru_list_ c.

Definition spec_lookup (k : K) (l : list (K * V)) : option V :=
  snd <$> head (filter (fun p => p.1 = k) l).

Definition spec_remove (k : K) (l : list (K * V)) : list (K * V) :=
  filter (fun p => p.1 <> k) l.

Definition spec_touch (k : K) (l : list (K * V)) : list (K * V) :=
  match spec_lookup k l with Some v => (k, v) :: spec_remove k l | None => l end.

Definition spec_put (capacity : Z) (k : K) (v : V) (l : list (K * V)) : list (K * V) :=
  match spec_lookup k l with
  | Some _ => (k, v) :: spec_remove k l
  | None => (k, v) :: (if capacity <=? Z.of_nat (length l) then removelast l else l)
  end.

Definition spec_invalidate_if (p : K -> bool) (l : list (K * V)) : list (K * V) :=
  filter (fun kv => ~ p kv.1) l.

(** Sequences of calls, on the cache and on the recency list. *)
Inductive cache_op :=
  | OpGet (k : K)
  | OpPut (k : K) (v : V)
  | OpInvalidate (k : K)
  | OpInvalidateIf (p : K -> bool)
  | OpClear
  | OpSize.

Inductive cache_out :=
  | OutUnit
  | OutValue (v : option V)
  | OutCount (n : Z).

Definition step (o : cache_op) (c : LRUCache) : option (cache_out * LRUCache) :=
  match o with
  | OpGet k => '(v, c') ← get k c; Some (OutValue v, c')
  | OpPut k v => c' ← put k v c; Some (OutUnit, c')
  | OpInvalidate k => c' ← invalidate k c; Some (OutUnit, c')
  | OpInvalidateIf p => '(n, c') ← invalidate_if p c; Some (OutCount n, c')
  | OpClear => Some (OutUnit, clear c)
  | OpSize => Some (OutCount (cache_size c), c)
  end.

Fixpoint run (os : list cache_op) (c : LRUCache) : option (list cache_out * LRUCache) :=
  match os with
  | [] => Some ([], c)
  | o :: os' => '(r, c') ← step o c; '(rs, c'') ← run os' c'; Some (r :: rs, c'')
  end.

Definition spec_step (capacity : Z) (o : cache_op) (l : list (K * V)) : cache_out * list (K * V) :=
  match o with
  | OpGet k => (OutValue (spec_lookup k l), spec_touch k l)
  | OpPut k v => (OutUnit, spec_put capacity k v l)
  | OpInvalidate k => (OutUnit, spec_remove k l)
  | OpInvalidateIf p =>
      (OutCount (Z.of_nat (length l) - Z.of_nat (length (spec_invalidate_if p l))), spec_invalidate_if p l)
  | OpClear => (OutUnit, [])
  | OpSize => (OutCount (Z.of_nat (length l)), l)
  end.

Fixpoint spec_run (capacity : Z) (os : list cache_op) (l : list (K * V)) : list cache_out * list (K * V) :=
  match os with
  | [] => ([], l)
  | o :: os' =>
      let '(r, l') := spec_step capacity o l in
      let '(rs, l'') := spec_run capacity os' l' in (r :: rs, l'')
  end.

(** ** Well-formed caches

    [map_] and [lru_list_] describe the same entries, every node is used
    once, and the list never outgrows the capacity. *)
Record wf_parts (cap : Z) (l : list (node * (K * V))) (m : gmap K node) (nx : node) : Prop := {
  wf_nodes : NoDup (fst <$> l);
  wf_map : forall k n, m !! k = Some n <-> exists v, (n, (k, v)) ∈ l;
  wf_fresh : forall p, p ∈ l -> (p.1 < nx)%nat;
  wf_bound : Z.of_nat (length l) <= Z.max 0 cap }.

Definition wf (c : LRUCache) : Prop :=
  wf_parts (capacity_ c) (lru_list_ c) (map_ c) (next_node c).

Section facts.
Context (cap : Z) (l : list (node * (K * V))) (m : gmap K node) (nx : node).
Context (W : wf_parts cap l m nx).

Lemma node_key n k v p : (n, (k, v)) ∈ l -> p ∈ l -> p.1 = n <-> p.2.1 = k.
Proof using W.
  intros Hn Hp. destruct p as [n' [k' v']]. simpl. split; intros ->.
  - pose proof (NoDup_fmap_elem fst l _ _ (wf_nodes _ _ _ _ W) Hn Hp eq_refl). congruence.
  - assert (m !! k = Some n) by (apply (wf_map _ _ _ _ W); eauto).
    assert (m !! k = Some n') by (apply (wf_map _ _ _ _ W); eauto). congruence.
Qed.

Lemma entry_node k n : m !! k = Some n -> exists v, (n, (k, v)) ∈ l.
Proof using W. apply (wf_map _ _ _ _ W). Qed.

Lemma deref_entry n kv : (n, kv) ∈ l -> deref n l = Some kv.
Proof using W.
  intros Hn. unfold deref. rewrite (filter_key_unique fst l (n, kv)); [done| |done].
  apply (wf_nodes _ _ _ _ W).
Qed.

Lemma view_erase n k v : (n, (k, v)) ∈ l -> snd <$> erase_node n l = spec_remove k (snd <$> l).
Proof using W.
  intros Hn. unfold spec_remove, erase_node. rewrite filter_fmap_comm. f_equal.
  apply filter_ext_elem. intros p Hp. by rewrite (node_key n k v p).
Qed.

Lemma view_keys_NoDup : NoDup (fst <$> (snd <$> l)).
Proof using W.
  rewrite <- list_fmap_compose. apply NoDup_fmap_2_strong.
  - intros [n [k v]] [n' [k' v']] Hx Hy E. simpl in E. subst k'.
    apply (NoDup_fmap_elem fst l); [apply (wf_nodes _ _ _ _ W)|done..|].
    symmetry. by apply (node_key n k v).
  - eapply NoDup_fmap_1, (wf_nodes _ _ _ _ W).
Qed.

Lemma spec_lookup_entry n k v : (n, (k, v)) ∈ l -> spec_lookup k (snd <$> l) = Some v.
Proof using W.
  intros Hn. unfold spec_lookup. rewrite (filter_key_unique fst _ (k, v)); [done| |].
  - apply view_keys_NoDup.
  - apply list_elem_of_fmap. by exists (n, (k, v)).
Qed.

Lemma spec_lookup_absent k : m !! k = None -> spec_lookup k (snd <$> l) = None.
Proof using W.
  intros Hk. unfold spec_lookup. rewrite filter_none; [done|].
  intros p' ([n [k' v]] & -> & Hin)%list_elem_of_fmap. simpl. intros <-.
  assert (m !! k' = Some n) by (apply (wf_map _ _ _ _ W); eauto). congruence.
Qed.

(** Removing one entry keeps the parts consistent. *)
Lemma wf_remove n k v : (n, (k, v)) ∈ l -> wf_parts cap (erase_node n l) (delete k m) nx.
Proof using W.
  intros Hn. split.
  - apply NoDup_fmap_filter, (wf_nodes _ _ _ _ W).
  - intros k' n'. rewrite lookup_delete_Some, (wf_map _ _ _ _ W). unfold erase_node.
    setoid_rewrite list_elem_of_filter. split.
    + intros [Hne [v' Hv']]. exists v'. split; [|done].
      pose proof (node_key n k v (n', (k', v')) Hn Hv') as E. simpl in *. naive_solver.
    + intros [v' [Hne Hv']]. pose proof (node_key n k v (n', (k', v')) Hn Hv') as E.
      simpl in *. naive_solver.
  - intros p [_ Hp]%list_elem_of_filter. by apply (wf_fresh _ _ _ _ W).
  - pose proof (wf_bound _ _ _ _ W). pose proof (sublist_length _ _ (sublist_filter (fun p => p.1 <> n) l)).
    unfold erase_node. lia.
Qed.

(** Adding an entry for a fresh key under the capacity. *)
Lemma wf_push k v :
  m !! k = None -> Z.of_nat (length l) < cap ->
  wf_parts cap ((nx, (k, v)) :: l) (<[k := nx]> m) (S nx).
Proof using W.
  intros Hk Hc. split.
  - cbn. constructor; [|apply (wf_nodes _ _ _ _ W)].
    intros (p & E & Hp)%list_elem_of_fmap. pose proof (wf_fresh _ _ _ _ W p Hp). lia.
  - intros k' n'. rewrite lookup_insert_Some, (wf_map _ _ _ _ W). setoid_rewrite elem_of_cons. split.
    + naive_solver.
    + intros [v' [?|Hin]]; [naive_solver|]. right. split; [|by exists v'].
      intros ->. assert (m !! k' = Some n') by (apply (wf_map _ _ _ _ W); eauto). congruence.
  - intros p [->|Hp]%elem_of_cons; [simpl; lia|]. pose proof (wf_fresh _ _ _ _ W p Hp). lia.
  - simpl. lia.
Qed.

End facts.

(** ** Each operation implements the recency list *)

Section operations.
Implicit Types (c : LRUCache) (k : K) (v : V).

Lemma wf_make cap : wf (make_cache cap).
Proof.
  split; simpl; [constructor| | |lia].
  - intros k n. rewrite lookup_empty. split; [done|]. by intros [v ?%not_elem_of_nil].
  - by intros p ?%not_elem_of_nil.
Qed.

(** Moving a node to the front, with a new value. *)
Lemma wf_front cap l m nx n k v v' :
  wf_parts cap l m nx -> (n, (k, v)) ∈ l ->
  wf_parts cap ((n, (k, v')) :: erase_node n l) m nx.
Proof.
  intros W Hn. pose proof (wf_remove _ _ _ _ W _ _ _ Hn) as W'.
  assert (m !! k = Some n) as Hk by (apply (wf_map _ _ _ _ W); eauto).
  assert (length l = S (length (erase_node n l))) as Hl.
  { unfold erase_node. rewrite <- (length_fmap fst l).
    pose proof (Permutation_length (filter_partition_perm (fun p => p.1 = n) l)) as E.
    rewrite length_app, (filter_key_unique fst l (n, (k, v))) in E; [|apply (wf_nodes _ _ _ _ W)|done].
    simpl in E. rewrite length_fmap. done. }
  split.
  - cbn. constructor; [|apply (wf_nodes _ _ _ _ W')].
    intros (p & E & [Hp _]%list_elem_of_filter)%list_elem_of_fmap. by rewrite E in Hp.
  - intros k' n'. rewrite <- (insert_delete_id m k n) by done.
    rewrite lookup_insert_Some, (wf_map _ _ _ _ W'). setoid_rewrite elem_of_cons. split.
    + naive_solver.
    + intros [v0 [?|Hin]]; [naive_solver|]. right. split; [|by exists v0]. intros ->.
      assert (delete k' m !! k' = Some n') as E by (apply (wf_map _ _ _ _ W'); eauto).
      by rewrite lookup_delete_eq in E.
  - intros p [->|Hp]%elem_of_cons; [apply (wf_fresh _ _ _ _ W _ Hn)|by apply (wf_fresh _ _ _ _ W')].
  - pose proof (wf_bound _ _ _ _ W). simpl. lia.
Qed.

Lemma deref_assign n v (l : list (node * (K * V))) :
  deref n (assign n v l) = (fun kv => (kv.1, v)) <$> deref n l.
Proof.
  unfold deref, assign. induction l as [|[n' [k' v']] l IH]; [done|].
  rewrite fmap_cons, !filter_cons. simpl. destruct (decide (n' = n)) as [->|].
  - simpl. by rewrite decide_True.
  - rewrite decide_False by done. done.
Qed.

Lemma erase_assign n v (l : list (node * (K * V))) : erase_node n (assign n v l) = erase_node n l.
Proof.
  unfold erase_node, assign. induction l as [|[n' [k' v']] l IH]; [done|].
  rewrite fmap_cons, !filter_cons. simpl. destruct (decide (n' = n)) as [->|].
  - simpl. rewrite decide_False by naive_solver. rewrite decide_False by naive_solver. done.
  - rewrite !decide_True by done. by f_equal.
Qed.

(** [get] on a well-formed cache is defined, answers what the recency
    list holds for the key, moves that entry to the front and keeps the
    cache well formed. *)
Lemma get_refines c k :
  wf c ->
  exists c', get k c = Some (spec_lookup k (view c), c')
    /\ wf c' /\ view c' = spec_touch k (view c) /\ capacity_ c' = capacity_ c.
Proof.
  intros W. unfold get, spec_touch. destruct (map_ c !! k) as [n|] eqn:Hk.
  - destruct (entry_node _ _ _ _ W _ _ Hk) as [v Hv].
    unfold view. rewrite (spec_lookup_entry _ _ _ _ W _ _ _ Hv).
    unfold splice_front. rewrite (deref_entry _ _ _ _ W _ _ Hv). simpl.
    pose proof (wf_front _ _ _ _ _ _ _ v W Hv) as W'.
    rewrite (deref_entry _ _ _ _ W' n (k, v)) by left. simpl.
    eexists. split; [done|]. split; [done|]. split; [|done].
    cbn [lru_list_]. by rewrite fmap_cons, (view_erase _ _ _ _ W _ _ _ Hv).
  - unfold view. rewrite (spec_lookup_absent _ _ _ _ W _ Hk). by eexists.
Qed.

(** The room [put] makes: the last entry goes when the list is full. *)
Lemma evict_wf c :
  wf c -> 0 < capacity_ c ->
  exists c', evict c = Some c' /\ wf c' /\ capacity_ c' = capacity_ c
    /\ Z.of_nat (length (lru_list_ c')) < capacity_ c
    /\ (forall k, map_ c !! k = None -> map_ c' !! k = None)
    /\ view c' = if capacity_ c <=? Z.of_nat (length (view c)) then removelast (view c) else view c.
Proof.
  intros W Hc. unfold evict, view. rewrite length_fmap. destruct (Z.leb_spec (capacity_ c) (Z.of_nat (length (lru_list_ c)))).
  - destruct (lru_list_ c) as [|x l _] eqn:E using rev_ind; [simpl in *; lia|].
    rewrite last_snoc. destruct x as [n [k v]]. cbn.
    eexists. split; [done|]. unfold wf. simpl. rewrite removelast_last.
    assert (erase_node n (l ++ [(n, (k, v))]) = l) as El.
    { unfold erase_node. rewrite filter_app, filter_all, filter_none; [by rewrite app_nil_r|..].
      - intros p ->%list_elem_of_singleton Hne. by apply Hne.
      - intros p Hp Ep. unfold wf in W. rewrite E in W. pose proof (wf_nodes _ _ _ _ W) as Hn.
        rewrite fmap_app in Hn. apply NoDup_app in Hn as (_ & Hn & _).
        apply (Hn p.1); [by apply list_elem_of_fmap_2|]. rewrite Ep. by left. }
    pose proof W as W'. unfold wf in W'. rewrite E in W'.
    apply (fun W => wf_remove _ _ _ _ W n k v) in W'; [|apply elem_of_app; right; by left].
    rewrite El in W'. pose proof (wf_bound _ _ _ _ W) as Hb. rewrite E, length_app in Hb. simpl in Hb.
    split_and!; [done|done|lia| |].
    + intros k' Hk'. rewrite lookup_delete. case_decide; done.
    + rewrite fmap_app. change (snd <$> [(n, (k, v))]) with [(k, v)]. by rewrite removelast_last.
  - eexists. split; [done|]. by split_and!.
Qed.

(** [put] on a well-formed cache of positive capacity is defined, makes
    the entry the most recent one with the given value, evicts the least
    recently used entry exactly when a new key meets a full list, and keeps
    the cache well formed. *)
Lemma put_refines c k v :
  wf c -> 0 < capacity_ c ->
  exists c', put k v c = Some c' /\ wf c'
    /\ view c' = spec_put (capacity_ c) k v (view c) /\ capacity_ c' = capacity_ c.
Proof.
  intros W Hc. unfold put, spec_put. destruct (map_ c !! k) as [n|] eqn:Hk.
  - destruct (entry_node _ _ _ _ W _ _ Hk) as [v0 Hv].
    unfold view at 2. rewrite (spec_lookup_entry _ _ _ _ W _ _ _ Hv).
    rewrite (deref_entry _ _ _ _ W _ _ Hv). simpl. unfold splice_front.
    rewrite deref_assign, erase_assign, (deref_entry _ _ _ _ W _ _ Hv). simpl.
    eexists. split; [done|]. split; [by eapply wf_front|]. split; [|done].
    unfold view. cbn [lru_list_]. by rewrite fmap_cons, (view_erase _ _ _ _ W _ _ _ Hv).
  - unfold view at 2. rewrite (spec_lookup_absent _ _ _ _ W _ Hk).
    destruct (evict_wf c W Hc) as (c' & -> & W' & E & Hl & Hm & Hview). simpl.
    eexists. split; [done|]. split; [|split; [|done]].
    + apply wf_push; [done|by apply Hm|by rewrite E].
    + transitivity ((k, v) :: view c'); [done|]. by rewrite Hview.
Qed.

Lemma invalidate_refines c k :
  wf c ->
  exists c', invalidate k c = Some c' /\ wf c'
    /\ view c' = spec_remove k (view c) /\ capacity_ c' = capacity_ c.
Proof.
  intros W. unfold invalidate. destruct (map_ c !! k) as [n|] eqn:Hk.
  - destruct (entry_node _ _ _ _ W _ _ Hk) as [v Hv].
    rewrite (deref_entry _ _ _ _ W _ _ Hv). simpl. eexists. split; [done|].
    split; [by eapply wf_remove|]. split; [|done]. by apply (view_erase _ _ _ _ W n k v).
  - eexists. split; [done|]. split; [done|]. split; [|done]. unfold spec_remove.
    rewrite filter_all; [done|]. intros [k' v'] Hin Ek. simpl in Ek. subst k'.
    apply list_elem_of_fmap in Hin as ([n' p] & E & Hin). simpl in E. subst p.
    assert (map_ c !! k = Some n') by (apply (wf_map _ _ _ _ W); eauto). congruence.
Qed.

Lemma invalidate_loop_spec p es cap l m nx r :
  wf_parts cap l m nx -> NoDup es.*1 -> (forall e, e ∈ es -> m !! e.1 = Some e.2) ->
  exists l' m', invalidate_loop p es l m r = Some (l', m', r + Z.of_nat (length (filter (fun e => p e.1) es)))
    /\ wf_parts cap l' m' nx
    /\ snd <$> l' = filter (fun kv => ~ (p kv.1 /\ kv.1 ∈ es.*1)) (snd <$> l).
Proof.
  revert l m r. induction es as [|[k n] es IH]; intros l m r W Hn Hes.
  { exists l, m. split; [by rewrite Z.add_0_r|]. split; [done|]. symmetry. apply filter_all.
    intros kv _ [_ ?%not_elem_of_nil]. done. }
  cbn in Hn. apply NoDup_cons in Hn as [Hk Hn].
  assert (m !! k = Some n) as Hkn by (apply (Hes (k, n)); by left).
  destruct (entry_node _ _ _ _ W _ _ Hkn) as [v Hv].
  cbn [invalidate_loop]. rewrite filter_cons. simpl. destruct (p k) eqn:Hp.
  - rewrite (deref_entry _ _ _ _ W _ _ Hv). simpl.
    destruct (IH (erase_node n l) (delete k m) (r + 1)) as (l' & m' & E & W' & Hview).
    + by eapply wf_remove.
    + done.
    + intros e He. rewrite lookup_delete_ne; [by apply Hes; right|].
      intros ->. apply Hk. by apply list_elem_of_fmap_2.
    + exists l', m'. rewrite E. split; [f_equal; f_equal; lia|]. split; [done|].
      rewrite Hview, (view_erase _ _ _ _ W _ _ _ Hv). unfold spec_remove.
      rewrite list_filter_filter. apply filter_ext_elem. intros kv _. rewrite elem_of_cons.
      destruct (decide (kv.1 = k)) as [->|]; rewrite ?Hp; naive_solver.
  - destruct (IH l m r W Hn) as (l' & m' & E & W' & Hview); [intros e He; apply Hes; by right|].
    exists l', m'. split; [done|]. split; [done|]. rewrite Hview. apply filter_ext_elem.
    intros kv _. rewrite elem_of_cons.
    destruct (decide (kv.1 = k)) as [->|]; rewrite ?Hp; naive_solver.
Qed.

(** The hash table enumerates the entries of the list. *)
Lemma entries_perm c : wf c -> map_to_list (map_ c) ≡ₚ (fun p => (p.2.1, p.1)) <$> lru_list_ c.
Proof.
  intros W. apply NoDup_Permutation; [apply NoDup_map_to_list| |].
  - apply NoDup_fmap_2_strong; [|eapply NoDup_fmap_1, (wf_nodes _ _ _ _ W)].
    intros x y Hx Hy [= _ E]. apply (NoDup_fmap_elem fst (lru_list_ c)); [apply (wf_nodes _ _ _ _ W)|done..].
  - intros [k n]. rewrite elem_of_map_to_list, (wf_map _ _ _ _ W), list_elem_of_fmap.
    split; [intros [v Hv]; by exists (n, (k, v))|]. intros ([n' [k' v]] & [= -> ->] & Hv). by exists v.
Qed.

(** [invalidate_if] on a well-formed cache is defined, whatever the order
    in which the hash table enumerates its entries: it removes exactly the
    entries whose key satisfies the predicate, keeps the others in their
    order, and returns how many it removed. *)
Lemma invalidate_if_refines c p :
  wf c ->
  exists r c', invalidate_if p c = Some (r, c') /\ wf c'
    /\ view c' = spec_invalidate_if p (view c) /\ capacity_ c' = capacity_ c
    /\ r = Z.of_nat (length (view c)) - Z.of_nat (length (view c')).
Proof.
  intros W. unfold invalidate_if.
  destruct (invalidate_loop_spec p (map_to_list (map_ c)) _ _ _ _ 0 W) as (l & m & E & W' & Hv).
  { apply NoDup_fst_map_to_list. }
  { intros [k n] He. by apply elem_of_map_to_list. }
  rewrite E. cbn [mbind option_bind]. eexists _, _. split; [done|].
  assert (snd <$> l = spec_invalidate_if p (view c)) as Hview.
  { rewrite Hv. apply filter_ext_elem. intros [k v] Hin. simpl.
    enough (k ∈ (map_to_list (map_ c)).*1) by naive_solver.
    apply list_elem_of_fmap in Hin as ([n kv] & E' & Hin). simpl in E'. subst kv.
    apply list_elem_of_fmap. exists (k, n). split; [done|].
    apply elem_of_map_to_list, (wf_map _ _ _ _ W). eauto. }
  split; [done|]. split; [done|]. split; [done|].
  unfold view at 2. cbn [lru_list_]. rewrite Hview. unfold spec_invalidate_if.
  pose proof (Permutation_length (filter_partition_perm (fun kv => p kv.1) (view c))) as Hp.
  rewrite length_app in Hp. rewrite (entries_perm c W), filter_fmap_comm, length_fmap.
  unfold view in Hp at 2. rewrite filter_fmap_comm, length_fmap in Hp. simpl in *. lia.
Qed.

(** [clear] empties the cache and keeps it well formed. *)
Lemma clear_refines c :
  wf (clear c) /\ view (clear c) = [] /\ cache_size (clear c) = 0.
Proof.
  split; [|done]. split; simpl; [constructor| | |lia].
  - intros k n. rewrite lookup_empty. split; [done|]. by intros [v ?%not_elem_of_nil].
  - by intros p ?%not_elem_of_nil.
Qed.

(** [size()] counts the entries and never exceeds the capacity. *)
Lemma cache_size_view c : wf c -> cache_size c = Z.of_nat (length (view c)).
Proof.
  intros W. unfold cache_size, view. rewrite length_fmap, <- length_map_to_list, (entries_perm c W).
  by rewrite length_fmap.
Qed.

(** The entries after a call are entries from before, or the new one. *)
Lemma spec_lookup_elem k v (l : list (K * V)) : spec_lookup k l = Some v -> (k, v) ∈ l.
Proof.
  unfold spec_lookup. destruct (filter _ l) as [|[k' v'] r] eqn:E; [done|]. intros [= <-].
  assert ((k', v') ∈ filter (fun p => p.1 = k) l) as Hin by (rewrite E; left).
  apply list_elem_of_filter in Hin as [<- Hin]. done.
Qed.

Lemma elem_of_spec_touch e k (l : list (K * V)) : e ∈ spec_touch k l -> e ∈ l.
Proof.
  unfold spec_touch. destruct (spec_lookup k l) as [v|] eqn:E; [|done].
  rewrite elem_of_cons. unfold spec_remove. rewrite list_elem_of_filter.
  intros [->|[_ ?]]; [by apply spec_lookup_elem|done].
Qed.

Lemma elem_of_removelast {A} (x : A) l : x ∈ removelast l -> x ∈ l.
Proof.
  induction l as [|y l _] using rev_ind; [done|]. rewrite removelast_last. intros ?. apply elem_of_app. by left.
Qed.

Lemma elem_of_spec_put e cap k v (l : list (K * V)) : e ∈ spec_put cap k v l -> e = (k, v) \/ e ∈ l.
Proof.
  unfold spec_put, spec_remove. destruct (spec_lookup k l); rewrite elem_of_cons.
  - rewrite list_elem_of_filter. tauto.
  - case_match; [|tauto]. intros [?|?%elem_of_removelast]; auto.
Qed.

(** A call on a well-formed cache is the call on its recency list. *)
Lemma step_refines o c :
  wf c -> 0 < capacity_ c ->
  exists c', step o c = Some ((spec_step (capacity_ c) o (view c)).1, c')
    /\ wf c' /\ view c' = (spec_step (capacity_ c) o (view c)).2 /\ capacity_ c' = capacity_ c.
Proof.
  intros W Hc. destruct o as [k|k v|k|p| |]; simpl.
  - destruct (get_refines c k W) as (c' & -> & ?). by exists c'.
  - destruct (put_refines c k v W Hc) as (c' & -> & ?). by exists c'.
  - destruct (invalidate_refines c k W) as (c' & -> & ?). by exists c'.
  - destruct (invalidate_if_refines c p W) as (r & c' & -> & ? & E & ? & ->).
    exists c'. simpl. by rewrite E.
  - exists (clear c). split; [done|]. split; [apply clear_refines|]. done.
  - exists c. by rewrite cache_size_view.
Qed.

Lemma run_wf_refines os c :
  wf c -> 0 < capacity_ c ->
  exists c', run os c = Some ((spec_run (capacity_ c) os (view c)).1, c')
    /\ wf c' /\ view c' = (spec_run (capacity_ c) os (view c)).2 /\ capacity_ c' = capacity_ c.
Proof.
  revert c. induction os as [|o os IH]; intros c W Hc; [by exists c|].
  destruct (step_refines o c W Hc) as (c1 & E1 & W1 & V1 & C1).
  destruct (IH c1 W1 ltac:(lia)) as (c2 & E2 & W2 & V2 & C2).
  exists c2. cbn [run spec_run]. rewrite E1. simpl. rewrite E2. simpl.
  rewrite C1, V1 in *. destruct (spec_step _ _ _) as [r l] eqn:Es. simpl in *.
  destruct (spec_run _ _ l) as [rs l'] eqn:Er. simpl in *. by rewrite C2.
Qed.

(** C22: every sequence of calls on a fresh cache of positive capacity is free
    of undefined behaviour, returns what the recency list returns, leaves the
    cache describing that list, and never holds more entries than the
    capacity. *)
Theorem run_refines cap os :
  0 < cap ->
  exists c, run os (make_cache cap) = Some ((spec_run cap os []).1, c)
    /\ view c = (spec_run cap os []).2 /\ cache_size c <= cap.
Proof.
  intros Hc. destruct (run_wf_refines os (make_cache cap) (wf_make cap) Hc) as (c & E & W & Vw & C).
  exists c. split; [done|]. split; [done|]. rewrite cache_size_view by done. unfold view.
  rewrite length_fmap. pose proof (wf_bound _ _ _ _ W). simpl in C. lia.
Qed.

(** The key the next insertion of a new key evicts. *)
Definition victim c : option K :=
  if capacity_ c <=? cache_size c then fst <$> last (view c) else None.

Lemma spec_lookup_cons k k' v (l : list (K * V)) :
  spec_lookup k' ((k, v) :: l) = if decide (k' = k) then Some v else spec_lookup k' l.
Proof. unfold spec_lookup. rewrite filter_cons. simpl. repeat case_decide; done. Qed.

Lemma spec_lookup_remove_ne k k' (l : list (K * V)) :
  k' <> k -> spec_lookup k' (spec_remove k l) = spec_lookup k' l.
Proof.
  intros Hk. unfold spec_lookup, spec_remove. rewrite list_filter_filter. f_equal. f_equal.
  apply filter_ext_elem. naive_solver.
Qed.

Lemma spec_lookup_snoc k v k' (l : list (K * V)) :
  NoDup (l ++ [(k, v)]).*1 ->
  spec_lookup k' l = if decide (k' = k) then None else spec_lookup k' (l ++ [(k, v)]).
Proof.
  rewrite fmap_app. intros (_ & Hd & _)%NoDup_app. unfold spec_lookup. case_decide as Hk.
  - rewrite filter_none; [done|]. intros x Hx <-. apply (Hd x.1); [by apply list_elem_of_fmap_2|].
    simpl. rewrite Hk. by left.
  - rewrite filter_app. simpl. rewrite filter_cons_False by naive_solver. by rewrite app_nil_r.
Qed.

(** after [put(k, v)] a [get] finds [v] under [k], finds nothing under the
    key that was evicted to make room (the least recently used one, and only
    when [k] was new and the cache full), and finds what it found before under
    every other key. *)
Theorem put_then_get c k v k' :
  wf c -> 0 < capacity_ c ->
  exists c', put k v c = Some c'
    /\ fst <$> get k' c' =
       if decide (k' = k) then Some (Some v)
       else if decide (map_ c !! k = None /\ victim c = Some k') then Some None
       else fst <$> get k' c.
Proof.
  intros W Hc. destruct (put_refines c k v W Hc) as (c' & E & W' & Vw & _). exists c'.
  split; [done|]. destruct (get_refines c' k' W') as (? & -> & _).
  destruct (get_refines c k' W) as (? & -> & _). simpl. rewrite Vw. unfold spec_put, victim.
  rewrite cache_size_view by done.
  assert (Hkey : spec_lookup k (view c) = None <-> map_ c !! k = None).
  { destruct (map_ c !! k) as [n|] eqn:Hk.
    - destruct (entry_node _ _ _ _ W _ _ Hk) as [v0 Hv]. unfold view.
      by rewrite (spec_lookup_entry _ _ _ _ W _ _ _ Hv).
    - unfold view. by rewrite (spec_lookup_absent _ _ _ _ W). }
  destruct (spec_lookup k (view c)) as [v0|]; rewrite spec_lookup_cons; destruct (decide (k' = k)) as [|Hk]; try done.
  { rewrite spec_lookup_remove_ne by done. rewrite decide_False; [done|]. intros [?%Hkey _]. done. }
  destruct Hkey as [Hkey _]. specialize (Hkey eq_refl).
  case_match; [|by rewrite decide_False by naive_solver].
  pose proof (view_keys_NoDup _ _ _ _ W) as Hn. fold (view c) in Hn.
  destruct (view c) as [|[k0 v0] l _] eqn:El using rev_ind; [by rewrite decide_False by naive_solver|].
  rewrite removelast_last, last_snoc, (spec_lookup_snoc k0 v0) by done. simpl.
  destruct (decide (k' = k0)) as [->|Hne]; [by rewrite decide_True|].
  by rewrite decide_False by naive_solver.
Qed.

(** with capacity zero the first [put] calls [back()] on an empty list. *)
Theorem put_capacity_zero_undefined k v : put k v (make_cache 0) = None.
Proof. unfold put, make_cache. simpl. by rewrite lookup_empty. Qed.

End operations.
End LRUCache.
Arguments LRUCache K V {_ _}.

(** ** Witnesses *)

Definition two_slots : LRUCache nat string :=
  default (make_cache 2) (put 2%nat "two" (make_cache 2) ≫= put 1%nat "one").

Lemma run_refines_witness :
  exists c : LRUCache nat string,
    run [OpPut 1%nat "a"; OpPut 2%nat "b"; OpGet 1%nat; OpPut 3%nat "c"; OpGet 2%nat; OpSize] (make_cache 2)
      = Some ([OutUnit; OutUnit; OutValue (Some "a"); OutUnit; OutValue None; OutCount 2], c)
    /\ view c = [(3%nat, "c"); (1%nat, "a")].
Proof.
  destruct (run_refines (K:=nat) (V:=string) 2
    [OpPut 1%nat "a"; OpPut 2%nat "b"; OpGet 1%nat; OpPut 3%nat "c"; OpGet 2%nat; OpSize]) as (c & E & V & _); [lia|].
  exists c. split; [exact E|exact V].
Defined.

Lemma two_slots_wf : wf two_slots.
Proof.
  destruct (put_refines (K:=nat) (make_cache 2) 2%nat "two" (wf_make 2) ltac:(done)) as (c1 & E1 & W1 & _ & C1).
  destruct (put_refines c1 1%nat "one" W1 ltac:(rewrite C1; done)) as (c2 & E2 & W2 & _).
  assert (two_slots = c2) as -> by (unfold two_slots; rewrite E1; cbn [mbind option_bind]; by rewrite E2).
  exact W2.
Qed.

(** A third key evicts the older of two. *)
Lemma put_then_get_witness :
  exists c, put 3%nat "three" two_slots = Some c /\ fst <$> get 2%nat c = Some None
    /\ fst <$> get 1%nat two_slots = Some (Some "one").
Proof.
  destruct (put_then_get two_slots 3%nat "three" 2%nat two_slots_wf) as (c & E & G); [reflexivity|].
  exists c. split; [exact E|]. split; [rewrite G; reflexivity|reflexivity].
Defined.
