(* ===== verification/LockManager.v ===== *)
(** * Per-table locks (src/lock/lock_manager.h, lock_manager.cpp)

    A [std::shared_mutex] is the thread that holds it exclusively and the
    threads that hold it shared. Calls the standard leaves undefined (locking
    a mutex the thread already owns, unlocking one it does not own) give
    [Undefined]; a call that has to wait gives [Blocked].

    [registry_mutex_] is held for the whole of [get_or_create] and of the two
    [release_*] functions, so each of them is one atomic step, and so is each
    operation of a [shared_mutex]. The second half of the file is the
    interleaving of threads that use the scoped guards. *)
From S2P Require Import Prelude Cxx.

Abbreviation tid := nat (only parsing).

Record shared_mutex := mkMutex { writer : option tid; readers : list tid }.

#[export] Instance shared_mutex_eq_dec : EqDecision shared_mutex.
Proof. solve_decision. Defined.

Definition free_mutex : shared_mutex := mkMutex None [].

Inductive lock_res (A : Type) :=
  | Done (a : A)
  | Blocked (a : A)
  | Undefined
  | Threw (e : cxx_exn).
Arguments Done {A} a.
Arguments Blocked {A} a.
Arguments Undefined {A}.
Arguments Threw {A} e.

Definition owns (t : tid) (m : shared_mutex) : bool :=
  bool_decide (writer m = Some t) || bool_decide (t ∈ readers m).

Definition lock (t : tid) (m : shared_mutex) : lock_res shared_mutex :=
  if owns t m then Undefined
  else match writer m, readers m with
       | None, [] => Done (mkMutex (Some t) [])
       | _, _ => Blocked m
       end.

Definition lock_shared (t : tid) (m : shared_mutex) : lock_res shared_mutex :=
  if owns t m then Undefined
  else match writer m with
       | None => Done (mkMutex None (t :: readers m))
       | Some _ => Blocked m
       end.

Definition unlock (t : tid) (m : shared_mutex) : lock_res shared_mutex :=
  if bool_decide (writer m = Some t) then Done (mkMutex None (readers m)) else Undefined.

Definition unlock_shared (t : tid) (m : shared_mutex) : lock_res shared_mutex :=
  if bool_decide (t ∈ readers m) then Done (mkMutex (writer m) (filter (fun u => u <> t) (readers m)))
  else Undefined.

(** The class: [table_locks_] owns its mutexes, entries are never removed. *)
Record LockManager := mkLocks { table_locks_ : gmap string shared_mutex }.

Definition empty_locks : LockManager := mkLocks ∅.

Definition get_or_create (table_name : string) (lm : LockManager) : shared_mutex * LockManager :=
  match table_locks_ lm !! table_name with
  | None => (free_mutex, mkLocks (<[table_name := free_mutex]> (table_locks_ lm)))
  | Some m => (m, lm)
  end.

Definition set_mutex (table_name : string) (m : shared_mutex) (lm : LockManager) : LockManager :=
  mkLocks (<[table_name := m]> (table_locks_ lm)).

(** A mutex operation on the entry of a table. *)
Definition on_mutex (table_name : string) (r : lock_res shared_mutex) (lm : LockManager)
    : lock_res LockManager :=
  match r with
  | Done m => Done (set_mutex table_name m lm)
  | Blocked _ => Blocked lm
  | Undefined => Undefined
  | Threw e => Threw e
  end.

Definition acquire_shared (t : tid) (table_name : string) (lm : LockManager) : lock_res LockManager :=
  let '(m, lm') := get_or_create table_name lm in on_mutex table_name (lock_shared t m) lm'.

Definition release_shared (t : tid) (table_name : string) (lm : LockManager) : lock_res LockManager :=
  match table_locks_ lm !! table_name with
  | None => Threw (RuntimeError ("release_shared: no lock for table " +:+ table_name))
  | Some m => on_mutex table_name (unlock_shared t m) lm
  end.

Definition acquire_exclusive (t : tid) (table_name : string) (lm : LockManager) : lock_res LockManager :=
  let '(m, lm') := get_or_create table_name lm in on_mutex table_name (lock t m) lm'.

Definition release_exclusive (t : tid) (table_name : string) (lm : LockManager) : lock_res LockManager :=
  match table_locks_ lm !! table_name with
  | None => Threw (RuntimeError ("release_exclusive: no lock for table " +:+ table_name))
  | Some m => on_mutex table_name (unlock t m) lm
  end.

(** ** [try_acquire_exclusive]

    The loop polls the clock (in milliseconds) and then the mutex, which
    other threads may change between two polls: [polls] lists what the
    thread sees. [None]: the polls ran out before the loop ended. *)
Definition try_lock (t : tid) (m : shared_mutex) : lock_res (bool * shared_mutex) :=
  match lock t m with
  | Done m' => Done (true, m')
  | Blocked m' => Done (false, m')
  | Undefined => Undefined
  | Threw e => Threw e
  end.

Fixpoint try_acquire_loop (t : tid) (deadline : Z) (polls : list (Z * shared_mutex))
    : option (lock_res (bool * shared_mutex)) :=
  match polls with
  | [] => None
  | (now, m) :: rest =>
      if now <? deadline then
        match try_lock t m with
        | Done (true, m') => Some (Done (true, m'))
        | Done (false, _) => try_acquire_loop t deadline rest
        | r => Some r
        end
      else Some (Done (false, m))
  end.

(** [start] is the clock when the deadline is computed. *)
Definition try_acquire_exclusive (t : tid) (start timeout : Z) (polls : list (Z * shared_mutex))
    : option (lock_res (bool * shared_mutex)) :=
  try_acquire_loop t (start + timeout) polls.

(** ** Guards

    [SharedGuard] and [ExclusiveGuard] hold their lock until they are
    destroyed. *)
Inductive mode := Sh | Ex.
#[export] Instance mode_eq_dec : EqDecision mode.
Proof. solve_decision. Defined.

Definition acquire (md : mode) : tid -> string -> LockManager -> lock_res LockManager :=
  match md with Sh => acquire_shared | Ex => acquire_exclusive end.
Definition release (md : mode) : tid -> string -> LockManager -> lock_res LockManager :=
  match md with Sh => release_shared | Ex => release_exclusive end.

(** The locks and the guards alive in each thread, the youngest first. *)
Record system := mkSys { locks : LockManager; guards : tid -> list (mode * string) }.

Definition set_guards (t : tid) (g : list (mode * string)) (gs : tid -> list (mode * string)) :=
  fun u => if decide (u = t) then g else gs u.

Inductive sys_step : system -> system -> Prop :=
  | step_scoped t md name s lm :
      acquire md t name (locks s) = Done lm ->
      sys_step s (mkSys lm (set_guards t ((md, name) :: guards s t) (guards s)))
  | step_wait t md name s lm :
      acquire md t name (locks s) = Blocked lm ->
      sys_step s (mkSys lm (guards s))
  | step_unguard t md name g s lm :
      guards s t = (md, name) :: g ->
      release md t name (locks s) = Done lm ->
      sys_step s (mkSys lm (set_guards t g (guards s))).

Definition init_system : system := mkSys empty_locks (fun _ => []).
Definition reachable (s : system) : Prop := rtc sys_step init_system s.

(** The state of the mutex of a table, whether registered or not. *)
Definition mutex_of (name : string) (lm : LockManager) : shared_mutex :=
  default free_mutex (table_locks_ lm !! name).

(** What ties the mutexes to the guards. *)
Record sys_inv (s : system) : Prop := {
  inv_writer : forall name t, writer (mutex_of name (locks s)) = Some t <-> (Ex, name) ∈ guards s t;
  inv_readers : forall name t, t ∈ readers (mutex_of name (locks s)) <-> (Sh, name) ∈ guards s t;
  inv_excl : forall name, writer (mutex_of name (locks s)) = None \/ readers (mutex_of name (locks s)) = [];
  inv_names : forall t, NoDup (snd <$> guards s t);
  inv_reg : forall t md name, (md, name) ∈ guards s t -> is_Some (table_locks_ (locks s) !! name) }.

(** ** Facts about the registry *)

Lemma mutex_of_set n m lm n' :
  mutex_of n' (set_mutex n m lm) = if decide (n' = n) then m else mutex_of n' lm.
Proof.
  unfold mutex_of, set_mutex. simpl. destruct (decide (n' = n)) as [->|].
  - by rewrite lookup_insert_eq.
  - by rewrite lookup_insert_ne.
Qed.

Lemma get_or_create_spec n lm :
  exists lm', get_or_create n lm = (mutex_of n lm, lm')
    /\ (forall n', mutex_of n' lm' = mutex_of n' lm)
    /\ (forall n', is_Some (table_locks_ lm' !! n') <-> n' = n \/ is_Some (table_locks_ lm !! n')).
Proof.
  unfold get_or_create. destruct (table_locks_ lm !! n) as [m|] eqn:E.
  - exists lm. unfold mutex_of. rewrite E. split; [done|]. split; [done|].
    intros n'. split; [by right|]. intros [->|]; [by exists m|done].
  - eexists. split; [unfold mutex_of; by rewrite E|]. split; intros n'.
    + unfold mutex_of. simpl. rewrite lookup_insert. case_decide as H; [subst; by rewrite E|done].
    + simpl. rewrite lookup_insert_is_Some. split; [naive_solver|].
      intros [->|H]; [by left|]. destruct (decide (n = n')); [by left|by right].
Qed.

(** The mutex after a successful acquisition, and when it succeeds. *)
Definition acquired (md : mode) (t : tid) (m : shared_mutex) : shared_mutex :=
  match md with Sh => mkMutex None (t :: readers m) | Ex => mkMutex (Some t) [] end.

Definition grantable (md : mode) (m : shared_mutex) : Prop :=
  writer m = None /\ (md = Ex -> readers m = []).
#[export] Instance grantable_dec md m : Decision (grantable md m).
Proof. unfold grantable. destruct md; [|apply _]. destruct (decide (writer m = None)); [left|right]; naive_solver. Defined.

Lemma lock_mode md t m :
  (match md with Sh => lock_shared t m | Ex => lock t m end) =
    if owns t m then Undefined
    else if decide (grantable md m) then Done (acquired md t m) else Blocked m.
Proof.
  unfold lock_shared, lock, grantable, acquired. destruct md, (owns t m), m as [[w|] [|r rs]]; simpl;
    repeat case_decide; naive_solver.
Qed.

Lemma acquire_cases md t n lm :
  exists lm', (forall n', mutex_of n' lm' = mutex_of n' lm)
    /\ (forall n', is_Some (table_locks_ lm' !! n') <-> n' = n \/ is_Some (table_locks_ lm !! n'))
    /\ acquire md t n lm =
        if owns t (mutex_of n lm) then Undefined
        else if decide (grantable md (mutex_of n lm))
             then Done (set_mutex n (acquired md t (mutex_of n lm)) lm') else Blocked lm'.
Proof.
  destruct (get_or_create_spec n lm) as (lm' & E & Hm & Hr). exists lm'. split; [done|]. split; [done|].
  pose proof (lock_mode md t (mutex_of n lm)) as L.
  destruct md; unfold acquire, acquire_shared, acquire_exclusive; rewrite E, L;
    destruct (owns _ _); cbn [on_mutex]; [done| |done|];
    match goal with |- context [decide ?P] => by destruct (decide P) end.
Qed.

Lemma owns_true t m : owns t m = true <-> writer m = Some t \/ t ∈ readers m.
Proof. unfold owns. rewrite orb_true_iff, !bool_decide_eq_true. done. Qed.

Lemma owns_guard s t n :
  sys_inv s -> owns t (mutex_of n (locks s)) = true <-> exists md, (md, n) ∈ guards s t.
Proof.
  intros I. rewrite owns_true, (inv_writer _ I), (inv_readers _ I). split.
  - intros [H|H]; eauto.
  - intros [[] H]; auto.
Qed.

Lemma set_guards_eq t g gs : set_guards t g gs t = g.
Proof. unfold set_guards. by rewrite decide_True. Qed.
Lemma set_guards_ne t g gs u : u <> t -> set_guards t g gs u = gs u.
Proof. intros. unfold set_guards. by rewrite decide_False. Qed.

Lemma inv_init : sys_inv init_system.
Proof.
  assert (forall name, mutex_of name (locks init_system) = free_mutex) as E
    by (intros; unfold mutex_of; simpl; by rewrite lookup_empty).
  split; [intros name t|intros name t|intros name|intros t|intros t md name H]; rewrite ?E; cbn.
  - split; [done|by intros ?%not_elem_of_nil].
  - split; by intros ?%not_elem_of_nil.
  - by left.
  - constructor.
  - by apply not_elem_of_nil in H.
Qed.

(** The guard a thread would destroy next releases its lock without a throw
    and without undefined behaviour. *)
Lemma release_guard s t md n g :
  sys_inv s -> guards s t = (md, n) :: g ->
  exists lm m', release md t n (locks s) = Done lm /\ lm = set_mutex n m' (locks s)
    /\ m' = match md with
            | Sh => mkMutex None (filter (fun u => u <> t) (readers (mutex_of n (locks s))))
            | Ex => free_mutex
            end.
Proof.
  intros I E. assert ((md, n) ∈ guards s t) as Hg by (rewrite E; left).
  destruct (inv_reg _ I _ _ _ Hg) as [m Hm].
  assert (mutex_of n (locks s) = m) as Em by (unfold mutex_of; by rewrite Hm).
  pose proof (inv_excl _ I n) as Hx. rewrite Em in *.
  destruct md; unfold release, release_shared, release_exclusive; rewrite Hm.
  - apply (inv_readers _ I) in Hg. rewrite Em in Hg. unfold unlock_shared.
    rewrite bool_decide_eq_true_2 by done. simpl. eexists _, _. split; [done|]. split; [done|].
    destruct Hx as [->|Hx]; [done|]. rewrite Hx in Hg. by apply not_elem_of_nil in Hg.
  - apply (inv_writer _ I) in Hg. rewrite Em in Hg. unfold unlock.
    rewrite bool_decide_eq_true_2 by done. simpl. eexists _, _. split; [done|]. split; [done|].
    destruct Hx as [Hx| ->]; [congruence|done].
Qed.

(** ** The invariant is inductive *)

Lemma inv_acquire s t md n lm :
  sys_inv s -> acquire md t n (locks s) = Done lm ->
  sys_inv (mkSys lm (set_guards t ((md, n) :: guards s t) (guards s))).
Proof.
  intros I E. destruct (acquire_cases md t n (locks s)) as (lm' & Hm & Hr & E').
  rewrite E in E'. destruct (owns t _) eqn:Ho; [done|]. case_decide as Hg; [|done].
  injection E' as ->. destruct Hg as [Hw Hex].
  assert (forall md', (md', n) ∉ guards s t) as Hno.
  { intros md' Hin. apply not_true_iff_false in Ho. apply Ho, owns_guard; eauto. }
  assert (forall u, (Ex, n) ∉ guards s u) as Hnw.
  { intros u Hin. apply (inv_writer _ I) in Hin. congruence. }
  split; cbn [locks guards].
  - intros name u. rewrite mutex_of_set, Hm. destruct (decide (name = n)) as [->|Hn].
    + destruct (decide (u = t)) as [->|Hu]; rewrite ?set_guards_eq, ?set_guards_ne by done.
      * destruct md; simpl; rewrite elem_of_cons; specialize (Hno Ex); naive_solver.
      * specialize (Hnw u). destruct md; simpl; naive_solver.
    + rewrite (inv_writer _ I). destruct (decide (u = t)) as [->|Hu];
        rewrite ?set_guards_eq, ?set_guards_ne, ?elem_of_cons by done; naive_solver.
  - intros name u. rewrite mutex_of_set, Hm. destruct (decide (name = n)) as [->|Hn].
    + pose proof (inv_readers _ I n u) as Hru.
      destruct (decide (u = t)) as [->|Hu]; rewrite ?set_guards_eq, ?set_guards_ne by done.
      * destruct md; simpl; rewrite !elem_of_cons; [naive_solver|]. specialize (Hno Sh).
        rewrite elem_of_nil. naive_solver.
      * destruct md; simpl; rewrite ?elem_of_cons; [naive_solver|].
        rewrite <- Hru, (Hex eq_refl). done.
    + rewrite (inv_readers _ I). destruct (decide (u = t)) as [->|Hu];
        rewrite ?set_guards_eq, ?set_guards_ne, ?elem_of_cons by done; naive_solver.
  - intros name. rewrite mutex_of_set, Hm. case_decide; [|apply (inv_excl _ I)].
    destruct md; simpl; auto.
  - intros u. destruct (decide (u = t)) as [->|Hu]; rewrite ?set_guards_eq, ?set_guards_ne by done;
      [|apply (inv_names _ I)].
    cbn. constructor; [|apply (inv_names _ I)].
    intros ([md' n'] & -> & Hin)%list_elem_of_fmap. by apply (Hno md').
  - intros u md' name Hin. cbn [table_locks_ set_mutex]. rewrite lookup_insert_is_Some.
    destruct (decide (n = name)); [by left|right; split; [done|]]. apply Hr. right.
    destruct (decide (u = t)) as [->|Hu];
      [rewrite set_guards_eq in Hin|rewrite set_guards_ne in Hin by done; by eapply (inv_reg _ I)].
    apply elem_of_cons in Hin as [?|Hin]; [naive_solver|by eapply (inv_reg _ I)].
Qed.

Lemma inv_wait s t md n lm :
  sys_inv s -> acquire md t n (locks s) = Blocked lm -> sys_inv (mkSys lm (guards s)).
Proof.
  intros I E. destruct (acquire_cases md t n (locks s)) as (lm' & Hm & Hr & E').
  rewrite E in E'. destruct (owns t _); [done|]. case_decide; [done|]. injection E' as ->.
  split; cbn [locks guards]; intros; rewrite ?Hm, ?Hr; try apply I.
  right. by eapply (inv_reg _ I).
Qed.

Lemma inv_release s t md n g lm :
  sys_inv s -> guards s t = (md, n) :: g -> release md t n (locks s) = Done lm ->
  sys_inv (mkSys lm (set_guards t g (guards s))).
Proof.
  intros I Eg E. destruct (release_guard s t md n g I Eg) as (lm' & m' & E' & -> & Em).
  rewrite E in E'. injection E' as ->.
  pose proof (inv_names _ I t) as Hn. rewrite Eg in Hn. cbn in Hn. apply NoDup_cons in Hn as [Hng Hn].
  assert (forall md', (md', n) ∉ g) as Hno.
  { intros md' Hin. apply Hng, list_elem_of_fmap. by exists (md', n). }
  assert (forall u md' name, name <> n -> (md', name) ∈ set_guards t g (guards s) u <-> (md', name) ∈ guards s u) as Hother.
  { intros u md' name Hne. destruct (decide (u = t)) as [->|Hu];
      rewrite ?set_guards_eq, ?set_guards_ne, ?Eg, ?elem_of_cons by done; naive_solver. }
  split; cbn [locks guards].
  - intros name u. rewrite mutex_of_set. case_decide as Hname; [subst name|by rewrite (inv_writer _ I), Hother].
    assert (writer m' = None) as -> by (by destruct md; subst m').
    split; [done|]. intros Hin. exfalso. pose proof (inv_writer _ I n) as Hw.
    destruct (decide (u = t)) as [->|Hu]; [rewrite set_guards_eq in Hin; by apply (Hno Ex)|].
    rewrite set_guards_ne in Hin by done. apply Hw in Hin.
    destruct md.
    + destruct (inv_excl _ I n) as [Hx|Hx]; [congruence|].
      assert (t ∈ readers (mutex_of n (locks s))) as Ht by (apply (inv_readers _ I); rewrite Eg; left).
      rewrite Hx in Ht. by apply not_elem_of_nil in Ht.
    + assert (writer (mutex_of n (locks s)) = Some t) by (apply Hw; rewrite Eg; left). congruence.
  - intros name u. rewrite mutex_of_set. case_decide as Hname; [subst name|by rewrite (inv_readers _ I), Hother].
    destruct (decide (u = t)) as [->|Hu]; rewrite ?set_guards_eq, ?set_guards_ne by done.
    + assert (t ∉ readers m') as Ht.
      { subst m'. destruct md; simpl; [rewrite list_elem_of_filter; naive_solver|apply not_elem_of_nil]. }
      pose proof (Hno Sh). naive_solver.
    + rewrite <- (inv_readers _ I). subst m'. destruct md; simpl.
      * rewrite list_elem_of_filter. naive_solver.
      * assert (writer (mutex_of n (locks s)) = Some t) as Ht by (apply (inv_writer _ I); rewrite Eg; left).
        destruct (inv_excl _ I n) as [Hx|Hx]; [congruence|]. by rewrite Hx.
  - intros name. rewrite mutex_of_set. case_decide; [|apply (inv_excl _ I)].
    subst m'. destruct md; simpl; auto.
  - intros u. destruct (decide (u = t)) as [->|Hu]; rewrite ?set_guards_eq, ?set_guards_ne by done; [done|].
    apply (inv_names _ I).
  - intros u md' name Hin. cbn [table_locks_ set_mutex]. rewrite lookup_insert_is_Some.
    destruct (decide (n = name)); [by left|right; split; [done|]].
    apply Hother in Hin; [|done]. by eapply (inv_reg _ I).
Qed.

Lemma reachable_inv s : reachable s -> sys_inv s.
Proof.
  intros R. unfold reachable in R. remember init_system as s0 eqn:E0.
  assert (sys_inv s0) as I by (subst; apply inv_init). clear E0.
  induction R as [|s1 s2 s3 St _ IH]; [done|]. apply IH.
  destruct St; [by eapply inv_acquire|by eapply inv_wait|by eapply inv_release].
Qed.

(** ** Properties *)

(** C23: in every interleaving of threads using the scoped guards, a thread
    that holds a table exclusively is the only one to hold a guard on that
    table, and it holds a single one. *)
Theorem exclusive_excludes s t u md name :
  reachable s -> (Ex, name) ∈ guards s t -> (md, name) ∈ guards s u -> u = t /\ md = Ex.
Proof.
  intros I%reachable_inv Ht Hu. apply (inv_writer _ I) in Ht. destruct md.
  - apply (inv_readers _ I) in Hu. destruct (inv_excl _ I name) as [Hx|Hx]; [congruence|].
    rewrite Hx in Hu. by apply not_elem_of_nil in Hu.
  - apply (inv_writer _ I) in Hu. naive_solver.
Qed.

(** C24: in every interleaving the destructor of a guard neither throws nor
    unlocks a mutex its thread does not own, and it gives the table back: an
    exclusive guard leaves the mutex free. *)
Theorem guard_destructor_safe s t md name g :
  reachable s -> guards s t = (md, name) :: g ->
  exists lm, release md t name (locks s) = Done lm
    /\ (t ∉ readers (mutex_of name lm)) /\ writer (mutex_of name lm) = None
    /\ (md = Ex -> mutex_of name lm = free_mutex).
Proof.
  intros I%reachable_inv Eg. destruct (release_guard s t md name g I Eg) as (lm & m & E & -> & Em).
  exists (set_mutex name m (locks s)). split; [done|]. rewrite mutex_of_set, decide_True by done.
  subst m. destruct md; simpl; [rewrite list_elem_of_filter|rewrite elem_of_nil]; naive_solver.
Qed.

(** C25: a guard is granted, in every interleaving, exactly when the table is
    not held by another thread in a conflicting mode: a reader of the table
    makes a writer wait, readers do not wait for readers, and tables do not
    interfere. *)
Theorem acquire_granted_iff s t md name :
  reachable s -> (forall md', (md', name) ∉ guards s t) ->
  (exists lm, acquire md t name (locks s) = Done lm) <->
  (forall u md', (md', name) ∈ guards s u -> md = Sh /\ md' = Sh).
Proof.
  intros I%reachable_inv Hno. destruct (acquire_cases md t name (locks s)) as (lm & Hm & Hr & ->).
  destruct (owns t _) eqn:Ho; [apply (owns_guard _ _ _ I) in Ho; naive_solver|].
  enough ((grantable md (mutex_of name (locks s))) <->
    (forall u md', (md', name) ∈ guards s u -> md = Sh /\ md' = Sh)) as <-.
  { case_decide; split; [done|eauto|by intros [? ?]|done]. }
  pose proof (inv_writer _ I name) as Hw. pose proof (inv_readers _ I name) as Hrd. split.
    - intros [Gw Gr] u [] Hin; [|apply Hw in Hin; congruence].
      destruct md; [done|]. apply Hrd in Hin. rewrite (Gr eq_refl) in Hin. by apply not_elem_of_nil in Hin.
    - intros Hall. split.
      + destruct (writer _) as [w|] eqn:Ew; [|done]. destruct (Hall w Ex) as [_ ?]; [by apply Hw|done].
      + intros ->. destruct (readers _) as [|r rs]; [done|].
        destruct (Hall r Sh) as [? _]; [apply Hrd; left|done].
Qed.

(** The clock advances by at least the millisecond each iteration sleeps. *)
Fixpoint ticking (now : Z) (polls : list (Z * shared_mutex)) : Prop :=
  match polls with
  | [] => True
  | (n, _) :: rest => now <= n /\ ticking (n + 1) rest
  end.

Lemma try_acquire_loop_ends t deadline polls now :
  ticking now polls -> Z.max 0 (deadline - now) < Z.of_nat (length polls) ->
  try_acquire_loop t deadline polls <> None.
Proof.
  revert now. induction polls as [|[n m] polls IH]; intros now Ht Hl; cbn [ticking length] in *; [lia|].
  destruct Ht as [Hn Ht]. simpl. destruct (Z.ltb_spec n deadline); [|done].
  destruct (try_lock t m) as [[[] ?]| | |]; try done. apply (IH (n + 1)); [done|]. lia.
Qed.

Lemma try_lock_cases t m :
  try_lock t m = if owns t m then Undefined
    else if decide (m = free_mutex) then Done (true, mkMutex (Some t) []) else Done (false, m).
Proof.
  unfold try_lock, lock. destruct (owns t m); [done|].
  destruct m as [[w|] [|r rs]]; case_decide; naive_solver.
Qed.

Lemma try_acquire_loop_spec t deadline polls r :
  (forall n m, (n, m) ∈ polls -> owns t m = false) ->
  try_acquire_loop t deadline polls = Some r ->
  exists pre n m post, polls = pre ++ (n, m) :: post
    /\ (forall n' m', (n', m') ∈ pre -> n' < deadline /\ m' <> free_mutex)
    /\ r = Done (if bool_decide (n < deadline) then (true, mkMutex (Some t) []) else (false, m))
    /\ (n < deadline -> m = free_mutex).
Proof.
  induction polls as [|[n m] polls IH]; intros Ho E; [done|]. cbn [try_acquire_loop] in E.
  destruct (Z.ltb_spec n deadline) as [Hn|Hn].
  - rewrite try_lock_cases, (Ho n m) in E by left. case_decide as Hm.
    + injection E as <-. exists [], n, m, polls. rewrite bool_decide_eq_true_2 by done.
      split_and!; [done|by intros ? ? ?%not_elem_of_nil|done|done].
    + destruct IH as (pre & n' & m' & post & -> & Hpre & Hr & Hm'); [|done|].
      { intros. eapply Ho. by right. }
      exists ((n, m) :: pre), n', m', post. split_and!; [done| |done|done].
      intros n0 m0 [[= -> ->]|Hin]%elem_of_cons; [done|by eapply Hpre].
  - injection E as <-. exists [], n, m, polls. rewrite bool_decide_eq_false_2 by lia.
    split_and!; [done|by intros ? ? ?%not_elem_of_nil|done|lia].
Qed.

(** C26: [try_acquire_exclusive] ends after at most [timeout + 1] polls, since
    the clock advances by a millisecond each time; it answers [true], holding
    the mutex, when it polls a free mutex before the deadline, and [false],
    without touching it, when it reaches the deadline having found the mutex
    held at every poll before. *)
Theorem try_acquire_exclusive_correct t start timeout polls :
  ticking start polls -> Z.max 0 timeout < Z.of_nat (length polls) ->
  (forall n m, (n, m) ∈ polls -> owns t m = false) ->
  exists pre n m post, polls = pre ++ (n, m) :: post
    /\ (forall n' m', (n', m') ∈ pre -> n' < start + timeout /\ m' <> free_mutex)
    /\ try_acquire_exclusive t start timeout polls =
        Some (Done (if bool_decide (n < start + timeout) then (true, mkMutex (Some t) []) else (false, m)))
    /\ (n < start + timeout -> m = free_mutex).
Proof.
  intros Ht Hl Ho. unfold try_acquire_exclusive.
  pose proof (try_acquire_loop_ends t (start + timeout) polls start Ht) as He.
  destruct (try_acquire_loop t (start + timeout) polls) as [r|] eqn:E; [|exfalso; apply He; [lia|done]].
  destruct (try_acquire_loop_spec t (start + timeout) polls r Ho E)
    as (pre & n & m & post & ? & ? & -> & ?).
  by exists pre, n, m, post.
Qed.

(** ** Witnesses *)

(** One acquisition that is granted. *)
Definition scoped (t : tid) (md : mode) (name : string) (s : system) : system :=
  match acquire md t name (locks s) with
  | Done lm => mkSys lm (set_guards t ((md, name) :: guards s t) (guards s))
  | _ => s
  end.

Lemma scoped_reachable t md name s : reachable s -> reachable (scoped t md name s).
Proof.
  intros R. unfold scoped. destruct (acquire md t name (locks s)) as [lm| | |] eqn:E; try done.
  eapply rtc_r; [exact R|]. by apply step_scoped.
Qed.

(** Threads 0 and 1 read "t", then thread 0 takes "u" exclusively. *)
Definition sys3 : system := scoped 0 Ex "u" (scoped 1 Sh "t" (scoped 0 Sh "t" init_system)).

Lemma sys3_reachable : reachable sys3.
Proof. do 3 apply scoped_reachable. apply rtc_refl. Qed.

Lemma exclusive_excludes_witness : (Sh, "u") ∉ guards sys3 1%nat.
Proof.
  intros H. destruct (exclusive_excludes sys3 0%nat 1%nat Sh "u" sys3_reachable) as [? _];
    [apply (bool_decide_unpack _); vm_compute; exact I|exact H|discriminate].
Defined.

Lemma guard_destructor_safe_witness :
  exists lm, release Ex 0%nat "u" (locks sys3) = Done lm /\ mutex_of "u" lm = free_mutex.
Proof.
  destruct (guard_destructor_safe sys3 0%nat Ex "u" [(Sh, "t")] sys3_reachable) as (lm & E & _ & _ & F);
    [reflexivity|]. exists lm. split; [exact E|apply F; reflexivity].
Defined.

(** A third reader is granted. *)
Lemma acquire_granted_iff_witness : exists lm, acquire Sh 2%nat "t" (locks sys3) = Done lm.
Proof.
  apply (acquire_granted_iff sys3 2%nat Sh "t" sys3_reachable).
  - intros md' H. apply (not_elem_of_nil (md', "t")). exact H.
  - intros u md'. destruct (decide (u = 0%nat)) as [->|H0]; [|destruct (decide (u = 1%nat)) as [->|H1]].
    + change (guards sys3 0%nat) with [(Ex, "u"); (Sh, "t")]. rewrite !elem_of_cons, elem_of_nil. naive_solver.
    + change (guards sys3 1%nat) with [(Sh, "t")]. rewrite elem_of_cons, elem_of_nil. naive_solver.
    + intros H. exfalso. change (guards sys3) with
        (set_guards 0%nat [(Ex, "u"); (Sh, "t")] (set_guards 1%nat [(Sh, "t")] (set_guards 0%nat [(Sh, "t")] (fun _ => [])))) in H.
      unfold set_guards in H. rewrite !decide_False in H by done. by apply not_elem_of_nil in H.
Defined.

(** The mutex is held at the first poll and free at the second. *)
Lemma try_acquire_exclusive_correct_witness :
  try_acquire_exclusive 0%nat 10 5
    [(10, mkMutex (Some 1%nat) []); (12, free_mutex); (13, free_mutex); (14, free_mutex); (15, free_mutex); (16, free_mutex)]
  = Some (Done (true, mkMutex (Some 0%nat) [])).
Proof.
  destruct (try_acquire_exclusive_correct 0%nat 10 5
    [(10, mkMutex (Some 1%nat) []); (12, free_mutex); (13, free_mutex); (14, free_mutex); (15, free_mutex); (16, free_mutex)])
    as (pre & n & m & post & E & Hpre & R & Hm).
  - cbn. lia.
  - cbn. lia.
  - intros n m H. repeat (apply elem_of_cons in H as [[= -> ->]|H]; [reflexivity|]). by apply not_elem_of_nil in H.
  - exact R || reflexivity.
Defined.
