(* ===== verification/SnapshotChain.v ===== *)
(** * Snapshots and their history (src/transaction/snapshot.h)

    [build_snapshot_chain] walks parent pointers through an index built from
    a vector of snapshots. The loop of the source has no bound of its own:
    [chain_loop] runs it for a number of iterations and gives [None] while it
    has not ended. *)
From S2P Require Import Prelude Cxx.

Record Snapshot := mkSnapshot {
  snapshot_id : Z;
  parent_snapshot_id : Z;
  snap_table_id : Z;
  snap_operation : string;
  added_files_count : Z;
  deleted_files_count : Z;
  snap_committed_at : string }.

#[export] Instance Snapshot_eq_dec : EqDecision Snapshot.
Proof. solve_decision. Defined.

Definition is_ancestor_of (s : Snapshot) (other_parent : Z) : bool :=
  snapshot_id s <=? other_parent.

(** [index[s.snapshot_id] = &s] for each snapshot in order. *)
Definition build_index (all_snapshots : list Snapshot) : gmap Z Snapshot :=
  foldl (fun index s => <[snapshot_id s := s]> index) ∅ all_snapshots.

Fixpoint chain_loop (fuel : nat) (index : gmap Z Snapshot) (current : Z) : option (list Snapshot) :=
  match fuel with
  | O => None
  | S fuel' =>
      if current =? 0 then Some []
      else match index !! current with
           | None => Some []
           | Some s => rest ← chain_loop fuel' index (parent_snapshot_id s); Some (s :: rest)
           end
  end.

Definition build_snapshot_chain (fuel : nat) (all_snapshots : list Snapshot) (from_snapshot_id : Z)
    : option (list Snapshot) :=
  chain_loop fuel (build_index all_snapshots) from_snapshot_id.

(** Parents come before their children, as ids drawn from an increasing
    sequence are: what [commit_snapshot] produces. *)
Definition parents_older (all_snapshots : list Snapshot) : Prop :=
  forall s, s ∈ all_snapshots -> 0 <= parent_snapshot_id s < snapshot_id s.

(** ** The index *)

(** The snapshot an id denotes: the last one of the vector with that id. *)
Lemma build_index_lookup all i s :
  build_index all !! i = Some s -> s ∈ all /\ snapshot_id s = i.
Proof.
  unfold build_index. induction all as [|s' all IH] using rev_ind; [simpl; by rewrite lookup_empty|].
  rewrite foldl_app. simpl. rewrite lookup_insert_Some, elem_of_app, list_elem_of_singleton.
  intros [[<- ->]|[_ H]]; [auto|]. apply IH in H. tauto.
Qed.

Lemma build_index_present all i :
  is_Some (build_index all !! i) <-> exists s, s ∈ all /\ snapshot_id s = i.
Proof.
  split; [intros [s H]; exists s; by apply build_index_lookup|]. unfold build_index.
  induction all as [|s' all IH] using rev_ind; [by intros (? & ?%not_elem_of_nil & _)|].
  intros (s & Hs & <-). rewrite foldl_app. simpl. rewrite lookup_insert_is_Some.
  destruct (decide (snapshot_id s' = snapshot_id s)); [by left|]. right. split; [done|]. apply IH.
  apply elem_of_app in Hs as [Hs|Hs]; [by exists s|]. apply list_elem_of_singleton in Hs as ->. done.
Qed.

Lemma build_index_size all : (size (build_index all) <= length all)%nat.
Proof.
  induction all as [|s all IH] using rev_ind; [done|]. unfold build_index.
  rewrite foldl_app, length_app. simpl. fold (build_index all).
  destruct (build_index all !! snapshot_id s) eqn:E.
  - rewrite map_size_insert_Some by eauto. lia.
  - rewrite map_size_insert_None by done. lia.
Qed.

(** ** Termination *)

(** The snapshots that can still be visited. *)
Definition below (index : gmap Z Snapshot) (current : Z) : gmap Z Snapshot :=
  filter (fun p => p.1 <= current) index.

Lemma below_decreases (index : gmap Z Snapshot) i s :
  index !! i = Some s -> parent_snapshot_id s < i ->
  (size (below index (parent_snapshot_id s)) < size (below index i))%nat.
Proof.
  intros Hi Hp. apply map_subset_size. apply map_subset_alt. split.
  - apply map_subseteq_spec. intros j x. unfold below. rewrite !map_lookup_filter_Some. simpl. intros []. split; [done|lia].
  - exists i. unfold below. split.
    + rewrite map_lookup_filter_None. right. simpl. intros x _. lia.
    + exists s. apply map_lookup_filter_Some. simpl. split; [done|lia].
Qed.

Lemma chain_loop_ends index fuel current :
  (forall i s, index !! i = Some s -> parent_snapshot_id s < i) ->
  (size (below index current) < fuel)%nat -> is_Some (chain_loop fuel index current).
Proof.
  intros Hidx. revert current. induction fuel as [|fuel IH]; intros current Hf; [lia|]. simpl.
  destruct (current =? 0); [done|]. destruct (index !! current) as [s|] eqn:E; [|done].
  destruct (IH (parent_snapshot_id s)) as [rest ->]; [|done].
  pose proof (below_decreases index current s E (Hidx _ _ E)). lia.
Qed.

Lemma build_snapshot_chain_ends all from :
  parents_older all -> is_Some (build_snapshot_chain (S (length all)) all from).
Proof.
  intros Ho. apply chain_loop_ends.
  - intros i s [Hs <-]%build_index_lookup. by apply Ho.
  - pose proof (build_index_size all).
    enough (size (below (build_index all) from) <= size (build_index all))%nat by lia.
    apply map_subseteq_size, map_filter_subseteq.
Qed.

(** ** What the chain is *)

(** The history of an id: the snapshot it denotes, then the history of its
    parent; it stops at id 0 and at an id the vector does not hold. *)
Inductive history (all : list Snapshot) : Z -> list Snapshot -> Prop :=
  | history_root : history all 0 []
  | history_missing i : (forall s, s ∈ all -> snapshot_id s <> i) -> history all i []
  | history_step s chain :
      snapshot_id s <> 0 -> build_index all !! snapshot_id s = Some s ->
      history all (parent_snapshot_id s) chain -> history all (snapshot_id s) (s :: chain).

Lemma chain_loop_history fuel all from chain :
  chain_loop fuel (build_index all) from = Some chain -> history all from chain.
Proof.
  revert from chain. induction fuel as [|fuel IH]; intros from chain E; [done|]. cbn [chain_loop] in E.
  destruct (Z.eqb_spec from 0) as [->|Hf]; [injection E as <-; constructor|].
  destruct (build_index all !! from) as [s|] eqn:Hs.
  - destruct (chain_loop fuel _ _) as [rest|] eqn:Er; [|done]. injection E as <-.
    destruct (build_index_lookup _ _ _ Hs) as [_ <-]. by constructor; auto.
  - injection E as <-. constructor. intros s Hin <-.
    assert (is_Some (build_index all !! snapshot_id s)) as [? ?] by (apply build_index_present; eauto). congruence.
Qed.

Lemma history_sorted all i chain :
  parents_older all -> history all i chain ->
  StronglySorted (fun s s' => snapshot_id s' < snapshot_id s) chain
  /\ (forall s, s ∈ chain -> s ∈ all /\ is_ancestor_of s i = true).
Proof.
  intros Ho. induction 1 as [|i Hi|s chain Hz Hs _ [IH1 IH2]].
  - split; [constructor|by intros ? ?%not_elem_of_nil].
  - split; [constructor|by intros ? ?%not_elem_of_nil].
  - destruct (build_index_lookup _ _ _ Hs) as [Hall _]. pose proof (Ho s Hall). split.
    + constructor; [done|]. apply Forall_forall. intros s' Hs'.
      destruct (IH2 _ Hs') as [_ Ha]. unfold is_ancestor_of in Ha. lia.
    + unfold is_ancestor_of. intros s' [->|Hs']%elem_of_cons; [split; [done|lia]|].
      destruct (IH2 _ Hs') as [? Ha]. unfold is_ancestor_of in Ha. split; [done|lia].
Qed.

(** C35: when parents are older than their children the walk ends, within one
    iteration more than there are snapshots; its result is the history of the
    starting snapshot, whose ids strictly decrease, come from the vector and
    are all accepted by [is_ancestor_of] of the starting id. *)
Theorem build_snapshot_chain_correct all from :
  parents_older all ->
  exists chain, build_snapshot_chain (S (length all)) all from = Some chain
    /\ history all from chain
    /\ StronglySorted (fun s s' => snapshot_id s' < snapshot_id s) chain
    /\ (forall s, s ∈ chain -> s ∈ all /\ is_ancestor_of s from = true).
Proof.
  intros Ho. destruct (build_snapshot_chain_ends all from Ho) as [chain E]. exists chain.
  pose proof (chain_loop_history _ _ _ _ E) as Hh. split; [done|]. split; [done|]. by apply history_sorted.
Qed.

(** more iterations never change a result, and the walk has exactly one
    result however long it is given. *)
Theorem build_snapshot_chain_fuel fuel fuel' all from chain :
  build_snapshot_chain fuel all from = Some chain -> (fuel <= fuel')%nat ->
  build_snapshot_chain fuel' all from = Some chain.
Proof.
  unfold build_snapshot_chain. revert fuel' from chain.
  induction fuel as [|fuel IH]; intros [|fuel'] from chain E Hf; [done|done|lia|]. cbn [chain_loop] in *.
  destruct (from =? 0); [done|]. destruct (build_index all !! from) as [s|]; [|done].
  destruct (chain_loop fuel _ _) as [rest|] eqn:Er; [|done].
  rewrite (IH fuel' _ _ Er) by lia. done.
Qed.

(** C36: when the parent pointers reachable from the starting id never leave
    a set of non-zero ids of the vector (a snapshot that is its own parent,
    a cycle), the loop never ends. *)
Theorem build_snapshot_chain_diverges (ids : gset Z) all from fuel :
  from ∈ ids -> 0 ∉ ids ->
  (forall i, i ∈ ids -> exists s, build_index all !! i = Some s /\ parent_snapshot_id s ∈ ids) ->
  build_snapshot_chain fuel all from = None.
Proof.
  intros Hfrom H0 Hids. unfold build_snapshot_chain. revert from Hfrom.
  induction fuel as [|fuel IH]; intros from Hfrom; [done|]. simpl.
  destruct (Z.eqb_spec from 0) as [->|]; [done|].
  destruct (Hids from Hfrom) as (s & -> & Hp). by rewrite (IH _ Hp).
Qed.

(** ** Witnesses *)

Definition snap (i p : Z) : Snapshot := mkSnapshot i p 1 "append" 0 0 "".

Lemma build_snapshot_chain_correct_witness :
  parents_older [snap 1 0; snap 2 1; snap 4 2]
  /\ exists chain, build_snapshot_chain 4 [snap 1 0; snap 2 1; snap 4 2] 4 = Some chain.
Proof.
  assert (parents_older [snap 1 0; snap 2 1; snap 4 2]) as Ho.
  { intros s Hs. repeat (apply elem_of_cons in Hs as [->|Hs]; [simpl; lia|]).
    by apply not_elem_of_nil in Hs. }
  split; [exact Ho|].
  destruct (build_snapshot_chain_correct [snap 1 0; snap 2 1; snap 4 2] 4 Ho) as (chain & E & _).
  exists chain. exact E.
Defined.

Lemma build_snapshot_chain_fuel_witness :
  build_snapshot_chain 2 [snap 1 0] 1 = Some [snap 1 0]
  /\ build_snapshot_chain 100 [snap 1 0] 1 = Some [snap 1 0].
Proof.
  split; [reflexivity|].
  apply (build_snapshot_chain_fuel 2 100 [snap 1 0] 1 [snap 1 0]); [reflexivity|lia].
Defined.

Lemma build_snapshot_chain_diverges_witness :
  build_snapshot_chain 1000 [snap 7 7] 7 = None.
Proof.
  apply (build_snapshot_chain_diverges {[7]} [snap 7 7] 7 1000).
  - set_solver.
  - set_solver.
  - intros i ->%elem_of_singleton. exists (snap 7 7). split; [reflexivity|set_solver].
Defined.
