(* ===== verification/Mvcc.v ===== *)
(** * The transaction manager (src/transaction/mvcc_manager.h, mvcc_manager.cpp)

    Counters are [uint64_t] atomics; the steady clock counts nanoseconds and
    is an argument of the functions that read it. [compare_exchange_weak] may
    fail spuriously: [attempts] lists, for each attempt of the loop of
    [commit_transaction], whether it does.

    [mutex_] is held from [begin_register] on and for the whole of the other
    functions; the second half of the file interleaves threads at the grain of
    these atomic steps. *)
From S2P Require Import Prelude Cxx.

Record TransactionState := mkTxn {
  txn_id : Z;
  read_snapshot_id : Z;
  is_committed : bool;
  started_at : Z }.

Record MVCCManager := mkMVCC {
  next_txn_id_ : Z;
  latest_committed_snapshot_ : Z;
  active_transactions_ : gmap Z TransactionState;
  pinned_snapshots_ : gset Z;
  txn_timeout_ : Z (** seconds *) }.

(** The constructor, with the member initialisers of the class. *)
Definition make_mvcc (txn_timeout : Z) : MVCCManager := mkMVCC 1 0 ∅ ∅ txn_timeout.

(** A duration of the clock against a number of seconds. *)
Definition expired (now : Z) (m : MVCCManager) (t : TransactionState) : bool :=
  txn_timeout_ m * 1000000000 <? now - started_at t.

(** ** [begin_transaction] *)

(** [next_txn_id_.fetch_add(1)] *)
Definition begin_fetch (m : MVCCManager) : Z * MVCCManager :=
  (next_txn_id_ m,
   mkMVCC (u64 (next_txn_id_ m + 1)) (latest_committed_snapshot_ m)
     (active_transactions_ m) (pinned_snapshots_ m) (txn_timeout_ m)).

Definition get_latest_committed_snapshot (m : MVCCManager) : Z := latest_committed_snapshot_ m.

(** The critical section. *)
Definition begin_register (now id read_snapshot : Z) (m : MVCCManager) : MVCCManager :=
  mkMVCC (next_txn_id_ m) (latest_committed_snapshot_ m)
    (<[id := mkTxn id read_snapshot false now]> (active_transactions_ m))
    ({[read_snapshot]} ∪ pinned_snapshots_ m) (txn_timeout_ m).

Definition begin_transaction (now : Z) (m : MVCCManager) : (Z * Z) * MVCCManager :=
  let '(id, m1) := begin_fetch m in
  let read_snapshot := get_latest_committed_snapshot m1 in
  ((id, read_snapshot), begin_register now id read_snapshot m1).

(** ** [commit_transaction] *)

(** [pinned_snapshots_.erase(it->second.read_snapshot_id);
     active_transactions_.erase(it);] *)
Definition end_transaction (id : Z) (t : TransactionState) (m : MVCCManager) : MVCCManager :=
  mkMVCC (next_txn_id_ m) (latest_committed_snapshot_ m)
    (delete id (active_transactions_ m))
    (pinned_snapshots_ m ∖ {[read_snapshot_id t]}) (txn_timeout_ m).

Definition set_latest (v : Z) (m : MVCCManager) : MVCCManager :=
  mkMVCC (next_txn_id_ m) v (active_transactions_ m) (pinned_snapshots_ m) (txn_timeout_ m).

(** The loop: [latest] is the atomic, which only holders of [mutex_] write.
    The result is its final value; [None]: the attempts ran out. *)
Fixpoint cas_loop (attempts : list bool) (latest current new_snapshot : Z) : option Z :=
  if current <? new_snapshot then
    match attempts with
    | [] => None
    | spurious :: rest =>
        if negb spurious && (latest =? current) then Some new_snapshot
        else cas_loop rest latest latest (u64 (latest + 1))
    end
  else Some latest.

Definition commit_transaction (attempts : list bool) (now id : Z) (m : MVCCManager)
    : option (bool * MVCCManager) :=
  match active_transactions_ m !! id with
  | None => Some (false, m)
  | Some t =>
      if expired now m t then Some (false, end_transaction id t m)
      else
        let new_snapshot := u64 (latest_committed_snapshot_ m + 1) in
        let current := latest_committed_snapshot_ m in
        v ← cas_loop attempts (latest_committed_snapshot_ m) current new_snapshot;
        Some (true, end_transaction id t (set_latest v m))
  end.

Definition abort_transaction (id : Z) (m : MVCCManager) : MVCCManager :=
  match active_transactions_ m !! id with
  | Some t => end_transaction id t m
  | None => m
  end.

(** ** Queries *)

Definition is_visible (write_snapshot_id read_snapshot_id : Z) : bool :=
  write_snapshot_id <=? read_snapshot_id.

Definition validate_parent_snapshot (table_name : string) (parent_snapshot_id current_snapshot_id : Z) : bool :=
  parent_snapshot_id =? current_snapshot_id.

Definition active_transaction_count (m : MVCCManager) : Z := Z.of_nat (size (active_transactions_ m)).

Definition is_snapshot_pinned (snapshot_id : Z) (m : MVCCManager) : bool :=
  bool_decide (snapshot_id ∈ pinned_snapshots_ m).

(** ** [cleanup_expired_transactions] *)

(** The loop over the entries in the order of the hash table. *)
Fixpoint cleanup_loop (now : Z) (entries : list (Z * TransactionState)) (cleaned : Z) (m : MVCCManager)
    : Z * MVCCManager :=
  match entries with
  | [] => (cleaned, m)
  | (id, t) :: rest =>
      if expired now m t then cleanup_loop now rest (cleaned + 1) (end_transaction id t m)
      else cleanup_loop now rest cleaned m
  end.

Definition cleanup_expired_transactions (now : Z) (m : MVCCManager) : Z * MVCCManager :=
  cleanup_loop now (map_to_list (active_transactions_ m)) 0 m.

(** ** The compare-and-swap loop *)

Lemma cas_loop_spec attempts latest :
  0 <= latest < u64_mod -> false ∈ attempts ->
  cas_loop attempts latest latest (u64 (latest + 1)) =
    Some (if latest =? u64_mod - 1 then latest else latest + 1).
Proof.
  intros Hl. change (u64_mod - 1) with 18446744073709551615. unfold u64, u64_mod in *.
  destruct (Z.eqb_spec latest 18446744073709551615) as [->|Hne].
  { intros _. by destruct attempts as [|[] ?]. }
  rewrite (Z.mod_small (latest + 1)) by lia.
  induction attempts as [|b attempts IH]; intros Hf; [by apply not_elem_of_nil in Hf|].
  cbn [cas_loop]. destruct (Z.ltb_spec latest (latest + 1)); [|lia]. rewrite Z.eqb_refl.
  destruct b; [|done]. simpl. apply elem_of_cons in Hf as [?|Hf]; [done|].
  unfold u64, u64_mod. rewrite (Z.mod_small (latest + 1)) by lia. by apply IH.
Qed.

Lemma cas_loop_all_spurious attempts latest v :
  0 <= latest < u64_mod -> false ∉ attempts ->
  cas_loop attempts latest latest (u64 (latest + 1)) = Some v ->
  v = if latest =? u64_mod - 1 then latest else latest + 1.
Proof.
  intros Hl. change (u64_mod - 1) with 18446744073709551615. unfold u64, u64_mod in *.
  destruct (Z.eqb_spec latest 18446744073709551615) as [->|Hne].
  { intros _. destruct attempts as [|[] ?]; simpl; congruence. }
  rewrite (Z.mod_small (latest + 1)) by lia.
  induction attempts as [|b attempts IH]; cbn [cas_loop]; destruct (Z.ltb_spec latest (latest + 1)); try lia; [done|].
  intros Hf. destruct b; [|exfalso; apply Hf; left]. simpl.
  unfold u64, u64_mod. rewrite (Z.mod_small (latest + 1)) by lia. apply IH. intros ?. apply Hf. by right.
Qed.

(** ** What each operation does *)

(** C30: [commit_transaction] on every branch, however often the weak
    compare-and-swap fails before it succeeds: an unknown transaction is
    refused and changes nothing; an expired one is refused and removed; any
    other one is removed, and the snapshot counter advances by one (it stays
    at the largest [uint64_t] once it is there). *)
Theorem commit_transaction_correct attempts now id m :
  0 <= latest_committed_snapshot_ m < u64_mod -> false ∈ attempts ->
  commit_transaction attempts now id m =
    Some match active_transactions_ m !! id with
         | None => (false, m)
         | Some t =>
             if expired now m t then (false, end_transaction id t m)
             else (true, end_transaction id t
                     (set_latest (if latest_committed_snapshot_ m =? u64_mod - 1
                                  then latest_committed_snapshot_ m
                                  else latest_committed_snapshot_ m + 1) m))
         end.
Proof.
  intros Hl Hf. unfold commit_transaction. destruct (_ !! id) as [t|]; [|done].
  destruct (expired now m t); [done|]. by rewrite cas_loop_spec.
Qed.

Lemma commit_transaction_cases attempts now id m r m' :
  commit_transaction attempts now id m = Some (r, m') ->
  (active_transactions_ m !! id = None /\ r = false /\ m' = m)
  \/ (exists t v, active_transactions_ m !! id = Some t /\ m' = end_transaction id t (set_latest v m)
        /\ (r = false -> v = latest_committed_snapshot_ m)).
Proof.
  unfold commit_transaction. destruct (_ !! id) as [t|] eqn:E; [|intros [= <- <-]; by left].
  intros H. right. exists t. destruct (expired now m t).
  - injection H as <- <-. exists (latest_committed_snapshot_ m). by destruct m.
  - destruct (cas_loop _ _ _ _) as [v|]; [|done]. injection H as <- <-. by exists v.
Qed.

(** C32: a transaction ends once: after a call of [commit_transaction] on it,
    whatever its answer, and after [abort_transaction], a commit of the same
    id is refused and changes nothing. *)
Theorem transaction_ends_once attempts now id m r m' attempts' now' :
  (commit_transaction attempts now id m = Some (r, m') \/ abort_transaction id m = m') ->
  commit_transaction attempts' now' id m' = Some (false, m').
Proof.
  assert (forall m, active_transactions_ m !! id = None ->
    commit_transaction attempts' now' id m = Some (false, m)) as Hnone.
  { intros m0 E. unfold commit_transaction. by rewrite E. }
  intros [H|H]; apply Hnone.
  - apply commit_transaction_cases in H as [(E & _ & ->)|(t & v & _ & -> & _)]; [done|]. simpl.
    apply lookup_delete_eq.
  - subst m'. unfold abort_transaction. destruct (active_transactions_ m !! id) eqn:E; [|done].
    simpl. apply lookup_delete_eq.
Qed.

Lemma expired_end now id t t' m : expired now (end_transaction id t' m) t = expired now m t.
Proof. done. Qed.

Lemma cleanup_loop_spec now es cleaned m :
  NoDup es.*1 -> (forall e, e ∈ es -> active_transactions_ m !! e.1 = Some e.2) ->
  let '(n, m') := cleanup_loop now es cleaned m in
  n = cleaned + Z.of_nat (length (filter (fun e => expired now m e.2) es))
  /\ active_transactions_ m' = filter (fun e => ~ (e.1 ∈ es.*1 /\ expired now m e.2)) (active_transactions_ m)
  /\ pinned_snapshots_ m' = pinned_snapshots_ m
       ∖ list_to_set ((fun e => read_snapshot_id e.2) <$> filter (fun e => expired now m e.2) es)
  /\ next_txn_id_ m' = next_txn_id_ m /\ latest_committed_snapshot_ m' = latest_committed_snapshot_ m
  /\ txn_timeout_ m' = txn_timeout_ m.
Proof.
  revert cleaned m. induction es as [|[id t] es IH]; intros cleaned m Hn Hes.
  { simpl. split; [lia|]. split; [|by rewrite difference_empty_L].
    symmetry. apply map_filter_id. intros i x _ [?%not_elem_of_nil _]. done. }
  cbn in Hn. apply NoDup_cons in Hn as [Hid Hn].
  assert (active_transactions_ m !! id = Some t) as Ht by (apply (Hes (id, t)); left).
  cbn [cleanup_loop]. rewrite (filter_bool_cons (fun e => expired now m e.2)). cbn [snd].
  destruct (expired now m t) eqn:He.
  - specialize (IH (cleaned + 1) (end_transaction id t m) Hn).
    destruct (cleanup_loop _ _ _ _) as [n m']. destruct IH as (-> & Ha & Hp & Hr).
    { intros e Hin. simpl. rewrite lookup_delete_ne; [by apply Hes; right|].
      intros ->. apply Hid. by apply list_elem_of_fmap_2. }
    split; [unfold expired; simpl; lia|]. split; [|split; [|done]].
    + rewrite Ha. apply map_eq. intros i. apply option_eq. intros x.
      cbn [end_transaction active_transactions_].
      rewrite !map_lookup_filter_Some, lookup_delete_Some. simpl.
      rewrite elem_of_cons. unfold expired in *. simpl.
      split; [|naive_solver]. intros [[Hi Hx] Hne]. split; [done|].
      intros [[->|Hin] Hexp]; [done|]. by apply Hne.
    + rewrite Hp. unfold expired. simpl. set_solver.
  - specialize (IH cleaned m Hn). destruct (cleanup_loop _ _ _ _) as [n m'].
    destruct IH as (-> & Ha & Hp & Hr); [intros e Hin; apply Hes; by right|].
    split; [done|]. split; [|split; [|done]].
    + rewrite Ha. apply map_eq. intros i. apply option_eq. intros x.
      rewrite !map_lookup_filter_Some. simpl. rewrite elem_of_cons.
      split; [|naive_solver]. intros [Hx Hne]. split; [done|]. intros [[->|Hin] Hexp]; [|by apply Hne].
      rewrite Ht in Hx. injection Hx as <-. by rewrite He in Hexp.
    + done.
Qed.

(** [cleanup_expired_transactions] removes exactly the transactions older
    than the timeout, in whatever order the hash table enumerates them,
    returns how many they were, and advances no counter. *)
Theorem cleanup_removes_expired now m :
  let '(n, m') := cleanup_expired_transactions now m in
  active_transactions_ m' = filter (fun e => expired now m e.2 = false) (active_transactions_ m)
  /\ n = active_transaction_count m - active_transaction_count m'
  /\ next_txn_id_ m' = next_txn_id_ m /\ latest_committed_snapshot_ m' = latest_committed_snapshot_ m
  /\ txn_timeout_ m' = txn_timeout_ m.
Proof.
  unfold cleanup_expired_transactions.
  pose proof (cleanup_loop_spec now (map_to_list (active_transactions_ m)) 0 m
    (NoDup_fst_map_to_list _)) as H.
  destruct (cleanup_loop _ _ _ _) as [n m']. destruct H as (-> & Ha & _ & Hn & Hl & Ht).
  { intros [i x] Hin. by apply elem_of_map_to_list. }
  assert (active_transactions_ m' = filter (fun e => expired now m e.2 = false) (active_transactions_ m)) as E.
  { rewrite Ha. apply map_filter_ext. intros i x Hx. simpl.
    assert (i ∈ (map_to_list (active_transactions_ m)).*1) as Hin.
    { apply list_elem_of_fmap. exists (i, x). split; [done|]. by apply elem_of_map_to_list. }
    destruct (expired now m x); naive_solver. }
  split; [done|]. split; [|done]. unfold active_transaction_count. rewrite E.
  pose proof (map_size_filter_bool (fun e => expired now m e.2) (active_transactions_ m)) as Hs.
  simpl in Hs. lia.
Qed.

Lemma cleanup_cleans now m :
  let m' := (cleanup_expired_transactions now m).2 in
  forall id x, active_transactions_ m' !! id = Some x -> expired now m' x = false.
Proof.
  pose proof (cleanup_removes_expired now m) as H. destruct (cleanup_expired_transactions now m) as [n m'].
  destruct H as (Ha & _ & _ & _ & Ht). cbn. intros id x. rewrite Ha, map_lookup_filter_Some. intros [_ He].
  unfold expired in *. by rewrite Ht.
Qed.

(** ** Interleavings

    A thread in the middle of [begin_transaction] has fetched an id, or also
    loaded the read snapshot. [issued] lists the ids that were handed out, in
    order, and [commits] counts the successful commits; the code has neither. *)
Inductive begin_pc :=
  | Fetched (id : Z)
  | Loaded (id read_snapshot : Z).

Definition pc_id (p : begin_pc) : Z := match p with Fetched id => id | Loaded id _ => id end.

Record mvcc_sys := mkSys {
  mgr : MVCCManager;
  pcs : gmap nat begin_pc;
  clock : Z;
  issued : list Z;
  commits : nat }.

(** The number of calls of [fetch_add]. *)
Definition begins (s : mvcc_sys) : nat := length (issued s).

Inductive mvcc_step (s : mvcc_sys) : mvcc_sys -> Prop :=
  | step_fetch t :
      pcs s !! t = None ->
      mvcc_step s (mkSys (begin_fetch (mgr s)).2 (<[t := Fetched (begin_fetch (mgr s)).1]> (pcs s))
                     (clock s) (issued s ++ [(begin_fetch (mgr s)).1]) (commits s))
  | step_load t id :
      pcs s !! t = Some (Fetched id) ->
      mvcc_step s (mkSys (mgr s) (<[t := Loaded id (get_latest_committed_snapshot (mgr s))]> (pcs s))
                     (clock s) (issued s) (commits s))
  | step_register t id snap :
      pcs s !! t = Some (Loaded id snap) ->
      mvcc_step s (mkSys (begin_register (clock s) id snap (mgr s)) (delete t (pcs s))
                     (clock s) (issued s) (commits s))
  | step_commit attempts id r m :
      commit_transaction attempts (clock s) id (mgr s) = Some (r, m) ->
      mvcc_step s (mkSys m (pcs s) (clock s) (issued s) (if r : bool then S (commits s) else commits s))
  | step_abort id :
      mvcc_step s (mkSys (abort_transaction id (mgr s)) (pcs s) (clock s) (issued s) (commits s))
  | step_cleanup :
      mvcc_step s (mkSys (cleanup_expired_transactions (clock s) (mgr s)).2 (pcs s)
                     (clock s) (issued s) (commits s))
  | step_tick c :
      clock s <= c -> mvcc_step s (mkSys (mgr s) (pcs s) c (issued s) (commits s)).

Definition init_sys (txn_timeout now : Z) : mvcc_sys := mkSys (make_mvcc txn_timeout) ∅ now [] 0.

Definition reachable (s : mvcc_sys) : Prop := exists timeout now, rtc mvcc_step (init_sys timeout now) s.

(** The id the [k]-th call of [fetch_add] returns. *)
Definition nth_id (k : nat) : Z := u64 (1 + Z.of_nat k).

Record mvcc_inv (s : mvcc_sys) : Prop := {
  mi_issued : issued s = nth_id <$> seq 0 (begins s);
  mi_next : next_txn_id_ (mgr s) = nth_id (begins s);
  mi_latest : latest_committed_snapshot_ (mgr s) = Z.min (Z.of_nat (commits s)) (u64_mod - 1);
  mi_pending : forall t p, pcs s !! t = Some p -> exists k, (k < begins s)%nat /\ pc_id p = nth_id k;
  mi_active : forall id x, active_transactions_ (mgr s) !! id = Some x ->
      txn_id x = id /\ is_committed x = false
      /\ read_snapshot_id x <= latest_committed_snapshot_ (mgr s)
      /\ (exists k, (k < begins s)%nat /\ id = nth_id k);
  mi_loaded : forall t id snap, pcs s !! t = Some (Loaded id snap) -> snap <= latest_committed_snapshot_ (mgr s);
  mi_distinct : forall t t' p p', pcs s !! t = Some p -> pcs s !! t' = Some p' -> pc_id p = pc_id p' -> t = t';
  mi_fresh : forall t p, pcs s !! t = Some p -> active_transactions_ (mgr s) !! pc_id p = None;
  mi_pins : forall i, i ∈ pinned_snapshots_ (mgr s) ->
      exists id x, active_transactions_ (mgr s) !! id = Some x /\ read_snapshot_id x = i }.

Lemma nth_id_inj k k' : (k < k')%nat -> Z.of_nat k' < u64_mod -> nth_id k <> nth_id k'.
Proof.
  unfold nth_id, u64, u64_mod. intros Hk Hb E.
  destruct (decide (Z.of_nat k' = 18446744073709551615)) as [E'|].
  - rewrite E', (Z.mod_small (1 + Z.of_nat k)) in E by lia. change ((1 + 18446744073709551615) mod 18446744073709551616) with 0 in E. lia.
  - rewrite !Z.mod_small in E by lia. lia.
Qed.

Lemma nth_ids_NoDup n : Z.of_nat n <= u64_mod -> NoDup (nth_id <$> seq 0 n).
Proof.
  intros Hn. induction n as [|n IH]; [constructor|]. rewrite seq_S, fmap_app. apply NoDup_app. split; [apply IH; lia|].
  split; [|apply NoDup_singleton]. intros id (k & -> & Hk)%list_elem_of_fmap E%list_elem_of_singleton.
  apply elem_of_seq in Hk. apply (nth_id_inj k n) in E; [done|lia|lia].
Qed.

(** Ending a transaction keeps the clauses about active transactions. *)
Lemma inv_end s id x v c :
  mvcc_inv s -> active_transactions_ (mgr s) !! id = Some x ->
  latest_committed_snapshot_ (mgr s) <= v -> v = Z.min (Z.of_nat c) (u64_mod - 1) ->
  mvcc_inv (mkSys (end_transaction id x (set_latest v (mgr s))) (pcs s) (clock s) (issued s) c).
Proof.
  intros I Hx Hv Hc. split; simpl.
  - apply I.
  - apply I.
  - done.
  - apply I.
  - intros i y [_ Hy]%lookup_delete_Some. destruct (mi_active _ I _ _ Hy) as (? & ? & ? & ?). split_and!; [done|done|lia|done].
  - intros t i snap Ht. pose proof (mi_loaded _ I _ _ _ Ht). lia.
  - apply I.
  - intros t p Ht. rewrite lookup_delete_None. right. by eapply (mi_fresh _ I).
  - intros i [Hi Hne]%elem_of_difference. destruct (mi_pins _ I _ Hi) as (id' & y & Hy & <-).
    exists id', y. split; [|done]. rewrite lookup_delete_ne; [done|]. intros ->.
    rewrite Hx in Hy. injection Hy as ->. by apply Hne, elem_of_singleton.
Qed.

Lemma inv_end_same s id x :
  mvcc_inv s -> active_transactions_ (mgr s) !! id = Some x ->
  mvcc_inv (mkSys (end_transaction id x (mgr s)) (pcs s) (clock s) (issued s) (commits s)).
Proof.
  intros I Hx. pose proof (inv_end s id x (latest_committed_snapshot_ (mgr s)) (commits s) I Hx
    (Z.le_refl _) (mi_latest _ I)) as I'.
  destruct s as [[]]. exact I'.
Qed.

Lemma inv_cleanup s es n :
  mvcc_inv s -> NoDup es.*1 -> (forall e, e ∈ es -> active_transactions_ (mgr s) !! e.1 = Some e.2) ->
  mvcc_inv (mkSys (cleanup_loop (clock s) es n (mgr s)).2 (pcs s) (clock s) (issued s) (commits s)).
Proof.
  revert s n. induction es as [|[id x] es IH]; intros s n I Hn Hes; [by destruct s|].
  cbn in Hn. apply NoDup_cons in Hn as [Hid Hn]. cbn [cleanup_loop].
  destruct (expired _ _ _).
  - apply (IH (mkSys (end_transaction id x (mgr s)) (pcs s) (clock s) (issued s) (commits s))).
    + apply inv_end_same; [done|]. apply (Hes (id, x)). left.
    + done.
    + intros e He. simpl. rewrite lookup_delete_ne; [apply Hes; by right|].
      intros ->. apply Hid. by apply list_elem_of_fmap_2.
  - apply IH; [done|done|]. intros e He. apply Hes. by right.
Qed.

Lemma inv_fetch s t :
  mvcc_inv s -> pcs s !! t = None -> Z.of_nat (begins s) < u64_mod ->
  mvcc_inv (mkSys (begin_fetch (mgr s)).2 (<[t := Fetched (begin_fetch (mgr s)).1]> (pcs s))
              (clock s) (issued s ++ [(begin_fetch (mgr s)).1]) (commits s)).
Proof.
  intros I Ht Hb. simpl. rewrite (mi_next _ I).
  assert (forall m p c n, begins (mkSys m p c (issued s ++ [nth_id (begins s)]) n) = S (begins s)) as Hbegins
    by (intros; unfold begins; cbn; rewrite length_app; cbn; lia).
  assert (forall k, (k < begins s)%nat -> nth_id k <> nth_id (begins s)) as Hne by (intros; by apply nth_id_inj).
  assert (issued s ++ [nth_id (begins s)] = nth_id <$> seq 0 (S (begins s))) as Hissued
    by (rewrite seq_S, fmap_app, <- (mi_issued _ I); done).
  split; rewrite ?Hbegins; simpl.
  - exact Hissued.
  - unfold nth_id, u64, u64_mod. rewrite Zplus_mod_idemp_l. f_equal. lia.
  - apply I.
  - intros t' p [[_ <-]|[_ Hp]]%lookup_insert_Some.
    + exists (begins s). split; [lia|done].
    + destruct (mi_pending _ I _ _ Hp) as (k & ? & ?). exists k. split; [lia|done].
  - intros i y Hy. destruct (mi_active _ I _ _ Hy) as (? & ? & ? & k & ? & ?).
    split_and!; [done..|]. exists k. split; [lia|done].
  - intros t' i snap [[_ ?]|[_ Hp]]%lookup_insert_Some; [done|]. by eapply (mi_loaded _ I).
  - intros t1 t2 p1 p2 H1 H2 E.
    apply lookup_insert_Some in H1 as [[<- <-]|[Hn1 H1]], H2 as [[<- <-]|[Hn2 H2]]; simpl in *.
    + done.
    + destruct (mi_pending _ I _ _ H2) as (k & Hk & E'). exfalso. apply (Hne k Hk). congruence.
    + destruct (mi_pending _ I _ _ H1) as (k & Hk & E'). exfalso. apply (Hne k Hk). congruence.
    + by eapply (mi_distinct _ I).
  - intros t' p [[_ <-]|[_ Hp]]%lookup_insert_Some; simpl; [|by eapply (mi_fresh _ I)].
    destruct (active_transactions_ (mgr s) !! nth_id (begins s)) as [y|] eqn:Hy; [|done].
    destruct (mi_active _ I _ _ Hy) as (_ & _ & _ & k & Hk & E). exfalso. by apply (Hne k Hk).
  - apply I.
Qed.

Lemma inv_load s t id :
  mvcc_inv s -> pcs s !! t = Some (Fetched id) ->
  mvcc_inv (mkSys (mgr s) (<[t := Loaded id (get_latest_committed_snapshot (mgr s))]> (pcs s))
              (clock s) (issued s) (commits s)).
Proof.
  intros I Ht.
  assert (forall t' p, <[t := Loaded id (get_latest_committed_snapshot (mgr s))]> (pcs s) !! t' = Some p ->
    exists p', pcs s !! t' = Some p' /\ pc_id p' = pc_id p) as Hold.
  { intros t' p [[<- <-]|[_ Hp]]%lookup_insert_Some; eauto. }
  split; simpl; try apply I.
  - intros t' p (p' & Hp & <-)%Hold. by eapply (mi_pending _ I).
  - intros t' i snap [[_ [= _ <-]]|[_ Hp]]%lookup_insert_Some; [done|]. by eapply (mi_loaded _ I).
  - intros t1 t2 p1 p2 (p1' & H1 & <-)%Hold (p2' & H2 & <-)%Hold. by apply (mi_distinct _ I).
  - intros t' p (p' & Hp & <-)%Hold. by eapply (mi_fresh _ I).
Qed.

Lemma inv_register s t id snap :
  mvcc_inv s -> pcs s !! t = Some (Loaded id snap) ->
  mvcc_inv (mkSys (begin_register (clock s) id snap (mgr s)) (delete t (pcs s))
              (clock s) (issued s) (commits s)).
Proof.
  intros I Ht.
  assert (forall t' p, delete t (pcs s) !! t' = Some p -> pcs s !! t' = Some p) as Hold
    by (intros t' p [_ Hp]%lookup_delete_Some; done).
  split; simpl; try apply I.
  - intros t' p Hp%Hold. by eapply (mi_pending _ I).
  - intros i y [[<- <-]|[_ Hy]]%lookup_insert_Some; [|by apply (mi_active _ I)]. simpl.
    split_and!; [done|done|by eapply (mi_loaded _ I)|]. apply (mi_pending _ I _ _ Ht).
  - intros t' i snap' Hp%Hold. by eapply (mi_loaded _ I).
  - intros t1 t2 p1 p2 H1%Hold H2%Hold. by apply (mi_distinct _ I).
  - intros t' p Hp. rewrite lookup_insert_ne; [by apply (mi_fresh _ I t'), Hold|].
    intros E. apply lookup_delete_Some in Hp as [Hne Hp]. apply Hne. by apply (mi_distinct _ I _ _ _ _ Ht Hp).
  - intros i [->%elem_of_singleton|Hi]%elem_of_union.
    + exists id, (mkTxn id snap false (clock s)). by rewrite lookup_insert_eq.
    + destruct (mi_pins _ I _ Hi) as (id' & y & Hy & E). exists id', y. split; [|done].
      rewrite lookup_insert_ne; [done|]. intros ->. pose proof (mi_fresh _ I _ _ Ht). simpl in *. congruence.
Qed.

Lemma inv_commit s attempts id r m :
  mvcc_inv s -> commit_transaction attempts (clock s) id (mgr s) = Some (r, m) ->
  mvcc_inv (mkSys m (pcs s) (clock s) (issued s) (if r : bool then S (commits s) else commits s)).
Proof.
  intros I E. unfold commit_transaction in E.
  destruct (active_transactions_ (mgr s) !! id) as [x|] eqn:Hx; [|injection E as <- <-; by destruct s].
  destruct (expired _ _ _); [injection E as <- <-; by apply inv_end_same|].
  destruct (cas_loop _ _ _ _) as [v|] eqn:Ev; [|done]. injection E as <- <-.
  assert (0 <= latest_committed_snapshot_ (mgr s) < u64_mod) as Hb
    by (rewrite (mi_latest _ I); unfold u64_mod; lia).
  assert (v = if latest_committed_snapshot_ (mgr s) =? u64_mod - 1 then latest_committed_snapshot_ (mgr s)
              else latest_committed_snapshot_ (mgr s) + 1) as ->.
  { destruct (decide (false ∈ attempts)) as [Hf|Hf]; [rewrite cas_loop_spec in Ev by done; congruence|].
    by apply cas_loop_all_spurious in Ev. }
  apply inv_end; [done|done|destruct (_ =? _); lia|].
  rewrite (mi_latest _ I). unfold u64_mod in *. destruct (Z.eqb_spec (Z.min (Z.of_nat (commits s)) (18446744073709551616 - 1)) (18446744073709551616 - 1)); lia.
Qed.

(** The number of calls of [fetch_add] never decreases. *)
Lemma begins_mono s s' : rtc mvcc_step s s' -> (begins s <= begins s')%nat.
Proof.
  induction 1 as [|s1 s2 s3 St _ IH]; [done|]. destruct St; unfold begins in *; simpl in *; rewrite ?length_app in IH; lia.
Qed.

Lemma mvcc_inv_step s s' :
  mvcc_inv s -> mvcc_step s s' -> Z.of_nat (begins s') <= u64_mod -> mvcc_inv s'.
Proof.
  intros I St Hb. destruct St; simpl in Hb.
  - apply inv_fetch; [done|done|]. unfold begins in *. simpl in Hb. rewrite length_app in Hb. cbn in Hb. lia.
  - by apply inv_load.
  - by apply (inv_register _ t).
  - by eapply inv_commit.
  - unfold abort_transaction. destruct (_ !! id) eqn:E; [by apply inv_end_same|by destruct s].
  - apply inv_cleanup; [done|apply NoDup_fst_map_to_list|]. intros [] ?. by apply elem_of_map_to_list.
  - destruct I. by split.
Qed.

Lemma inv_initial timeout now : mvcc_inv (init_sys timeout now).
Proof.
  split; simpl; try done; intros *; rewrite ?lookup_empty; done.
Qed.

Lemma mvcc_reachable_inv s : reachable s -> Z.of_nat (begins s) <= u64_mod -> mvcc_inv s.
Proof.
  intros (timeout & now & R). revert R. generalize (inv_initial timeout now).
  generalize (init_sys timeout now). intros s0 I R.
  induction R as [|s1 s2 s3 St R IH]; intros Hb; [done|].
  apply IH; [|done]. eapply mvcc_inv_step; [done|done|]. pose proof (begins_mono _ _ R). lia.
Qed.

(** ** Properties of every interleaving *)

(** C31: up to 2^64 calls of [begin_transaction], in every interleaving: no id
    is handed out twice, whether its transaction is still beginning, active or
    over; the calls in progress and the active transactions have ids that were
    handed out, each its own, and no call in progress has the id of an active
    transaction (so that registering one overwrites nothing); an active
    transaction is filed under its own id and its read snapshot is not newer
    than the latest committed one; the snapshot counter counts the successful
    commits; and every pinned snapshot is the read snapshot of an active
    transaction. *)
Theorem mvcc_interleaving_safe s :
  reachable s -> Z.of_nat (begins s) <= u64_mod ->
  NoDup (issued s)
  /\ (forall t p, pcs s !! t = Some p -> pc_id p ∈ issued s)
  /\ (forall id x, active_transactions_ (mgr s) !! id = Some x -> id ∈ issued s)
  /\ (forall t t' p p', pcs s !! t = Some p -> pcs s !! t' = Some p' -> pc_id p = pc_id p' -> t = t')
  /\ (forall t p, pcs s !! t = Some p -> active_transactions_ (mgr s) !! pc_id p = None)
  /\ (forall id x, active_transactions_ (mgr s) !! id = Some x ->
        txn_id x = id /\ read_snapshot_id x <= latest_committed_snapshot_ (mgr s))
  /\ latest_committed_snapshot_ (mgr s) = Z.min (Z.of_nat (commits s)) (u64_mod - 1)
  /\ (forall i, is_snapshot_pinned i (mgr s) = true ->
        exists id x, active_transactions_ (mgr s) !! id = Some x /\ read_snapshot_id x = i).
Proof.
  intros R Hb. pose proof (mvcc_reachable_inv s R Hb) as I.
  assert (forall k, (k < begins s)%nat -> nth_id k ∈ issued s) as Hin.
  { intros k Hk. rewrite (mi_issued _ I). apply list_elem_of_fmap_2, elem_of_seq. lia. }
  split; [rewrite (mi_issued _ I); by apply nth_ids_NoDup|]. split_and!; try apply I.
  - intros t p Hp. destruct (mi_pending _ I _ _ Hp) as (k & Hk & ->). by apply Hin.
  - intros id x Hx. destruct (mi_active _ I _ _ Hx) as (_ & _ & _ & k & Hk & ->). by apply Hin.
  - intros id x Hx. destruct (mi_active _ I _ _ Hx) as (? & _ & ? & _). done.
  - intros i Hi. apply (mi_pins _ I). by apply bool_decide_eq_true in Hi.
Qed.

(** [id'] is active, and its read snapshot is not pinned. *)
Definition left_unpinned (id' : Z) (x' : TransactionState) (m : MVCCManager) : Prop :=
  active_transactions_ m !! id' = Some x' /\ is_snapshot_pinned (read_snapshot_id x') m = false.

Lemma end_shared id x id' x' m :
  id <> id' -> active_transactions_ m !! id' = Some x' -> read_snapshot_id x = read_snapshot_id x' ->
  left_unpinned id' x' (end_transaction id x m).
Proof.
  intros Hne Hx' Hr. split; [cbn; by rewrite lookup_delete_ne|].
  unfold is_snapshot_pinned. apply bool_decide_eq_false. cbn. rewrite Hr. set_solver.
Qed.

(** Whatever ends a transaction that shares the snapshot of one that stays. *)
Lemma cleanup_shared now id x id' x' m :
  active_transactions_ m !! id = Some x -> active_transactions_ m !! id' = Some x' ->
  read_snapshot_id x = read_snapshot_id x' -> expired now m x = true -> expired now m x' = false ->
  left_unpinned id' x' (cleanup_expired_transactions now m).2.
Proof.
  intros Hx Hx' Hr He He'. unfold cleanup_expired_transactions.
  pose proof (cleanup_loop_spec now (map_to_list (active_transactions_ m)) 0 m (NoDup_fst_map_to_list _)) as H.
  destruct (cleanup_loop _ _ _ _) as [n m']. destruct H as (_ & Ha & Hp & _).
  { intros [i y] Hin. by apply elem_of_map_to_list. }
  split; cbn [snd].
  - rewrite Ha. apply map_lookup_filter_Some. split; [done|]. cbn. rewrite He'. by intros [_ []].
  - unfold is_snapshot_pinned. apply bool_decide_eq_false. rewrite Hp. apply not_elem_of_difference. right.
    apply elem_of_list_to_set, list_elem_of_fmap. exists (id, x). split; [done|]. apply list_elem_of_filter.
    split; [cbn; by rewrite He|by apply elem_of_map_to_list].
Qed.

(** C34: the pins are a set, not a multiset: of two active transactions that
    read the same snapshot, ending one removes the pin of the other, which is
    still active. It does not matter how the first one ends: by an abort, by a
    commit, whether it is answered with success or the transaction had expired,
    or by a cleanup that finds it expired and the other not. *)
Theorem shared_pin_lost m id x id' x' :
  id <> id' -> active_transactions_ m !! id = Some x -> active_transactions_ m !! id' = Some x' ->
  read_snapshot_id x = read_snapshot_id x' ->
  left_unpinned id' x' (abort_transaction id m)
  /\ (forall attempts now, 0 <= latest_committed_snapshot_ m < u64_mod -> false ∈ attempts ->
        exists r m', commit_transaction attempts now id m = Some (r, m') /\ left_unpinned id' x' m')
  /\ (forall now, expired now m x = true -> expired now m x' = false ->
        left_unpinned id' x' (cleanup_expired_transactions now m).2).
Proof.
  intros Hne Hx Hx' Hr. split; [|split].
  - unfold abort_transaction. rewrite Hx. by apply end_shared.
  - intros attempts now Hl Hf. unfold commit_transaction. rewrite Hx. destruct (expired now m x).
    + do 2 eexists. split; [done|]. by apply end_shared.
    + rewrite cas_loop_spec by done. do 2 eexists. split; [done|]. by apply end_shared.
  - intros now He He'. by apply (cleanup_shared now id x).
Qed.

(** ** Witnesses *)

Definition mvcc_two : MVCCManager :=
  (begin_transaction 5 (begin_transaction 0 (make_mvcc 300)).2).2.

Lemma commit_transaction_correct_witness :
  exists m, commit_transaction [true; true; false] 10 2 mvcc_two = Some (true, m)
    /\ latest_committed_snapshot_ m = 1 /\ active_transaction_count m = 1.
Proof.
  eexists. split.
  - rewrite (commit_transaction_correct [true; true; false] 10 2 mvcc_two).
    + reflexivity.
    + split; [vm_compute; discriminate|reflexivity].
    + do 2 right. left.
  - split; reflexivity.
Defined.

Lemma transaction_ends_once_witness :
  commit_transaction [false] 10 2 (abort_transaction 2 mvcc_two) = Some (false, abort_transaction 2 mvcc_two).
Proof.
  apply (transaction_ends_once [] 0 2 mvcc_two true (abort_transaction 2 mvcc_two) [false] 10).
  right. reflexivity.
Defined.

(** A transaction was begun and aborted, and another one is beginning. *)
Definition mvcc_second : mvcc_sys :=
  mkSys (begin_fetch (abort_transaction 1 (begin_transaction 7 (make_mvcc 300)).2)).2 (<[0%nat := Fetched 2]> ∅) 7 [1; 2] 0.

Lemma mvcc_interleaving_safe_witness :
  reachable mvcc_second /\ NoDup (issued mvcc_second) /\ active_transactions_ (mgr mvcc_second) !! 2 = None
  /\ latest_committed_snapshot_ (mgr mvcc_second) = 0.
Proof.
  assert (R : reachable mvcc_second).
  { exists 300, 7. eapply rtc_l; [apply (step_fetch (init_sys 300 7) 0%nat); reflexivity|].
    eapply rtc_l; [apply (step_load _ 0%nat 1); reflexivity|]. eapply rtc_l; [apply (step_register _ 0%nat 1 0); reflexivity|].
    eapply rtc_l; [apply (step_abort _ 1)|]. eapply rtc_l; [apply (step_fetch _ 0%nat); reflexivity|apply rtc_refl]. }
  split; [exact R|].
  destruct (mvcc_interleaving_safe _ R) as (Hn & _ & _ & _ & Hfresh & _ & Hl & _); [vm_compute; discriminate|].
  split; [exact Hn|]. split; [apply (Hfresh 0%nat (Fetched 2)); reflexivity|exact Hl].
Defined.

(** Two transactions at snapshot 0, which is pinned until one of them ends. *)
Lemma shared_pin_lost_witness :
  is_snapshot_pinned 0 mvcc_two = true
  /\ is_snapshot_pinned 0 (abort_transaction 1 mvcc_two) = false
  /\ (exists m', commit_transaction [true; false] 10 1 mvcc_two = Some (true, m') /\ is_snapshot_pinned 0 m' = false)
  /\ is_snapshot_pinned 0 (cleanup_expired_transactions 300000000003 mvcc_two).2 = false.
Proof.
  destruct (shared_pin_lost mvcc_two 1 (mkTxn 1 0 false 0) 2 (mkTxn 2 0 false 5)) as (Ha & Hc & He);
    [discriminate|reflexivity..|].
  split; [reflexivity|]. split; [apply Ha|]. split; [|apply He; reflexivity].
  destruct (Hc [true; false] 10) as (r & m' & E & H); [split; [vm_compute; discriminate|reflexivity]|right; left|].
  exists m'. split; [|apply H]. rewrite E. vm_compute in E. injection E as <- _. reflexivity.
Defined.
