(* ===== verification/ServerConfig.v ===== *)
(** * Configuration (src/config/server_config.h)

    The environment is a function from variable names to values, [std::getenv].
    Numbers go through [std::stoul] and [std::stoi], which may throw. *)
From S2P Require Import Prelude Cxx.

Record ServerConfig := mkConfig {
  pg_conn_string : string;
  grpc_address : string;
  cache_capacity : Z;
  pool_size : Z;
  txn_timeout_s : Z }.

(** The default member initialisers. *)
Definition default_config : ServerConfig :=
  mkConfig "host=localhost port=5432 dbname=metadata user=metadata_user password=metadata_pass"
    "0.0.0.0:50051" 10000 20 300.

(** A number read from a variable when it is set. *)
Definition number_from (conv : string -> cxx_exn + Z) (v : option string) (dflt : Z) : cxx_exn + Z :=
  match v with Some s => conv s | None => inr dflt end.

Definition from_env (getenv : string -> option string) : cxx_exn + ServerConfig :=
  let cfg := default_config in
  let conn := default (pg_conn_string cfg) (getenv "PG_CONN_STRING") in
  let addr := match getenv "GRPC_PORT" with
              | Some v => "0.0.0.0:" +:+ v
              | None => default (grpc_address cfg) (getenv "GRPC_ADDRESS")
              end in
  match number_from stoul (getenv "CACHE_CAPACITY") (cache_capacity cfg) with
  | inl e => inl e
  | inr capacity =>
      match number_from stoul (getenv "POOL_SIZE") (pool_size cfg) with
      | inl e => inl e
      | inr pool =>
          match number_from stoi (getenv "TXN_TIMEOUT_SEC") (txn_timeout_s cfg) with
          | inl e => inl e
          | inr timeout => inr (mkConfig conn addr capacity pool timeout)
          end
      end
  end.

(** ** Properties *)

Lemma number_from_range conv v dflt z (P : Z -> Prop) :
  P dflt -> (forall s z, conv s = inr z -> P z) -> number_from conv v dflt = inr z -> P z.
Proof. intros Hd Hc. destruct v as [s|]; simpl; [apply Hc|]. by intros [= <-]. Qed.

Lemma stoul_range s z : stoul s = inr z -> 0 <= z < u64_mod.
Proof.
  unfold stoul. destruct (read_int s); [|done]. case_match; [|done]. intros [= <-].
  apply Z.mod_pos_bound. done.
Qed.

Lemma stoul_small z : in_u64 z = true -> stoul (to_string z) = inr z.
Proof.
  intros [H1%Z.leb_le H2%Z.ltb_lt]%andb_prop. rewrite stoul_to_string, Z.abs_eq, (proj2 (Z.ltb_lt _ _) H2) by done.
  unfold u64. by rewrite Z.mod_small.
Qed.

Lemma stoi_range s z : stoi s = inr z -> i32_min <= z <= i32_max.
Proof.
  unfold stoi, sto_signed. destruct (read_int s); [|done]. case_match eqn:E; [|done]. intros [= <-].
  unfold in_i32 in E. apply andb_prop in E as [? ?]. lia.
Qed.

(** The variables that hold numbers, in the order in which they are read. *)
Definition number_variables : list (string * (string -> cxx_exn + Z)) :=
  [("CACHE_CAPACITY", stoul); ("POOL_SIZE", stoul); ("TXN_TIMEOUT_SEC", stoi)].

(** The exception of a variable that is set to something that is no number, or
    to one that is too large. *)
Definition malformed (getenv : string -> option string) (x : string * (string -> cxx_exn + Z)) : option cxx_exn :=
  s ← getenv x.1; match x.2 s with inl e => Some e | inr _ => None end.

(** A field holds the number its variable is set to, or its default. *)
Definition set_from (getenv : string -> option string) (v : string) (conv : string -> cxx_exn + Z) (dflt field : Z) : Prop :=
  match getenv v with Some s => conv s = inr field | None => field = dflt end.

Lemma number_from_cases getenv v conv dflt :
  match number_from conv (getenv v) dflt with
  | inl e => malformed getenv (v, conv) = Some e
  | inr z => malformed getenv (v, conv) = None /\ set_from getenv v conv dflt z
  end.
Proof.
  unfold number_from, malformed, set_from. cbn. destruct (getenv v) as [s|]; [|done]. cbn. by destruct (conv s) eqn:E.
Qed.

(** C37: [from_env] throws exactly when a variable that is set is no number of
    its type, and then what the first such one throws. Otherwise every field
    has the value of its variable, or the default of the source when that is
    not set, with the port variable before the address variable; sizes are
    [size_t] values and the timeout is an [int]. Numbers in decimal are
    taken as they are. *)
Theorem from_env_correct getenv :
  (forall e, from_env getenv = inl e <-> head (omap (malformed getenv) number_variables) = Some e)
  /\ (forall cfg, from_env getenv = inr cfg ->
        pg_conn_string cfg
          = default "host=localhost port=5432 dbname=metadata user=metadata_user password=metadata_pass" (getenv "PG_CONN_STRING")
        /\ grpc_address cfg = match getenv "GRPC_PORT" with
                              | Some p => "0.0.0.0:" +:+ p
                              | None => default "0.0.0.0:50051" (getenv "GRPC_ADDRESS")
                              end
        /\ set_from getenv "CACHE_CAPACITY" stoul 10000 (cache_capacity cfg)
        /\ set_from getenv "POOL_SIZE" stoul 20 (pool_size cfg)
        /\ set_from getenv "TXN_TIMEOUT_SEC" stoi 300 (txn_timeout_s cfg)
        /\ 0 <= cache_capacity cfg < u64_mod /\ 0 <= pool_size cfg < u64_mod /\ i32_min <= txn_timeout_s cfg <= i32_max)
  /\ (forall capacity pool timeout,
        in_u64 capacity = true -> in_u64 pool = true -> in_i32 timeout = true ->
        getenv "CACHE_CAPACITY" = Some (to_string capacity) -> getenv "POOL_SIZE" = Some (to_string pool) ->
        getenv "TXN_TIMEOUT_SEC" = Some (to_string timeout) ->
        exists cfg, from_env getenv = inr cfg
          /\ cache_capacity cfg = capacity /\ pool_size cfg = pool /\ txn_timeout_s cfg = timeout).
Proof.
  split; [|split].
  - intros e. unfold from_env, number_variables. cbn [omap list_omap].
    pose proof (number_from_cases getenv "CACHE_CAPACITY" stoul (cache_capacity default_config)) as Hc.
    destruct (number_from stoul (getenv "CACHE_CAPACITY") _) as [e1|c]; [rewrite Hc; cbn; split; congruence|].
    destruct Hc as [-> _]. pose proof (number_from_cases getenv "POOL_SIZE" stoul (pool_size default_config)) as Hp.
    destruct (number_from stoul (getenv "POOL_SIZE") _) as [e1|p]; [rewrite Hp; cbn; split; congruence|].
    destruct Hp as [-> _]. pose proof (number_from_cases getenv "TXN_TIMEOUT_SEC" stoi (txn_timeout_s default_config)) as Ht.
    destruct (number_from stoi _ _) as [e1|t]; [rewrite Ht; cbn; split; congruence|]. by destruct Ht as [-> _].
  - intros cfg. unfold from_env.
    pose proof (number_from_cases getenv "CACHE_CAPACITY" stoul 10000) as Hc.
    destruct (number_from stoul (getenv "CACHE_CAPACITY") _) as [|c] eqn:Ec; [done|].
    pose proof (number_from_cases getenv "POOL_SIZE" stoul 20) as Hp.
    destruct (number_from stoul (getenv "POOL_SIZE") _) as [|p] eqn:Ep; [done|].
    pose proof (number_from_cases getenv "TXN_TIMEOUT_SEC" stoi 300) as Ht.
    destruct (number_from stoi _ _) as [|t] eqn:Et; [done|]. intros [= <-].
    split; [done|]. split; [done|]. split; [apply Hc|]. split; [apply Hp|]. split; [apply Ht|]. split; [|split].
    + by refine (number_from_range _ _ _ _ (fun z => 0 <= z < u64_mod) _ stoul_range Ec).
    + by refine (number_from_range _ _ _ _ (fun z => 0 <= z < u64_mod) _ stoul_range Ep).
    + by refine (number_from_range _ _ _ _ (fun z => i32_min <= z <= i32_max) _ stoi_range Et).
  - intros capacity pool timeout Hc Hp Ht Ec Ep Et. unfold from_env, number_from.
    rewrite Ec, Ep, Et, !stoul_small, stoi_to_string, Ht by done. by eexists.
Qed.

(** A port, and a size with a minus sign. *)
Definition env_ex (v : string) : option string :=
  if decide (v = "GRPC_PORT") then Some "9090" else
  if decide (v = "POOL_SIZE") then Some "-1" else None.

Lemma from_env_correct_witness :
  (exists cfg, from_env env_ex = inr cfg /\ grpc_address cfg = "0.0.0.0:9090" /\ pool_size cfg = u64_mod - 1
     /\ cache_capacity cfg = 10000)
  /\ from_env (fun v => if decide (v = "POOL_SIZE") then Some "ten" else None) = inl InvalidArgument.
Proof.
  split.
  - eexists. split; [reflexivity|]. destruct (from_env_correct env_ex) as (_ & H & _).
    destruct (H _ eq_refl) as (_ & Ha & Hc & _). split; [exact Ha|]. split; [reflexivity|exact Hc].
  - destruct (from_env_correct (fun v => if decide (v = "POOL_SIZE") then Some "ten" else None)) as (H & _).
    apply H. reflexivity.
Defined.
