(* ===== verification/Sql.v ===== *)
(** * The SQL the sources send

    A lexer and a recursive-descent parser for the fragment of SQL that the
    statements of src/db/pg_client.cpp, src/catalog/schema_store.cpp and the
    managers are written in. The definitions that model those files keep the
    statements as the text the sources contain; [parse_sql] gives the text a
    structure on which Database.v defines its documented meaning. *)
From S2P Require Import Prelude Cxx.

(** ** Tokens *)

Inductive token :=
  | TWord (w : string)
  | TParam (n : nat)
  | TLpar | TRpar | TComma | TEq | TLe | TGt | TCast.

#[export] Instance token_eq_dec : EqDecision token.
Proof. solve_decision. Defined.

Definition in_range (lo hi : nat) (c : ascii) : bool :=
  (lo <=? nat_of_ascii c)%nat && (nat_of_ascii c <=? hi)%nat.

(** Letters, digits, the underscore and the dollar of a parameter. *)
Definition word_char (c : ascii) : bool :=
  in_range 65 90 c || in_range 97 122 c || in_range 48 57 c
  || (nat_of_ascii c =? 95)%nat || (nat_of_ascii c =? 36)%nat.

Definition flush (w : string) (k : option (list token)) : option (list token) :=
  match w with
  | EmptyString => k
  | String "$" d => n ← read_nat d; ts ← k; Some (TParam (Z.to_nat n) :: ts)
  | _ => ts ← k; Some (TWord w :: ts)
  end.

(** [w] is the word read so far. *)
Fixpoint lex_from (s : string) (w : string) : option (list token) :=
  match s with
  | EmptyString => flush w (Some [])
  | String c s' =>
      if word_char c then lex_from s' (w +:+ String c EmptyString)
      else flush w
        match c with
        | " "%char => lex_from s' ""
        | "("%char => cons TLpar <$> lex_from s' ""
        | ")"%char => cons TRpar <$> lex_from s' ""
        | ","%char => cons TComma <$> lex_from s' ""
        | "="%char => cons TEq <$> lex_from s' ""
        | ">"%char => cons TGt <$> lex_from s' ""
        | "<"%char => match s' with String "=" s'' => cons TLe <$> lex_from s'' "" | _ => None end
        | ":"%char => match s' with String ":" s'' => cons TCast <$> lex_from s'' "" | _ => None end
        | _ => None
        end
  end.

Definition lex (s : string) : option (list token) := lex_from s "".

(** ** Statements *)

Inductive operand :=
  | OParam (n : nat)
  | OJsonb (n : nat)
  | OBool (b : bool)
  | ONow.

Inductive cmpop := CEq | CLe | CGt.

Inductive pred :=
  | PCmp (column : string) (op : cmpop) (rhs : operand)
  | PAnd (p q : pred)
  | POr (p q : pred).

(** [limit] and [offset] are parameter numbers; [order] is a column and
    whether the order is descending. *)
Inductive stmt :=
  | Select (rel : string) (columns : list string) (condition : pred)
      (order : option (string * bool)) (limit offset : option nat)
  | Insert (rel : string) (columns : list string) (values : list operand)
      (conflict : option string) (returning : option string)
  | Update (rel : string) (sets : list (string * operand)) (condition : pred)
  | Delete (rel : string) (condition : pred)
  | Begin
  | Commit
  | Rollback.

#[export] Instance stmt_eq_dec : EqDecision stmt.
Proof.
  assert (EqDecision operand) by solve_decision. assert (EqDecision cmpop) by solve_decision.
  assert (EqDecision pred) by solve_decision. solve_decision.
Defined.

(** ** The parser *)

Definition parser (A : Type) := list token -> option (A * list token).

Definition expect (t : token) : parser unit := fun ts =>
  match ts with t' :: ts' => if decide (t = t') then Some ((), ts') else None | [] => None end.
Definition word (w : string) : parser unit := expect (TWord w).
Definition word_is (w : string) (ts : list token) : bool :=
  match ts with TWord w' :: _ => bool_decide (w = w') | _ => false end.

Definition ident : parser string := fun ts =>
  match ts with TWord w :: ts' => Some (w, ts') | _ => None end.

(** One or more [p] separated by commas; [fuel] bounds their number. *)
Fixpoint comma_list {A} (fuel : nat) (p : parser A) : parser (list A) := fun ts =>
  match fuel with
  | O => None
  | S f =>
      '(a, ts) ← p ts;
      match ts with
      | TComma :: ts' => '(l, ts) ← comma_list f p ts'; Some (a :: l, ts)
      | _ => Some ([a], ts)
      end
  end.

(** A selected column, perhaps cast to text: the cast does not change the text
    the client receives. *)
Definition select_column : parser string := fun ts =>
  '(c, ts) ← ident ts;
  match ts with TCast :: TWord "text" :: ts' => Some (c, ts') | _ => Some (c, ts) end.

Definition parse_operand : parser operand := fun ts =>
  match ts with
  | TParam n :: TCast :: TWord "jsonb" :: ts' => Some (OJsonb n, ts')
  | TParam n :: ts' => Some (OParam n, ts')
  | TWord "true" :: ts' => Some (OBool true, ts')
  | TWord "false" :: ts' => Some (OBool false, ts')
  | TWord "now" :: TLpar :: TRpar :: ts' => Some (ONow, ts')
  | _ => None
  end.

Definition parse_cmpop : parser cmpop := fun ts =>
  match ts with
  | TEq :: ts' => Some (CEq, ts')
  | TLe :: ts' => Some (CLe, ts')
  | TGt :: ts' => Some (CGt, ts')
  | _ => None
  end.

(** A disjunction of conjunctions of comparisons and parenthesised conditions. *)
Fixpoint condition (fuel : nat) : parser pred := fun ts =>
  match fuel with
  | O => None
  | S f =>
      '(p, ts) ← conjunction f ts;
      if word_is "OR" ts then '(q, ts) ← condition f (tail ts); Some (POr p q, ts) else Some (p, ts)
  end
with conjunction (fuel : nat) : parser pred := fun ts =>
  match fuel with
  | O => None
  | S f =>
      '(p, ts) ← match ts with
                 | TLpar :: ts' => '(p, ts) ← condition f ts'; '(_, ts) ← expect TRpar ts; Some (p, ts)
                 | _ => '(c, ts) ← ident ts; '(op, ts) ← parse_cmpop ts; '(o, ts) ← parse_operand ts;
                        Some (PCmp c op o, ts)
                 end;
      if word_is "AND" ts then '(q, ts) ← conjunction f (tail ts); Some (PAnd p q, ts) else Some (p, ts)
  end.

(** Longer than any list or condition of the sources. *)
Definition parse_fuel : nat := 40.

Definition where_clause : parser pred := fun ts =>
  '(_, ts) ← word "WHERE" ts; condition parse_fuel ts.

Definition param_clause (kw : string) : parser (option nat) := fun ts =>
  if word_is kw ts then match tail ts with TParam n :: ts' => Some (Some n, ts') | _ => None end
  else Some (None, ts).

Definition order_clause : parser (option (string * bool)) := fun ts =>
  if word_is "ORDER" ts then
    '(_, ts) ← word "BY" (tail ts); '(c, ts) ← ident ts;
    if word_is "DESC" ts then Some (Some (c, true), tail ts) else Some (Some (c, false), ts)
  else Some (None, ts).

Definition parens {A} (p : parser A) : parser A := fun ts =>
  '(_, ts) ← expect TLpar ts; '(a, ts) ← p ts; '(_, ts) ← expect TRpar ts; Some (a, ts).

Definition parse_select : parser stmt := fun ts =>
  '(cs, ts) ← comma_list parse_fuel select_column ts;
  '(_, ts) ← word "FROM" ts; '(r, ts) ← ident ts;
  '(p, ts) ← where_clause ts; '(o, ts) ← order_clause ts;
  '(l, ts) ← param_clause "LIMIT" ts; '(f, ts) ← param_clause "OFFSET" ts;
  Some (Select r cs p o l f, ts).

Definition conflict_clause : parser (option string) := fun ts =>
  if word_is "ON" ts then
    '(_, ts) ← word "CONFLICT" (tail ts); '(c, ts) ← parens ident ts;
    '(_, ts) ← word "DO" ts; '(_, ts) ← word "NOTHING" ts; Some (Some c, ts)
  else Some (None, ts).

Definition returning_clause : parser (option string) := fun ts =>
  if word_is "RETURNING" ts then '(c, ts) ← ident (tail ts); Some (Some c, ts) else Some (None, ts).

Definition parse_insert : parser stmt := fun ts =>
  '(_, ts) ← word "INTO" ts; '(r, ts) ← ident ts;
  '(cs, ts) ← parens (comma_list parse_fuel ident) ts;
  '(_, ts) ← word "VALUES" ts; '(vs, ts) ← parens (comma_list parse_fuel parse_operand) ts;
  '(c, ts) ← conflict_clause ts; '(k, ts) ← returning_clause ts;
  Some (Insert r cs vs c k, ts).

Definition assignment : parser (string * operand) := fun ts =>
  '(c, ts) ← ident ts; '(_, ts) ← expect TEq ts; '(o, ts) ← parse_operand ts; Some ((c, o), ts).

Definition parse_update : parser stmt := fun ts =>
  '(r, ts) ← ident ts; '(_, ts) ← word "SET" ts;
  '(ss, ts) ← comma_list parse_fuel assignment ts; '(p, ts) ← where_clause ts;
  Some (Update r ss p, ts).

Definition parse_delete : parser stmt := fun ts =>
  '(_, ts) ← word "FROM" ts; '(r, ts) ← ident ts; '(p, ts) ← where_clause ts;
  Some (Delete r p, ts).

Definition parse_tokens (ts : list token) : option stmt :=
  '(s, rest) ← match ts with
    | TWord "SELECT" :: ts' => parse_select ts'
    | TWord "INSERT" :: ts' => parse_insert ts'
    | TWord "UPDATE" :: ts' => parse_update ts'
    | TWord "DELETE" :: ts' => parse_delete ts'
    | TWord "BEGIN" :: ts' => Some (Begin, ts')
    | TWord "COMMIT" :: ts' => Some (Commit, ts')
    | TWord "ROLLBACK" :: ts' => Some (Rollback, ts')
    | _ => None
    end;
  match rest with [] => Some s | _ => None end.

Definition parse_sql (text : string) : option stmt := ts ← lex text; parse_tokens ts.

Example parse_ex :
  parse_sql "SELECT a, b::text FROM t WHERE a = $1  AND (b = false OR c > $2) ORDER BY a DESC LIMIT $3"
  = Some (Select "t" ["a"; "b"]
      (PAnd (PCmp "a" CEq (OParam 1)) (POr (PCmp "b" CEq (OBool false)) (PCmp "c" CGt (OParam 2))))
      (Some ("a", true)) (Some 3%nat) None).
Proof. vm_compute. reflexivity. Qed.
