(* ===== verification/Database.v ===== *)
(** * The database (scripts/init_db.sql) and the meaning of the statements

    The five tables as typed records, with the nullable columns as options,
    and the effect a statement of Sql.v has on them according to the SQL
    standard and the PostgreSQL manual: three-valued conditions, input
    conversion of parameters by column type, defaults, constraints, ordering
    with nulls last, LIMIT and OFFSET. Nothing here is assumed of the server:
    PgService.v says in which sense a server follows it. *)
From S2P Require Import Prelude Cxx Sql.

(** ** Values and types *)

Inductive sqlval :=
  | SNull
  | SInt (z : Z)
  | SText (s : string)
  | SJson (s : string)
  | SBool (b : bool)
  | STime (t : Z).

Inductive sqltype := TInt8 | TInt4 | TText | TJsonb | TBool | TTimestamp.

(** ** The tables *)

Record table_rec := mkTable {
  tb_table_id : Z;
  tb_table_name : string;
  tb_schema_json : string;
  tb_schema_version : Z;
  tb_partition_spec : option string;
  tb_current_snapshot_id : option Z;
  tb_properties : option string;
  tb_created_at : option Z;
  tb_updated_at : option Z;
  tb_is_deleted : option bool }.

Record history_rec := mkHistory {
  hi_schema_history_id : Z;
  hi_table_id : option Z;
  hi_schema_version : Z;
  hi_schema_json : string;
  hi_changed_at : option Z;
  hi_change_summary : option string }.

Record snapshot_rec := mkSnap {
  sn_snapshot_id : Z;
  sn_table_id : option Z;
  sn_parent_snapshot_id : option Z;
  sn_committed_at : option Z;
  sn_operation : string;
  sn_added_files_count : option Z;
  sn_deleted_files_count : option Z;
  sn_summary : option string }.

Record partition_rec := mkPart {
  pa_partition_id : Z;
  pa_table_id : option Z;
  pa_snapshot_id : option Z;
  pa_partition_key : string;
  pa_data_file_path : string;
  pa_file_format : string;
  pa_row_count : option Z;
  pa_size_bytes : option Z;
  pa_column_stats : option string;
  pa_is_deleted : option bool;
  pa_deleted_snapshot_id : option Z }.

Record transaction_rec := mkTransaction {
  tx_txn_id : Z;
  tx_client_id : string;
  tx_read_snapshot_id : option Z;
  tx_status : option string;
  tx_isolation_level : option string;
  tx_started_at : option Z;
  tx_committed_at : option Z;
  tx_timeout_at : option Z }.

Record Db := mkDb {
  db_tables : list table_rec;
  db_history : list history_rec;
  db_snapshots : list snapshot_rec;
  db_partitions : list partition_rec;
  db_transactions : list transaction_rec }.

Definition empty_db : Db := mkDb [] [] [] [] [].

(** ** Columns *)

Definition of_opt {A} (f : A -> sqlval) (o : option A) : sqlval :=
  match o with Some a => f a | None => SNull end.

Definition to_int (v : sqlval) : option Z := match v with SInt z => Some z | _ => None end.
Definition to_text (v : sqlval) : option string := match v with SText s => Some s | _ => None end.
Definition to_json (v : sqlval) : option string := match v with SJson s => Some s | _ => None end.
Definition to_bool (v : sqlval) : option bool := match v with SBool b => Some b | _ => None end.
Definition to_time (v : sqlval) : option Z := match v with STime t => Some t | _ => None end.

(** A value for a nullable column. *)
Definition nullable {A} (f : sqlval -> option A) (v : sqlval) : option (option A) :=
  match v with SNull => Some None | _ => Some <$> f v end.

Record column (R : Type) := Col {
  col_name : string;
  col_type : sqltype;
  col_get : R -> sqlval;
  col_set : sqlval -> R -> option R }.
Arguments Col {R} _ _ _ _.
Arguments col_name {R} _.
Arguments col_type {R} _.
Arguments col_get {R} _ _.
Arguments col_set {R} _ _ _.

(** A relation: its key, its columns, the row an INSERT starts from (the next value of
    the sequence, the current time, the defaults), and the columns that are
    NOT NULL without a default. *)
Class Rel (R : Type) := {
  rel_id : R -> Z;
  columns : list (column R);
  blank : Z -> Z -> R;
  required : list string }.

Definition find_col {R} `{Rel R} (c : string) : option (column R) :=
  List.find (fun k => String.eqb (col_name k) c) columns.

#[export] Instance table_rel : Rel table_rec := {
  rel_id := tb_table_id;
  columns :=
    [Col "table_id" TInt8 (fun r => SInt (tb_table_id r)) (fun _ _ => None);
     Col "table_name" TText (fun r => SText (tb_table_name r))
       (fun v '(mkTable a _ c d e f g h i j) => b ← to_text v; Some (mkTable a b c d e f g h i j));
     Col "schema_json" TJsonb (fun r => SJson (tb_schema_json r))
       (fun v '(mkTable a b _ d e f g h i j) => c ← to_json v; Some (mkTable a b c d e f g h i j));
     Col "schema_version" TInt4 (fun r => SInt (tb_schema_version r))
       (fun v '(mkTable a b c _ e f g h i j) => d ← to_int v; Some (mkTable a b c d e f g h i j));
     Col "partition_spec" TText (fun r => of_opt SText (tb_partition_spec r))
       (fun v '(mkTable a b c d _ f g h i j) => e ← nullable to_text v; Some (mkTable a b c d e f g h i j));
     Col "current_snapshot_id" TInt8 (fun r => of_opt SInt (tb_current_snapshot_id r))
       (fun v '(mkTable a b c d e _ g h i j) => f ← nullable to_int v; Some (mkTable a b c d e f g h i j));
     Col "properties" TJsonb (fun r => of_opt SJson (tb_properties r))
       (fun v '(mkTable a b c d e f _ h i j) => g ← nullable to_json v; Some (mkTable a b c d e f g h i j));
     Col "updated_at" TTimestamp (fun r => of_opt STime (tb_updated_at r))
       (fun v '(mkTable a b c d e f g h _ j) => i ← nullable to_time v; Some (mkTable a b c d e f g h i j));
     Col "is_deleted" TBool (fun r => of_opt SBool (tb_is_deleted r))
       (fun v '(mkTable a b c d e f g h i _) => j ← nullable to_bool v; Some (mkTable a b c d e f g h i j))];
  blank := fun id now =>
    mkTable id "" "" 1 None (Some 0) (Some "{}") (Some now) (Some now) (Some false);
  required := ["table_name"; "schema_json"] }.

#[export] Instance history_rel : Rel history_rec := {
  rel_id := hi_schema_history_id;
  columns :=
    [Col "schema_history_id" TInt8 (fun r => SInt (hi_schema_history_id r)) (fun _ _ => None);
     Col "table_id" TInt8 (fun r => of_opt SInt (hi_table_id r))
       (fun v '(mkHistory a _ c d e f) => b ← nullable to_int v; Some (mkHistory a b c d e f));
     Col "schema_version" TInt4 (fun r => SInt (hi_schema_version r))
       (fun v '(mkHistory a b _ d e f) => c ← to_int v; Some (mkHistory a b c d e f));
     Col "schema_json" TJsonb (fun r => SJson (hi_schema_json r))
       (fun v '(mkHistory a b c _ e f) => d ← to_json v; Some (mkHistory a b c d e f));
     Col "changed_at" TTimestamp (fun r => of_opt STime (hi_changed_at r))
       (fun v '(mkHistory a b c d _ f) => e ← nullable to_time v; Some (mkHistory a b c d e f));
     Col "change_summary" TText (fun r => of_opt SText (hi_change_summary r))
       (fun v '(mkHistory a b c d e _) => f ← nullable to_text v; Some (mkHistory a b c d e f))];
  blank := fun id now => mkHistory id None 0 "" (Some now) None;
  required := ["schema_version"; "schema_json"] }.

#[export] Instance snapshot_rel : Rel snapshot_rec := {
  rel_id := sn_snapshot_id;
  columns :=
    [Col "snapshot_id" TInt8 (fun r => SInt (sn_snapshot_id r)) (fun _ _ => None);
     Col "table_id" TInt8 (fun r => of_opt SInt (sn_table_id r))
       (fun v '(mkSnap a _ c d e f g h) => b ← nullable to_int v; Some (mkSnap a b c d e f g h));
     Col "parent_snapshot_id" TInt8 (fun r => of_opt SInt (sn_parent_snapshot_id r))
       (fun v '(mkSnap a b _ d e f g h) => c ← nullable to_int v; Some (mkSnap a b c d e f g h));
     Col "committed_at" TTimestamp (fun r => of_opt STime (sn_committed_at r))
       (fun v '(mkSnap a b c _ e f g h) => d ← nullable to_time v; Some (mkSnap a b c d e f g h));
     Col "operation" TText (fun r => SText (sn_operation r))
       (fun v '(mkSnap a b c d _ f g h) => e ← to_text v; Some (mkSnap a b c d e f g h));
     Col "added_files_count" TInt4 (fun r => of_opt SInt (sn_added_files_count r))
       (fun v '(mkSnap a b c d e _ g h) => f ← nullable to_int v; Some (mkSnap a b c d e f g h));
     Col "deleted_files_count" TInt4 (fun r => of_opt SInt (sn_deleted_files_count r))
       (fun v '(mkSnap a b c d e f _ h) => g ← nullable to_int v; Some (mkSnap a b c d e f g h))];
  blank := fun id now => mkSnap id None None (Some now) "" (Some 0) (Some 0) (Some "{}");
  required := ["operation"] }.

#[export] Instance partition_rel : Rel partition_rec := {
  rel_id := pa_partition_id;
  columns :=
    [Col "partition_id" TInt8 (fun r => SInt (pa_partition_id r)) (fun _ _ => None);
     Col "table_id" TInt8 (fun r => of_opt SInt (pa_table_id r))
       (fun v '(mkPart a _ c d e f g h i j k) => b ← nullable to_int v; Some (mkPart a b c d e f g h i j k));
     Col "snapshot_id" TInt8 (fun r => of_opt SInt (pa_snapshot_id r))
       (fun v '(mkPart a b _ d e f g h i j k) => c ← nullable to_int v; Some (mkPart a b c d e f g h i j k));
     Col "partition_key" TText (fun r => SText (pa_partition_key r))
       (fun v '(mkPart a b c _ e f g h i j k) => d ← to_text v; Some (mkPart a b c d e f g h i j k));
     Col "data_file_path" TText (fun r => SText (pa_data_file_path r))
       (fun v '(mkPart a b c d _ f g h i j k) => e ← to_text v; Some (mkPart a b c d e f g h i j k));
     Col "file_format" TText (fun r => SText (pa_file_format r))
       (fun v '(mkPart a b c d e _ g h i j k) => f ← to_text v; Some (mkPart a b c d e f g h i j k));
     Col "row_count" TInt8 (fun r => of_opt SInt (pa_row_count r))
       (fun v '(mkPart a b c d e f _ h i j k) => g ← nullable to_int v; Some (mkPart a b c d e f g h i j k));
     Col "size_bytes" TInt8 (fun r => of_opt SInt (pa_size_bytes r))
       (fun v '(mkPart a b c d e f g _ i j k) => h ← nullable to_int v; Some (mkPart a b c d e f g h i j k));
     Col "column_stats" TJsonb (fun r => of_opt SJson (pa_column_stats r))
       (fun v '(mkPart a b c d e f g h _ j k) => i ← nullable to_json v; Some (mkPart a b c d e f g h i j k));
     Col "is_deleted" TBool (fun r => of_opt SBool (pa_is_deleted r))
       (fun v '(mkPart a b c d e f g h i _ k) => j ← nullable to_bool v; Some (mkPart a b c d e f g h i j k));
     Col "deleted_snapshot_id" TInt8 (fun r => of_opt SInt (pa_deleted_snapshot_id r))
       (fun v '(mkPart a b c d e f g h i j _) => k ← nullable to_int v; Some (mkPart a b c d e f g h i j k))];
  blank := fun id now => mkPart id None None "" "" "parquet" None None None (Some false) None;
  required := ["partition_key"; "data_file_path"] }.

(** [timeout_at] defaults to five minutes after [now()], in microseconds. *)
#[export] Instance transaction_rel : Rel transaction_rec := {
  rel_id := tx_txn_id;
  columns :=
    [Col "txn_id" TInt8 (fun r => SInt (tx_txn_id r)) (fun _ _ => None);
     Col "client_id" TText (fun r => SText (tx_client_id r))
       (fun v '(mkTransaction a _ c d e f g h) => b ← to_text v; Some (mkTransaction a b c d e f g h));
     Col "read_snapshot_id" TInt8 (fun r => of_opt SInt (tx_read_snapshot_id r))
       (fun v '(mkTransaction a b _ d e f g h) => c ← nullable to_int v; Some (mkTransaction a b c d e f g h));
     Col "status" TText (fun r => of_opt SText (tx_status r))
       (fun v '(mkTransaction a b c _ e f g h) => d ← nullable to_text v; Some (mkTransaction a b c d e f g h));
     Col "isolation_level" TText (fun r => of_opt SText (tx_isolation_level r))
       (fun v '(mkTransaction a b c d _ f g h) => e ← nullable to_text v; Some (mkTransaction a b c d e f g h));
     Col "committed_at" TTimestamp (fun r => of_opt STime (tx_committed_at r))
       (fun v '(mkTransaction a b c d e f _ h) => g ← nullable to_time v; Some (mkTransaction a b c d e f g h))];
  blank := fun id now =>
    mkTransaction id "" None (Some "active") (Some "snapshot") (Some now) None (Some (now + 300000000));
  required := ["client_id"] }.

(** ** Results as libpq shows them *)

Inductive ExecStatusType := PGRES_COMMAND_OK | PGRES_TUPLES_OK | PGRES_FATAL_ERROR.

#[export] Instance ExecStatusType_eq_dec : EqDecision ExecStatusType.
Proof. solve_decision. Defined.

(** [None] in a row is SQL's NULL. *)
Record PGresult := mkRes {
  res_status : ExecStatusType;
  res_rows : list (list (option string));
  res_cmd_tuples : string }.

Definition command_ok (n : string) : PGresult := mkRes PGRES_COMMAND_OK [] n.

(** ** Evaluation *)

(** What a statement is run with: the clock, the next value of the sequence,
    the input functions of the integer types and of [jsonb], the output
    function of timestamps. *)
Record SqlEnv := mkEnv {
  se_now : Z;
  se_next : Z;
  se_int_in : string -> option Z;
  se_jsonb_in : string -> option string;
  se_ts_out : Z -> string }.

(** A parameter, given as text, as a value of the type of its column. *)
Definition coerce (e : SqlEnv) (ty : sqltype) (s : string) : option sqlval :=
  match ty with
  | TInt8 => z ← se_int_in e s; if in_i64 z then Some (SInt z) else None
  | TInt4 => z ← se_int_in e s; if in_i32 z then Some (SInt z) else None
  | TText => Some (SText s)
  | TJsonb => j ← se_jsonb_in e s; Some (SJson j)
  | TBool | TTimestamp => None
  end.

Definition param (ps : list string) (n : nat) : option string := ps !! Nat.pred n.

Definition eval_operand (e : SqlEnv) (ps : list string) (ty : sqltype) (o : operand) : option sqlval :=
  match o with
  | OParam n => s ← param ps n; coerce e ty s
  | OJsonb n => match ty with TJsonb => s ← param ps n; coerce e TJsonb s | _ => None end
  | OBool b => match ty with TBool => Some (SBool b) | _ => None end
  | ONow => match ty with TTimestamp => Some (STime (se_now e)) | _ => None end
  end.

(** Comparison; [None] is unknown. *)
Definition compare_vals (op : cmpop) (v w : sqlval) : option bool :=
  match v, w with
  | SInt a, SInt b => Some match op with CEq => a =? b | CLe => a <=? b | CGt => b <? a end
  | SText a, SText b => match op with CEq => Some (String.eqb a b) | _ => None end
  | SBool a, SBool b => match op with CEq => Some (Bool.eqb a b) | _ => None end
  | _, _ => None
  end.

Definition and3 (a b : option bool) : option bool :=
  match a, b with
  | Some false, _ | _, Some false => Some false
  | Some true, Some true => Some true
  | _, _ => None
  end.
Definition or3 (a b : option bool) : option bool :=
  match a, b with
  | Some true, _ | _, Some true => Some true
  | Some false, Some false => Some false
  | _, _ => None
  end.

Definition text_out (e : SqlEnv) (v : sqlval) : option string :=
  match v with
  | SNull => None
  | SInt z => Some (to_string z)
  | SText s | SJson s => Some s
  | SBool b => Some (if b then "t" else "f")
  | STime t => Some (se_ts_out e t)
  end.

(** Keys of ORDER BY: nulls sort as larger than every value. *)
Definition key_leb (v w : sqlval) : bool :=
  match v, w with
  | _, SNull => true
  | SNull, _ => false
  | SInt a, SInt b | STime a, STime b => a <=? b
  | _, _ => true
  end.

Section relation.
Context {R : Type} `{Rel R}.

(** A condition with its operands evaluated: the column, the test, the value. *)
Inductive bound :=
  | BCmp (c : column R) (op : cmpop) (v : sqlval)
  | BAnd (p q : bound)
  | BOr (p q : bound).

Fixpoint bind_pred (e : SqlEnv) (ps : list string) (p : Sql.pred) : option bound :=
  match p with
  | PCmp c op o => k ← find_col c; v ← eval_operand e ps (col_type k) o; Some (BCmp k op v)
  | PAnd p q => a ← bind_pred e ps p; b ← bind_pred e ps q; Some (BAnd a b)
  | POr p q => a ← bind_pred e ps p; b ← bind_pred e ps q; Some (BOr a b)
  end.

Fixpoint eval3 (p : bound) (r : R) : option bool :=
  match p with
  | BCmp k op v => compare_vals op (col_get k r) v
  | BAnd p q => and3 (eval3 p r) (eval3 q r)
  | BOr p q => or3 (eval3 p r) (eval3 q r)
  end.

(** WHERE keeps the rows on which the condition is true. *)
Definition holds (p : bound) (r : R) : bool :=
  match eval3 p r with Some true => true | _ => false end.

(** [r] may come before [r'] in the order of [k]. *)
Definition order_leb (k : column R) (desc : bool) (r r' : R) : bool :=
  if desc then key_leb (col_get k r') (col_get k r) else key_leb (col_get k r) (col_get k r').

Definition sort_rows (k : column R) (desc : bool) : list R -> list R :=
  merge_sort (fun r r' => order_leb k desc r r').

(** LIMIT and OFFSET take a bigint that is not negative. *)
Definition count_param (e : SqlEnv) (ps : list string) (o : option nat) : option (option nat) :=
  match o with
  | None => Some None
  | Some n =>
      s ← param ps n; z ← se_int_in e s;
      if in_i64 z && (0 <=? z) then Some (Some (Z.to_nat z)) else None
  end.

Definition take_opt {A} (n : option nat) (l : list A) : list A :=
  match n with Some n => take n l | None => l end.
Definition drop_opt {A} (n : option nat) (l : list A) : list A :=
  match n with Some n => drop n l | None => l end.

Fixpoint bind_cols (cs : list string) : option (list (column R)) :=
  match cs with
  | [] => Some []
  | c :: cs' => k ← find_col c; ks ← bind_cols cs'; Some (k :: ks)
  end.

Definition project (e : SqlEnv) (ks : list (column R)) (r : R) : list (option string) :=
  (fun k => text_out e (col_get k r)) <$> ks.

Definition run_select (e : SqlEnv) (ps : list string) (cs : list string) (p : Sql.pred)
    (order : option (string * bool)) (limit offset : option nat) (rows : list R) : option PGresult :=
  ks ← bind_cols cs;
  b ← bind_pred e ps p;
  n ← count_param e ps limit;
  m ← count_param e ps offset;
  sorted ← match order with
           | None => Some (filter (fun r => holds b r) rows)
           | Some (c, desc) => k ← find_col c; Some (sort_rows k desc (filter (fun r => holds b r) rows))
           end;
  let out := take_opt n (drop_opt m sorted) in
  Some (mkRes PGRES_TUPLES_OK (project e ks <$> out) (to_string (Z.of_nat (length out)))).

(** The assignments of SET and of an INSERT, evaluated once. *)
Fixpoint bind_sets (e : SqlEnv) (ps : list string) (ss : list (string * operand))
    : option (list (column R * sqlval)) :=
  match ss with
  | [] => Some []
  | (c, o) :: ss' =>
      k ← find_col c; v ← eval_operand e ps (col_type k) o;
      rest ← bind_sets e ps ss'; Some ((k, v) :: rest)
  end.

Fixpoint apply_sets (ss : list (column R * sqlval)) (r : R) : option R :=
  match ss with
  | [] => Some r
  | (k, v) :: ss' => r' ← col_set k v r; apply_sets ss' r'
  end.

(** UPDATE: the rows after it, and how many satisfied the condition. *)
Fixpoint update_rows (b : bound) (ss : list (column R * sqlval)) (rows : list R) : option (list R * Z) :=
  match rows with
  | [] => Some ([], 0)
  | r :: rows' =>
      '(l, n) ← update_rows b ss rows';
      if holds b r then r' ← apply_sets ss r; Some (r' :: l, n + 1) else Some (r :: l, n)
  end.

(** INSERT of one row: the new row is the blank one with the columns set; a
    row with the same value of the conflict column makes it do nothing. *)
Definition run_insert (e : SqlEnv) (ps : list string) (cs : list string) (vs : list operand)
    (conflict returning : option string) (rows : list R) : option (PGresult * list R) :=
  if decide (length cs = length vs /\ required ⊆ cs) then
    ss ← bind_sets e ps (zip cs vs);
    r ← apply_sets ss (blank (se_next e) (se_now e));
    clash ← match conflict with
            | None => Some false
            | Some c => k ← find_col c;
                Some (existsb (fun r' => match compare_vals CEq (col_get k r') (col_get k r) with
                                         | Some true => true | _ => false end) rows)
            end;
    out ← match returning with
          | None => Some None
          | Some c => k ← find_col c; Some (Some (text_out e (col_get k r)))
          end;
    let n := if clash : bool then 0 else 1 in
    Some (match out with
          | None => command_ok (to_string n)
          | Some v => mkRes PGRES_TUPLES_OK (if clash then [] else [[v]]) (to_string n)
          end,
          if clash then rows else rows ++ [r])
  else None.

(** A statement on the relation it names: [None] is an error, which leaves
    the relation as it was. *)
Definition run_rel (e : SqlEnv) (s : stmt) (ps : list string) (rows : list R) : option (PGresult * list R) :=
  match s with
  | Select _ cs p o l f => res ← run_select e ps cs p o l f rows; Some (res, rows)
  | Insert _ cs vs c k => run_insert e ps cs vs c k rows
  | Update _ ss p =>
      b ← bind_pred e ps p; ss' ← bind_sets e ps ss;
      '(l, n) ← update_rows b ss' rows; Some (command_ok (to_string n), l)
  | Delete _ p =>
      b ← bind_pred e ps p;
      let gone := filter (fun r => holds b r) rows in
      Some (command_ok (to_string (Z.of_nat (length gone))), filter (fun r => negb (holds b r)) rows)
  | Begin | Commit | Rollback => None
  end.

End relation.
Arguments bound R : clear implicits.

(** ** Constraints *)

(** A foreign key: null, or a key of the referenced table. *)
Definition refers (keys : list Z) (o : option Z) : bool :=
  match o with None => true | Some z => bool_decide (z ∈ keys) end.

Definition opt_in (f : Z -> bool) (o : option Z) : bool :=
  match o with None => true | Some z => f z end.

(** Primary keys, UNIQUE, REFERENCES, and the ranges of the integer types. *)
Definition constraints_ok (d : Db) : bool :=
  let tids := tb_table_id <$> db_tables d in
  let sids := sn_snapshot_id <$> db_snapshots d in
  bool_decide (NoDup tids)
  && bool_decide (NoDup (tb_table_name <$> db_tables d))
  && bool_decide (NoDup (hi_schema_history_id <$> db_history d))
  && bool_decide (NoDup sids)
  && bool_decide (NoDup (pa_partition_id <$> db_partitions d))
  && bool_decide (NoDup (tx_txn_id <$> db_transactions d))
  && forallb (fun r => refers tids (hi_table_id r)) (db_history d)
  && forallb (fun r => refers tids (sn_table_id r)) (db_snapshots d)
  && forallb (fun r => refers tids (pa_table_id r) && refers sids (pa_snapshot_id r)) (db_partitions d)
  && forallb (fun r => in_i64 (tb_table_id r) && in_i32 (tb_schema_version r)
                       && opt_in in_i64 (tb_current_snapshot_id r)) (db_tables d)
  && forallb (fun r => in_i64 (sn_snapshot_id r) && opt_in in_i64 (sn_parent_snapshot_id r)
                       && opt_in in_i32 (sn_added_files_count r)
                       && opt_in in_i32 (sn_deleted_files_count r)) (db_snapshots d)
  && forallb (fun r => in_i64 (pa_partition_id r) && opt_in in_i64 (pa_row_count r)
                       && opt_in in_i64 (pa_size_bytes r)) (db_partitions d)
  && forallb (fun r => in_i32 (hi_schema_version r)) (db_history d)
  && forallb (fun r => in_i64 (tx_txn_id r)) (db_transactions d).

(** ** Statements on the database *)

Definition stmt_rel (s : stmt) : string :=
  match s with
  | Select r _ _ _ _ _ | Insert r _ _ _ _ | Update r _ _ | Delete r _ => r
  | Begin | Commit | Rollback => ""
  end.

Definition run_stmt (e : SqlEnv) (s : stmt) (ps : list string) (d : Db) : option (PGresult * Db) :=
  let '(mkDb t h n p x) := d in
  '(res, d') ←
    (if String.eqb (stmt_rel s) "tables" then
       '(res, l) ← run_rel e s ps t; Some (res, mkDb l h n p x)
     else if String.eqb (stmt_rel s) "schema_history" then
       '(res, l) ← run_rel e s ps h; Some (res, mkDb t l n p x)
     else if String.eqb (stmt_rel s) "snapshots" then
       '(res, l) ← run_rel e s ps n; Some (res, mkDb t h l p x)
     else if String.eqb (stmt_rel s) "partitions" then
       '(res, l) ← run_rel e s ps p; Some (res, mkDb t h n l x)
     else if String.eqb (stmt_rel s) "transactions" then
       '(res, l) ← run_rel e s ps x; Some (res, mkDb t h n p l)
     else None);
  if constraints_ok d' then Some (res, d') else None.

(** The order of the rows of a table is not part of its contents. *)
Definition db_perm (d d' : Db) : Prop :=
  db_tables d ≡ₚ db_tables d' /\ db_history d ≡ₚ db_history d' /\ db_snapshots d ≡ₚ db_snapshots d'
  /\ db_partitions d ≡ₚ db_partitions d' /\ db_transactions d ≡ₚ db_transactions d'.

#[export] Instance db_perm_equiv : Equivalence db_perm.
Proof.
  split.
  - intros d. by split_and!.
  - intros d d' (?&?&?&?&?). by split_and!.
  - intros d1 d2 d3 (?&?&?&?&?) (?&?&?&?&?). split_and!; by etrans.
Qed.
