(* ===== verification/PgService.v ===== *)
(** * PostgreSQL behind libpq, as a parameter

    The server and its client library are not part of the repository. They are
    the class [PgService]: an unknown state and the calls the sources make.
    What the sources rely on is the class [PgLaws]: a ghost view [abs] of the
    state (the committed database, the transaction status of each connection,
    the sequences) and, for each call, which changes of the view are possible.
    Statements the parser knows follow Database.v, or fail; a failure never
    shows partial effects. [PgRuns] adds that no query fails for a reason of the
    service, [PgReliable] that BEGIN, COMMIT and ROLLBACK do not either.
    RefServer.v has executable instances.

    The laws speak of a connection that works alone (the others have no open
    transaction); they say nothing of transactions that overlap. *)
From S2P Require Import Prelude Cxx Sql Database.

(** A [PGconn*] that is not null. *)
Abbreviation PGconn := nat (only parsing).

Inductive ConnStatusType := CONNECTION_OK | CONNECTION_BAD.
#[export] Instance ConnStatusType_eq_dec : EqDecision ConnStatusType.
Proof. solve_decision. Defined.

(** ** The ghost view *)

(** [InTx base work]: a transaction begun on [base] that sees [work]. *)
Inductive session :=
  | Idle
  | InTx (base work : Db)
  | InFailedTx (base : Db)
  | Broken.

(** The next value of each sequence. *)
Record Seqs := mkSeqs {
  sq_tables : Z; sq_history : Z; sq_snapshots : Z; sq_partitions : Z; sq_transactions : Z }.

Definition seqs_le (a b : Seqs) : Prop :=
  sq_tables a <= sq_tables b /\ sq_history a <= sq_history b /\ sq_snapshots a <= sq_snapshots b
  /\ sq_partitions a <= sq_partitions b /\ sq_transactions a <= sq_transactions b.

#[export] Instance seqs_le_preorder : PreOrder seqs_le.
Proof. split; [intros a; unfold seqs_le; lia|intros a b c; unfold seqs_le; lia]. Qed.

Record PgAbs := mkAbs {
  committed : Db;
  sessions : gmap PGconn session;
  seqs : Seqs }.

(** What a connection sees: nothing in a failed transaction or once broken. *)
Definition view_of (s : session) (d : Db) : option Db :=
  match s with Idle => Some d | InTx _ w => Some w | _ => None end.

Definition view (c : PGconn) (a : PgAbs) : option Db :=
  s ← sessions a !! c; view_of s (committed a).

(** The connection now sees [d]. *)
Definition set_view (c : PGconn) (d : Db) (a : PgAbs) : PgAbs :=
  match sessions a !! c with
  | Some (InTx b _) => mkAbs (committed a) (<[c := InTx b d]> (sessions a)) (seqs a)
  | _ => mkAbs d (sessions a) (seqs a)
  end.

(** A statement failed: a transaction block is spoilt. *)
Definition fail_view (c : PGconn) (a : PgAbs) : PgAbs :=
  match sessions a !! c with
  | Some (InTx b _) => mkAbs (committed a) (<[c := InFailedTx b]> (sessions a)) (seqs a)
  | _ => a
  end.

Definition set_session (c : PGconn) (s : session) (a : PgAbs) : PgAbs :=
  mkAbs (committed a) (<[c := s]> (sessions a)) (seqs a).
Definition set_committed (d : Db) (a : PgAbs) : PgAbs := mkAbs d (sessions a) (seqs a).
Definition set_seqs (q : Seqs) (a : PgAbs) : PgAbs := mkAbs (committed a) (sessions a) q.

(** ** Consistent views *)

(** Keys are positive and below the sequences they are drawn from. *)
Definition ids_below (q : Seqs) (d : Db) : Prop :=
  (forall r, r ∈ db_tables d -> 1 <= tb_table_id r < sq_tables q)
  /\ (forall r, r ∈ db_history d -> 1 <= hi_schema_history_id r < sq_history q)
  /\ (forall r, r ∈ db_snapshots d -> 1 <= sn_snapshot_id r < sq_snapshots q)
  /\ (forall r, r ∈ db_partitions d -> 1 <= pa_partition_id r < sq_partitions q)
  /\ (forall r, r ∈ db_transactions d -> 1 <= tx_txn_id r < sq_transactions q).

Definition db_ok (q : Seqs) (d : Db) : Prop := constraints_ok d = true /\ ids_below q d.

Definition seqs_ok (q : Seqs) : Prop :=
  1 <= sq_tables q /\ 1 <= sq_history q /\ 1 <= sq_snapshots q /\ 1 <= sq_partitions q /\ 1 <= sq_transactions q.

(** Connection [c] can work: the view is consistent, no other connection has
    an open transaction, and nothing was committed under [c]'s own. *)
Record ready (c : PGconn) (a : PgAbs) (d : Db) : Prop := {
  rd_view : view c a = Some d;
  rd_ok : db_ok (seqs a) d;
  rd_committed : db_ok (seqs a) (committed a);
  rd_seqs : seqs_ok (seqs a);
  rd_base : forall b w, sessions a !! c = Some (InTx b w) -> committed a = b;
  rd_alone : forall c' s, sessions a !! c' = Some s -> c' <> c -> s = Idle \/ s = Broken }.

(** ** What a call may do *)

Definition is_query (s : stmt) : bool :=
  match s with Begin | Commit | Rollback => false | _ => true end.

Definition is_select (s : stmt) : bool := match s with Select _ _ _ _ _ _ => true | _ => false end.

(** The sequence an INSERT draws from. *)
Definition inserts_into (s : stmt) (rel : string) : bool :=
  match s with Insert r _ _ _ _ => String.eqb r rel | _ => false end.

(** Drawing [n] from the sequence whose next value is [q]. *)
Definition draw (b : bool) (n q q' : Z) : Prop := if b then n = q /\ q' = q + 1 else q' = q.

Definition seqs_step (s : stmt) (n : Z) (q q' : Seqs) : Prop :=
  draw (inserts_into s "tables") n (sq_tables q) (sq_tables q')
  /\ draw (inserts_into s "schema_history") n (sq_history q) (sq_history q')
  /\ draw (inserts_into s "snapshots") n (sq_snapshots q) (sq_snapshots q')
  /\ draw (inserts_into s "partitions") n (sq_partitions q) (sq_partitions q')
  /\ draw (inserts_into s "transactions") n (sq_transactions q) (sq_transactions q').

(** A statement that succeeds on what the connection sees. A SELECT may find
    the rows in any order. *)
Definition query_ok (e : SqlEnv) (st : stmt) (ps : list string) (d : Db) (r : PGresult) (d' : Db) : Prop :=
  if is_select st then exists dp, db_perm d dp /\ run_stmt e st ps dp = Some (r, dp) /\ d' = d
  else run_stmt e st ps d = Some (r, d').

(** BEGIN, COMMIT and ROLLBACK: the next status and committed database. *)
Definition tx_control (st : stmt) (s : session) (d : Db) : option (session * Db) :=
  match st, s with
  | Begin, Idle => Some (InTx d d, d)
  | Begin, InTx b w => Some (InTx b w, d)
  | Commit, InTx _ w => Some (Idle, w)
  | Commit, (Idle | InFailedTx _) | Rollback, (Idle | InTx _ _ | InFailedTx _) => Some (Idle, d)
  | _, _ => None
  end.

Section calls.
Context (mk_env : Z -> Z -> SqlEnv).

(** The call did what the statement says. *)
Inductive exec_ok (c : PGconn) (st : stmt) (ps : list string) (a : PgAbs) : PGresult -> PgAbs -> Prop :=
  | ok_query d now n r d' q :
      is_query st = true -> view c a = Some d ->
      query_ok (mk_env now n) st ps d r d' -> seqs_step st n (seqs a) q ->
      exec_ok c st ps a r (set_seqs q (set_view c d' a))
  | ok_error d now n r q q' :
      is_query st = true -> view c a = Some d ->
      run_stmt (mk_env now n) st ps d = None -> seqs_step st n (seqs a) q' ->
      (q = seqs a \/ q = q') ->
      res_status r = PGRES_FATAL_ERROR ->
      exec_ok c st ps a r (set_seqs q (fail_view c a))
  | ok_aborted b r :
      (is_query st = true \/ st = Begin) -> sessions a !! c = Some (InFailedTx b) ->
      res_status r = PGRES_FATAL_ERROR ->
      exec_ok c st ps a r a
  | ok_control s s' d' r :
      is_query st = false -> sessions a !! c = Some s ->
      tx_control st s (committed a) = Some (s', d') -> res_status r = PGRES_COMMAND_OK ->
      exec_ok c st ps a r (set_committed d' (set_session c s' a)).

(** The call failed for a reason of its own: the statement was not run, or
    the connection was lost before or after it took effect. *)
Inductive exec_fault (c : PGconn) (st : stmt) (ps : list string) (a : PgAbs) : PGresult -> PgAbs -> Prop :=
  | fault_broken r q :
      res_status r = PGRES_FATAL_ERROR -> seqs_le (seqs a) q ->
      exec_fault c st ps a r (set_seqs q (set_session c Broken a))
  | fault_query r q :
      is_query st = true -> res_status r = PGRES_FATAL_ERROR -> seqs_le (seqs a) q ->
      exec_fault c st ps a r (set_seqs q (fail_view c a))
  | fault_begin r :
      st = Begin -> res_status r = PGRES_FATAL_ERROR -> exec_fault c st ps a r a
  | fault_commit s r :
      st = Commit -> sessions a !! c = Some s -> s <> Broken -> res_status r = PGRES_FATAL_ERROR ->
      exec_fault c st ps a r (set_session c Idle a)
  | fault_late r r' a' :
      exec_ok c st ps a r' a' -> res_status r = PGRES_FATAL_ERROR ->
      exec_fault c st ps a r (set_session c Broken a').

End calls.

(** ** The interface *)

Class PgService := {
  pg : Type;
  PQconnectdb : string -> pg -> PGconn * pg;
  PQstatus : PGconn -> pg -> ConnStatusType;
  PQreset : PGconn -> pg -> pg;
  PQfinish : PGconn -> pg -> pg;
  PQexecParams : PGconn -> string -> list string -> pg -> PGresult * pg;
  PQexec : PGconn -> string -> pg -> PGresult * pg;
  pg_int_in : string -> option Z;
  pg_jsonb_in : string -> option string;
  pg_ts_out : Z -> string;
  abs : pg -> PgAbs }.

Definition pg_env `{PgService} (now next : Z) : SqlEnv :=
  mkEnv now next pg_int_in pg_jsonb_in pg_ts_out.

(** The connection is alone and its transaction is not overtaken. *)
Definition serial (c : PGconn) (a : PgAbs) : Prop :=
  (forall b w, sessions a !! c = Some (InTx b w) -> committed a = b)
  /\ (forall c' s, sessions a !! c' = Some s -> c' <> c -> s = Idle \/ s = Broken).

Class PgLaws (P : PgService) : Prop := {
  exec_params_law c text ps st s r s' :
    parse_sql text = Some st -> serial c (abs s) -> is_Some (sessions (abs s) !! c) ->
    PQexecParams c text ps s = (r, s') ->
    exec_ok pg_env c st ps (abs s) r (abs s') \/ exec_fault pg_env c st ps (abs s) r (abs s');
  exec_law c text st s r s' :
    parse_sql text = Some st -> serial c (abs s) -> is_Some (sessions (abs s) !! c) ->
    PQexec c text s = (r, s') ->
    exec_ok pg_env c st [] (abs s) r (abs s') \/ exec_fault pg_env c st [] (abs s) r (abs s');
  status_law c s x :
    sessions (abs s) !! c = Some x -> PQstatus c s = CONNECTION_BAD <-> x = Broken;
  connect_law str s c s' :
    PQconnectdb str s = (c, s') ->
    sessions (abs s) !! c = None
    /\ exists x, (x = Idle \/ x = Broken) /\ abs s' = set_session c x (abs s);
  reset_law c s :
    is_Some (sessions (abs s) !! c) ->
    exists x, (x = Idle \/ x = Broken) /\ abs (PQreset c s) = set_session c x (abs s);
  finish_law c s :
    abs (PQfinish c s) = mkAbs (committed (abs s)) (delete c (sessions (abs s))) (seqs (abs s));
  int_in_law z : pg_int_in (to_string z) = Some z }.

(** No query fails but for a reason of its own. *)
Class PgRuns (P : PgService) : Prop := {
  runs_law c text ps st s r s' x :
    parse_sql text = Some st -> is_query st = true -> serial c (abs s) -> sessions (abs s) !! c = Some x -> x <> Broken ->
    PQexecParams c text ps s = (r, s') -> exec_ok pg_env c st ps (abs s) r (abs s') }.

(** Neither does BEGIN, COMMIT or ROLLBACK. *)
Class PgReliable (P : PgService) : Prop := {
  reliable_runs :: PgRuns P;
  reliable_law c text st s r s' x :
    parse_sql text = Some st -> serial c (abs s) -> sessions (abs s) !! c = Some x -> x <> Broken ->
    PQexec c text s = (r, s') -> exec_ok pg_env c st [] (abs s) r (abs s') }.
