(* ===== verification/DbFacts.v ===== *)
(** * Facts about the database and its statements

    The laws of the relations, integrity as a proposition, the keys a
    statement can introduce, and the order-insensitive reading of a SELECT. *)
From S2P Require Import Prelude Cxx Sql Database PgService.

(** ** Relations inside the database *)

(** Assignments and defaults respect the key of the new row. *)
Class RelLaws (R : Type) `{Rel R} : Prop := {
  blank_id n t : rel_id (blank n t) = n;
  col_set_id (k : column R) v r r' : k ∈ columns -> col_set k v r = Some r' -> rel_id r' = rel_id r }.

Ltac solve_rel_laws :=
  split; [done|];
  intros k v r r' Hk E; unfold columns in Hk; simpl in Hk;
  repeat (apply elem_of_cons in Hk as [->|Hk];
    [destruct r; simpl in E; first [discriminate|
      match type of E with (?m ≫= _) = _ => destruct m; [|discriminate] end;
      simpl in E; injection E as <-; reflexivity]|]);
  by apply not_elem_of_nil in Hk.

#[export] Instance table_laws : RelLaws table_rec.
Proof. solve_rel_laws. Qed.
#[export] Instance history_laws : RelLaws history_rec.
Proof. solve_rel_laws. Qed.
#[export] Instance snapshot_laws : RelLaws snapshot_rec.
Proof. solve_rel_laws. Qed.
#[export] Instance partition_laws : RelLaws partition_rec.
Proof. solve_rel_laws. Qed.
#[export] Instance transaction_laws : RelLaws transaction_rec.
Proof. solve_rel_laws. Qed.

(** Where a relation lives. *)
Class InDb (R : Type) `{Rel R} := {
  rel_name : string;
  rows_of : Db -> list R;
  with_rows : list R -> Db -> Db;
  next_of : Seqs -> Z;
  run_stmt_in e s ps d : stmt_rel s = rel_name ->
    run_stmt e s ps d =
      '(res, l) ← run_rel e s ps (rows_of d);
      if constraints_ok (with_rows l d) then Some (res, with_rows l d) else None;
  with_rows_of l d : rows_of (with_rows l d) = l;
  with_same_rows d : with_rows (rows_of d) d = d;
  with_rows_perm d d' : db_perm d d' -> rows_of d ≡ₚ rows_of d' }.

Ltac solve_in_db :=
  intros; match goal with H : stmt_rel _ = _ |- _ => unfold run_stmt; rewrite H end;
  match goal with d : Db |- _ => destruct d end; simpl; by destruct (run_rel _ _ _ _) as [[]|].

#[export] Program Instance tables_in_db : InDb table_rec := {
  rel_name := "tables"; rows_of := db_tables; next_of := sq_tables;
  with_rows l d := mkDb l (db_history d) (db_snapshots d) (db_partitions d) (db_transactions d) }.
Next Obligation. solve_in_db. Qed.
Next Obligation. done. Qed.
Next Obligation. by intros []. Qed.
Next Obligation. by intros ?? (?&?&?&?&?). Qed.

#[export] Program Instance history_in_db : InDb history_rec := {
  rel_name := "schema_history"; rows_of := db_history; next_of := sq_history;
  with_rows l d := mkDb (db_tables d) l (db_snapshots d) (db_partitions d) (db_transactions d) }.
Next Obligation. solve_in_db. Qed.
Next Obligation. done. Qed.
Next Obligation. by intros []. Qed.
Next Obligation. by intros ?? (?&?&?&?&?). Qed.

#[export] Program Instance snapshots_in_db : InDb snapshot_rec := {
  rel_name := "snapshots"; rows_of := db_snapshots; next_of := sq_snapshots;
  with_rows l d := mkDb (db_tables d) (db_history d) l (db_partitions d) (db_transactions d) }.
Next Obligation. solve_in_db. Qed.
Next Obligation. done. Qed.
Next Obligation. by intros []. Qed.
Next Obligation. by intros ?? (?&?&?&?&?). Qed.

#[export] Program Instance partitions_in_db : InDb partition_rec := {
  rel_name := "partitions"; rows_of := db_partitions; next_of := sq_partitions;
  with_rows l d := mkDb (db_tables d) (db_history d) (db_snapshots d) l (db_transactions d) }.
Next Obligation. solve_in_db. Qed.
Next Obligation. done. Qed.
Next Obligation. by intros []. Qed.
Next Obligation. by intros ?? (?&?&?&?&?). Qed.

#[export] Program Instance transactions_in_db : InDb transaction_rec := {
  rel_name := "transactions"; rows_of := db_transactions; next_of := sq_transactions;
  with_rows l d := mkDb (db_tables d) (db_history d) (db_snapshots d) (db_partitions d) l }.
Next Obligation. solve_in_db. Qed.
Next Obligation. done. Qed.
Next Obligation. by intros []. Qed.
Next Obligation. by intros ?? (?&?&?&?&?). Qed.

(** ** Integrity *)

Record integrity (d : Db) : Prop := {
  in_table_ids : NoDup (tb_table_id <$> db_tables d);
  in_table_names : NoDup (tb_table_name <$> db_tables d);
  in_history_ids : NoDup (hi_schema_history_id <$> db_history d);
  in_snapshot_ids : NoDup (sn_snapshot_id <$> db_snapshots d);
  in_partition_ids : NoDup (pa_partition_id <$> db_partitions d);
  in_transaction_ids : NoDup (tx_txn_id <$> db_transactions d);
  in_history_fk : forall r, r ∈ db_history d -> refers (tb_table_id <$> db_tables d) (hi_table_id r) = true;
  in_snapshot_fk : forall r, r ∈ db_snapshots d -> refers (tb_table_id <$> db_tables d) (sn_table_id r) = true;
  in_partition_fk : forall r, r ∈ db_partitions d ->
      refers (tb_table_id <$> db_tables d) (pa_table_id r) = true
      /\ refers (sn_snapshot_id <$> db_snapshots d) (pa_snapshot_id r) = true;
  in_table_range : forall r, r ∈ db_tables d ->
      in_i64 (tb_table_id r) = true /\ in_i32 (tb_schema_version r) = true
      /\ opt_in in_i64 (tb_current_snapshot_id r) = true;
  in_snapshot_range : forall r, r ∈ db_snapshots d ->
      in_i64 (sn_snapshot_id r) = true /\ opt_in in_i64 (sn_parent_snapshot_id r) = true
      /\ opt_in in_i32 (sn_added_files_count r) = true /\ opt_in in_i32 (sn_deleted_files_count r) = true;
  in_partition_range : forall r, r ∈ db_partitions d ->
      in_i64 (pa_partition_id r) = true /\ opt_in in_i64 (pa_row_count r) = true
      /\ opt_in in_i64 (pa_size_bytes r) = true;
  in_history_range : forall r, r ∈ db_history d -> in_i32 (hi_schema_version r) = true;
  in_transaction_range : forall r, r ∈ db_transactions d -> in_i64 (tx_txn_id r) = true }.

Lemma forallb_elem {A} (f : A -> bool) l : forallb f l = true <-> (forall x, x ∈ l -> f x = true).
Proof. rewrite forallb_forall. by setoid_rewrite list_elem_of_In. Qed.

Lemma constraints_integrity d : constraints_ok d = true <-> integrity d.
Proof.
  unfold constraints_ok. rewrite !andb_true_iff, !bool_decide_eq_true, !forallb_elem. split.
  - intros H. destruct_and! H. constructor; try assumption; intros r Hr;
      match goal with
      | Hx : forall x, x ∈ ?l -> _, Hr : r ∈ ?l |- _ =>
          specialize (Hx r Hr); rewrite ?andb_true_iff in Hx; tauto
      end.
  - intros I. split_and!; try apply I; intros r Hr; rewrite ?andb_true_iff;
      first [ pose proof (in_partition_fk _ I r Hr); tauto | pose proof (in_table_range _ I r Hr); tauto
            | pose proof (in_snapshot_range _ I r Hr); tauto | pose proof (in_partition_range _ I r Hr); tauto ].
Qed.

#[export] Instance db_perm_constraints : Proper (db_perm ==> eq) constraints_ok.
Proof.
  assert (forall d d', db_perm d d' -> constraints_ok d = true -> constraints_ok d' = true) as Hp.
  { intros d d' (Ht & Hh & Hs & Hpa & Hx) I%constraints_integrity. apply constraints_integrity.
    assert (forall keys keys' o, keys ≡ₚ keys' -> refers keys o = refers keys' o) as Hr.
    { intros keys keys' [z|] E; simpl; [|done]. apply bool_decide_ext. by rewrite E. }
    pose proof (fmap_Permutation tb_table_id _ _ Ht) as Htid.
    pose proof (fmap_Permutation sn_snapshot_id _ _ Hs) as Hsid.
    split; try (intros r Hin).
    - rewrite <- Htid. apply I.
    - rewrite <- Ht. apply I.
    - rewrite <- Hh. apply I.
    - rewrite <- Hsid. apply I.
    - rewrite <- Hpa. apply I.
    - rewrite <- Hx. apply I.
    - rewrite <- (Hr _ _ _ Htid). apply I. by rewrite Hh.
    - rewrite <- (Hr _ _ _ Htid). apply I. by rewrite Hs.
    - rewrite <- (Hr _ _ _ Htid), <- (Hr _ _ _ Hsid). apply I. by rewrite Hpa.
    - apply I. by rewrite Ht.
    - apply I. by rewrite Hs.
    - apply I. by rewrite Hpa.
    - apply I. by rewrite Hh.
    - apply I. by rewrite Hx. }
  intros d d' E. destruct (constraints_ok d) eqn:E1, (constraints_ok d') eqn:E2; try done.
  - apply (Hp _ _ E) in E1. congruence.
  - symmetry in E. apply (Hp _ _ E) in E2. congruence.
Qed.

(** ** The keys of a relation after a statement *)

Definition is_insert (s : stmt) : bool := match s with Insert _ _ _ _ _ => true | _ => false end.

Section keys.
Context {R : Type} `{RelLaws R}.

Lemma find_col_in c (k : column R) : find_col c = Some k -> k ∈ columns.
Proof. intros E. apply List.find_some in E as [E _]. by apply list_elem_of_In. Qed.

Lemma bind_sets_in e ps ss l :
  bind_sets (R:=R) e ps ss = Some l -> forall k v, (k, v) ∈ l -> k ∈ columns.
Proof.
  revert l. induction ss as [|[c o] ss IH]; intros l E k v; simpl in E.
  - injection E as <-. by intros ?%not_elem_of_nil.
  - destruct (find_col c) as [k'|] eqn:Ek; [|done]. simpl in E.
    destruct (eval_operand _ _ _ _) as [v'|]; [|done]. simpl in E.
    destruct (bind_sets e ps ss) as [l'|]; [|done]. injection E as <-.
    intros [[= -> _]|Hin]%elem_of_cons; [by eapply find_col_in|by eapply IH].
Qed.

Lemma apply_sets_id ss (r r' : R) :
  (forall k v, (k, v) ∈ ss -> k ∈ columns) -> apply_sets ss r = Some r' -> rel_id r' = rel_id r.
Proof.
  revert r. induction ss as [|[k v] ss IH]; intros r Hk E; simpl in E; [by injection E as <-|].
  destruct (col_set k v r) as [r1|] eqn:E1; [|done]. simpl in E.
  rewrite (IH r1); [|intros; eapply Hk; by right|done].
  eapply col_set_id; [|done]. eapply Hk. by left.
Qed.

Lemma update_rows_ids b ss (rows rows' : list R) n :
  (forall k v, (k, v) ∈ ss -> k ∈ columns) ->
  update_rows b ss rows = Some (rows', n) -> rel_id <$> rows' = rel_id <$> rows.
Proof.
  intros Hk. revert rows' n. induction rows as [|r rows IH]; intros rows' n E; simpl in E; [by injection E as <- _|].
  destruct (update_rows b ss rows) as [[l m]|]; [|done]. simpl in E.
  destruct (holds b r); [destruct (apply_sets ss r) as [r'|] eqn:Er; [|done]|]; injection E as <- <-;
    rewrite !fmap_cons; apply (f_equal2 cons); first [by eapply IH|by eapply apply_sets_id|done].
Qed.

Lemma run_rel_ids e s ps rows res rows' :
  run_rel (R:=R) e s ps rows = Some (res, rows') ->
  forall r', r' ∈ rows' ->
    rel_id r' ∈ rel_id <$> rows \/ (is_insert s = true /\ rel_id r' = se_next e).
Proof.
  intros E r' Hr'.
  assert (r' ∈ rows -> rel_id r' ∈ rel_id <$> rows) as Hsame by apply list_elem_of_fmap_2.
  destruct s as [? ? ? ? ? ?|? cs vs cf rt|? ss p|? p| | |]; simpl in E; try done.
  - destruct (run_select _ _ _ _ _ _ _ _) as [?|]; [|done]. injection E as _ <-. auto.
  - unfold run_insert in E. case_decide; [|done].
    bind_inv E as l Es. bind_inv E as r Er.
    assert (rel_id r = se_next e) as Hid.
    { etransitivity; [|apply (blank_id (R:=R) (se_next e) (se_now e))].
      eapply apply_sets_id; [by eapply bind_sets_in|done]. }
    bind_inv E as clash Ec. bind_inv E as out Eo. injection E as _ <-.
    destruct clash; [auto|]. apply elem_of_app in Hr' as [?| ->%list_elem_of_singleton]; auto.
  - destruct (bind_pred e ps p) as [b|]; [|done]. simpl in E.
    destruct (bind_sets e ps ss) as [l|] eqn:Es; [|done]. simpl in E.
    destruct (update_rows b l rows) as [[rows1 n]|] eqn:Eu; [|done]. injection E as _ <-.
    left. rewrite <- (update_rows_ids b l rows rows1 n); [by apply list_elem_of_fmap_2| |done].
    by eapply bind_sets_in.
  - destruct (bind_pred e ps p) as [b|]; [|done]. injection E as _ <-.
    apply list_elem_of_filter in Hr' as [_ ?]. auto.
Qed.

Lemma run_rel_below e s ps rows res rows' q q' (n := se_next e) :
  run_rel (R:=R) e s ps rows = Some (res, rows') ->
  draw (is_insert s) n q q' -> 1 <= q ->
  (forall r, r ∈ rows -> 1 <= rel_id r < q) -> (forall r, r ∈ rows' -> 1 <= rel_id r < q').
Proof.
  intros E Hd Hq Hb r' Hr'. unfold draw in Hd.
  destruct (run_rel_ids _ _ _ _ _ _ E r' Hr') as [Hin|[Hi Hid]].
  - apply list_elem_of_fmap in Hin as (r & -> & Hr). specialize (Hb r Hr). destruct (is_insert s); lia.
  - rewrite Hi in Hd. lia.
Qed.
End keys.

(** The relation a successful statement ran on. *)
Definition ran_on {R} `{InDb R} (e : SqlEnv) (s : stmt) (ps : list string) (d : Db) (res : PGresult) (d' : Db) : Prop :=
  stmt_rel s = rel_name /\ exists l, run_rel e s ps (rows_of d) = Some (res, l) /\ d' = with_rows l d.

Lemma run_stmt_cases e s ps d res d' :
  run_stmt e s ps d = Some (res, d') ->
  constraints_ok d' = true /\
  (ran_on (R:=table_rec) e s ps d res d' \/ ran_on (R:=history_rec) e s ps d res d'
   \/ ran_on (R:=snapshot_rec) e s ps d res d' \/ ran_on (R:=partition_rec) e s ps d res d'
   \/ ran_on (R:=transaction_rec) e s ps d res d').
Proof.
  unfold run_stmt, ran_on. destruct d as [t h n p x]. intros E.
  destruct (String.eqb_spec (stmt_rel s) "tables");
    [|destruct (String.eqb_spec (stmt_rel s) "schema_history");
    [|destruct (String.eqb_spec (stmt_rel s) "snapshots");
    [|destruct (String.eqb_spec (stmt_rel s) "partitions");
    [|destruct (String.eqb_spec (stmt_rel s) "transactions"); [|done]]]]];
  (destruct (run_rel _ _ _ _) as [[res' l]|] eqn:Er; [|done]); simpl in E;
  (case_match eqn:Ec; [|done]); injection E as <- <-; (split; [done|]).
  - left. eauto.
  - right; left. eauto.
  - do 2 right; left. eauto.
  - do 3 right; left. eauto.
  - do 4 right. eauto.
Qed.

Lemma draw_le b n q q' : draw b n q q' -> q <= q'.
Proof. unfold draw. destruct b; lia. Qed.

Lemma seqs_step_le s n q q' : seqs_step s n q q' -> seqs_le q q'.
Proof. intros (?%draw_le & ?%draw_le & ?%draw_le & ?%draw_le & ?%draw_le). by split_and!. Qed.

Lemma db_ok_mono q q' d : seqs_le q q' -> db_ok q d -> db_ok q' d.
Proof.
  intros (H1 & H2 & H3 & H4 & H5) [? (?&?&?&?&?)]. split; [done|].
  split_and!; intros r Hr; [assert (1 <= tb_table_id r < sq_tables q)|assert (1 <= hi_schema_history_id r < sq_history q)
    |assert (1 <= sn_snapshot_id r < sq_snapshots q)|assert (1 <= pa_partition_id r < sq_partitions q)
    |assert (1 <= tx_txn_id r < sq_transactions q)]; auto; lia.
Qed.

Lemma seqs_ok_mono q q' : seqs_le q q' -> seqs_ok q -> seqs_ok q'.
Proof. unfold seqs_le, seqs_ok. lia. Qed.

Lemma inserts_into_rel s r : stmt_rel s = r -> inserts_into s r = is_insert s.
Proof. intros <-. destruct s; simpl; try done. apply String.eqb_refl. Qed.

(** A statement keeps a consistent database consistent. *)
Lemma run_stmt_db_ok e s ps d res d' q q' :
  db_ok q d -> seqs_ok q -> seqs_step s (se_next e) q q' ->
  run_stmt e s ps d = Some (res, d') -> db_ok q' d'.
Proof.
  intros [Hc (B1 & B2 & B3 & B4 & B5)] (Q1 & Q2 & Q3 & Q4 & Q5) St E.
  pose proof (seqs_step_le _ _ _ _ St) as Hle.
  destruct (db_ok_mono q q' d Hle (conj Hc (conj B1 (conj B2 (conj B3 (conj B4 B5)))))) as [_ (C1 & C2 & C3 & C4 & C5)].
  destruct St as (D1 & D2 & D3 & D4 & D5).
  apply run_stmt_cases in E as [Hc' Hcases]. split; [done|].
  destruct Hcases as [(En & l & Er & ->)|[(En & l & Er & ->)|[(En & l & Er & ->)|[(En & l & Er & ->)|(En & l & Er & ->)]]]];
    cbn [with_rows tables_in_db history_in_db snapshots_in_db partitions_in_db transactions_in_db] in *;
    (split_and!; simpl; [try exact C1|try exact C2|try exact C3|try exact C4|try exact C5]).
  - rewrite (inserts_into_rel s "tables" En) in D1. exact (run_rel_below (R:=table_rec) _ _ _ _ _ _ _ _ Er D1 Q1 B1).
  - rewrite (inserts_into_rel s "schema_history" En) in D2. exact (run_rel_below (R:=history_rec) _ _ _ _ _ _ _ _ Er D2 Q2 B2).
  - rewrite (inserts_into_rel s "snapshots" En) in D3. exact (run_rel_below (R:=snapshot_rec) _ _ _ _ _ _ _ _ Er D3 Q3 B3).
  - rewrite (inserts_into_rel s "partitions" En) in D4. exact (run_rel_below (R:=partition_rec) _ _ _ _ _ _ _ _ Er D4 Q4 B4).
  - rewrite (inserts_into_rel s "transactions" En) in D5. exact (run_rel_below (R:=transaction_rec) _ _ _ _ _ _ _ _ Er D5 Q5 B5).
Qed.
