(* ===== verification/Typing.v ===== *)
(** * Types of statements

    When a statement fits the schema of scripts/init_db.sql: its relation and
    columns exist, every value has the type of its column, every placeholder
    has a parameter and one type. A server can refuse such a statement only
    because a parameter is not a value of its type or because the result
    breaks a constraint. *)
From S2P Require Import Prelude Cxx Sql Database PgService DbFacts.

#[export] Instance sqltype_eq_dec : EqDecision sqltype.
Proof. solve_decision. Defined.

Definition has_type (ty : sqltype) (v : sqlval) : bool :=
  match ty, v with
  | (TInt8 | TInt4), SInt _ | TText, SText _ | TJsonb, SJson _ | TBool, SBool _ | TTimestamp, STime _ => true
  | _, _ => false
  end.

(** A placeholder and the type its parameter is read at. *)
Abbreviation use := (nat * sqltype)%type.

Definition operand_uses (ty : sqltype) (o : operand) : list use :=
  match o with OParam n => [(n, ty)] | OJsonb n => [(n, TJsonb)] | OBool _ | ONow => [] end.

Definition operand_fits (ty : sqltype) (o : operand) : bool :=
  match o, ty with
  | OParam _, (TInt8 | TInt4 | TText | TJsonb) | OJsonb _, TJsonb | OBool _, TBool | ONow, TTimestamp => true
  | _, _ => false
  end.

Definition comparable (op : cmpop) (ty : sqltype) : bool :=
  match op, ty with CEq, (TInt8 | TInt4 | TText | TBool) | (CLe | CGt), (TInt8 | TInt4) => true | _, _ => false end.

Section relation.
Context {R : Type} `{Rel R}.

(** The key of a relation is its first column; the sequence sets it. *)
Definition key_column : string := match columns (R:=R) with k :: _ => col_name k | [] => "" end.

Definition column_fits (c : string) : bool := bool_decide (is_Some (find_col (R:=R) c)).

Fixpoint pred_fits (p : Sql.pred) : bool :=
  match p with
  | PCmp c op o =>
      match find_col (R:=R) c with
      | Some k => operand_fits (col_type k) o && comparable op (col_type k)
      | None => false
      end
  | PAnd p q | POr p q => pred_fits p && pred_fits q
  end.

Fixpoint pred_uses (p : Sql.pred) : list use :=
  match p with
  | PCmp c op o => match find_col (R:=R) c with Some k => operand_uses (col_type k) o | None => [] end
  | PAnd p q | POr p q => pred_uses p ++ pred_uses q
  end.

Definition set_fits (s : string * operand) : bool :=
  match find_col (R:=R) s.1 with
  | Some k => operand_fits (col_type k) s.2 && negb (String.eqb s.1 key_column)
  | None => false
  end.
Definition set_uses (s : string * operand) : list use :=
  match find_col (R:=R) s.1 with Some k => operand_uses (col_type k) s.2 | None => [] end.

Definition opt_fits {A} (f : A -> bool) (o : option A) : bool := match o with Some a => f a | None => true end.

Definition stmt_fits (st : stmt) : bool :=
  match st with
  | Select _ cs p o _ _ => forallb column_fits cs && pred_fits p && opt_fits (fun x => column_fits x.1) o
  | Insert _ cs vs c k =>
      bool_decide (length cs = length vs) && bool_decide (required (R:=R) ⊆ cs) && bool_decide (NoDup cs)
      && forallb set_fits (zip cs vs) && opt_fits column_fits c && opt_fits column_fits k
  | Update _ ss p => forallb set_fits ss && bool_decide (NoDup ss.*1) && pred_fits p
  | Delete _ p => pred_fits p
  | Begin | Commit | Rollback => false
  end.

Definition stmt_uses (st : stmt) : list use :=
  match st with
  | Select _ _ p _ _ _ | Delete _ p => pred_uses p
  | Insert _ cs vs _ _ => concat (set_uses <$> zip cs vs)
  | Update _ ss p => concat (set_uses <$> ss) ++ pred_uses p
  | Begin | Commit | Rollback => []
  end.

(** The placeholders of LIMIT and OFFSET. *)
Definition stmt_counts (st : stmt) : list nat :=
  match st with Select _ _ _ _ l f => option_list l ++ option_list f | _ => [] end.

(** Every placeholder is one of [np] parameters and has one type. *)
Definition uses_fit (np : nat) (us : list use) : bool :=
  forallb (fun u => bool_decide (1 <= u.1 <= np)%nat && forallb (fun u' => negb (bool_decide (u.1 = u'.1)) || bool_decide (u.2 = u'.2)) us) us.

Definition typed_in (np : nat) (st : stmt) : bool :=
  stmt_fits st && uses_fit np (stmt_uses st ++ ((fun n => (n, TInt8)) <$> stmt_counts st)).

(** ** Values *)

(** The parameters are values of the types they are read at, and the counts
    are not negative. *)
Definition readable_in (e : SqlEnv) (ps : list string) (st : stmt) : Prop :=
  Forall (fun u => is_Some (s ← param ps u.1; coerce e u.2 s)) (stmt_uses st)
  /\ Forall (fun n => is_Some (count_param e ps (Some n))) (stmt_counts st).

Lemma operand_evaluates e ps ty o :
  operand_fits ty o = true -> Forall (fun u => is_Some (s ← param ps u.1; coerce e u.2 s)) (operand_uses ty o) ->
  exists v, eval_operand e ps ty o = Some v /\ has_type ty v = true.
Proof.
  assert (forall ty s v, coerce e ty s = Some v -> has_type ty v = true) as Hc.
  { intros [] s v E; cbn in E; try done; try (by injection E as <-);
      [destruct (se_int_in e s)..|destruct (se_jsonb_in e s)]; cbn in E; try case_match; try done; by injection E as <-. }
  destruct o as [n|n|b|]; cbn [operand_fits operand_uses eval_operand].
  - intros Hf Hu. rewrite Forall_singleton in Hu. cbn [fst snd] in Hu. destruct Hu as [v E]. exists v. split; [done|].
    bind_inv E as s Es. by eapply Hc.
  - destruct ty; try done. intros _ Hu. rewrite Forall_singleton in Hu. cbn [fst snd] in Hu. destruct Hu as [v E]. exists v. split; [done|].
    bind_inv E as s Es. by apply (Hc TJsonb) in E.
  - destruct ty; try done. intros _ _. by exists (SBool b).
  - destruct ty; try done. intros _ _. by exists (STime (se_now e)).
Qed.

Lemma pred_binds e ps p :
  pred_fits p = true -> Forall (fun u => is_Some (s ← param ps u.1; coerce e u.2 s)) (pred_uses p) ->
  is_Some (bind_pred e ps p).
Proof.
  induction p as [c op o|p IHp q IHq|p IHp q IHq]; cbn [pred_fits pred_uses bind_pred].
  - destruct (find_col c) as [k|]; [|done]. intros [Hf _]%andb_true_iff Hu.
    destruct (operand_evaluates e ps _ o Hf Hu) as (v & E & _). cbn [mbind option_bind]. rewrite E. by eexists.
  - intros [Hp Hq]%andb_true_iff [Up Uq]%Forall_app. destruct (IHp Hp Up) as [a ->], (IHq Hq Uq) as [b ->]. by eexists.
  - intros [Hp Hq]%andb_true_iff [Up Uq]%Forall_app. destruct (IHp Hp Up) as [a ->], (IHq Hq Uq) as [b ->]. by eexists.
Qed.

Lemma columns_bind cs : forallb column_fits cs = true -> is_Some (bind_cols (R:=R) cs).
Proof.
  induction cs as [|c cs IH]; [by eexists|]. cbn [forallb bind_cols]. intros [[k Hk]%bool_decide_eq_true Hcs]%andb_true_iff.
  rewrite Hk. cbn [mbind option_bind]. destruct (IH Hcs) as [ks ->]. by eexists.
Qed.
End relation.

(** Every column but the key can be set to a value of its type. *)
Class Settable (R : Type) `{Rel R} : Prop :=
  settable (k : column R) v r :
    k ∈ columns -> col_name k <> key_column (R:=R) -> has_type (col_type k) v = true -> is_Some (col_set k v r).

Ltac solve_settable :=
  intros k v r Hk Hne Hv; unfold columns in Hk; simpl in Hk;
  repeat (apply elem_of_cons in Hk as [->|Hk]; [first [by destruct Hne | destruct v; try done; destruct r; by eexists]|]);
  by apply not_elem_of_nil in Hk.

#[export] Instance table_settable : Settable table_rec.
Proof. solve_settable. Qed.
#[export] Instance history_settable : Settable history_rec.
Proof. solve_settable. Qed.
#[export] Instance snapshot_settable : Settable snapshot_rec.
Proof. solve_settable. Qed.
#[export] Instance partition_settable : Settable partition_rec.
Proof. solve_settable. Qed.
#[export] Instance transaction_settable : Settable transaction_rec.
Proof. solve_settable. Qed.

(** ** A typed statement with readable parameters runs *)

Section runs.
Context {R : Type} `{Settable R} (e : SqlEnv) (ps : list string).
Implicit Types (rows : list R).

Lemma find_col_named c (k : column R) : find_col c = Some k -> k ∈ columns /\ col_name k = c.
Proof.
  unfold find_col. intros [Hin Hc]%List.find_some. apply list_elem_of_In in Hin. by apply String.eqb_eq in Hc.
Qed.

Lemma sets_bind ss :
  forallb (set_fits (R:=R)) ss = true ->
  Forall (fun u => is_Some (s ← param ps u.1; coerce e u.2 s)) (concat (set_uses (R:=R) <$> ss)) ->
  exists ss', bind_sets (R:=R) e ps ss = Some ss' /\ forall r, is_Some (apply_sets ss' r).
Proof.
  induction ss as [|[c o] ss IH]; [intros _ _; exists []; split; [done|by eexists]|].
  cbn [forallb fmap list_fmap concat bind_sets]. intros [Hf Hss]%andb_true_iff [Hu Us]%Forall_app.
  destruct (IH Hss Us) as (ss' & E & Ha). unfold set_fits, set_uses in Hf, Hu. cbn [fst snd] in Hf, Hu.
  destruct (find_col c) as [k|] eqn:Ek; [|done]. apply andb_true_iff in Hf as [Hf Hne].
  destruct (operand_evaluates e ps (col_type k) o Hf Hu) as (v & Ev & Hv). apply find_col_named in Ek as [Hin Hname].
  exists ((k, v) :: ss'). cbn [mbind option_bind]. rewrite Ev, E. split; [done|]. intros r. cbn [apply_sets].
  destruct (settable k v r Hin) as [r' Er]; [|done|rewrite Er; apply Ha].
  rewrite Hname. intros ->. by rewrite String.eqb_refl in Hne.
Qed.

Lemma updates_run b ss rows : (forall r, is_Some (apply_sets ss r)) -> is_Some (update_rows (R:=R) b ss rows).
Proof.
  intros Ha. induction rows as [|r rows [[l n] IH]]; [by eexists|]. cbn [update_rows]. rewrite IH. cbn [mbind option_bind].
  destruct (holds b r); [|by eexists]. destruct (Ha r) as [r' ->]. by eexists.
Qed.

Lemma counts_read o : Forall (fun n => is_Some (count_param e ps (Some n))) (option_list o) -> is_Some (count_param e ps o).
Proof. destruct o as [n|]; [|by eexists]. change (option_list (Some n)) with [n]. by rewrite Forall_singleton. Qed.

Lemma col_found c : column_fits (R:=R) c = true -> is_Some (find_col (R:=R) c).
Proof. by intros ?%bool_decide_eq_true. Qed.

Lemma select_runs cs p o l f rows :
  stmt_fits (R:=R) (Select "" cs p o l f) = true -> readable_in (R:=R) e ps (Select "" cs p o l f) ->
  is_Some (run_select e ps cs p o l f rows).
Proof.
  intros [[Hcs Hp]%andb_true_iff Ho]%andb_true_iff [Hu [Hl Hf]%Forall_app]. unfold run_select.
  destruct (columns_bind (R:=R) cs Hcs) as [ks ->], (pred_binds e ps p Hp Hu) as [b ->], (counts_read l Hl) as [n ->],
    (counts_read f Hf) as [m ->]. cbn [mbind option_bind].
  destruct o as [[c desc]|]; [|by eexists]. destruct (col_found c Ho) as [k ->]. by eexists.
Qed.

Lemma insert_runs cs vs c k rows :
  stmt_fits (R:=R) (Insert "" cs vs c k) = true -> readable_in (R:=R) e ps (Insert "" cs vs c k) ->
  is_Some (run_insert e ps cs vs c k rows).
Proof.
  cbn [stmt_fits]. rewrite !andb_true_iff, !bool_decide_eq_true. intros (((((Hlen & Hreq) & _) & Hss) & Hc) & Hk) [Hu _].
  unfold run_insert. rewrite decide_True by done. destruct (sets_bind _ Hss Hu) as (ss' & -> & Ha). cbn [mbind option_bind].
  destruct (Ha (blank (se_next e) (se_now e))) as [r ->]. cbn [mbind option_bind].
  destruct c as [c|]; [destruct (col_found c Hc) as [kc ->]|]; (destruct k as [k|]; [destruct (col_found k Hk) as [kk ->]|]);
    cbn [mbind option_bind]; by eexists.
Qed.

Lemma typed_runs np st rows : typed_in (R:=R) np st = true -> readable_in (R:=R) e ps st -> is_Some (run_rel e st ps rows).
Proof.
  unfold typed_in. intros [Hf _]%andb_true_iff Hr.
  destruct st as [rel cs p o l f|rel cs vs c k|rel ss p|rel p| | |]; cbn [run_rel]; try done.
  - destruct (select_runs cs p o l f rows Hf Hr) as [res ->]. by eexists.
  - by apply insert_runs.
  - cbn [stmt_fits] in Hf. rewrite !andb_true_iff in Hf. destruct Hf as [[Hss _] Hp]. destruct Hr as [[Us Up]%Forall_app _].
    destruct (pred_binds e ps p Hp Up) as [b ->], (sets_bind ss Hss Us) as (ss' & -> & Ha). cbn [mbind option_bind].
    destruct (updates_run b ss' rows Ha) as [[l n] ->]. by eexists.
  - destruct Hr as [Hu _]. destruct (pred_binds e ps p Hf Hu) as [b ->]. by eexists.
Qed.
End runs.

(** ** Statements on the schema *)

(** What [f] says of the relation the statement names. *)
Definition on_relation {A} (none : A) (st : stmt) (f : forall (R : Type) (HR : Rel R), A) : A :=
  if String.eqb (stmt_rel st) "tables" then f table_rec _
  else if String.eqb (stmt_rel st) "schema_history" then f history_rec _
  else if String.eqb (stmt_rel st) "snapshots" then f snapshot_rec _
  else if String.eqb (stmt_rel st) "partitions" then f partition_rec _
  else if String.eqb (stmt_rel st) "transactions" then f transaction_rec _
  else none.

Definition well_typed (np : nat) (st : stmt) : bool := on_relation false st (fun R _ => typed_in (R:=R) np st).
Definition readable (e : SqlEnv) (ps : list string) (st : stmt) : Prop := on_relation False st (fun R _ => readable_in (R:=R) e ps st).

(** The effect of the statement would break a constraint of the schema. *)
Inductive breaks_constraint (e : SqlEnv) (st : stmt) (ps : list string) (d : Db) : Prop :=
  | breaks (R : Type) (HR : Rel R) (HI : InDb R) res l :
      stmt_rel st = rel_name -> run_rel e st ps (rows_of d) = Some (res, l) -> constraints_ok (with_rows l d) = false ->
      breaks_constraint e st ps d.

Lemma refused_in {R} `{InDb R, !Settable R} e st ps d np :
  stmt_rel st = rel_name -> typed_in (R:=R) np st = true -> readable_in (R:=R) e ps st ->
  run_stmt e st ps d = None -> breaks_constraint e st ps d.
Proof.
  intros Hn Ht Hr. rewrite (run_stmt_in (R:=R)) by done.
  destruct (typed_runs (R:=R) e ps np st (rows_of d) Ht Hr) as [[res l] E]. rewrite E. cbn [mbind option_bind].
  destruct (constraints_ok _) eqn:Hc; [done|]. intros _. by eapply breaks.
Qed.

(** A well-typed statement is refused only for its parameters or for what it
    does to the constraints. *)
Lemma well_typed_refused e st ps d np :
  well_typed np st = true -> readable e ps st -> run_stmt e st ps d = None -> breaks_constraint e st ps d.
Proof.
  unfold well_typed, readable, on_relation. intros Ht Hr E.
  destruct (String.eqb_spec (stmt_rel st) "tables"); [by eapply (refused_in (R:=table_rec))|].
  destruct (String.eqb_spec (stmt_rel st) "schema_history"); [by eapply (refused_in (R:=history_rec))|].
  destruct (String.eqb_spec (stmt_rel st) "snapshots"); [by eapply (refused_in (R:=snapshot_rec))|].
  destruct (String.eqb_spec (stmt_rel st) "partitions"); [by eapply (refused_in (R:=partition_rec))|].
  destruct (String.eqb_spec (stmt_rel st) "transactions"); [by eapply (refused_in (R:=transaction_rec))|done].
Qed.

(** The text of a call and the number of its parameters. *)
Definition accepted (text : string) (np : nat) : bool :=
  match parse_sql text with
  | Some (Begin | Commit | Rollback) => bool_decide (np = 0%nat)
  | Some st => well_typed np st
  | None => false
  end.
