(* ===== verification/RefServer.v ===== *)
(** * An executable server

    A [PgService] that runs statements with the definitions of Database.v, the
    proof that it satisfies [PgLaws], and that it satisfies [PgReliable] when
    it is told to ignore its list of faults. It shows that the interface can
    be met and lets the theorems about its clients be run on examples. *)
From S2P Require Import Prelude Cxx Sql Database PgService DbFacts.

(** What happens to a call: it runs, the statement is refused, the connection
    is lost before it, or after it. *)
Inductive fault := Runs | Refused | Lost | LostAfter.

Record ref_state := mkRef {
  rf_abs : PgAbs;
  rf_clock : Z;
  rf_next : nat;
  rf_faults : list fault }.

Definition ref_int_in (s : string) : option Z := signed_magnitude <$> read_int s.

(** Text that is not empty is taken for a document. *)
Definition ref_jsonb_in (s : string) : option string := if String.eqb s "" then None else Some s.

Definition fatal : PGresult := mkRes PGRES_FATAL_ERROR [] "".

(** The value an INSERT draws and the sequences after it. *)
Definition draw_from (st : stmt) (q : Seqs) : Z * Seqs :=
  let '(mkSeqs t h s p x) := q in
  if inserts_into st "tables" then (t, mkSeqs (t + 1) h s p x)
  else if inserts_into st "schema_history" then (h, mkSeqs t (h + 1) s p x)
  else if inserts_into st "snapshots" then (s, mkSeqs t h (s + 1) p x)
  else if inserts_into st "partitions" then (p, mkSeqs t h s (p + 1) x)
  else if inserts_into st "transactions" then (x, mkSeqs t h s p (x + 1))
  else (0, q).

Definition ref_env (now n : Z) : SqlEnv := mkEnv now n ref_int_in ref_jsonb_in to_string.

(** A statement on a connection, without faults. *)
Definition ref_run (now : Z) (c : PGconn) (st : stmt) (ps : list string) (a : PgAbs) : PGresult * PgAbs :=
  match sessions a !! c with
  | None => (fatal, a)
  | Some s =>
      if is_query st then
        match view_of s (committed a) with
        | None => (fatal, a)
        | Some d =>
            let '(n, q) := draw_from st (seqs a) in
            match run_stmt (ref_env now n) st ps d with
            | Some (r, d') => (r, set_seqs q (set_view c d' a))
            | None => (fatal, set_seqs q (fail_view c a))
            end
        end
      else
        match tx_control st s (committed a) with
        | Some (s', d') => (command_ok "", set_committed d' (set_session c s' a))
        | None => (fatal, a)
        end
  end.

(** What is left of a call that is refused. *)
Definition ref_refuse (c : PGconn) (st : stmt) (a : PgAbs) : PgAbs :=
  if is_query st then fail_view c a
  else match st with
       | Begin => a
       | Commit => match sessions a !! c with Some Broken | None => a | Some _ => set_session c Idle a end
       | _ => set_session c Broken a
       end.

Section service.
(** What happens to a call, a statement or (for [None]) the opening of a
    connection, for which the list has the given fault. *)
Context (policy : option stmt -> fault -> fault).

Definition next_fault (call : option stmt) (s : ref_state) : fault :=
  policy call (default Runs (head (rf_faults s))).

Definition ref_after (s : ref_state) (a : PgAbs) : ref_state :=
  mkRef a (rf_clock s + 1) (rf_next s) (tail (rf_faults s)).

Definition ref_exec (c : PGconn) (text : string) (ps : list string) (s : ref_state) : PGresult * ref_state :=
  let a := rf_abs s in
  match parse_sql text with
  | None => (fatal, ref_after s a)
  | Some st =>
      match next_fault (Some st) s with
      | Runs => let '(r, a') := ref_run (rf_clock s) c st ps a in (r, ref_after s a')
      | Refused => (fatal, ref_after s (ref_refuse c st a))
      | Lost => (fatal, ref_after s (set_session c Broken a))
      | LostAfter =>
          let '(_, a') := ref_run (rf_clock s) c st ps a in (fatal, ref_after s (set_session c Broken a'))
      end
  end.

Definition new_session (s : ref_state) : session := match next_fault None s with Runs => Idle | _ => Broken end.

#[local] Instance ref_service : PgService := {
  pg := ref_state;
  PQconnectdb _ s :=
    let c := fresh (dom (sessions (rf_abs s))) in
    (c, ref_after s (set_session c (new_session s) (rf_abs s)));
  PQstatus c s := match sessions (rf_abs s) !! c with Some Idle | Some (InTx _ _) | Some (InFailedTx _) => CONNECTION_OK | _ => CONNECTION_BAD end;
  PQreset c s := ref_after s (set_session c (new_session s) (rf_abs s));
  PQfinish c s :=
    mkRef (mkAbs (committed (rf_abs s)) (delete c (sessions (rf_abs s))) (seqs (rf_abs s)))
      (rf_clock s) (rf_next s) (rf_faults s);
  PQexecParams := ref_exec;
  PQexec c text := ref_exec c text [];
  pg_int_in := ref_int_in;
  pg_jsonb_in := ref_jsonb_in;
  pg_ts_out := to_string;
  abs := rf_abs }.

(** ** It meets the interface *)

Lemma draw_from_step st q : let '(n, q') := draw_from st q in seqs_step st n q q'.
Proof.
  destruct q as [t h s p x]. unfold draw_from, seqs_step, draw. destruct st; cbn [inserts_into]; try done.
  destruct (String.eqb_spec rel "tables") as [->|]; [done|].
  destruct (String.eqb_spec rel "schema_history") as [->|]; [done|].
  destruct (String.eqb_spec rel "snapshots") as [->|]; [done|].
  destruct (String.eqb_spec rel "partitions") as [->|]; [done|].
  by destruct (String.eqb_spec rel "transactions") as [->|].
Qed.

Lemma select_keeps e st ps d r d' : is_select st = true -> run_stmt e st ps d = Some (r, d') -> d' = d.
Proof.
  intros Hs E. destruct st as [rel cs p o l f| | | | | |]; try done.
  apply run_stmt_cases in E as [_ H].
  assert (forall R `{InDb R}, ran_on (R:=R) e (Select rel cs p o l f) ps d r d' -> d' = d) as Hr.
  { intros R HR HI (_ & rows & Er & ->). simpl in Er.
    destruct (run_select _ _ _ _ _ _ _ _); [|done]. injection Er as _ <-. apply with_same_rows. }
  destruct H as [H|[H|[H|[H|H]]]]; exact (Hr _ _ _ H).
Qed.

Lemma set_session_same c x a : sessions a !! c = Some x -> set_session c x a = a.
Proof. intros E. destruct a as [d ss q]. unfold set_session. simpl in *. by rewrite insert_id. Qed.
Lemma set_seqs_same' a : set_seqs (seqs a) a = a.
Proof. by destruct a. Qed.

Lemma ref_run_ok now c st ps a r a' x :
  sessions a !! c = Some x -> x <> Broken -> ref_run now c st ps a = (r, a') ->
  exec_ok pg_env c st ps a r a'.
Proof.
  intros E Hx. unfold ref_run. rewrite E. destruct (is_query st) eqn:Hq.
  - assert (view c a = view_of x (committed a)) as Hv by (unfold view; by rewrite E).
    destruct (view_of x (committed a)) as [d|] eqn:Ev.
    + pose proof (draw_from_step st (seqs a)) as St. destruct (draw_from st (seqs a)) as [n q].
      destruct (run_stmt (ref_env now n) st ps d) as [[r' d']|] eqn:Er; intros [= <- <-].
      * apply (ok_query _ c st ps a d now n); [done..| |done]. unfold query_ok.
        destruct (is_select st) eqn:Hs; [|done]. exists d. split; [done|].
        apply select_keeps in Er as Hd; [|done]. by subst d'.
      * by apply (ok_error _ c st ps a d now n fatal q q); [..|right|].
    + intros [= <- <-]. destruct x; try done. by eapply ok_aborted; [left| |].
  - destruct (tx_control st x (committed a)) as [[s' d']|] eqn:Et; intros [= <- <-].
    + by eapply ok_control.
    + destruct st, x; try done; by eapply ok_aborted; [right| |].
Qed.

Lemma ref_exec_law c text ps st s r s' :
  parse_sql text = Some st -> is_Some (sessions (rf_abs s) !! c) -> ref_exec c text ps s = (r, s') ->
  exec_ok pg_env c st ps (rf_abs s) r (rf_abs s') \/ exec_fault pg_env c st ps (rf_abs s) r (rf_abs s').
Proof.
  intros Hp [x E]. unfold ref_exec. rewrite Hp.
  assert (set_session c Broken (rf_abs s) = set_seqs (seqs (rf_abs s)) (set_session c Broken (rf_abs s))) as Hb by done.
  assert (x = Broken \/ x <> Broken) as [->|Hx] by (destruct x; first [by left|by right]).
  - assert (forall ps', ref_run (rf_clock s) c st ps' (rf_abs s) = (fatal, rf_abs s)) as Hrun.
    { intros ps'. unfold ref_run. rewrite E. simpl. by destruct st. }
    assert (set_session c Broken (rf_abs s) = rf_abs s) as Hsame by by apply set_session_same.
    assert (exec_fault pg_env c st ps (rf_abs s) fatal (rf_abs s)) as Hf.
    { rewrite <- Hsame at 2. rewrite Hb. by apply fault_broken. }
    intros H. right. destruct (next_fault (Some st) s); rewrite ?Hrun in H; injection H as <- <-; cbn [rf_abs ref_after];
      rewrite ?Hsame; try done.
    unfold ref_refuse. destruct st; cbn; rewrite ?E; unfold fail_view; rewrite ?E, ?Hsame; done.
  - destruct (next_fault (Some st) s).
    + destruct (ref_run _ _ _ _ _) as [r' a'] eqn:Er. intros [= <- <-]. left. by eapply ref_run_ok.
    + intros [= <- <-]. right. unfold ref_refuse. cbn [rf_abs ref_after].
      destruct (is_query st) eqn:Hq.
      * rewrite <- (set_seqs_same' (fail_view c (rf_abs s))).
        replace (seqs (fail_view c (rf_abs s))) with (seqs (rf_abs s)) by (unfold fail_view; by rewrite E; destruct x).
        by apply fault_query.
      * destruct st; try done.
        -- by apply fault_begin.
        -- rewrite E. destruct x; try done; by eapply fault_commit.
        -- rewrite Hb. by apply fault_broken.
    + intros [= <- <-]. right. cbn [rf_abs ref_after]. rewrite Hb. by apply fault_broken.
    + destruct (ref_run _ _ _ _ _) as [r' a'] eqn:Er. intros [= <- <-]. right. cbn [rf_abs ref_after].
      eapply fault_late; [by eapply ref_run_ok|done].
Qed.

Lemma ref_laws : PgLaws ref_service.
Proof.
  split.
  - intros c text ps st s r s' Hp _ Hc. by apply ref_exec_law.
  - intros c text st s r s' Hp _ Hc. by apply ref_exec_law.
  - intros c s x. cbn [PQstatus ref_service abs]. intros ->. by destruct x.
  - intros str s c s'. cbn [PQconnectdb ref_service abs]. intros [= <- <-]. split.
    + apply not_elem_of_dom, is_fresh.
    + exists (new_session s). split; [|done]. unfold new_session. destruct (next_fault None s); auto.
  - intros c s _. exists (new_session s). split; [|done]. unfold new_session. destruct (next_fault None s); auto.
  - done.
  - intros z. cbn [pg_int_in ref_service]. unfold ref_int_in. rewrite read_int_to_string.
    cbn [fmap option_fmap option_map]. by rewrite signed_magnitude_abs.
Qed.
End service.

(** A server that never fails, and one that follows its faults. *)
Definition reliable_service : PgService := ref_service (fun _ _ => Runs).
Definition faulty_service : PgService := ref_service (fun _ f => f).

Lemma reliable_service_laws : PgLaws reliable_service.
Proof. apply ref_laws. Qed.
Lemma faulty_service_laws : PgLaws faulty_service.
Proof. apply ref_laws. Qed.

Lemma ref_exec_runs policy c text ps st s r s' x :
  (forall f, policy (Some st) f = Runs) -> parse_sql text = Some st -> sessions (rf_abs s) !! c = Some x -> x <> Broken ->
  ref_exec policy c text ps s = (r, s') -> exec_ok (@pg_env (ref_service policy)) c st ps (rf_abs s) r (rf_abs s').
Proof.
  intros Hr Hp E Hx. unfold ref_exec, next_fault. rewrite Hp, Hr.
  destruct (ref_run _ _ _ _ _) as [r' a'] eqn:Er. intros [= <- <-]. by eapply ref_run_ok.
Qed.

(** A server that leaves the queries alone. *)
Lemma ref_runs policy : (forall st f, is_query st = true -> policy (Some st) f = Runs) -> PgRuns (ref_service policy).
Proof. intros H. split. intros c text ps st s r s' x Hp Hq _ E Hx Ex. eapply ref_exec_runs; try done. intros f. by apply H. Qed.

Lemma reliable_service_reliable : PgReliable reliable_service.
Proof.
  split; [by apply ref_runs|]. intros c text st s r s' x Hp _ E Hx Ex. by eapply ref_exec_runs.
Qed.

(** A server with an empty database and idle connections. *)
Definition ref_start (d : Db) (q : Seqs) (conns : list PGconn) (faults : list fault) : ref_state :=
  mkRef (mkAbs d (list_to_map ((fun c => (c, Idle)) <$> conns)) q) 0 0 faults.
Definition first_seqs : Seqs := mkSeqs 1 1 1 1 1.
