(* ===== verification/PgClient.v ===== *)
(** * The query layer (src/db/pg_client.h, pg_client.cpp)

    One definition per method of [PgClient]: the statement it sends, as the
    text of the source, its parameters, and how it reads the result. A method
    runs in [PgM]: it changes the state of the service and may throw (the
    conversions of the numeric fields do). [PQclear] and the messages written
    to the log are left out. *)
From S2P Require Import Prelude Cxx Sql Database PgService.

(** ** Rows *)

Record PartitionRow := mkPartitionRow {
  pr_partition_id : Z;
  pr_table_id : Z;
  pr_snapshot_id : Z;
  pr_partition_key : string;
  pr_data_file_path : string;
  pr_file_format : string;
  pr_row_count : Z;
  pr_size_bytes : Z;
  pr_column_stats_json : string }.

Record TableRow := mkTableRow {
  tr_table_id : Z;
  tr_table_name : string;
  tr_schema_json : string;
  tr_schema_version : Z;
  tr_partition_spec : string;
  tr_current_snapshot_id : Z;
  tr_properties_json : string }.

Record SnapshotRow := mkSnapshotRow {
  sr_snapshot_id : Z;
  sr_table_id : Z;
  sr_parent_snapshot_id : Z;
  sr_operation : string;
  sr_added_files_count : Z;
  sr_deleted_files_count : Z;
  sr_committed_at : string }.

#[export] Instance PartitionRow_eq_dec : EqDecision PartitionRow.
Proof. solve_decision. Defined.

(** ** The monad of the methods *)

Definition PgM {P : PgService} (A : Type) : Type := pg -> (cxx_exn + A) * pg.

Section monad.
Context {P : PgService}.

Definition pret {A} (a : A) : PgM A := fun s => (inr a, s).
Definition pbind {A B} (m : PgM A) (k : A -> PgM B) : PgM B := fun s =>
  match m s with
  | (inr a, s') => k a s'
  | (inl e, s') => (inl e, s')
  end.
Definition pthrow {A} (r : cxx_exn + A) : PgM A := fun s => (r, s).

Definition exec_params (conn : PGconn) (text : string) (ps : list string) : PgM PGresult := fun s =>
  let '(r, s') := PQexecParams conn text ps s in (inr r, s').
Definition exec (conn : PGconn) (text : string) : PgM PGresult := fun s =>
  let '(r, s') := PQexec conn text s in (inr r, s').
End monad.

Declare Scope pgm_scope.
Delimit Scope pgm_scope with pgm.
Notation "'let!' x := m 'in' k" := (pbind m (fun x => k))
  (at level 10, x name, m at level 200, k at level 200) : pgm_scope.
Open Scope pgm_scope.

(** ** Reading results *)

Definition PQntuples (res : PGresult) : Z := Z.of_nat (length (res_rows res)).
Definition PQcmdTuples (res : PGresult) : string := res_cmd_tuples res.

Definition field (res : PGresult) (row col : nat) : option string :=
  fs ← res_rows res !! row; v ← fs !! col; v.

Definition PQgetisnull (res : PGresult) (row col : nat) : bool :=
  match field res row col with None => true | Some _ => false end.
(** The empty string for a null. *)
Definition PQgetvalue (res : PGresult) (row col : nat) : string := default "" (field res row col).

Definition tuples_ok (res : PGresult) : bool := bool_decide (res_status res = PGRES_TUPLES_OK).
Definition command_was_ok (res : PGresult) : bool := bool_decide (res_status res = PGRES_COMMAND_OK).

Definition field_str (res : PGresult) (row col : nat) : string :=
  if PQgetisnull res row col then "" else PQgetvalue res row col.

Definition field_int64 (res : PGresult) (row col : nat) : cxx_exn + Z :=
  if PQgetisnull res row col then inr 0 else stoll (PQgetvalue res row col).

Definition field_int32 (res : PGresult) (row col : nat) : cxx_exn + Z :=
  if PQgetisnull res row col then inr 0 else stoi (PQgetvalue res row col).

Section methods.
Context {P : PgService}.

(** [for (int i = 0; i < n; ++i)] over the rows of a result. *)
Fixpoint for_rows {A} (read : nat -> PgM A) (idx : list nat) : PgM (list A) :=
  match idx with
  | [] => pret []
  | i :: idx' => let! a := read i in let! l := for_rows read idx' in pret (a :: l)
  end.
Definition read_rows {A} (read : nat -> PgM A) (res : PGresult) : PgM (list A) :=
  for_rows read (seq 0 (length (res_rows res))).

Definition int64_at (res : PGresult) (i col : nat) : PgM Z := pthrow (field_int64 res i col).
Definition int32_at (res : PGresult) (i col : nat) : PgM Z := pthrow (field_int32 res i col).

Definition table_row (res : PGresult) (i : nat) : PgM TableRow :=
  let! table_id := int64_at res i 0 in
  let! schema_version := int32_at res i 3 in
  let! current_snapshot_id := int64_at res i 5 in
  pret (mkTableRow table_id (field_str res i 1) (field_str res i 2) schema_version
          (field_str res i 4) current_snapshot_id (field_str res i 6)).

Definition partition_row (res : PGresult) (i : nat) : PgM PartitionRow :=
  let! partition_id := int64_at res i 0 in
  let! table_id := int64_at res i 1 in
  let! snapshot_id := int64_at res i 2 in
  let! row_count := int64_at res i 6 in
  let! size_bytes := int64_at res i 7 in
  pret (mkPartitionRow partition_id table_id snapshot_id (field_str res i 3) (field_str res i 4)
          (field_str res i 5) row_count size_bytes (field_str res i 8)).

Definition snapshot_row (res : PGresult) (i : nat) : PgM SnapshotRow :=
  let! snapshot_id := int64_at res i 0 in
  let! table_id := int64_at res i 1 in
  let! parent_snapshot_id := int64_at res i 2 in
  let! added_files_count := int32_at res i 4 in
  let! deleted_files_count := int32_at res i 5 in
  pret (mkSnapshotRow snapshot_id table_id parent_snapshot_id (field_str res i 3)
          added_files_count deleted_files_count (field_str res i 6)).

(** ** Tables *)

Definition get_table_id (conn : PGconn) (table_name : string) : PgM Z :=
  let! res := exec_params conn
    "SELECT table_id FROM tables WHERE table_name = $1 AND is_deleted = false"
    [c_str table_name] in
  if negb (tuples_ok res) || (PQntuples res =? 0) then pret (-1)
  else int64_at res 0 0.

Definition create_table (conn : PGconn) (table_name schema_json partition_spec properties_json : string)
    : PgM bool :=
  let! res := exec_params conn
    "INSERT INTO tables (table_name, schema_json, partition_spec, properties) VALUES ($1, $2::jsonb, $3, $4::jsonb) ON CONFLICT (table_name) DO NOTHING"
    [c_str table_name; c_str schema_json; c_str partition_spec; c_str properties_json] in
  if negb (command_was_ok res) then pret false
  else if String.eqb (PQcmdTuples res) "0" then pret false
  else pret true.

Definition get_table (conn : PGconn) (table_name : string) : PgM (option TableRow) :=
  let! res := exec_params conn
    "SELECT table_id, table_name, schema_json::text, schema_version,        partition_spec, current_snapshot_id, properties::text FROM tables WHERE table_name = $1 AND is_deleted = false"
    [c_str table_name] in
  if negb (tuples_ok res) || (PQntuples res =? 0) then pret None
  else let! row := table_row res 0 in pret (Some row).

Definition update_table_schema (conn : PGconn) (table_name new_schema_json : string) (new_version : Z)
    (change_summary : string) : PgM bool :=
  let ver_str := to_string new_version in
  let! res := exec_params conn
    "UPDATE tables SET schema_json = $1::jsonb, schema_version = $2, updated_at = now() WHERE table_name = $3 AND is_deleted = false"
    [c_str new_schema_json; c_str ver_str; c_str table_name] in
  if negb (command_was_ok res) then pret false
  else
    let! table_id := get_table_id conn table_name in
    if table_id <? 0 then pret false
    else
      let! res := exec_params conn
        "INSERT INTO schema_history (table_id, schema_version, schema_json, change_summary) VALUES ($1, $2, $3::jsonb, $4)"
        [c_str (to_string table_id); c_str ver_str; c_str new_schema_json; c_str change_summary] in
      pret (command_was_ok res).

Definition rename_table (conn : PGconn) (old_name new_name : string) : PgM bool :=
  let! res := exec_params conn
    "UPDATE tables SET table_name = $1, updated_at = now() WHERE table_name = $2 AND is_deleted = false"
    [c_str new_name; c_str old_name] in
  pret (command_was_ok res).

Definition drop_table (conn : PGconn) (table_name : string) (purge : bool) : PgM bool :=
  if purge then
    let! table_id := get_table_id conn table_name in
    if table_id <? 0 then pret false
    else
      let p := [c_str (to_string table_id)] in
      let! _ := exec_params conn "DELETE FROM partitions WHERE table_id = $1" p in
      let! _ := exec_params conn "DELETE FROM snapshots WHERE table_id = $1" p in
      let! _ := exec_params conn "DELETE FROM schema_history WHERE table_id = $1" p in
      let! res := exec_params conn "DELETE FROM tables WHERE table_name = $1" [c_str table_name] in
      pret (command_was_ok res)
  else
    let! res := exec_params conn
      "UPDATE tables SET is_deleted = true, updated_at = now() WHERE table_name = $1 AND is_deleted = false"
      [c_str table_name] in
    pret (command_was_ok res && negb (String.eqb (PQcmdTuples res) "0")).

Definition list_tables (conn : PGconn) (ns : string) (page_size : Z) (page_token : string)
    : PgM (list TableRow) :=
  let limit_str := to_string (if 0 <? page_size then page_size else 100) in
  let offset_str := if String.eqb page_token "" then "0" else page_token in
  let! res := exec_params conn
    "SELECT table_id, table_name, schema_json::text, schema_version,        partition_spec, current_snapshot_id, properties::text FROM tables WHERE is_deleted = false ORDER BY table_id LIMIT $1 OFFSET $2"
    [c_str limit_str; c_str offset_str] in
  if negb (tuples_ok res) then pret [] else read_rows (table_row res) res.

(** ** Partitions *)

Definition query_partitions (conn : PGconn) (table_name : string) (snapshot_id : Z)
    : PgM (option (list PartitionRow)) :=
  let! table_id := get_table_id conn table_name in
  if table_id <? 0 then pret None
  else
    let! res := exec_params conn
      "SELECT partition_id, table_id, snapshot_id, partition_key,        data_file_path, file_format, row_count, size_bytes, column_stats::text FROM partitions WHERE table_id = $1 AND snapshot_id <= $2   AND (is_deleted = false OR deleted_snapshot_id > $2) ORDER BY partition_id"
      [c_str (to_string table_id); c_str (to_string snapshot_id)] in
    if negb (tuples_ok res) then pret None
    else let! rows := read_rows (partition_row res) res in pret (Some rows).

Definition query_partitions_paged (conn : PGconn) (table_name : string) (snapshot_id page_size last_partition_id : Z)
    : PgM (option (list PartitionRow)) :=
  let! table_id := get_table_id conn table_name in
  if table_id <? 0 then pret None
  else
    let! res := exec_params conn
      "SELECT partition_id, table_id, snapshot_id, partition_key,        data_file_path, file_format, row_count, size_bytes, column_stats::text FROM partitions WHERE table_id = $1 AND snapshot_id <= $2   AND (is_deleted = false OR deleted_snapshot_id > $2)   AND partition_id > $3 ORDER BY partition_id LIMIT $4"
      [c_str (to_string table_id); c_str (to_string snapshot_id); c_str (to_string last_partition_id);
       c_str (to_string (if 0 <? page_size then page_size else 1000))] in
    if negb (tuples_ok res) then pret None
    else let! rows := read_rows (partition_row res) res in pret (Some rows).

Definition insert_partition (conn : PGconn) (table_name : string) (snapshot_id : Z) (part : PartitionRow)
    : PgM bool :=
  let! table_id := get_table_id conn table_name in
  if table_id <? 0 then pret false
  else
    let! res := exec_params conn
      "INSERT INTO partitions (table_id, snapshot_id, partition_key, data_file_path,   file_format, row_count, size_bytes, column_stats) VALUES ($1, $2, $3, $4, $5, $6, $7, $8::jsonb)"
      [c_str (to_string table_id); c_str (to_string snapshot_id); c_str (pr_partition_key part);
       c_str (pr_data_file_path part); c_str (pr_file_format part);
       c_str (to_string (pr_row_count part)); c_str (to_string (pr_size_bytes part));
       if String.eqb (pr_column_stats_json part) "" then "{}" else c_str (pr_column_stats_json part)] in
    pret (command_was_ok res).

Definition mark_partition_deleted (conn : PGconn) (table_name partition_key : string)
    (deleted_snapshot_id : Z) : PgM bool :=
  let! table_id := get_table_id conn table_name in
  if table_id <? 0 then pret false
  else
    let! res := exec_params conn
      "UPDATE partitions SET is_deleted = true, deleted_snapshot_id = $1 WHERE table_id = $2 AND partition_key = $3 AND is_deleted = false"
      [c_str (to_string deleted_snapshot_id); c_str (to_string table_id); c_str partition_key] in
    pret (command_was_ok res).

(** ** Snapshots *)

Definition insert_snapshot (conn : PGconn) (table_name : string) (parent_snapshot_id : Z) (operation : string)
    (added_count deleted_count : Z) : PgM Z :=
  let! table_id := get_table_id conn table_name in
  if table_id <? 0 then pret 0
  else
    let! res := exec_params conn
      "INSERT INTO snapshots (table_id, parent_snapshot_id, operation,   added_files_count, deleted_files_count) VALUES ($1, $2, $3, $4, $5) RETURNING snapshot_id"
      [c_str (to_string table_id); c_str (to_string parent_snapshot_id); c_str operation;
       c_str (to_string added_count); c_str (to_string deleted_count)] in
    if tuples_ok res && (0 <? PQntuples res) then let! id := int64_at res 0 0 in pret (u64 id)
    else pret 0.

Definition get_snapshot (conn : PGconn) (table_name : string) (snapshot_id : Z) : PgM (option SnapshotRow) :=
  let! table_id := get_table_id conn table_name in
  if table_id <? 0 then pret None
  else
    let! res := exec_params conn
      "SELECT snapshot_id, table_id, parent_snapshot_id, operation,        added_files_count, deleted_files_count, committed_at::text FROM snapshots WHERE table_id = $1 AND snapshot_id = $2"
      [c_str (to_string table_id); c_str (to_string snapshot_id)] in
    if negb (tuples_ok res) || (PQntuples res =? 0) then pret None
    else let! row := snapshot_row res 0 in pret (Some row).

Definition list_snapshots (conn : PGconn) (table_name : string) (limit : Z) : PgM (list SnapshotRow) :=
  let! table_id := get_table_id conn table_name in
  if table_id <? 0 then pret []
  else
    let! res := exec_params conn
      "SELECT snapshot_id, table_id, parent_snapshot_id, operation,        added_files_count, deleted_files_count, committed_at::text FROM snapshots WHERE table_id = $1 ORDER BY committed_at DESC LIMIT $2"
      [c_str (to_string table_id); c_str (to_string (if 0 <? limit then limit else 50))] in
    if negb (tuples_ok res) then pret [] else read_rows (snapshot_row res) res.

Definition get_current_snapshot (conn : PGconn) (table_name : string) : PgM Z :=
  let! res := exec_params conn
    "SELECT current_snapshot_id FROM tables WHERE table_name = $1 AND is_deleted = false"
    [c_str table_name] in
  if tuples_ok res && (0 <? PQntuples res) then let! snap := int64_at res 0 0 in pret (u64 snap)
  else pret 0.

Definition update_table_snapshot (conn : PGconn) (table_name : string) (snapshot_id : Z) : PgM bool :=
  let! res := exec_params conn
    "UPDATE tables SET current_snapshot_id = $1, updated_at = now() WHERE table_name = $2 AND is_deleted = false"
    [c_str (to_string snapshot_id); c_str table_name] in
  pret (command_was_ok res).

(** ** Transactions *)

Definition insert_transaction (conn : PGconn) (client_id : string) (read_snapshot_id : Z) (isolation : string)
    : PgM Z :=
  let! res := exec_params conn
    "INSERT INTO transactions (client_id, read_snapshot_id, isolation_level) VALUES ($1, $2, $3) RETURNING txn_id"
    [c_str client_id; c_str (to_string read_snapshot_id); c_str isolation] in
  if tuples_ok res && (0 <? PQntuples res) then let! id := int64_at res 0 0 in pret (u64 id)
  else pret 0.

Definition update_transaction_status (conn : PGconn) (txn_id : Z) (status : string) : PgM bool :=
  let query := "UPDATE transactions SET status = $1" +:+
               (if String.eqb status "committed" then ", committed_at = now()" else "") +:+
               " WHERE txn_id = $2" in
  let! res := exec_params conn query [c_str status; c_str (to_string txn_id)] in
  pret (command_was_ok res).

End methods.
