(* ===== verification/PgSpec.v ===== *)
(** * What the query layer promises

    Each method of PgClient.v on a reliable service: its result and its effect
    on the database, written with the functions of the first part, which say
    what a table, a set of visible partitions or a new snapshot is without any
    SQL. *)
From S2P Require Import Prelude Cxx Sql Database PgService DbFacts PgClient.

(** ** Calls on a connection that is ready *)

Section exec.
Context {P : PgService}.
Implicit Types (c : PGconn) (a : PgAbs) (d : Db) (s : pg).

Lemma view_session c a d :
  view c a = Some d -> exists x, sessions a !! c = Some x /\ x <> Broken /\ view_of x (committed a) = Some d.
Proof.
  unfold view. destruct (sessions a !! c) as [x|]; [|done]. simpl. intros E. exists x.
  split; [done|]. split; [by intros ->|done].
Qed.

Lemma ready_serial c a d : ready c a d -> serial c a.
Proof. intros Rd. split; apply Rd. Qed.

Lemma set_view_same c a d : view c a = Some d -> set_view c d a = a.
Proof.
  intros (x & E & _ & V)%view_session. unfold set_view. rewrite E. destruct a as [cm ss q].
  destruct x; simpl in *; try done; injection V as ->; [done|]. f_equal. by apply insert_id.
Qed.

Lemma ready_write c a d d' q :
  ready c a d -> db_ok q d' -> seqs_le (seqs a) q -> ready c (set_seqs q (set_view c d' a)) d'.
Proof.
  intros [V _ Hc Hq Hb Ha] Hd Hle. pose proof (view_session _ _ _ V) as (x & E & Hx & Vx).
  unfold set_view. rewrite E. destruct x; try done; split; simpl.
  - unfold view. simpl. by rewrite E.
  - done.
  - done.
  - by eapply seqs_ok_mono.
  - intros b w E'. congruence.
  - done.
  - unfold view. simpl. by rewrite lookup_insert_eq.
  - done.
  - by eapply db_ok_mono.
  - by eapply seqs_ok_mono.
  - intros b w. rewrite lookup_insert_eq. intros [= <- _]. by eapply Hb.
  - intros c' s'. rewrite lookup_insert. case_decide; [done|]. by apply Ha.
Qed.

Lemma seqs_step_select st n q q' : is_insert st = false -> seqs_step st n q q' -> q' = q.
Proof.
  intros Hi (D1 & D2 & D3 & D4 & D5). destruct q, q', st; try done; simpl in *; congruence.
Qed.

Context `{!PgLaws P, !PgRuns P}.

Lemma exec_params_ready c text ps st s d :
  parse_sql text = Some st -> is_query st = true -> ready c (abs s) d ->
  exists r s' now n q, exec_params c text ps s = (inr r, s') /\ seqs_step st n (seqs (abs s)) q
    /\ ((exists d', query_ok (pg_env now n) st ps d r d'
          /\ abs s' = set_seqs q (set_view c d' (abs s)))
       \/ (run_stmt (pg_env now n) st ps d = None /\ res_status r = PGRES_FATAL_ERROR
          /\ exists q', (q' = seqs (abs s) \/ q' = q) /\ abs s' = set_seqs q' (fail_view c (abs s)))).
Proof.
  intros Hp Hq Rd. destruct (view_session _ _ _ (rd_view _ _ _ Rd)) as (x & E & Hx & V).
  unfold exec_params. destruct (PQexecParams c text ps s) as [r s'] eqn:Ex.
  pose proof (runs_law c text ps st s r s' x Hp Hq (ready_serial _ _ _ Rd) E Hx Ex) as Ok.
  exists r, s'. inversion Ok as [d0 now n r0 d' q _ Hv Hqo Hs|d0 now n r0 q q' _ Hv Hrun Hs Hqq Hf|b r0 _ Hb Hf|]; subst.
  - rewrite (rd_view _ _ _ Rd) in Hv. injection Hv as <-. exists now, n, q. split; [done|].
    split; [done|]. left. by exists d'.
  - rewrite (rd_view _ _ _ Rd) in Hv. injection Hv as <-. exists now, n, q'. split; [done|].
    split; [done|]. right. split; [done|]. split; [done|]. exists q. done.
  - rewrite E in Hb. injection Hb as ->. done.
  - congruence.
Qed.

(** A statement that changes rows and cannot fail on this database. *)
Lemma exec_write c text ps st s d (F : Z -> Z -> PGresult * Db) :
  parse_sql text = Some st -> is_query st = true -> is_select st = false -> ready c (abs s) d ->
  (forall now n q, seqs_step st n (seqs (abs s)) q -> run_stmt (pg_env now n) st ps d = Some (F now n)) ->
  exists s' now n q, exec_params c text ps s = (inr (F now n).1, s')
    /\ seqs_step st n (seqs (abs s)) q
    /\ abs s' = set_seqs q (set_view c (F now n).2 (abs s)) /\ ready c (abs s') (F now n).2.
Proof.
  intros Hp Hq Hs Rd HF.
  destruct (exec_params_ready c text ps st s d Hp Hq Rd) as (r & s' & now & n & q & E & St & [(d' & Hok & Ea)|(Hn & _)]).
  - unfold query_ok in Hok. rewrite Hs, (HF now n q St) in Hok. destruct (F now n) as [r0 d0] eqn:EF.
    injection Hok as -> ->. exists s', now, n, q. rewrite EF. simpl. split_and!; [done..|].
    rewrite Ea. apply (ready_write _ _ d); [done| |by eapply seqs_step_le].
    apply (run_stmt_db_ok (pg_env now n) st ps d r d' (seqs (abs s)) q); [apply Rd|apply Rd|done|].
    by rewrite (HF now n q St), EF.
  - by rewrite (HF now n q St) in Hn.
Qed.

(** A statement that is bound to fail. *)
Lemma exec_fails c text ps st s d :
  parse_sql text = Some st -> is_query st = true -> ready c (abs s) d ->
  (forall now n q dp, seqs_step st n (seqs (abs s)) q -> db_perm d dp -> run_stmt (pg_env now n) st ps dp = None) ->
  exists r s' q, exec_params c text ps s = (inr r, s') /\ res_status r = PGRES_FATAL_ERROR
    /\ seqs_le (seqs (abs s)) q /\ (is_insert st = false -> q = seqs (abs s))
    /\ abs s' = set_seqs q (fail_view c (abs s)).
Proof.
  intros Hp Hq Rd HF.
  destruct (exec_params_ready c text ps st s d Hp Hq Rd) as (r & s' & now & n & q & E & St & [(d' & Hok & _)|(_ & Hf & q' & Hq' & Ea)]).
  - unfold query_ok in Hok. destruct (is_select st).
    + destruct Hok as (dp & Hperm & Hok & _). by rewrite (HF now n q dp St Hperm) in Hok.
    + by rewrite (HF now n q d St) in Hok.
  - exists r, s', q'. split_and!; [done|done| |intros Hi|done].
    + destruct Hq' as [->| ->]; [done|by eapply seqs_step_le].
    + destruct Hq' as [->| ->]; [done|by eapply seqs_step_select].
Qed.

Lemma set_seqs_same a : set_seqs (seqs a) a = a.
Proof. by destruct a. Qed.

(** The rows a SELECT lists, before LIMIT and OFFSET. *)
Definition arranged {R} `{Rel R} (order : option (string * bool)) (b : bound R) (rows l : list R) : Prop :=
  l ≡ₚ filter (fun r => holds b r) rows
  /\ match order with
     | None => True
     | Some (col, desc) => exists k, find_col col = Some k /\ Sorted (fun r r' => order_leb k desc r r') l
     end.

Lemma order_leb_total {R} (k : column R) desc r r' : order_leb k desc r r' \/ order_leb k desc r' r.
Proof.
  unfold order_leb, key_leb. destruct desc, (col_get k r), (col_get k r'); simpl; auto;
    rewrite !Is_true_true, !Z.leb_le; lia.
Qed.

Lemma exec_select {R} `{InDb R} c text ps cs p ord lim off s d ks b n m :
  parse_sql text = Some (Select rel_name cs p ord lim off) -> ready c (abs s) d ->
  bind_cols cs = Some ks -> (forall now nx, bind_pred (pg_env now nx) ps p = Some b) ->
  (forall now nx, count_param (pg_env now nx) ps lim = Some n) ->
  (forall now nx, count_param (pg_env now nx) ps off = Some m) ->
  match ord with None => True | Some (col, _) => is_Some (find_col (R:=R) col) end ->
  exists res s' l, exec_params c text ps s = (inr res, s') /\ abs s' = abs s
    /\ res_status res = PGRES_TUPLES_OK /\ arranged ord b (rows_of d) l
    /\ res_rows res = project (pg_env 0 0) ks <$> take_opt n (drop_opt m l).
Proof.
  intros Hp Rd Hks Hb Hn Hm Hord.
  assert (forall now nx dp, constraints_ok dp = true -> exists res l,
    run_stmt (pg_env now nx) (Select rel_name cs p ord lim off) ps dp = Some (res, dp)
    /\ res_status res = PGRES_TUPLES_OK /\ arranged ord b (rows_of dp) l
    /\ res_rows res = project (pg_env 0 0) ks <$> take_opt n (drop_opt m l)) as Hrun.
  { intros now nx dp Hc. rewrite (run_stmt_in (R:=R)) by done. unfold run_rel, run_select.
    rewrite Hks, (Hb now nx), (Hn now nx), (Hm now nx). cbn [mbind option_bind].
    destruct ord as [[col desc]|]; [destruct Hord as [k Hk]; rewrite Hk|]; cbn [mbind option_bind];
      rewrite with_same_rows, Hc; do 2 eexists; (split_and!; [done|done|split|done]).
    - apply merge_sort_Permutation.
    - exists k. split; [done|]. apply Sorted_merge_sort. intros ??. apply order_leb_total.
    - done.
    - done. }
  destruct (exec_params_ready c text ps _ s d Hp eq_refl Rd) as (r & s' & now & nx & q & E & St & Hcase).
  apply seqs_step_select in St as ->; [|done].
  destruct Hcase as [(d' & (dp & Hperm & Hok & ->) & Ea)|(Hnone & _)].
  - assert (constraints_ok dp = true) as Hc by (rewrite <- Hperm; apply Rd).
    destruct (Hrun now nx dp Hc) as (res & l & E' & Hst & [Hl Hsorted] & Hrows).
    rewrite Hok in E'. injection E' as <-. exists r, s', l. split_and!; [done| |done| |done].
    + rewrite Ea, set_view_same by apply Rd. apply set_seqs_same.
    + split; [|done]. rewrite Hl. by rewrite (with_rows_perm _ _ Hperm).
  - destruct (Hrun now nx d) as (res & l & E' & _); [apply Rd|]. by rewrite E' in Hnone.
Qed.

End exec.

(** The SELECT a method starts with, in the state [s] of the goal: [b], [n] and
    [m] are its condition, LIMIT and OFFSET once the parameters are known. *)
Ltac sql_select R Rd b n m res s' l E Ea Hst Harr Hrows :=
  match goal with
  | |- context [exec_params ?c ?text ?ps ?s] =>
      match type of Rd with
      | ready _ _ ?d =>
          let st := eval vm_compute in (parse_sql text) in
          match st with
          | Some (Select _ ?cs ?p ?ord ?lim ?off) =>
              let ks := eval vm_compute in (bind_cols (R:=R) cs) in
              match ks with
              | Some ?ks =>
                  destruct (exec_select (R:=R) c text ps cs p ord lim off s d ks b n m)
                    as (res & s' & l & E & Ea & Hst & Harr & Hrows);
                  [vm_compute; reflexivity|exact Rd|reflexivity|intros; try reflexivity
                  |intros; try reflexivity|intros; try reflexivity
                  |try exact Logic.I; try (eexists; reflexivity)| ]
              end
          end
      end
  end.

(** The same for a statement that fails. *)
Ltac sql_fails Rd r s' q E Hst Hle Hq Ea :=
  match goal with
  | |- context [exec_params ?c ?text ?ps ?s] =>
      match type of Rd with
      | ready _ _ ?d =>
          let st := eval vm_compute in (parse_sql text) in
          match st with
          | Some ?st =>
              destruct (exec_fails c text ps st s d) as (r & s' & q & E & Hst & Hle & Hq & Ea);
                [vm_compute; reflexivity|reflexivity|exact Rd| | ]
          end
      end
  end.


(** ** The catalog without SQL *)

(** The row a live table of that name has. *)
Definition live (name : string) (t : table_rec) : bool :=
  String.eqb (tb_table_name t) name && bool_decide (tb_is_deleted t = Some false).

Definition find_live (d : Db) (name : string) : option table_rec :=
  head (filter (fun t => live name t) (db_tables d)).

(** A partition is visible at snapshot [s] when it was added at or before [s]
    and not deleted at or before [s]. *)
Definition visible (tid s : Z) (p : partition_rec) : bool :=
  bool_decide (pa_table_id p = Some tid)
  && match pa_snapshot_id p with Some z => z <=? s | None => false end
  && (bool_decide (pa_is_deleted p = Some false)
      || match pa_deleted_snapshot_id p with Some z => s <? z | None => false end).

(** The partitions of a table at a snapshot, by increasing id. *)
Definition part_before (p q : partition_rec) : Prop := pa_partition_id p <= pa_partition_id q.
#[export] Instance part_before_dec p q : Decision (part_before p q).
Proof. unfold part_before. apply _. Defined.
#[export] Instance part_before_total : Total part_before.
Proof. intros p q. unfold part_before. lia. Qed.

Definition sort_parts : list partition_rec -> list partition_rec := merge_sort part_before.

Definition parts_at (d : Db) (tid s : Z) : list partition_rec :=
  sort_parts (filter (fun p => visible tid s p) (db_partitions d)).

(** What the client gets of a stored row. *)
Definition part_row (p : partition_rec) : PartitionRow :=
  mkPartitionRow (pa_partition_id p) (default 0 (pa_table_id p)) (default 0 (pa_snapshot_id p))
    (pa_partition_key p) (pa_data_file_path p) (pa_file_format p)
    (default 0 (pa_row_count p)) (default 0 (pa_size_bytes p)) (default "" (pa_column_stats p)).

Definition tab_row (t : table_rec) : TableRow :=
  mkTableRow (tb_table_id t) (tb_table_name t) (tb_schema_json t) (tb_schema_version t)
    (default "" (tb_partition_spec t)) (default 0 (tb_current_snapshot_id t)) (default "" (tb_properties t)).

Definition snap_row (ts_out : Z -> string) (r : snapshot_rec) : SnapshotRow :=
  mkSnapshotRow (sn_snapshot_id r) (default 0 (sn_table_id r)) (default 0 (sn_parent_snapshot_id r))
    (sn_operation r) (default 0 (sn_added_files_count r)) (default 0 (sn_deleted_files_count r))
    (default "" (ts_out <$> sn_committed_at r)).

(** The partitions of a live table at a snapshot that is a bigint. *)
Definition partitions_at (d : Db) (name : string) (s : Z) : option (list PartitionRow) :=
  t ← find_live d name;
  if in_i64 s then Some (part_row <$> parts_at d (tb_table_id t) s) else None.

Definition partitions_page (d : Db) (name : string) (s page_size last : Z) : option (list PartitionRow) :=
  t ← find_live d name;
  if in_i64 s then
    Some (take (Z.to_nat (if 0 <? page_size then page_size else 1000))
            (part_row <$> filter (fun p => last < pa_partition_id p) (parts_at d (tb_table_id t) s)))
  else None.

Definition current_snapshot (d : Db) (name : string) : Z :=
  match find_live d name with Some t => u64 (default 0 (tb_current_snapshot_id t)) | None => 0 end.

(** ** Facts about them *)

Lemma find_live_spec d name t :
  find_live d name = Some t -> t ∈ db_tables d /\ tb_table_name t = name /\ tb_is_deleted t = Some false.
Proof.
  unfold find_live. intros E. destruct (filter _ _) as [|t' l] eqn:Ef; [done|]. injection E as ->.
  assert (t ∈ filter (fun t => live name t) (db_tables d)) as Hin by (rewrite Ef; left).
  apply list_elem_of_filter in Hin as [Hl Hin]. apply Is_true_true in Hl. unfold live in Hl.
  apply andb_true_iff in Hl as [?%String.eqb_eq ?%bool_decide_eq_true]. done.
Qed.

Lemma live_true name t : live name t <-> tb_table_name t = name /\ tb_is_deleted t = Some false.
Proof. unfold live. by rewrite Is_true_true, andb_true_iff, String.eqb_eq, bool_decide_eq_true. Qed.

(** At most one live table has a name, and that row is the answer. *)
Lemma live_rows d name :
  integrity d -> filter (fun t => live name t) (db_tables d) = option_list (find_live d name).
Proof.
  intros I. destruct (find_live d name) as [t|] eqn:E.
  - apply find_live_spec in E as (Hin & Hn & Hd). subst name.
    change (option_list (Some t)) with [t].
    rewrite <- (filter_key_unique tb_table_name (db_tables d) t) by (try apply I; done).
    apply filter_ext_elem. intros t' Ht'. rewrite live_true. split; [naive_solver|]. intros En. split; [done|].
    by rewrite (NoDup_fmap_elem tb_table_name (db_tables d) t' t (in_table_names _ I) Ht' Hin En).
  - unfold find_live in E. by destruct (filter _ _).
Qed.

Lemma find_live_perm d d' name : integrity d -> db_perm d d' -> find_live d' name = find_live d name.
Proof.
  intros I Hp. assert (integrity d') as I' by (apply constraints_integrity; rewrite <- Hp; by apply constraints_integrity).
  assert (option_list (find_live d name) ≡ₚ option_list (find_live d' name)) as E.
  { rewrite <- !live_rows by done. by rewrite (proj1 Hp). }
  destruct (find_live d name), (find_live d' name); simpl in E; try done.
  - by apply Permutation_singleton_inj in E as ->.
  - by apply Permutation_nil_r in E.
  - by apply Permutation_nil_l in E.
Qed.

(** ** Reading results *)

Section read.
Context {P : PgService}.

Lemma for_rows_ok {A B} (read : nat -> PgM A) (f : B -> A) l k (s : pg) :
  (forall i b, l !! i = Some b -> read (k + i)%nat s = (inr (f b), s)) ->
  for_rows read (seq k (length l)) s = (inr (f <$> l), s).
Proof.
  revert k. induction l as [|b l IH]; intros k Hr; [done|]. cbn [length seq for_rows].
  unfold pbind at 1. rewrite <- (Nat.add_0_r k) at 1. rewrite (Hr 0%nat b eq_refl).
  unfold pbind. rewrite (IH (S k)); [done|]. intros i b' Hi.
  rewrite Nat.add_succ_comm. by apply (Hr (S i)).
Qed.

(** Reading every row of a result obtained by projecting records. *)
Lemma read_rows_ok {A R} `{Rel R} (read : PGresult -> nat -> PgM A) (f : R -> A) ks res l (s : pg) :
  res_rows res = project (pg_env 0 0) ks <$> l ->
  (forall i r, r ∈ l -> res_rows res !! i = Some (project (pg_env 0 0) ks r) -> read res i s = (inr (f r), s)) ->
  read_rows (read res) res s = (inr (f <$> l), s).
Proof.
  intros Hres Hr. unfold read_rows. rewrite Hres, length_fmap. apply for_rows_ok.
  intros i r Hi. simpl. apply Hr; [by eapply list_elem_of_lookup_2|].
  by rewrite Hres, list_lookup_fmap, Hi.
Qed.

Lemma field_project {R} `{Rel R} res i ks (r : R) e col :
  res_rows res !! i = Some (project e ks r) ->
  field res i col = k ← ks !! col; text_out e (col_get k r).
Proof.
  intros E. unfold field, project in *. rewrite E. cbn [mbind option_bind].
  rewrite list_lookup_fmap. by destruct (ks !! col).
Qed.

Lemma field_int64_text res i col z : field res i col = Some (to_string z) -> in_i64 z = true -> field_int64 res i col = inr z.
Proof.
  intros E Hz. unfold field_int64, PQgetisnull, PQgetvalue. rewrite E. simpl. unfold stoll.
  by rewrite sto_signed_to_string, Hz.
Qed.

Lemma field_int32_text res i col z : field res i col = Some (to_string z) -> in_i32 z = true -> field_int32 res i col = inr z.
Proof.
  intros E Hz. unfold field_int32, PQgetisnull, PQgetvalue. rewrite E. simpl. unfold stoi.
  by rewrite sto_signed_to_string, Hz.
Qed.

(** A nullable integer column, read as zero when null. *)
Lemma field_int64_opt res i col o :
  field res i col = text_out (pg_env 0 0) (of_opt SInt o) -> opt_in in_i64 o = true ->
  field_int64 res i col = inr (default 0 o).
Proof.
  destruct o as [z|]; simpl; intros E Hz; [by apply field_int64_text|].
  unfold field_int64, PQgetisnull. by rewrite E.
Qed.

Lemma field_int32_opt res i col o :
  field res i col = text_out (pg_env 0 0) (of_opt SInt o) -> opt_in in_i32 o = true ->
  field_int32 res i col = inr (default 0 o).
Proof.
  destruct o as [z|]; simpl; intros E Hz; [by apply field_int32_text|].
  unfold field_int32, PQgetisnull. by rewrite E.
Qed.

Lemma field_str_default res i col v : field res i col = v -> field_str res i col = default "" v.
Proof. intros E. unfold field_str, PQgetisnull, PQgetvalue. rewrite E. by destruct v. Qed.

End read.

(** ** The methods on a reliable service *)

Section methods.
Context {P : PgService} `{!PgLaws P, !PgRuns P}.
Implicit Types (c : PGconn) (a : PgAbs) (d : Db) (s : pg).

(** Parameters that print an integer. *)
Lemma coerce_int8 now nx z : in_i64 z = true -> coerce (pg_env now nx) TInt8 (c_str (to_string z)) = Some (SInt z).
Proof. intros Hz. simpl. rewrite to_string_nul_free, int_in_law. simpl. by rewrite Hz. Qed.
Lemma coerce_int8_out now nx z : in_i64 z = false -> coerce (pg_env now nx) TInt8 (c_str (to_string z)) = None.
Proof. intros Hz. simpl. rewrite to_string_nul_free, int_in_law. simpl. by rewrite Hz. Qed.
Lemma coerce_int4 now nx z : in_i32 z = true -> coerce (pg_env now nx) TInt4 (c_str (to_string z)) = Some (SInt z).
Proof. intros Hz. simpl. rewrite to_string_nul_free, int_in_law. simpl. by rewrite Hz. Qed.
Lemma coerce_int4_out now nx z : in_i32 z = false -> coerce (pg_env now nx) TInt4 (c_str (to_string z)) = None.
Proof. intros Hz. simpl. rewrite to_string_nul_free, int_in_law. simpl. by rewrite Hz. Qed.
Lemma coerce_jsonb now nx t j : pg_jsonb_in t = Some j -> coerce (pg_env now nx) TJsonb t = Some (SJson j).
Proof. intros Hj. simpl. by rewrite Hj. Qed.
Lemma coerce_jsonb_out now nx t : pg_jsonb_in t = None -> coerce (pg_env now nx) TJsonb t = None.
Proof. intros Hj. simpl. by rewrite Hj. Qed.

Lemma ready_integrity c a d : ready c a d -> integrity d.
Proof. intros Rd. apply constraints_integrity, Rd. Qed.

Lemma ready_abs c s s' d : abs s' = abs s -> ready c (abs s) d -> ready c (abs s') d.
Proof. by intros ->. Qed.

(** A statement on the live table of a name sees that row or nothing. *)
Definition live_bound (name : string) : bound table_rec :=
  BAnd (BCmp (Col "table_name" TText (fun r => SText (tb_table_name r))
         (fun v '(mkTable a _ c d e f g h i j) => b ← to_text v; Some (mkTable a b c d e f g h i j)))
         CEq (SText name))
       (BCmp (Col "is_deleted" TBool (fun r => of_opt SBool (tb_is_deleted r))
         (fun v '(mkTable a b c d e f g h i _) => j ← nullable to_bool v; Some (mkTable a b c d e f g h i j)))
         CEq (SBool false)).

Lemma holds_live name t : holds (live_bound name) t = live name t.
Proof.
  unfold holds, live. simpl. destruct (String.eqb (tb_table_name t) name); simpl; [|done].
  by destruct (tb_is_deleted t) as [[]|].
Qed.

Lemma arranged_live d name l :
  integrity d -> arranged None (live_bound name) (db_tables d) l -> l = option_list (find_live d name).
Proof.
  intros I [Hl _]. rewrite <- live_rows by done.
  rewrite (filter_ext_elem _ (fun t => live name t)) in Hl by (intros; by rewrite holds_live).
  rewrite live_rows in * by done. destruct (find_live d name); simpl in *.
  - by apply Permutation_singleton_r in Hl.
  - by apply Permutation_nil_r in Hl.
Qed.

Lemma get_table_id_spec c name s d :
  ready c (abs s) d ->
  exists s', get_table_id c name s =
      (inr match find_live d (c_str name) with Some t => tb_table_id t | None => -1 end, s')
    /\ abs s' = abs s.
Proof.
  intros Rd. pose proof (ready_integrity _ _ _ Rd) as I. unfold get_table_id, pbind.
  sql_select table_rec Rd (live_bound (c_str name)) (@None nat) (@None nat) res s' l E Ea Hst Harr Hrows.
  apply arranged_live in Harr as ->; [|done]. exists s'. split; [|done].
  rewrite E. unfold tuples_ok, PQntuples. rewrite Hst, Hrows.
  destruct (find_live d (c_str name)) as [t|] eqn:Et; [|done]. cbn.
  unfold int64_at, pthrow. rewrite (field_int64_text _ _ _ (tb_table_id t)); [done| |].
  - unfold field. by rewrite Hrows.
  - apply find_live_spec in Et as (Hin & _). by apply (in_table_range _ I).
Qed.
(** The columns [get_table] and [list_tables] ask for. *)
Definition table_columns : list (column table_rec) :=
  default [] (bind_cols ["table_id"; "table_name"; "schema_json"; "schema_version"; "partition_spec";
    "current_snapshot_id"; "properties"]).

(** Every column of a stored table reads back. *)
Lemma table_row_reads d res i t s :
  integrity d -> t ∈ db_tables d ->
  res_rows res !! i = Some (project (pg_env 0 0) table_columns t) ->
  table_row res i s = (inr (tab_row t), s).
Proof.
  intros I Hin Hi. destruct (in_table_range _ I t Hin) as (R1 & R2 & R3).
  unfold table_row, pbind, int64_at, int32_at, pthrow.
  rewrite (field_int64_text _ _ _ (tb_table_id t)); [|unfold field; by rewrite Hi|done].
  rewrite (field_int32_text _ _ _ (tb_schema_version t)); [|unfold field; by rewrite Hi|done].
  rewrite (field_int64_opt _ _ _ (tb_current_snapshot_id t)); [|unfold field; rewrite Hi; reflexivity|done].
  erewrite !field_str_default; [|unfold field; rewrite Hi; reflexivity..].
  by destruct t as [? ? ? ? [?|] ? [?|] ? ? ?].
Qed.

Lemma get_table_spec c name s d :
  ready c (abs s) d ->
  exists s', get_table c name s = (inr (tab_row <$> find_live d (c_str name)), s') /\ abs s' = abs s.
Proof.
  intros Rd. pose proof (ready_integrity _ _ _ Rd) as I. unfold get_table, pbind.
  sql_select table_rec Rd (live_bound (c_str name)) (@None nat) (@None nat) res s' l E Ea Hst Harr Hrows.
  apply arranged_live in Harr as ->; [|done]. exists s'. split; [|done].
  rewrite E. unfold tuples_ok, PQntuples. rewrite Hst, Hrows.
  destruct (find_live d (c_str name)) as [t|] eqn:Et; [|done]. cbn [option_list drop_opt take_opt] in Hrows.
  apply find_live_spec in Et as (Hin & _). rewrite bool_decide_true by done. cbn [negb orb].
  rewrite length_fmap. change (Z.of_nat (length (take_opt None (drop_opt None (option_list (Some t))))) =? 0) with false. cbn iota beta.
  rewrite (table_row_reads d res 0%nat t s'); [done..|by rewrite Hrows].
Qed.

Lemma get_current_snapshot_spec c name s d :
  ready c (abs s) d ->
  exists s', get_current_snapshot c name s = (inr (current_snapshot d (c_str name)), s') /\ abs s' = abs s.
Proof.
  intros Rd. pose proof (ready_integrity _ _ _ Rd) as I. unfold get_current_snapshot, pbind.
  sql_select table_rec Rd (live_bound (c_str name)) (@None nat) (@None nat) res s' l E Ea Hst Harr Hrows.
  apply arranged_live in Harr as ->; [|done]. exists s'. split; [|done].
  rewrite E. unfold tuples_ok, PQntuples, current_snapshot. rewrite Hst, Hrows.
  destruct (find_live d (c_str name)) as [t|] eqn:Et; [|done]. cbn [option_list drop_opt take_opt] in Hrows.
  apply find_live_spec in Et as (Hin & _). destruct (in_table_range _ I t Hin) as (_ & _ & R3).
  cbn. unfold int64_at, pthrow.
  by rewrite (field_int64_opt _ _ _ (tb_current_snapshot_id t)); [|unfold field; rewrite Hrows; reflexivity|].
Qed.

(** *** Partitions *)

Lemma find_live_id d name t q :
  db_ok q d -> find_live d name = Some t -> 1 <= tb_table_id t /\ in_i64 (tb_table_id t) = true.
Proof.
  intros [Hc (B & _)] (Hin & _)%find_live_spec. apply constraints_integrity in Hc.
  split; [by apply B|by apply (in_table_range _ Hc)].
Qed.

(** Every column of a stored partition reads back. *)
Lemma part_row_reads d res i p ks s :
  integrity d -> p ∈ db_partitions d ->
  bind_cols ["partition_id"; "table_id"; "snapshot_id"; "partition_key"; "data_file_path"; "file_format";
    "row_count"; "size_bytes"; "column_stats"] = Some ks ->
  res_rows res !! i = Some (project (pg_env 0 0) ks p) ->
  partition_row res i s = (inr (part_row p), s).
Proof.
  intros I Hp Hks Hi. injection Hks as <-.
  destruct (in_partition_range _ I p Hp) as (R1 & R2 & R3).
  destruct (in_partition_fk _ I p Hp) as (F1 & F2).
  assert (opt_in in_i64 (pa_table_id p) = true) as R4.
  { destruct (pa_table_id p) as [z|]; [|done]. simpl in *. apply bool_decide_eq_true, list_elem_of_fmap in F1.
    destruct F1 as (t & -> & Ht). by apply (in_table_range _ I). }
  assert (opt_in in_i64 (pa_snapshot_id p) = true) as R5.
  { destruct (pa_snapshot_id p) as [z|]; [|done]. simpl in *. apply bool_decide_eq_true, list_elem_of_fmap in F2.
    destruct F2 as (t & -> & Ht). by apply (in_snapshot_range _ I). }
  unfold partition_row, pbind, int64_at, pthrow.
  rewrite (field_int64_text _ _ _ (pa_partition_id p)); [|unfold field; by rewrite Hi|done].
  rewrite (field_int64_opt _ _ _ (pa_table_id p)); [|unfold field; rewrite Hi; reflexivity|done].
  rewrite (field_int64_opt _ _ _ (pa_snapshot_id p)); [|unfold field; rewrite Hi; reflexivity|done].
  rewrite (field_int64_opt _ _ _ (pa_row_count p)); [|unfold field; rewrite Hi; reflexivity|done].
  rewrite (field_int64_opt _ _ _ (pa_size_bytes p)); [|unfold field; rewrite Hi; reflexivity|done].
  erewrite !field_str_default; [|unfold field; rewrite Hi; reflexivity..].
  by destruct p as [? ? ? ? ? ? ? ? [?|] ? ?].
Qed.

(** A column by its name. *)
Definition pcol (name : string) : column partition_rec :=
  default (Col "" TText (fun _ => SNull) (fun _ _ => None)) (find_col name).

Definition visible_bound (tid snap : Z) : bound partition_rec :=
  BAnd (BCmp (pcol "table_id") CEq (SInt tid))
    (BAnd (BCmp (pcol "snapshot_id") CLe (SInt snap))
       (BOr (BCmp (pcol "is_deleted") CEq (SBool false)) (BCmp (pcol "deleted_snapshot_id") CGt (SInt snap)))).

Lemma holds_visible tid snap p : holds (visible_bound tid snap) p = visible tid snap p.
Proof.
  unfold holds, visible. destruct p as [a [b|] [c0|] d e f g h i [[]|] [k|]]; cbn;
    repeat (case_bool_decide || case_match); simplify_eq; try done;
    repeat match goal with
           | H : (_ =? _) = true |- _ => apply Z.eqb_eq in H
           | H : (_ =? _) = false |- _ => apply Z.eqb_neq in H
           end; simplify_eq; try done; by destruct (_ <=? _), (_ <? _).
Qed.

(** Rows listed by their key come in one order only. *)
Lemma arranged_by_key {R} `{Rel R} (key : R -> Z) (le : relation R) `{!RelDecision le} col (b : bound R) rows l :
  (forall x y, le x y <-> key x <= key y) ->
  (exists k, find_col col = Some k /\ forall r, col_get k r = SInt (key r)) ->
  NoDup (key <$> rows) -> arranged (Some (col, false)) b rows l ->
  l = merge_sort le (filter (fun r => holds b r) rows).
Proof.
  intros Hle (k & Hk & Hget) Hn [Hl (k' & Hk' & Hs)]. rewrite Hk in Hk'. injection Hk' as <-.
  apply (sorted_key_unique key).
  - rewrite Hl. symmetry. apply merge_sort_Permutation.
  - rewrite Hl. by apply NoDup_fmap_filter.
  - eapply Prelude.Sorted_impl; [|exact Hs]. intros x y. unfold order_leb. rewrite !Hget. cbn. by rewrite Is_true_true, Z.leb_le.
  - eapply Prelude.Sorted_impl; [intros x y; apply Hle|]. apply Sorted_merge_sort. intros x y. rewrite !Hle. lia.
Qed.

Lemma arranged_by_id (b : bound partition_rec) d l :
  integrity d -> arranged (Some ("partition_id", false)) b (db_partitions d) l ->
  l = sort_parts (filter (fun p => holds b p) (db_partitions d)).
Proof.
  intros I. apply (arranged_by_key pa_partition_id part_before); [done| |apply (in_partition_ids _ I)].
  by eexists.
Qed.

Lemma filter_parts_at d tid snap last :
  integrity d ->
  filter (fun p => last < pa_partition_id p) (parts_at d tid snap)
  = sort_parts (filter (fun p => last < pa_partition_id p) (filter (fun p => visible tid snap p) (db_partitions d))).
Proof.
  intros I. unfold parts_at, sort_parts. apply (sorted_key_unique pa_partition_id).
  - by rewrite !merge_sort_Permutation.
  - apply NoDup_fmap_filter. rewrite merge_sort_Permutation. apply NoDup_fmap_filter, (in_partition_ids _ I).
  - apply StronglySorted_Sorted, StronglySorted_filter, StronglySorted_merge_sort.
    + intros x y z. unfold part_before. lia.
    + apply _.
  - apply Sorted_merge_sort. apply _.
Qed.

Lemma parts_at_elem d tid snap p : p ∈ parts_at d tid snap <-> p ∈ db_partitions d /\ visible tid snap p = true.
Proof.
  unfold parts_at, sort_parts. rewrite merge_sort_Permutation, list_elem_of_filter, Is_true_true. tauto.
Qed.

Lemma parts_at_perm d d' tid snap : integrity d -> db_perm d d' -> parts_at d' tid snap = parts_at d tid snap.
Proof.
  intros I (_ & _ & _ & Hp & _). unfold parts_at, sort_parts.
  apply (sorted_key_unique pa_partition_id); try (apply Sorted_merge_sort; apply _).
  - by rewrite !merge_sort_Permutation, Hp.
  - rewrite merge_sort_Permutation, <- Hp. apply NoDup_fmap_filter, (in_partition_ids _ I).
Qed.

(** Most methods first look up the table: they stop with [none] without one. *)
Lemma with_table_id {A} c name s d (none : A) (k : Z -> PgM A) :
  ready c (abs s) d ->
  exists s1, abs s1 = abs s
    /\ pbind (get_table_id c name) (fun tid => if tid <? 0 then pret none else k tid) s
       = match find_live d (c_str name) with Some t => k (tb_table_id t) s1 | None => (inr none, s1) end.
Proof.
  intros Rd. destruct (get_table_id_spec c name s d Rd) as (s1 & E & Ea). exists s1. split; [done|].
  unfold pbind. rewrite E. destruct (find_live d (c_str name)) as [t|] eqn:Et; [|done].
  destruct (find_live_id d _ t _ (rd_ok _ _ _ Rd) Et) as [Hpos _].
  by replace (tb_table_id t <? 0) with false by lia.
Qed.

End methods.

Ltac table_id_step Rd s1 Ea1 :=
  match goal with
  | |- context [pbind (get_table_id ?c ?name) ?f ?s] =>
      match f with
      | (fun tid => if tid <? 0 then pret ?none else @?k tid) =>
          destruct (with_table_id c name s _ none k Rd) as (s1 & Ea1 & ->)
      end
  end.

Section methods.
Context {P : PgService} `{!PgLaws P, !PgRuns P}.
Implicit Types (c : PGconn) (a : PgAbs) (d : Db) (s : pg).

Lemma select_fails {R} `{InDb R} e rel cs p ord lim off ps d :
  rel = rel_name ->
  (bind_pred (R:=R) e ps p = None \/ count_param e ps lim = None \/ count_param e ps off = None) ->
  run_stmt e (Select rel cs p ord lim off) ps d = None.
Proof.
  intros -> Hb. rewrite (run_stmt_in (R:=R)) by done. unfold run_rel, run_select.
  destruct (bind_cols cs), (bind_pred e ps p), (count_param e ps lim), (count_param e ps off), Hb as [|[|]]; done.
Qed.

Lemma fail_view_idle c a : sessions a !! c = Some Idle -> fail_view c a = a.
Proof. intros E. unfold fail_view. by rewrite E. Qed.

Lemma query_partitions_spec c name snap s d :
  ready c (abs s) d -> sessions (abs s) !! c = Some Idle ->
  exists s', query_partitions c name snap s = (inr (partitions_at d (c_str name) snap), s') /\ abs s' = abs s.
Proof.
  intros Rd Hidle. pose proof (ready_integrity _ _ _ Rd) as I. unfold query_partitions, partitions_at.
  table_id_step Rd s1 Ea1.
  destruct (find_live d (c_str name)) as [t|] eqn:Et; [|by exists s1].
  destruct (find_live_id d _ t _ (rd_ok _ _ _ Rd) Et) as [_ Hid].
  pose proof (ready_abs _ _ _ _ Ea1 Rd) as Rd1. cbn [mbind option_bind]. unfold pbind.
  destruct (in_i64 snap) eqn:Hsnap.
  - sql_select partition_rec Rd1 (visible_bound (tb_table_id t) snap) (@None nat) (@None nat) res s' l E Ea Hst Harr Hrows.
    { cbn - [coerce c_str to_string]. by rewrite !coerce_int8 by done. }
    rewrite E. unfold tuples_ok. rewrite Hst. cbn [negb bool_decide decide_rel].
    apply arranged_by_id in Harr as ->; [|done].
    rewrite (filter_ext_elem _ (fun p => visible (tb_table_id t) snap p)) in Hrows
      by (intros; by rewrite holds_visible).
    change (sort_parts _) with (parts_at d (tb_table_id t) snap) in Hrows. exists s'. split; [|congruence].
    rewrite bool_decide_true by done. cbn [negb].
    rewrite (read_rows_ok _ part_row _ _ (parts_at d (tb_table_id t) snap) s' Hrows); [done|].
    intros i p [Hp _]%parts_at_elem Hi. by eapply (part_row_reads d).
  - sql_fails Rd1 r s' q E Hst Hle Hq Ea.
    { intros now n q dp _ _. apply (select_fails (R:=partition_rec)); [done|left].
      cbn - [coerce c_str to_string]. by rewrite (coerce_int8 now n _ Hid), (coerce_int8_out now n _ Hsnap). }
    rewrite E. unfold tuples_ok. rewrite Hst. exists s'. split; [done|].
    rewrite Ea, (Hq eq_refl), Ea1, fail_view_idle by done. apply set_seqs_same.
Qed.

Definition page_bound (tid snap last : Z) : bound partition_rec :=
  BAnd (BCmp (pcol "table_id") CEq (SInt tid))
    (BAnd (BCmp (pcol "snapshot_id") CLe (SInt snap))
       (BAnd (BOr (BCmp (pcol "is_deleted") CEq (SBool false)) (BCmp (pcol "deleted_snapshot_id") CGt (SInt snap)))
          (BCmp (pcol "partition_id") CGt (SInt last)))).

Lemma holds_page tid snap last p :
  holds (page_bound tid snap last) p = visible tid snap p && (last <? pa_partition_id p).
Proof.
  rewrite <- holds_visible. unfold holds. cbn [page_bound visible_bound eval3].
  replace (compare_vals CGt (col_get (pcol "partition_id") p) (SInt last)) with (Some (last <? pa_partition_id p)) by done.
  destruct (compare_vals CEq (col_get (pcol "table_id") p) _) as [[]|],
    (compare_vals CLe (col_get (pcol "snapshot_id") p) _) as [[]|], (or3 _ _) as [[]|];
    by destruct (last <? pa_partition_id p).
Qed.

Definition page_limit (page_size dflt : Z) : nat := Z.to_nat (if 0 <? page_size then page_size else dflt).

Lemma limit_param now nx z dflt ps n :
  param ps n = Some (c_str (to_string (if 0 <? z then z else dflt))) -> in_i64 z = true ->
  in_i64 dflt = true -> 0 <= dflt -> count_param (pg_env now nx) ps (Some n) = Some (Some (page_limit z dflt)).
Proof.
  intros E Hz Hd Hd0. unfold count_param. rewrite E. cbn [mbind option_bind].
  rewrite to_string_nul_free. cbn [se_int_in pg_env]. rewrite int_in_law. cbn [mbind option_bind].
  unfold page_limit. destruct (Z.ltb_spec 0 z); rewrite ?Hz, ?Hd; cbn [andb];
    (case_match; [done|lia]).
Qed.

Lemma query_partitions_paged_spec c name snap page_size last s d :
  ready c (abs s) d -> sessions (abs s) !! c = Some Idle -> in_i64 page_size = true -> in_i64 last = true ->
  exists s', query_partitions_paged c name snap page_size last s
      = (inr (partitions_page d (c_str name) snap page_size last), s') /\ abs s' = abs s.
Proof.
  intros Rd Hidle Hps Hlast. pose proof (ready_integrity _ _ _ Rd) as I.
  unfold query_partitions_paged, partitions_page. table_id_step Rd s1 Ea1.
  destruct (find_live d (c_str name)) as [t|] eqn:Et; [|by exists s1].
  destruct (find_live_id d _ t _ (rd_ok _ _ _ Rd) Et) as [_ Hid].
  pose proof (ready_abs _ _ _ _ Ea1 Rd) as Rd1. cbn [mbind option_bind]. unfold pbind.
  destruct (in_i64 snap) eqn:Hsnap.
  - sql_select partition_rec Rd1 (page_bound (tb_table_id t) snap last) (Some (page_limit page_size 1000)) (@None nat)
      res s' l E Ea Hst Harr Hrows.
    { cbn - [coerce c_str to_string]. by rewrite !coerce_int8 by done. }
    { by apply limit_param. }
    rewrite E. unfold tuples_ok. rewrite Hst, bool_decide_true by done. cbn [negb].
    apply arranged_by_id in Harr as ->; [|done].
    rewrite (filter_ext_elem _ (fun p => last < pa_partition_id p /\ visible (tb_table_id t) snap p)) in Hrows
      by (intros; rewrite holds_page, !Is_true_true, andb_true_iff, Z.ltb_lt; tauto).
    rewrite <- list_filter_filter, <- filter_parts_at in Hrows by done.
    exists s'. split; [|congruence]. change (drop_opt None ?l) with l in Hrows.
    rewrite (read_rows_ok _ part_row _ _ _ s' Hrows).
    + cbn [take_opt pret]. unfold page_limit. by rewrite fmap_take.
    + intros i p Hp Hi. eapply (part_row_reads d); [done| |done|exact Hi].
      apply elem_of_take in Hp as (j & Hj & _). apply list_elem_of_lookup_2, list_elem_of_filter in Hj as [_ Hj].
      by apply parts_at_elem in Hj as [??].
  - sql_fails Rd1 r s' q E Hst Hle Hq Ea.
    { intros now n q dp _ _. apply (select_fails (R:=partition_rec)); [done|left].
      cbn - [coerce c_str to_string]. by rewrite (coerce_int8 now n _ Hid), (coerce_int8_out now n _ Hsnap). }
    rewrite E. unfold tuples_ok. rewrite Hst. exists s'. split; [done|].
    rewrite Ea, (Hq eq_refl), Ea1, fail_view_idle by done. apply set_seqs_same.
Qed.
End methods.
