(* ===== verification/PgWrites.v ===== *)
(** * What the query layer writes

    The changes of the database that the writing methods of PgClient.v make,
    as functions, and the theorems that the methods make them. A change that
    the constraints of the schema forbid fails and shows no effect. *)
From S2P Require Import Prelude Cxx Sql Database PgService DbFacts PgClient PgSpec.

(** ** Changes of the database *)

Definition check (d : Db) : option Db := if constraints_ok d then Some d else None.

Definition add_table (r : table_rec) (d : Db) : Db := with_rows (db_tables d ++ [r]) d.
Definition add_history (r : history_rec) (d : Db) : Db := with_rows (db_history d ++ [r]) d.
Definition add_snapshot (r : snapshot_rec) (d : Db) : Db := with_rows (db_snapshots d ++ [r]) d.
Definition add_partition (r : partition_rec) (d : Db) : Db := with_rows (db_partitions d ++ [r]) d.
Definition add_transaction (r : transaction_rec) (d : Db) : Db := with_rows (db_transactions d ++ [r]) d.

(** Rewriting the rows that satisfy a test. *)
Definition map_where {R} (b : R -> bool) (f : R -> R) (rows : list R) : list R :=
  (fun r => if b r then f r else r) <$> rows.
Definition count_where {R} (b : R -> bool) (rows : list R) : Z := Z.of_nat (length (filter (fun r => b r) rows)).

Definition set_current (snap now : Z) (t : table_rec) : table_rec :=
  mkTable (tb_table_id t) (tb_table_name t) (tb_schema_json t) (tb_schema_version t) (tb_partition_spec t)
    (Some snap) (tb_properties t) (tb_created_at t) (Some now) (tb_is_deleted t).
Definition set_schema (j : string) (v now : Z) (t : table_rec) : table_rec :=
  mkTable (tb_table_id t) (tb_table_name t) j v (tb_partition_spec t)
    (tb_current_snapshot_id t) (tb_properties t) (tb_created_at t) (Some now) (tb_is_deleted t).
Definition set_name (name : string) (now : Z) (t : table_rec) : table_rec :=
  mkTable (tb_table_id t) name (tb_schema_json t) (tb_schema_version t) (tb_partition_spec t)
    (tb_current_snapshot_id t) (tb_properties t) (tb_created_at t) (Some now) (tb_is_deleted t).
Definition set_dropped (now : Z) (t : table_rec) : table_rec :=
  mkTable (tb_table_id t) (tb_table_name t) (tb_schema_json t) (tb_schema_version t) (tb_partition_spec t)
    (tb_current_snapshot_id t) (tb_properties t) (tb_created_at t) (Some now) (Some true).
Definition set_deleted (snap : Z) (p : partition_rec) : partition_rec :=
  mkPart (pa_partition_id p) (pa_table_id p) (pa_snapshot_id p) (pa_partition_key p) (pa_data_file_path p)
    (pa_file_format p) (pa_row_count p) (pa_size_bytes p) (pa_column_stats p) (Some true) (Some snap).

(** A partition of a table with a key, not deleted. *)
Definition live_part (tid : Z) (key : string) (p : partition_rec) : bool :=
  bool_decide (pa_table_id p = Some tid) && String.eqb (pa_partition_key p) key
  && bool_decide (pa_is_deleted p = Some false).

Definition update_tables (name : string) (f : table_rec -> table_rec) (d : Db) : Db :=
  with_rows (map_where (live name) f (db_tables d)) d.
Definition mark_deleted (tid : Z) (key : string) (snap : Z) (d : Db) : Db :=
  with_rows (map_where (live_part tid key) (set_deleted snap) (db_partitions d)) d.

Section writes.
Context {P : PgService}.

Definition snapshot_insert (now n tid parent : Z) (op : string) (added deleted : Z) (d : Db) : option Db :=
  if in_i64 parent && in_i32 added && in_i32 deleted then
    check (add_snapshot (mkSnap n (Some tid) (Some parent) (Some now) op (Some added) (Some deleted) (Some "{}")) d)
  else None.

(** The text the method sends for the statistics of a partition. *)
Definition stats_text (part : PartitionRow) : string :=
  if String.eqb (pr_column_stats_json part) "" then "{}" else c_str (pr_column_stats_json part).

(** The row stored for a partition. *)
Definition new_part (n tid snap : Z) (part : PartitionRow) : option partition_rec :=
  j ← pg_jsonb_in (stats_text part);
  if in_i64 snap && in_i64 (pr_row_count part) && in_i64 (pr_size_bytes part) then
    Some (mkPart n (Some tid) (Some snap) (c_str (pr_partition_key part)) (c_str (pr_data_file_path part))
            (c_str (pr_file_format part)) (Some (pr_row_count part)) (Some (pr_size_bytes part)) (Some j)
            (Some false) None)
  else None.

Definition partition_insert (n tid snap : Z) (part : PartitionRow) (d : Db) : option Db :=
  r ← new_part n tid snap part; check (add_partition r d).

Definition partition_delete (tid : Z) (key : string) (snap : Z) (d : Db) : option Db :=
  if in_i64 snap then check (mark_deleted tid key snap d) else None.

Definition pointer_update (now : Z) (name : string) (snap : Z) (d : Db) : option Db :=
  if in_i64 snap then check (update_tables name (set_current snap now) d) else None.

Context `{!PgLaws P, !PgRuns P}.

(** ** A statement that writes *)

(** It has the effect of its meaning [F], or fails when that has none. *)
Lemma exec_update c text ps st s d (F : Z -> Z -> option (PGresult * Db)) :
  parse_sql text = Some st -> is_query st = true -> is_select st = false -> ready c (abs s) d ->
  (forall now n, run_stmt (pg_env now n) st ps d = F now n) ->
  exists r s' now n q, exec_params c text ps s = (inr r, s')
    /\ seqs_step st n (seqs (abs s)) q
    /\ match F now n with
       | Some (r', d') => r = r' /\ abs s' = set_seqs q (set_view c d' (abs s)) /\ ready c (abs s') d'
       | None => res_status r = PGRES_FATAL_ERROR
           /\ exists q', (q' = seqs (abs s) \/ q' = q) /\ abs s' = set_seqs q' (fail_view c (abs s))
       end.
Proof.
  intros Hp Hq Hs Rd HF.
  destruct (exec_params_ready c text ps st s d Hp Hq Rd) as (r & s' & now & n & q & E & St & [(d' & Hok & Ea)|(Hn & Hf & q' & Hq' & Ea)]);
    exists r, s', now, n, q; (split; [done|]); (split; [done|]); rewrite <- HF.
  - unfold query_ok in Hok. rewrite Hs in Hok. rewrite Hok. split; [done|]. split; [done|].
    rewrite Ea. apply (ready_write _ _ d); [done| |by eapply seqs_step_le].
    apply (run_stmt_db_ok (pg_env now n) st ps d r d' (seqs (abs s)) q); [apply Rd|apply Rd|done|done].
  - rewrite Hn. split; [done|]. by exists q'.
Qed.

(** The connection [c] applied the change, or it failed. *)
Definition wrote (c : PGconn) (s s' : pg) (od : option Db) : Prop :=
  match od with
  | Some d' => ready c (abs s') d' /\ exists q, seqs_le (seqs (abs s)) q /\ abs s' = set_seqs q (set_view c d' (abs s))
  | None => exists q, seqs_le (seqs (abs s)) q /\ abs s' = set_seqs q (fail_view c (abs s))
  end.

Lemma wrote_abs c s s1 s' od : abs s1 = abs s -> wrote c s1 s' od -> wrote c s s' od.
Proof. intros E. unfold wrote. by rewrite E. Qed.

Lemma update_rows_map {R} (b : bound R) ss (f : R -> R) rows :
  (forall r, apply_sets ss r = Some (f r)) ->
  update_rows b ss rows = Some (map_where (fun r => holds b r) f rows, count_where (fun r => holds b r) rows).
Proof.
  intros Hf. unfold count_where. induction rows as [|r rows IH]; [done|]. cbn [update_rows].
  rewrite IH. cbn [mbind option_bind]. rewrite filter_bool_cons. unfold map_where. rewrite fmap_cons.
  destruct (holds b r); [|done]. rewrite Hf. cbn [mbind option_bind length].
  by rewrite Nat2Z.inj_succ, <- Z.add_1_r.
Qed.

Lemma map_where_ext {R} (b b' : R -> bool) f (rows : list R) :
  (forall r, b r = b' r) -> map_where b f rows = map_where b' f rows.
Proof. intros E. apply list_fmap_ext. intros i r _. by rewrite E. Qed.
Lemma count_where_ext {R} (b b' : R -> bool) (rows : list R) :
  (forall r, b r = b' r) -> count_where b rows = count_where b' rows.
Proof. intros E. unfold count_where. do 2 f_equal. apply filter_ext_elem. intros r _. by rewrite E. Qed.

(** What an UPDATE does, from its condition and its assignments. *)
Lemma run_update {R} `{InDb R} e rel ss p ps d b ss' (test : R -> bool) f n d' :
  rel = rel_name -> n = count_where test (rows_of d) -> d' = with_rows (map_where test f (rows_of d)) d -> bind_pred e ps p = Some b -> bind_sets e ps ss = Some ss' ->
  (forall r, holds b r = test r) -> (forall r, apply_sets ss' r = Some (f r)) ->
  run_stmt e (Update rel ss p) ps d =
    (command_ok (to_string n),.) <$> check d'.
Proof.
  intros -> -> -> Hb Hss Hh Hf. rewrite (run_stmt_in (R:=R)) by done. unfold run_rel. rewrite Hb, Hss.
  cbn [mbind option_bind]. rewrite (update_rows_map _ _ f) by done. cbn [mbind option_bind].
  rewrite (map_where_ext _ test), (count_where_ext _ test) by done. unfold check. by case_match.
Qed.

(** And an INSERT without a conflict clause. *)
Lemma run_insert_plain {R} `{InDb R} e rel cs vs rt ps d ss' r out d' :
  rel = rel_name -> d' = with_rows (rows_of d ++ [r]) d -> length cs = length vs -> required (R:=R) ⊆ cs -> bind_sets e ps (zip cs vs) = Some ss' ->
  apply_sets ss' (blank (se_next e) (se_now e)) = Some r ->
  match rt with None => out = None | Some c => exists k, find_col c = Some k /\ out = Some (text_out e (col_get k r)) end ->
  run_stmt e (Insert rel cs vs None rt) ps d =
    (match out with None => command_ok "1" | Some v => mkRes PGRES_TUPLES_OK [[v]] "1" end,.)
      <$> check d'.
Proof.
  intros -> -> Hl Hr Hss Ha Ho. rewrite (run_stmt_in (R:=R)) by done. unfold run_rel, run_insert.
  rewrite decide_True by done. rewrite Hss. cbn [mbind option_bind]. rewrite Ha. cbn [mbind option_bind].
  destruct rt as [c|]; [destruct Ho as (k & Hk & ->); rewrite Hk|subst out]; cbn [mbind option_bind];
    unfold check; by case_match.
Qed.

Lemma run_insert_unbound {R} `{InDb R} e rel cs vs cf rt ps d :
  rel = rel_name -> bind_sets (R:=R) e ps (zip cs vs) = None -> run_stmt e (Insert rel cs vs cf rt) ps d = None.
Proof.
  intros -> Hss. rewrite (run_stmt_in (R:=R)) by done. unfold run_rel, run_insert. rewrite Hss. by case_decide.
Qed.
Lemma run_update_unbound {R} `{InDb R} e rel ss p ps d :
  rel = rel_name -> bind_sets (R:=R) e ps ss = None -> run_stmt e (Update rel ss p) ps d = None.
Proof.
  intros -> Hss. rewrite (run_stmt_in (R:=R)) by done. unfold run_rel. rewrite Hss. by destruct (bind_pred _ _ _).
Qed.

End writes.

Ltac solve_required := cbn [required table_rel history_rel snapshot_rel partition_rel transaction_rel]; set_solver.

(** Evaluating the integer parameters of a statement. *)
Ltac coerce_ints :=
  cbn - [coerce c_str to_string];
  repeat match goal with
         | H : in_i64 ?z = true |- context [coerce ?e TInt8 (c_str (to_string ?z))] =>
             rewrite (coerce_int8 _ _ z H)
         | H : in_i64 ?z = false |- context [coerce ?e TInt8 (c_str (to_string ?z))] =>
             rewrite (coerce_int8_out _ _ z H)
         | H : in_i32 ?z = true |- context [coerce ?e TInt4 (c_str (to_string ?z))] =>
             rewrite (coerce_int4 _ _ z H)
         | H : in_i32 ?z = false |- context [coerce ?e TInt4 (c_str (to_string ?z))] =>
             rewrite (coerce_int4_out _ _ z H)
         | H : pg_jsonb_in ?t = Some ?j |- context [coerce ?e TJsonb ?t] => rewrite (coerce_jsonb _ _ t j H)
         | H : pg_jsonb_in ?t = None |- context [coerce ?e TJsonb ?t] => rewrite (coerce_jsonb_out _ _ t H)
         end.

(** Running one writing statement: [F] is its meaning. *)
Ltac sql_write Rd F r s' now n q E St HF :=
  match goal with
  | |- context [exec_params ?c ?text ?ps ?s] =>
      match type of Rd with
      | ready _ _ ?d =>
          let st := eval vm_compute in (parse_sql text) in
          match st with
          | Some ?st =>
              destruct (exec_update c text ps st s d F) as (r & s' & now & n & q & E & St & HF);
                [vm_compute; reflexivity|reflexivity|reflexivity|exact Rd| | ]
          end
      end
  end.

Section writes.
Context {P : PgService} `{!PgLaws P, !PgRuns P}.

Definition tcol (name : string) : column table_rec :=
  default (Col "" TText (fun _ => SNull) (fun _ _ => None)) (find_col name).

Definition live_part_bound (tid : Z) (key : string) : bound partition_rec :=
  BAnd (BCmp (pcol "table_id") CEq (SInt tid))
    (BAnd (BCmp (pcol "partition_key") CEq (SText key)) (BCmp (pcol "is_deleted") CEq (SBool false))).

Lemma holds_live_part tid key p : holds (live_part_bound tid key) p = live_part tid key p.
Proof.
  unfold holds, live_part. destruct p as [a [b|] c0 d e f g h i [[]|] k]; cbn;
    repeat case_bool_decide; simplify_eq; try done; rewrite ?Z.eqb_refl; destruct (String.eqb d key); try done;
    by destruct (Z.eqb_spec b tid); subst.
Qed.

Lemma wrote_intro c st n s s' q r n' od :
  seqs_step st n (seqs (abs s)) q ->
  match ((command_ok n',.) <$> od : option (PGresult * Db)) with
  | Some (r', d') => r = r' /\ abs s' = set_seqs q (set_view c d' (abs s)) /\ ready c (abs s') d'
  | None => res_status r = PGRES_FATAL_ERROR
      /\ exists q', (q' = seqs (abs s) \/ q' = q) /\ abs s' = set_seqs q' (fail_view c (abs s))
  end ->
  command_was_ok r = bool_decide (is_Some od) /\ wrote c s s' od.
Proof.
  intros St HF. unfold command_was_ok. destruct od as [d'|]; cbn [fmap option_fmap option_map] in HF.
  - destruct HF as (-> & Ea & Rd'). split; [done|]. split; [done|]. exists q. split; [by eapply seqs_step_le|done].
  - destruct HF as (-> & q' & Hq' & Ea). split; [done|]. exists q'. split; [|done].
    destruct Hq' as [->| ->]; [done|by eapply seqs_step_le].
Qed.

Lemma mark_partition_deleted_spec c name key snap s d :
  ready c (abs s) d ->
  exists b s', mark_partition_deleted c name key snap s = (inr b, s')
    /\ match find_live d (c_str name) with
       | None => b = false /\ abs s' = abs s
       | Some t =>
           let od := partition_delete (tb_table_id t) (c_str key) snap d in
           b = bool_decide (is_Some od) /\ wrote c s s' od
       end.
Proof.
  intros Rd. unfold mark_partition_deleted. table_id_step Rd s1 Ea1.
  destruct (find_live d (c_str name)) as [t|] eqn:Et; [|by exists false, s1].
  destruct (find_live_id d _ t _ (rd_ok _ _ _ Rd) Et) as [_ Hid].
  pose proof (ready_abs _ _ _ _ Ea1 Rd) as Rd1. unfold pbind.
  sql_write Rd1 (fun now n : Z => (command_ok (to_string (count_where (live_part (tb_table_id t) (c_str key)) (db_partitions d))),.)
      <$> partition_delete (tb_table_id t) (c_str key) snap d) r s' now n q E St HF.
  { intros now n. unfold partition_delete. destruct (in_i64 snap) eqn:Hs.
    - apply (run_update (R:=partition_rec) _ _ _ _ _ d (live_part_bound (tb_table_id t) (c_str key))
        [(pcol "is_deleted", SBool true); (pcol "deleted_snapshot_id", SInt snap)]
        (live_part (tb_table_id t) (c_str key)) (set_deleted snap)); [done..| | |apply holds_live_part|].
      + by coerce_ints.
      + by coerce_ints.
      + by intros [].
    - apply (run_update_unbound (R:=partition_rec)); [done|]. by coerce_ints. }
  rewrite E. do 2 eexists. split; [done|].
  destruct (wrote_intro _ _ _ _ _ _ _ _ _ St HF) as [Hok Hw]. split; [done|by eapply wrote_abs].
Qed.

Lemma update_table_snapshot_spec c name snap s d :
  ready c (abs s) d ->
  exists b s' now, update_table_snapshot c name snap s = (inr b, s')
    /\ let od := pointer_update now (c_str name) snap d in
       b = bool_decide (is_Some od) /\ wrote c s s' od.
Proof.
  intros Rd. unfold update_table_snapshot, pbind.
  sql_write Rd (fun now n : Z => (command_ok (to_string (count_where (live (c_str name)) (db_tables d))),.)
      <$> pointer_update now (c_str name) snap d) r s' now n q E St HF.
  { intros now n. unfold pointer_update. destruct (in_i64 snap) eqn:Hs.
    - apply (run_update (R:=table_rec) _ _ _ _ _ d (live_bound (c_str name))
        [(tcol "current_snapshot_id", SInt snap); (tcol "updated_at", STime now)]
        (live (c_str name)) (set_current snap now)); [done..| |apply holds_live|].
      + by coerce_ints.
      + by intros [].
    - apply (run_update_unbound (R:=table_rec)); [done|]. by coerce_ints. }
  rewrite E. do 3 eexists. split; [done|]. by apply (wrote_intro _ _ _ _ _ _ _ _ _ St HF).
Qed.

Lemma insert_partition_spec c name snap part s d :
  ready c (abs s) d ->
  exists b s', insert_partition c name snap part s = (inr b, s')
    /\ match find_live d (c_str name) with
       | None => b = false /\ abs s' = abs s
       | Some t =>
           let od := partition_insert (sq_partitions (seqs (abs s))) (tb_table_id t) snap part d in
           b = bool_decide (is_Some od) /\ wrote c s s' od
           /\ (is_Some od -> sq_partitions (seqs (abs s')) = sq_partitions (seqs (abs s)) + 1)
       end.
Proof.
  intros Rd. unfold insert_partition. table_id_step Rd s1 Ea1.
  destruct (find_live d (c_str name)) as [t|] eqn:Et; [|by exists false, s1].
  destruct (find_live_id d _ t _ (rd_ok _ _ _ Rd) Et) as [_ Hid].
  pose proof (ready_abs _ _ _ _ Ea1 Rd) as Rd1. unfold pbind.
  sql_write Rd1 (fun now n : Z => (command_ok "1",.) <$> partition_insert n (tb_table_id t) snap part d)
    r s' now n q E St HF.
  { intros now n. unfold partition_insert, new_part. fold (stats_text part).
    destruct (in_i64 snap) eqn:Hs; [destruct (in_i64 (pr_row_count part)) eqn:Hr;
      [destruct (in_i64 (pr_size_bytes part)) eqn:Hz;
        [destruct (pg_jsonb_in (stats_text part)) as [j|] eqn:Hj|]|]|].
    2-5: (replace (_ ≫= _ : option partition_rec) with (@None partition_rec) by (by destruct (pg_jsonb_in _));
           apply (run_insert_unbound (R:=partition_rec)); [done|]; by coerce_ints).
    eapply (run_insert_plain (R:=partition_rec)) with (out := None); [done|done|done|solve_required| | |done].
    - by coerce_ints.
    - done. }
  destruct (wrote_intro _ _ _ _ _ _ _ _ _ St HF) as [Hok Hw].
  assert (n = sq_partitions (seqs (abs s1)) /\ sq_partitions q = sq_partitions (seqs (abs s1)) + 1) as [-> Hq]
    by (destruct St as (_ & _ & _ & [-> ->] & _); done).
  rewrite Ea1 in *. rewrite E. do 2 eexists. split; [done|]. cbv zeta. split; [done|].
  split; [by eapply wrote_abs|]. intros [d' Hd']. rewrite Hd' in HF. destruct HF as (_ & -> & _).
  rewrite <- Hq. done.
Qed.

Lemma check_some d d' : check d = Some d' -> d' = d /\ constraints_ok d = true.
Proof. unfold check. case_match; [|done]. by intros [= ->]. Qed.

(** The key of a new snapshot is read back as it was drawn. *)
Lemma insert_snapshot_spec c name parent op added deleted s d :
  ready c (abs s) d ->
  exists z s' now, insert_snapshot c name parent op added deleted s = (inr z, s')
    /\ match find_live d (c_str name) with
       | None => z = 0 /\ abs s' = abs s
       | Some t =>
           let n := sq_snapshots (seqs (abs s)) in
           let od := snapshot_insert now n (tb_table_id t) parent (c_str op) added deleted d in
           z = match od with Some _ => n | None => 0 end /\ wrote c s s' od
           /\ (is_Some od -> sq_partitions (seqs (abs s')) = sq_partitions (seqs (abs s)))
       end.
Proof.
  intros Rd. unfold insert_snapshot. table_id_step Rd s1 Ea1.
  destruct (find_live d (c_str name)) as [t|] eqn:Et; [|by exists 0, s1, 0].
  destruct (find_live_id d _ t _ (rd_ok _ _ _ Rd) Et) as [_ Hid].
  pose proof (ready_abs _ _ _ _ Ea1 Rd) as Rd1. unfold pbind.
  sql_write Rd1 (fun now n : Z => (mkRes PGRES_TUPLES_OK [[Some (to_string n)]] "1",.)
      <$> snapshot_insert now n (tb_table_id t) parent (c_str op) added deleted d) r s' now n q E St HF.
  { intros now n. unfold snapshot_insert.
    destruct (in_i64 parent) eqn:Hp; [destruct (in_i32 added) eqn:Hr; [destruct (in_i32 deleted) eqn:Hz|]|].
    2-4: (apply (run_insert_unbound (R:=snapshot_rec)); [done|]; by coerce_ints).
    eapply (run_insert_plain (R:=snapshot_rec)) with (out := Some (Some (to_string n)));
      [done|done|done|solve_required| | |by eexists].
    - by coerce_ints.
    - done. }
  assert (n = sq_snapshots (seqs (abs s1))) as -> by apply St. rewrite E, <- Ea1.
  set (n := sq_snapshots (seqs (abs s1))) in *.
  destruct (snapshot_insert now n (tb_table_id t) parent (c_str op) added deleted d) as [d'|] eqn:Ed;
    cbn [fmap option_fmap option_map] in HF.
  - destruct HF as (-> & Ea & Rd'). exists n, s', now. rewrite Ed.
    assert (1 <= n /\ in_i64 n = true) as [Hn1 Hn].
    { split; [apply Rd1|]. unfold snapshot_insert in Ed. case_match; [|done].
      apply check_some in Ed as [-> _].
      apply (in_snapshot_range _ (ready_integrity _ _ _ Rd')
         (mkSnap n (Some (tb_table_id t)) (Some parent) (Some now) (c_str op) (Some added) (Some deleted) (Some "{}"))).
      apply elem_of_app. right. by left. }
    replace (tuples_ok _ && _) with true by done. unfold int64_at, pthrow.
    rewrite (field_int64_text _ _ _ n) by done. unfold pret. rewrite u64_in_i64 by (done || lia).
    split; [done|]. split; [done|]. split.
    + apply (wrote_abs _ s s1); [done|]. split; [done|]. exists q. split; [by eapply seqs_step_le|done].
    + intros _. rewrite Ea. by destruct St as (_ & _ & _ & Hq & _).
  - destruct HF as (Hf & q' & Hq' & Ea). exists 0, s', now. rewrite Ed.
    unfold tuples_ok. rewrite Hf. split; [done|]. split; [done|]. split; [|by intros []].
    apply (wrote_abs _ s s1); [done|]. exists q'. split; [|done].
    destruct Hq' as [->| ->]; [done|by eapply seqs_step_le].
Qed.
End writes.
