(* ===== verification/Changes.v ===== *)
(** * Commits as changes of the database

    What [commit_snapshot] does to the database, without connections: the row
    of the new snapshot, the new partitions, the deleted ones, the pointer of
    the table; and what readers of older and newer snapshots see of it. *)
From S2P Require Import Prelude Cxx Sql Database PgService DbFacts PgClient PgSpec PgWrites.

Section changes.
Context {P : PgService}.

(** Partitions inserted one after the other take consecutive keys from [n]. *)
Fixpoint insert_parts (n tid snap : Z) (parts : list PartitionRow) (d : Db) : option Db :=
  match parts with
  | [] => Some d
  | p :: rest => d' ← partition_insert n tid snap p d; insert_parts (n + 1) tid snap rest d'
  end.

Fixpoint delete_parts (tid : Z) (keys : list string) (snap : Z) (d : Db) : option Db :=
  match keys with
  | [] => Some d
  | key :: rest => d' ← partition_delete tid (c_str key) snap d; delete_parts tid rest snap d'
  end.

(** The whole commit on a live table [t]: [n] and [m] are the keys its
    snapshot and its first new partition get. *)
Definition commit_change (now1 now2 n m : Z) (t : table_rec) (parent : Z) (op : string)
    (parts : list PartitionRow) (keys : list string) (d : Db) : option Db :=
  let tid := tb_table_id t in
  d1 ← snapshot_insert now1 n tid parent (c_str op) (i32 (Z.of_nat (length parts))) (i32 (Z.of_nat (length keys))) d;
  d2 ← insert_parts m tid n parts d1;
  d3 ← delete_parts tid keys n d2;
  pointer_update now2 (tb_table_name t) n d3.

(** ** Its shape *)

Fixpoint new_parts (n tid snap : Z) (parts : list PartitionRow) : option (list partition_rec) :=
  match parts with
  | [] => Some []
  | p :: rest => r ← new_part n tid snap p; rs ← new_parts (n + 1) tid snap rest; Some (r :: rs)
  end.

(** Marking the live partitions of a table whose key is in a list. *)
Definition in_keys (tid : Z) (keys : list string) (p : partition_rec) : bool :=
  bool_decide (pa_table_id p = Some tid) && bool_decide (pa_partition_key p ∈ c_str <$> keys)
  && bool_decide (pa_is_deleted p = Some false).

Definition marked (tid snap : Z) (keys : list string) (l : list partition_rec) : list partition_rec :=
  map_where (in_keys tid keys) (set_deleted snap) l.

Lemma insert_parts_shape n tid snap parts d d' :
  insert_parts n tid snap parts d = Some d' ->
  exists rs, new_parts n tid snap parts = Some rs /\ d' = with_rows (db_partitions d ++ rs) d.
Proof.
  revert n d. induction parts as [|p parts IH]; intros n d E; cbn in E.
  - injection E as <-. exists []. rewrite app_nil_r. by destruct d.
  - unfold partition_insert in E. cbn [new_parts]. destruct (new_part n tid snap p) as [r|]; [|done].
    cbn [mbind option_bind] in E |- *. destruct (check (add_partition r d)) as [d1|] eqn:E1; [|done].
    apply check_some in E1 as [-> _]. cbn [mbind option_bind] in E.
    destruct (IH _ _ E) as (rs & -> & ->). exists (r :: rs). split; [done|].
    unfold add_partition. cbn. by rewrite <- app_assoc.
Qed.

Lemma marked_cons tid snap key keys l :
  marked tid snap keys (map_where (live_part tid (c_str key)) (set_deleted snap) l) = marked tid snap (key :: keys) l.
Proof.
  unfold marked, map_where. rewrite <- list_fmap_compose. apply list_fmap_ext. intros i p _. cbn.
  unfold in_keys, live_part. rewrite fmap_cons.
  rewrite (bool_decide_ext (pa_partition_key p ∈ c_str key :: (c_str <$> keys))
    (pa_partition_key p = c_str key \/ pa_partition_key p ∈ c_str <$> keys)) by (rewrite elem_of_cons; done).
  rewrite bool_decide_or.
  replace (String.eqb (pa_partition_key p) (c_str key)) with (bool_decide (pa_partition_key p = c_str key))
    by (destruct (String.eqb_spec (pa_partition_key p) (c_str key)); [by apply bool_decide_eq_true|by apply bool_decide_eq_false]).
  destruct (bool_decide (pa_table_id p = Some tid)) eqn:E1, (bool_decide (pa_partition_key p = c_str key)) eqn:E2,
    (bool_decide (pa_is_deleted p = Some false)) eqn:E3; cbn; rewrite ?E1, ?E2, ?E3; cbn; rewrite ?andb_false_r; done.
Qed.

Lemma delete_parts_shape tid keys snap d d' :
  delete_parts tid keys snap d = Some d' -> d' = with_rows (marked tid snap keys (db_partitions d)) d.
Proof.
  revert d. induction keys as [|key keys IH]; intros d E; cbn in E.
  - injection E as <-. unfold marked, map_where.
    rewrite (list_fmap_ext _ id) by (intros i p _; unfold in_keys; by rewrite andb_false_r).
    rewrite list_fmap_id. by destruct d.
  - unfold partition_delete in E. destruct (in_i64 snap); [|done].
    destruct (check _) as [d1|] eqn:E1; [|done]. apply check_some in E1 as [-> _]. cbn [mbind option_bind] in E.
    rewrite (IH _ E). unfold mark_deleted. rewrite <- marked_cons. done.
Qed.

Lemma commit_shape now1 now2 n m t parent op parts keys d d' :
  commit_change now1 now2 n m t parent op parts keys d = Some d' ->
  exists rs, new_parts m (tb_table_id t) n parts = Some rs
    /\ db_partitions d' = marked (tb_table_id t) n keys (db_partitions d ++ rs)
    /\ db_tables d' = map_where (live (tb_table_name t)) (set_current n now2) (db_tables d)
    /\ (exists row, sn_snapshot_id row = n /\ sn_table_id row = Some (tb_table_id t)
          /\ sn_parent_snapshot_id row = Some parent /\ sn_operation row = c_str op
          /\ sn_added_files_count row = Some (i32 (Z.of_nat (length parts)))
          /\ sn_deleted_files_count row = Some (i32 (Z.of_nat (length keys))) /\ sn_committed_at row = Some now1
          /\ db_snapshots d' = db_snapshots d ++ [row])
    /\ db_history d' = db_history d /\ db_transactions d' = db_transactions d
    /\ constraints_ok d' = true /\ in_i64 n = true.
Proof.
  unfold commit_change, snapshot_insert. intros E. case_match eqn:Hr; [|done].
  destruct (check _) as [d1|] eqn:E1; [|done]. apply check_some in E1 as [-> _]. cbn [mbind option_bind] in E.
  destruct (insert_parts _ _ _ _ _) as [d2|] eqn:E2; [|done]. cbn [mbind option_bind] in E.
  apply insert_parts_shape in E2 as (rs & Hrs & ->).
  destruct (delete_parts _ _ _ _) as [d3|] eqn:E3; [|done]. cbn [mbind option_bind] in E.
  apply delete_parts_shape in E3 as ->. unfold pointer_update in E. case_match eqn:Hn; [|done].
  apply check_some in E as [-> Hc]. exists rs. split_and!; try done.
  by exists (mkSnap n (Some (tb_table_id t)) (Some parent) (Some now1) (c_str op) (Some (i32 (Z.of_nat (length parts))))
    (Some (i32 (Z.of_nat (length keys)))) (Some "{}")).
Qed.

(** ** What readers see *)

Lemma sort_parts_fmap (g : partition_rec -> partition_rec) l :
  (forall p, pa_partition_id (g p) = pa_partition_id p) -> NoDup (pa_partition_id <$> l) ->
  sort_parts (g <$> l) = g <$> sort_parts l.
Proof.
  intros Hg Hn. assert (pa_partition_id <$> (g <$> l) = pa_partition_id <$> l) as Hids.
  { rewrite <- list_fmap_compose. apply list_fmap_ext. intros i p _. apply Hg. }
  unfold sort_parts. apply (sorted_key_unique pa_partition_id).
  - by rewrite !merge_sort_Permutation.
  - by rewrite merge_sort_Permutation, Hids.
  - apply Sorted_merge_sort. apply _.
  - apply Sorted_fmap with (R1 := part_before); [|apply Sorted_merge_sort; apply _].
    intros p q. unfold part_before. by rewrite !Hg.
Qed.

(** Keys that come later go to the end. *)
Lemma sort_parts_app l r :
  NoDup (pa_partition_id <$> l ++ r) -> Sorted part_before r ->
  (forall p q, p ∈ l -> q ∈ r -> part_before p q) -> sort_parts (l ++ r) = sort_parts l ++ r.
Proof.
  intros Hn Hr Hlr. unfold sort_parts. apply (sorted_key_unique pa_partition_id).
  - by rewrite !merge_sort_Permutation.
  - by rewrite merge_sort_Permutation.
  - apply Sorted_merge_sort. apply _.
  - apply StronglySorted_Sorted, StronglySorted_app_2.
    + intros p q. rewrite merge_sort_Permutation. apply Hlr.
    + apply StronglySorted_merge_sort; [intros x y z; unfold part_before; lia|apply _].
    + apply Sorted_StronglySorted; [intros x y z; unfold part_before; lia|done].
Qed.

(** The rows a reader of table [tid] at snapshot [s] gets. *)
Definition rows_at (l : list partition_rec) (tid s : Z) : list PartitionRow :=
  part_row <$> sort_parts (filter (fun p => visible tid s p) l).

Definition mark (tid snap : Z) (keys : list string) (p : partition_rec) : partition_rec :=
  if in_keys tid keys p then set_deleted snap p else p.

Lemma mark_row tid snap keys p : part_row (mark tid snap keys p) = part_row p.
Proof. unfold mark. by case_match. Qed.

(** Marking changes who sees a row, not the row. *)
Lemma rows_at_marked tid n keys l tid' s :
  NoDup (pa_partition_id <$> l) ->
  rows_at (marked tid n keys l) tid' s
  = part_row <$> sort_parts (filter (fun p => visible tid' s (mark tid n keys p)) l).
Proof.
  intros Hn. unfold rows_at, marked, map_where.
  change ((fun r => if in_keys tid keys r then set_deleted n r else r) <$> l) with (mark tid n keys <$> l).
  rewrite filter_fmap_comm, sort_parts_fmap.
  - rewrite <- list_fmap_compose. apply list_fmap_ext. intros i p _. apply mark_row.
  - intros p. unfold mark. by case_match.
  - by apply NoDup_fmap_filter.
Qed.

Lemma visible_mark tid n keys tid' s p :
  visible tid' s (mark tid n keys p)
  = if in_keys tid keys p && (n <=? s) then false else visible tid' s p.
Proof.
  unfold mark. destruct (in_keys tid keys p) eqn:E; [|done]. cbn [andb].
  unfold in_keys in E. rewrite !andb_true_iff, !bool_decide_eq_true in E. destruct E as [[_ _] Ed].
  unfold visible, set_deleted. cbn. rewrite Ed. rewrite (bool_decide_eq_false_2 (Some true = Some false)) by done.
  rewrite (bool_decide_eq_true_2 (Some false = Some false)) by done. cbn [orb].
  destruct (Z.leb_spec n s), (Z.ltb_spec s n); try lia; by rewrite ?andb_false_r.
Qed.

Lemma new_parts_elem m tid n parts rs r :
  new_parts m tid n parts = Some rs -> r ∈ rs ->
  pa_table_id r = Some tid /\ pa_snapshot_id r = Some n /\ pa_is_deleted r = Some false
  /\ pa_deleted_snapshot_id r = None /\ m <= pa_partition_id r.
Proof.
  revert m rs. induction parts as [|p parts IH]; intros m rs E Hr; cbn [new_parts] in E.
  - injection E as <-. by apply not_elem_of_nil in Hr.
  - destruct (new_part m tid n p) as [r0|] eqn:E0; [|done]. cbn [mbind option_bind] in E.
    destruct (new_parts (m + 1) tid n parts) as [rs0|] eqn:E1; [|done]. injection E as <-.
    apply elem_of_cons in Hr as [->|Hr].
    + unfold new_part in E0. destruct (pg_jsonb_in _); [|done]. cbn [mbind option_bind] in E0.
      case_match; [|done]. injection E0 as <-. cbn. split_and!; (done || lia).
    + destruct (IH _ _ E1 Hr) as (?&?&?&?&?). split_and!; (done || lia).
Qed.

Lemma new_parts_sorted m tid n parts rs : new_parts m tid n parts = Some rs -> StronglySorted part_before rs.
Proof.
  revert m rs. induction parts as [|p parts IH]; intros m rs E; cbn [new_parts] in E.
  - injection E as <-. constructor.
  - destruct (new_part m tid n p) as [r0|] eqn:E0; [|done]. cbn [mbind option_bind] in E.
    destruct (new_parts (m + 1) tid n parts) as [rs0|] eqn:E1; [|done]. injection E as <-.
    constructor; [by eapply IH|]. apply Forall_forall. intros r Hr.
    apply (new_parts_elem (m + 1) tid n parts rs0) in Hr; [|done].
    unfold new_part in E0. destruct (pg_jsonb_in _); [|done]. cbn [mbind option_bind] in E0.
    case_match; [|done]. injection E0 as <-. unfold part_before. cbn. lia.
Qed.

(** Readers of an older snapshot see what they saw. *)
Lemma rows_before tid n m keys parts rs l tid' s :
  NoDup (pa_partition_id <$> l ++ rs) -> new_parts m tid n parts = Some rs -> s < n ->
  rows_at (marked tid n keys (l ++ rs)) tid' s = rows_at l tid' s.
Proof.
  intros Hn Hrs Hs. rewrite rows_at_marked by done. unfold rows_at.
  rewrite (filter_ext_elem _ (fun p => visible tid' s p)).
  2:{ intros p _. rewrite visible_mark. replace (n <=? s) with false by lia. by rewrite andb_false_r. }
  rewrite filter_app, (filter_none _ rs), app_nil_r; [done|]. intros r Hr.
  destruct (new_parts_elem _ _ _ _ _ _ Hrs Hr) as (_ & Esn & _). unfold visible. rewrite Esn.
  replace (n <=? s) with false by lia. rewrite andb_false_r. by intros [].
Qed.

(** Readers of other tables see what they saw. *)
Lemma rows_elsewhere tid n m keys parts rs l tid' s :
  NoDup (pa_partition_id <$> l ++ rs) -> new_parts m tid n parts = Some rs -> tid' <> tid ->
  rows_at (marked tid n keys (l ++ rs)) tid' s = rows_at l tid' s.
Proof.
  intros Hn Hrs Ht. rewrite rows_at_marked by done. unfold rows_at.
  rewrite (filter_ext_elem _ (fun p => visible tid' s p)).
  2:{ intros p _. rewrite visible_mark. destruct (in_keys tid keys p) eqn:E; [|done].
      unfold in_keys in E. rewrite !andb_true_iff, !bool_decide_eq_true in E. destruct E as [[E _] _].
      cbn [andb]. destruct (n <=? s); [|done]. unfold visible. rewrite E, bool_decide_eq_false_2 by congruence. done. }
  rewrite filter_app, (filter_none _ rs), app_nil_r; [done|]. intros r Hr.
  destruct (new_parts_elem _ _ _ _ _ _ Hrs Hr) as (Et & _). unfold visible.
  rewrite Et, bool_decide_eq_false_2 by congruence. by intros ?.
Qed.

(** The rows whose key is not deleted. *)
Definition kept (keys : list string) (r : PartitionRow) : bool :=
  negb (bool_decide (pr_partition_key r ∈ c_str <$> keys)).

Lemma visible_mark_after tid n keys s p :
  n <= s -> (forall z, pa_deleted_snapshot_id p = Some z -> z < n) ->
  visible tid s (mark tid n keys p) = kept keys (part_row p) && visible tid s p.
Proof.
  intros Hs Hdel. rewrite visible_mark. replace (n <=? s) with true by lia. rewrite andb_true_r.
  unfold kept, in_keys. cbn [pr_partition_key part_row]. unfold visible.
  destruct (bool_decide (pa_table_id p = Some tid)); [|by rewrite andb_false_r].
  destruct (bool_decide (pa_partition_key p ∈ c_str <$> keys)); [|done]. cbn [andb negb].
  destruct (bool_decide (pa_is_deleted p = Some false)); [done|]. cbn [orb].
  destruct (pa_deleted_snapshot_id p) as [z|]; [|by rewrite andb_false_r].
  specialize (Hdel z eq_refl). replace (s <? z) with false by lia. by rewrite andb_false_r.
Qed.

Lemma sort_parts_filter (f : partition_rec -> bool) l :
  NoDup (pa_partition_id <$> l) ->
  sort_parts (filter (fun p => f p) l) = filter (fun p => f p) (sort_parts l).
Proof.
  intros Hn. unfold sort_parts. apply (sorted_key_unique pa_partition_id).
  - by rewrite !merge_sort_Permutation.
  - rewrite merge_sort_Permutation. by apply NoDup_fmap_filter.
  - apply Sorted_merge_sort. apply _.
  - apply StronglySorted_Sorted, StronglySorted_filter, StronglySorted_merge_sort.
    + intros x y z. unfold part_before. lia.
    + apply _.
Qed.

(** Readers from the new snapshot on see the old and the new partitions, but
    for those whose key is deleted, be they old or new. *)
Lemma rows_after tid n m keys parts rs l s :
  NoDup (pa_partition_id <$> l ++ rs) -> new_parts m tid n parts = Some rs -> n <= s ->
  (forall p, p ∈ l -> pa_partition_id p < m) ->
  (forall p z, p ∈ l -> pa_deleted_snapshot_id p = Some z -> z < n) ->
  rows_at (marked tid n keys (l ++ rs)) tid s
  = filter (fun r => kept keys r) (rows_at l tid s ++ (part_row <$> rs)).
Proof.
  intros Hn Hrs Hs Hlt Hdel. rewrite rows_at_marked by done. unfold rows_at.
  rewrite (filter_ext_elem _ (fun p => kept keys (part_row p) /\ visible tid s p)).
  2:{ intros p Hp. rewrite visible_mark_after; [by rewrite !Is_true_true, andb_true_iff|done|].
      intros z Hz. apply elem_of_app in Hp as [Hp|Hp]; [by eapply Hdel|].
      destruct (new_parts_elem _ _ _ _ _ _ Hrs Hp) as (_&_&_&?&_). congruence. }
  rewrite <- list_filter_filter, filter_app, (filter_all _ rs).
  2:{ intros r Hr. destruct (new_parts_elem _ _ _ _ _ _ Hrs Hr) as (Et & Es & Ed & _).
      unfold visible. rewrite Et, Es, Ed, !bool_decide_eq_true_2 by done. by replace (n <=? s) with true by lia. }
  assert (NoDup (pa_partition_id <$> filter (fun p => visible tid s p) l ++ rs)) as Hn'.
  { eapply sublist_NoDup; [exact Hn|]. apply fmap_sublist, sublist_app; [apply sublist_filter|done]. }
  rewrite sort_parts_filter by done.
  rewrite sort_parts_app; [by rewrite <- fmap_app, filter_fmap_comm|done|by eapply StronglySorted_Sorted, new_parts_sorted|].
  intros p q [_ Hp]%list_elem_of_filter Hq.
  destruct (new_parts_elem _ _ _ _ _ _ Hrs Hq) as (_&_&_&_&?). specialize (Hlt p Hp). unfold part_before. lia.
Qed.

(** ** When a commit succeeds *)

Lemma check_integrity d : integrity d -> check d = Some d.
Proof. intros I. unfold check. by rewrite (proj2 (constraints_integrity d)). Qed.

Lemma NoDup_snoc_lt (l : list Z) n : NoDup l -> (forall x, x ∈ l -> x < n) -> NoDup (l ++ [n]).
Proof.
  intros Hn Hl. apply NoDup_app. split; [done|]. split; [|apply NoDup_singleton].
  intros x Hx ->%list_elem_of_singleton. specialize (Hl n Hx). lia.
Qed.

Lemma refers_app keys keys' o : refers keys o = true -> refers (keys ++ keys') o = true.
Proof.
  destruct o as [z|]; [|done]. simpl. rewrite !bool_decide_eq_true, elem_of_app. by left.
Qed.

Lemma integrity_add_snapshot r d :
  integrity d -> (forall r', r' ∈ db_snapshots d -> sn_snapshot_id r' < sn_snapshot_id r) ->
  refers (tb_table_id <$> db_tables d) (sn_table_id r) = true ->
  in_i64 (sn_snapshot_id r) = true -> opt_in in_i64 (sn_parent_snapshot_id r) = true ->
  opt_in in_i32 (sn_added_files_count r) = true -> opt_in in_i32 (sn_deleted_files_count r) = true ->
  integrity (add_snapshot r d).
Proof.
  intros I Hlt Hfk H1 H2 H3 H4. unfold add_snapshot. split; cbn; try apply I.
  - rewrite fmap_app. apply NoDup_snoc_lt; [apply I|]. by intros x (r' & -> & Hr')%list_elem_of_fmap; apply Hlt.
  - intros r'. rewrite elem_of_app, list_elem_of_singleton. intros [Hr'| ->]; [by apply (in_snapshot_fk _ I)|done].
  - intros r' Hr'. destruct (in_partition_fk _ I r' Hr') as [? ?]. split; [done|].
    rewrite fmap_app. by apply refers_app.
  - intros r'. rewrite elem_of_app, list_elem_of_singleton. intros [Hr'| ->]; [by apply (in_snapshot_range _ I)|done].
Qed.

Lemma integrity_add_partition r d :
  integrity d -> (forall r', r' ∈ db_partitions d -> pa_partition_id r' < pa_partition_id r) ->
  refers (tb_table_id <$> db_tables d) (pa_table_id r) = true ->
  refers (sn_snapshot_id <$> db_snapshots d) (pa_snapshot_id r) = true ->
  in_i64 (pa_partition_id r) = true -> opt_in in_i64 (pa_row_count r) = true ->
  opt_in in_i64 (pa_size_bytes r) = true -> integrity (add_partition r d).
Proof.
  intros I Hlt Hf1 Hf2 H1 H2 H3. unfold add_partition. split; cbn; try apply I.
  - rewrite fmap_app. apply NoDup_snoc_lt; [apply I|]. by intros x (r' & -> & Hr')%list_elem_of_fmap; apply Hlt.
  - intros r'. rewrite elem_of_app, list_elem_of_singleton. intros [Hr'| ->]; [by apply (in_partition_fk _ I)|done].
  - intros r'. rewrite elem_of_app, list_elem_of_singleton. intros [Hr'| ->]; [by apply (in_partition_range _ I)|done].
Qed.

Lemma map_where_fmap {R A} (b : R -> bool) f (k : R -> A) (l : list R) :
  (forall r, k (f r) = k r) -> k <$> map_where b f l = k <$> l.
Proof.
  intros Hk. unfold map_where. rewrite <- list_fmap_compose. apply list_fmap_ext. intros i r _. cbn.
  destruct (b r); [apply Hk|done].
Qed.

Lemma elem_of_map_where {R} (b : R -> bool) f (l : list R) r :
  r ∈ map_where b f l -> exists r', r' ∈ l /\ (r = r' \/ r = f r').
Proof.
  unfold map_where. intros (r' & -> & Hr')%list_elem_of_fmap. exists r'. destruct (b r'); auto.
Qed.

Lemma integrity_mark_deleted tid key snap d : integrity d -> integrity (mark_deleted tid key snap d).
Proof.
  intros I. unfold mark_deleted. split; cbn; try apply I.
  - rewrite map_where_fmap by done. apply I.
  - intros r (r' & Hr' & [->| ->])%elem_of_map_where; by apply (in_partition_fk _ I r').
  - intros r (r' & Hr' & [->| ->])%elem_of_map_where; by apply (in_partition_range _ I r').
Qed.

Lemma integrity_set_current name snap now d :
  integrity d -> in_i64 snap = true -> integrity (update_tables name (set_current snap now) d).
Proof.
  intros I Hs. unfold update_tables. split; cbn; rewrite ?map_where_fmap by done; try apply I.
  intros r (r' & Hr' & [->| ->])%elem_of_map_where; destruct (in_table_range _ I r' Hr') as (? & ? & ?); by split_and!.
Qed.

Lemma in_i64_between z : 0 <= z -> forall z', z <= z' -> in_i64 z' = true -> in_i64 z = true.
Proof. intros H z' Hz. unfold in_i64, i64_min. rewrite !andb_true_iff, !Z.leb_le. lia. Qed.

Lemma insert_parts_succeeds m tid n parts rs d :
  integrity d -> 1 <= m -> (forall p, p ∈ db_partitions d -> pa_partition_id p < m) ->
  tid ∈ tb_table_id <$> db_tables d -> n ∈ sn_snapshot_id <$> db_snapshots d ->
  in_i64 (m + Z.of_nat (length parts)) = true -> new_parts m tid n parts = Some rs ->
  exists d', insert_parts m tid n parts d = Some d' /\ integrity d'.
Proof.
  revert m rs d. induction parts as [|p parts IH]; intros m rs d I Hm Hlt Ht Hn Hi Hrs; [by exists d|].
  cbn [insert_parts new_parts length] in *. unfold partition_insert.
  destruct (new_part m tid n p) as [r|] eqn:Er; [|done]. cbn [mbind option_bind] in *.
  destruct (new_parts (m + 1) tid n parts) as [rs'|] eqn:Ers; [|done].
  assert (integrity (add_partition r d)) as I'.
  { unfold new_part in Er. destruct (pg_jsonb_in _); [|done]. cbn [mbind option_bind] in Er.
    case_match eqn:Hr; [|done]. injection Er as <-. rewrite !andb_true_iff in Hr. destruct Hr as [[_ Hr] Hz].
    apply integrity_add_partition; cbn; try done; [by apply bool_decide_eq_true|by apply bool_decide_eq_true|].
    eapply in_i64_between; [lia| |exact Hi]. lia. }
  rewrite check_integrity by done. cbn [mbind option_bind].
  assert (pa_partition_id r = m) as Hid.
  { unfold new_part in Er. destruct (pg_jsonb_in _); [|done]. cbn [mbind option_bind] in Er.
    case_match; [|done]. by injection Er as <-. }
  apply (IH (m + 1) rs'); try done; [lia| |].
  - intros p'. cbn. rewrite elem_of_app, list_elem_of_singleton. intros [Hp'| ->]; [specialize (Hlt p' Hp')|]; lia.
  - by replace (m + 1 + Z.of_nat (length parts)) with (m + Z.of_nat (S (length parts))) by lia.
Qed.

Lemma delete_parts_succeeds tid keys n d :
  integrity d -> in_i64 n = true -> exists d', delete_parts tid keys n d = Some d' /\ integrity d'.
Proof.
  revert d. induction keys as [|key keys IH]; intros d I Hn; [by exists d|]. cbn [delete_parts].
  unfold partition_delete. rewrite Hn, check_integrity by (by apply integrity_mark_deleted).
  cbn [mbind option_bind]. apply IH; [by apply integrity_mark_deleted|done].
Qed.

Lemma in_i32_i32 z : in_i32 (i32 z) = true.
Proof.
  unfold in_i32, i32, i32_min, i32_max. pose proof (Z.mod_pos_bound (z + 2147483648) 4294967296 ltac:(lia)).
  rewrite andb_true_iff, !Z.leb_le. lia.
Qed.

(** A snapshot and storable partitions can be inserted. *)
Lemma inserts_succeed now q t parent op added deleted parts d rs :
  db_ok q d -> seqs_ok q -> find_live d (tb_table_name t) = Some t ->
  in_i64 parent = true -> in_i32 added = true -> in_i32 deleted = true -> in_i64 (sq_snapshots q) = true ->
  in_i64 (sq_partitions q + Z.of_nat (length parts)) = true ->
  new_parts (sq_partitions q) (tb_table_id t) (sq_snapshots q) parts = Some rs ->
  exists d1 d2, snapshot_insert now (sq_snapshots q) (tb_table_id t) parent op added deleted d = Some d1
    /\ insert_parts (sq_partitions q) (tb_table_id t) (sq_snapshots q) parts d1 = Some d2 /\ integrity d2.
Proof.
  intros [I%constraints_integrity (_ & _ & B3 & B4 & _)] Q Hl Hp Ha Hd Hn Hm Hrs.
  apply find_live_spec in Hl as (Ht & _). apply (list_elem_of_fmap_2 tb_table_id) in Ht.
  unfold snapshot_insert. rewrite Hp, Ha, Hd. cbn [andb].
  match goal with |- context [check ?x] => assert (integrity x) as I1 end.
  { apply integrity_add_snapshot; cbn; try done; [|by apply bool_decide_eq_true]. intros r' Hr'. by apply B3. }
  rewrite check_integrity by done. eexists.
  edestruct (insert_parts_succeeds (sq_partitions q) (tb_table_id t) (sq_snapshots q) parts rs) as (d2 & E2 & I2);
    [exact I1|apply Q| |done| |done|done|].
  { intros p Hp'. cbn in Hp'. by apply B4. }
  { cbn. rewrite fmap_app. apply elem_of_app. right. by left. }
  by exists d2.
Qed.

Lemma commit_succeeds now1 now2 q t parent op parts keys d rs :
  db_ok q d -> seqs_ok q -> find_live d (tb_table_name t) = Some t ->
  in_i64 parent = true -> in_i64 (sq_snapshots q) = true ->
  in_i64 (sq_partitions q + Z.of_nat (length parts)) = true ->
  new_parts (sq_partitions q) (tb_table_id t) (sq_snapshots q) parts = Some rs ->
  is_Some (commit_change now1 now2 (sq_snapshots q) (sq_partitions q) t parent op parts keys d).
Proof.
  intros Hok Q Hl Hp Hn Hm Hrs. unfold commit_change.
  destruct (inserts_succeed now1 q t parent (c_str op) (i32 (Z.of_nat (length parts))) (i32 (Z.of_nat (length keys))) parts d rs)
    as (d1 & d2 & E1 & E2 & I2); try done; [apply in_i32_i32..|].
  rewrite E1. cbn [mbind option_bind]. rewrite E2. cbn [mbind option_bind].
  destruct (delete_parts_succeeds (tb_table_id t) keys (sq_snapshots q) d2 I2 Hn) as (d3 & E3 & I3).
  rewrite E3. cbn [mbind option_bind]. unfold pointer_update. rewrite Hn.
  rewrite check_integrity by (by apply integrity_set_current). by eexists.
Qed.

(** ** The tables after a commit *)

Lemma find_live_perm' d d' name : db_tables d = db_tables d' -> find_live d name = find_live d' name.
Proof. intros Et. unfold find_live. by rewrite Et. Qed.

Lemma find_live_set_current name snap now d name' :
  find_live (update_tables name (set_current snap now) d) name'
  = if decide (name' = name) then set_current snap now <$> find_live d name else find_live d name'.
Proof.
  unfold find_live, update_tables, map_where. cbn.
  assert (forall n (t : table_rec),
    live n (if live name t then set_current snap now t else t) = live n t) as Hl by (intros n t; by destruct (live name t)).
  induction (db_tables d) as [|t l IH]; [by case_decide|]. rewrite fmap_cons, !filter_bool_cons, Hl.
  case_decide as Hn.
  - subst name'. destruct (live name t) eqn:E; [done|exact IH].
  - destruct (live name' t) eqn:E; [|exact IH]. cbn. destruct (live name t) eqn:E'; [|done].
    apply Is_true_true, live_true in E as [? _]. apply Is_true_true, live_true in E' as [? _]. congruence.
Qed.

Section commit.
Context (now1 now2 : Z) (q : Seqs) (t : table_rec) (parent : Z) (op : string) (parts : list PartitionRow)
  (keys : list string) (d d' : Db).
Context (Hok : db_ok q d) (Hl : find_live d (tb_table_name t) = Some t).
Context (E : commit_change now1 now2 (sq_snapshots q) (sq_partitions q) t parent op parts keys d = Some d').

Lemma commit_find_live name :
  find_live d' name = if decide (name = tb_table_name t) then Some (set_current (sq_snapshots q) now2 t) else find_live d name.
Proof using E Hl.
  destruct (commit_shape _ _ _ _ _ _ _ _ _ _ _ E) as (rs & _ & _ & Ht & _).
  rewrite (find_live_perm' d' (update_tables (tb_table_name t) (set_current (sq_snapshots q) now2) d)) by done.
  rewrite find_live_set_current. by rewrite Hl.
Qed.

Lemma commit_rows : exists rs,
  new_parts (sq_partitions q) (tb_table_id t) (sq_snapshots q) parts = Some rs
  /\ db_partitions d' = marked (tb_table_id t) (sq_snapshots q) keys (db_partitions d ++ rs)
  /\ NoDup (pa_partition_id <$> db_partitions d ++ rs) /\ in_i64 (sq_snapshots q) = true.
Proof using E.
  destruct (commit_shape _ _ _ _ _ _ _ _ _ _ _ E) as (rs & Hrs & Hp & _ & _ & _ & _ & Hc & Hn).
  exists rs. split; [done|]. split; [done|]. split; [|done].
  apply constraints_integrity, in_partition_ids in Hc. rewrite Hp in Hc. unfold marked in Hc.
  by rewrite map_where_fmap in Hc.
Qed.

Lemma commit_elsewhere name s :
  name <> tb_table_name t -> partitions_at d' name s = partitions_at d name s.
Proof using E Hl Hok.
  intros Hne. unfold partitions_at. rewrite commit_find_live, decide_False by done.
  destruct (find_live d name) as [t'|] eqn:Et; [|done]. cbn [mbind option_bind].
  destruct (in_i64 s); [|done]. f_equal. destruct commit_rows as (rs & Hrs & Hp & Hn & _).
  change (rows_at (db_partitions d') (tb_table_id t') s = rows_at (db_partitions d) (tb_table_id t') s).
  rewrite Hp. eapply rows_elsewhere; [done..|]. intros Eid.
  apply find_live_spec in Et as (Ht' & En & _). apply find_live_spec in Hl as (Ht & _).
  destruct Hok as [I%constraints_integrity _].
  pose proof (NoDup_fmap_elem tb_table_id _ t' t (in_table_ids _ I) Ht' Ht Eid). congruence.
Qed.

Lemma commit_before s :
  s < sq_snapshots q -> partitions_at d' (tb_table_name t) s = partitions_at d (tb_table_name t) s.
Proof using E Hl.
  intros Hs. unfold partitions_at. rewrite commit_find_live, decide_True by done. rewrite Hl. cbn [mbind option_bind].
  destruct (in_i64 s); [|done]. f_equal. destruct commit_rows as (rs & Hrs & Hp & Hn & _).
  change (rows_at (db_partitions d') (tb_table_id t) s = rows_at (db_partitions d) (tb_table_id t) s).
  rewrite Hp. by eapply rows_before.
Qed.

Lemma commit_after s rows :
  (forall p z, p ∈ db_partitions d -> pa_deleted_snapshot_id p = Some z -> z < sq_snapshots q) ->
  sq_snapshots q <= s -> partitions_at d (tb_table_name t) s = Some rows ->
  exists rs, new_parts (sq_partitions q) (tb_table_id t) (sq_snapshots q) parts = Some rs
    /\ partitions_at d' (tb_table_name t) s = Some (filter (fun r => kept keys r) (rows ++ (part_row <$> rs))).
Proof using E Hl Hok.
  intros Hdel Hs. unfold partitions_at. rewrite commit_find_live, decide_True by done. rewrite Hl. cbn [mbind option_bind].
  destruct (in_i64 s); [|done]. intros [= <-]. destruct commit_rows as (rs & Hrs & Hp & Hn & _).
  exists rs. split; [done|]. f_equal.
  change (rows_at (db_partitions d') (tb_table_id t) s
    = filter (fun r => kept keys r) (rows_at (db_partitions d) (tb_table_id t) s ++ (part_row <$> rs))).
  rewrite Hp. eapply rows_after; [done..| |done]. intros p Hp'. by apply Hok.
Qed.

Lemma commit_current : current_snapshot d' (tb_table_name t) = sq_snapshots q \/ sq_snapshots q < 0.
Proof using E Hl.
  destruct (Z.ltb_spec (sq_snapshots q) 0); [by right|left]. destruct commit_rows as (rs & _ & _ & _ & Hn).
  unfold current_snapshot. rewrite commit_find_live, decide_True by done. cbn. by apply u64_in_i64.
Qed.
End commit.
End changes.
