(* ===== verification/ConnectionPool.v ===== *)
(** * The connection pool (src/db/connection_pool.h, connection_pool.cpp)

    The queue of idle connections and the handles that own the others. Every
    member function runs under [mutex_], so each is one step on the pool and
    on the state of libpq; a thread that finds the queue empty waits. Handles
    are objects with an identity that are moved and destroyed; the second half
    of the file lets threads do so in any order. *)
From S2P Require Import Prelude Cxx Sql Database PgService RefServer.

Record ConnectionPool := mkPool {
  conn_string_ : string;
  pool_size_ : Z;
  available_connections_ : list PGconn }.

(** [pool_] is the pool ([true]) or null. *)
Record ConnectionHandle := mkHandle { conn_ : option PGconn; pool_ : bool }.

Definition null_handle : ConnectionHandle := mkHandle None false.

Inductive acquire_res :=
  | Waits
  | Got (h : ConnectionHandle)
  | Throws (e : cxx_exn).

Definition set_available (q : list PGconn) (p : ConnectionPool) : ConnectionPool :=
  mkPool (conn_string_ p) (pool_size_ p) q.

Definition available (p : ConnectionPool) : Z := Z.of_nat (length (available_connections_ p)).
Definition total (p : ConnectionPool) : Z := pool_size_ p.

(** [release(conn)] *)
Definition release (conn : option PGconn) (p : ConnectionPool) : ConnectionPool :=
  match conn with
  | None => p
  | Some c => set_available (available_connections_ p ++ [c]) p
  end.

Section pool.
Context {P : PgService}.

Definition create_connection (conn_string : string) (s : pg) : option PGconn * pg :=
  let '(conn, s1) := PQconnectdb (c_str conn_string) s in
  if bool_decide (PQstatus conn s1 = CONNECTION_OK) then (Some conn, s1)
  else (None, PQfinish conn s1).

Definition validate_connection (conn : PGconn) (s : pg) : bool * pg :=
  if bool_decide (PQstatus conn s = CONNECTION_OK) then (true, s)
  else let s1 := PQreset conn s in (bool_decide (PQstatus conn s1 = CONNECTION_OK), s1).

(** The constructor: the loop that fills the queue. *)
Fixpoint fill (n : nat) (p : ConnectionPool) (s : pg) : ConnectionPool * pg :=
  match n with
  | O => (p, s)
  | S n' =>
      let '(conn, s1) := create_connection (conn_string_ p) s in
      fill n' (release conn p) s1
  end.

Definition make_pool (conn_string : string) (pool_size : Z) (s : pg) : ConnectionPool * pg :=
  fill (Z.to_nat pool_size) (mkPool conn_string pool_size []) s.

(** The destructor. *)
Definition destroy_pool (p : ConnectionPool) (s : pg) : pg :=
  foldl (fun s c => PQfinish c s) s (available_connections_ p).

Definition acquire (p : ConnectionPool) (s : pg) : acquire_res * ConnectionPool * pg :=
  match available_connections_ p with
  | [] => (Waits, p, s)
  | conn :: rest =>
      let p1 := set_available rest p in
      let '(ok, s1) := validate_connection conn s in
      if ok then (Got (mkHandle (Some conn) true), p1, s1)
      else
        let '(conn', s2) := create_connection (conn_string_ p) (PQfinish conn s1) in
        match conn' with
        | None => (Throws (RuntimeError "ConnectionPool: failed to create replacement connection"), p1, s2)
        | Some c => (Got (mkHandle (Some c) true), p1, s2)
        end
  end.

(** [timed_out]: the timeout has elapsed when the queue is looked at. *)
Definition acquire_with_timeout (timed_out : bool) (p : ConnectionPool) (s : pg)
    : acquire_res * ConnectionPool * pg :=
  match available_connections_ p with
  | [] => if timed_out then (Got null_handle, p, s) else (Waits, p, s)
  | conn :: rest =>
      let p1 := set_available rest p in
      let '(ok, s1) := validate_connection conn s in
      if ok then (Got (mkHandle (Some conn) true), p1, s1)
      else
        let '(conn', s2) := create_connection (conn_string_ p) (PQfinish conn s1) in
        (Got (mkHandle conn' true), p1, s2)
  end.

(** ** Handles *)

(** The destructor's effect on the pool. *)
Definition give_back (h : ConnectionHandle) (p : ConnectionPool) : ConnectionPool :=
  if pool_ h then release (conn_ h) p else p.

(** The state the threads share: the pool, libpq, the handles that live. *)
Record system := mkSys {
  sys_pool : ConnectionPool;
  sys_pg : pg;
  handles : gmap nat ConnectionHandle }.

(** [ConnectionHandle h(std::move(h'))] *)
Definition move_construct (h h' : nat) (hs : gmap nat ConnectionHandle) : gmap nat ConnectionHandle :=
  match hs !! h' with
  | Some x => <[h := x]> (<[h' := null_handle]> hs)
  | None => hs
  end.

(** [h = std::move(h')] *)
Definition move_assign (h h' : nat) (p : ConnectionPool) (hs : gmap nat ConnectionHandle)
    : ConnectionPool * gmap nat ConnectionHandle :=
  match hs !! h, hs !! h' with
  | Some old, Some x =>
      if decide (h = h') then (p, hs)
      else (give_back old p, <[h := x]> (<[h' := null_handle]> hs))
  | _, _ => (p, hs)
  end.

Inductive pool_step : system -> system -> Prop :=
  | step_acquire h p s hs x p' s' :
      hs !! h = None -> acquire p s = (Got x, p', s') ->
      pool_step (mkSys p s hs) (mkSys p' s' (<[h := x]> hs))
  | step_acquire_throws p s hs e p' s' :
      acquire p s = (Throws e, p', s') -> pool_step (mkSys p s hs) (mkSys p' s' hs)
  | step_acquire_timeout b h p s hs x p' s' :
      hs !! h = None -> acquire_with_timeout b p s = (Got x, p', s') ->
      pool_step (mkSys p s hs) (mkSys p' s' (<[h := x]> hs))
  | step_move_construct h h' p s hs :
      hs !! h = None -> is_Some (hs !! h') ->
      pool_step (mkSys p s hs) (mkSys p s (move_construct h h' hs))
  | step_move_assign h h' p s hs p' hs' :
      is_Some (hs !! h) -> is_Some (hs !! h') -> move_assign h h' p hs = (p', hs') ->
      pool_step (mkSys p s hs) (mkSys p' s hs')
  | step_destroy h p s hs x :
      hs !! h = Some x -> pool_step (mkSys p s hs) (mkSys (give_back x p) s (delete h hs))
  (** statements run on the connections, which opens and closes none *)
  | step_use p s hs s' :
      dom (sessions (abs s')) = dom (sessions (abs s)) -> pool_step (mkSys p s hs) (mkSys p s' hs).

(** The connections the handles own. *)
Definition held (hs : gmap nat ConnectionHandle) : list PGconn :=
  omap (fun e => conn_ e.2) (map_to_list hs).

(** What the server starts with. *)
Definition started (conn_string : string) (pool_size : Z) (s0 : pg) : system :=
  let '(p, s) := make_pool conn_string pool_size s0 in mkSys p s ∅.

Record pool_inv (y : system) : Prop := {
  pi_nodup : NoDup (available_connections_ (sys_pool y) ++ held (handles y));
  pi_open : forall c, c ∈ available_connections_ (sys_pool y) ++ held (handles y) ->
      is_Some (sessions (abs (sys_pg y)) !! c);
  pi_bound : Z.of_nat (length (available_connections_ (sys_pool y) ++ held (handles y)))
      <= Z.max 0 (pool_size_ (sys_pool y));
  pi_handles : forall h x, handles y !! h = Some x -> pool_ x = false -> conn_ x = None }.

End pool.

(** ** Facts *)

Section facts.
Context {P : PgService}.

Lemma held_insert h x hs : hs !! h = None -> held (<[h := x]> hs) ≡ₚ option_list (conn_ x) ++ held hs.
Proof.
  intros Hh. unfold held. rewrite map_to_list_insert by done. simpl. by destruct (conn_ x).
Qed.

Lemma held_delete h x hs : hs !! h = Some x -> held hs ≡ₚ option_list (conn_ x) ++ held (delete h hs).
Proof.
  intros Hh. rewrite <- (insert_delete_id hs h x) at 1 by done.
  by rewrite held_insert by (by rewrite lookup_delete_eq).
Qed.

Lemma held_overwrite h x y hs :
  hs !! h = Some y -> option_list (conn_ y) ++ held (<[h := x]> hs) ≡ₚ option_list (conn_ x) ++ held hs.
Proof.
  intros Hh. rewrite <- (insert_delete_eq hs h x), held_insert by (by rewrite lookup_delete_eq).
  rewrite (held_delete h y hs Hh). by rewrite !app_assoc, (Permutation_app_comm (option_list (conn_ y))).
Qed.

Lemma give_back_available x p :
  (pool_ x = false -> conn_ x = None) ->
  available_connections_ (give_back x p) = available_connections_ p ++ option_list (conn_ x).
Proof.
  unfold give_back, release. intros Hx.
  destruct (pool_ x), (conn_ x); simpl; rewrite ?app_nil_r; try done. by specialize (Hx eq_refl).
Qed.

Lemma give_back_size x p : pool_size_ (give_back x p) = pool_size_ p.
Proof. unfold give_back, release. by destruct (pool_ x), (conn_ x). Qed.

(** Moving a connection between handles. *)
Lemma held_move_construct h h' hs :
  hs !! h = None -> is_Some (hs !! h') -> held (move_construct h h' hs) ≡ₚ held hs.
Proof.
  intros Hh [x Hx]. unfold move_construct. rewrite Hx.
  assert (h <> h') by (intros ->; congruence).
  rewrite held_insert by (by rewrite lookup_insert_ne).
  by rewrite <- (held_overwrite h' null_handle x hs Hx).
Qed.

Lemma held_move_assign h h' hs old x :
  hs !! h = Some old -> hs !! h' = Some x -> h <> h' ->
  option_list (conn_ old) ++ held (<[h := x]> (<[h' := null_handle]> hs)) ≡ₚ held hs.
Proof.
  intros Hh Hx Hne. rewrite held_overwrite by (by rewrite lookup_insert_ne).
  by rewrite (held_overwrite h' null_handle x hs Hx).
Qed.

Context `{!PgLaws P}.

Lemma create_connection_spec str s o s' :
  create_connection str s = (o, s') ->
  dom (sessions (abs s)) ⊆ dom (sessions (abs s'))
  /\ forall c, o = Some c -> sessions (abs s) !! c = None /\ c ∈ dom (sessions (abs s'))
       /\ PQstatus c s' = CONNECTION_OK.
Proof.
  unfold create_connection. destruct (PQconnectdb _ s) as [c s1] eqn:E.
  destruct (connect_law _ _ _ _ E) as (Hn & x & _ & Ea).
  case_bool_decide as Hst; intros [= <- <-].
  - rewrite Ea. cbn [sessions set_session]. rewrite dom_insert_L. split; [set_solver|].
    intros c' [= ->]. split; [done|]. split; [set_solver|done].
  - rewrite finish_law, Ea. cbn [sessions set_session]. rewrite delete_insert_id by done. done.
Qed.

Lemma validate_connection_spec c s b s' :
  is_Some (sessions (abs s) !! c) -> validate_connection c s = (b, s') ->
  dom (sessions (abs s')) = dom (sessions (abs s)) /\ (b = true -> PQstatus c s' = CONNECTION_OK).
Proof.
  intros Hc. unfold validate_connection. case_bool_decide as Hst; intros [= <- <-]; [done|].
  destruct (reset_law c s Hc) as (x & _ & Ea). split; [|by intros ?%bool_decide_eq_true].
  rewrite Ea. cbn [sessions set_session]. rewrite dom_insert_L.
  assert (c ∈ dom (sessions (abs s))) by (by apply elem_of_dom). set_solver.
Qed.

(** A pooled connection, checked and perhaps replaced. *)
Definition checked (str : string) (c : PGconn) (s : pg) : option PGconn * pg :=
  let '(ok, s1) := validate_connection c s in
  if ok then (Some c, s1) else create_connection str (PQfinish c s1).

Lemma checked_spec str c s o s' :
  is_Some (sessions (abs s) !! c) -> checked str c s = (o, s') ->
  dom (sessions (abs s)) ∖ {[c]} ⊆ dom (sessions (abs s'))
  /\ forall c', o = Some c' -> (c' ∉ dom (sessions (abs s)) ∖ {[c]}) /\ c' ∈ dom (sessions (abs s'))
       /\ PQstatus c' s' = CONNECTION_OK.
Proof.
  intros Hc. unfold checked. destruct (validate_connection c s) as [ok s1] eqn:Ev.
  destruct (validate_connection_spec _ _ _ _ Hc Ev) as [Hd Hok]. destruct ok.
  - intros [= <- <-]. rewrite Hd. split; [set_solver|]. intros c' [= <-].
    split; [set_solver|]. split; [by apply elem_of_dom|by apply Hok].
  - intros E. destruct (create_connection_spec _ _ _ _ E) as [Hsub Hnew].
    rewrite finish_law in Hsub, Hnew. cbn [sessions] in *. rewrite dom_delete_L in Hsub.
    rewrite Hd in Hsub. split; [done|]. intros c' Ho. destruct (Hnew c' Ho) as (Hn & Hin & Hst).
    split; [|done]. rewrite <- Hd, <- dom_delete_L, not_elem_of_dom. done.
Qed.

Lemma acquire_checked p s :
  acquire p s =
    match available_connections_ p with
    | [] => (Waits, p, s)
    | c :: rest =>
        let '(o, s') := checked (conn_string_ p) c s in
        (match o with
         | Some c' => Got (mkHandle (Some c') true)
         | None => Throws (RuntimeError "ConnectionPool: failed to create replacement connection")
         end, set_available rest p, s')
    end.
Proof.
  unfold acquire, checked. destruct (available_connections_ p) as [|c rest]; [done|].
  destruct (validate_connection c s) as [[] s1]; [done|]. by destruct (create_connection _ _) as [[] s2].
Qed.

Lemma acquire_with_timeout_checked b p s :
  acquire_with_timeout b p s =
    match available_connections_ p with
    | [] => (if b then Got null_handle else Waits, p, s)
    | c :: rest =>
        let '(o, s') := checked (conn_string_ p) c s in (Got (mkHandle o true), set_available rest p, s')
    end.
Proof.
  unfold acquire_with_timeout, checked. destruct (available_connections_ p) as [|c rest]; [by destruct b|].
  destruct (validate_connection c s) as [[] s1]; [done|]. by destruct (create_connection _ _) as [[] s2].
Qed.

(** ** The invariant is inductive *)

Lemma inv_checked p s hs c rest o s' hs' :
  pool_inv (mkSys p s hs) -> available_connections_ p = c :: rest ->
  checked (conn_string_ p) c s = (o, s') -> held hs' ≡ₚ option_list o ++ held hs ->
  (forall h x, hs' !! h = Some x -> pool_ x = false -> conn_ x = None) ->
  pool_inv (mkSys (set_available rest p) s' hs').
Proof.
  intros [Hn Ho Hb Hh] Ea E Eh Hh'. cbn [sys_pool sys_pg handles] in *. rewrite Ea in Hn, Ho, Hb. simpl in Hn.
  apply NoDup_cons in Hn as [Hc Hn].
  destruct (checked_spec (conn_string_ p) c s o s') as [Hd Hnew]; [apply Ho; by left|done|].
  assert (rest ++ held hs' ≡ₚ option_list o ++ (rest ++ held hs)) as Ep.
  { rewrite Eh, !(assoc_L (++)). f_equiv. apply (comm (++)). }
  assert (forall c', c' ∈ rest ++ held hs -> c' ∈ dom (sessions (abs s)) ∖ {[c]}) as Hin.
  { intros c' Hc'. apply elem_of_difference. split; [apply elem_of_dom, Ho; by right|].
    intros ->%elem_of_singleton. done. }
  split; cbn [sys_pool sys_pg handles set_available available_connections_ pool_size_]; [| | |done].
  - rewrite Ep. destruct o as [c'|]; [|done]. simpl. apply NoDup_cons. split; [|done].
    intros Hc'%Hin. by destruct (Hnew c' eq_refl).
  - intros c'. rewrite Ep, elem_of_app. intros [Hc'|Hc'].
    + destruct o as [c''|]; [|by apply not_elem_of_nil in Hc'].
      apply list_elem_of_singleton in Hc' as ->. by apply elem_of_dom, Hnew.
    + by apply elem_of_dom, Hd, Hin.
  - rewrite Ep. simpl in Hb. destruct o; simpl; lia.
Qed.

Lemma inv_perm p s hs p' s' hs' :
  pool_inv (mkSys p s hs) ->
  available_connections_ p' ++ held hs' ≡ₚ available_connections_ p ++ held hs ->
  dom (sessions (abs s')) = dom (sessions (abs s)) -> pool_size_ p' = pool_size_ p ->
  (forall h x, hs' !! h = Some x -> pool_ x = false -> conn_ x = None) ->
  pool_inv (mkSys p' s' hs').
Proof.
  intros [Hn Ho Hb Hh] Ep Ed Es Hh'. split; cbn [sys_pool sys_pg handles] in *; [..|done].
  - by rewrite Ep.
  - intros c. rewrite Ep. intros Hc%Ho. apply elem_of_dom. rewrite Ed. by apply elem_of_dom.
  - by rewrite Ep, Es.
Qed.

Lemma handles_insert h (x : ConnectionHandle) (hs : gmap nat ConnectionHandle) :
  (pool_ x = false -> conn_ x = None) ->
  (forall h x, hs !! h = Some x -> pool_ x = false -> conn_ x = None) ->
  forall h' y, <[h := x]> hs !! h' = Some y -> pool_ y = false -> conn_ y = None.
Proof. intros Hx Hh h' y [[<- <-]|[_ Hy]]%lookup_insert_Some; [done|by eapply Hh]. Qed.

Lemma inv_step y y' : pool_inv y -> pool_step y y' -> pool_inv y'.
Proof.
  intros I St. revert I. destruct St as [h p s hs x p' s' Hh E|p s hs e p' s' E|b h p s hs x p' s' Hh E|h h' p s hs Hh Hh'|h h' p s hs p' hs' [old Ho] [x Hx] E|h p s hs x Hx|p s hs s' Ed];
    intros I; pose proof (pi_handles _ I) as Hhs; cbn [handles] in Hhs.
  - rewrite acquire_checked in E. destruct (available_connections_ p) as [|c rest] eqn:Ea; [done|].
    destruct (checked _ _ _) as [o s1] eqn:Ec. destruct o as [c'|]; [|done]. injection E as <- <- <-.
    eapply inv_checked; [done..|by rewrite held_insert|by apply handles_insert].
  - rewrite acquire_checked in E. destruct (available_connections_ p) as [|c rest] eqn:Ea; [done|].
    destruct (checked _ _ _) as [o s1] eqn:Ec. destruct o as [c'|]; [done|]. injection E as <- <- <-.
    by eapply inv_checked.
  - rewrite acquire_with_timeout_checked in E. destruct (available_connections_ p) as [|c rest] eqn:Ea.
    + destruct b; [|done]. injection E as <- <- <-.
      eapply inv_perm; [done|by rewrite held_insert|done..|by apply handles_insert].
    + destruct (checked _ _ _) as [o s1] eqn:Ec. injection E as <- <- <-.
      eapply inv_checked; [done..|by rewrite held_insert|by apply handles_insert].
  - eapply inv_perm; [done|by rewrite held_move_construct|done..|].
    unfold move_construct. destruct Hh' as [x Hx]. rewrite Hx.
    apply handles_insert; [by eapply Hhs|]. by apply handles_insert.
  - unfold move_assign in E. rewrite Ho, Hx in E. case_decide as Hne; [by injection E as <- <-|].
    injection E as <- <-. eapply inv_perm; [done| |done|by rewrite give_back_size|].
    + rewrite give_back_available by (by eapply Hhs). rewrite <- (assoc_L (++)).
      by rewrite (held_move_assign h h' hs old x).
    + apply handles_insert; [by eapply Hhs|]. by apply handles_insert.
  - eapply inv_perm; [done| |done|by rewrite give_back_size|].
    + rewrite give_back_available by (by eapply Hhs). rewrite <- (assoc_L (++)). by rewrite <- held_delete.
    + intros h' x' [_ Hx']%lookup_delete_Some. by eapply Hhs.
  - by eapply inv_perm.
Qed.

Lemma inv_fill n p s :
  pool_inv (mkSys p s ∅) -> available p + Z.of_nat n <= Z.max 0 (pool_size_ p) ->
  let '(p', s') := fill n p s in pool_inv (mkSys p' s' ∅).
Proof.
  revert p s. induction n as [|n IH]; intros p s I Hb; [done|]. cbn [fill].
  destruct (create_connection (conn_string_ p) s) as [o s1] eqn:E.
  destruct (create_connection_spec _ _ _ _ E) as [Hsub Hnew]. unfold available in Hb. apply IH.
  - destruct I as [Hn Ho Hbd Hh]. cbn [sys_pool sys_pg handles] in *. unfold held in *.
    rewrite map_to_list_empty in *. simpl in *. rewrite app_nil_r in *.
    assert (available_connections_ (release o p) = available_connections_ p ++ option_list o) as Ea
      by (destruct o; simpl; by rewrite ?app_nil_r).
    split; cbn [sys_pool sys_pg handles]; unfold held; rewrite ?map_to_list_empty; simpl; rewrite ?app_nil_r, ?Ea; [| | |done].
    + apply NoDup_app. split; [done|]. split; [|destruct o; [apply NoDup_singleton|constructor]].
      intros c Hc Hin. destruct o as [c'|]; [|by apply not_elem_of_nil in Hin].
      apply list_elem_of_singleton in Hin as ->. destruct (Hnew c' eq_refl) as [Hnone _].
      destruct (Ho c' Hc). congruence.
    + intros c [Hc|Hc]%elem_of_app.
      * apply elem_of_dom, Hsub, elem_of_dom. by apply Ho.
      * destruct o as [c'|]; [|by apply not_elem_of_nil in Hc].
        apply list_elem_of_singleton in Hc as ->. by apply elem_of_dom, Hnew.
    + rewrite length_app. destruct o; simpl; lia.
  - unfold available. destruct o; simpl in *; rewrite ?length_app; simpl; lia.
Qed.

Lemma started_inv str n s0 y : rtc pool_step (started str n s0) y -> pool_inv y.
Proof.
  unfold started, make_pool. intros R.
  assert (let '(p, s) := fill (Z.to_nat n) (mkPool str n []) s0 in pool_inv (mkSys p s ∅)) as I.
  { apply inv_fill; [|unfold available; simpl; lia].
    split; unfold held; simpl; rewrite ?map_to_list_empty; simpl.
    - constructor.
    - by intros c ?%not_elem_of_nil.
    - lia.
    - by intros h x; rewrite lookup_empty. }
  destruct (fill _ _ _) as [p s].
  remember (mkSys p s ∅) as y0 eqn:E. clear E. induction R; [done|]. eauto using inv_step.
Qed.

Definition connections (y : system) : nat :=
  length (available_connections_ (sys_pool y) ++ held (handles y)).

Lemma available_after_checked p s hs c rest o s' hs' :
  available_connections_ p = c :: rest -> held hs' ≡ₚ option_list o ++ held hs ->
  (connections (mkSys (set_available rest p) s' hs') <= connections (mkSys p s hs))%nat.
Proof.
  intros Ea Eh. unfold connections. cbn [sys_pool handles set_available available_connections_].
  rewrite Ea, !length_app, Eh, length_app. destruct o; simpl; lia.
Qed.

(** No step creates a connection beyond those there were. *)
Lemma connections_step y y' : pool_inv y -> pool_step y y' -> (connections y' <= connections y)%nat.
Proof.
  intros I St. revert I. destruct St as [h p s hs x p' s' Hh E|p s hs e p' s' E|b h p s hs x p' s' Hh E|h h' p s hs Hh Hh'|h h' p s hs p' hs' [old Ho] [x Hx] E|h p s hs x Hx|p s hs s' Ed];
    intros I; pose proof (pi_handles _ I) as Hhs; cbn [handles] in Hhs.
  - rewrite acquire_checked in E. destruct (available_connections_ p) as [|c rest] eqn:Ea; [done|].
    destruct (checked _ _ _) as [[c'|] s1] eqn:Ec; [|done]. injection E as <- <- <-.
    eapply (available_after_checked p s hs c rest (Some c')); [done|by rewrite held_insert].
  - rewrite acquire_checked in E. destruct (available_connections_ p) as [|c rest] eqn:Ea; [done|].
    destruct (checked _ _ _) as [[c'|] s1] eqn:Ec; [done|]. injection E as <- <- <-.
    by eapply (available_after_checked p s hs c rest None).
  - rewrite acquire_with_timeout_checked in E. destruct (available_connections_ p) as [|c rest] eqn:Ea.
    + destruct b; [|done]. injection E as <- <- <-. unfold connections. cbn [sys_pool handles].
      by rewrite !length_app, held_insert by done.
    + destruct (checked _ _ _) as [o s1] eqn:Ec. injection E as <- <- <-.
      eapply (available_after_checked p s hs c rest o); [done|by rewrite held_insert].
  - unfold connections. cbn [sys_pool handles]. by rewrite !length_app, held_move_construct.
  - unfold move_assign in E. rewrite Ho, Hx in E. unfold connections. cbn [sys_pool handles].
    case_decide as Hne; injection E as <- <-; [done|].
    rewrite give_back_available by (by eapply Hhs). rewrite !length_app.
    rewrite <- (held_move_assign h h' hs old x) by done. rewrite length_app. lia.
  - unfold connections. cbn [sys_pool handles]. rewrite give_back_available by (by eapply Hhs).
    rewrite (held_delete h x hs) by done. rewrite !length_app. lia.
  - done.
Qed.

(** ** Properties *)

(** C27: whatever threads do with the pool and with the handles (acquire,
    fail to acquire, time out, move, assign, destroy, in any order), a
    connection has one owner: no two handles hold the same one, a held one is
    not in the queue, the queue has no duplicates, and together they are never
    more than [pool_size] connections. *)
Theorem connections_have_one_owner str n s0 y :
  rtc pool_step (started str n s0) y ->
  NoDup (available_connections_ (sys_pool y))
  /\ (forall h x c, handles y !! h = Some x -> conn_ x = Some c ->
        (c ∉ available_connections_ (sys_pool y))
        /\ forall h' x', handles y !! h' = Some x' -> conn_ x' = Some c -> h' = h)
  /\ Z.of_nat (connections y) <= Z.max 0 (pool_size_ (sys_pool y)).
Proof.
  intros R%started_inv. destruct R as [Hn Ho Hb Hh].
  pose proof (proj1 (NoDup_app _ _) Hn) as (Hna & Hdisj & Hnh).
  split; [done|]. split; [|done]. intros h x c Hx Hc. split.
  - intros Hin. apply (Hdisj c Hin). rewrite (held_delete h x) by done. rewrite Hc. by left.
  - intros h' x' Hx' Hc'. destruct (decide (h' = h)) as [|Hne]; [done|]. exfalso.
    rewrite (held_delete h x) in Hnh by done. rewrite Hc in Hnh. apply NoDup_cons in Hnh as [Hnot _].
    apply Hnot. rewrite (held_delete h' x') by (by rewrite lookup_delete_ne). rewrite Hc'. by left.
Qed.

(** C28: the connection [acquire] hands out is open and its status is
    [CONNECTION_OK], even when the one at the front of the queue was broken
    and had to be reset or replaced; and it is not one of those in the queue
    or in another handle. *)
Theorem acquire_usable str n s0 p s hs x p' s' :
  rtc pool_step (started str n s0) (mkSys p s hs) -> acquire p s = (Got x, p', s') ->
  exists c, x = mkHandle (Some c) true /\ PQstatus c s' = CONNECTION_OK
    /\ is_Some (sessions (abs s') !! c)
    /\ (c ∉ (available_connections_ p' ++ held hs))
    /\ available p' = available p - 1.
Proof.
  intros R%started_inv E. rewrite acquire_checked in E. unfold available.
  destruct (available_connections_ p) as [|c0 rest] eqn:Ea; [done|].
  destruct (checked _ _ _) as [[c|] s1] eqn:Ec; [|done]. injection E as <- <- <-.
  destruct R as [Hn Ho Hb Hh]. cbn [sys_pool sys_pg handles] in *. rewrite Ea in Hn, Ho.
  destruct (checked_spec (conn_string_ p) c0 s (Some c) s1) as [Hd Hnew]; [apply Ho; by left|done|].
  destruct (Hnew c eq_refl) as (Hc & Hin & Hst). apply elem_of_dom in Hin.
  exists c. cbn [available_connections_ set_available length]. split_and!; [done|done|done| |lia].
  intros Hc'. apply Hc, elem_of_difference. split; [apply elem_of_dom, Ho; by right|].
  intros ->%elem_of_singleton. simpl in Hn. apply NoDup_cons in Hn as [Hn _]. done.
Qed.

(** C29: connections that could not be replaced are lost for good: no step
    makes up for them, and once none is left every later [acquire] waits for
    ever, whatever the threads do and although the database may be back. *)
Theorem drained_pool_waits_forever str n s0 y y' :
  rtc pool_step (started str n s0) y -> connections y = 0%nat -> rtc pool_step y y' ->
  acquire (sys_pool y') (sys_pg y') = (Waits, sys_pool y', sys_pg y').
Proof.
  intros R%started_inv H0 R'.
  assert (connections y' = 0%nat) as E.
  { induction R' as [|y1 y2 y3 St _ IH]; [done|]. apply IH; [by eapply inv_step|].
    pose proof (connections_step y1 y2 R St). lia. }
  unfold connections in E. rewrite length_app in E. unfold acquire.
  by destruct (available_connections_ (sys_pool y')).
Qed.
End facts.

(** ** A run that loses a connection *)

Section example.
#[local] Existing Instance faulty_service.

Definition after_acquire (h : nat) (y : system) : system :=
  let '(r, p, s) := acquire (sys_pool y) (sys_pg y) in
  mkSys p s match r with Got x => <[h := x]> (handles y) | _ => handles y end.

Lemma after_acquire_step h (y : system) :
  handles y !! h = None -> (acquire (sys_pool y) (sys_pg y)).1.1 <> Waits -> pool_step y (after_acquire h y).
Proof.
  destruct y as [p s hs]. unfold after_acquire. cbn [sys_pool sys_pg handles]. intros Hh Hw.
  destruct (acquire p s) as [[[|x|e] p'] s'] eqn:E; [done| |]; econstructor; eassumption.
Qed.

Definition after_use (c : PGconn) (y : system) : system :=
  mkSys (sys_pool y) (PQexec c "BEGIN" (sys_pg y)).2 (handles y).
Definition after_destroy (h : nat) (y : system) : system :=
  match handles y !! h with
  | Some x => mkSys (give_back x (sys_pool y)) (sys_pg y) (delete h (handles y))
  | None => y
  end.

(** The server answers the first connection, then goes away. *)
Definition lossy : ref_state := ref_start empty_db first_seqs [] [Runs; Lost; Lost; Lost; Runs].
Definition pool0 : system := started "dbname=metadata" 1 lossy.
Definition pool1 : system := after_acquire 0 pool0.
Definition pool2 : system := after_destroy 0 (after_use 0 pool1).
Definition pool3 : system := after_acquire 1 pool2.

Lemma pool1_reachable : rtc pool_step pool0 pool1.
Proof. apply rtc_once, after_acquire_step; [reflexivity|]. vm_compute. discriminate. Qed.

Lemma after_use_step c y :
  dom (sessions (abs (sys_pg (after_use c y)))) = dom (sessions (abs (sys_pg y))) -> pool_step y (after_use c y).
Proof. destruct y as [p s hs]. apply step_use. Qed.

Lemma after_destroy_step h y : is_Some (handles y !! h) -> pool_step y (after_destroy h y).
Proof.
  destruct y as [p s hs]. intros [x Hx]. unfold after_destroy. rewrite Hx. by apply step_destroy.
Qed.

Lemma pool3_reachable : rtc pool_step pool0 pool3.
Proof.
  transitivity pool1; [apply pool1_reachable|].
  apply (rtc_l _ _ (after_use 0 pool1)); [apply after_use_step; vm_compute; reflexivity|].
  apply (rtc_l _ _ pool2); [apply after_destroy_step; vm_compute; eexists; reflexivity|].
  apply rtc_once, after_acquire_step; vm_compute; [reflexivity|discriminate].
Qed.

Lemma connections_have_one_owner_witness :
  (0%nat : PGconn) ∉ available_connections_ (sys_pool pool1).
Proof.
  pose proof (@connections_have_one_owner faulty_service faulty_service_laws _ _ _ _ pool1_reachable) as (_ & H & _).
  apply (H 0%nat (mkHandle (Some 0%nat) true) 0%nat); vm_compute; reflexivity.
Defined.

Lemma acquire_usable_witness :
  exists c p' s', acquire (sys_pool pool0) (sys_pg pool0) = (Got (mkHandle (Some c) true), p', s')
    /\ PQstatus c s' = CONNECTION_OK.
Proof.
  destruct (acquire (sys_pool pool0) (sys_pg pool0)) as [[r p'] s'] eqn:E.
  assert (r = Got (mkHandle (Some 0%nat) true)) as -> by
    (transitivity (acquire (sys_pool pool0) (sys_pg pool0)).1.1; [by rewrite E|vm_compute; reflexivity]).
  exists 0%nat, p', s'. split; [reflexivity|].
  destruct (@acquire_usable faulty_service faulty_service_laws "dbname=metadata" 1 lossy _ _ ∅ _ _ _
    (rtc_refl _ _) E) as (c & Hc & Hst & _).
  injection Hc as <-. exact Hst.
Defined.

(** One lost connection and the pool of one is stuck, with the server back. *)
Lemma drained_pool_waits_forever_witness :
  connections pool3 = 0%nat /\ (acquire (sys_pool pool3) (sys_pg pool3)).1.1 = Waits.
Proof.
  split; [vm_compute; reflexivity|].
  rewrite (@drained_pool_waits_forever faulty_service faulty_service_laws "dbname=metadata" 1 lossy pool3 pool3
    pool3_reachable); [reflexivity|vm_compute; reflexivity|apply rtc_refl].
Defined.
End example.
