(* ===== verification/World.v ===== *)
(** * The state of the server and its monad

    The managers of src/catalog and the handlers of src/server run on the
    objects that the constructor of [MetadataServer] creates: the pool, the
    locks, the transaction manager, the cache, and the database behind libpq.
    A handler runs to its end, throws, has to wait (for a lock, or for a
    connection), or reaches undefined behaviour; guards and handles release
    what they hold when their scope ends, also when an exception leaves it. *)
From S2P Require Import Prelude Cxx Sql Database PgService PgClient LruCache Mvcc.
From S2P Require LockManager ConnectionPool.

Abbreviation tid := nat (only parsing).
Abbreviation PartitionCache := (LRUCache string (list PartitionRow)).

Section world.
Context {P : PgService}.

Record World := mkWorld {
  w_pg : pg;
  w_pool : ConnectionPool.ConnectionPool;
  w_locks : LockManager.LockManager;
  w_mvcc : MVCCManager;
  w_cache : PartitionCache;
  w_now : Z }.

Definition set_pg (s : pg) (w : World) : World :=
  mkWorld s (w_pool w) (w_locks w) (w_mvcc w) (w_cache w) (w_now w).
Definition set_pool (p : ConnectionPool.ConnectionPool) (w : World) : World :=
  mkWorld (w_pg w) p (w_locks w) (w_mvcc w) (w_cache w) (w_now w).
Definition set_locks (l : LockManager.LockManager) (w : World) : World :=
  mkWorld (w_pg w) (w_pool w) l (w_mvcc w) (w_cache w) (w_now w).
Definition set_mvcc (m : MVCCManager) (w : World) : World :=
  mkWorld (w_pg w) (w_pool w) (w_locks w) m (w_cache w) (w_now w).
Definition set_cache (c : PartitionCache) (w : World) : World :=
  mkWorld (w_pg w) (w_pool w) (w_locks w) (w_mvcc w) c (w_now w).

Inductive outcome (A : Type) :=
  | Ret (a : A)
  | Throw (e : cxx_exn)
  | Wait
  | UB.
Arguments Ret {A} a.
Arguments Throw {A} e.
Arguments Wait {A}.
Arguments UB {A}.

Definition M (A : Type) : Type := World -> outcome A * World.

Definition ret {A} (a : A) : M A := fun w => (Ret a, w).
Definition bind {A B} (m : M A) (k : A -> M B) : M B := fun w =>
  match m w with
  | (Ret a, w') => k a w'
  | (Throw e, w') => (Throw e, w')
  | (Wait, w') => (Wait, w')
  | (UB, w') => (UB, w')
  end.
Definition undefined {A} : M A := fun w => (UB, w).

(** Statements on the database. *)
Definition on_pg {A} (m : PgM A) : M A := fun w =>
  match m (w_pg w) with
  | (inr a, s) => (Ret a, set_pg s w)
  | (inl e, s) => (Throw e, set_pg s w)
  end.

(** A call of the cache; an undefined one is [None]. *)
Definition on_cache {A} (m : PartitionCache -> option (A * PartitionCache)) : M A := fun w =>
  match m (w_cache w) with
  | Some (a, c) => (Ret a, set_cache c w)
  | None => (UB, w)
  end.

Definition read_mvcc {A} (f : MVCCManager -> A) : M A := fun w => (Ret (f (w_mvcc w)), w).
Definition on_mvcc {A} (f : MVCCManager -> A * MVCCManager) : M A := fun w =>
  let '(a, m) := f (w_mvcc w) in (Ret a, set_mvcc m w).

(** The arithmetic of [int32_t] and [int64_t], where overflow is undefined. *)
Definition int32_op (z : Z) : M Z := if in_i32 z then ret z else undefined.
Definition int64_op (z : Z) : M Z := if in_i64 z then ret z else undefined.

(** [auto guard = locks_.scoped_shared(name)] or [scoped_exclusive], and the
    rest of the scope. *)
Definition with_guard {A} (md : LockManager.mode) (self : tid) (name : string) (body : M A) : M A := fun w =>
  match LockManager.acquire md self name (w_locks w) with
  | LockManager.Done l =>
      let '(r, w1) := body (set_locks l w) in
      match r with
      | Ret _ | Throw _ =>
          match LockManager.release md self name (w_locks w1) with
          | LockManager.Done l' => (r, set_locks l' w1)
          | _ => (UB, w1)
          end
      | Wait | UB => (r, w1)
      end
  | LockManager.Blocked l => (Wait, set_locks l w)
  | LockManager.Undefined => (UB, w)
  | LockManager.Threw e => (Throw e, w)
  end.

(** [auto conn = pool_.acquire()] and the rest of the scope. *)
Definition with_connection {A} (body : PGconn -> M A) : M A := fun w =>
  let '(r, p, s) := ConnectionPool.acquire (w_pool w) (w_pg w) in
  let w1 := set_pg s (set_pool p w) in
  match r with
  | ConnectionPool.Waits => (Wait, w1)
  | ConnectionPool.Throws e => (Throw e, w1)
  | ConnectionPool.Got h =>
      match ConnectionPool.conn_ h with
      | None => (UB, w1)
      | Some c =>
          let '(x, w2) := body c w1 in
          match x with
          | Ret _ | Throw _ => (x, set_pool (ConnectionPool.give_back h (w_pool w2)) w2)
          | Wait | UB => (x, w2)
          end
      end
  end.

End world.
Arguments outcome A : clear implicits.
Arguments Ret {A} a.
Arguments Throw {A} e.
Arguments Wait {A}.
Arguments UB {A}.

Declare Scope server_scope.
Delimit Scope server_scope with server.
Notation "'let*' x := m 'in' k" := (bind m (fun x => k))
  (at level 10, x name, m at level 200, k at level 200) : server_scope.
Open Scope server_scope.
