(* ===== verification/SchemaStore.v ===== *)
(** * Schema versions (src/catalog/schema_store.h, schema_store.cpp)

    The current schema of a table, its recorded versions, and the check of a
    proposed schema, which looks at its first and last character. *)
From S2P Require Import Prelude Cxx Sql Database PgService PgClient LruCache World.
From S2P Require LockManager ConnectionPool.

Record SchemaVersion := mkSchemaVersion {
  sv_version : Z;
  sv_schema_json : string;
  sv_changed_at : string;
  sv_change_summary : string }.

Section store.
Context {P : PgService} (self : tid).

Definition get_current_schema (table_name : string) : M (option SchemaVersion) :=
  with_guard LockManager.Sh self table_name (with_connection (fun conn =>
    let* table := on_pg (get_table conn table_name) in
    match table with
    | None => ret None
    | Some t => ret (Some (mkSchemaVersion (tr_schema_version t) (tr_schema_json t) "" "current"))
    end)).

(** One row of [schema_history]. *)
Definition schema_version_row (res : PGresult) (i : nat) : PgM SchemaVersion :=
  let! v := pthrow (stoi (PQgetvalue res i 0)) in
  pret (mkSchemaVersion v (PQgetvalue res i 1) (PQgetvalue res i 2)
          (if PQgetisnull res i 3 then "" else PQgetvalue res i 3)).

Definition query_schema_version (conn : PGconn) (table_name : string) (version : Z) : PgM (option SchemaVersion) :=
  let! table_id := get_table_id conn table_name in
  if table_id <? 0 then pret None
  else
    let! res := exec_params conn
      "SELECT schema_version, schema_json::text, changed_at::text, change_summary FROM schema_history WHERE table_id = $1 AND schema_version = $2"
      [c_str (to_string table_id); c_str (to_string version)] in
    if negb (tuples_ok res) || (PQntuples res =? 0) then pret None
    else let! sv := schema_version_row res 0 in pret (Some sv).

Definition get_schema_at_version (table_name : string) (version : Z) : M (option SchemaVersion) :=
  with_guard LockManager.Sh self table_name (with_connection (fun conn =>
    on_pg (query_schema_version conn table_name version))).

Definition query_schema_history (conn : PGconn) (table_name : string) : PgM (list SchemaVersion) :=
  let! table_id := get_table_id conn table_name in
  if table_id <? 0 then pret []
  else
    let! res := exec_params conn
      "SELECT schema_version, schema_json::text, changed_at::text, change_summary FROM schema_history WHERE table_id = $1 ORDER BY schema_version DESC"
      [c_str (to_string table_id)] in
    if negb (tuples_ok res) then pret []
    else read_rows (schema_version_row res) res.

Definition list_schema_history (table_name : string) : M (list SchemaVersion) :=
  with_guard LockManager.Sh self table_name (with_connection (fun conn =>
    on_pg (query_schema_history conn table_name))).

End store.

(** The last character of a string that is not empty. *)
Fixpoint back (s : string) : option ascii :=
  match s with
  | EmptyString => None
  | String c EmptyString => Some c
  | String _ s' => back s'
  end.
Definition front (s : string) : option ascii := match s with String c _ => Some c | EmptyString => None end.

(** The empty string: the change is accepted. *)
Definition validate_schema_change (current_json proposed_json : string) : string :=
  if String.eqb proposed_json "" || String.eqb proposed_json "{}" then "Proposed schema cannot be empty"
  else if negb (bool_decide (front proposed_json = Some "{"%char))
          || negb (bool_decide (back proposed_json = Some "}"%char))
       then "Proposed schema must be valid JSON object"
       else "".
