(* ===== verification/CatalogManager.v ===== *)
(** * Tables (src/catalog/catalog_manager.h, catalog_manager.cpp)

    Creating, finding, altering, renaming, dropping and listing tables: each
    method takes the lock of the table (a rename those of both names) and a
    connection for its scope. *)
From S2P Require Import Prelude Cxx Sql Database PgService PgClient LruCache World.
From S2P Require LockManager ConnectionPool.

(** [CreateTableResult], [AlterResult] and [DropResult]. *)
Record OpResult := mkOpResult { success : bool; error_msg : string }.

Section catalog.
Context {P : PgService} (self : tid).

Definition create_table (table_name schema_json partition_spec properties_json : string) : M OpResult :=
  with_guard LockManager.Ex self table_name (with_connection (fun conn =>
    let* ok := on_pg (PgClient.create_table conn table_name schema_json partition_spec properties_json) in
    if negb ok then ret (mkOpResult false ("Failed to create table (may already exist): " +:+ table_name))
    else ret (mkOpResult true ""))).

Definition get_table (table_name : string) : M (option TableRow) :=
  with_guard LockManager.Sh self table_name (with_connection (fun conn =>
    on_pg (PgClient.get_table conn table_name))).

Definition alter_table_schema (table_name new_schema_json change_summary : string) : M OpResult :=
  with_guard LockManager.Ex self table_name (with_connection (fun conn =>
    let* existing := on_pg (PgClient.get_table conn table_name) in
    match existing with
    | None => ret (mkOpResult false ("Table not found: " +:+ table_name))
    | Some t =>
        let* new_version := int32_op (tr_schema_version t + 1) in
        let* _ := on_pg (exec conn "BEGIN") in
        let* ok := on_pg (update_table_schema conn table_name new_schema_json new_version change_summary) in
        if negb ok then
          let* _ := on_pg (exec conn "ROLLBACK") in
          ret (mkOpResult false ("Failed to update schema for: " +:+ table_name))
        else
          let* _ := on_pg (exec conn "COMMIT") in
          ret (mkOpResult true "")
    end)).

Definition rename_table (old_name new_name : string) : M OpResult :=
  with_guard LockManager.Ex self old_name (with_guard LockManager.Ex self new_name (with_connection (fun conn =>
    let* ok := on_pg (PgClient.rename_table conn old_name new_name) in
    if negb ok then ret (mkOpResult false ("Failed to rename " +:+ old_name +:+ " to " +:+ new_name))
    else ret (mkOpResult true "")))).

Definition drop_table (table_name : string) (purge : bool) : M OpResult :=
  with_guard LockManager.Ex self table_name (with_connection (fun conn =>
    let* _ := on_pg (exec conn "BEGIN") in
    let* ok := on_pg (PgClient.drop_table conn table_name purge) in
    if negb ok then
      let* _ := on_pg (exec conn "ROLLBACK") in
      ret (mkOpResult false ("Failed to drop table: " +:+ table_name))
    else
      let* _ := on_pg (exec conn "COMMIT") in
      ret (mkOpResult true ""))).

(** It takes no lock. *)
Definition list_tables (ns : string) (page_size : Z) (page_token : string) : M (list TableRow) :=
  with_connection (fun conn => on_pg (PgClient.list_tables conn ns page_size page_token)).

End catalog.
