(* ===== verification/PartitionRegistry.v ===== *)
(** * Partitions (src/catalog/partition_registry.h, partition_registry.cpp)

    Reads of the partitions of a table, whole (through the cache) or by pages,
    their statistics, and commits. The scopes inside a method are definitions
    of their own. *)
From S2P Require Import Prelude Cxx Sql Database PgService PgClient LruCache Mvcc World.
From S2P Require LockManager ConnectionPool.

Record PartitionStats := mkStats {
  total_partitions : Z;
  total_rows : Z;
  total_bytes : Z;
  avg_size_bytes : Z }.

Record CommitResult := mkCommitResult {
  cr_success : bool;
  cr_snapshot_id : Z;
  cr_error_msg : string }.

Definition make_cache_key (table : string) (snap : Z) : string := table +:+ ":" +:+ to_string snap.

Section registry.
Context {P : PgService} (self : tid).

(** [key.compare(0, prefix.size(), prefix) == 0] *)
Definition invalidate_table_cache (table_name : string) : M unit :=
  let prefix := table_name +:+ ":" in
  let* _ := on_cache (invalidate_if (fun key => String.prefix prefix key)) in ret tt.

(** The snapshot a read uses: the counter of the transaction manager for a
    request without a snapshot, and the database's when the counter is 0. *)
Definition requested_snapshot (snapshot_id : Z) : M Z :=
  if snapshot_id =? 0 then read_mvcc get_latest_committed_snapshot else ret snapshot_id.

(** A miss: the query, and its result into the cache. *)
Definition fetch_partitions (conn : PGconn) (table_name : string) (read_snap : Z) (key : string)
    : M (option (list PartitionRow)) :=
  let* result := on_pg (query_partitions conn table_name read_snap) in
  match result with
  | None => ret None
  | Some rows =>
      let* _ := on_cache (fun c => c' ← put key rows c; Some (tt, c')) in
      ret (Some rows)
  end.

(** The snapshot to read: the database's when there is no other. *)
Definition resolve_snapshot (table_name : string) (snapshot_id : Z) : M Z :=
  let* read_snap := requested_snapshot snapshot_id in
  if read_snap =? 0 then with_connection (fun conn => on_pg (get_current_snapshot conn table_name))
  else ret read_snap.

Definition get_partitions (table_name : string) (snapshot_id : Z) : M (option (list PartitionRow)) :=
  with_guard LockManager.Sh self table_name (
    let* read_snap := resolve_snapshot table_name snapshot_id in
    let key := make_cache_key table_name read_snap in
    let* cached := on_cache (get key) in
    match cached with
    | Some rows => ret (Some rows)
    | None => with_connection (fun conn => fetch_partitions conn table_name read_snap key)
    end).

Definition get_partitions_paged (table_name : string) (snapshot_id page_size last_partition_id : Z)
    : M (option (list PartitionRow)) :=
  with_guard LockManager.Sh self table_name (
    let* read_snap := resolve_snapshot table_name snapshot_id in
    with_connection (fun conn =>
      on_pg (query_partitions_paged conn table_name read_snap page_size last_partition_id))).

(** The loop of [get_stats]; the sums are [int64_t]. *)
Fixpoint sum_rows (parts : list PartitionRow) (rows bytes : Z) : M (Z * Z) :=
  match parts with
  | [] => ret (rows, bytes)
  | p :: rest =>
      let* rows' := int64_op (rows + pr_row_count p) in
      let* bytes' := int64_op (bytes + pr_size_bytes p) in
      sum_rows rest rows' bytes'
  end.

(** The scope of [get_stats] once it has the lock and a connection. *)
Definition collect_stats (conn : PGconn) (table_name : string) (snap : Z) : M PartitionStats :=
  let* snap := (if snap =? 0 then on_pg (get_current_snapshot conn table_name) else ret snap) in
  let* parts := on_pg (query_partitions conn table_name snap) in
  match parts with
  | None => ret (mkStats 0 0 0 0)
  | Some ps =>
      let n := Z.of_nat (length ps) in
      let* sums := sum_rows ps 0 0 in
      ret (mkStats n sums.1 sums.2 (if 0 <? n then Z.quot sums.2 n else 0))
  end.

Definition get_stats (table_name : string) : M PartitionStats :=
  with_guard LockManager.Sh self table_name (
    let* snap := read_mvcc get_latest_committed_snapshot in
    with_connection (fun conn => collect_stats conn table_name snap)).

(** The two loops of [commit_snapshot]: the first failure, if there is one. *)
Fixpoint insert_all (conn : PGconn) (table_name : string) (snap : Z) (parts : list PartitionRow)
    : PgM (option string) :=
  match parts with
  | [] => pret None
  | part :: rest =>
      let! ok := insert_partition conn table_name snap part in
      if negb ok then pret (Some ("Failed to insert partition: " +:+ pr_partition_key part))
      else insert_all conn table_name snap rest
  end.

Fixpoint delete_all (conn : PGconn) (table_name : string) (snap : Z) (keys : list string)
    : PgM (option string) :=
  match keys with
  | [] => pret None
  | key :: rest =>
      let! ok := mark_partition_deleted conn table_name key snap in
      if negb ok then pret (Some ("Failed to mark partition deleted: " +:+ key))
      else delete_all conn table_name snap rest
  end.

(** [ROLLBACK] and the answer. *)
Definition roll_back (conn : PGconn) (msg : string) : M CommitResult :=
  let* _ := on_pg (exec conn "ROLLBACK") in ret (mkCommitResult false 0 msg).

Definition conflict_msg (parent current : Z) : string :=
  "Conflict: snapshot " +:+ to_string parent +:+ " is no longer current (current=" +:+ to_string current +:+ ")".

(** The end of a commit: the pointer of the table, COMMIT, the cache. *)
Definition publish (conn : PGconn) (table_name : string) (new_snap : Z) : M CommitResult :=
  let* ok := on_pg (update_table_snapshot conn table_name new_snap) in
  if negb ok then roll_back conn "Failed to update table snapshot pointer"
  else
    let* _ := on_pg (exec conn "COMMIT") in
    let* _ := invalidate_table_cache table_name in
    ret (mkCommitResult true new_snap "").

(** What follows the snapshot record: the two loops and [publish]. *)
Definition apply_changes (conn : PGconn) (table_name : string) (new_snap : Z)
    (new_partitions : list PartitionRow) (deleted_partition_keys : list string) : M CommitResult :=
  let* failed := on_pg (insert_all conn table_name new_snap new_partitions) in
  match failed with
  | Some msg => roll_back conn msg
  | None =>
      let* failed := on_pg (delete_all conn table_name new_snap deleted_partition_keys) in
      match failed with
      | Some msg => roll_back conn msg
      | None => publish conn table_name new_snap
      end
  end.

(** The scope of [commit_snapshot] once it has the lock and a connection. *)
Definition commit_with (conn : PGconn) (table_name : string) (parent_snapshot_id : Z) (operation : string)
    (new_partitions : list PartitionRow) (deleted_partition_keys : list string) : M CommitResult :=
  let* current_snap := on_pg (get_current_snapshot conn table_name) in
  if negb (validate_parent_snapshot table_name parent_snapshot_id current_snap) then
    ret (mkCommitResult false 0 (conflict_msg parent_snapshot_id current_snap))
  else
    let* _ := on_pg (exec conn "BEGIN") in
    let* new_snap := on_pg (insert_snapshot conn table_name parent_snapshot_id operation
      (i32 (Z.of_nat (length new_partitions))) (i32 (Z.of_nat (length deleted_partition_keys)))) in
    if new_snap =? 0 then roll_back conn "Failed to insert snapshot record"
    else apply_changes conn table_name new_snap new_partitions deleted_partition_keys.

Definition commit_snapshot (table_name : string) (parent_snapshot_id : Z) (operation : string)
    (new_partitions : list PartitionRow) (deleted_partition_keys : list string) : M CommitResult :=
  with_guard LockManager.Ex self table_name (with_connection (fun conn =>
    commit_with conn table_name parent_snapshot_id operation new_partitions deleted_partition_keys)).

End registry.
