(* ===== verification/MetadataServer.v ===== *)
(** * The service (src/server/metadata_server.h, metadata_server.cpp)

    The messages of proto/metadata_service.proto that the handlers read and
    write, the constructor, and one definition per handler. A handler answers
    a status and a response; the response of a handler that answers an error
    is the empty one. *)
From S2P Require Import Prelude Cxx ServerConfig Sql Database PgService PgClient LruCache Mvcc World SchemaStore PartitionRegistry.
From S2P Require LockManager ConnectionPool CatalogManager.

(** ** Messages *)

Inductive Status := StatusOK | NOT_FOUND (msg : string).

(** [map<string, string>]: the entries in the order the map is walked. *)
Record CreateTableRequest := mkCreateTableRequest {
  ct_table_name : string;
  ct_schema_json : string;
  ct_partition_spec : string;
  ct_properties : list (string * string) }.

Record OperationResponse := mkOperationResponse { or_success : bool; or_error_msg : string }.

Record PartitionInfo := mkPartitionInfo {
  pi_partition_key : string;
  pi_data_file_path : string;
  pi_row_count : Z;
  pi_size_bytes : Z;
  pi_snapshot_id : Z;
  pi_file_format : string;
  pi_column_stats : list (string * string) }.

Record TableMetadataResponse := mkTableMetadataResponse {
  tm_table_name : string;
  tm_schema_json : string;
  tm_current_snapshot_id : Z;
  tm_schema_version : Z;
  tm_partitions : list PartitionInfo;
  tm_properties : list (string * string);
  tm_total_row_count : Z;
  tm_total_size_bytes : Z }.

Inductive alteration :=
  | kNewSchemaJson (json : string)
  | kNewPartitionSpec (spec : string)
  | kRename (new_name : string)
  | ALTERATION_NOT_SET.

Record TableSummary := mkTableSummary {
  ts_table_name : string;
  ts_current_snapshot_id : Z;
  ts_total_partitions : Z }.
Record ListTablesResponse := mkListTablesResponse {
  lt_tables : list TableSummary;
  lt_next_page_token : string }.

Record PartitionListResponse := mkPartitionListResponse {
  pl_partitions : list PartitionInfo;
  pl_next_page_token : string;
  pl_total_count : Z }.

Record SnapshotResponse := mkSnapshotResponse {
  sp_snapshot_id : Z;
  sp_success : bool;
  sp_error_msg : string }.

Record SnapshotDetail := mkSnapshotDetail {
  sd_snapshot_id : Z;
  sd_parent_snapshot_id : Z;
  sd_operation : string;
  sd_added_partitions : Z;
  sd_deleted_partitions : Z;
  sd_committed_at : string }.

Inductive IsolationLevel := SNAPSHOT | READ_COMMITTED.

Record TransactionResponse := mkTransactionResponse { tr_txn_id : Z; tr_read_snapshot_id : Z }.

Definition empty_metadata : TableMetadataResponse := mkTableMetadataResponse "" "" 0 0 [] [] 0 0.
Definition empty_partitions : PartitionListResponse := mkPartitionListResponse [] "" 0.
Definition empty_detail : SnapshotDetail := mkSnapshotDetail 0 0 "" 0 0 "".

(** ** Conversions *)

Definition quote : string := String (ascii_of_nat 34) EmptyString.

(** The loop of [CreateTable] that writes the properties as JSON; [first] is
    whether no property was written yet. *)
Fixpoint props_loop (entries : list (string * string)) (first : bool) (props : string) : string :=
  match entries with
  | [] => props
  | (k, v) :: rest =>
      props_loop rest false
        ((if first then props else props +:+ ",") +:+ quote +:+ k +:+ quote +:+ ":" +:+ quote +:+ v +:+ quote)
  end.
Definition props_json (entries : list (string * string)) : string :=
  match entries with [] => "{}" | _ => props_loop entries true "{" +:+ "}" end.

Definition to_partition_info (p : PartitionRow) : PartitionInfo :=
  mkPartitionInfo (pr_partition_key p) (pr_data_file_path p) (pr_row_count p) (pr_size_bytes p)
    (u64 (pr_snapshot_id p)) (pr_file_format p) [].

(** The members the source leaves unset are not read later; here they are 0. *)
Definition from_partition_info (p : PartitionInfo) : PartitionRow :=
  mkPartitionRow 0 0 0 (pi_partition_key p) (pi_data_file_path p)
    (if String.eqb (pi_file_format p) "" then "parquet" else pi_file_format p)
    (pi_row_count p) (pi_size_bytes p) "{}".

Definition to_snapshot_detail (s : SnapshotRow) : SnapshotDetail :=
  mkSnapshotDetail (u64 (sr_snapshot_id s)) (u64 (sr_parent_snapshot_id s)) (sr_operation s)
    (sr_added_files_count s) (sr_deleted_files_count s) (sr_committed_at s).

Definition to_response (r : CatalogManager.OpResult) : OperationResponse :=
  mkOperationResponse (CatalogManager.success r) (CatalogManager.error_msg r).

(** [last_id]: the page token as a number, 0 when it is none. *)
Definition page_token_id (page_token : string) : Z :=
  if String.eqb page_token "" then 0
  else match stoll page_token with inr z => z | inl _ => 0 end.

Section server.
Context {P : PgService}.

Definition make_server (config : ServerConfig) (now : Z) (s : pg) : World :=
  let '(pool, s1) := ConnectionPool.make_pool (pg_conn_string config) (pool_size config) s in
  mkWorld s1 pool LockManager.empty_locks (make_mvcc (txn_timeout_s config))
    (make_cache (cache_capacity config)) now.

(** [self] is the thread that serves the request. *)
Context (self : tid).

Definition CreateTable (req : CreateTableRequest) : M (Status * OperationResponse) :=
  let* result := CatalogManager.create_table self (ct_table_name req) (ct_schema_json req)
    (ct_partition_spec req) (props_json (ct_properties req)) in
  ret (StatusOK, to_response result).

Definition GetTableMetadata (table_name : string) (requested_snapshot : Z) : M (Status * TableMetadataResponse) :=
  let* table := CatalogManager.get_table self table_name in
  match table with
  | None => ret (NOT_FOUND ("Table not found: " +:+ table_name), empty_metadata)
  | Some t =>
      let* read_snapshot := PartitionRegistry.requested_snapshot requested_snapshot in
      let read_snapshot := if read_snapshot =? 0 then u64 (tr_current_snapshot_id t) else read_snapshot in
      let* parts := get_partitions self table_name read_snapshot in
      let rows := default [] parts in
      let* totals := sum_rows rows 0 0 in
      ret (StatusOK, mkTableMetadataResponse (tr_table_name t) (tr_schema_json t) read_snapshot
                       (tr_schema_version t) (to_partition_info <$> rows) [] totals.1 totals.2)
  end.

Definition AlterTable (table_name : string) (alt : alteration) : M (Status * OperationResponse) :=
  let finish (resp : OperationResponse) : M (Status * OperationResponse) :=
    let* _ := invalidate_table_cache table_name in ret (StatusOK, resp) in
  match alt with
  | kNewSchemaJson json =>
      let* current := get_current_schema self table_name in
      let err := match current with
                 | Some sv => validate_schema_change (sv_schema_json sv) json
                 | None => ""
                 end in
      if negb (String.eqb err "") then ret (StatusOK, mkOperationResponse false err)
      else
        let* result := CatalogManager.alter_table_schema self table_name json "schema evolution via AlterTable" in
        finish (to_response result)
  | kRename new_name =>
      let* result := CatalogManager.rename_table self table_name new_name in
      finish (to_response result)
  | kNewPartitionSpec _ => finish (mkOperationResponse true "partition spec update not yet implemented")
  | ALTERATION_NOT_SET => finish (mkOperationResponse false "No alteration specified")
  end.

Definition DropTable (table_name : string) (purge : bool) : M (Status * OperationResponse) :=
  let* result := CatalogManager.drop_table self table_name purge in
  let* _ := (if CatalogManager.success result then invalidate_table_cache table_name else ret tt) in
  ret (StatusOK, to_response result).

Definition ListTables (ns : string) (page_size : Z) (page_token : string) : M (Status * ListTablesResponse) :=
  let* tables := CatalogManager.list_tables ns page_size page_token in
  ret (StatusOK, mkListTablesResponse
    ((fun t => mkTableSummary (tr_table_name t) (u64 (tr_current_snapshot_id t)) 0) <$> tables) "").

Definition GetPartitions (table_name : string) (snapshot_id page_size : Z) (page_token : string)
    : M (Status * PartitionListResponse) :=
  let last_id := page_token_id page_token in
  let* result :=
    (if 0 <? page_size then get_partitions_paged self table_name snapshot_id page_size last_id
     else get_partitions self table_name snapshot_id) in
  match result with
  | None => ret (NOT_FOUND ("Table not found: " +:+ table_name), empty_partitions)
  | Some rows =>
      ret (StatusOK, mkPartitionListResponse (to_partition_info <$> rows)
        (if 0 <? page_size then match last rows with Some p => to_string (pr_partition_id p) | None => "" end
         else "")
        (Z.of_nat (length rows)))
  end.

Definition GetPartitionStats (table_name : string) : M (Status * PartitionStats) :=
  let* stats := get_stats self table_name in ret (StatusOK, stats).

Definition CommitSnapshot (table_name : string) (new_partitions : list PartitionInfo)
    (deleted_partition_keys : list string) (parent_snapshot_id : Z) (operation : string)
    : M (Status * SnapshotResponse) :=
  let* result := commit_snapshot self table_name parent_snapshot_id
    (if String.eqb operation "" then "append" else operation)
    (from_partition_info <$> new_partitions) deleted_partition_keys in
  ret (StatusOK, mkSnapshotResponse (cr_snapshot_id result) (cr_success result) (cr_error_msg result)).

Definition GetSnapshot (table_name : string) (snapshot_id : Z) : M (Status * SnapshotDetail) :=
  with_connection (fun conn =>
    let* snap := on_pg (get_snapshot conn table_name snapshot_id) in
    match snap with
    | None => ret (NOT_FOUND "Snapshot not found", empty_detail)
    | Some s => ret (StatusOK, to_snapshot_detail s)
    end).

Definition ListSnapshots (table_name : string) (limit : Z) : M (Status * list SnapshotDetail) :=
  with_connection (fun conn =>
    let* snapshots := on_pg (list_snapshots conn table_name limit) in
    ret (StatusOK, to_snapshot_detail <$> snapshots)).

Definition BeginTransaction (client_id : string) (isolation : IsolationLevel)
    : M (Status * TransactionResponse) :=
  let* r := (fun w => on_mvcc (begin_transaction (w_now w)) w) in
  with_connection (fun conn =>
    let* _ := on_pg (insert_transaction conn client_id r.2
      match isolation with READ_COMMITTED => "read_committed" | SNAPSHOT => "snapshot" end) in
    ret (StatusOK, mkTransactionResponse r.1 r.2)).

(** [attempts]: what happens at each attempt of the compare-and-swap loop of
    [commit_transaction]; the loop that has not ended after them waits. *)
Definition CommitTransaction (attempts : list bool) (txn_id : Z) : M (Status * OperationResponse) :=
  let* ok := (fun w =>
    match commit_transaction attempts (w_now w) txn_id (w_mvcc w) with
    | Some (ok, m) => (Ret ok, set_mvcc m w)
    | None => (Wait, w)
    end) in
  let* _ :=
    (if (ok : bool) then with_connection (fun conn => on_pg (update_transaction_status conn txn_id "committed"))
     else ret false) in
  ret (StatusOK, mkOperationResponse ok
    (if ok then "" else "Transaction " +:+ to_string txn_id +:+ " not found or expired")).

Definition AbortTransaction (txn_id : Z) : M (Status * OperationResponse) :=
  let* _ := on_mvcc (fun m => (tt, abort_transaction txn_id m)) in
  with_connection (fun conn =>
    let* _ := on_pg (update_transaction_status conn txn_id "aborted") in
    ret (StatusOK, mkOperationResponse true "")).

End server.
