(* ===== verification/Structure.v ===== *)
(** * The requests, and what follows the structure of their code

    The requests of the service as one type. Every handler is put together
    from a few constructs: steps on the memory of the server, methods of
    [PgClient], the scopes of guards and connections. A property of runs that
    these constructs keep ([Structural]) holds for every handler. *)
From S2P Require Import Prelude Cxx Sql Database PgService Typing PgClient LruCache Mvcc World SchemaStore PartitionRegistry MetadataServer.
From S2P Require LockManager ConnectionPool CatalogManager.

Inductive Request :=
  | RCreateTable (req : CreateTableRequest)
  | RGetTableMetadata (name : string) (snapshot_id : Z)
  | RAlterTable (name : string) (alt : alteration)
  | RDropTable (name : string) (purge : bool)
  | RListTables (ns : string) (page_size : Z) (page_token : string)
  | RGetPartitions (name : string) (snapshot_id page_size : Z) (page_token : string)
  | RGetPartitionStats (name : string)
  | RCommitSnapshot (name : string) (parts : list PartitionInfo) (keys : list string) (parent : Z) (op : string)
  | RGetSnapshot (name : string) (snapshot_id : Z)
  | RListSnapshots (name : string) (limit : Z)
  | RBeginTransaction (client : string) (isolation : IsolationLevel)
  | RCommitTransaction (attempts : list bool) (txn : Z)
  | RAbortTransaction (txn : Z).

Section requests.
Context {P : PgService} (self : tid).

(** Serving a request; the answer is not kept. *)
Definition handle (r : Request) : M unit :=
  let done {A} (m : M A) : M unit := let* _ := m in ret tt in
  match r with
  | RCreateTable req => done (CreateTable self req)
  | RGetTableMetadata name s => done (GetTableMetadata self name s)
  | RAlterTable name alt => done (AlterTable self name alt)
  | RDropTable name purge => done (DropTable self name purge)
  | RListTables ns n tok => done (ListTables ns n tok)
  | RGetPartitions name s n tok => done (GetPartitions self name s n tok)
  | RGetPartitionStats name => done (GetPartitionStats self name)
  | RCommitSnapshot name parts keys parent op => done (CommitSnapshot self name parts keys parent op)
  | RGetSnapshot name s => done (GetSnapshot name s)
  | RListSnapshots name limit => done (ListSnapshots name limit)
  | RBeginTransaction client iso => done (BeginTransaction client iso)
  | RCommitTransaction attempts txn => done (CommitTransaction attempts txn)
  | RAbortTransaction txn => done (AbortTransaction txn)
  end.

(** The requests one after the other, until one does not end. *)
Fixpoint serve (rs : list Request) : M unit :=
  match rs with
  | [] => ret tt
  | r :: rs' => fun w =>
      match handle r w with
      | (Ret _, w') | (Throw _, w') => serve rs' w'
      | x => x
      end
  end.
End requests.

(** ** Properties of runs *)

(** [on_run] speaks of the server, [on_db] of the methods of [PgClient]: the
    statements they send have to fit the schema. *)
Record Structural {P : PgService} := {
  on_run : forall A, M A -> Prop;
  on_db : forall A, PgM A -> Prop;
  run_local : forall A (m : M A),
    (forall w r w', m w = (r, w') -> w_pg w' = w_pg w /\ w_pool w' = w_pool w /\ w_locks w' = w_locks w) -> on_run A m;
  run_bind : forall A B (m : M A) (k : A -> M B), on_run A m -> (forall a, on_run B (k a)) -> on_run B (bind m k);
  run_db : forall A (m : PgM A), on_db A m -> on_run A (on_pg m);
  run_guard : forall A md self name (body : M A), on_run A body -> on_run A (with_guard md self name body);
  run_connection : forall A (body : PGconn -> M A), (forall c, on_run A (body c)) -> on_run A (with_connection body);
  db_return : forall A (r : cxx_exn + A), on_db A (pthrow r);
  db_bind : forall A B (m : PgM A) (k : A -> PgM B), on_db A m -> (forall a, on_db B (k a)) -> on_db B (pbind m k);
  db_exec_params : forall c text ps, accepted text (length ps) = true -> on_db PGresult (exec_params c text ps);
  db_exec : forall c text, accepted text 0 = true -> on_db PGresult (exec c text) }.
Arguments on_run {P} _ {A} _.
Arguments on_db {P} _ {A} _.

Section structure.
Context {P : PgService} (T : Structural).

Lemma run_ret {A} (a : A) : on_run T (ret a).
Proof. apply run_local. by intros w r w' [= <- <-]. Qed.
Lemma run_undefined {A} : on_run T (@undefined P A).
Proof. apply run_local. by intros w r w' [= <- <-]. Qed.
Lemma run_cache {A} (m : PartitionCache -> option (A * PartitionCache)) : on_run T (on_cache m).
Proof. apply run_local. intros w r w'. unfold on_cache. destruct (m (w_cache w)) as [[a c]|]; by intros [= <- <-]. Qed.
Lemma run_read_mvcc {A} (f : MVCCManager -> A) : on_run T (read_mvcc f).
Proof. apply run_local. by intros w r w' [= <- <-]. Qed.
Lemma run_mvcc {A} (f : MVCCManager -> A * MVCCManager) : on_run T (on_mvcc f).
Proof. apply run_local. intros w r w'. unfold on_mvcc. destruct (f (w_mvcc w)). by intros [= <- <-]. Qed.
Lemma db_ret {A} (a : A) : on_db T (pret a).
Proof. apply (db_return T). Qed.
Lemma run_int64 z : on_run T (int64_op z).
Proof. unfold int64_op. case_match; [apply run_ret|apply run_undefined]. Qed.
Lemma run_int32 z : on_run T (int32_op z).
Proof. unfold int32_op. case_match; [apply run_ret|apply run_undefined]. Qed.
Lemma db_rows {A} (read : nat -> PgM A) l : (forall i, on_db T (read i)) -> on_db T (for_rows read l).
Proof.
  intros Hr. induction l as [|i l IH]; [apply db_ret|]. cbn [for_rows]. apply db_bind; [apply Hr|]. intros a.
  apply db_bind; [done|]. intros l'. apply db_ret.
Qed.
End structure.

Create HintDb structure.
#[export] Hint Resolve run_ret run_undefined run_cache run_read_mvcc run_mvcc run_int64 run_int32 db_ret db_return : structure.

Ltac solve_structure :=
  repeat first
    [ solve [auto with structure nocore]
    | apply run_bind; [|intro] | apply run_connection; intro | apply run_guard | apply run_db
    | apply db_bind; [|intro] | apply db_rows; intro
    | apply db_exec_params; vm_compute; reflexivity | apply db_exec; vm_compute; reflexivity
    | case_match ].

(** ** The methods of [PgClient] *)

Section methods.
Context {P : PgService} (T : Structural) (c : PGconn).

Lemma db_int64_at res i k : on_db T (int64_at res i k).
Proof. apply db_return. Qed.
Lemma db_int32_at res i k : on_db T (int32_at res i k).
Proof. apply db_return. Qed.
#[local] Hint Resolve db_int64_at db_int32_at : structure.
Lemma db_table_row res i : on_db T (table_row res i).
Proof. unfold table_row. solve_structure. Qed.
Lemma db_partition_row res i : on_db T (partition_row res i).
Proof. unfold partition_row. solve_structure. Qed.
Lemma db_snapshot_row res i : on_db T (snapshot_row res i).
Proof. unfold snapshot_row. solve_structure. Qed.
#[local] Hint Resolve db_table_row db_partition_row db_snapshot_row : structure.
Lemma db_get_table_id name : on_db T (get_table_id c name).
Proof. unfold get_table_id. solve_structure. Qed.
#[local] Hint Resolve db_get_table_id : structure.
Lemma db_create_table name schema spec props : on_db T (create_table c name schema spec props).
Proof. unfold create_table. solve_structure. Qed.
Lemma db_get_table name : on_db T (get_table c name).
Proof. unfold get_table. solve_structure. Qed.
Lemma db_update_table_schema name schema v summary : on_db T (update_table_schema c name schema v summary).
Proof. unfold update_table_schema. solve_structure. Qed.
Lemma db_rename_table old new : on_db T (rename_table c old new).
Proof. unfold rename_table. solve_structure. Qed.
Lemma db_drop_table name purge : on_db T (drop_table c name purge).
Proof. unfold drop_table. solve_structure. Qed.
Lemma db_list_tables ns n token : on_db T (list_tables c ns n token).
Proof. unfold list_tables, read_rows. solve_structure. Qed.
Lemma db_query_partitions name s : on_db T (query_partitions c name s).
Proof. unfold query_partitions, read_rows. solve_structure. Qed.
Lemma db_query_partitions_paged name s n last : on_db T (query_partitions_paged c name s n last).
Proof. unfold query_partitions_paged, read_rows. solve_structure. Qed.
Lemma db_insert_partition name s part : on_db T (insert_partition c name s part).
Proof. unfold insert_partition. solve_structure. Qed.
Lemma db_mark_partition_deleted name key s : on_db T (mark_partition_deleted c name key s).
Proof. unfold mark_partition_deleted. solve_structure. Qed.
Lemma db_insert_snapshot name parent op a b : on_db T (insert_snapshot c name parent op a b).
Proof. unfold insert_snapshot. solve_structure. Qed.
Lemma db_get_snapshot name s : on_db T (get_snapshot c name s).
Proof. unfold get_snapshot. solve_structure. Qed.
Lemma db_list_snapshots name limit : on_db T (list_snapshots c name limit).
Proof. unfold list_snapshots, read_rows. solve_structure. Qed.
Lemma db_get_current_snapshot name : on_db T (get_current_snapshot c name).
Proof. unfold get_current_snapshot. solve_structure. Qed.
Lemma db_update_table_snapshot name s : on_db T (update_table_snapshot c name s).
Proof. unfold update_table_snapshot. solve_structure. Qed.
Lemma db_insert_transaction client s iso : on_db T (insert_transaction c client s iso).
Proof. unfold insert_transaction. solve_structure. Qed.
Lemma db_update_transaction_status txn status : on_db T (update_transaction_status c txn status).
Proof. unfold update_transaction_status. destruct (String.eqb status "committed"); solve_structure. Qed.
#[local] Hint Resolve db_insert_partition db_mark_partition_deleted : structure.
Lemma db_insert_all name s parts : on_db T (insert_all c name s parts).
Proof. induction parts; cbn [insert_all]; solve_structure. Qed.
Lemma db_delete_all name s keys : on_db T (delete_all c name s keys).
Proof. induction keys; cbn [delete_all]; solve_structure. Qed.
Lemma db_begin : on_db T (exec c "BEGIN").
Proof. solve_structure. Qed.
Lemma db_commit : on_db T (exec c "COMMIT").
Proof. solve_structure. Qed.
Lemma db_rollback : on_db T (exec c "ROLLBACK").
Proof. solve_structure. Qed.
End methods.

#[export] Hint Resolve db_get_table_id db_create_table db_get_table db_update_table_schema db_rename_table db_drop_table
  db_list_tables db_query_partitions db_query_partitions_paged db_insert_snapshot db_get_snapshot db_list_snapshots
  db_get_current_snapshot db_update_table_snapshot db_insert_transaction db_update_transaction_status
  db_insert_all db_delete_all db_begin db_commit db_rollback : structure.

(** ** The handlers *)

Section handlers.
Context {P : PgService} (T : Structural) (self : tid).

Lemma run_sum_rows rows a b : on_run T (sum_rows rows a b).
Proof.
  revert a b. induction rows as [|p rows IH]; intros a b; cbn [sum_rows]; [solve_structure|].
  apply run_bind; [apply run_int64|]. intros r. apply run_bind; [apply run_int64|]. intros s. apply IH.
Qed.
Lemma run_requested z : on_run T (requested_snapshot z).
Proof. unfold requested_snapshot. solve_structure. Qed.
Lemma run_invalidate name : on_run T (invalidate_table_cache name).
Proof. unfold invalidate_table_cache. solve_structure. Qed.
Lemma run_roll_back c msg : on_run T (roll_back c msg).
Proof. unfold roll_back. solve_structure. Qed.
#[local] Hint Resolve run_sum_rows run_requested run_invalidate run_roll_back : structure.

Lemma run_get_partitions name s : on_run T (get_partitions self name s).
Proof. unfold get_partitions, resolve_snapshot, fetch_partitions. solve_structure. Qed.
Lemma run_get_partitions_paged name s n last : on_run T (get_partitions_paged self name s n last).
Proof. unfold get_partitions_paged, resolve_snapshot. solve_structure. Qed.
Lemma run_get_stats name : on_run T (get_stats self name).
Proof. unfold get_stats, collect_stats. solve_structure. Qed.
Lemma run_commit_snapshot name parent op parts keys : on_run T (commit_snapshot self name parent op parts keys).
Proof. unfold commit_snapshot, commit_with, apply_changes, publish. solve_structure. Qed.
Lemma run_get_current_schema name : on_run T (get_current_schema self name).
Proof. unfold get_current_schema. solve_structure. Qed.
Lemma run_catalog_create name schema spec props : on_run T (CatalogManager.create_table self name schema spec props).
Proof. unfold CatalogManager.create_table. solve_structure. Qed.
Lemma run_catalog_get name : on_run T (CatalogManager.get_table self name).
Proof. unfold CatalogManager.get_table. solve_structure. Qed.
Lemma run_catalog_alter name schema summary : on_run T (CatalogManager.alter_table_schema self name schema summary).
Proof. unfold CatalogManager.alter_table_schema. solve_structure. Qed.
Lemma run_catalog_rename old new : on_run T (CatalogManager.rename_table self old new).
Proof. unfold CatalogManager.rename_table. solve_structure. Qed.
Lemma run_catalog_drop name purge : on_run T (CatalogManager.drop_table self name purge).
Proof. unfold CatalogManager.drop_table. solve_structure. Qed.
#[local] Hint Resolve run_get_partitions run_get_partitions_paged run_get_stats run_commit_snapshot run_get_current_schema
  run_catalog_create run_catalog_get run_catalog_alter run_catalog_rename run_catalog_drop : structure.

Lemma run_commit_transaction attempts txn : on_run T (CommitTransaction attempts txn).
Proof.
  unfold CommitTransaction. apply run_bind; [|intros ok; solve_structure].
  apply run_local. intros w r w'. by destruct (commit_transaction _ _ _ _) as [[ok m]|]; intros [= <- <-].
Qed.

Lemma run_begin_transaction client iso : on_run T (BeginTransaction client iso).
Proof.
  unfold BeginTransaction. apply run_bind; [|intros r; solve_structure]. 
  apply run_local. intros w r w'. unfold on_mvcc. destruct (begin_transaction _ _). by intros [= <- <-].
Qed.
#[local] Hint Resolve run_commit_transaction run_begin_transaction : structure.

Lemma run_handle r : on_run T (handle self r).
Proof.
  destruct r; cbn [handle]; (apply run_bind; [|intro; apply run_ret]); try solve [auto with structure nocore].
  - unfold CreateTable. solve_structure.
  - unfold GetTableMetadata. solve_structure.
  - unfold AlterTable. solve_structure.
  - unfold DropTable. solve_structure.
  - unfold ListTables, CatalogManager.list_tables. solve_structure.
  - unfold GetPartitions. solve_structure.
  - unfold GetPartitionStats. solve_structure.
  - unfold CommitSnapshot. solve_structure.
  - unfold GetSnapshot. solve_structure.
  - unfold ListSnapshots. solve_structure.
  - unfold AbortTransaction. solve_structure.
Qed.
End handlers.
