(* ===== verification/Serving.v ===== *)
(** * A server at rest

    The state between two requests ([serving]): every connection idle, no
    table locked, the cache coherent with the committed database; and what the
    scopes of World.v do from such a state. *)
From S2P Require Import Prelude Cxx Sql Database PgService DbFacts PgClient PgSpec PgWrites LruCache Mvcc World PartitionRegistry.
From S2P Require LockManager ConnectionPool.

(** ** Cache keys *)

Lemma make_cache_key_inj t s t' s' : make_cache_key t s = make_cache_key t' s' -> t = t' /\ s = s'.
Proof.
  unfold make_cache_key. cbn. intros E.
  apply split_last in E as [-> ?%to_string_inj]; [done|by apply to_string_free_of..].
Qed.

Lemma key_has_prefix t s : String.prefix (t +:+ ":") (make_cache_key t s) = true.
Proof. unfold make_cache_key. rewrite append_assoc. apply prefix_app. Qed.

(** The cache holds what a query would answer, but for the tables [stale]. *)
Definition coherent (stale : string -> Prop) (d : Db) (c : PartitionCache) : Prop :=
  forall name s rows, (make_cache_key name s, rows) ∈ view c -> nul_free name -> ~ stale name ->
    partitions_at d name s = Some rows.
Definition no_table (_ : string) : Prop := False.

Section serving.
Context {P : PgService}.

(** The cache can be used and agrees with [d], but for the tables [stale]. *)
Record cache_ok_but {stale : string -> Prop} (d : Db) (c : PartitionCache) : Prop := {
  ca_wf : wf c;
  ca_capacity : 0 < capacity_ c;
  ca_coherent : coherent stale d c }.

(** Everything but the locks: [d] is committed, no transaction is open, the
    pool holds an idle connection at least and only idle ones. *)
Record settled_but {stale : string -> Prop} (w : World) (d : Db) : Prop := {
  se_committed : committed (abs (w_pg w)) = d;
  se_db : db_ok (seqs (abs (w_pg w))) d;
  se_seqs : seqs_ok (seqs (abs (w_pg w)));
  se_idle : forall c x, sessions (abs (w_pg w)) !! c = Some x -> x = Idle \/ x = Broken;
  se_pool : forall c, c ∈ ConnectionPool.available_connections_ (w_pool w) ->
      sessions (abs (w_pg w)) !! c = Some Idle;
  se_some : ConnectionPool.available_connections_ (w_pool w) <> [];
  se_cache : cache_ok_but (stale := stale) d (w_cache w) }.

Definition unlocked (w : World) : Prop :=
  forall name, LockManager.mutex_of name (w_locks w) = LockManager.free_mutex.

Definition serving_but {stale : string -> Prop} (w : World) (d : Db) : Prop :=
  settled_but (stale := stale) w d /\ unlocked w.

Abbreviation cache_ok := (cache_ok_but (stale := no_table)).
Abbreviation settled := (settled_but (stale := no_table)).
Abbreviation serving := (serving_but (stale := no_table)).

(** A connection was used and is idle again; [d'] is committed. *)
Record rested (c : PGconn) (a a' : PgAbs) (d' : Db) : Prop := {
  re_committed : committed a' = d';
  re_db : db_ok (seqs a') d';
  re_seqs : seqs_ok (seqs a');
  re_idle : sessions a' !! c = Some Idle;
  re_others : forall c', c' <> c -> sessions a' !! c' = sessions a !! c' }.

(** ** Scopes *)

Context (self : tid).

(** The results after which a scope is left by its end or by an exception. *)
Definition leaves {A} (r : outcome A) : bool := match r with Ret _ | Throw _ => true | Wait | UB => false end.

Definition registered (n : string) (l : LockManager.LockManager) : Prop := is_Some (LockManager.table_locks_ l !! n).

(** The same mutexes in the same state, and none forgotten. *)
Definition same_locks (l l' : LockManager.LockManager) : Prop :=
  forall n, LockManager.mutex_of n l' = LockManager.mutex_of n l /\ (registered n l -> registered n l').

#[export] Instance same_locks_preorder : PreOrder same_locks.
Proof.
  split; [by intros l n|]. intros l1 l2 l3 H1 H2 n. destruct (H1 n) as [E1 R1], (H2 n) as [E2 R2].
  split; [congruence|auto].
Qed.

Lemma registered_set n name m l : registered n l \/ n = name -> registered n (LockManager.set_mutex name m l).
Proof.
  intros H. unfold registered, LockManager.set_mutex. cbn. destruct (decide (n = name)) as [->|Hne].
  - rewrite lookup_insert_eq. by eexists.
  - rewrite lookup_insert_ne by done. by destruct H.
Qed.

(** Releasing a mutex that nobody else holds frees it. *)
Lemma release_own md name l :
  registered name l -> LockManager.mutex_of name l = LockManager.acquired md self LockManager.free_mutex ->
  LockManager.release md self name l = LockManager.Done (LockManager.set_mutex name LockManager.free_mutex l).
Proof.
  intros [m Hreg] Hm. unfold LockManager.mutex_of in Hm. rewrite Hreg in Hm. cbn in Hm. subst m.
  destruct md; cbn [LockManager.release]; unfold LockManager.release_shared, LockManager.release_exclusive;
    rewrite Hreg; unfold LockManager.unlock_shared, LockManager.unlock;
    cbn [LockManager.acquired LockManager.readers LockManager.writer LockManager.free_mutex].
  - rewrite bool_decide_eq_true_2 by (by left). rewrite filter_cons, decide_False by (intros Hx; by apply Hx). done.
  - by rewrite bool_decide_eq_true_2.
Qed.

(** A guard on a table that is free. *)
Lemma with_guard_run md name (w : World) :
  LockManager.mutex_of name (w_locks w) = LockManager.free_mutex ->
  exists l, (forall n, n <> name -> LockManager.mutex_of n l = LockManager.mutex_of n (w_locks w))
    /\ forall A (body : M A) r w1,
      body (set_locks l w) = (r, w1) -> leaves r = true -> same_locks l (w_locks w1) ->
      exists l', same_locks (w_locks w) l' /\ with_guard md self name body w = (r, set_locks l' w1).
Proof.
  intros Hf. destruct (LockManager.acquire_cases md self name (w_locks w)) as (lm & Hm & Hr & E).
  rewrite Hf in E. change (LockManager.owns self LockManager.free_mutex) with false in E.
  cbn [LockManager.owns] in E. rewrite decide_True in E by (by destruct md).
  set (l := LockManager.set_mutex name (LockManager.acquired md self LockManager.free_mutex) lm) in *.
  assert (forall n, n <> name -> LockManager.mutex_of n l = LockManager.mutex_of n (w_locks w)) as Hother.
  { intros n Hn. unfold l. by rewrite LockManager.mutex_of_set, decide_False, Hm. }
  exists l. split; [done|]. intros A body r w1 Hb Hl Hsame.
  exists (LockManager.set_mutex name LockManager.free_mutex (w_locks w1)). split.
  - intros n. destruct (Hsame n) as [En Rn]. split.
    + rewrite LockManager.mutex_of_set. case_decide as Hn; [by subst|]. by rewrite En, Hother.
    + intros Hreg. apply registered_set. left. apply Rn, registered_set. left. apply Hr. by right.
  - unfold with_guard. rewrite E, Hb. rewrite release_own; [by destruct r| |].
    + apply Hsame, registered_set. by right.
    + rewrite (proj1 (Hsame name)). unfold l. by rewrite LockManager.mutex_of_set, decide_True.
Qed.

(** A connection from a pool whose front one is idle goes to its back. *)
Lemma with_connection_run c rest (w : World) `{!PgLaws P} :
  ConnectionPool.available_connections_ (w_pool w) = c :: rest -> sessions (abs (w_pg w)) !! c = Some Idle ->
  forall A (body : PGconn -> M A) r w1,
    body c (set_pool (ConnectionPool.set_available rest (w_pool w)) w) = (r, w1) -> leaves r = true ->
    with_connection body w
      = (r, set_pool (ConnectionPool.set_available (ConnectionPool.available_connections_ (w_pool w1) ++ [c]) (w_pool w1)) w1).
Proof.
  intros Ea Es A body r w1 Hb Hl. unfold with_connection, ConnectionPool.acquire. rewrite Ea.
  unfold ConnectionPool.validate_connection.
  assert (PQstatus c (w_pg w) = CONNECTION_OK) as Hst.
  { pose proof (proj1 (status_law c (w_pg w) Idle Es)) as Hst.
    destruct (PQstatus c (w_pg w)); [done|by specialize (Hst eq_refl)]. }
  rewrite bool_decide_eq_true_2 by done. cbn [ConnectionPool.conn_].
  replace (set_pg (w_pg w) _) with (set_pool (ConnectionPool.set_available rest (w_pool w)) w) by (by destruct w).
  rewrite Hb. by destruct r.
Qed.

(** ** Running a scope from a server at rest *)

Lemma guarded_gen {A} stale md name (body : M A) w d (Q : A -> Db -> PartitionCache -> Prop) :
  settled w d -> LockManager.mutex_of name (w_locks w) = LockManager.free_mutex ->
  (forall w1, settled w1 d -> w_mvcc w1 = w_mvcc w -> w_cache w1 = w_cache w -> w_pg w1 = w_pg w ->
     (forall n, n <> name -> LockManager.mutex_of n (w_locks w1) = LockManager.mutex_of n (w_locks w)) ->
     exists a w2 d', body w1 = (Ret a, w2) /\ settled_but (stale := stale) w2 d' /\ same_locks (w_locks w1) (w_locks w2)
       /\ w_mvcc w2 = w_mvcc w1 /\ Q a d' (w_cache w2)) ->
  exists a w' d', with_guard md self name body w = (Ret a, w') /\ settled_but (stale := stale) w' d'
    /\ same_locks (w_locks w) (w_locks w') /\ w_mvcc w' = w_mvcc w /\ Q a d' (w_cache w').
Proof.
  intros S U Hbody. destruct (with_guard_run md name w U) as (l & Hother & Hrun).
  destruct (Hbody (set_locks l w)) as (a & w2 & d' & E & S2 & El & Em & HQ); [by destruct S|done..|].
  destruct (Hrun A body (Ret a) w2 E eq_refl El) as (l' & Hl' & E').
  exists a, (set_locks l' w2), d'. split; [done|]. split; [by destruct S2|]. done.
Qed.

Lemma unlocked_same w w' : same_locks (w_locks w) (w_locks w') -> unlocked w -> unlocked w'.
Proof. intros Hs U n. by rewrite (proj1 (Hs n)). Qed.

Lemma guarded_but {A} stale md name (body : M A) w d (Q : A -> Db -> PartitionCache -> Prop) :
  serving w d ->
  (forall w1, settled w1 d -> w_mvcc w1 = w_mvcc w -> w_cache w1 = w_cache w -> w_pg w1 = w_pg w ->
     exists a w2 d', body w1 = (Ret a, w2) /\ settled_but (stale := stale) w2 d' /\ w_locks w2 = w_locks w1
       /\ w_mvcc w2 = w_mvcc w1 /\ Q a d' (w_cache w2)) ->
  exists a w' d', with_guard md self name body w = (Ret a, w') /\ serving_but (stale := stale) w' d'
    /\ w_mvcc w' = w_mvcc w /\ Q a d' (w_cache w').
Proof.
  intros [S U] Hbody. destruct (guarded_gen stale md name body w d Q S (U name)) as (a & w' & d' & E & S' & L & Em & HQ).
  - intros w1 S1 Em Ec Ep _. destruct (Hbody w1 S1 Em Ec Ep) as (a & w2 & d' & E & S2 & El & H).
    exists a, w2, d'. rewrite El. split; [done|]. split; [done|]. split; [reflexivity|exact H].
  - exists a, w', d'. split; [done|]. split; [split; [done|by eapply unlocked_same]|done].
Qed.

Lemma settled_ready stale w d c :
  settled_but (stale := stale) w d -> c ∈ ConnectionPool.available_connections_ (w_pool w) -> ready c (abs (w_pg w)) d.
Proof.
  intros S Hc. pose proof (se_pool _ _ S c Hc) as E. pose proof (se_committed _ _ S) as Ec. split.
  - unfold PgService.view. rewrite E. cbn. by rewrite Ec.
  - apply S.
  - rewrite Ec. apply S.
  - apply S.
  - intros b x. rewrite E. done.
  - intros c' x Hx _. by eapply S.
Qed.

Lemma connected_gen {A} stale stale' (body : PGconn -> M A) w d (Q : outcome A -> Db -> PartitionCache -> Prop) `{!PgLaws P} :
  settled_but (stale := stale) w d ->
  (forall c w1, ready c (abs (w_pg w1)) d -> sessions (abs (w_pg w1)) !! c = Some Idle ->
     w_mvcc w1 = w_mvcc w -> w_cache w1 = w_cache w -> w_pg w1 = w_pg w ->
     exists r w2 d', body c w1 = (r, w2) /\ leaves r = true /\ rested c (abs (w_pg w1)) (abs (w_pg w2)) d'
       /\ w_pool w2 = w_pool w1 /\ w_locks w2 = w_locks w1 /\ w_mvcc w2 = w_mvcc w1
       /\ cache_ok_but (stale := stale') d' (w_cache w2) /\ Q r d' (w_cache w2)) ->
  exists r w' d', with_connection body w = (r, w') /\ leaves r = true /\ settled_but (stale := stale') w' d'
    /\ w_locks w' = w_locks w /\ w_mvcc w' = w_mvcc w /\ Q r d' (w_cache w').
Proof.
  intros S Hbody. destruct (ConnectionPool.available_connections_ (w_pool w)) as [|c rest] eqn:Ea.
  { by destruct (se_some _ _ S). }
  assert (c ∈ ConnectionPool.available_connections_ (w_pool w)) as Hc by (rewrite Ea; left).
  pose proof (se_pool _ _ S c Hc) as Es.
  destruct (Hbody c (set_pool (ConnectionPool.set_available rest (w_pool w)) w))
    as (r & w2 & d' & E & Hr & R & Ep & El & Em & Hca & HQ); [by apply (settled_ready stale w)|done..|].
  pose proof (with_connection_run c rest w Ea Es A body r w2 E Hr) as Erun.
  do 3 eexists. split; [exact Erun|]. split; [done|]. split; [|by split_and!].
  destruct R as [Rc Rdb Rq Ri Ro]. split; cbn; try done.
  - intros c' x Hx. destruct (decide (c' = c)) as [->|Hne]; [left; congruence|].
    rewrite Ro in Hx by done. by eapply (se_idle _ _ S).
  - intros c'. rewrite Ep. cbn. rewrite elem_of_app, list_elem_of_singleton. intros [Hin| ->]; [|done].
    destruct (decide (c' = c)) as [->|Hne]; [done|]. rewrite Ro by done. apply (se_pool _ _ S). rewrite Ea. by right.
  - intros [_ Hx]%app_nil. done.
Qed.

Lemma connected_but {A} stale stale' (body : PGconn -> M A) w d (Q : A -> Db -> PartitionCache -> Prop) `{!PgLaws P} :
  settled_but (stale := stale) w d ->
  (forall c w1, ready c (abs (w_pg w1)) d -> sessions (abs (w_pg w1)) !! c = Some Idle ->
     w_mvcc w1 = w_mvcc w -> w_cache w1 = w_cache w -> w_pg w1 = w_pg w ->
     exists a w2 d', body c w1 = (Ret a, w2) /\ rested c (abs (w_pg w1)) (abs (w_pg w2)) d'
       /\ w_pool w2 = w_pool w1 /\ w_locks w2 = w_locks w1 /\ w_mvcc w2 = w_mvcc w1
       /\ cache_ok_but (stale := stale') d' (w_cache w2) /\ Q a d' (w_cache w2)) ->
  exists a w' d', with_connection body w = (Ret a, w') /\ settled_but (stale := stale') w' d' /\ w_locks w' = w_locks w
    /\ w_mvcc w' = w_mvcc w /\ Q a d' (w_cache w').
Proof.
  intros S Hbody.
  destruct (connected_gen stale stale' body w d (fun r d' c => exists a, r = Ret a /\ Q a d' c) S)
    as (r & w' & d' & E & _ & S' & El & Em & a & -> & HQ); [|by exists a, w', d'].
  intros c w1 Rd Hi Em Ec Ep. destruct (Hbody c w1 Rd Hi Em Ec Ep) as (a & w2 & d' & E & R & Epl & El & Em2 & Hc & HQ).
  exists (Ret a), w2, d'. do 7 (split; [done|]). by exists a.
Qed.

(** The usual case: the cache agrees everywhere. *)
Definition guarded {A} md name (body : M A) w d Q := guarded_but no_table md name body w d Q.
Definition connected {A} (body : PGconn -> M A) w d Q `{!PgLaws P} := connected_but no_table no_table body w d Q.

(** A query that only reads leaves everything at rest. *)
Lemma reads_only {A} (m : PGconn -> PgM A) w d v `{!PgLaws P} :
  settled w d ->
  (forall c s, ready c (abs s) d -> sessions (abs s) !! c = Some Idle ->
     exists s', m c s = (inr v, s') /\ abs s' = abs s) ->
  exists w', with_connection (fun c => on_pg (m c)) w = (Ret v, w') /\ settled w' d
    /\ w_locks w' = w_locks w /\ w_mvcc w' = w_mvcc w /\ w_cache w' = w_cache w.
Proof.
  intros S Hm.
  destruct (connected (fun c => on_pg (m c)) w d (fun a d' c => a = v /\ d' = d /\ c = w_cache w) S)
    as (a & w' & d' & E & S' & El & Em & -> & -> & Ec); [|by exists w'].
  intros c w1 Rd Hi Em Ec Epg. destruct (Hm c (w_pg w1) Rd Hi) as (s' & E & Ea).
  exists v, (set_pg s' w1), d. unfold on_pg. rewrite E. split; [done|]. cbn. split.
  { rewrite Ea. pose proof (rd_view _ _ _ Rd) as V. unfold PgService.view in V. rewrite Hi in V. injection V as V.
    split; try done; apply Rd. }
  rewrite Ec. split_and!; try done. apply S.
Qed.
End serving.

Abbreviation cache_ok := (cache_ok_but (stale := no_table)).
Abbreviation settled := (settled_but (stale := no_table)).
Abbreviation serving := (serving_but (stale := no_table)).
