(* ===== verification/Demo.v ===== *)
(** * A server to run

    A server on the executable service of RefServer.v with the table "orders"
    and two commits, at rest: the concrete input of the witnesses. *)
From S2P Require Import Prelude Cxx ServerConfig Sql Database PgService DbFacts RefServer PgClient PgSpec LruCache Mvcc World PartitionRegistry MetadataServer Serving.
From S2P Require LockManager ConnectionPool.

(** A boolean test of [ids_below]. *)
Definition ids_below_check (q : Seqs) (d : Db) : bool :=
  let below (hi : Z) (l : list Z) := forallb (fun z => (1 <=? z) && (z <? hi)) l in
  below (sq_tables q) (tb_table_id <$> db_tables d)
  && below (sq_history q) (hi_schema_history_id <$> db_history d)
  && below (sq_snapshots q) (sn_snapshot_id <$> db_snapshots d)
  && below (sq_partitions q) (pa_partition_id <$> db_partitions d)
  && below (sq_transactions q) (tx_txn_id <$> db_transactions d).

Lemma ids_below_checked q d : ids_below_check q d = true -> ids_below q d.
Proof.
  unfold ids_below_check. rewrite !andb_true_iff, !forallb_elem. intros [[[[H1 H2] H3] H4] H5].
  assert (forall {R} (f : R -> Z) hi (l : list R),
    (forall z, z ∈ f <$> l -> (1 <=? z) && (z <? hi) = true) -> forall r, r ∈ l -> 1 <= f r < hi) as H.
  { intros R f hi l Hl r Hr. specialize (Hl (f r) (list_elem_of_fmap_2 f l r Hr)). lia. }
  split_and!; by apply H.
Qed.

(** A boolean test of the parts of [serving] that are about the database and
    the connections. *)
Definition settled_check (q : Seqs) (d : Db) (ss : gmap PGconn session) (pool : list PGconn) : bool :=
  constraints_ok d && ids_below_check q d
  && (1 <=? sq_tables q) && (1 <=? sq_history q) && (1 <=? sq_snapshots q)
  && (1 <=? sq_partitions q) && (1 <=? sq_transactions q)
  && forallb (fun '(_, x) => match x with Idle | Broken => true | _ => false end) (map_to_list ss)
  && forallb (fun c => match ss !! c with Some Idle => true | _ => false end) pool
  && negb (bool_decide (pool = [])).

(** A server with an empty cache and free locks is at rest when it passes. *)
Lemma serving_checked `{PgService} (w : World) :
  settled_check (seqs (abs (w_pg w))) (committed (abs (w_pg w))) (sessions (abs (w_pg w)))
    (ConnectionPool.available_connections_ (w_pool w)) = true ->
  (exists n, 0 < n /\ w_cache w = make_cache n) ->
  forallb (fun '(_, m) => @bool_decide (m = LockManager.free_mutex) (LockManager.shared_mutex_eq_dec _ _)) (map_to_list (LockManager.table_locks_ (w_locks w))) = true ->
  serving w (committed (abs (w_pg w))).
Proof.
  unfold settled_check. rewrite !andb_true_iff, !forallb_elem, negb_true_iff, bool_decide_eq_false, !Z.leb_le.
  intros Hs (n & Hn & Hc) Hl. destruct_and! Hs. split; [split; try done|].
  - split; [done|]. by apply ids_below_checked.
  - intros c x Hx. assert ((c, x) ∈ map_to_list (sessions (abs (w_pg w)))) as Hin by by apply elem_of_map_to_list.
    match goal with Hi : forall y, y ∈ map_to_list _ -> _ |- _ => specialize (Hi _ Hin) end. cbn in *.
    destruct x; try done; auto.
  - intros c Hin. match goal with Hi : forall y, y ∈ ConnectionPool.available_connections_ _ -> _ |- _ => specialize (Hi _ Hin) end.
    cbn in *. by destruct (sessions _ !! c) as [[]|].
  - rewrite Hc. split; [apply wf_make|done|]. intros name s rows Hin. by apply not_elem_of_nil in Hin.
  - intros name. unfold LockManager.mutex_of. destruct (LockManager.table_locks_ (w_locks w) !! name) as [m|] eqn:E; [|done].
    apply elem_of_map_to_list in E. specialize (Hl _ E). cbn in *. by apply bool_decide_eq_true in Hl.
Qed.

#[export] Existing Instance reliable_service_laws.
#[export] Existing Instance reliable_service_reliable.

Definition demo_config : ServerConfig := mkConfig "" "" 2 2 300.
Definition demo_start : @World reliable_service :=
  make_server demo_config 0 (ref_start (mkDb [] [] [] [] []) first_seqs [] [] : @pg reliable_service).

Definition demo_part (key : string) (rows bytes : Z) : PartitionInfo :=
  mkPartitionInfo key ("s3://bucket/" +:+ key) rows bytes 0 "" [].

(** The table, without a snapshot. *)
Definition demo_table : @World reliable_service :=
  (CreateTable 0 (mkCreateTableRequest "orders" "{}" "day" []) demo_start).2.

(** Two commits later. *)
Definition demo : @World reliable_service :=
  let w1 := (CommitSnapshot 0 "orders" [demo_part "a" 10 100; demo_part "b" 20 300] [] 0 "" demo_table).2 in
  (CommitSnapshot 0 "orders" [demo_part "c" 30 200] ["a"] 1 "overwrite" w1).2.

Definition demo_db : Db := Eval vm_compute in committed (abs (w_pg demo)).
Definition demo_table_db : Db := Eval vm_compute in committed (abs (w_pg demo_table)).

Lemma nul_free_demo : nul_free "orders".
Proof. reflexivity. Qed.

Lemma demo_serving : serving demo demo_db.
Proof.
  assert (committed (abs (w_pg demo)) = demo_db) as <- by (vm_compute; reflexivity).
  apply serving_checked; [vm_compute; reflexivity| |vm_compute; reflexivity].
  exists 2. split; [lia|]. vm_compute. reflexivity.
Qed.

Lemma demo_table_serving : serving demo_table demo_table_db.
Proof.
  assert (committed (abs (w_pg demo_table)) = demo_table_db) as <- by (vm_compute; reflexivity).
  apply serving_checked; [vm_compute; reflexivity| |vm_compute; reflexivity].
  exists 2. split; [lia|]. vm_compute. reflexivity.
Qed.

(** A partition a client of the registry adds, and what "orders" holds now. *)
Definition demo_row (key : string) : PartitionRow := mkPartitionRow 0 0 0 key "s3://bucket/new" "parquet" 5 50 "{}".
Definition demo_rows : list PartitionRow := Eval vm_compute in default [] (partitions_at demo_db "orders" 2).

(** A run whose answer is known. *)
Lemma run_pair {A B} (x : A * B) (a : A) (b : B) : x.1 = a -> b = x.2 -> x = (a, b).
Proof. destruct x. cbn. by intros -> ->. Qed.
