(* ===== verification/Transactions.v ===== *)
(** * Transactions on a reliable service

    BEGIN, COMMIT and ROLLBACK on a connection that works alone, and the loops
    of [commit_snapshot] inside a transaction. *)
From S2P Require Import Prelude Cxx Sql Database PgService DbFacts PgClient PgSpec PgWrites Changes World PartitionRegistry.

Section transactions.
Context {P : PgService}.
Implicit Types (c : PGconn) (a : PgAbs) (b d w : Db) (s : pg).

(** Connection [c] is in a transaction begun on [b]: it sees [w], or the
    transaction has failed. *)
Record in_tx c a b (od : option Db) : Prop := {
  tx_committed : committed a = b;
  tx_ok : db_ok (seqs a) b;
  tx_seqs : seqs_ok (seqs a);
  tx_session : sessions a !! c = Some match od with Some w => InTx b w | None => InFailedTx b end;
  tx_work : forall w, od = Some w -> db_ok (seqs a) w;
  tx_alone : forall c' x, sessions a !! c' = Some x -> c' <> c -> x = Idle \/ x = Broken }.

Definition keeps_others c a a' : Prop := forall c', c' <> c -> sessions a' !! c' = sessions a !! c'.

#[export] Instance keeps_others_preorder c : PreOrder (keeps_others c).
Proof.
  split; [intros a c' _; done|]. intros a1 a2 a3 H1 H2 c' Hc. by rewrite (H2 c' Hc), (H1 c' Hc).
Qed.

Lemma in_tx_ready c a b w : in_tx c a b (Some w) -> ready c a w.
Proof.
  intros [Hc Hb Hq Hs Hw Ha]. split; try done.
  - unfold view. by rewrite Hs.
  - by apply Hw.
  - by rewrite Hc.
  - intros b' w'. rewrite Hs. by intros [= <- _].
Qed.

Lemma in_tx_serial c a b od : in_tx c a b od -> serial c a.
Proof.
  intros T. split; [|apply T]. intros b' w'. rewrite (tx_session _ _ _ _ T).
  destruct od; [|done]. intros [= <- _]. apply T.
Qed.

Lemma wrote_tx c s s' b w od :
  in_tx c (abs s) b (Some w) -> wrote c s s' od ->
  in_tx c (abs s') b od /\ keeps_others c (abs s) (abs s').
Proof.
  intros T Hw. pose proof (tx_session _ _ _ _ T) as E. destruct T as [Hc Hb Hq _ _ Ha].
  assert (forall q (x : session) (c' : PGconn), c' <> c -> sessions (set_seqs q (set_session c x (abs s))) !! c' = sessions (abs s) !! c') as Ho.
  { intros q x c' Hne. cbn. by rewrite lookup_insert_ne. }
  destruct od as [d'|]; cbn in Hw.
  - destruct Hw as (Rd & q & Hle & Ea). unfold set_view in Ea. rewrite E in Ea. rewrite Ea in *. split.
    + split; cbn; try done.
      * by eapply db_ok_mono.
      * by eapply seqs_ok_mono.
      * by rewrite lookup_insert_eq.
      * intros w' [= <-]. apply Rd.
      * intros c' x. rewrite lookup_insert. case_decide; [done|]. by apply Ha.
    + intros c' Hne. apply (Ho q (InTx b d')); done.
  - destruct Hw as (q & Hle & Ea). unfold fail_view in Ea. rewrite E in Ea. rewrite Ea. split.
    + split; cbn; try done.
      * by eapply db_ok_mono.
      * by eapply seqs_ok_mono.
      * by rewrite lookup_insert_eq.
      * intros c' x. rewrite lookup_insert. case_decide; [done|]. by apply Ha.
    + intros c' Hne. apply (Ho q (InFailedTx b)); done.
Qed.

(** A control statement does what [tx_control] says. *)
Lemma control_effect c st a r a' x x' d' :
  is_query st = false -> sessions a !! c = Some x -> tx_control st x (committed a) = Some (x', d') ->
  exec_ok pg_env c st [] a r a' -> a' = set_committed d' (set_session c x' a).
Proof.
  intros Hq E Ht Ok.
  inversion Ok as [d0 now n r0 d'' q Hq' _ _ _|d0 now n r0 q q' Hq' _ _ _ _ _|b r0 Hb Hf _|x0 x0' d0 r0 _ E' Ht' Hr]; subst;
    try congruence.
  rewrite E in Hf. injection Hf as ->. destruct Hb as [Hb| ->]; [congruence|]. by cbn in Ht.
Qed.

(** BEGIN on a connection that is idle. *)
Lemma begun c a a' d :
  ready c a d -> sessions a !! c = Some Idle ->
  a' = set_committed (committed a) (set_session c (InTx (committed a) (committed a)) a) ->
  in_tx c a' d (Some d) /\ keeps_others c a a' /\ seqs a' = seqs a.
Proof.
  intros Rd E ->. pose proof (rd_view _ _ _ Rd) as V. unfold view in V. rewrite E in V. injection V as V. rewrite V.
  split_and!; [|intros c' Hc; cbn; by rewrite lookup_insert_ne|done].
  split; cbn; try done; try apply Rd.
  - by rewrite lookup_insert_eq.
  - intros w [= <-]. apply Rd.
  - intros c' x. rewrite lookup_insert. case_decide; [done|]. intros Hx Hne. by apply (rd_alone _ _ _ Rd c').
Qed.

Section control.
Context `{!PgLaws P, !PgReliable P}.

Lemma exec_control c text st s x x' d' :
  parse_sql text = Some st -> is_query st = false -> serial c (abs s) ->
  sessions (abs s) !! c = Some x -> x <> Broken ->
  tx_control st x (committed (abs s)) = Some (x', d') ->
  exists r s', exec c text s = (inr r, s') /\ abs s' = set_committed d' (set_session c x' (abs s)).
Proof.
  intros Hp Hq Hser E Hx Ht. unfold exec. destruct (PQexec c text s) as [r s'] eqn:Ex.
  pose proof (reliable_law c text st s r s' x Hp Hser E Hx Ex) as Ok.
  exists r, s'. split; [done|]. by eapply control_effect.
Qed.

Lemma begin_spec c s d :
  ready c (abs s) d -> sessions (abs s) !! c = Some Idle ->
  exists r s', exec c "BEGIN" s = (inr r, s') /\ in_tx c (abs s') d (Some d)
    /\ keeps_others c (abs s) (abs s') /\ seqs (abs s') = seqs (abs s).
Proof.
  intros Rd E.
  destruct (exec_control c "BEGIN" Begin s Idle (InTx (committed (abs s)) (committed (abs s))) (committed (abs s)))
    as (r & s' & Ex & Ea); [by vm_compute|done|by apply ready_serial in Rd|done..|].
  exists r, s'. split; [done|]. by apply begun.
Qed.

(** The end of a transaction: [b] stays, or [w] is committed. *)
Record ended c s s' d : Prop := {
  en_committed : committed (abs s') = d;
  en_idle : sessions (abs s') !! c = Some Idle;
  en_others : keeps_others c (abs s) (abs s');
  en_seqs : seqs (abs s') = seqs (abs s) }.

Lemma commit_spec c s b w :
  in_tx c (abs s) b (Some w) -> exists r s', exec c "COMMIT" s = (inr r, s') /\ ended c s s' w.
Proof.
  intros T. destruct (exec_control c "COMMIT" Commit s (InTx b w) Idle w) as (r & s' & Ex & Ea);
    [by vm_compute|done|by eapply in_tx_serial|apply T|done|done|].
  exists r, s'. split; [done|]. split; rewrite Ea; [done|cbn; by rewrite lookup_insert_eq| |done].
  intros c' Hc. cbn. by rewrite lookup_insert_ne.
Qed.

Lemma rollback_spec c s b od :
  in_tx c (abs s) b od -> exists r s', exec c "ROLLBACK" s = (inr r, s') /\ ended c s s' b.
Proof.
  intros T. pose proof (tx_committed _ _ _ _ T) as Hc.
  destruct (exec_control c "ROLLBACK" Rollback s (match od with Some w => InTx b w | None => InFailedTx b end) Idle b)
    as (r & s' & Ex & Ea); [by vm_compute|done|by eapply in_tx_serial|apply T|by destruct od|by destruct od; rewrite <- Hc|].
  exists r, s'. split; [done|]. split; rewrite Ea; [done|cbn; by rewrite lookup_insert_eq| |done].
  intros c' Hc'. cbn. by rewrite lookup_insert_ne.
Qed.

End control.

(** ** The loops *)

Context `{!PgLaws P, !PgRuns P}.

Lemma find_live_tables d d' name : db_tables d' = db_tables d -> find_live d' name = find_live d name.
Proof. intros E. unfold find_live. by rewrite E. Qed.

Lemma partition_insert_tables n tid snap part d d' :
  partition_insert n tid snap part d = Some d' -> db_tables d' = db_tables d.
Proof.
  unfold partition_insert. destruct (new_part _ _ _ _); [|done]. cbn [mbind option_bind].
  by intros [-> _]%check_some.
Qed.

Lemma insert_all_spec c name snap t parts s b w :
  in_tx c (abs s) b (Some w) -> find_live w (c_str name) = Some t ->
  exists o s', insert_all c name snap parts s = (inr o, s')
    /\ in_tx c (abs s') b (insert_parts (sq_partitions (seqs (abs s))) (tb_table_id t) snap parts w)
    /\ (o = None <-> is_Some (insert_parts (sq_partitions (seqs (abs s))) (tb_table_id t) snap parts w))
    /\ keeps_others c (abs s) (abs s').
Proof.
  revert s w. induction parts as [|part parts IH]; intros s w T Hl.
  - exists None, s. split; [done|]. split; [done|]. split; [|done]. split; [by eexists|done].
  - cbn [insert_all insert_parts]. unfold pbind at 1.
    destruct (insert_partition_spec c name snap part s w (in_tx_ready _ _ _ _ T)) as (ok & s1 & E1 & H1).
    rewrite Hl in H1. destruct H1 as (Hok & Hw & Hq). rewrite E1.
    destruct (wrote_tx _ _ _ _ _ _ T Hw) as [T1 Ho1].
    destruct (partition_insert _ _ _ _ _) as [w1|] eqn:Ew; cbn [mbind option_bind].
    + rewrite bool_decide_eq_true_2 in Hok by (by eexists). subst ok. cbn [negb].
      destruct (IH s1 w1 T1) as (o & s2 & E2 & T2 & Ho & Hk2).
      { rewrite (find_live_tables w); [done|]. by eapply partition_insert_tables. }
      rewrite Hq in * by (by eexists). exists o, s2. split; [done|]. split; [done|]. split; [exact Ho|by etrans].
    + rewrite bool_decide_eq_false_2 in Hok by (by intros []). subst ok. cbn [negb].
      exists (Some ("Failed to insert partition: " +:+ pr_partition_key part)), s1.
      split; [done|]. split; [done|]. split; [by split; [|intros []]|done].
Qed.

Lemma delete_all_spec c name snap t keys s b w :
  in_tx c (abs s) b (Some w) -> find_live w (c_str name) = Some t ->
  exists o s', delete_all c name snap keys s = (inr o, s')
    /\ in_tx c (abs s') b (delete_parts (tb_table_id t) keys snap w)
    /\ (o = None <-> is_Some (delete_parts (tb_table_id t) keys snap w))
    /\ keeps_others c (abs s) (abs s').
Proof.
  revert s w. induction keys as [|key keys IH]; intros s w T Hl.
  - exists None, s. split; [done|]. split; [done|]. split; [|done]. split; [by eexists|done].
  - cbn [delete_all delete_parts]. unfold pbind at 1.
    destruct (mark_partition_deleted_spec c name key snap s w (in_tx_ready _ _ _ _ T)) as (ok & s1 & E1 & H1).
    rewrite Hl in H1. destruct H1 as (Hok & Hw). rewrite E1.
    destruct (wrote_tx _ _ _ _ _ _ T Hw) as [T1 Ho1].
    destruct (partition_delete _ _ _ _) as [w1|] eqn:Ew; cbn [mbind option_bind].
    + rewrite bool_decide_eq_true_2 in Hok by (by eexists). subst ok. cbn [negb].
      destruct (IH s1 w1 T1) as (o & s2 & E2 & T2 & Ho & Hk2).
      { rewrite (find_live_tables w); [done|]. unfold partition_delete in Ew. case_match; [|done].
        by apply check_some in Ew as [-> _]. }
      exists o, s2. split; [done|]. split; [done|]. split; [exact Ho|by etrans].
    + rewrite bool_decide_eq_false_2 in Hok by (by intros []). subst ok. cbn [negb].
      exists (Some ("Failed to mark partition deleted: " +:+ key)), s1.
      split; [done|]. split; [done|]. split; [by split; [|intros []]|done].
Qed.
End transactions.
