(* ===== verification/PgCatalog.v ===== *)
(** * What the query layer does to the catalog

    The methods of PgClient.v that create, rename, alter and drop a table, as
    changes of the database without SQL, like those of PgWrites.v. *)
From S2P Require Import Prelude Cxx Sql Database PgService DbFacts PgClient PgSpec PgWrites Changes World PartitionRegistry Transactions.

Section changes.
Context {P : PgService}.

(** A table of that name, dropped or not. *)
Definition name_taken (name : string) (d : Db) : bool := existsb (fun t => String.eqb (tb_table_name t) name) (db_tables d).

Definition new_table (n now : Z) (name schema spec props : string) : table_rec :=
  mkTable n name schema 1 (Some spec) (Some 0) (Some props) (Some now) (Some now) (Some false).

(** Creating a table: [None] is an error, [false] a name that is taken. *)
Definition table_insert (now n : Z) (name schema spec props : string) (d : Db) : option (bool * Db) :=
  j ← pg_jsonb_in schema; q ← pg_jsonb_in props;
  if name_taken name d then Some (false, d) else (true,.) <$> check (add_table (new_table n now name j spec q) d).

Definition name_update (now : Z) (old new : string) (d : Db) : option Db := check (update_tables old (set_name new now) d).

Definition drop_update (now : Z) (name : string) (d : Db) : option Db := check (update_tables name (set_dropped now) d).

(** A new schema for the live table of that name, and its entry in the history. *)
Definition schema_update (now1 : Z) (name schema : string) (version : Z) (d : Db) : option Db :=
  j ← pg_jsonb_in schema;
  if in_i32 version then check (update_tables name (set_schema j version now1) d) else None.
Definition history_insert (now n tid version : Z) (schema summary : string) (d : Db) : option Db :=
  j ← pg_jsonb_in schema;
  if in_i32 version then check (add_history (mkHistory n (Some tid) version j (Some now) (Some summary)) d) else None.

Context `{!PgLaws P, !PgReliable P}.

(** An INSERT with a conflict clause that returns nothing. *)
Lemma run_insert_conflict {R} `{InDb R} e rel cs vs cf ps d ss' r d' k taken :
  rel = rel_name -> d' = with_rows (rows_of d ++ [r]) d -> length cs = length vs -> required (R:=R) ⊆ cs ->
  bind_sets e ps (zip cs vs) = Some ss' -> apply_sets ss' (blank (se_next e) (se_now e)) = Some r ->
  find_col cf = Some k ->
  (forall r', match compare_vals CEq (col_get k r') (col_get k r) with Some true => true | _ => false end = taken r') ->
  constraints_ok d = true ->
  run_stmt e (Insert rel cs vs (Some cf) None) ps d =
    if existsb taken (rows_of d) then Some (command_ok "0", d) else (command_ok "1",.) <$> check d'.
Proof.
  intros -> -> Hl Hr Hss Ha Hk Ht Hc. rewrite (run_stmt_in (R:=R)) by done. unfold run_rel, run_insert.
  rewrite decide_True by done. rewrite Hss. cbn [mbind option_bind]. rewrite Ha. cbn [mbind option_bind].
  rewrite Hk. cbn [mbind option_bind].
  assert (forall l, existsb (fun r' => match compare_vals CEq (col_get k r') (col_get k r) with Some true => true | _ => false end) l
    = existsb taken l) as -> by (intros l; induction l as [|x l IH]; [done|]; cbn; by rewrite Ht, IH).
  destruct (existsb taken (rows_of d)).
  - by rewrite with_same_rows, Hc.
  - unfold check. by case_match.
Qed.

Lemma create_table_spec c name schema spec props s d :
  ready c (abs s) d ->
  exists b s' now, create_table c name schema spec props s = (inr b, s')
    /\ let o := table_insert now (sq_tables (seqs (abs s))) (c_str name) (c_str schema) (c_str spec) (c_str props) d in
       b = match o with Some (b, _) => b | None => false end /\ wrote c s s' (snd <$> o).
Proof.
  intros Rd. unfold create_table, pbind.
  sql_write Rd (fun now n : Z => (fun o : bool * Db => (command_ok (if o.1 then "1" else "0"), o.2))
      <$> table_insert now n (c_str name) (c_str schema) (c_str spec) (c_str props) d) r s' now n q E St HF.
  { intros now n. unfold table_insert.
    destruct (pg_jsonb_in (c_str schema)) as [j|] eqn:Hj; [destruct (pg_jsonb_in (c_str props)) as [p|] eqn:Hp|].
    2-3: (apply (run_insert_unbound (R:=table_rec)); [done|]; by coerce_ints).
    cbn [mbind option_bind]. unfold name_taken.
    erewrite (run_insert_conflict (R:=table_rec) _ _ _ _ _ _ d _ (new_table n now (c_str name) j (c_str spec) p) _
      (tcol "table_name") (fun t => String.eqb (tb_table_name t) (c_str name)));
      [|done|done|done|solve_required|by coerce_ints|done|done| |apply Rd].
    - change (rows_of d) with (db_tables d). destruct (existsb _ _); [done|]. unfold add_table. cbn. by destruct (check _).
    - intros t. cbn. by destruct (String.eqb _ _). }
  assert (n = sq_tables (seqs (abs s))) as -> by apply St. rewrite E.
  destruct (table_insert now _ _ _ _ _ _) as [[b d']|] eqn:Eo; cbn [fmap option_fmap option_map fst snd] in HF.
  - destruct HF as (-> & Ea & Rd'). exists b, s', now. rewrite Eo. split; [by destruct b|]. split; [done|]. split; [done|].
    exists q. split; [by eapply seqs_step_le|done].
  - destruct HF as (Hf & q' & Hq' & Ea). exists false, s', now. rewrite Eo. unfold command_was_ok. rewrite Hf.
    split; [done|]. split; [done|]. exists q'. split; [|done]. destruct Hq' as [->| ->]; [done|by eapply seqs_step_le].
Qed.

Lemma rename_table_spec c old new s d :
  ready c (abs s) d ->
  exists b s' now, rename_table c old new s = (inr b, s')
    /\ let od := name_update now (c_str old) (c_str new) d in b = bool_decide (is_Some od) /\ wrote c s s' od.
Proof.
  intros Rd. unfold rename_table, pbind.
  sql_write Rd (fun now n : Z => (command_ok (to_string (count_where (live (c_str old)) (db_tables d))),.)
      <$> name_update now (c_str old) (c_str new) d) r s' now n q E St HF.
  { intros now n. unfold name_update.
    apply (run_update (R:=table_rec) _ _ _ _ _ d (live_bound (c_str old))
      [(tcol "table_name", SText (c_str new)); (tcol "updated_at", STime now)]
      (live (c_str old)) (set_name (c_str new) now)); [done..| |apply holds_live|]; [by coerce_ints|by intros []]. }
  rewrite E. do 3 eexists. split; [done|]. by apply (wrote_intro _ _ _ _ _ _ _ _ _ St HF).
Qed.

(** At most one row is the live table of a name. *)
Lemma count_live d name : integrity d -> count_where (live name) (db_tables d) = match find_live d name with Some _ => 1 | None => 0 end.
Proof.
  intros I. unfold count_where. rewrite live_rows by done. by destruct (find_live d name).
Qed.

Lemma drop_table_soft_spec c name s d :
  ready c (abs s) d ->
  exists b s' now, drop_table c name false s = (inr b, s')
    /\ let od := drop_update now (c_str name) d in
       b = bool_decide (is_Some od /\ is_Some (find_live d (c_str name))) /\ wrote c s s' od.
Proof.
  intros Rd. unfold drop_table, pbind.
  sql_write Rd (fun now n : Z => (command_ok (to_string (count_where (live (c_str name)) (db_tables d))),.)
      <$> drop_update now (c_str name) d) r s' now n q E St HF.
  { intros now n. unfold drop_update.
    apply (run_update (R:=table_rec) _ _ _ _ _ d (live_bound (c_str name))
      [(tcol "is_deleted", SBool true); (tcol "updated_at", STime now)]
      (live (c_str name)) (set_dropped now)); [done..| |apply holds_live|]; [by coerce_ints|by intros []]. }
  rewrite E. do 3 eexists. split; [done|]. cbv zeta.
  destruct (wrote_intro _ _ _ _ _ _ _ _ _ St HF) as [Hok Hw]. split; [|done]. rewrite Hok.
  rewrite count_live in HF by by eapply ready_integrity.
  destruct (drop_update now (c_str name) d) as [d'|]; cbn [fmap option_fmap option_map] in HF.
  - destruct HF as (-> & _). rewrite bool_decide_eq_true_2 by (by eexists). unfold PQcmdTuples.
    destruct (find_live d (c_str name)) as [t|].
    + rewrite bool_decide_eq_true_2 by (split; by eexists). reflexivity.
    + rewrite bool_decide_eq_false_2 by (by intros [_ []]). reflexivity.
  - rewrite !bool_decide_eq_false_2; [done|by intros [[] _]|by intros []].
Qed.

(** ** In a transaction *)

(** A statement after a failure fails and changes nothing. *)
Lemma exec_failed_tx c text ps st s b :
  parse_sql text = Some st -> is_query st = true -> in_tx c (abs s) b None ->
  exists r s', exec_params c text ps s = (inr r, s') /\ command_was_ok r = false /\ abs s' = abs s.
Proof.
  intros Hp Hq T. unfold exec_params. destruct (PQexecParams c text ps s) as [r s'] eqn:Ex. exists r, s'. split; [done|].
  pose proof (tx_session _ _ _ _ T) as E.
  pose proof (runs_law c text ps st s r s' _ Hp Hq (in_tx_serial _ _ _ _ T) E ltac:(done) Ex) as Ok.
  assert (view c (abs s) = None) as V by (unfold view; by rewrite E).
  inversion Ok as [d0 now n r0 d' q _ Hv|d0 now n r0 q q' _ Hv|b0 r0 _ Hb Hf|]; subst; try congruence.
  unfold command_was_ok. by rewrite Hf.
Qed.

(** A statement without results in a transaction, failed or not. *)
Lemma exec_tx c text ps st s b od (F : Db -> option (PGresult * Db)) (change : Db -> option Db) :
  parse_sql text = Some st -> is_query st = true -> is_select st = false -> in_tx c (abs s) b od ->
  (forall d now n, run_stmt (pg_env now n) st ps d = F d) ->
  (forall d, exists k, F d = (command_ok k,.) <$> change d) ->
  exists r s', exec_params c text ps s = (inr r, s') /\ in_tx c (abs s') b (od ≫= change)
    /\ command_was_ok r = bool_decide (is_Some (od ≫= change)) /\ keeps_others c (abs s) (abs s').
Proof.
  intros Hp Hq Hs T HF Hch. destruct od as [d|]; cbn [mbind option_bind].
  - destruct (exec_update c text ps st s d (fun _ _ => F d) Hp Hq Hs (in_tx_ready _ _ _ _ T)) as (r & s' & now & n & q & E & St & HR);
      [done|]. destruct (Hch d) as [k Hk]. rewrite Hk in HR.
    destruct (wrote_intro _ _ _ _ _ _ _ _ _ St HR) as [Hok Hw]. destruct (wrote_tx _ _ _ _ _ _ T Hw) as [T' K'].
    by exists r, s'.
  - destruct (exec_failed_tx c text ps st s b Hp Hq T) as (r & s' & E & Hr & Ea). exists r, s'.
    rewrite Ea, Hr. by split_and!.
Qed.

Lemma run_delete {R} `{InDb R} e rel p ps d b (test : R -> bool) :
  rel = rel_name -> bind_pred e ps p = Some b -> (forall r, holds b r = test r) ->
  run_stmt e (Delete rel p) ps d =
    (command_ok (to_string (count_where test (rows_of d))),.) <$> check (with_rows (filter (fun r => negb (test r)) (rows_of d)) d).
Proof.
  intros -> Hb Ht. rewrite (run_stmt_in (R:=R)) by done. unfold run_rel. rewrite Hb. cbn [mbind option_bind].
  rewrite (count_where_ext test (fun r => holds b r)) by done. unfold count_where.
  rewrite (filter_ext_elem (fun r => negb (holds b r)) (fun r => negb (test r))) by (intros; by rewrite Ht).
  unfold check. by case_match.
Qed.

(** Deleting everything of a table. *)
Definition of_table (tid : Z) (o : option Z) : bool := match o with Some z => z =? tid | None => false end.
Definition delete_partitions (tid : Z) (d : Db) : option Db :=
  check (with_rows (filter (fun r => negb (of_table tid (pa_table_id r))) (db_partitions d)) d).
Definition delete_snapshots (tid : Z) (d : Db) : option Db :=
  check (with_rows (filter (fun r => negb (of_table tid (sn_table_id r))) (db_snapshots d)) d).
Definition delete_history (tid : Z) (d : Db) : option Db :=
  check (with_rows (filter (fun r => negb (of_table tid (hi_table_id r))) (db_history d)) d).
Definition delete_tables (name : string) (d : Db) : option Db :=
  check (with_rows (filter (fun r => negb (String.eqb (tb_table_name r) name)) (db_tables d)) d).
Definition purge (tid : Z) (name : string) (d : Db) : option Db :=
  d1 ← delete_partitions tid d; d2 ← delete_snapshots tid d1; d3 ← delete_history tid d2; delete_tables name d3.
End changes.

(** One DELETE in the transaction [T]. *)
Ltac sql_delete R T b test change r s' E T' Hok K :=
  match goal with
  | |- context [exec_params ?c ?text ?ps ?s] =>
      let st := eval vm_compute in (parse_sql text) in
      match type of T with in_tx _ _ ?base ?od =>
      match st with
      | Some ?st =>
          match st with
          | Delete ?rel ?p =>
          destruct (exec_tx c text ps st s base od (fun d => (command_ok (to_string (count_where test (rows_of d))),.) <$> change d)
            change) as (r & s' & E & T' & Hok & K);
            [vm_compute; reflexivity|reflexivity|reflexivity|exact T
            |intros; rewrite (run_delete (R:=R) _ rel p _ _ b test);
               [unfold delete_partitions, delete_snapshots, delete_history, delete_tables; reflexivity|reflexivity| |]
            |intros; by eexists|rewrite E; cbv beta iota]
          end
      end
      end
  end.

Section in_transaction.
Context {P : PgService} `{!PgLaws P, !PgReliable P}.

Definition col {R} `{Rel R} (name : string) : column R :=
  default (Col "" TText (fun _ => SNull) (fun _ _ => None)) (find_col name).

Lemma holds_of_table {R} `{Rel R} (k : column R) (f : R -> option Z) tid r :
  col_get k r = of_opt SInt (f r) -> holds (BCmp k CEq (SInt tid)) r = of_table tid (f r).
Proof. intros E. unfold holds. cbn. rewrite E. destruct (f r) as [z|]; [|done]. cbn. by destruct (z =? tid). Qed.

Lemma drop_table_purge_spec c name s b d :
  in_tx c (abs s) b (Some d) ->
  exists ok s', drop_table c name true s = (inr ok, s')
    /\ keeps_others c (abs s) (abs s')
    /\ match find_live d (c_str name) with
       | None => ok = false /\ abs s' = abs s
       | Some t =>
           let od := purge (tb_table_id t) (c_str name) d in
           ok = bool_decide (is_Some od) /\ in_tx c (abs s') b od
       end.
Proof.
  intros T. pose proof (in_tx_ready _ _ _ _ T) as Rd. unfold drop_table. table_id_step Rd s1 Ea1.
  destruct (find_live d (c_str name)) as [t|] eqn:Et; [|exists false, s1; by rewrite Ea1].
  destruct (find_live_id d _ t _ (rd_ok _ _ _ Rd) Et) as [_ Hid]. rewrite <- Ea1 in T |- *. clear Rd. unfold pbind.
  set (tid := tb_table_id t) in *.
  sql_delete partition_rec T (BCmp (col (R:=partition_rec) "table_id") CEq (SInt tid))
    (fun r => of_table tid (pa_table_id r)) (delete_partitions tid) r2 s2 E2 T2 Hok2 K2;
    [by coerce_ints|intros r; by apply holds_of_table|].
  sql_delete snapshot_rec T2 (BCmp (col (R:=snapshot_rec) "table_id") CEq (SInt tid))
    (fun r => of_table tid (sn_table_id r)) (delete_snapshots tid) r3 s3 E3 T3 Hok3 K3;
    [by coerce_ints|intros r; by apply holds_of_table|].
  sql_delete history_rec T3 (BCmp (col (R:=history_rec) "table_id") CEq (SInt tid))
    (fun r => of_table tid (hi_table_id r)) (delete_history tid) r4 s4 E4 T4 Hok4 K4;
    [by coerce_ints|intros r; by apply holds_of_table|].
  sql_delete table_rec T4 (BCmp (col (R:=table_rec) "table_name") CEq (SText (c_str name)))
    (fun r => String.eqb (tb_table_name r) (c_str name)) (delete_tables (c_str name)) r5 s5 E5 T5 Hok5 K5;
    [by coerce_ints|intros r; unfold holds; cbn; by destruct (String.eqb _ _)|].
  assert (purge tid (c_str name) d = (((Some d ≫= delete_partitions tid) ≫= delete_snapshots tid) ≫= delete_history tid)
    ≫= delete_tables (c_str name)) as Ep.
  { unfold purge. cbn [mbind option_bind]. destruct (delete_partitions tid d) as [d1|]; [|done]. cbn [mbind option_bind].
    destruct (delete_snapshots tid d1) as [d2|]; [|done]. cbn [mbind option_bind]. by destruct (delete_history tid d2). }
  rewrite Ep. exists (command_was_ok r5), s5. split; [done|]. split; [|done].
  do 3 (etrans; [done|]). done.
Qed.

(** ** A schema change *)

Definition schema_change (now1 now2 n : Z) (name schema : string) (version : Z) (summary : string) (d : Db) : option Db :=
  d1 ← schema_update now1 name schema version d;
  t ← find_live d1 name;
  history_insert now2 n (tb_table_id t) version schema summary d1.

Lemma update_table_schema_spec c name schema version summary s b d :
  in_tx c (abs s) b (Some d) ->
  exists ok s' now1 now2 n od', update_table_schema c name schema version summary s = (inr ok, s')
    /\ keeps_others c (abs s) (abs s')
    /\ let od := schema_change now1 now2 n (c_str name) (c_str schema) version (c_str summary) d in
       ok = bool_decide (is_Some od) /\ in_tx c (abs s') b od' /\ (is_Some od -> od' = od)
       /\ (forall h, h ∈ db_history d -> hi_schema_history_id h < n).
Proof.
  intros T. pose proof (in_tx_ready _ _ _ _ T) as Rd. unfold update_table_schema, schema_change.
  assert (forall h, h ∈ db_history d -> hi_schema_history_id h < sq_history (seqs (abs s))) as Hfresh.
  { intros h Hh. destruct (tx_work _ _ _ _ T d eq_refl) as [_ (_ & Hb & _)]. by apply Hb. } unfold pbind at 1.
  sql_write Rd (fun now n : Z => (command_ok (to_string (count_where (live (c_str name)) (db_tables d))),.)
      <$> schema_update now (c_str name) (c_str schema) version d) r1 s1 now1 n1 q1 E1 St1 HF1.
  { intros now n. unfold schema_update. destruct (pg_jsonb_in (c_str schema)) as [j|] eqn:Hj; cbn [mbind option_bind];
      [destruct (in_i32 version) eqn:Hv|].
    - apply (run_update (R:=table_rec) _ _ _ _ _ d (live_bound (c_str name))
        [(tcol "schema_json", SJson j); (tcol "schema_version", SInt version); (tcol "updated_at", STime now)]
        (live (c_str name)) (set_schema j version now)); [done..| |apply holds_live|]; [by coerce_ints|by intros []].
    - apply (run_update_unbound (R:=table_rec)); [done|]. by coerce_ints.
    - apply (run_update_unbound (R:=table_rec)); [done|]. by coerce_ints. }
  rewrite E1. destruct (wrote_intro _ _ _ _ _ _ _ _ _ St1 HF1) as [Hok1 Hw1]. rewrite Hok1.
  destruct (wrote_tx _ _ _ _ _ _ T Hw1) as [T1 K1].
  destruct (schema_update now1 (c_str name) (c_str schema) version d) as [d1|] eqn:Ed1.
  2:{ rewrite bool_decide_eq_false_2 by (by intros []). exists false, s1, now1, 0, (sq_history (seqs (abs s))), None. rewrite Ed1. by split_and!. }
  rewrite bool_decide_eq_true_2 by (by eexists). cbn [negb mbind option_bind].
  pose proof (in_tx_ready _ _ _ _ T1) as Rd1. table_id_step Rd1 s2 Ea2.
  destruct (find_live d1 (c_str name)) as [t|] eqn:Et.
  2:{ exists false, s2, now1, 0, (sq_history (seqs (abs s))), (Some d1). rewrite Ed1, Ea2. cbn [mbind option_bind]. rewrite Et.
      split_and!; try done. by intros []. }
  destruct (find_live_id d1 _ t _ (rd_ok _ _ _ Rd1) Et) as [_ Hid]. rewrite <- Ea2 in T1, K1. 
  pose proof (in_tx_ready _ _ _ _ T1) as Rd2. unfold pbind.
  sql_write Rd2 (fun now n : Z => (command_ok "1",.)
      <$> history_insert now n (tb_table_id t) version (c_str schema) (c_str summary) d1) r3 s3 now2 n q3 E3 St3 HF3.
  { intros now n. unfold history_insert. destruct (pg_jsonb_in (c_str schema)) as [j|] eqn:Hj; cbn [mbind option_bind];
      [destruct (in_i32 version) eqn:Hv|].
    - eapply (run_insert_plain (R:=history_rec)) with (out := None); [done|done|done|solve_required| | |done].
      + by coerce_ints.
      + done.
    - apply (run_insert_unbound (R:=history_rec)); [done|]. by coerce_ints.
    - apply (run_insert_unbound (R:=history_rec)); [done|]. destruct (in_i32 version) eqn:Hv; by coerce_ints. }
  rewrite E3. destruct (wrote_intro _ _ _ _ _ _ _ _ _ St3 HF3) as [Hok3 Hw3].
  destruct (wrote_tx _ _ _ _ _ _ T1 Hw3) as [T3 K3].
  do 2 eexists. exists now1, now2, n. eexists. split; [done|]. split; [by etrans|].
  rewrite Ed1. cbn [mbind option_bind]. rewrite Et. cbn [mbind option_bind]. split_and!; try done.
  destruct St3 as (_ & [-> _] & _). intros h Hh. destruct (tx_work _ _ _ _ T1 d1 eq_refl) as [_ (_ & Hb & _)]. apply Hb.
  unfold schema_update in Ed1. destruct (pg_jsonb_in (c_str schema)); [|done]. cbn [mbind option_bind] in Ed1. destruct (in_i32 version); [|done].
  apply check_some in Ed1 as [-> _]. exact Hh.
Qed.
End in_transaction.
