(* ===== verification/RegistrySpec.v ===== *)
(** * What the partition registry promises

    On a server at rest and a reliable service: reads answer what the
    committed database holds at the snapshot they resolve to, through the
    cache or not; a commit is all or nothing, is refused on a stale parent,
    and leaves the cache coherent. *)
From S2P Require Import Prelude Cxx Sql Database PgService DbFacts RefServer PgClient PgSpec PgWrites Changes LruCache Mvcc World PartitionRegistry MetadataServer Serving Demo Transactions.
From S2P Require LockManager ConnectionPool.

(** The snapshot a request reads. *)
Definition read_snapshot (m : MVCCManager) (d : Db) (name : string) (snapshot_id : Z) : Z :=
  let r := if snapshot_id =? 0 then latest_committed_snapshot_ m else snapshot_id in
  if r =? 0 then current_snapshot d (c_str name) else r.

(** The scope of the guard of the goal, from the server at rest [S]. *)
Ltac enter_guard S Q a w' d' E HQ :=
  match goal with
  | |- context [with_guard ?md ?self ?name ?body ?w] =>
      match type of S with
      | serving _ ?d => edestruct (guarded self md name body w d Q S) as (a & w' & d' & E & HQ)
      end
  end.

Section registry.
Context {P : PgService} `{!PgLaws P, !PgReliable P} (self : tid).

Lemma bind_ret {A B} (m : M A) (k : A -> M B) w a w1 : m w = (Ret a, w1) -> bind m k w = k a w1.
Proof. intros E. unfold bind. by rewrite E. Qed.

Lemma on_pg_ret {A} (m : PgM A) w a s : m (w_pg w) = (inr a, s) -> on_pg m w = (Ret a, set_pg s w).
Proof. intros E. unfold on_pg. by rewrite E. Qed.

(** A statement of a scope whose database is [s] already. *)
Lemma step_pg {A B} (m : PgM A) (k : A -> M B) s a s' w :
  m s = (inr a, s') -> bind (on_pg m) k (set_pg s w) = k a (set_pg s' w).
Proof. intros E. unfold bind, on_pg. cbn. by rewrite E. Qed.

Lemma resolve_snapshot_spec name snapshot_id w d :
  settled w d ->
  exists w', resolve_snapshot name snapshot_id w = (Ret (read_snapshot (w_mvcc w) d name snapshot_id), w')
    /\ settled w' d /\ w_locks w' = w_locks w /\ w_mvcc w' = w_mvcc w /\ w_cache w' = w_cache w.
Proof.
  intros S. unfold resolve_snapshot, read_snapshot.
  set (r := if snapshot_id =? 0 then latest_committed_snapshot_ (w_mvcc w) else snapshot_id).
  assert (requested_snapshot snapshot_id w = (Ret r, w)) as Er
    by (unfold requested_snapshot, r; by destruct (snapshot_id =? 0)).
  rewrite (bind_ret _ _ _ _ _ Er). destruct (r =? 0); [|by exists w].
  apply (reads_only (fun conn => get_current_snapshot conn name) w d _ S).
  intros c s Rd _. by apply get_current_snapshot_spec.
Qed.

Lemma cache_ok_get d c k c' v : cache_ok d c -> get k c = Some (v, c') -> cache_ok d c' /\ v = spec_lookup k (LruCache.view c).
Proof.
  intros [W Hc Co] E. destruct (get_refines c k W) as (c1 & E1 & W1 & V1 & C1).
  rewrite E in E1. injection E1 as -> <-. split; [|done]. split; [done|by rewrite C1|].
  intros name s rows. rewrite V1. intros Hin%elem_of_spec_touch. by apply Co.
Qed.

Lemma cache_ok_put d c name s rows :
  cache_ok d c -> partitions_at d name s = Some rows ->
  exists c', put (make_cache_key name s) rows c = Some c' /\ cache_ok d c'.
Proof.
  intros [W Hc Co] Hrows. destruct (put_refines c (make_cache_key name s) rows W Hc) as (c' & E & W' & V & C).
  exists c'. split; [done|]. split; [done|by rewrite C|].
  intros name' s' rows'. rewrite V. intros [[= Hk ->]|Hin]%elem_of_spec_put Hn; [|by eapply Co].
  apply make_cache_key_inj in Hk as [-> ->]. done.
Qed.

Lemma fetch_partitions_spec name snap w d :
  nul_free name -> settled w d ->
  exists w', with_connection (fun conn => fetch_partitions conn name snap (make_cache_key name snap)) w
      = (Ret (partitions_at d name snap), w')
    /\ settled w' d /\ w_locks w' = w_locks w /\ w_mvcc w' = w_mvcc w.
Proof.
  intros Hn S.
  destruct (connected (fun conn => fetch_partitions conn name snap (make_cache_key name snap)) w d
    (fun a d' _ => a = partitions_at d name snap /\ d' = d) S) as (a & w' & d' & E & S' & El & Em & -> & ->);
    [|by exists w'].
  intros c w1 Rd Hi Em Ec Epg. destruct (query_partitions_spec c name snap (w_pg w1) d Rd Hi) as (s' & E & Ea).
  rewrite Hn in E. unfold fetch_partitions. rewrite (bind_ret _ _ _ _ _ (on_pg_ret _ _ _ _ E)).
  assert (rested c (abs (w_pg w1)) (abs s') d) as R.
  { rewrite Ea. pose proof (rd_view _ _ _ Rd) as V. unfold PgService.view in V. rewrite Hi in V. injection V as V.
    split; try done; apply Rd. }
  assert (cache_ok d (w_cache w1)) as Hca by (rewrite Ec; apply S).
  destruct (partitions_at d name snap) as [rows|] eqn:Er.
  - destruct (cache_ok_put d (w_cache w1) name snap rows Hca Er) as (c' & Ep & Hca').
    exists (Some rows), (set_cache c' (set_pg s' w1)), d. split.
    { unfold bind, on_cache. cbn [w_cache set_pg]. by rewrite Ep. }
    by split_and!.
  - exists None, (set_pg s' w1), d. split; [done|]. by split_and!.
Qed.

Lemma get_partitions_spec name snapshot_id w d :
  nul_free name -> serving w d ->
  exists w', get_partitions self name snapshot_id w
      = (Ret (partitions_at d name (read_snapshot (w_mvcc w) d name snapshot_id)), w')
    /\ serving w' d /\ w_mvcc w' = w_mvcc w.
Proof.
  intros Hn S. unfold get_partitions. set (snap := read_snapshot (w_mvcc w) d name snapshot_id).
  enter_guard S (fun a d' (_ : PartitionCache) => a = partitions_at d name snap /\ d' = d) a w' d' E HQ.
  2:{ destruct HQ as (S' & Em & -> & ->). exists w'. by split. }
  intros w1 S1 Em Ec Epg. destruct (resolve_snapshot_spec name snapshot_id w1 d S1) as (w2 & E2 & S2 & El2 & Em2 & Ec2).
  rewrite Em in E2. fold snap in E2. rewrite (bind_ret _ _ _ _ _ E2). cbv zeta.
  destruct (get_refines (w_cache w2) (make_cache_key name snap) (ca_wf _ _ (se_cache _ _ S2))) as (c3 & Eg & _).
  destruct (cache_ok_get d _ _ _ _ (se_cache _ _ S2) Eg) as [Hca _].
  assert (on_cache (get (make_cache_key name snap)) w2
    = (Ret (spec_lookup (make_cache_key name snap) (LruCache.view (w_cache w2))), set_cache c3 w2)) as Eo
    by (unfold on_cache; by rewrite Eg).
  rewrite (bind_ret _ _ _ _ _ Eo).
  assert (settled (set_cache c3 w2) d) as S3 by (destruct S2; by split).
  destruct (spec_lookup _ _) as [rows|] eqn:El.
  - apply spec_lookup_elem in El. pose proof (ca_coherent _ _ (se_cache _ _ S2) _ _ _ El Hn (fun F => F)) as Hrows.
    do 3 eexists. split; [done|]. split; [exact S3|]. cbn. split_and!; congruence.
  - destruct (fetch_partitions_spec name snap _ d Hn S3) as (w4 & E4 & S4 & El4 & Em4).
    rewrite E4. do 3 eexists. split; [done|]. split; [exact S4|]. cbn in *. split_and!; congruence.
Qed.

(** ** Commits *)

(** What a commit amounts to: the new snapshot and the new database. *)
Definition commit_outcome (now1 now2 : Z) (q : Seqs) (name : string) (parent : Z) (op : string)
    (parts : list PartitionRow) (keys : list string) (d : Db) : option (Z * Db) :=
  if parent =? current_snapshot d name then
    t ← find_live d name;
    d' ← commit_change now1 now2 (sq_snapshots q) (sq_partitions q) t parent op parts keys d;
    Some (sq_snapshots q, d')
  else None.

Lemma invalidate_cache_ok stale name d d' c :
  cache_ok_but (stale := stale) d c -> (forall n, stale n -> n = name) ->
  (forall name' s, name' <> name -> partitions_at d' name' s = partitions_at d name' s) ->
  exists r c', invalidate_if (fun key => String.prefix (name +:+ ":") key) c = Some (r, c') /\ cache_ok d' c'
    /\ forall s rows, (make_cache_key name s, rows) ∉ LruCache.view c'.
Proof.
  intros [W Hc Co] Hst Hother.
  destruct (invalidate_if_refines c (fun key => String.prefix (name +:+ ":") key) W) as (r & c' & E & W' & V & C & _).
  exists r, c'. split; [done|]. split.
  - split; [done|by rewrite C|]. intros name' s rows. rewrite V. unfold spec_invalidate_if.
    intros [Hp Hin]%list_elem_of_filter Hn _.
    assert (name' <> name) as Hne; [intros ->; apply Hp|rewrite Hother by done; eapply Co; [done..|auto]].
    cbn [fst]. by rewrite key_has_prefix.
  - intros s rows. rewrite V. unfold spec_invalidate_if. intros [Hp _]%list_elem_of_filter.
    apply Hp. cbn [fst]. by rewrite key_has_prefix.
Qed.

Lemma rested_idle c s d : ready c (abs s) d -> sessions (abs s) !! c = Some Idle -> rested c (abs s) (abs s) d.
Proof.
  intros Rd Hi. pose proof (rd_view _ _ _ Rd) as V. unfold PgService.view in V. rewrite Hi in V.
  injection V as V. split; try done; apply Rd.
Qed.

Lemma rested_ended c s0 s s' d b od :
  in_tx c (abs s) b od -> keeps_others c (abs s0) (abs s) -> ended c s s' d -> db_ok (seqs (abs s)) d ->
  rested c (abs s0) (abs s') d.
Proof.
  intros T Hk [Hc Hi Ho Hq] Hd. split; [done| | |done|].
  - by rewrite Hq.
  - rewrite Hq. apply T.
  - intros c' Hne. by rewrite (Ho c' Hne), (Hk c' Hne).
Qed.

(** A refused commit: no success, no snapshot, the database as it was. *)
Definition refused (r : CommitResult) : Prop := cr_success r = false /\ cr_snapshot_id r = 0.

(** The answer and the database after a commit that amounts to [o]. *)
Definition verdict (o : option (Z * Db)) (d : Db) (r : CommitResult) (d' : Db) : Prop :=
  match o with
  | Some (n, d1) => r = mkCommitResult true n "" /\ d' = d1
  | None => refused r /\ d' = d
  end.

(** A scope that started with the database [s0] ends with [o], its connection
    at rest and the cache in agreement. *)
Definition concludes (c : PGconn) (s0 : pg) (d : Db) (w1 : World) (x : outcome CommitResult * World)
    (o : option (Z * Db)) : Prop :=
  exists r s' c' d', x = (Ret r, set_cache c' (set_pg s' w1)) /\ rested c (abs s0) (abs s') d'
    /\ cache_ok d' c' /\ verdict o d r d'.

(** Rolling back from any state of the transaction. *)
Lemma roll_back_spec c msg s0 d od s w1 :
  in_tx c (abs s) d od -> keeps_others c (abs s0) (abs s) -> cache_ok d (w_cache w1) ->
  concludes c s0 d w1 (roll_back c msg (set_pg s w1)) None.
Proof.
  intros T Hk Hca. destruct (rollback_spec c s d od T) as (r & s' & E & En).
  exists (mkCommitResult false 0 msg), s', (w_cache w1), d. unfold roll_back. rewrite (step_pg _ _ _ _ _ _ E).
  split; [done|]. split; [|by split_and!]. eapply rested_ended; [done..|]. apply T.
Qed.

(** A change of one table keeps what a cache can answer of the others. *)
Definition only_of (name : string) (d d' : Db) : Prop :=
  forall name' s, name' <> name -> partitions_at d' name' s = partitions_at d name' s.

Lemma publish_spec c name n s0 d s w w1 :
  nul_free name -> in_tx c (abs s) d (Some w) -> keeps_others c (abs s0) (abs s) -> cache_ok d (w_cache w1) ->
  (forall now d', pointer_update now name n w = Some d' -> only_of name d d') ->
  exists now, concludes c s0 d w1 (publish c name n (set_pg s w1)) ((fun d' => (n, d')) <$> pointer_update now name n w).
Proof.
  intros Hn T K Hca Hother. unfold publish.
  destruct (update_table_snapshot_spec c name n s w (in_tx_ready _ _ _ _ T)) as (ok & s6 & now & E6 & Hok & Hw6).
  destruct (wrote_tx _ _ _ _ _ _ T Hw6) as [T6 K6]. rewrite Hn in *. exists now.
  rewrite (step_pg _ _ _ _ _ _ E6). destruct (pointer_update now name n w) as [d'|] eqn:Ew.
  2:{ rewrite bool_decide_eq_false_2 in Hok by (by intros []). subst ok. cbn [negb].
      eapply roll_back_spec; [done|by etrans|done]. }
  rewrite bool_decide_eq_true_2 in Hok by (by eexists). subst ok. cbn [negb].
  destruct (commit_spec c s6 d d' T6) as (r7 & s7 & E7 & En7). rewrite (step_pg _ _ _ _ _ _ E7).
  destruct (invalidate_cache_ok no_table name d d' (w_cache w1) Hca) as (removed & c' & Einv & Hca' & _);
    [by intros n' []|intros name' s'; by eapply Hother|].
  exists (mkCommitResult true n ""), s7, c', d'. split; [|split; [|by split_and!]].
  - unfold invalidate_table_cache, bind, on_cache. cbn [w_cache set_pg]. by rewrite Einv.
  - eapply rested_ended; [exact T6|by etrans|done|]. by apply (tx_work _ _ _ _ T6).
Qed.

(** The changes of a commit on [w], where its snapshot is. *)
Definition changes (now n m : Z) (t : table_rec) (parts : list PartitionRow) (keys : list string) (w : Db) : option Db :=
  w4 ← insert_parts m (tb_table_id t) n parts w;
  w5 ← delete_parts (tb_table_id t) keys n w4;
  pointer_update now (tb_table_name t) n w5.

Lemma apply_changes_spec c n t parts keys s0 d s w w1 (m := sq_partitions (seqs (abs s))) :
  nul_free (tb_table_name t) -> find_live w (tb_table_name t) = Some t ->
  in_tx c (abs s) d (Some w) -> keeps_others c (abs s0) (abs s) -> cache_ok d (w_cache w1) ->
  (forall now d', changes now n m t parts keys w = Some d' -> only_of (tb_table_name t) d d') ->
  exists now, concludes c s0 d w1 (apply_changes c (tb_table_name t) n parts keys (set_pg s w1))
    ((fun d' => (n, d')) <$> changes now n m t parts keys w).
Proof.
  intros Hn Hl T K Hca Hother. unfold apply_changes, changes in *. fold m in Hother. rewrite <- Hn in Hl.
  destruct (insert_all_spec c _ n t parts s d w T Hl) as (o4 & s4 & E4 & T4 & Ho4 & K4). fold m in T4, Ho4.
  rewrite (step_pg _ _ _ _ _ _ E4). destruct (insert_parts m (tb_table_id t) n parts w) as [w4|] eqn:E4w.
  2:{ exists 0. destruct o4 as [msg|]; [|by destruct (proj1 Ho4 eq_refl)]. eapply roll_back_spec; [done|by etrans|done]. }
  assert (o4 = None) as -> by (apply Ho4; by eexists).
  assert (find_live w4 (c_str (tb_table_name t)) = Some t) as Hl4.
  { rewrite <- Hl. apply find_live_tables. by apply insert_parts_shape in E4w as (rs & _ & ->). }
  destruct (delete_all_spec c _ n t keys s4 d w4 T4 Hl4) as (o5 & s5 & E5 & T5 & Ho5 & K5).
  rewrite (step_pg _ _ _ _ _ _ E5). cbn [mbind option_bind] in *.
  destruct (delete_parts (tb_table_id t) keys n w4) as [w5|] eqn:E5w.
  2:{ exists 0. destruct o5 as [msg|]; [|by destruct (proj1 Ho5 eq_refl)].
      eapply roll_back_spec; [done|by do 2 (etrans; [done|])|done]. }
  assert (o5 = None) as -> by (apply Ho5; by eexists). cbn [mbind option_bind] in *.
  apply publish_spec; [done..|by do 2 (etrans; [done|])|done|done].
Qed.

Lemma commit_change_stages now1 now2 n m t parent op parts keys d :
  commit_change now1 now2 n m t parent op parts keys d
  = w ← snapshot_insert now1 n (tb_table_id t) parent (c_str op) (i32 (Z.of_nat (length parts))) (i32 (Z.of_nat (length keys))) d;
    changes now2 n m t parts keys w.
Proof. done. Qed.

Lemma snapshot_insert_tables now n tid parent op a b d w :
  snapshot_insert now n tid parent op a b d = Some w -> db_tables w = db_tables d.
Proof. unfold snapshot_insert. case_match; [|done]. by intros [-> _]%check_some. Qed.

(** The scope of a commit whose parent is current. *)
Lemma commit_with_current c name op parts keys s0 w1 d :
  nul_free name -> ready c (abs s0) d -> sessions (abs s0) !! c = Some Idle -> cache_ok d (w_cache w1) ->
  exists now1 now2, concludes c s0 d w1 (commit_with c name (current_snapshot d name) op parts keys (set_pg s0 w1))
    (commit_outcome now1 now2 (seqs (abs s0)) name (current_snapshot d name) op parts keys d).
Proof.
  intros Hn Rd Hi Hca. unfold commit_with, commit_outcome.
  destruct (get_current_snapshot_spec c name s0 d Rd) as (s1 & E1 & Ea1). rewrite Hn in E1.
  rewrite (step_pg _ _ _ _ _ _ E1). unfold validate_parent_snapshot. rewrite Z.eqb_refl. cbn [negb].
  rewrite <- Ea1 in Rd, Hi. destruct (begin_spec c s1 d Rd Hi) as (r2 & s2 & E2 & T2 & K2 & Q2).
  rewrite (step_pg (exec c "BEGIN") _ _ _ _ _ E2). rewrite Ea1 in K2, Q2.
  destruct (insert_snapshot_spec c name (current_snapshot d name) op (i32 (Z.of_nat (length parts)))
    (i32 (Z.of_nat (length keys))) s2 d (in_tx_ready _ _ _ _ T2)) as (z & s3 & now1 & E3 & H3). rewrite Hn in H3.
  rewrite (step_pg _ _ _ _ _ _ E3). exists now1.
  destruct (find_live d name) as [t|] eqn:Et; cbn [mbind option_bind].
  2:{ destruct H3 as [-> Ea3]. exists 0. eapply roll_back_spec; [by rewrite Ea3|by rewrite Ea3|done]. }
  apply find_live_spec in Et as Htn. destruct Htn as (_ & <- & _).
  destruct H3 as (Hz & Hw3 & Hq3). destruct (wrote_tx _ _ _ _ _ _ T2 Hw3) as [T3 K3]. rewrite Q2 in *.
  set (n := sq_snapshots (seqs (abs s0))) in *. assert (1 <= n) as Hn1 by (rewrite Ea1 in Rd; apply Rd).
  assert (keeps_others c (abs s0) (abs s3)) as K03 by by etrans. setoid_rewrite commit_change_stages.
  destruct (snapshot_insert _ _ _ _ _ _ _ _) as [w|] eqn:Ew; cbn [mbind option_bind]; subst z.
  2:{ exists 0. by eapply roll_back_spec. }
  replace (n =? 0) with false by lia. specialize (Hq3 ltac:(by eexists)).
  destruct (apply_changes_spec c n t parts keys s0 d s3 w w1) as (now2 & H); try done.
  - rewrite <- Et. apply find_live_tables. by eapply snapshot_insert_tables.
  - intros now d' Ech name' s Hne. rewrite Hq3 in Ech.
    eapply (commit_elsewhere now1 now (seqs (abs s0)) t (current_snapshot d (tb_table_name t)) op parts keys);
      [rewrite <- Ea1; apply Rd|done| |done].
    rewrite commit_change_stages. fold n. by rewrite Ew.
  - exists now2. rewrite Hq3 in H. by destruct (changes _ _ _ _ _ _ _).
Qed.

Lemma commit_with_spec c name parent op parts keys w1 d :
  nul_free name -> ready c (abs (w_pg w1)) d -> sessions (abs (w_pg w1)) !! c = Some Idle ->
  cache_ok d (w_cache w1) ->
  exists r s' c' d' now1 now2,
    commit_with c name parent op parts keys w1 = (Ret r, set_cache c' (set_pg s' w1))
    /\ rested c (abs (w_pg w1)) (abs s') d' /\ cache_ok d' c'
    /\ verdict (commit_outcome now1 now2 (seqs (abs (w_pg w1))) name parent op parts keys d) d r d'
    /\ (parent <> current_snapshot d name -> cr_error_msg r = conflict_msg parent (current_snapshot d name)).
Proof.
  intros Hn Rd Hi Hca. set (s0 := w_pg w1) in *. 
  assert (commit_with c name parent op parts keys w1 = commit_with c name parent op parts keys (set_pg s0 w1)) as -> by (by destruct w1).
  destruct (decide (parent = current_snapshot d name)) as [->|Hne].
  - destruct (commit_with_current c name op parts keys s0 w1 d Hn Rd Hi Hca) as (now1 & now2 & r & s' & c' & d' & H).
    exists r, s', c', d', now1, now2. naive_solver.
  - destruct (get_current_snapshot_spec c name s0 d Rd) as (s1 & E1 & Ea1). rewrite Hn in E1.
    unfold commit_with, commit_outcome, validate_parent_snapshot. rewrite (step_pg _ _ _ _ _ _ E1).
    rewrite (proj2 (Z.eqb_neq _ _) Hne). cbn [negb].
    do 2 eexists. exists (w_cache w1), d, 0, 0. split; [reflexivity|]. split; [|by split_and!].
    rewrite Ea1. by apply rested_idle.
Qed.

Lemma commit_snapshot_spec name parent op parts keys w d :
  nul_free name -> serving w d ->
  exists r w' d' now1 now2, commit_snapshot self name parent op parts keys w = (Ret r, w')
    /\ serving w' d' /\ w_mvcc w' = w_mvcc w
    /\ verdict (commit_outcome now1 now2 (seqs (abs (w_pg w))) name parent op parts keys d) d r d'
    /\ (parent <> current_snapshot d name -> cr_error_msg r = conflict_msg parent (current_snapshot d name)).
Proof.
  intros Hn S. unfold commit_snapshot.
  set (Q := fun r d' (_ : PartitionCache) => exists now1 now2,
    verdict (commit_outcome now1 now2 (seqs (abs (w_pg w))) name parent op parts keys d) d r d'
    /\ (parent <> current_snapshot d name -> cr_error_msg r = conflict_msg parent (current_snapshot d name))).
  enter_guard S Q r w' d' E HQ.
  2:{ destruct HQ as (S' & Em & now1 & now2 & HQ). by exists r, w', d', now1, now2. }
  intros w1 S1 Em1 Ec1 Ep1.
  destruct (connected (fun conn => commit_with conn name parent op parts keys) w1 d Q S1) as (r & w2 & d' & E & S2 & El & Em & HQ);
    [|by exists r, w2, d'].
  intros c w2 Rd Hi Em Ec Ep.
  destruct (commit_with_spec c name parent op parts keys w2 d Hn Rd Hi) as (r & s' & c' & d' & now1 & now2 & E & R & Hca & HQ);
    [rewrite Ec; apply S1|].
  exists r, (set_cache c' (set_pg s' w2)), d'. rewrite Ep, Ep1 in HQ. by split_and!; [..|exists now1, now2].
Qed.

Lemma commit_outcome_cases now1 now2 q name parent op parts keys d n d' :
  commit_outcome now1 now2 q name parent op parts keys d = Some (n, d') ->
  exists t, find_live d (tb_table_name t) = Some t /\ tb_table_name t = name /\ parent = current_snapshot d name
    /\ n = sq_snapshots q
    /\ commit_change now1 now2 (sq_snapshots q) (sq_partitions q) t parent op parts keys d = Some d'.
Proof.
  unfold commit_outcome. destruct (Z.eqb_spec parent (current_snapshot d name)) as [->|]; [|done].
  destruct (find_live d name) as [t|] eqn:Et; [|done]. cbn [mbind option_bind].
  apply find_live_spec in Et as Hs. destruct Hs as (_ & <- & _).
  destruct (commit_change _ _ _ _ _ _ _ _ _ _) as [d1|] eqn:E; [|done]. intros [= <- <-]. by exists t.
Qed.

(** What is known of a commit that was run. *)
Lemma commit_run name parent op parts keys w d r w' :
  nul_free name -> serving w d -> commit_snapshot self name parent op parts keys w = (Ret r, w') ->
  exists d' now1 now2, serving w' d' /\ w_mvcc w' = w_mvcc w
    /\ verdict (commit_outcome now1 now2 (seqs (abs (w_pg w))) name parent op parts keys d) d r d'
    /\ (parent <> current_snapshot d name -> cr_error_msg r = conflict_msg parent (current_snapshot d name)).
Proof.
  intros Hn S E. destruct (commit_snapshot_spec name parent op parts keys w d Hn S) as (r' & w1 & d' & now1 & now2 & E' & H).
  rewrite E in E'. injection E' as <- <-. by exists d', now1, now2.
Qed.

Lemma get_partitions_result name s w d :
  nul_free name -> serving w d ->
  (get_partitions self name s w).1 = Ret (partitions_at d name (read_snapshot (w_mvcc w) d name s)).
Proof. intros Hn S. by destruct (get_partitions_spec name s w d Hn S) as (w' & -> & _). Qed.

Lemma read_snapshot_given m d name s : s <> 0 -> read_snapshot m d name s = s.
Proof. intros Hs. unfold read_snapshot. by destruct (Z.eqb_spec s 0); [|destruct (Z.eqb_spec s 0)]. Qed.

Lemma commit_kept d q name parent op parts keys n d' now1 now2 name' s :
  db_ok q d -> commit_outcome now1 now2 q name parent op parts keys d = Some (n, d') ->
  name' <> name \/ s < n -> partitions_at d' name' s = partitions_at d name' s.
Proof.
  intros Hok (t & Hl & <- & -> & -> & E)%commit_outcome_cases Hcase.
  destruct (decide (name' = tb_table_name t)) as [->|Hne]; [|by eapply commit_elsewhere].
  destruct Hcase as [?|Hs]; [done|]. by eapply commit_before.
Qed.

(** ** Properties *)

(** C3: [get_partitions] answers the partitions of the committed database at
    the snapshot the request resolves to, whether they come from the cache or
    from a query, and [nullopt] exactly when the table does not exist (or the
    snapshot is not a bigint); it changes nothing in the database, gives back
    the lock and its connections, and keeps the cache coherent. *)
Theorem get_partitions_correct name snapshot_id w d :
  nul_free name -> serving w d ->
  exists w', get_partitions self name snapshot_id w
      = (Ret (partitions_at d name (read_snapshot (w_mvcc w) d name snapshot_id)), w')
    /\ serving w' d /\ w_mvcc w' = w_mvcc w.
Proof. apply get_partitions_spec. Qed.

(** C1: [commit_snapshot] runs to its end on every branch and is all or
    nothing: either the parent is current, the table exists and every change
    is legal, and then all of them are committed under a new snapshot whose id
    is the answer; or it is refused, with the conflict named when the parent
    is not current, and the committed database is the one there was. In both
    cases the lock and the connection are given back and the cache agrees with
    the database. *)
Theorem commit_snapshot_correct name parent op parts keys w d :
  nul_free name -> serving w d ->
  exists r w' d' now1 now2, commit_snapshot self name parent op parts keys w = (Ret r, w')
    /\ serving w' d'
    /\ verdict (commit_outcome now1 now2 (seqs (abs (w_pg w))) name parent op parts keys d) d r d'
    /\ (parent <> current_snapshot d name -> cr_error_msg r = conflict_msg parent (current_snapshot d name)).
Proof.
  intros Hn S. destruct (commit_snapshot_spec name parent op parts keys w d Hn S) as (r & w' & d' & now1 & now2 & E & S' & _ & H).
  by exists r, w', d', now1, now2.
Qed.

(** C5: time travel: a commit, whatever its answer, changes nothing for a
    reader of an older snapshot of the table, nor for a reader of any snapshot
    of another table. *)
Theorem commit_preserves_history name parent op parts keys w d r w' name' s :
  nul_free name -> nul_free name' -> serving w d ->
  commit_snapshot self name parent op parts keys w = (Ret r, w') ->
  s <> 0 -> name' <> name \/ s < cr_snapshot_id r \/ cr_success r = false ->
  (get_partitions self name' s w').1 = (get_partitions self name' s w).1.
Proof.
  intros Hn Hn' S E Hs Hcase. destruct (commit_run name parent op parts keys w d r w' Hn S E) as (d' & now1 & now2 & S' & Em & H & _). unfold verdict in H.
  rewrite (get_partitions_result name' s w' d'), (get_partitions_result name' s w d) by done.
  rewrite !read_snapshot_given by done. enough (partitions_at d' name' s = partitions_at d name' s) as -> by done.
  destruct (commit_outcome _ _ _ _ _ _ _ _ _) as [[n d1]|] eqn:Eo; [|by destruct H as (_ & ->)].
  destruct H as [-> ->]. eapply commit_kept; [apply S|done|]. cbn in Hcase. naive_solver.
Qed.

(** C6: a reader of the new snapshot, or of a later one, sees what it would
    have seen without the commit followed by the new partitions, without the
    rows whose key is in the list of deleted keys. (The new rows are not
    exempt: a key that is deleted and added again in one commit is gone.) *)
Theorem commit_visible name parent op parts keys w d r w' s rows :
  nul_free name -> serving w d ->
  commit_snapshot self name parent op parts keys w = (Ret r, w') -> cr_success r = true ->
  (forall p z, p ∈ db_partitions d -> pa_deleted_snapshot_id p = Some z -> z < sq_snapshots (seqs (abs (w_pg w)))) ->
  cr_snapshot_id r <= s -> (get_partitions self name s w).1 = Ret (Some rows) ->
  exists t new, find_live d name = Some t
    /\ new_parts (sq_partitions (seqs (abs (w_pg w)))) (tb_table_id t) (cr_snapshot_id r) parts = Some new
    /\ (get_partitions self name s w').1 = Ret (Some (filter (fun r => kept keys r) (rows ++ (part_row <$> new)))).
Proof.
  intros Hn S E Hok Hdel Hs Hrows. destruct (commit_run name parent op parts keys w d r w' Hn S E) as (d' & now1 & now2 & S' & Em & H & _). unfold verdict in H.
  destruct (commit_outcome _ _ _ _ _ _ _ _ _) as [[n d1]|] eqn:Eo; [|destruct H as ([? _] & _); congruence].
  destruct H as [-> ->]. cbn in *. apply commit_outcome_cases in Eo as (t & Hl & <- & -> & -> & Ec).
  assert (1 <= sq_snapshots (seqs (abs (w_pg w)))) by apply S.
  rewrite (get_partitions_result _ s w d), read_snapshot_given in Hrows by (done || lia). injection Hrows as Hrows.
  rewrite (get_partitions_result _ s w' d1), read_snapshot_given by (done || lia).
  destruct (commit_after now1 now2 _ t _ op parts keys d d1 (se_db _ _ (proj1 S)) Hl Ec s rows Hdel Hs Hrows) as (rs & Hrs & Hat).
  exists t, rs. by rewrite Hat.
Qed.

(** C4: no lost update: a commit that succeeds makes its snapshot the current
    one, so that a commit that was prepared on any other snapshot is refused
    as a conflict and changes nothing. *)
Theorem stale_commit_refused name parent op parts keys w d r w' parent2 op2 parts2 keys2 r2 w2 :
  nul_free name -> serving w d ->
  commit_snapshot self name parent op parts keys w = (Ret r, w') -> cr_success r = true ->
  parent2 <> cr_snapshot_id r ->
  commit_snapshot self name parent2 op2 parts2 keys2 w' = (Ret r2, w2) ->
  r2 = mkCommitResult false 0 (conflict_msg parent2 (cr_snapshot_id r))
  /\ committed (abs (w_pg w2)) = committed (abs (w_pg w')).
Proof.
  intros Hn S E Hok Hp E2. destruct (commit_run name parent op parts keys w d r w' Hn S E) as (d' & now1 & now2 & S' & Em & H & _). unfold verdict in H.
  destruct (commit_outcome _ _ _ _ _ _ _ _ _) as [[n d1]|] eqn:Eo; [|destruct H as ([? _] & _); congruence].
  destruct H as [-> ->]. cbn in *. apply commit_outcome_cases in Eo as (t & Hl & <- & -> & -> & Ec).
  assert (1 <= sq_snapshots (seqs (abs (w_pg w)))) by apply S.
  destruct (commit_current now1 now2 _ t _ op parts keys d d1 Hl Ec) as [Hcur|?]; [|lia].
  destruct (commit_run _ parent2 op2 parts2 keys2 w' d1 r2 w2 Hn S' E2) as (d2 & now3 & now4 & S2 & _ & H2 & H4). unfold verdict in H2.
  destruct (commit_outcome _ _ _ _ parent2 _ _ _ _) as [[n2 d2']|] eqn:Eo2.
  - apply commit_outcome_cases in Eo2 as (t2 & _ & _ & -> & _). congruence.
  - destruct H2 as ([H1 H3] & ->). rewrite (se_committed _ _ (proj1 S2)), (se_committed _ _ (proj1 S')).
    split; [|done]. rewrite Hcur in H4. specialize (H4 Hp). destruct r2. cbn in *. congruence.
Qed.

(** C8: a commit on the current snapshot of a table goes through when its
    partitions are storable: valid statistics, sizes that are bigints, and
    room in the sequences. *)
Theorem commit_goes_through name parent op parts keys w d t new :
  nul_free name -> serving w d -> find_live d name = Some t -> parent = current_snapshot d name ->
  in_i64 parent = true -> in_i64 (sq_snapshots (seqs (abs (w_pg w)))) = true ->
  in_i64 (sq_partitions (seqs (abs (w_pg w))) + Z.of_nat (length parts)) = true ->
  new_parts (sq_partitions (seqs (abs (w_pg w)))) (tb_table_id t) (sq_snapshots (seqs (abs (w_pg w)))) parts = Some new ->
  exists w', commit_snapshot self name parent op parts keys w
    = (Ret (mkCommitResult true (sq_snapshots (seqs (abs (w_pg w)))) ""), w').
Proof.
  intros Hn S Hl Hp H1 H2 H3 Hnew.
  destruct (commit_snapshot_spec name parent op parts keys w d Hn S) as (r & w' & d' & now1 & now2 & E & S' & _ & H & _). unfold verdict in H.
  exists w'. rewrite E. do 2 f_equal. unfold commit_outcome in H. rewrite (proj2 (Z.eqb_eq _ _) Hp), Hl in H.
  cbn [mbind option_bind] in H. apply find_live_spec in Hl as Hs. destruct Hs as (_ & Htn & _). subst name.
  destruct (commit_succeeds now1 now2 (seqs (abs (w_pg w))) t parent op parts keys d new) as [d1 E1]; try done; try apply S.
  rewrite E1 in H. by destruct H as [-> _].
Qed.
End registry.

(** ** Witnesses *)

#[local] Existing Instance reliable_service.

Lemma get_partitions_correct_witness :
  nul_free "orders" /\ serving demo demo_db
  /\ option_map length (partitions_at demo_db "orders" (read_snapshot (w_mvcc demo) demo_db "orders" 0)) = Some 2%nat
  /\ exists w', get_partitions 0%nat "orders" 0 demo
       = (Ret (partitions_at demo_db "orders" (read_snapshot (w_mvcc demo) demo_db "orders" 0)), w').
Proof.
  split; [reflexivity|]. split; [apply demo_serving|]. split; [vm_compute; reflexivity|].
  destruct (get_partitions_correct 0%nat "orders" 0 demo demo_db eq_refl demo_serving) as (w' & E & _).
  exists w'. exact E.
Defined.

(** A commit on the current snapshot, and one on an old one. *)
Lemma commit_snapshot_correct_witness :
  serving demo demo_db
  /\ (exists r w' d' now1 now2, commit_snapshot 0%nat "orders" 2 "append" [demo_row "d"] ["b"] demo = (Ret r, w')
        /\ verdict (commit_outcome now1 now2 (seqs (abs (w_pg demo))) "orders" 2 "append" [demo_row "d"] ["b"] demo_db)
             demo_db r d')
  /\ is_Some (commit_outcome 0 0 (seqs (abs (w_pg demo))) "orders" 2 "append" [demo_row "d"] ["b"] demo_db)
  /\ commit_outcome 0 0 (seqs (abs (w_pg demo))) "orders" 1 "append" [demo_row "d"] ["b"] demo_db = None.
Proof.
  split; [apply demo_serving|]. split; [|split; [vm_compute; by eexists|vm_compute; reflexivity]].
  destruct (commit_snapshot_correct 0%nat "orders" 2 "append" [demo_row "d"] ["b"] demo demo_db eq_refl demo_serving)
    as (r & w' & d' & now1 & now2 & E & _ & V & _).
  exists r, w', d', now1, now2. split; [exact E|exact V].
Defined.

(** The world after the commit of the witnesses. *)
Definition demo_after : @World reliable_service :=
  (commit_snapshot 0%nat "orders" 2 "append" [demo_row "d"] ["b"] demo).2.

Lemma demo_commit :
  commit_snapshot 0%nat "orders" 2 "append" [demo_row "d"] ["b"] demo = (Ret (mkCommitResult true 3 ""), demo_after).
Proof. apply run_pair; [vm_compute; reflexivity|unfold demo_after; reflexivity]. Qed.

Lemma commit_preserves_history_witness :
  (get_partitions 0%nat "orders" 2 demo_after).1 = (get_partitions 0%nat "orders" 2 demo).1.
Proof.
  apply (commit_preserves_history 0%nat "orders" 2 "append" [demo_row "d"] ["b"] demo demo_db
    (mkCommitResult true 3 "") demo_after "orders" 2);
    [reflexivity|reflexivity|apply demo_serving|apply demo_commit|lia|right; left; reflexivity].
Defined.

Lemma commit_visible_witness : exists t new, find_live demo_db "orders" = Some t
  /\ new_parts 4 (tb_table_id t) 3 [demo_row "d"] = Some new
  /\ (get_partitions 0%nat "orders" 3 demo_after).1
     = Ret (Some (filter (fun r => kept ["b"] r) (demo_rows ++ (part_row <$> new)))).
Proof.
  apply (commit_visible 0%nat "orders" 2 "append" [demo_row "d"] ["b"] demo demo_db (mkCommitResult true 3 "") demo_after
    3 demo_rows); [reflexivity|apply demo_serving|apply demo_commit|reflexivity| |vm_compute; done|vm_compute; reflexivity].
  intros p z Hp Hz. assert (sq_snapshots (seqs (abs (w_pg demo))) = 3) as -> by (vm_compute; reflexivity).
  repeat (apply elem_of_cons in Hp as [->|Hp]; [cbn in Hz; congruence || (injection Hz as <-; lia)|]).
  by apply not_elem_of_nil in Hp.
Defined.

Lemma stale_commit_refused_witness : exists r2 w2,
  commit_snapshot 0%nat "orders" 2 "append" [] ["c"] demo_after = (Ret r2, w2)
  /\ r2 = mkCommitResult false 0 (conflict_msg 2 3)
  /\ committed (abs (w_pg w2)) = committed (abs (w_pg demo_after)).
Proof.
  exists (mkCommitResult false 0 (conflict_msg 2 3)), (commit_snapshot 0%nat "orders" 2 "append" [] ["c"] demo_after).2.
  assert (commit_snapshot 0%nat "orders" 2 "append" [] ["c"] demo_after
    = (Ret (mkCommitResult false 0 (conflict_msg 2 3)), (commit_snapshot 0%nat "orders" 2 "append" [] ["c"] demo_after).2)) as E
    by (apply run_pair; [vm_compute; reflexivity|reflexivity]).
  split; [exact E|].
  apply (stale_commit_refused 0%nat "orders" 2 "append" [demo_row "d"] ["b"] demo demo_db (mkCommitResult true 3 "")
    demo_after 2 "append" [] ["c"]); [reflexivity|apply demo_serving|apply demo_commit|reflexivity|done|exact E].
Defined.

Lemma commit_goes_through_witness : exists w',
  commit_snapshot 0%nat "orders" 2 "append" [demo_row "d"] ["b"] demo = (Ret (mkCommitResult true 3 ""), w').
Proof.
  destruct (find_live demo_db "orders") as [t|] eqn:Et; [|vm_compute in Et; discriminate].
  destruct (new_parts 4 (tb_table_id t) 3 [demo_row "d"]) as [new|] eqn:En;
    [|vm_compute in Et; injection Et as <-; vm_compute in En; discriminate].
  apply (commit_goes_through 0%nat "orders" 2 "append" [demo_row "d"] ["b"] demo demo_db t new);
    [reflexivity|apply demo_serving|exact Et|vm_compute; reflexivity..|exact En].
Defined.
