(* ===== verification/ServerSpec.v ===== *)
(** * What the handlers promise

    Pagination, statistics and the metadata of a table, on a server at rest
    and a reliable service. *)
From S2P Require Import Prelude Cxx ServerConfig Sql Database PgService DbFacts RefServer PgClient PgSpec PgWrites Changes LruCache Mvcc World PartitionRegistry MetadataServer Serving Demo Transactions RegistrySpec.
From S2P Require LockManager ConnectionPool CatalogManager.

(** ** Walking through sorted rows *)

Definition strictly : list partition_rec -> Prop := StronglySorted (fun p q => pa_partition_id p < pa_partition_id q).

Lemma sort_parts_strictly l : NoDup (pa_partition_id <$> l) -> strictly (sort_parts l).
Proof.
  intros Hn. rewrite <- (merge_sort_Permutation part_before l) in Hn.
  assert (StronglySorted part_before (sort_parts l)) as Hs
    by (apply StronglySorted_merge_sort; [intros x y z; unfold part_before; lia|apply _]).
  unfold sort_parts in *. unfold strictly. induction Hs as [|p r Hs IH Hp]; [constructor|].
  rewrite fmap_cons in Hn. apply NoDup_cons in Hn as [Hp' Hn]. constructor; [by apply IH|].
  rewrite Forall_forall in *. intros x Hx. specialize (Hp x Hx). unfold part_before in Hp.
  assert (pa_partition_id p <> pa_partition_id x); [|lia]. intros E. apply Hp'. rewrite E. by apply list_elem_of_fmap_2.
Qed.

(** The rows with a larger id. *)
Definition after (a : Z) (l : list partition_rec) : list partition_rec := filter (fun x => a < pa_partition_id x) l.

(** What comes after the last row of a page is the rest. *)
Lemma after_page k l p :
  strictly l -> last (take k l) = Some p ->
  after (pa_partition_id p) l = drop k l.
Proof.
  unfold after. intros Hs. revert k p. induction Hs as [|x l Hs IH Hx]; intros k p Hp; [by rewrite take_nil in Hp|].
  rewrite Forall_forall in Hx. destruct k as [|k]; [done|]. cbn [take drop] in *.
  destruct (take k l) as [|y l'] eqn:Et.
  - injection Hp as <-. rewrite filter_cons, decide_False by lia. rewrite filter_all by done.
    destruct k; [done|]. by destruct l.
  - change (last (y :: l') = Some p) in Hp. rewrite <- Et in Hp.
    assert (p ∈ l) as Hpl.
    { apply last_Some_elem_of in Hp. apply elem_of_take in Hp as (i & Hi & _). by eapply list_elem_of_lookup_2. }
    rewrite filter_cons, decide_False by (specialize (Hx p Hpl); lia). by apply IH.
Qed.

Lemma after_after (l : list partition_rec) (a b : Z) : a <= b -> after b (after a l) = after b l.
Proof. intros H. unfold after. rewrite list_filter_filter. apply filter_ext_elem. intros x _. lia. Qed.

(** ** Sums *)

Definition total (f : PartitionRow -> Z) (rows : list PartitionRow) : Z := foldr (fun p z => f p + z) 0 rows.

(** The sums from [a], one row after the other, all fit in 64 bits. *)
Definition sums_fit (f : PartitionRow -> Z) (a : Z) (rows : list PartitionRow) : bool :=
  forallb (fun k => in_i64 (a + total f (take k rows))) (seq 0 (S (length rows))).

Lemma sums_fit_cons f a p rows : sums_fit f a (p :: rows) = in_i64 a && sums_fit f (a + f p) rows.
Proof.
  unfold sums_fit. cbn [length]. rewrite <- cons_seq. cbn [forallb take total foldr]. rewrite Z.add_0_r. f_equal.
  rewrite <- fmap_S_seq. generalize (seq 0 (S (length rows))) as l. intros l.
  induction l as [|k l IH]; [done|]. cbn [fmap list_fmap forallb]. rewrite <- IH. f_equal.
  unfold total. cbn [take foldr]. by rewrite Z.add_assoc.
Qed.

Lemma sums_fit_iff f rows : sums_fit f 0 rows = true <-> forall k, in_i64 (total f (take k rows)) = true.
Proof.
  unfold sums_fit. rewrite forallb_forall. split.
  - intros H k. destruct (decide (k <= length rows)%nat).
    + specialize (H k). rewrite in_seq in H. apply H. lia.
    + specialize (H (length rows)). rewrite in_seq in H. rewrite take_ge by lia. rewrite take_ge in H by lia. apply H. lia.
  - intros H k _. apply H.
Qed.

(** The loop goes through exactly when no partial sum overflows. *)
Lemma sum_rows_spec `{PgService} rows a b w :
  in_i64 a = true -> in_i64 b = true ->
  sum_rows rows a b w
  = (if sums_fit pr_row_count a rows && sums_fit pr_size_bytes b rows
     then Ret (a + total pr_row_count rows, b + total pr_size_bytes rows) else UB, w).
Proof.
  revert a b. induction rows as [|p rows IH]; intros a b Ha Hb.
  - unfold sums_fit. cbn. by rewrite !Z.add_0_r, Ha, Hb.
  - rewrite !sums_fit_cons, Ha, Hb. cbn [sum_rows total foldr andb]. fold (total pr_row_count rows) (total pr_size_bytes rows).
    rewrite !Z.add_assoc. assert (forall f x, in_i64 x = false -> sums_fit f x rows = false) as Hout.
    { intros f x Hx. unfold sums_fit. cbn. by rewrite Z.add_0_r, Hx. }
    unfold bind, int64_op. destruct (in_i64 (a + pr_row_count p)) eqn:E1; cbn [ret undefined]; [|by rewrite (Hout _ _ E1)].
    destruct (in_i64 (b + pr_size_bytes p)) eqn:E2; cbn [ret undefined]; [by apply IH|]. by rewrite (Hout _ _ E2), andb_false_r.
Qed.

(** Without negative terms only the total counts. *)
Lemma sums_fit_nonneg f a rows :
  Forall (fun p => 0 <= f p) rows -> 0 <= a -> sums_fit f a rows = in_i64 (a + total f rows).
Proof.
  intros Hs. revert a. induction Hs as [|p rows Hp Hs IH]; intros a Ha; [unfold sums_fit; cbn; by rewrite andb_true_r|].
  rewrite sums_fit_cons, IH by lia. cbn [total foldr]. fold (total f rows). rewrite Z.add_assoc.
  assert (0 <= total f rows) by (clear -Hs; unfold total; induction Hs; cbn; lia).
  destruct (in_i64 a) eqn:Ea; [done|]. symmetry. unfold in_i64, i64_min, i64_max in *. lia.
Qed.

(** The statistics of the partitions of a table, if they can be computed. *)
Definition stats_of (o : option (list PartitionRow)) : outcome PartitionStats :=
  match o with
  | None => Ret (mkStats 0 0 0 0)
  | Some rows =>
      let n := Z.of_nat (length rows) in
      let rc := total pr_row_count rows in
      let sz := total pr_size_bytes rows in
      if sums_fit pr_row_count 0 rows && sums_fit pr_size_bytes 0 rows
      then Ret (mkStats n rc sz (if 0 <? n then Z.quot sz n else 0)) else UB
  end.

Section server.
Context {P : PgService} `{!PgLaws P, !PgReliable P} (self : tid).

Lemma get_partitions_paged_spec name snapshot_id page_size last w d :
  nul_free name -> serving w d -> in_i64 page_size = true -> in_i64 last = true ->
  exists w', get_partitions_paged self name snapshot_id page_size last w
      = (Ret (partitions_page d name (read_snapshot (w_mvcc w) d name snapshot_id) page_size last), w')
    /\ serving w' d /\ w_mvcc w' = w_mvcc w.
Proof.
  intros Hn S Hps Hlast. unfold get_partitions_paged. set (snap := read_snapshot (w_mvcc w) d name snapshot_id).
  enter_guard S (fun a d' (_ : PartitionCache) => a = partitions_page d name snap page_size last /\ d' = d) a w' d' E HQ.
  2:{ destruct HQ as (S' & Em & -> & ->). exists w'. by split. }
  intros w1 S1 Em Ec Epg. destruct (resolve_snapshot_spec name snapshot_id w1 d S1) as (w2 & E2 & S2 & El2 & Em2 & Ec2).
  rewrite Em in E2. fold snap in E2. rewrite (bind_ret _ _ _ _ _ E2).
  destruct (reads_only (fun conn => query_partitions_paged conn name snap page_size last) w2 d
    (partitions_page d name snap page_size last) S2) as (w3 & E3 & S3 & El3 & Em3 & Ec3).
  { intros c s Rd Hi. destruct (query_partitions_paged_spec c name snap page_size last s d Rd Hi Hps Hlast) as (s' & E & Ea).
    rewrite Hn in E. by exists s'. }
  rewrite E3. do 3 eexists. split; [done|]. split; [exact S3|]. split_and!; congruence.
Qed.

(** A client that follows the page tokens until a page is empty. *)
Fixpoint walk (fuel : nat) (name : string) (snapshot_id page_size : Z) (token : string) (w : World)
    : option (list PartitionInfo) * World :=
  match fuel with
  | O => (None, w)
  | S f =>
      match GetPartitions self name snapshot_id page_size token w with
      | (Ret (StatusOK, resp), w') =>
          match pl_partitions resp with
          | [] => (Some [], w')
          | page =>
              let '(rest, w'') := walk f name snapshot_id page_size (pl_next_page_token resp) w' in
              ((fun l => page ++ l) <$> rest, w'')
          end
      | (_, w') => (None, w')
      end
  end.

(** A page and its token. *)
Lemma page_spec name s page_size token w d t :
  nul_free name -> serving w d -> s <> 0 -> in_i64 s = true -> 0 < page_size -> in_i32 page_size = true ->
  find_live d name = Some t -> in_i64 (page_token_id token) = true ->
  exists w', serving w' d /\
    let page := take (Z.to_nat page_size)
      (after (page_token_id token) (parts_at d (tb_table_id t) s)) in
    GetPartitions self name s page_size token w
      = (Ret (StatusOK, mkPartitionListResponse (to_partition_info <$> (part_row <$> page))
           match last page with Some p => to_string (pa_partition_id p) | None => "" end
           (Z.of_nat (length page))), w').
Proof.
  intros Hn S Hs Hi Hps Hps32 Hl Htok.
  destruct (get_partitions_paged_spec name s page_size (page_token_id token) w d Hn S) as (w' & E & S' & _); [|done|].
  { by apply in_i32_i64. }
  exists w'. split; [done|]. cbv zeta. unfold GetPartitions. replace (0 <? page_size) with true by lia.
  rewrite (bind_ret _ _ _ _ _ E), read_snapshot_given by done. unfold partitions_page. rewrite Hl. cbn [mbind option_bind].
  rewrite Hi. replace (0 <? page_size) with true by lia. rewrite <- fmap_take, length_fmap.
  set (page := take _ _). rewrite fmap_last. unfold ret. by destruct (last page).
Qed.

(** A token is the number it was made from. *)
Lemma page_token_id_to_string z : in_i64 z = true -> page_token_id (to_string z) = z.
Proof.
  intros Hz. unfold page_token_id. destruct (String.eqb_spec (to_string z) "") as [E|_].
  - assert (stoll (to_string z) = stoll "") as E1 by by rewrite E.
    unfold stoll in E1. by rewrite sto_signed_to_string, Hz in E1.
  - unfold stoll. by rewrite sto_signed_to_string, Hz.
Qed.

(** A client at a token gets the rows after it. *)
Lemma walk_from name s page_size t d fuel token w :
  nul_free name -> s <> 0 -> in_i64 s = true -> 0 < page_size -> in_i32 page_size = true ->
  find_live d name = Some t -> serving w d -> in_i64 (page_token_id token) = true ->
  (length (after (page_token_id token) (parts_at d (tb_table_id t) s)) < fuel)%nat ->
  (walk fuel name s page_size token w).1
  = Some (to_partition_info <$> (part_row <$> after (page_token_id token) (parts_at d (tb_table_id t) s))).
Proof.
  intros Hn Hs Hi Hps Hps32 Hl. revert token w. induction fuel as [|fuel IH]; intros token w S Ht Hf; [lia|]. cbn [walk].
  destruct (se_db _ _ (proj1 S)) as [I%constraints_integrity (_&_&_&Hids&_)].
  destruct (page_spec name s page_size token w d t) as (w' & S' & E); try done. cbv zeta in E. rewrite E. clear E.
  set (all := parts_at d (tb_table_id t) s) in *. set (todo := after (page_token_id token) all) in *.
  cbn [pl_partitions pl_next_page_token].
  assert (strictly todo) as Hst
    by (apply StronglySorted_filter, sort_parts_strictly, NoDup_fmap_filter, (in_partition_ids _ I)).
  destruct (last (take (Z.to_nat page_size) todo)) as [p|] eqn:El.
  2:{ apply last_None in El. rewrite El. destruct todo as [|p0 todo']; [done|].
      destruct (Z.to_nat page_size) eqn:Ez; [lia|done]. }
  assert (p ∈ todo) as Hp.
  { apply last_Some_elem_of in El. apply elem_of_take in El as (i & Hi' & _). by eapply list_elem_of_lookup_2. }
  apply list_elem_of_filter in Hp as [Hlt [Hpa _]%parts_at_elem]. pose proof (proj1 (in_partition_range _ I p Hpa)) as Hp64.
  assert (after (pa_partition_id p) all = drop (Z.to_nat page_size) todo) as Hrest.
  { rewrite <- (after_after all (page_token_id token)) by lia. by apply after_page. }
  specialize (IH (to_string (pa_partition_id p)) w' S'). rewrite page_token_id_to_string, Hrest in IH by done.
  specialize (IH Hp64). rewrite length_drop in IH.
  destruct (walk fuel name s page_size (to_string (pa_partition_id p)) w') as [rest w''].
  destruct todo as [|p0 todo'] eqn:Etodo; [by rewrite take_nil in El|].
  destruct (Z.to_nat page_size) as [|k] eqn:Ez; [lia|]. cbn [fst] in IH.
  rewrite IH by (cbn [length] in *; lia).
  cbn [fmap option_fmap option_map list_fmap take drop app fst]. do 2 f_equal. by rewrite <- !fmap_app, take_drop.
Qed.

(** C7: paging is equivalent to asking once: a client that follows the page
    tokens of [GetPartitions] from the first page to the empty one gets what
    the request without a page size answers, every partition of the snapshot
    exactly once and in the same order, whatever the page size, in at most one
    request more than there are partitions. *)
Theorem pagination_complete name s page_size w d rows fuel :
  nul_free name -> serving w d -> s <> 0 -> 0 < page_size -> in_i32 page_size = true ->
  partitions_at d name s = Some rows -> (length rows < fuel)%nat ->
  (walk fuel name s page_size "" w).1 = Some (to_partition_info <$> rows)
  /\ (GetPartitions self name s 0 "" w).1
     = Ret (StatusOK, mkPartitionListResponse (to_partition_info <$> rows) "" (Z.of_nat (length rows))).
Proof.
  intros Hn S Hs Hps Hps32 Hrows Hf. split.
  2:{ unfold GetPartitions. destruct (get_partitions_spec self name s w d Hn S) as (w' & E & _).
      rewrite read_snapshot_given, Hrows in E by done. cbn iota. by rewrite (bind_ret _ _ _ _ _ E). }
  unfold partitions_at in Hrows.
  destruct (find_live d name) as [t|] eqn:Hl; [|done]. cbn [mbind option_bind] in Hrows.
  destruct (in_i64 s) eqn:Hi; [|done]. injection Hrows as <-. rewrite length_fmap in Hf.
  assert (after (page_token_id "") (parts_at d (tb_table_id t) s) = parts_at d (tb_table_id t) s) as H0.
  { apply filter_all. intros p [Hp _]%parts_at_elem. destruct (se_db _ _ (proj1 S)) as [_ (_&_&_&Hids&_)].
    specialize (Hids p Hp). cbn. lia. }
  pose proof (walk_from name s page_size t d fuel "" w Hn Hs Hi Hps Hps32 Hl S eq_refl) as H.
  rewrite H0 in H. by apply H.
Qed.

(** ** Statistics *)

Lemma guarded_ub {A} md name (body : M A) w d :
  serving w d -> (forall w1, settled w1 d -> w_mvcc w1 = w_mvcc w -> exists w2, body w1 = (UB, w2)) ->
  exists w', with_guard md self name body w = (UB, w').
Proof.
  intros [S U] Hbody. destruct (LockManager.acquire_cases md self name (w_locks w)) as (lm & Hm & Hr & E).
  rewrite (U name) in E. change (LockManager.owns self LockManager.free_mutex) with false in E.
  cbn iota in E. rewrite decide_True in E by (by destruct md). unfold with_guard. rewrite E.
  match goal with |- context [set_locks ?l w] => destruct (Hbody (set_locks l w)) as [w2 E2] end; [by destruct S|done|].
  rewrite E2. by exists w2.
Qed.

Lemma connected_ub {A} (body : PGconn -> M A) w d :
  settled w d ->
  (forall c w1, ready c (abs (w_pg w1)) d -> sessions (abs (w_pg w1)) !! c = Some Idle -> w_mvcc w1 = w_mvcc w ->
     exists w2, body c w1 = (UB, w2)) ->
  exists w', with_connection body w = (UB, w').
Proof.
  intros S Hbody. destruct (ConnectionPool.available_connections_ (w_pool w)) as [|c rest] eqn:Ea.
  { by destruct (se_some _ _ S). }
  assert (c ∈ ConnectionPool.available_connections_ (w_pool w)) as Hc by (rewrite Ea; left).
  pose proof (se_pool _ _ S c Hc) as Es. unfold with_connection, ConnectionPool.acquire. rewrite Ea.
  unfold ConnectionPool.validate_connection.
  assert (PQstatus c (w_pg w) = CONNECTION_OK) as Hst.
  { pose proof (proj1 (status_law c (w_pg w) Idle Es)) as Hst.
    destruct (PQstatus c (w_pg w)); [done|by specialize (Hst eq_refl)]. }
  rewrite bool_decide_eq_true_2 by done. cbn [ConnectionPool.conn_].
  destruct (Hbody c (set_pg (w_pg w) (set_pool (ConnectionPool.set_available rest (w_pool w)) w))) as [w2 ->];
    [by apply (settled_ready no_table w)|done|done|by exists w2].
Qed.

(** What [get_stats] does on a connection. *)
Lemma collect_stats_spec name c w1 d :
  nul_free name -> ready c (abs (w_pg w1)) d -> sessions (abs (w_pg w1)) !! c = Some Idle ->
  let o := partitions_at d name (read_snapshot (w_mvcc w1) d name 0) in
  exists s', collect_stats c name (latest_committed_snapshot_ (w_mvcc w1)) w1 = (stats_of o, set_pg s' w1)
    /\ abs s' = abs (w_pg w1).
Proof.
  intros Hn Rd Hi o. set (m := w_mvcc w1) in *.
  assert (o = partitions_at d name (if latest_committed_snapshot_ m =? 0 then current_snapshot d name
    else latest_committed_snapshot_ m)) as Ho by (unfold o, read_snapshot; cbn; by rewrite Hn).
  assert (exists s1, (if latest_committed_snapshot_ m =? 0 then on_pg (get_current_snapshot c name)
      else ret (latest_committed_snapshot_ m)) w1
    = (Ret (if latest_committed_snapshot_ m =? 0 then current_snapshot d name else latest_committed_snapshot_ m), set_pg s1 w1)
    /\ abs s1 = abs (w_pg w1)) as (s1 & E1 & Ea1).
  { destruct (_ =? 0); [|exists (w_pg w1); split; [by destruct w1|done]].
    destruct (get_current_snapshot_spec c name (w_pg w1) d Rd) as (s1 & E1 & Ea1). rewrite Hn in E1.
    exists s1. by rewrite (on_pg_ret _ _ _ _ E1). }
  unfold collect_stats. rewrite (bind_ret _ _ _ _ _ E1). rewrite <- Ea1 in Rd, Hi.
  destruct (query_partitions_spec c name (if latest_committed_snapshot_ m =? 0 then current_snapshot d name
    else latest_committed_snapshot_ m) s1 d Rd Hi) as (s2 & E2 & Ea2). rewrite Hn, <- Ho in E2.
  rewrite (step_pg _ _ _ _ _ _ E2). exists s2. split; [|congruence].
  unfold stats_of. destruct o as [rows|]; [|done]. cbv zeta. unfold bind at 1.
  rewrite sum_rows_spec by done. by destruct (sums_fit _ _ _ && sums_fit _ _ _).
Qed.

Lemma get_stats_spec name w d :
  nul_free name -> serving w d ->
  let o := partitions_at d name (read_snapshot (w_mvcc w) d name 0) in
  exists w', get_stats self name w = (stats_of o, w') /\ (stats_of o <> UB -> serving w' d).
Proof.
  intros Hn S o. unfold get_stats.
  destruct (stats_of o) as [st| | |] eqn:Eo; [|unfold stats_of in Eo; repeat case_match; done..|].
  - enter_guard S (fun a d' (_ : PartitionCache) => a = st /\ d' = d) a w' d' E HQ.
    2:{ destruct HQ as (S' & _ & -> & ->). by exists w'. }
    intros w1 S1 Em1 Ec1 Ep1.
    destruct (connected (fun conn => collect_stats conn name (latest_committed_snapshot_ (w_mvcc w1))) w1 d
      (fun a d' _ => a = st /\ d' = d) S1) as (a & w2 & d' & E2 & S2 & El2 & Em2 & HQ); [|by exists a, w2, d'].
    intros c w2 Rd Hi Em2 Ec2 Ep2. rewrite <- Em2.
    destruct (collect_stats_spec name c w2 d Hn Rd Hi) as (s' & E & Ea).
    assert (w_mvcc w2 = w_mvcc w) as Em by congruence. rewrite Em in E |- *. fold o in E. rewrite Eo in E.
    exists st, (set_pg s' w2), d. split; [exact E|]. split; [cbn; rewrite Ea; by apply rested_idle|].
    split_and!; try done; cbn; rewrite ?Em; try done. rewrite Ec2. apply S1.
  - destruct (guarded_ub LockManager.Sh name (let* snap := read_mvcc get_latest_committed_snapshot in
      with_connection (fun conn => collect_stats conn name snap)) w d S) as [w' E]; [|by exists w'].
    intros w1 S1 Em1. apply (connected_ub (fun conn => collect_stats conn name (latest_committed_snapshot_ (w_mvcc w1))) w1 d S1).
    intros c w2 Rd Hi Em2. rewrite <- Em2.
    destruct (collect_stats_spec name c w2 d Hn Rd Hi) as (s' & E & Ea).
    assert (w_mvcc w2 = w_mvcc w) as Em by congruence. rewrite Em in E |- *. fold o in E. rewrite Eo in E. by exists (set_pg s' w2).
Qed.

(** C18: the statistics of a table are the number of its partitions at the
    snapshot a read resolves to, the totals of their rows and bytes, and the
    mean size rounded towards zero; zeros when the table does not exist. The
    totals are computed in 64 bits, one row after the other: when a partial sum
    does not fit the behaviour is undefined, and it is defined otherwise. Counts
    and sizes may be negative; when none is, the partial sums fit exactly when
    the totals do. *)
Theorem get_stats_correct name w d :
  nul_free name -> serving w d ->
  let o := partitions_at d name (read_snapshot (w_mvcc w) d name 0) in
  (exists w', GetPartitionStats self name w
      = (match stats_of o with Ret st => Ret (StatusOK, st) | _ => UB end, w')
    /\ (stats_of o <> UB -> serving w' d))
  /\ (forall f, sums_fit f 0 (default [] o) = true <-> forall k, in_i64 (total f (take k (default [] o))) = true)
  /\ (forall f, Forall (fun p => 0 <= f p) (default [] o) -> sums_fit f 0 (default [] o) = in_i64 (total f (default [] o))).
Proof.
  intros Hn S o. split; [|split; [intros f; apply sums_fit_iff|intros f Hf; by apply sums_fit_nonneg]].
  destruct (get_stats_spec name w d Hn S) as (w' & E & S'). fold o in E, S'. exists w'.
  split; [|done]. unfold GetPartitionStats, bind. rewrite E. unfold stats_of. by repeat case_match.
Qed.

(** ** Metadata *)

Lemma catalog_get_table_spec name w d :
  nul_free name -> serving w d ->
  exists w', CatalogManager.get_table self name w = (Ret (tab_row <$> find_live d name), w')
    /\ serving w' d /\ w_mvcc w' = w_mvcc w.
Proof.
  intros Hn S. unfold CatalogManager.get_table.
  enter_guard S (fun a d' (_ : PartitionCache) => a = tab_row <$> find_live d name /\ d' = d) a w' d' E HQ.
  2:{ destruct HQ as (S' & Em & -> & ->). by exists w'. }
  intros w1 S1 Em Ec Ep.
  destruct (reads_only (fun conn => get_table conn name) w1 d (tab_row <$> find_live d name) S1)
    as (w2 & E2 & S2 & El2 & Em2 & _); [|by exists (tab_row <$> find_live d name), w2, d].
  intros c s Rd _. destruct (get_table_spec c name s d Rd) as (s' & E & Ea). rewrite Hn in E. by exists s'.
Qed.

(** Resolving a snapshot again finds the same one. *)
Lemma read_snapshot_twice m d name s : read_snapshot m d name (read_snapshot m d name s) = read_snapshot m d name s.
Proof.
  unfold read_snapshot. set (x := current_snapshot d (c_str name)). set (l := latest_committed_snapshot_ m).
  destruct (Z.eqb s 0) eqn:Es; [|by rewrite !Es].
  destruct (Z.eqb l 0) eqn:El; [|by rewrite !El].
  destruct (Z.eqb x 0) eqn:Ex; [|by rewrite !Ex]. rewrite !El. done.
Qed.

(** C12: [GetTableMetadata] answers NOT_FOUND exactly for a table that does
    not exist, and otherwise the row of the table, the snapshot that the
    request resolves to, the partitions of that snapshot and their totals,
    unless a partial sum of the totals does not fit in 64 bits, which is
    undefined. *)
Theorem get_table_metadata_correct name req w d :
  nul_free name -> serving w d ->
  let s := read_snapshot (w_mvcc w) d name req in
  let rows := default [] (partitions_at d name s) in
  exists w', GetTableMetadata self name req w =
    (match find_live d name with
     | None => Ret (NOT_FOUND ("Table not found: " +:+ name), empty_metadata)
     | Some t =>
         if sums_fit pr_row_count 0 rows && sums_fit pr_size_bytes 0 rows
         then Ret (StatusOK, mkTableMetadataResponse name (tb_schema_json t) s (tb_schema_version t)
                     (to_partition_info <$> rows) [] (total pr_row_count rows) (total pr_size_bytes rows))
         else UB
     end, w')
    /\ ((GetTableMetadata self name req w).1 <> UB -> serving w' d).
Proof.
  intros Hn S s rows. unfold GetTableMetadata.
  destruct (catalog_get_table_spec name w d Hn S) as (w1 & E1 & S1 & Em1). rewrite (bind_ret _ _ _ _ _ E1).
  destruct (find_live d name) as [t|] eqn:Et; cbn [fmap option_fmap option_map]; [|by exists w1].
  assert (requested_snapshot req w1 = (Ret (if req =? 0 then latest_committed_snapshot_ (w_mvcc w1) else req), w1)) as Er
    by (unfold requested_snapshot; by destruct (req =? 0)).
  rewrite (bind_ret _ _ _ _ _ Er). cbv zeta. rewrite Em1.
  assert ((if (if req =? 0 then latest_committed_snapshot_ (w_mvcc w) else req) =? 0
           then u64 (tr_current_snapshot_id (tab_row t))
           else if req =? 0 then latest_committed_snapshot_ (w_mvcc w) else req) = s) as ->.
  { unfold s, read_snapshot, current_snapshot. rewrite Hn, Et. done. }
  destruct (get_partitions_spec self name s w1 d Hn S1) as (w2 & E2 & S2 & Em2).
  assert (read_snapshot (w_mvcc w) d name s = s) as Etwice by apply read_snapshot_twice.
  rewrite Em1, Etwice in E2. fold rows in E2. rewrite (bind_ret _ _ _ _ _ E2). fold rows.
  unfold bind. rewrite sum_rows_spec by done. apply find_live_spec in Et as (_ & Htn & _).
  exists w2. split; [|done]. destruct (sums_fit _ _ _ && sums_fit _ _ _); [|done]. by rewrite <- Htn.
Qed.
End server.

(** ** Witnesses *)

#[local] Existing Instance reliable_service.

Lemma pagination_complete_witness : exists rows, partitions_at demo_db "orders" 1 = Some rows /\ length rows = 2%nat
  /\ (walk 0%nat 3 "orders" 1 1 "" demo).1 = Some (to_partition_info <$> rows)
  /\ (GetPartitions 0%nat "orders" 1 0 "" demo).1
     = Ret (StatusOK, mkPartitionListResponse (to_partition_info <$> rows) "" (Z.of_nat (length rows))).
Proof.
  destruct (partitions_at demo_db "orders" 1) as [rows|] eqn:E; [|vm_compute in E; discriminate].
  assert (length rows = 2%nat) as Hlen by (vm_compute in E; by injection E as <-).
  exists rows. split; [reflexivity|]. split; [exact Hlen|].
  apply (pagination_complete 0%nat "orders" 1 1 demo demo_db rows 3);
    [reflexivity|apply demo_serving|lia|lia|reflexivity|exact E|lia].
Defined.

(** The first sum of a table that has been given a negative count overflows. *)
Definition demo_overflow : @World reliable_service :=
  (CommitSnapshot 0%nat "orders" [demo_part "m" 9223372036854775807 0; demo_part "n" (-9223372036854775807) 0] [] 2 "" demo).2.
Definition demo_overflow_db : Db := Eval vm_compute in committed (abs (w_pg demo_overflow)).

Lemma demo_overflow_serving : serving demo_overflow demo_overflow_db.
Proof.
  assert (committed (abs (w_pg demo_overflow)) = demo_overflow_db) as <- by (vm_compute; reflexivity).
  apply serving_checked; [vm_compute; reflexivity| |vm_compute; reflexivity].
  exists 2. split; [lia|]. vm_compute. reflexivity.
Qed.

Lemma get_stats_correct_witness :
  (exists w', GetPartitionStats 0%nat "orders" demo = (Ret (StatusOK, mkStats 2 50 500 250), w'))
  /\ (exists w', GetPartitionStats 0%nat "orders" demo_overflow = (UB, w')).
Proof.
  split.
  - destruct (get_stats_correct 0%nat "orders" demo demo_db eq_refl demo_serving) as [(w' & E & _) _].
    exists w'. rewrite E. reflexivity.
  - destruct (get_stats_correct 0%nat "orders" demo_overflow demo_overflow_db eq_refl demo_overflow_serving) as [(w' & E & _) _].
    exists w'. rewrite E. reflexivity.
Defined.

Lemma get_table_metadata_correct_witness :
  (exists w' infos, GetTableMetadata 0%nat "orders" 1 demo
     = (Ret (StatusOK, mkTableMetadataResponse "orders" "{}" 1 1 infos [] 30 400), w') /\ length infos = 2%nat)
  /\ (exists w', GetTableMetadata 0%nat "orders" 3 demo_overflow = (UB, w')).
Proof.
  split.
  - destruct (get_table_metadata_correct 0%nat "orders" 1 demo demo_db eq_refl demo_serving) as (w' & E & _).
    do 2 eexists. split; [rewrite E; reflexivity|reflexivity].
  - destruct (get_table_metadata_correct 0%nat "orders" 3 demo_overflow demo_overflow_db eq_refl demo_overflow_serving) as (w' & E & _).
    exists w'. rewrite E. reflexivity.
Defined.
