(* ===== verification/CatalogSpec.v ===== *)
(** * What the catalog promises

    Creating, altering, renaming and dropping a table through the handlers, on
    a server at rest and a reliable service: what the catalog says afterwards,
    and that no reader, through the cache or not, is answered from before. *)
From S2P Require Import Prelude Cxx Sql Database PgService DbFacts RefServer PgClient PgSpec PgWrites Changes LruCache Mvcc World SchemaStore PartitionRegistry MetadataServer Serving Demo Transactions PgCatalog RegistrySpec ServerSpec.
From S2P Require LockManager ConnectionPool CatalogManager.

(** ** The live tables after a change *)

Lemma find_live_iff d name t :
  integrity d -> find_live d name = Some t <-> t ∈ db_tables d /\ tb_table_name t = name /\ tb_is_deleted t = Some false.
Proof.
  intros I. split; [apply find_live_spec|]. intros (Hin & Hn & Hd).
  assert (t ∈ filter (fun t => live name t) (db_tables d)) as Hf
    by (apply list_elem_of_filter; split; [by apply live_true|done]).
  rewrite live_rows in Hf by done. destruct (find_live d name) as [t'|]; cbn in Hf.
  - by apply list_elem_of_singleton in Hf as ->.
  - by apply not_elem_of_nil in Hf.
Qed.

Lemma find_live_ext d d' name name' (f : table_rec -> table_rec) :
  integrity d -> integrity d' ->
  (forall t', (t' ∈ db_tables d' /\ tb_table_name t' = name' /\ tb_is_deleted t' = Some false) <->
     exists t, (t ∈ db_tables d /\ tb_table_name t = name /\ tb_is_deleted t = Some false) /\ t' = f t) ->
  find_live d' name' = f <$> find_live d name.
Proof.
  intros I I' H. destruct (find_live d' name') as [t'|] eqn:E'.
  - apply (find_live_iff d' name' t' I') in E'. apply H in E' as (t & Ht & ->).
    apply (find_live_iff d name t I) in Ht as ->. done.
  - destruct (find_live d name) as [t|] eqn:E; [|done].
    apply (find_live_iff d name t I) in E. assert (find_live d' name' = Some (f t)); [|congruence].
    apply find_live_iff; [done|]. apply H. by exists t.
Qed.

Lemma map_where_elem {R} (b : R -> bool) f (l : list R) r' :
  r' ∈ map_where b f l <-> exists r, r ∈ l /\ r' = if b r then f r else r.
Proof. unfold map_where. rewrite list_elem_of_fmap. naive_solver. Qed.

(** A table that takes another name takes everything with it. *)
Lemma renamed_tables now old new d d' :
  integrity d -> name_update now old new d = Some d' -> old <> new ->
  find_live d' old = None
  /\ (find_live d' new = match find_live d old with Some t => Some (set_name new now t) | None => find_live d new end)
  /\ (forall n, n <> old -> n <> new -> find_live d' n = find_live d n).
Proof.
  intros I [-> I'%constraints_integrity]%check_some Hne. set (d' := update_tables old (set_name new now) d) in *.
  assert (forall t' n, (t' ∈ db_tables d' /\ tb_table_name t' = n /\ tb_is_deleted t' = Some false) <->
    exists t, t ∈ db_tables d /\ tb_is_deleted t = Some false
      /\ ((tb_table_name t = old /\ n = new /\ t' = set_name new now t) \/ (tb_table_name t <> old /\ tb_table_name t = n /\ t' = t))) as H.
  { intros t' n. unfold d', update_tables. cbn. rewrite map_where_elem. split.
    - intros ((t & Ht & ->) & Hn & Hd). exists t. destruct (live old t) eqn:El.
      + apply Is_true_true, live_true in El as [<- ?]. cbn in Hn. subst n. split; [done|]. split; [done|]. by left.
      + split; [done|]. split; [done|]. right. split_and!; try done. intros <-.
        assert (live (tb_table_name t) t) as Hl by by apply live_true. by rewrite El in Hl.
    - intros (t & Ht & Hd & [(Ho & -> & ->)|(Ho & <- & ->)]).
      + assert (live old t) as Hl%Is_true_true by by apply live_true. split; [|by cbn]. exists t. by rewrite Hl.
      + split; [|done]. exists t. split; [done|]. destruct (live old t) eqn:El; [|done].
        by apply Is_true_true, live_true in El as [? _]. }
  split; [|split].
  - destruct (find_live d' old) as [t'|] eqn:E; [|done].
    apply (find_live_iff d' old t' I') in E. apply H in E as (t & _ & _ & [(_ & ? & _)|(? & ? & _)]); congruence.
  - destruct (find_live d old) as [t|] eqn:E.
    + apply (find_live_iff d old t I) in E as (Ht & Hn & Hd). apply find_live_iff; [done|]. apply H. exists t.
      split; [done|]. split; [done|]. by left.
    + rewrite <- (option_fmap_id (find_live d new)). apply find_live_ext; [done..|]. intros t'. rewrite H. split.
      * intros (t & Ht & Hd & [(Ho & _)|(_ & Hn & ->)]); [|by exists t].
        assert (find_live d old = Some t) by by apply find_live_iff. congruence.
      * intros (t & (Ht & Hn & Hd) & ->). exists t. split; [done|]. split; [done|]. right. split_and!; try done. congruence.
  - intros n Ho Hn. rewrite <- (option_fmap_id (find_live d n)). apply find_live_ext; [done..|]. intros t'. rewrite H. split.
    + intros (t & Ht & Hd & [(_ & ? & _)|(_ & ? & ->)]); [done|by exists t].
    + intros (t & (Ht & ? & Hd) & ->). exists t. split; [done|]. split; [done|]. right. split_and!; try done. congruence.
Qed.

(** A dropped table is gone, the others are not. *)
Lemma dropped_tables now name d d' :
  integrity d -> drop_update now name d = Some d' ->
  find_live d' name = None /\ (forall n, n <> name -> find_live d' n = find_live d n).
Proof.
  intros I [-> I'%constraints_integrity]%check_some. set (d' := update_tables name (set_dropped now) d) in *.
  assert (forall t', t' ∈ db_tables d' <-> exists t, t ∈ db_tables d /\ t' = if live name t then set_dropped now t else t) as H
    by (intros t'; unfold d', update_tables; cbn; apply map_where_elem).
  split.
  - destruct (find_live d' name) as [t'|] eqn:E; [|done].
    apply (find_live_iff d' name t' I') in E as (Hin & Hn & Hd). apply H in Hin as (t & Ht & ->).
    destruct (live name t) eqn:El; [done|]. assert (live name t) as Hl by by apply live_true. by rewrite El in Hl.
  - intros n Hn. rewrite <- (option_fmap_id (find_live d n)). apply find_live_ext; [done..|]. intros t'. rewrite H. split.
    + intros ((t & Ht & ->) & Hnm & Hd). exists t. by destruct (live name t).
    + intros (t & (Ht & Hnm & Hd) & ->). split; [|done]. exists t. split; [done|].
      destruct (live name t) eqn:El; [|done]. apply Is_true_true, live_true in El as [? _]. cbn in Hnm. congruence.
Qed.

(** A change that keeps names and deletion marks. *)
Lemma find_live_update f name d n :
  (forall t, tb_table_name (f t) = tb_table_name t /\ tb_is_deleted (f t) = tb_is_deleted t) ->
  integrity d -> constraints_ok (update_tables name f d) = true ->
  find_live (update_tables name f d) n = if decide (n = name) then f <$> find_live d n else find_live d n.
Proof.
  intros Hf I I'%constraints_integrity.
  assert (forall n' t, live n' t -> (n' = name <-> live name t = true)) as Hlive.
  { intros n' t [<- ?]%live_true. rewrite <- Is_true_true, live_true. split; [by intros <-|by intros [-> _]]. }
  assert (forall t', t' ∈ db_tables (update_tables name f d) <-> exists t, t ∈ db_tables d /\ t' = if live name t then f t else t) as H
    by (intros t'; unfold update_tables; cbn; apply map_where_elem).
  assert (forall n' t, live n' (if live name t then f t else t) <-> live n' t) as Hkeep.
  { intros n' t. rewrite !live_true. destruct (live name t); [|done]. destruct (Hf t) as [-> ->]. done. }
  transitivity ((fun t => if decide (n = name) then f t else t) <$> find_live d n);
    [|destruct (decide (n = name)); [done|apply option_fmap_id]].
  apply find_live_ext; [done..|]. intros t'. rewrite <- live_true, H. split.
  - intros ((t & Ht & ->) & Hl%(proj1 (Hkeep _ _))). exists t. split; [split; [done|by apply (proj1 (live_true n t))]|].
    specialize (Hlive n t Hl). case_decide as Hd; destruct (live name t); naive_solver.
  - intros (t & (Ht & Hl%(proj2 (live_true _ _))) & ->). specialize (Hlive n t Hl).
    assert ((if decide (n = name) then f t else t) = if live name t then f t else t) as ->
      by (case_decide; destruct (live name t); naive_solver).
    split; [by exists t|by apply Hkeep].
Qed.

(** A created table is there, and its name was free. *)
Lemma created_tables `{PgService} now n name schema spec props d d' :
  integrity d -> table_insert now n name schema spec props d = Some (true, d') ->
  find_live d name = None /\ db_partitions d' = db_partitions d
  /\ (exists j q, pg_jsonb_in schema = Some j /\ pg_jsonb_in props = Some q
        /\ find_live d' name = Some (new_table n now name j spec q))
  /\ (forall n', n' <> name -> find_live d' n' = find_live d n').
Proof.
  intros I. unfold table_insert. destruct (pg_jsonb_in schema) as [j|]; [|done]. destruct (pg_jsonb_in props) as [q|]; [|done].
  cbn [mbind option_bind]. destruct (name_taken name d) eqn:Et; [done|].
  destruct (check _) as [d1|] eqn:Ec; [|done]. intros [= <-]. apply check_some in Ec as [-> I'%constraints_integrity].
  set (t0 := new_table n now name j spec q) in *.
  assert (forall t, t ∈ db_tables d -> tb_table_name t <> name) as Hfree.
  { intros t Ht Hn. assert (name_taken name d = true); [|congruence].
    apply existsb_exists. exists t. rewrite <- list_elem_of_In. split; [done|]. by apply String.eqb_eq. }
  assert (forall t, t ∈ db_tables (add_table t0 d) <-> t ∈ db_tables d \/ t = t0) as Hin
    by (intros t; unfold add_table; cbn; by rewrite elem_of_app, list_elem_of_singleton).
  split; [|split; [done|split]].
  - destruct (find_live d name) as [t|] eqn:E; [|done]. apply find_live_spec in E as (Ht & Hn & _). by apply Hfree in Ht.
  - exists j, q. split; [done|]. split; [done|]. apply find_live_iff; [done|]. split; [|done]. apply Hin. by right.
  - intros n' Hne. rewrite <- (option_fmap_id (find_live d n')). apply find_live_ext; [done..|]. intros t'. rewrite Hin. split.
    + intros ([Ht| ->] & Hn & Hd); [by exists t'|]. by cbn in Hn.
    + intros (t & (Ht & Hn & Hd) & ->). split; [by left|done].
Qed.

(** ** When a change is possible *)

Lemma integrity_update_tables name f d :
  (forall t, tb_table_id (f t) = tb_table_id t /\ tb_table_name (f t) = tb_table_name t
     /\ tb_schema_version (f t) = tb_schema_version t /\ tb_current_snapshot_id (f t) = tb_current_snapshot_id t) ->
  integrity d -> integrity (update_tables name f d).
Proof.
  intros Hf I. unfold update_tables. split; cbn; rewrite ?map_where_fmap by (intros; apply Hf); try apply I.
  intros r (r' & Hr' & ->)%map_where_elem. destruct (in_table_range _ I r' Hr') as (? & ? & ?).
  destruct (live name r'); [destruct (Hf r') as (-> & _ & -> & ->)|]; by split_and!.
Qed.

Lemma drop_update_succeeds now name d : integrity d -> is_Some (drop_update now name d).
Proof. intros I. unfold drop_update. rewrite check_integrity; [by eexists|]. by apply integrity_update_tables. Qed.

Lemma name_taken_false name d : name_taken name d = false <-> forall t, t ∈ db_tables d -> tb_table_name t <> name.
Proof.
  unfold name_taken. split.
  - intros Ht t Hin Hn. assert (existsb (fun t => String.eqb (tb_table_name t) name) (db_tables d) = true); [|congruence].
    apply existsb_exists. exists t. rewrite <- list_elem_of_In. split; [done|]. by apply String.eqb_eq.
  - intros H. destruct (existsb _ _) eqn:E; [|done]. apply existsb_exists in E as (t & Ht & En%String.eqb_eq).
    apply list_elem_of_In in Ht. by destruct (H t Ht).
Qed.

(** Renaming needs a name that no row has. *)
Lemma name_update_succeeds now old new d : integrity d -> name_taken new d = false -> is_Some (name_update now old new d).
Proof.
  intros I Hnew. rewrite name_taken_false in Hnew. unfold name_update. rewrite check_integrity; [by eexists|].
  unfold update_tables. split; cbn; try rewrite (map_where_fmap _ _ tb_table_id) by done; try apply I.
  2:{ intros r (r' & Hr' & ->)%map_where_elem. destruct (in_table_range _ I r' Hr') as (? & ? & ?). by destruct (live old r'). }
  pose proof (in_table_names _ I) as Hn. unfold map_where. induction (db_tables d) as [|t l IH]; [constructor|].
  rewrite !fmap_cons in *. apply NoDup_cons in Hn as [Ht Hn].
  specialize (IH (fun t' H => Hnew t' (list_elem_of_further _ _ _ H)) Hn). apply NoDup_cons. split; [|done].
  intros (r & Er & (r' & -> & Hr')%list_elem_of_fmap)%list_elem_of_fmap.
  assert (tb_table_name t <> tb_table_name r') as Hne by (intros E; apply Ht; rewrite E; by apply list_elem_of_fmap_2).
  assert (tb_table_name t <> new) by (apply Hnew; left). assert (tb_table_name r' <> new) by (apply Hnew; by right).
  destruct (live old t) eqn:E1, (live old r') eqn:E2; cbn in Er; try congruence.
  apply Is_true_true, live_true in E1 as [? _]. apply Is_true_true, live_true in E2 as [? _]. congruence.
Qed.

Lemma table_insert_succeeds `{PgService} now n name schema spec props d :
  integrity d -> (forall t, t ∈ db_tables d -> tb_table_id t < n) ->
  (exists d', table_insert now n name schema spec props d = Some (true, d'))
  <-> is_Some (pg_jsonb_in schema) /\ is_Some (pg_jsonb_in props) /\ name_taken name d = false /\ in_i64 n = true.
Proof.
  intros I Hlt. unfold table_insert. destruct (pg_jsonb_in schema) as [j|]; [|split; [by intros []|by intros [[] _]]].
  destruct (pg_jsonb_in props) as [q|]; [|split; [by intros []|by intros (_ & [] & _)]]. cbn [mbind option_bind].
  destruct (name_taken name d) eqn:Et; [split; [by intros []|by intros (_ & _ & ? & _)]|].
  split.
  - intros [d' E]. destruct (check _) as [d1|] eqn:Ec; [|done]. apply check_some in Ec as [_ I'%constraints_integrity].
    split; [by eexists|]. split; [by eexists|]. split; [done|].
    apply (in_table_range _ I' (new_table n now name j spec q)). unfold add_table. cbn. apply elem_of_app. right. by left.
  - intros (_ & _ & _ & Hn). rewrite name_taken_false in Et. rewrite check_integrity; [by eexists|].
    unfold add_table. split; cbn; try apply I.
    + rewrite fmap_app. apply NoDup_snoc_lt; [apply I|]. by intros x (t & -> & Ht)%list_elem_of_fmap; apply Hlt.
    + rewrite fmap_app. apply NoDup_app. split; [apply I|]. split; [|apply NoDup_singleton].
      intros x (t & -> & Ht)%list_elem_of_fmap Hx%list_elem_of_singleton. by destruct (Et t Ht).
    + intros r Hr. rewrite fmap_app. apply refers_app. by apply (in_history_fk _ I).
    + intros r Hr. rewrite fmap_app. apply refers_app. by apply (in_snapshot_fk _ I).
    + intros r Hr. destruct (in_partition_fk _ I r Hr). rewrite fmap_app. split; [by apply refers_app|done].
    + intros r. rewrite elem_of_app, list_elem_of_singleton. intros [Hr| ->]; [by apply (in_table_range _ I)|done].
Qed.

(** ** What readers see after a change *)

Lemma partitions_at_same d d' n n' s :
  tb_table_id <$> find_live d' n' = tb_table_id <$> find_live d n -> db_partitions d' = db_partitions d ->
  partitions_at d' n' s = partitions_at d n s.
Proof.
  intros Et Ep. unfold partitions_at, parts_at. rewrite Ep.
  destruct (find_live d' n'), (find_live d n); try done. injection Et as Et. cbn. by rewrite Et.
Qed.

(** A change that takes no answer from the tables that are not stale. *)
Lemma cache_ok_mono (stale stale' : string -> Prop) d d' c :
  cache_ok_but (stale := stale) d c ->
  (forall n, stale n -> stale' n) ->
  (forall n s rows, ~ stale' n -> partitions_at d n s = Some rows -> partitions_at d' n s = Some rows) ->
  cache_ok_but (stale := stale') d' c.
Proof.
  intros [W Hc Co] Hst Hd. split; [done|done|]. intros n s rows Hin Hn Hns. apply Hd; [done|].
  eapply Co; [done..|]. auto.
Qed.

Section catalog.
Context {P : PgService} `{!PgLaws P, !PgReliable P} (self : tid).

Lemma serving_fresh stale (w : World) d :
  serving_but (stale := stale) w d -> cache_ok d (w_cache w) -> serving w d.
Proof. intros [S U] Hc. split; [|done]. by destruct S. Qed.

(** Removing the entries of the table that may be stale. *)
Lemma invalidate_spec stale name w d :
  serving_but (stale := stale) w d -> (forall n, stale n -> n = name) ->
  exists w', invalidate_table_cache name w = (Ret tt, w') /\ serving w' d /\ w_mvcc w' = w_mvcc w.
Proof.
  intros [S U] Hst.
  destruct (invalidate_cache_ok stale name d d (w_cache w) (se_cache _ _ S) Hst) as (r & c' & E & Hc & _); [done|].
  exists (set_cache c' w). split; [|split; [|done]].
  - unfold invalidate_table_cache, bind, on_cache. by rewrite E.
  - split; [|exact U]. by destruct S.
Qed.

(** One write outside of a transaction. *)
Lemma wrote_rested c s s' d od :
  ready c (abs s) d -> sessions (abs s) !! c = Some Idle -> wrote c s s' od ->
  rested c (abs s) (abs s') (default d od).
Proof.
  intros Rd Hi Hw. pose proof (rested_idle c s d Rd Hi) as R.
  destruct od as [d'|]; cbn in Hw |- *.
  - destruct Hw as (Rd' & q & Hle & Ea). unfold set_view in Ea. rewrite Hi in Ea. rewrite Ea in *.
    split; try done; apply Rd'.
  - destruct Hw as (q & Hle & Ea). rewrite fail_view_idle in Ea by done. rewrite Ea. split; cbn; try apply R.
    + eapply db_ok_mono; [done|apply R].
    + eapply seqs_ok_mono; [done|apply R].
Qed.

(** A connection whose scope is one write and an answer [g]. *)
Lemma one_write {A B} stale (m : PGconn -> PgM A) (k : A -> M B) (g : A -> B) w d (Q : A -> Db -> Prop) :
  settled w d ->
  (forall a w, k a w = (Ret (g a), w)) ->
  (forall c s, ready c (abs s) d -> sessions (abs s) !! c = Some Idle -> seqs (abs s) = seqs (abs (w_pg w)) ->
     exists a s' od, m c s = (inr a, s') /\ wrote c s s' od /\ Q a (default d od)
       /\ (forall n r rows, ~ stale n -> partitions_at d n r = Some rows -> partitions_at (default d od) n r = Some rows)) ->
  exists a w' d', with_connection (fun c => let* a := on_pg (m c) in k a) w = (Ret (g a), w')
    /\ settled_but (stale := stale) w' d' /\ w_locks w' = w_locks w /\ w_mvcc w' = w_mvcc w /\ Q a d'.
Proof.
  intros S Hk Hm.
  destruct (connected_but no_table stale (fun c => let* a := on_pg (m c) in k a) w d
    (fun b d' _ => exists a, b = g a /\ Q a d') S)
    as (b & w' & d' & E & S' & El & Em & a & -> & HQ); [|by exists a, w', d'].
  intros c w1 Rd Hi Em Ec Ep. destruct (Hm c (w_pg w1) Rd Hi) as (a & s' & od & E & Hw & HQ & Hkeep); [by rewrite Ep|].
  exists (g a), (set_pg s' w1), (default d od). split; [by rewrite (bind_ret _ _ _ _ _ (on_pg_ret _ _ _ _ E)), Hk|].
  split; [by apply wrote_rested|]. split_and!; try done; [|by exists a].
  cbn. rewrite Ec. eapply (cache_ok_mono no_table); [apply S|by intros n []|done].
Qed.

(** ** Creating a table *)

Lemma table_insert_taken now n name schema spec props d d' :
  table_insert now n name schema spec props d = Some (false, d') -> d' = d.
Proof.
  unfold table_insert. destruct (pg_jsonb_in schema); [|done]. destruct (pg_jsonb_in props); [|done].
  cbn [mbind option_bind]. destruct (name_taken name d); [by intros [= ->]|by destruct (check _)].
Qed.

Lemma create_table_mono now n name schema spec props d b d' :
  integrity d -> table_insert now n name schema spec props d = Some (b, d') ->
  forall n' s rows, partitions_at d n' s = Some rows -> partitions_at d' n' s = Some rows.
Proof.
  intros I E n' s rows Hr. destruct b.
  - destruct (created_tables _ _ _ _ _ _ _ _ I E) as (Hf & Hp & _ & Ho). rewrite <- Hr.
    apply partitions_at_same; [|done]. destruct (decide (n' = name)) as [->|Hne]; [|by rewrite Ho].
    unfold partitions_at in Hr. by rewrite Hf in Hr.
  - by apply table_insert_taken in E as ->.
Qed.

Lemma catalog_create_spec name schema spec props w d :
  nul_free name -> serving w d ->
  exists (ok : bool) w' d' now, CatalogManager.create_table self name schema spec props w
      = (Ret (CatalogManager.mkOpResult ok (if ok then "" else "Failed to create table (may already exist): " +:+ name)), w')
    /\ serving w' d' /\ w_mvcc w' = w_mvcc w
    /\ match table_insert now (sq_tables (seqs (abs (w_pg w)))) name (c_str schema) (c_str spec) (c_str props) d with
       | Some (true, d1) => ok = true /\ d' = d1
       | _ => ok = false /\ d' = d
       end.
Proof.
  intros Hn S. unfold CatalogManager.create_table.
  set (g := fun ok : bool => CatalogManager.mkOpResult ok
    (if ok then "" else "Failed to create table (may already exist): " +:+ name)).
  set (Q := fun (ok : bool) d' => exists now,
    match table_insert now (sq_tables (seqs (abs (w_pg w)))) name (c_str schema) (c_str spec) (c_str props) d with
    | Some (true, d1) => ok = true /\ d' = d1
    | _ => ok = false /\ d' = d
    end).
  enter_guard S (fun r d' (_ : PartitionCache) => exists ok, r = g ok /\ Q ok d') r w' d' E HQ.
  2:{ destruct HQ as (S' & Em & ok & -> & now & HQ). by exists ok, w', d', now. }
  intros w1 S1 Em Ec Ep.
  destruct (one_write no_table (fun conn => create_table conn name schema spec props)
    (fun ok : bool => if negb ok then ret (CatalogManager.mkOpResult false ("Failed to create table (may already exist): " +:+ name))
                      else ret (CatalogManager.mkOpResult true "")) g w1 d Q S1)
    as (ok & w2 & d' & E & S2 & El & Em2 & HQ); [by intros []| |by exists (g ok), w2, d'; split_and!; try done; exists ok].
  intros c s Rd Hi Hq. destruct (create_table_spec c name schema spec props s d Rd) as (ok & s' & now & E & Hok & Hw).
  rewrite Hn, Hq, Ep in *. exists ok, s', (snd <$> table_insert now (sq_tables (seqs (abs (w_pg w)))) name (c_str schema) (c_str spec) (c_str props) d).
  split; [done|]. split; [done|]. pose proof (ready_integrity _ _ _ Rd) as I.
  destruct (table_insert _ _ _ _ _ _ _) as [[b d1]|] eqn:Et; cbn in *.
  - subst b. split; [|intros n r rows _; by eapply create_table_mono]. exists now. rewrite Et. destruct ok; [done|].
    split; [done|]. by eapply table_insert_taken.
  - split; [|done]. exists now. by rewrite Et.
Qed.
(** ** Renaming a table *)

Lemma rename_mono now old new d d' :
  integrity d -> name_update now old new d = Some d' -> old <> new ->
  forall n s rows, n <> old -> partitions_at d n s = Some rows -> partitions_at d' n s = Some rows.
Proof.
  intros I E Hne n s rows Hn Hr. destruct (renamed_tables now old new d d' I E Hne) as (_ & H2 & H3). rewrite <- Hr.
  apply check_some in E as [-> I'%constraints_integrity]. apply partitions_at_same; [|done].
  destruct (decide (n = new)) as [->|Hn']; [|by rewrite H3].
  rewrite H2. destruct (find_live d old) as [t|] eqn:Et; [|done].
  unfold partitions_at in Hr. destruct (find_live d new) as [t2|] eqn:E2; [|done].
  apply find_live_spec in Et as (Ht & Hto & Htd). apply find_live_spec in E2 as (Ht2 & Hn2 & Hd2).
  assert (forall r, r ∈ db_tables (update_tables old (set_name new now) d)
    <-> exists t, t ∈ db_tables d /\ r = if live old t then set_name new now t else t) as H
    by (intros r; unfold update_tables; cbn; apply map_where_elem).
  assert (set_name new now t = t2) as <-; [|done].
  apply (NoDup_fmap_elem tb_table_name (db_tables (update_tables old (set_name new now) d))); [apply I'|..].
  - apply H. exists t. assert (live old t) as Hl%Is_true_true by by apply live_true. by rewrite Hl.
  - apply H. exists t2. destruct (live old t2) eqn:El; [|done]. apply Is_true_true, live_true in El as [? _]. congruence.
  - by cbn.
Qed.

Lemma catalog_rename_spec old new w d :
  nul_free old -> nul_free new -> old <> new -> serving w d ->
  exists (ok : bool) w' d' now, CatalogManager.rename_table self old new w
      = (Ret (CatalogManager.mkOpResult ok (if ok then "" else "Failed to rename " +:+ old +:+ " to " +:+ new)), w')
    /\ serving_but (stale := eq old) w' d' /\ w_mvcc w' = w_mvcc w
    /\ match name_update now old new d with Some d1 => ok = true /\ d' = d1 | None => ok = false /\ d' = d end.
Proof.
  intros Ho Hn Hne [S U]. unfold CatalogManager.rename_table.
  set (g := fun ok : bool => CatalogManager.mkOpResult ok (if ok then "" else "Failed to rename " +:+ old +:+ " to " +:+ new)).
  set (Q := fun (ok : bool) d' => exists now,
    match name_update now old new d with Some d1 => ok = true /\ d' = d1 | None => ok = false /\ d' = d end).
  set (Qg := fun r d' (_ : PartitionCache) => exists ok, r = g ok /\ Q ok d').
  match goal with |- context [with_guard _ _ old ?body w] =>
    destruct (guarded_gen self (eq old) LockManager.Ex old body w d Qg S (U old)) as (r & w' & d' & E & S' & L & Em & HQ) end.
  2:{ destruct HQ as (ok & -> & now & HQ). exists ok, w', d', now. split; [done|].
      split; [split; [done|by eapply unlocked_same]|]. by split. }
  intros w1 S1 Em Ec Ep Hlk.
  match goal with |- context [with_guard _ _ new ?body w1] =>
    destruct (guarded_gen self (eq old) LockManager.Ex new body w1 d Qg S1) as (r & w' & d' & E & S' & L & Em' & HQ);
      [by rewrite Hlk|..|by exists r, w', d'] end.
  intros w2 S2 Em2 Ec2 Ep2 _.
  destruct (one_write (eq old) (fun conn => rename_table conn old new)
    (fun ok : bool => if negb ok then ret (CatalogManager.mkOpResult false ("Failed to rename " +:+ old +:+ " to " +:+ new))
                      else ret (CatalogManager.mkOpResult true "")) g w2 d Q S2)
    as (ok & w3 & d' & E & S3 & El & Em3 & HQ); [by intros []| |].
  - intros c s Rd Hi Hq. destruct (rename_table_spec c old new s d Rd) as (ok & s' & now & E & Hok & Hw).
    rewrite Ho, Hn in *. exists ok, s', (name_update now old new d). split; [done|]. split; [done|].
    pose proof (ready_integrity _ _ _ Rd) as I. destruct (name_update now old new d) as [d1|] eqn:Eu; cbn.
    + rewrite bool_decide_eq_true_2 in Hok by (by eexists). split; [exists now; by rewrite Eu|].
      intros n r rows Hst. eapply rename_mono; [done..|]. congruence.
    + rewrite bool_decide_eq_false_2 in Hok by (by intros []). split; [exists now; by rewrite Eu|done].
  - exists (g ok), w3, d'. split; [done|]. split; [done|]. split; [rewrite El; reflexivity|]. split; [done|]. by exists ok.
Qed.

(** ** Transactions of the catalog *)

(** BEGIN, a method, and COMMIT when it succeeded, ROLLBACK when not. *)
Definition transact {B} (c : PGconn) (m : PgM bool) (bad good : B) : M B :=
  let* _ := on_pg (exec c "BEGIN") in
  let* ok := on_pg m in
  if negb ok then let* _ := on_pg (exec c "ROLLBACK") in ret bad
  else let* _ := on_pg (exec c "COMMIT") in ret good.

Lemma transact_spec {B} c (m : PgM bool) (bad good : B) s w1 d (Q : bool -> Db -> Prop) :
  ready c (abs s) d -> sessions (abs s) !! c = Some Idle ->
  (forall s1, in_tx c (abs s1) d (Some d) -> seqs (abs s1) = seqs (abs s) ->
     exists (ok : bool) s2 od, m s1 = (inr ok, s2) /\ in_tx c (abs s2) d od /\ keeps_others c (abs s1) (abs s2)
       /\ (if ok then exists d', od = Some d' /\ Q true d' else Q false d)) ->
  exists (ok : bool) s' d', transact c m bad good (set_pg s w1) = (Ret (if ok then good else bad : B), set_pg s' w1)
    /\ rested c (abs s) (abs s') d' /\ Q ok d'.
Proof.
  intros Rd Hi Hm. unfold transact. destruct (begin_spec c s d Rd Hi) as (r1 & s1 & E1 & T1 & K1 & Q1).
  rewrite (step_pg (exec c "BEGIN") _ _ _ _ _ E1).
  destruct (Hm s1 T1 Q1) as (ok & s2 & od & E2 & T2 & K2 & HQ). rewrite (step_pg _ _ _ _ _ _ E2).
  destruct ok; cbn [negb].
  - destruct HQ as (d' & -> & HQ). destruct (commit_spec c s2 d d' T2) as (r3 & s3 & E3 & En).
    rewrite (step_pg (exec c "COMMIT") _ _ _ _ _ E3). exists true, s3, d'. split; [done|]. split; [|done].
    eapply rested_ended; [exact T2|by etrans|done|]. by apply (tx_work _ _ _ _ T2).
  - destruct (rollback_spec c s2 d od T2) as (r3 & s3 & E3 & En).
    rewrite (step_pg (exec c "ROLLBACK") _ _ _ _ _ E3). exists false, s3, d. split; [done|]. split; [|done].
    eapply rested_ended; [exact T2|by etrans|done|]. apply T2.
Qed.
(** A scope of a guard and a connection that is a transaction. *)
Lemma guarded_transact {B} stale name (body : PGconn -> M B) (pre : PGconn -> PgM bool) (bad good : B) w d (Q : bool -> Db -> Prop) :
  serving w d ->
  (forall c w2, ready c (abs (w_pg w2)) d -> exists s, abs s = abs (w_pg w2) /\ body c w2 = transact c (pre c) bad good (set_pg s w2)) ->
  (forall c s, in_tx c (abs s) d (Some d) -> seqs (abs s) = seqs (abs (w_pg w)) ->
     exists (ok : bool) s' od, pre c s = (inr ok, s') /\ in_tx c (abs s') d od /\ keeps_others c (abs s) (abs s')
       /\ (if ok then exists d', od = Some d' /\ Q true d' else Q false d)) ->
  (forall d', Q true d' -> forall n r rows, ~ stale n -> partitions_at d n r = Some rows -> partitions_at d' n r = Some rows) ->
  (forall d', Q false d' -> d' = d) ->
  exists (ok : bool) w' d', with_guard LockManager.Ex self name (with_connection body) w
      = (Ret (if ok then good else bad), w')
    /\ serving_but (stale := stale) w' d' /\ w_mvcc w' = w_mvcc w /\ Q ok d' /\ (ok = false -> serving w' d).
Proof.
  intros S Hbody Hpre Hmono Hfalse.
  set (R := fun (b : B) d' c => exists ok : bool, b = (if ok then good else bad) /\ Q ok d' /\ (ok = false -> cache_ok d c)).
  destruct (guarded_but self stale LockManager.Ex name (with_connection body) w d R S)
    as (b & w' & d' & E & S' & Em & ok & -> & HQ & Hf).
  2:{ exists ok, w', d'. split; [done|]. split; [done|]. split; [done|]. split; [done|]. intros ->.
      assert (d' = d) as -> by by apply Hfalse. eapply serving_fresh; [done|by apply Hf]. }
  intros w1 S1 Em Ec Ep.
  destruct (connected_but no_table stale body w1 d R S1)
    as (b & w2 & d' & E & S2 & El & Em2 & HR); [|by exists b, w2, d'].
  intros c w2 Rd Hi Em2 Ec2 Ep2.
  destruct (Hbody c w2 Rd) as (s & Ea & Eb). rewrite <- Ea in Rd, Hi.
  destruct (transact_spec c (pre c) bad good s w2 d Q Rd Hi) as (ok & s' & d' & E & Re & HQ).
  { intros s1 T Hq. apply Hpre; [done|]. by rewrite Hq, Ea, Ep2, Ep. }
  rewrite <- Eb in E. rewrite Ea in Re.
  assert (cache_ok d (w_cache w2)) as Hca by (rewrite Ec2; apply S1).
  exists (if ok then good else bad), (set_pg s' w2), d'. split; [done|]. split; [done|].
  split; [done|]. split; [done|]. split; [done|]. split.
  - destruct ok; [|apply Hfalse in HQ as ->]; (eapply (cache_ok_mono no_table); [done|by intros n []|]); [by apply Hmono|done].
  - exists ok. split; [done|]. split; [done|]. by intros _.
Qed.

(** ** Dropping a table *)

Definition drop_outcome (now : Z) (name : string) (purge_flag : bool) (d : Db) : option Db :=
  t ← find_live d name; if purge_flag then purge (tb_table_id t) name d else drop_update now name d.

Lemma purged_tables tid name d d' :
  integrity d -> purge tid name d = Some d' ->
  db_tables d' = filter (fun r => negb (String.eqb (tb_table_name r) name)) (db_tables d)
  /\ db_partitions d' = filter (fun r => negb (of_table tid (pa_table_id r))) (db_partitions d) /\ integrity d'.
Proof.
  intros I. unfold purge, delete_partitions, delete_snapshots, delete_history, delete_tables.
  destruct (check _) as [d1|] eqn:E1; [|done]. cbn [mbind option_bind]. apply check_some in E1 as [-> _].
  destruct (check _) as [d2|] eqn:E2; [|done]. cbn [mbind option_bind]. apply check_some in E2 as [-> _].
  destruct (check _) as [d3|] eqn:E3; [|done]. cbn [mbind option_bind]. apply check_some in E3 as [-> _].
  intros [-> I'%constraints_integrity]%check_some. done.
Qed.

Lemma drop_outcome_spec now name fl d d' :
  integrity d -> drop_outcome now name fl d = Some d' ->
  is_Some (find_live d name) /\ find_live d' name = None
  /\ (forall n, n <> name -> find_live d' n = find_live d n)
  /\ (forall n s, n <> name -> partitions_at d' n s = partitions_at d n s).
Proof.
  intros I. unfold drop_outcome. destruct (find_live d name) as [t|] eqn:Et; [|done]. cbn [mbind option_bind].
  intros E. split; [by eexists|]. destruct fl.
  - destruct (purged_tables _ _ _ _ I E) as (Ht & Hp & I').
    assert (forall r, r ∈ db_tables d' <-> r ∈ db_tables d /\ tb_table_name r <> name) as H.
    { intros r. rewrite Ht, list_elem_of_filter. destruct (String.eqb_spec (tb_table_name r) name); cbn; naive_solver. }
    assert (forall n, n <> name -> find_live d' n = find_live d n) as Ho.
    { intros n Hn. rewrite <- (option_fmap_id (find_live d n)). apply find_live_ext; [done..|]. intros r. rewrite H. split.
      - intros ((Hr & _) & Hrn & Hd). by exists r.
      - intros (r' & (Hr & Hrn & Hd) & ->). split; [split; [done|by subst n]|done]. }
    split; [|split; [done|]].
    + destruct (find_live d' name) as [r|] eqn:Er; [|done]. apply find_live_spec in Er as ([_ Hr]%H & Hn & _). done.
    + intros n s Hn. unfold partitions_at. rewrite Ho by done. destruct (find_live d n) as [r|] eqn:Er; [|done]. cbn.
      enough (parts_at d' (tb_table_id r) s = parts_at d (tb_table_id r) s) as -> by done.
      unfold parts_at. f_equal. rewrite Hp, list_filter_filter. apply filter_ext_elem. intros p Hpin.
      assert (tb_table_id r <> tb_table_id t) as Hid.
      { intros Hid. apply find_live_spec in Et as (Ht1 & Ht2 & _). apply find_live_spec in Er as (Hr1 & Hr2 & _).
        pose proof (NoDup_fmap_elem tb_table_id (db_tables d) r t (in_table_ids _ I) Hr1 Ht1 Hid). congruence. }
      split; [by intros []|]. intros Hv. split; [done|]. apply Is_true_true in Hv. unfold visible in Hv.
      rewrite !andb_true_iff, bool_decide_eq_true in Hv. destruct Hv as [[-> _] _]. cbn.
      by rewrite (proj2 (Z.eqb_neq _ _) Hid).
  - destruct (dropped_tables now name d d' I E) as [Hn Ho]. split; [done|]. split; [done|]. intros n s Hne.
    apply partitions_at_same; [by rewrite Ho|]. by apply check_some in E as [-> _].
Qed.

Lemma catalog_drop_spec name fl w d :
  nul_free name -> serving w d ->
  exists (ok : bool) w' d' now, CatalogManager.drop_table self name fl w
      = (Ret (CatalogManager.mkOpResult ok (if ok then "" else "Failed to drop table: " +:+ name)), w')
    /\ serving_but (stale := eq name) w' d' /\ w_mvcc w' = w_mvcc w /\ (ok = false -> serving w' d)
    /\ match drop_outcome now name fl d with Some d1 => ok = true /\ d' = d1 | None => ok = false /\ d' = d end.
Proof.
  intros Hn S. pose proof (se_db _ _ (proj1 S)) as Hdb. pose proof (proj1 Hdb) as I%constraints_integrity.
  set (Q := fun (ok : bool) d' => exists now,
    match drop_outcome now name fl d with Some d1 => ok = true /\ d' = d1 | None => ok = false /\ d' = d end).
  destruct (guarded_transact (eq name) name (fun conn => transact conn (drop_table conn name fl)
    (CatalogManager.mkOpResult false ("Failed to drop table: " +:+ name)) (CatalogManager.mkOpResult true ""))
    (fun conn => drop_table conn name fl) (CatalogManager.mkOpResult false ("Failed to drop table: " +:+ name)) (CatalogManager.mkOpResult true "") w d Q S)
    as (ok & w' & d' & E & S' & Em & (now & HQ) & Hf).
  - intros c w2 _. exists (w_pg w2). split; [done|]. by destruct w2.
  - intros c s T Hq. destruct fl.
    + destruct (drop_table_purge_spec c name s d d T) as (ok & s' & E & K & H). rewrite Hn in H.
      unfold Q, drop_outcome. destruct (find_live d name) as [t|] eqn:Et; cbn [mbind option_bind].
      * destruct H as [Hok T']. exists ok, s', (purge (tb_table_id t) name d). split_and!; try done.
        destruct (purge _ _ _) as [d1|].
        -- rewrite bool_decide_eq_true_2 in Hok by (by eexists). subst ok. exists d1. split; [done|]. by exists 0.
        -- rewrite bool_decide_eq_false_2 in Hok by (by intros []). subst ok. by exists 0.
      * destruct H as [-> Ea]. exists false, s', (Some d). rewrite Ea. split_and!; try done. by exists 0.
    + destruct (drop_table_soft_spec c name s d (in_tx_ready _ _ _ _ T)) as (ok & s' & now & E & Hok & Hw).
      rewrite Hn in *. destruct (wrote_tx _ _ _ _ _ _ T Hw) as [T' K].
      exists ok, s', (drop_update now name d). split_and!; try done. unfold Q, drop_outcome.
      destruct (find_live d name) as [t|]; cbn [mbind option_bind].
      * destruct (drop_update now name d) as [d1|] eqn:Eu.
        -- rewrite bool_decide_eq_true_2 in Hok by (split; by eexists). subst ok. exists d1. split; [done|]. exists now. by rewrite Eu.
        -- rewrite bool_decide_eq_false_2 in Hok by (by intros [[] _]). subst ok. exists now. by rewrite Eu.
      * rewrite bool_decide_eq_false_2 in Hok by (by intros [_ []]). subst ok. by exists now.
  - intros d' [now Hd'] n r rows Hst Hr. destruct (drop_outcome now name fl d) as [d1|] eqn:Eo; [|by destruct Hd'].
    destruct Hd' as [_ ->]. destruct (drop_outcome_spec now name fl d d1 I Eo) as (_ & _ & _ & Hp). rewrite Hp; [done|congruence].
  - intros d' [now Hd']. by destruct (drop_outcome now name fl d); destruct Hd'.
  - exists ok, w', d', now. split; [|done]. unfold CatalogManager.drop_table. unfold transact in E. rewrite E. by destruct ok.
Qed.
(** ** Changing a schema *)

Definition alter_outcome (now1 now2 n : Z) (name schema summary : string) (d : Db) : option Db :=
  t ← find_live d name; schema_change now1 now2 n name schema (tb_schema_version t + 1) summary d.

Lemma schema_change_spec now1 now2 n name schema version summary d d' :
  integrity d -> schema_change now1 now2 n name schema version summary d = Some d' ->
  exists j t, pg_jsonb_in schema = Some j /\ find_live d name = Some t
    /\ find_live d' name = Some (set_schema j version now1 t)
    /\ db_history d' = db_history d ++ [mkHistory n (Some (tb_table_id t)) version j (Some now2) (Some summary)]
    /\ (forall name', name' <> name -> find_live d' name' = find_live d name')
    /\ (forall name' s, partitions_at d' name' s = partitions_at d name' s).
Proof.
  intros I. unfold schema_change, schema_update. destruct (pg_jsonb_in schema) as [j|] eqn:Hj; [|done]. cbn [mbind option_bind].
  destruct (in_i32 version); [|done]. destruct (check _) as [d1|] eqn:E1; [|done]. cbn [mbind option_bind].
  apply check_some in E1 as [-> Hc]. 
  assert (forall n', find_live (update_tables name (set_schema j version now1) d) n'
    = if decide (n' = name) then set_schema j version now1 <$> find_live d n' else find_live d n') as Hl
    by (intros n'; by apply find_live_update).
  rewrite Hl, decide_True by done. destruct (find_live d name) as [t|] eqn:Et; [|done]. cbn [mbind option_bind fmap option_fmap option_map].
  unfold history_insert. rewrite Hj. cbn [mbind option_bind]. destruct (in_i32 version); [|done].
  intros [-> _]%check_some. exists j, t. split; [done|]. split; [done|].
  assert (forall n', find_live (add_history (mkHistory n (Some (tb_table_id (set_schema j version now1 t))) version j (Some now2)
    (Some summary)) (update_tables name (set_schema j version now1) d)) n'
    = if decide (n' = name) then set_schema j version now1 <$> find_live d n' else find_live d n') as Hl'.
  { intros n'. rewrite <- Hl. by apply find_live_tables. }
  split_and!.
  - by rewrite Hl', decide_True, Et.
  - done.
  - intros n' Hne. by rewrite Hl', decide_False.
  - intros n' s. apply partitions_at_same; [|done]. rewrite Hl'. case_decide; [|done]. by destruct (find_live d n').
Qed.

(** A schema that is a document is stored, when the table and a version are
    left. *)
Lemma schema_change_succeeds now1 now2 n name schema version summary t d :
  integrity d -> find_live d name = Some t -> is_Some (pg_jsonb_in schema) -> in_i32 version = true ->
  (forall h, h ∈ db_history d -> hi_schema_history_id h < n) ->
  is_Some (schema_change now1 now2 n name schema version summary d).
Proof.
  intros I Et [j Hj] Hv Hfresh. unfold schema_change, schema_update. rewrite Hj, Hv. cbn [mbind option_bind].
  set (d1 := update_tables name (set_schema j version now1) d).
  assert (integrity d1) as I1.
  { unfold d1, update_tables. split; cbn; rewrite ?map_where_fmap by done; try apply I.
    intros r (r' & Hr' & ->)%map_where_elem. destruct (in_table_range _ I r' Hr') as (? & ? & ?).
    by destruct (live name r'). }
  rewrite check_integrity by done. cbn [mbind option_bind].
  assert (find_live d1 name = Some (set_schema j version now1 t)) as Et1.
  { unfold d1. rewrite find_live_update; [by rewrite decide_True, Et|done|done|by apply constraints_integrity]. }
  rewrite Et1. cbn [mbind option_bind]. unfold history_insert. rewrite Hj, Hv. cbn [mbind option_bind].
  rewrite check_integrity; [by eexists|]. apply find_live_spec in Et1 as (Hin & _).
  unfold add_history. split; cbn; try apply I1.
  - rewrite fmap_app. apply NoDup_snoc_lt; [apply I1|]. by intros x (h & -> & Hh)%list_elem_of_fmap; apply Hfresh.
  - intros r [Hr|Hr%list_elem_of_singleton]%elem_of_app; [by apply (in_history_fk _ I1)|]. subst r. cbn.
    apply bool_decide_eq_true. exact (list_elem_of_fmap_2 tb_table_id _ _ Hin).
  - intros r [Hr|Hr%list_elem_of_singleton]%elem_of_app; [by apply (in_history_range _ I1)|]. by subst r.
Qed.

Lemma catalog_alter_spec name schema summary w d :
  nul_free name -> serving w d ->
  (forall t, find_live d name = Some t -> in_i32 (tb_schema_version t + 1) = true) ->
  exists r w' d' now1 now2 n, CatalogManager.alter_table_schema self name schema summary w = (Ret r, w')
    /\ serving w' d' /\ w_mvcc w' = w_mvcc w
    /\ match alter_outcome now1 now2 n name (c_str schema) (c_str summary) d with
       | Some d1 => CatalogManager.success r = true /\ CatalogManager.error_msg r = "" /\ d' = d1
       | None => CatalogManager.success r = false /\ d' = d
       end
    /\ (forall h, h ∈ db_history d -> hi_schema_history_id h < n).
Proof.
  intros Hn S Hv. pose proof (se_db _ _ (proj1 S)) as Hdb. pose proof (proj1 Hdb) as I%constraints_integrity.
  unfold CatalogManager.alter_table_schema, alter_outcome. destruct (find_live d name) as [t|] eqn:Et; cbn [mbind option_bind].
  2:{ enter_guard S (fun r d' (_ : PartitionCache) => r = CatalogManager.mkOpResult false ("Table not found: " +:+ name) /\ d' = d)
        r w' d' E HQ.
      2:{ destruct HQ as (S' & Em & -> & ->). do 2 eexists. exists d, 0, 0, (sq_history (seqs (abs (w_pg w)))).
          split; [exact E|]. split_and!; try done. intros h Hh. by apply Hdb. }
      intros w1 S1 Em Ec Ep.
      match goal with |- context [with_connection ?body w1] =>
        destruct (connected body w1 d (fun r d' _ => r = CatalogManager.mkOpResult false ("Table not found: " +:+ name) /\ d' = d) S1)
          as (r & w2 & d' & E & S2 & El & Em2 & HQ); [|by exists r, w2, d'] end.
      intros c w2 Rd Hi Em2 Ec2 Ep2. destruct (get_table_spec c name (w_pg w2) d Rd) as (s' & E & Ea). rewrite Hn, Et in E.
      rewrite (bind_ret _ _ _ _ _ (on_pg_ret _ _ _ _ E)). do 3 eexists. split; [done|].
      split; [cbn; rewrite Ea; by apply rested_idle|]. split_and!; try done. cbn. rewrite Ec2. apply S1. }
  specialize (Hv t eq_refl).
  set (Q := fun (ok : bool) d' => exists now1 now2 n,
    match schema_change now1 now2 n name (c_str schema) (tb_schema_version t + 1) (c_str summary) d with
    | Some d1 => ok = true /\ d' = d1 | None => ok = false /\ d' = d end
    /\ (forall h, h ∈ db_history d -> hi_schema_history_id h < n)).
  match goal with |- context [with_guard _ _ _ (with_connection ?body) _] =>
    destruct (guarded_transact no_table name body
      (fun conn => update_table_schema conn name schema (tb_schema_version t + 1) summary)
      (CatalogManager.mkOpResult false ("Failed to update schema for: " +:+ name)) (CatalogManager.mkOpResult true "") w d Q S)
      as (ok & w' & d' & E & S' & Em & (now1 & now2 & n & HQ & Hfr) & _) end.
  - intros c w2 Rd. destruct (get_table_spec c name (w_pg w2) d Rd) as (s' & E & Ea). rewrite Hn, Et in E.
    exists s'. split; [done|]. rewrite (bind_ret _ _ _ _ _ (on_pg_ret _ _ _ _ E)). cbn [fmap option_fmap option_map tab_row].
    assert (int32_op (tr_schema_version (tab_row t) + 1) (set_pg s' w2)
      = (Ret (tb_schema_version t + 1), set_pg s' w2)) as Ev by (unfold int32_op; cbn [tab_row tr_schema_version]; by rewrite Hv).
    by rewrite (bind_ret _ _ _ _ _ Ev).
  - intros c s T Hq.
    destruct (update_table_schema_spec c name schema (tb_schema_version t + 1) summary s d d T)
      as (ok & s' & now1 & now2 & n & od & E & K & Hok & T' & Hod & Hfr). rewrite Hn in *.
    exists ok, s', od. split_and!; try done. unfold Q.
    destruct (schema_change _ _ _ _ _ _ _ _) as [d1|] eqn:Es.
    + rewrite bool_decide_eq_true_2 in Hok by (by eexists). subst ok. exists d1. split; [by apply Hod; eexists|].
      exists now1, now2, n. by rewrite Es.
    + rewrite bool_decide_eq_false_2 in Hok by (by intros []). subst ok. exists now1, now2, n. by rewrite Es.
  - intros d' (now1 & now2 & n & Hd' & _) n' r rows _ Hr. destruct (schema_change _ _ _ _ _ _ _ _) as [d1|] eqn:Es; [|by destruct Hd'].
    destruct Hd' as [_ ->]. destruct (schema_change_spec _ _ _ _ _ _ _ _ _ I Es) as (? & ? & _ & _ & _ & _ & _ & Hp). by rewrite Hp.
  - intros d' (now1 & now2 & n & Hd' & _). by destruct (schema_change _ _ _ _ _ _ _ _); destruct Hd'.
  - do 2 eexists. exists d', now1, now2, n. split; [exact E|]. split_and!; try done.
    destruct (schema_change _ _ _ _ _ _ _ _); destruct HQ as [-> ->]; by split_and!.
Qed.
(** The next version of a table at the largest one does not exist. *)
Lemma alter_overflow name schema summary t w d :
  nul_free name -> serving w d -> find_live d name = Some t -> in_i32 (tb_schema_version t + 1) = false ->
  exists w', CatalogManager.alter_table_schema self name schema summary w = (UB, w').
Proof.
  intros Hn S Et Hv. unfold CatalogManager.alter_table_schema. apply (guarded_ub self _ _ _ w d S). intros w1 S1 _.
  apply (connected_ub _ w1 d S1). intros c w2 Rd _ _. destruct (get_table_spec c name (w_pg w2) d Rd) as (s' & E & Ea).
  rewrite Hn, Et in E. rewrite (bind_ret _ _ _ _ _ (on_pg_ret _ _ _ _ E)). cbn [fmap option_fmap option_map].
  unfold bind at 1, int32_op. cbn [tab_row tr_schema_version]. rewrite Hv. by eexists.
Qed.
End catalog.
