(* ===== verification/HandlerSpec.v ===== *)
(** * What the catalog handlers promise

    [CreateTable], [DropTable] and [AlterTable] on a server at rest and a
    reliable service, as clients see them: the answers of later requests,
    through the cache or not. *)
From S2P Require Import Prelude Cxx Sql Database PgService DbFacts RefServer PgClient PgSpec PgWrites Changes LruCache Mvcc World SchemaStore PartitionRegistry MetadataServer Serving Demo Transactions PgCatalog RegistrySpec ServerSpec CatalogSpec.
From S2P Require LockManager ConnectionPool CatalogManager.

Section handlers.
Context {P : PgService} `{!PgLaws P, !PgReliable P} (self : tid).

(** The row of a table, as a client of the catalog reads it. *)
Definition table_seen (name : string) (w : World) : outcome (option TableRow) := (CatalogManager.get_table self name w).1.
(** The partitions of a table at a snapshot, as a client of the registry reads them. *)
Definition partitions_seen (name : string) (s : Z) (w : World) : outcome (option (list PartitionRow)) :=
  (get_partitions self name s w).1.

Lemma table_seen_spec name w d : nul_free name -> serving w d -> table_seen name w = Ret (tab_row <$> find_live d name).
Proof. intros Hn S. unfold table_seen. by destruct (catalog_get_table_spec self name w d Hn S) as (w' & -> & _). Qed.

Lemma partitions_seen_spec name s w d :
  nul_free name -> serving w d -> s <> 0 -> partitions_seen name s w = Ret (partitions_at d name s).
Proof. intros Hn S Hs. unfold partitions_seen. by rewrite (get_partitions_result self name s w d), read_snapshot_given. Qed.

(** Nothing of the table [n] changed for its readers. *)
Definition same_for_readers (n : string) (w w' : World) : Prop :=
  table_seen n w' = table_seen n w /\ forall s, s <> 0 -> partitions_seen n s w' = partitions_seen n s w.

Lemma same_for_readers_intro n w d w' d' :
  nul_free n -> serving w d -> serving w' d' ->
  find_live d' n = find_live d n -> (forall s, partitions_at d' n s = partitions_at d n s) -> same_for_readers n w w'.
Proof.
  intros Hn S S' Hl Hp. split.
  - by rewrite (table_seen_spec n w d), (table_seen_spec n w' d'), Hl.
  - intros s Hs. by rewrite (partitions_seen_spec n s w d), (partitions_seen_spec n s w' d'), Hp.
Qed.

Lemma serving_integrity w d : serving w d -> integrity d.
Proof. intros S. by apply constraints_integrity, (se_db _ _ (proj1 S)). Qed.

(** C14: creating a table succeeds exactly when the schema and the properties
    are documents, no table has or had the name, and a key is left; the table
    is then found with what the request says, at version 1 and without a
    snapshot. Nothing changes for the readers of the other tables, and a
    request that is refused changes nothing. *)
Theorem create_table_correct req w d :
  let name := ct_table_name req in
  nul_free name -> serving w d ->
  exists (ok : bool) w' d', CreateTable self req w
      = (Ret (StatusOK, mkOperationResponse ok (if ok then "" else "Failed to create table (may already exist): " +:+ name)), w')
    /\ serving w' d'
    /\ (ok = true <-> is_Some (pg_jsonb_in (c_str (ct_schema_json req)))
          /\ is_Some (pg_jsonb_in (c_str (props_json (ct_properties req))))
          /\ name_taken name d = false /\ in_i64 (sq_tables (seqs (abs (w_pg w)))) = true)
    /\ (if ok then table_seen name w = Ret None /\ exists j q,
          pg_jsonb_in (c_str (ct_schema_json req)) = Some j /\ pg_jsonb_in (c_str (props_json (ct_properties req))) = Some q
          /\ table_seen name w' = Ret (Some (mkTableRow (sq_tables (seqs (abs (w_pg w)))) name j 1
               (c_str (ct_partition_spec req)) 0 q))
        else d' = d)
    /\ (forall n, nul_free n -> n <> name -> same_for_readers n w w').
Proof.
  intros name Hn S. pose proof (serving_integrity _ _ S) as I. set (n := sq_tables (seqs (abs (w_pg w)))).
  destruct (catalog_create_spec self name (ct_schema_json req) (ct_partition_spec req) (props_json (ct_properties req)) w d Hn S)
    as (ok & w' & d' & now & E & S' & _ & H).
  exists ok, w', d'. split; [unfold CreateTable; fold name; by rewrite (bind_ret _ _ _ _ _ E)|]. split; [done|].
  rewrite <- (table_insert_succeeds now n name _ (c_str (ct_partition_spec req))); [|done|].
  2:{ intros t Ht. by apply (se_db _ _ (proj1 S)). }
  fold n in H. destruct (table_insert _ _ _ _ _ _ _) as [[[] d1]|] eqn:Ei.
  - destruct H as [-> ->]. destruct (created_tables _ _ _ _ _ _ _ _ I Ei) as (Hf & Hp & (j & q & Hj & Hq & Hnew) & Ho).
    split; [split; [intros _; by eexists|done]|]. split.
    + rewrite (table_seen_spec name w d), Hf, (table_seen_spec name w' d1), Hnew by done. split; [done|]. by exists j, q.
    + intros n' Hn' Hne. apply (same_for_readers_intro n' w d w' d1); try done; [by apply Ho|].
      intros s. apply partitions_at_same; [by rewrite Ho|done].
  - destruct H as [-> ->]. split; [split; [done|by intros []]|]. split; [done|]. intros n' Hn' _.
    by apply (same_for_readers_intro n' w d w' d).
  - destruct H as [-> ->]. split; [split; [done|by intros []]|]. split; [done|]. intros n' Hn' _.
    by apply (same_for_readers_intro n' w d w' d).
Qed.

(** C15: a table that was dropped is gone for every reader at once, at every
    snapshot, whatever the cache held; a drop without purge succeeds exactly
    when the table exists; the other tables are as they were, and a drop that
    is refused changes nothing. *)
Theorem drop_table_correct name purge w d :
  nul_free name -> serving w d ->
  exists (ok : bool) w' d', DropTable self name purge w
      = (Ret (StatusOK, mkOperationResponse ok (if ok then "" else "Failed to drop table: " +:+ name)), w')
    /\ serving w' d'
    /\ (if ok then table_seen name w <> Ret None /\ table_seen name w' = Ret None
          /\ (forall s, s <> 0 -> partitions_seen name s w' = Ret None)
          /\ (forall n, nul_free n -> n <> name -> same_for_readers n w w')
        else d' = d)
    /\ (purge = false -> (ok = true <-> table_seen name w <> Ret None)).
Proof.
  intros Hn S. pose proof (serving_integrity _ _ S) as I.
  destruct (catalog_drop_spec self name purge w d Hn S) as (ok & w1 & d' & now & E & S1 & _ & Hf & H).
  assert (exists w', DropTable self name purge w
      = (Ret (StatusOK, mkOperationResponse ok (if ok then "" else "Failed to drop table: " +:+ name)), w') /\ serving w' d')
    as (w' & E' & S').
  { unfold DropTable. rewrite (bind_ret _ _ _ _ _ E). destruct ok; cbn [CatalogManager.success].
    - destruct (invalidate_spec _ name w1 d' S1 (fun n H => eq_sym H)) as (w' & Ei & S' & _).
      rewrite (bind_ret _ _ _ _ _ Ei). by exists w'.
    - exists w1. split; [done|]. destruct (drop_outcome _ _ _ _); destruct H as [? ->]; [done|by apply Hf]. }
  exists ok, w', d'. split; [done|]. split; [done|].
  assert (table_seen name w <> Ret None <-> is_Some (find_live d name)) as Hseen.
  { rewrite (table_seen_spec name w d) by done. destruct (find_live d name); cbn; split; [by eexists|done|done|by intros []]. }
  destruct (drop_outcome now name purge d) as [d1|] eqn:Eo.
  - destruct H as [-> ->]. destruct (drop_outcome_spec now name purge d d1 I Eo) as (Hs%Hseen & Hnone & Ho & Hp). split; [|done].
    split; [done|]. split; [by rewrite (table_seen_spec name w' d1), Hnone|]. split.
    + intros s Hs0. rewrite (partitions_seen_spec name s w' d1) by done. unfold partitions_at. by rewrite Hnone.
    + intros n Hn' Hne. apply (same_for_readers_intro n w d w' d1); try done; [by apply Ho|]. intros s. by apply Hp.
  - destruct H as [-> ->]. split; [done|]. intros ->. split; [done|]. intros [t Ht]%Hseen.
    unfold drop_outcome in Eo. rewrite Ht in Eo. cbn in Eo. destruct (drop_update_succeeds now name d I) as [? Hd]. congruence.
Qed.

Definition renamed_row (new : string) (r : TableRow) : TableRow :=
  mkTableRow (tr_table_id r) new (tr_schema_json r) (tr_schema_version r) (tr_partition_spec r)
    (tr_current_snapshot_id r) (tr_properties_json r).

(** The rename handler, with the entries of the old name removed. *)
Lemma rename_handler old new w d :
  nul_free old -> nul_free new -> old <> new -> serving w d ->
  exists (ok : bool) w' d' now, AlterTable self old (kRename new) w
      = (Ret (StatusOK, mkOperationResponse ok (if ok then "" else "Failed to rename " +:+ old +:+ " to " +:+ new)), w')
    /\ serving w' d'
    /\ match name_update now old new d with Some d1 => ok = true /\ d' = d1 | None => ok = false /\ d' = d end.
Proof.
  intros Ho Hn Hne S. destruct (catalog_rename_spec self old new w d Ho Hn Hne S) as (ok & w1 & d' & now & E & S1 & _ & H).
  destruct (invalidate_spec _ old w1 d' S1 (fun n H => eq_sym H)) as (w' & Ei & S' & _).
  exists ok, w', d', now. split; [|done]. unfold AlterTable. rewrite (bind_ret _ _ _ _ _ E).
  by rewrite (bind_ret _ _ _ _ _ Ei).
Qed.

(** C16: a table that is renamed is found under its new name only, with the
    partitions it had at every snapshot, for readers that the cache serves
    too; a name that no table has or had can be taken; the other tables are as
    they were, and a rename that is refused changes nothing. *)
Theorem rename_table_correct old new row w d :
  nul_free old -> nul_free new -> old <> new -> serving w d -> table_seen old w = Ret (Some row) ->
  exists (ok : bool) w' d', AlterTable self old (kRename new) w
      = (Ret (StatusOK, mkOperationResponse ok (if ok then "" else "Failed to rename " +:+ old +:+ " to " +:+ new)), w')
    /\ serving w' d'
    /\ (name_taken new d = false -> ok = true)
    /\ (if ok then table_seen new w' = Ret (Some (renamed_row new row)) /\ table_seen old w' = Ret None
          /\ (forall s, s <> 0 -> partitions_seen new s w' = partitions_seen old s w /\ partitions_seen old s w' = Ret None)
          /\ (forall n, nul_free n -> n <> old -> n <> new -> same_for_readers n w w')
        else d' = d).
Proof.
  intros Ho Hn Hne S Hrow. pose proof (serving_integrity _ _ S) as I.
  rewrite (table_seen_spec old w d) in Hrow by done. destruct (find_live d old) as [t|] eqn:Et; [|done]. injection Hrow as <-.
  destruct (rename_handler old new w d Ho Hn Hne S) as (ok & w' & d' & now & E & S' & H).
  exists ok, w', d'. split; [done|]. split; [done|]. destruct (name_update now old new d) as [d1|] eqn:Eu.
  2:{ destruct H as [-> ->]. split; [|done]. intros Hfree. destruct (name_update_succeeds now old new d I Hfree). congruence. }
  destruct H as [-> ->]. split; [done|]. destruct (renamed_tables now old new d d1 I Eu Hne) as (H1 & H2 & H3). rewrite Et in H2.
  assert (db_partitions d1 = db_partitions d) as Hp by (by apply check_some in Eu as [-> _]).
  split; [by rewrite (table_seen_spec new w' d1), H2|]. split; [by rewrite (table_seen_spec old w' d1), H1|]. split.
  - intros s Hs. rewrite (partitions_seen_spec new s w' d1), (partitions_seen_spec old s w d),
      (partitions_seen_spec old s w' d1) by done.
    split; [|unfold partitions_at; by rewrite H1].
    enough (partitions_at d1 new s = partitions_at d old s) as -> by done. apply partitions_at_same; [by rewrite H2, Et|done].
  - intros n Hnf Hno Hnn. apply (same_for_readers_intro n w d w' d1); try done; [by apply H3|].
    intros s. apply partitions_at_same; [by rewrite H3|done].
Qed.

(** No row is updated, and that is taken for a success. *)
Lemma rename_missing old new w d :
  nul_free old -> nul_free new -> old <> new -> serving w d -> table_seen old w = Ret None ->
  exists w', AlterTable self old (kRename new) w = (Ret (StatusOK, mkOperationResponse true ""), w') /\ serving w' d.
Proof.
  intros Ho Hn Hne S Hrow. pose proof (serving_integrity _ _ S) as I.
  rewrite (table_seen_spec old w d) in Hrow by done. destruct (find_live d old) as [t|] eqn:Et; [done|].
  destruct (rename_handler old new w d Ho Hn Hne S) as (ok & w' & d' & now & E & S' & H).
  assert (update_tables old (set_name new now) d = d) as Hsame.
  { unfold update_tables. assert (map_where (live old) (set_name new now) (db_tables d) = db_tables d) as ->; [|by destruct d].
    unfold map_where. transitivity (id <$> db_tables d); [|by rewrite list_fmap_id]. apply Forall_fmap_ext_1, Forall_forall.
    intros t Ht. destruct (live old t) eqn:El; [|done]. apply Is_true_true, live_true in El as [Hnm Hd].
    assert (find_live d old = Some t) by by apply find_live_iff. congruence. }
  unfold name_update in H. rewrite Hsame, check_integrity in H by done. destruct H as [-> ->]. by exists w'.
Qed.

Lemma rename_self name w d : serving w d -> exists w', AlterTable self name (kRename name) w = (UB, w').
Proof.
  intros [S U]. unfold AlterTable, CatalogManager.rename_table. unfold bind at 1. unfold with_guard at 1.
  destruct (LockManager.acquire_cases LockManager.Ex self name (w_locks w)) as (lm & Hm & _ & E). rewrite (U name) in E.
  change (LockManager.owns self LockManager.free_mutex) with false in E. cbn iota in E. rewrite decide_True in E by done. rewrite E.
  set (l := LockManager.set_mutex _ _ _) in *. unfold with_guard.
  destruct (LockManager.acquire_cases LockManager.Ex self name l) as (lm2 & _ & _ & E2). cbn [w_locks set_locks].
  assert (LockManager.owns self (LockManager.mutex_of name l) = true) as Hown.
  { unfold l. rewrite LockManager.mutex_of_set, decide_True by done. unfold LockManager.owns. cbn. by rewrite bool_decide_eq_true_2. }
  rewrite Hown in E2. rewrite E2. by eexists.
Qed.

(** C38: renaming does not check its names: a table that does not exist is
    reported as renamed, with nothing changed, and renaming a table to the name
    it has, or a missing one to its own name, locks its mutex twice in one
    thread, which is undefined. *)
Theorem rename_unchecked old new w d :
  nul_free old -> nul_free new -> serving w d -> old = new \/ table_seen old w = Ret None ->
  exists w', (if decide (old = new) then AlterTable self old (kRename new) w = (UB, w')
              else AlterTable self old (kRename new) w = (Ret (StatusOK, mkOperationResponse true ""), w') /\ serving w' d).
Proof.
  intros Ho Hn S Hcase. case_decide as Heq.
  - subst new. by apply (rename_self old w d).
  - destruct Hcase as [?|Hrow]; [done|]. by apply rename_missing.
Qed.

(** ** Schema changes *)

Definition current_schema_of (d : Db) (name : string) : option SchemaVersion :=
  (fun t => mkSchemaVersion (tb_schema_version t) (tb_schema_json t) "" "current") <$> find_live d name.

Lemma get_current_schema_spec name w d :
  nul_free name -> serving w d ->
  exists w', get_current_schema self name w = (Ret (current_schema_of d name), w') /\ serving w' d /\ w_mvcc w' = w_mvcc w.
Proof.
  intros Hn S. unfold get_current_schema.
  enter_guard S (fun a d' (_ : PartitionCache) => a = current_schema_of d name /\ d' = d) a w' d' E HQ.
  2:{ destruct HQ as (S' & Em & -> & ->). by exists w'. }
  intros w1 S1 Em Ec Ep.
  match goal with |- context [with_connection ?body w1] =>
    destruct (connected body w1 d (fun a d' _ => a = current_schema_of d name /\ d' = d) S1)
      as (a & w2 & d' & E & S2 & El & Em2 & HQ); [|by exists a, w2, d'] end.
  intros c w2 Rd Hi Em2 Ec2 Ep2. destruct (get_table_spec c name (w_pg w2) d Rd) as (s' & E & Ea). rewrite Hn in E.
  rewrite (bind_ret _ _ _ _ _ (on_pg_ret _ _ _ _ E)).
  exists (current_schema_of d name), (set_pg s' w2), d. split; [unfold current_schema_of; by destruct (find_live d name)|].
  split; [cbn; rewrite Ea; by apply rested_idle|]. split_and!; try done. cbn. rewrite Ec2. apply S1.
Qed.

(** C17: a schema change of an existing table is refused with the reason when
    it is not acceptable; it goes through when it is acceptable and the schema
    is a document. When it goes through, the table has the
    new schema and the next version, the history has one more entry with both,
    and nothing else changed for any reader; when it does not go through,
    nothing changed. *)
Theorem alter_schema_correct name json row w d :
  nul_free name -> serving w d -> table_seen name w = Ret (Some row) -> in_i32 (tr_schema_version row + 1) = true ->
  exists r w' d', AlterTable self name (kNewSchemaJson json) w = (Ret (StatusOK, r), w') /\ serving w' d'
    /\ (validate_schema_change (tr_schema_json row) json <> "" ->
          r = mkOperationResponse false (validate_schema_change (tr_schema_json row) json))
    /\ (validate_schema_change (tr_schema_json row) json = "" -> is_Some (pg_jsonb_in (c_str json)) -> or_success r = true)
    /\ (if or_success r then exists j h n,
           pg_jsonb_in (c_str json) = Some j
           /\ table_seen name w' = Ret (Some (mkTableRow (tr_table_id row) name j (tr_schema_version row + 1)
                (tr_partition_spec row) (tr_current_snapshot_id row) (tr_properties_json row)))
           /\ db_history d' = db_history d ++ [mkHistory n (Some (tr_table_id row)) (tr_schema_version row + 1) j h
                (Some "schema evolution via AlterTable")]
           /\ (forall s, s <> 0 -> partitions_seen name s w' = partitions_seen name s w)
           /\ (forall n, nul_free n -> n <> name -> same_for_readers n w w')
        else d' = d).
Proof.
  intros Hn S Hrow Hv. pose proof (serving_integrity _ _ S) as I.
  rewrite (table_seen_spec name w d) in Hrow by done. destruct (find_live d name) as [t|] eqn:Et; [|done]. injection Hrow as <-.
  unfold AlterTable. destruct (get_current_schema_spec name w d Hn S) as (w1 & E1 & S1 & _). rewrite (bind_ret _ _ _ _ _ E1).
  unfold current_schema_of. rewrite Et. cbn [fmap option_fmap option_map sv_schema_json tab_row tr_schema_json tr_schema_version
    tr_table_id tr_partition_spec tr_current_snapshot_id tr_properties_json] in *.
  destruct (String.eqb_spec (validate_schema_change (tb_schema_json t) json) "") as [Hval|Hval]; cbn [negb].
  2:{ do 2 eexists. exists d. split; [done|]. by split_and!. }
  destruct (catalog_alter_spec self name json "schema evolution via AlterTable" w1 d Hn S1) as (r & w2 & d' & now1 & now2 & n & E2 & S2 & _ & H & Hfr).
  { intros t' Et'. rewrite Et in Et'. by injection Et' as <-. }
  rewrite (bind_ret _ _ _ _ _ E2). destruct (invalidate_spec _ name w2 d' S2) as (w' & Ei & S' & _); [by intros n' []|].
  rewrite (bind_ret _ _ _ _ _ Ei). exists (to_response r), w', d'. split; [done|]. split; [done|]. split; [done|].
  unfold alter_outcome in H. rewrite Et in H. cbn [mbind option_bind] in H.
  destruct (schema_change _ _ _ _ _ _ _ _) as [d1|] eqn:Es; cbn [to_response or_success].
  2:{ destruct H as [-> ->]. split; [|done]. intros _ Hj.
      destruct (schema_change_succeeds now1 now2 n name (c_str json) (tb_schema_version t + 1)
        (c_str "schema evolution via AlterTable") t d I Et Hj Hv Hfr). congruence. }
  destruct H as (-> & _ & ->). split; [done|]. destruct (schema_change_spec _ _ _ _ _ _ _ _ _ I Es) as (j & t' & Hj & Et' & Hl & Hh & Ho & Hp).
  rewrite Et in Et'. injection Et' as <-. exists j, (Some now2), n. split; [done|]. split.
  { rewrite (table_seen_spec name w' d1), Hl by done. apply find_live_spec in Et as (_ & <- & _). done. }
  split; [done|]. split.
  - intros s Hs. by rewrite (partitions_seen_spec name s w' d1), (partitions_seen_spec name s w d), Hp.
  - intros n' Hn' Hne. apply (same_for_readers_intro n' w d w' d1); try done. by apply Ho.
Qed.
End handlers.

(** ** Witnesses *)

#[local] Existing Instance reliable_service.

Definition demo_request (name schema : string) : CreateTableRequest :=
  mkCreateTableRequest name schema "day" [("owner", "ops")].

Lemma create_table_correct_witness : exists w' d' row,
  CreateTable 0%nat (demo_request "users" "{}") demo = (Ret (StatusOK, mkOperationResponse true ""), w')
  /\ serving w' d' /\ table_seen 0%nat "users" w' = Ret (Some row) /\ tr_table_name row = "users".
Proof.
  destruct (create_table_correct 0%nat (demo_request "users" "{}") demo demo_db eq_refl demo_serving)
    as (ok & w' & d' & E & S' & Hok & H & _).
  assert (ok = true) as -> by (apply Hok; vm_compute; split_and!; try (by eexists); reflexivity).
  destruct H as (_ & j & q & _ & _ & Hrow). exists w', d'. eexists. split; [exact E|]. split; [exact S'|].
  split; [exact Hrow|reflexivity].
Defined.

Lemma drop_table_correct_witness : exists w' d',
  DropTable 0%nat "orders" false demo = (Ret (StatusOK, mkOperationResponse true ""), w')
  /\ serving w' d' /\ partitions_seen 0%nat "orders" 1 w' = Ret None.
Proof.
  destruct (drop_table_correct 0%nat "orders" false demo demo_db eq_refl demo_serving) as (ok & w' & d' & E & S' & H & Hok).
  assert (ok = true) as -> by (apply Hok; [reflexivity|vm_compute; discriminate]).
  destruct H as (_ & _ & Hp & _). exists w', d'. split; [exact E|]. split; [exact S'|]. apply Hp. lia.
Defined.

Definition demo_table_row : TableRow := mkTableRow 1 "orders" "{}" 1 "day" 2 "{}".

Lemma demo_seen : table_seen 0%nat "orders" demo = Ret (Some demo_table_row).
Proof. vm_compute. reflexivity. Qed.

Lemma rename_table_correct_witness : exists w' d',
  AlterTable 0%nat "orders" (kRename "sales") demo = (Ret (StatusOK, mkOperationResponse true ""), w')
  /\ serving w' d' /\ table_seen 0%nat "sales" w' = Ret (Some (renamed_row "sales" demo_table_row))
  /\ partitions_seen 0%nat "orders" 1 w' = Ret None.
Proof.
  destruct (rename_table_correct 0%nat "orders" "sales" demo_table_row demo demo_db eq_refl eq_refl ltac:(discriminate)
    demo_serving demo_seen) as (ok & w' & d' & E & S' & Hok & H).
  assert (ok = true) as -> by (apply Hok; reflexivity). destruct H as (Hrow & _ & Hp & _).
  exists w', d'. split; [exact E|]. split; [exact S'|]. split; [exact Hrow|]. apply Hp. lia.
Defined.

Lemma rename_unchecked_witness :
  (exists w', AlterTable 0%nat "nothing" (kRename "sales") demo = (Ret (StatusOK, mkOperationResponse true ""), w'))
  /\ exists w', AlterTable 0%nat "orders" (kRename "orders") demo = (UB, w').
Proof.
  split.
  - destruct (rename_unchecked 0%nat "nothing" "sales" demo demo_db eq_refl eq_refl demo_serving) as (w' & E);
      [right; vm_compute; reflexivity|]. exists w'. exact (proj1 E).
  - destruct (rename_unchecked 0%nat "orders" "orders" demo demo_db eq_refl eq_refl demo_serving) as (w' & E);
      [by left|]. exists w'. exact E.
Defined.

(** A schema that is stored, and one that is refused. *)
Lemma alter_schema_correct_witness :
  (exists r w' d' n h, AlterTable 0%nat "orders" (kNewSchemaJson "{a}") demo = (Ret (StatusOK, r), w') /\ or_success r = true
     /\ db_history d' = db_history demo_db ++ [mkHistory n (Some 1) 2 "{a}" h (Some "schema evolution via AlterTable")])
  /\ (AlterTable 0%nat "orders" (kNewSchemaJson "{}") demo).1
     = Ret (StatusOK, mkOperationResponse false "Proposed schema cannot be empty").
Proof.
  split; [|vm_compute; reflexivity].
  destruct (alter_schema_correct 0%nat "orders" "{a}" demo_table_row demo demo_db eq_refl demo_serving demo_seen eq_refl)
    as (r & w' & d' & E & S' & _ & Hok & H).
  assert (or_success r = true) as Hr by (apply Hok; [reflexivity|vm_compute; by eexists]). rewrite Hr in H.
  destruct H as (j & h & n & Hj & _ & Hh & _). exists r, w', d', n, h. split; [exact E|]. split; [exact Hr|].
  vm_compute in Hj. injection Hj as <-. exact Hh.
Defined.
