(* ===== verification/Requests.v ===== *)
(** * Any sequence of requests

    What holds after any sequence of the requests of Structure.v, served one at
    a time by a reliable database: the server is at rest again, every lock and
    connection given back, no transaction open, and the cache in agreement
    with the database. *)
From S2P Require Import Prelude Cxx Sql Database PgService DbFacts RefServer PgClient PgSpec PgWrites Changes LruCache Mvcc World SchemaStore PartitionRegistry MetadataServer Structure Serving Demo Transactions PgCatalog RegistrySpec ServerSpec CatalogSpec HandlerSpec.
From S2P Require LockManager ConnectionPool CatalogManager.

(** ** Reading without effect *)

Section quiet.
Context {P : PgService} `{!PgLaws P, !PgReliable P}.

(** The method leaves the database and the connection as they are; it may
    throw, when it cannot read a number. *)
Definition quiet {A} (c : PGconn) (d : Db) (m : PgM A) : Prop :=
  forall s, ready c (abs s) d -> sessions (abs s) !! c = Some Idle -> exists r s', m s = (r, s') /\ abs s' = abs s.

Lemma quiet_bind {A B} c d (m : PgM A) (k : A -> PgM B) :
  quiet c d m -> (forall a, quiet c d (k a)) -> quiet c d (pbind m k).
Proof.
  intros Hm Hk s Rd Hi. destruct (Hm s Rd Hi) as (r & s' & E & Ea). unfold pbind. rewrite E.
  destruct r as [e|a]; [by exists (inl e), s'|]. destruct (Hk a s') as (r & s2 & E2 & Ea2); [by rewrite Ea..|].
  exists r, s2. split; [done|congruence].
Qed.

Lemma quiet_pret {A} c d (a : A) : quiet c d (pret a).
Proof. intros s _ _. by exists (inr a), s. Qed.

Lemma quiet_pthrow {A} c d (r : cxx_exn + A) : quiet c d (pthrow r).
Proof. intros s _ _. by exists r, s. Qed.

Lemma quiet_select c d text ps st :
  parse_sql text = Some st -> is_select st = true -> quiet c d (exec_params c text ps).
Proof.
  intros Hp Hs s Rd Hi.
  destruct (exec_params_ready c text ps st s d Hp) as (r & s' & now & n & q & E & St & Hcase);
    [by destruct st|done|]. apply seqs_step_select in St as ->; [|by destruct st].
  exists (inr r), s'. split; [done|].
  destruct Hcase as [(d' & Hok & ->)|(_ & _ & q' & Hq' & ->)].
  - unfold query_ok in Hok. rewrite Hs in Hok. destruct Hok as (_ & _ & _ & ->).
    rewrite set_view_same by apply Rd. apply set_seqs_same.
  - rewrite fail_view_idle by done. destruct Hq' as [->| ->]; apply set_seqs_same.
Qed.

Lemma quiet_rows {A} c d (read : nat -> PgM A) l : (forall i, quiet c d (read i)) -> quiet c d (for_rows read l).
Proof.
  intros Hr. induction l as [|i l IH]; [apply quiet_pret|]. cbn [for_rows].
  apply quiet_bind; [apply Hr|]. intros a. apply quiet_bind; [done|]. intros l'. apply quiet_pret.
Qed.
End quiet.

Create HintDb quiet.
#[export] Hint Resolve quiet_bind quiet_pret quiet_pthrow quiet_rows : quiet.

(** A method that only issues SELECTs whose text is known. *)
Ltac solve_quiet :=
  repeat first
    [ apply quiet_pret | apply quiet_pthrow
    | apply quiet_bind; [|intro]
    | apply quiet_rows; intro
    | eapply quiet_select; [vm_compute; reflexivity|reflexivity]
    | case_match ].

Section reads.
Context {P : PgService} `{!PgLaws P, !PgReliable P}.

Lemma quiet_get_table_id c d name : quiet c d (get_table_id c name).
Proof. unfold get_table_id, int64_at. solve_quiet. Qed.

Lemma quiet_get_snapshot c d name s : quiet c d (get_snapshot c name s).
Proof.
  unfold get_snapshot. apply quiet_bind; [apply quiet_get_table_id|intros t].
  unfold snapshot_row, int64_at, int32_at. solve_quiet.
Qed.

Lemma quiet_list_snapshots c d name limit : quiet c d (list_snapshots c name limit).
Proof.
  unfold list_snapshots. apply quiet_bind; [apply quiet_get_table_id|intros t].
  unfold read_rows, snapshot_row, int64_at, int32_at. solve_quiet.
Qed.

Lemma quiet_list_tables c d ns page_size token : quiet c d (list_tables c ns page_size token).
Proof. unfold list_tables, read_rows, table_row, int64_at, int32_at. solve_quiet. Qed.

(** ** Handlers that end well *)

(** A run from a server at rest ends with an answer or an exception and the
    server at rest, or is undefined; it does not wait. *)
Definition fine {A} (x : outcome A * World) : Prop :=
  (leaves x.1 = true /\ exists d', serving x.2 d') \/ x.1 = UB.

Lemma fine_ret {A} (a : A) (w : World) d : serving w d -> fine (Ret a, w).
Proof. intros S. left. split; [done|by exists d]. Qed.

Lemma fine_run {A} (m : M A) w r w' d : m w = (r, w') -> leaves r = true -> serving w' d -> fine (m w).
Proof. intros -> Hl S. left. split; [done|by exists d]. Qed.

Lemma fine_bind {A B} (m : M A) (k : A -> M B) w :
  fine (m w) -> (forall a w' d', serving w' d' -> fine (k a w')) -> fine (bind m k w).
Proof.
  unfold bind. intros Hm Hk. destruct (m w) as [[a|e| |] w']; destruct Hm as [[Hl [d' S]]|Hu]; try done.
  - by eapply Hk.
  - left. split; [done|by exists d'].
  - by right.
Qed.

(** A scope of a connection without a guard. *)
Lemma fine_connection {A} (body : PGconn -> M A) w d :
  serving w d ->
  (forall c w1, ready c (abs (w_pg w1)) d -> sessions (abs (w_pg w1)) !! c = Some Idle -> w_cache w1 = w_cache w ->
     exists r s' d', body c w1 = (r, set_pg s' w1) /\ leaves r = true /\ rested c (abs (w_pg w1)) (abs s') d'
       /\ (forall n s, partitions_at d' n s = partitions_at d n s)) ->
  fine (with_connection body w).
Proof.
  intros [S U] Hbody.
  destruct (connected_gen no_table no_table body w d (fun _ _ _ => True) S) as (r & w' & d' & E & Hl & S' & El & _).
  - intros c w1 Rd Hi Em Ec Ep. destruct (Hbody c w1 Rd Hi Ec) as (r & s' & d' & E & Hl & R & Hp).
    exists r, (set_pg s' w1), d'. do 6 (split; [done|]). split; [|done]. cbn. rewrite Ec.
    eapply (cache_ok_mono no_table); [apply S|done|]. intros n s rows _. by rewrite Hp.
  - eapply fine_run; [done|done|]. split; [done|]. intros n. by rewrite El.
Qed.

Lemma fine_quiet {A B} (m : PGconn -> PgM A) (k : A -> M B) (w : World) d :
  serving w d -> (forall c, quiet c d (m c)) -> (forall a w, exists b, k a w = (Ret b, w)) ->
  fine (with_connection (fun c => let* a := on_pg (m c) in k a) w).
Proof.
  intros S Hm Hk. apply (fine_connection _ w d S). intros c w1 Rd Hi _. destruct (Hm c (w_pg w1) Rd Hi) as (r & s' & E & Ea).
  assert (rested c (abs (w_pg w1)) (abs s') d) as R by (rewrite Ea; by apply rested_idle).
  unfold bind, on_pg. rewrite E. destruct r as [e|a]; [by exists (Throw e), s', d|].
  destruct (Hk a (set_pg s' w1)) as [b ->]. by exists (Ret b), s', d.
Qed.

(** ** The table of transactions *)

(** A statement on it changes nothing for the readers of partitions. *)
Lemma transactions_write c text ps st s d :
  parse_sql text = Some st -> is_query st = true -> is_select st = false -> stmt_rel st = "transactions" ->
  ready c (abs s) d -> sessions (abs s) !! c = Some Idle ->
  exists r s' d', exec_params c text ps s = (inr r, s') /\ rested c (abs s) (abs s') d'
    /\ forall n z, partitions_at d' n z = partitions_at d n z.
Proof.
  intros Hp Hq Hs Hrel Rd Hi.
  destruct (exec_params_ready c text ps st s d Hp Hq Rd) as (r & s' & now & n & q & E & St & Hcase). exists r, s'.
  pose proof (rested_idle c s d Rd Hi) as R0. pose proof (seqs_step_le _ _ _ _ St) as Hle.
  destruct Hcase as [(d' & Hok & Ea)|(_ & _ & q' & Hq' & Ea)].
  - exists d'. split; [done|]. unfold query_ok in Hok. rewrite Hs in Hok.
    assert (ready c (abs s') d') as Rd'.
    { rewrite Ea. apply (ready_write _ _ d); [done| |done].
      apply (run_stmt_db_ok (pg_env now n) st ps d r d' (seqs (abs s)) q); [apply Rd|apply Rd|done|done]. }
    split.
    + unfold set_view in Ea. rewrite Hi in Ea. rewrite Ea in *. split; try done; apply Rd'.
    + apply run_stmt_cases in Hok as [_ H]. intros n' z.
      repeat (destruct H as [(Hr & l & _ & ->)|H]); try (rewrite Hrel in Hr; discriminate Hr).
      destruct H as (_ & l & _ & ->). done.
  - exists d. split; [done|]. split; [|done]. rewrite fail_view_idle in Ea by done. rewrite Ea.
    assert (seqs_le (seqs (abs s)) q') as Hle' by (destruct Hq' as [->| ->]; done).
    split; cbn; try apply R0; [eapply db_ok_mono; [done|apply R0]|eapply seqs_ok_mono; [done|apply R0]].
Qed.
End reads.

(** ** The requests *)

(** Names without a NUL, integers of their type, and a compare-and-swap that
    does not fail spuriously for ever. *)
Definition admissible (r : Request) : Prop :=
  match r with
  | RCreateTable req => nul_free (ct_table_name req)
  | RAlterTable name alt => nul_free name /\ match alt with kRename new => nul_free new | _ => True end
  | RGetPartitions name _ page_size _ => nul_free name /\ in_i32 page_size = true
  | RGetTableMetadata name _ | RDropTable name _ | RGetPartitionStats name | RCommitSnapshot name _ _ _ _ => nul_free name
  | RCommitTransaction attempts _ => false ∈ attempts
  | _ => True
  end.

Section requests.
Context {P : PgService} `{!PgLaws P, !PgReliable P} (self : tid).

(** The sums do not depend on the state. *)
Lemma sum_rows_pure rows a b :
  exists o : outcome (Z * Z), match o with Ret _ | UB => True | _ => False end /\ forall w : World, sum_rows rows a b w = (o, w).
Proof.
  revert a b. induction rows as [|p rows IH]; intros a b; [by exists (Ret (a, b))|]. cbn [sum_rows]. unfold bind, int64_op.
  destruct (in_i64 (a + pr_row_count p)); [|by exists UB]. cbn [ret].
  destruct (in_i64 (b + pr_size_bytes p)); [|by exists UB]. cbn [ret]. apply IH.
Qed.

Lemma fine_get_table_metadata name s w d : nul_free name -> serving w d -> fine (GetTableMetadata self name s w).
Proof.
  intros Hn S. unfold GetTableMetadata. destruct (catalog_get_table_spec self name w d Hn S) as (w1 & E1 & S1 & _).
  rewrite (bind_ret _ _ _ _ _ E1). destruct (tab_row <$> find_live d name) as [t|]; [|by eapply fine_ret].
  apply fine_bind; [unfold requested_snapshot; case_match; by eapply fine_ret|]. intros z w2 d2 S2. cbv zeta.
  match goal with |- context [get_partitions self name ?z] =>
    destruct (get_partitions_spec self name z w2 d2 Hn S2) as (w3 & E3 & S3 & _) end.
  rewrite (bind_ret _ _ _ _ _ E3). unfold bind.
  match goal with |- context [sum_rows ?l 0 0 w3] => destruct (sum_rows_pure l 0 0) as (o & Ho & ->) end.
  destruct o; try done; [by eapply fine_ret|by right].
Qed.

Lemma fine_rename name new w d : nul_free name -> nul_free new -> serving w d -> fine (AlterTable self name (kRename new) w).
Proof.
  intros Hn Hn' S. destruct (decide (name = new)) as [<-|Hne].
  - right. by destruct (rename_self self name w d S) as [w' ->].
  - destruct (rename_handler self name new w d Hn Hn' Hne S) as (ok & w' & d' & now & E & S' & _). by eapply fine_run.
Qed.

Lemma fine_invalidate {A} name (resp : A) (w : World) d :
  serving w d -> fine ((let* _ := invalidate_table_cache name in ret (StatusOK, resp)) w).
Proof.
  intros S. destruct (invalidate_spec no_table name w d S) as (w' & E & S' & _); [by intros n []|].
  rewrite (bind_ret _ _ _ _ _ E). by eapply fine_ret.
Qed.

Lemma fine_alter_schema name schema summary w d :
  nul_free name -> serving w d -> fine (CatalogManager.alter_table_schema self name schema summary w).
Proof.
  intros Hn S. destruct (find_live d name) as [t|] eqn:Et; [destruct (in_i32 (tb_schema_version t + 1)) eqn:Hv|].
  - destruct (catalog_alter_spec self name schema summary w d Hn S) as (r & w' & d' & now1 & now2 & n & E & S' & _);
      [intros t' Et'; congruence|by eapply fine_run].
  - right. by destruct (alter_overflow self name schema summary t w d Hn S Et Hv) as [w' ->].
  - destruct (catalog_alter_spec self name schema summary w d Hn S) as (r & w' & d' & now1 & now2 & n & E & S' & _);
      [intros t' Et'; congruence|by eapply fine_run].
Qed.

Lemma fine_alter name alt w d :
  nul_free name -> match alt with kRename new => nul_free new | _ => True end -> serving w d -> fine (AlterTable self name alt w).
Proof.
  intros Hn Ha S. destruct alt as [json|spec|new|]; [|by apply (fine_invalidate _ _ _ d)|by apply (fine_rename _ _ _ d)|by apply (fine_invalidate _ _ _ d)].
  unfold AlterTable. destruct (get_current_schema_spec self name w d Hn S) as (w1 & E1 & S1 & _). rewrite (bind_ret _ _ _ _ _ E1).
  case_match; [by eapply fine_ret|]. apply fine_bind; [by apply (fine_alter_schema _ _ _ _ d)|].
  intros r w' d' S'. by apply (fine_invalidate _ _ _ d').
Qed.

Lemma fine_get_partitions name s page_size token w d :
  nul_free name -> in_i32 page_size = true -> serving w d -> fine (GetPartitions self name s page_size token w).
Proof.
  intros Hn Hps S. unfold GetPartitions.
  assert (in_i64 (page_token_id token) = true) as Hid.
  { unfold page_token_id. destruct (String.eqb token ""); [done|]. unfold stoll, sto_signed. destruct (read_int token) as [r|]; [|done].
    cbv zeta. by destruct (in_i64 (signed_magnitude r)) eqn:E. }
  apply fine_bind.
  - destruct (0 <? page_size) eqn:Hp.
    + destruct (get_partitions_paged_spec self name s page_size (page_token_id token) w d Hn S) as (w' & E & S' & _);
        [by apply in_i32_i64|done|by eapply fine_run].
    + destruct (get_partitions_spec self name s w d Hn S) as (w' & E & S' & _). by eapply fine_run.
  - intros [rows|] w' d' S'; by eapply fine_ret.
Qed.

Lemma fine_get_stats name w d : nul_free name -> serving w d -> fine (GetPartitionStats self name w).
Proof.
  intros Hn S. unfold GetPartitionStats. apply fine_bind; [|intros st w' d' S'; by eapply fine_ret].
  set (z := if latest_committed_snapshot_ (w_mvcc w) =? 0 then current_snapshot d name else latest_committed_snapshot_ (w_mvcc w)).
  assert (exists o, match o with Ret _ | UB => True | _ => False end
    /\ forall c w1, ready c (abs (w_pg w1)) d -> sessions (abs (w_pg w1)) !! c = Some Idle ->
       exists s', collect_stats c name (latest_committed_snapshot_ (w_mvcc w)) w1 = (o, set_pg s' w1) /\ abs s' = abs (w_pg w1))
    as (o & Ho & Hc).
  { destruct (sum_rows_pure (default [] (partitions_at d name z)) 0 0) as (o & Ho & Hsum).
    exists match partitions_at d name z with
           | None => Ret (mkStats 0 0 0 0)
           | Some ps => match o with
                        | Ret sums => Ret (mkStats (Z.of_nat (length ps)) sums.1 sums.2
                                        (if 0 <? Z.of_nat (length ps) then Z.quot sums.2 (Z.of_nat (length ps)) else 0))
                        | _ => UB end end.
    split; [destruct (partitions_at d name z); [by destruct o|done]|]. intros c w1 Rd Hi.
    assert (exists s1, (if latest_committed_snapshot_ (w_mvcc w) =? 0 then on_pg (get_current_snapshot c name)
        else ret (latest_committed_snapshot_ (w_mvcc w))) w1 = (Ret z, set_pg s1 w1) /\ abs s1 = abs (w_pg w1)) as (s1 & E1 & Ea1).
    { unfold z. destruct (_ =? 0); [|exists (w_pg w1); split; [by destruct w1|done]].
      destruct (get_current_snapshot_spec c name (w_pg w1) d Rd) as (s1 & E1 & Ea1). rewrite Hn in E1.
      exists s1. by rewrite (on_pg_ret _ _ _ _ E1). }
    unfold collect_stats. rewrite (bind_ret _ _ _ _ _ E1). rewrite <- Ea1 in Rd, Hi.
    destruct (query_partitions_spec c name z s1 d Rd Hi) as (s2 & E2 & Ea2). rewrite Hn in E2.
    rewrite (step_pg _ _ _ _ _ _ E2). exists s2. split; [|congruence].
    destruct (partitions_at d name z) as [ps|]; [|done]. cbv zeta. unfold bind. cbn [default] in Hsum. rewrite Hsum. by destruct o. }
  unfold get_stats. destruct o as [st| | |]; try done.
  - enter_guard S (fun (a : PartitionStats) (d' : Db) (_ : PartitionCache) => True) a w' d' E HQ.
    2:{ destruct HQ as (S' & _). by eapply fine_run. }
    intros w1 S1 Em1 Ec1 Ep1.
    destruct (connected (fun conn => collect_stats conn name (latest_committed_snapshot_ (w_mvcc w1))) w1 d
      (fun _ _ _ => True) S1) as (a & w2 & d' & E2 & S2 & El2 & Em2 & HQ); [|by exists a, w2, d'].
    intros c w2 Rd Hi Em2 Ec2 Ep2. destruct (Hc c w2 Rd Hi) as (s' & E & Ea). rewrite Em1.
    exists st, (set_pg s' w2), d. split; [exact E|]. split; [cbn; rewrite Ea; by apply rested_idle|].
    split_and!; try done. cbn. rewrite Ec2. apply S1.
  - right. destruct (guarded_ub self LockManager.Sh name (let* snap := read_mvcc get_latest_committed_snapshot in
      with_connection (fun conn => collect_stats conn name snap)) w d S) as [w' E]; [|by rewrite E].
    intros w1 S1 Em1. apply (connected_ub (fun conn => collect_stats conn name (latest_committed_snapshot_ (w_mvcc w1))) w1 d S1).
    intros c w2 Rd Hi Em2. destruct (Hc c w2 Rd Hi) as (s' & E & Ea). rewrite Em1. by exists (set_pg s' w2).
Qed.

Lemma fine_commit name parts keys parent op w d : nul_free name -> serving w d -> fine (CommitSnapshot self name parts keys parent op w).
Proof.
  intros Hn S. unfold CommitSnapshot. apply fine_bind; [|intros r w' d' S'; by eapply fine_ret].
  match goal with |- context [commit_snapshot self name parent ?o ?ps keys] =>
    destruct (commit_snapshot_spec self name parent o ps keys w d Hn S) as (r & w' & d' & now1 & now2 & E & S' & _) end.
  by eapply fine_run.
Qed.

Lemma set_mvcc_serving m w d : serving w d -> serving (set_mvcc m w) d.
Proof. intros [S U]. split; [|exact U]. by destruct S. Qed.

(** A scope that is one statement on the transactions, and its answer. *)
Lemma fine_transactions {A B} (m : PGconn -> PgM A) (k : A -> M B) w d text ps st (read : PGresult -> PgM A) :
  (forall c, m c = pbind (exec_params c text ps) read) ->
  parse_sql text = Some st -> is_query st = true -> is_select st = false -> stmt_rel st = "transactions" ->
  (forall r s, exists x, read r s = (x, s)) -> (forall a w, exists b, k a w = (Ret b, w)) ->
  serving w d -> fine (with_connection (fun c => let* a := on_pg (m c) in k a) w).
Proof.
  intros Hm Hp Hq Hs Hrel Hread Hk S. apply (fine_connection _ w d S). intros c w1 Rd Hi _.
  destruct (transactions_write c text ps st (w_pg w1) d Hp Hq Hs Hrel Rd Hi) as (r & s' & d' & E & R & Hpart).
  destruct (Hread r s') as [x Ex]. unfold bind, on_pg. rewrite Hm. unfold pbind. rewrite E, Ex.
  destruct x as [e|a]; [by exists (Throw e), s', d'|]. destruct (Hk a (set_pg s' w1)) as [b ->]. by exists (Ret b), s', d'.
Qed.

Lemma fine_begin client iso w d : serving w d -> fine (BeginTransaction client iso w).
Proof.
  intros S. unfold BeginTransaction. apply fine_bind.
  { unfold on_mvcc. destruct (begin_transaction (w_now w) (w_mvcc w)) as [p m]. eapply fine_ret. by apply set_mvcc_serving. }
  intros r w' d' S'. eapply (fine_transactions (fun conn => insert_transaction conn client r.2 _) _ w' d');
    [intros c; reflexivity|vm_compute; reflexivity|reflexivity..| |intros a w2; by eexists|done].
  intros res s. unfold int64_at, pthrow, pbind. repeat case_match; by eexists.
Qed.

Lemma fine_set_status {B} (b : B) txn status w d :
  status = "committed" \/ status = "aborted" -> serving w d ->
  fine (with_connection (fun c => let* _ := on_pg (update_transaction_status c txn status) in ret b) w).
Proof.
  intros [->| ->] S;
    (eapply (fine_transactions (fun conn => update_transaction_status conn txn _) _ w d);
     [intros c; reflexivity|vm_compute; reflexivity|reflexivity..|intros res s; by eexists|intros a w2; by eexists|done]).
Qed.

Lemma with_connection_ext {A} (b1 b2 : PGconn -> M A) w :
  (forall c w, b1 c w = b2 c w) -> with_connection b1 w = with_connection b2 w.
Proof.
  intros H. unfold with_connection. destruct (ConnectionPool.acquire _ _) as [[r p] s]. destruct r as [h| |]; try done.
  destruct (ConnectionPool.conn_ h); [|done]. by rewrite H.
Qed.

(** A scope that answers what it read. *)
Lemma with_connection_return {A} (m : PGconn -> PgM A) w :
  with_connection (fun c => on_pg (m c)) w = with_connection (fun c => let* a := on_pg (m c) in ret a) w.
Proof. apply with_connection_ext. intros c w2. unfold bind. by destruct (on_pg _ w2) as [[] ?]. Qed.

Lemma cas_loop_ends attempts latest : false ∈ attempts -> is_Some (cas_loop attempts latest latest (u64 (latest + 1))).
Proof.
  induction attempts as [|b attempts IH]; [by intros ?%not_elem_of_nil|]. intros Hin. cbn [cas_loop].
  destruct (latest <? u64 (latest + 1)); [|by eexists]. destruct b; cbn [negb andb].
  - apply elem_of_cons in Hin as [?|Hin]; [done|by apply IH].
  - rewrite Z.eqb_refl. by eexists.
Qed.

Lemma fine_commit_transaction attempts txn w d : false ∈ attempts -> serving w d -> fine (CommitTransaction attempts txn w).
Proof.
  intros Ha S. unfold CommitTransaction. apply fine_bind.
  - destruct (commit_transaction attempts (w_now w) txn (w_mvcc w)) as [[ok m]|] eqn:E.
    + eapply fine_ret. by apply set_mvcc_serving.
    + unfold commit_transaction in E. destruct (active_transactions_ (w_mvcc w) !! txn); [|done].
      destruct (expired _ _ _); [done|]. destruct (cas_loop_ends attempts (latest_committed_snapshot_ (w_mvcc w)) Ha) as [v Ev].
      rewrite Ev in E. done.
  - intros ok w' d' S'. apply fine_bind; [|intros a w2 d2 S2; by eapply fine_ret].
    destruct ok; [|by eapply fine_ret].
    rewrite (with_connection_ext _ (fun c => let* a := on_pg (update_transaction_status c txn "committed") in ret a)).
    + eapply (fine_transactions (fun conn => update_transaction_status conn txn _) _ w' d');
        [intros c; reflexivity|vm_compute; reflexivity|reflexivity..|intros res s; by eexists|intros a w2; by eexists|done].
    + intros c w2. unfold bind. by destruct (on_pg _ w2) as [[] ?].
Qed.

Lemma fine_abort_transaction txn w d : serving w d -> fine (AbortTransaction txn w).
Proof.
  intros S. unfold AbortTransaction. apply fine_bind; [eapply fine_ret; by apply set_mvcc_serving|].
  intros _ w' d' S'. apply (fine_set_status _ txn "aborted" w' d'); [by right|done].
Qed.

Lemma fine_list_tables ns page_size token w d : serving w d -> fine (ListTables ns page_size token w).
Proof.
  intros S. unfold ListTables, CatalogManager.list_tables. apply fine_bind; [|intros l w' d' S'; by eapply fine_ret].
  rewrite with_connection_return. apply (fine_quiet _ _ w d S); [intros c; apply quiet_list_tables|intros a w2; by eexists].
Qed.

Lemma fine_get_snapshot name s w d : serving w d -> fine (GetSnapshot name s w).
Proof.
  intros S. apply (fine_quiet _ _ w d S); [intros c; apply quiet_get_snapshot|intros [a|] w2; by eexists].
Qed.

Lemma fine_list_snapshots name limit w d : serving w d -> fine (ListSnapshots name limit w).
Proof.
  intros S. apply (fine_quiet _ _ w d S); [intros c; apply quiet_list_snapshots|intros a w2; by eexists].
Qed.

Lemma fine_create_table req w d : nul_free (ct_table_name req) -> serving w d -> fine (CreateTable self req w).
Proof.
  intros Hn S. unfold CreateTable. apply fine_bind; [|intros r w' d' S'; by eapply fine_ret].
  destruct (catalog_create_spec self (ct_table_name req) (ct_schema_json req) (ct_partition_spec req)
    (props_json (ct_properties req)) w d Hn S) as (ok & w' & d' & now & E & S' & _). by eapply fine_run.
Qed.

Lemma drop_handler name purge w d :
  nul_free name -> serving w d ->
  exists resp w' d', DropTable self name purge w = (Ret (StatusOK, resp), w') /\ serving w' d'.
Proof.
  intros Hn S. destruct (catalog_drop_spec self name purge w d Hn S) as (ok & w1 & d' & now & E & S1 & _ & Hf & H).
  unfold DropTable. rewrite (bind_ret _ _ _ _ _ E). destruct ok; cbn [CatalogManager.success].
  - destruct (invalidate_spec _ name w1 d' S1 (fun n H => eq_sym H)) as (w' & Ei & S' & _).
    rewrite (bind_ret _ _ _ _ _ Ei). by do 3 eexists.
  - do 2 eexists. exists d. split; [done|by apply Hf].
Qed.

Lemma fine_drop_table name purge w d : nul_free name -> serving w d -> fine (DropTable self name purge w).
Proof. intros Hn S. destruct (drop_handler name purge w d Hn S) as (r & w' & d' & E & S'). by eapply fine_run. Qed.

(** One request. *)
Lemma handle_fine r w d : admissible r -> serving w d -> fine (handle self r w).
Proof.
  intros Ha S. destruct r; cbn [handle admissible] in *; apply fine_bind; try (intros a w' d' S'; by eapply fine_ret).
  - by apply (fine_create_table _ _ d).
  - by apply (fine_get_table_metadata _ _ _ d).
  - destruct Ha. by apply (fine_alter _ _ _ d).
  - by apply (fine_drop_table _ _ _ d).
  - by apply (fine_list_tables _ _ _ _ d).
  - destruct Ha. by apply (fine_get_partitions _ _ _ _ _ d).
  - by apply (fine_get_stats _ _ d).
  - by apply (fine_commit _ _ _ _ _ _ d).
  - by apply (fine_get_snapshot _ _ _ d).
  - by apply (fine_list_snapshots _ _ _ d).
  - by apply (fine_begin _ _ _ d).
  - by apply (fine_commit_transaction _ _ _ d).
  - by apply (fine_abort_transaction _ _ d).
Qed.

End requests.

(** ** Witness *)

#[local] Existing Instance reliable_service.

Definition demo_requests : list Request :=
  [RGetPartitions "orders" 2 1 ""; RBeginTransaction "client" SNAPSHOT; RCommitSnapshot "orders" [demo_part "z" 1 1] ["b"] 2 "";
   RCommitTransaction [true; false] 1; RGetTableMetadata "orders" 3; RAlterTable "orders" (kRename "sales");
   RGetPartitionStats "sales"; RListTables "" 10 ""; RGetSnapshot "sales" 1; RListSnapshots "sales" 5; RAbortTransaction 9;
   RDropTable "sales" true; RCreateTable (demo_request "orders" "{}")].

