(* ===== verification/Hygiene.v ===== *)
(** * Scopes give back what they take, whatever the database does

    No assumption on the service here: statements may fail, connections may be
    lost, answers may be anything. A handler that ends, with an answer or an
    exception, leaves every table lock as it found it, and its connections are
    back in the pool unless a broken one could not be replaced. *)
From S2P Require Import Prelude Cxx Sql Database PgService RefServer PgClient LruCache Mvcc World SchemaStore PartitionRegistry MetadataServer Structure Serving Demo.
From S2P Require LockManager ConnectionPool CatalogManager.

Section hygiene.
Context {P : PgService} (self : tid).

(** How many connections the pool has. *)
Definition pooled (w : World) : nat := length (ConnectionPool.available_connections_ (w_pool w)).

(** A run that ends with an answer keeps the connections; one that ends with
    an exception may have lost one. *)
Definition pool_kept {A} (r : outcome A) (w w' : World) : Prop :=
  match r with
  | Ret _ => pooled w' = pooled w
  | Throw _ => pooled w' = pooled w \/ pooled w = S (pooled w')
  | Wait | UB => True
  end.

Definition tidy {A} (m : M A) : Prop := forall w r w',
  m w = (r, w') -> leaves r = true -> same_locks (w_locks w) (w_locks w') /\ pool_kept r w w'.

Lemma tidy_local A (m : M A) :
  (forall w r w', m w = (r, w') -> w_pg w' = w_pg w /\ w_pool w' = w_pool w /\ w_locks w' = w_locks w) -> tidy m.
Proof.
  intros Hm w r w' E _. destruct (Hm w r w' E) as (_ & Hp & Hl). rewrite Hl. split; [reflexivity|].
  unfold pool_kept, pooled. rewrite Hp. destruct r; auto.
Qed.

Lemma tidy_bind A B (m : M A) (k : A -> M B) : tidy m -> (forall a, tidy (k a)) -> tidy (bind m k).
Proof.
  intros Hm Hk w r w'. unfold bind. destruct (m w) as [x w1] eqn:E. destruct x as [a|e| |]; intros E2 Hl.
  - destruct (Hm w (Ret a) w1 E eq_refl) as [L1 K1]. destruct (Hk a w1 r w' E2 Hl) as [L2 K2].
    split; [by etrans|]. destruct r; cbn in *; try done; [congruence|]. rewrite <- K1. done.
  - injection E2 as <- <-. by apply (Hm w (Throw e) w1).
  - injection E2 as <- <-. done.
  - injection E2 as <- <-. done.
Qed.

Lemma tidy_on_pg {A} (m : PgM A) : tidy (on_pg m).
Proof.
  intros w r w'. unfold on_pg. destruct (m (w_pg w)) as [[e|a] s]; intros [= <- <-] _; (split; [reflexivity|]); [by left|done].
Qed.

(** A handle that is dropped gives its connection back. *)
Lemma tidy_with_connection A (body : PGconn -> M A) : (forall c, tidy (body c)) -> tidy (with_connection body).
Proof.
  intros Hb w r w'. unfold with_connection, ConnectionPool.acquire, pooled.
  destruct (ConnectionPool.available_connections_ (w_pool w)) as [|c rest] eqn:Ea; [by intros [= <- <-] ?|].
  assert (forall h s, (exists c', ConnectionPool.conn_ h = Some c' /\ ConnectionPool.pool_ h = true) ->
    match ConnectionPool.conn_ h with
    | None => (UB, set_pg s (set_pool (ConnectionPool.set_available rest (w_pool w)) w))
    | Some c' => let '(x, w2) := body c' (set_pg s (set_pool (ConnectionPool.set_available rest (w_pool w)) w)) in
        match x with
        | Ret _ | Throw _ => (x, set_pool (ConnectionPool.give_back h (w_pool w2)) w2)
        | Wait | UB => (x, w2)
        end
    end = (r, w') -> leaves r = true -> same_locks (w_locks w) (w_locks w') /\ pool_kept r w w') as Hrun.
  { intros h s (c' & Hc' & Hp). rewrite Hc'. destruct (body c' _) as [x w2] eqn:E. intros E2 Hl.
    assert (leaves x = true) as Hx by (destruct x; by injection E2 as <- <-).
    destruct (Hb c' _ x w2 E Hx) as [L K].
    assert (w' = set_pool (ConnectionPool.give_back h (w_pool w2)) w2 /\ r = x) as [-> ->] by (destruct x; by injection E2 as <- <-).
    split; [done|]. unfold ConnectionPool.give_back. rewrite Hp, Hc'. unfold pool_kept, pooled in *. rewrite Ea.
    cbn [w_pool set_pool ConnectionPool.release ConnectionPool.available_connections_ ConnectionPool.set_available set_pg] in *.
    rewrite length_app. cbn [length] in *. destruct x; try done; lia. }
  destruct (ConnectionPool.validate_connection c (w_pg w)) as [[] s1]; [apply Hrun; by eexists|].
  destruct (ConnectionPool.create_connection _ _) as [[c2|] s2]; [apply Hrun; by eexists|].
  intros [= <- <-] _. split; [reflexivity|]. right. unfold pooled. rewrite Ea. done.
Qed.

(** Acquiring what the thread does not hold and releasing it. *)
Lemma acquired_released md m m' :
  LockManager.owns self m = false -> LockManager.grantable md m ->
  m' = LockManager.acquired md self m ->
  match md with LockManager.Sh => LockManager.unlock_shared self m' | LockManager.Ex => LockManager.unlock self m' end
  = LockManager.Done m.
Proof.
  intros Ho [Hw Hr] ->. destruct m as [wr rs]. cbn in *. subst wr. unfold LockManager.owns in Ho. cbn in Ho.
  apply bool_decide_eq_false in Ho. destruct md; cbn.
  - unfold LockManager.unlock_shared, LockManager.acquired. rewrite bool_decide_eq_true_2 by (by left).
    cbn [LockManager.readers LockManager.writer]. rewrite filter_cons, decide_False by (intros H; by apply H).
    rewrite filter_all; [done|]. intros x Hx ->. done.
  - unfold LockManager.unlock. cbn. rewrite bool_decide_eq_true_2 by done. by rewrite Hr.
Qed.

(** A guard that is dropped leaves the mutex as it was. *)
Lemma tidy_with_guard {A} md name (body : M A) : tidy body -> tidy (with_guard md self name body).
Proof.
  intros Hb w r w'. unfold with_guard. destruct (LockManager.acquire_cases md self name (w_locks w)) as (lm & Hm & Hr & ->).
  destruct (LockManager.owns self (LockManager.mutex_of name (w_locks w))) eqn:Ho; [by intros [= <- <-] ?|].
  case_decide as Hg; [|by intros [= <- <-] ?]. set (m := LockManager.mutex_of name (w_locks w)) in *.
  set (l := LockManager.set_mutex name _ lm). destruct (body (set_locks l w)) as [x w1] eqn:E. intros E2 Hl.
  assert (leaves x = true) as Hx by (destruct x; try done; by injection E2 as <- <-).
  destruct (Hb (set_locks l w) x w1 E Hx) as [L K]. destruct (L name) as [Hn1 Hn2].
  assert (registered name (w_locks w1)) as [m1 Hreg] by (apply Hn2, registered_set; by right).
  assert (m1 = LockManager.acquired md self m) as Hm1.
  { unfold LockManager.mutex_of at 1 in Hn1. rewrite Hreg in Hn1. cbn in Hn1. rewrite Hn1. unfold l.
    by rewrite LockManager.mutex_of_set, decide_True. }
  assert (LockManager.release md self name (w_locks w1) = LockManager.Done (LockManager.set_mutex name m (w_locks w1))) as Hrel.
  { pose proof (acquired_released md m m1 Ho Hg Hm1) as Hu.
    destruct md; cbn [LockManager.release]; unfold LockManager.release_shared, LockManager.release_exclusive; by rewrite Hreg, Hu. }
  assert (r = x /\ w' = set_locks (LockManager.set_mutex name m (w_locks w1)) w1) as [-> ->]
    by (destruct x; try done; rewrite Hrel in E2; by injection E2 as <- <-).
  split; [|exact K]. intros n. destruct (L n) as [Ln Rn]. cbn [w_locks set_locks]. split.
  - rewrite LockManager.mutex_of_set. case_decide as Hn; [by subst n|]. rewrite Ln. unfold l. cbn [w_locks set_locks].
    by rewrite LockManager.mutex_of_set, decide_False, Hm.
  - intros Hn. apply registered_set. left. apply Rn, registered_set. left. apply Hr. by right.
Qed.
End hygiene.

Section handlers.
Context {P : PgService} (self : tid).

Definition tidy_structural : Structural := {|
  on_run := @tidy P;
  on_db A _ := True;
  run_local := @tidy_local P;
  run_bind := @tidy_bind P;
  run_db A m _ := tidy_on_pg m;
  run_guard A md self name body := @tidy_with_guard P self A md name body;
  run_connection := @tidy_with_connection P;
  db_return _ _ := I;
  db_bind _ _ _ _ _ _ := I;
  db_exec_params _ _ _ _ := I;
  db_exec _ _ _ := I |}.

(** C13: whatever the database answers, also when statements fail and
    connections are lost, and whatever locks other threads hold: a handler
    that ends, with an answer or with an exception, leaves every table lock as
    it found it; with an answer the pool has as many connections as before,
    and with an exception it has lost one at most. *)
Theorem handlers_release r w o w' :
  handle self r w = (o, w') -> leaves o = true ->
  (forall name, LockManager.mutex_of name (w_locks w') = LockManager.mutex_of name (w_locks w)) /\ pool_kept o w w'.
Proof. intros E Hl. destruct (run_handle tidy_structural self r w o w' E Hl) as [L K]. split; [|done]. intros n. apply L. Qed.
End handlers.

(** ** Witness *)

(** A reader of a missing table: an exception inside the scope of a lock and of
    a connection. *)
#[local] Existing Instance reliable_service.

Definition demo_refusal : outcome unit := Eval vm_compute in (handle 0%nat (RGetPartitions "missing" 1 0 "") demo).1.

Lemma handlers_release_witness :
  let o := demo_refusal in let w' := (handle 0%nat (RGetPartitions "missing" 1 0 "") demo).2 in
  leaves o = true /\
  (forall name, LockManager.mutex_of name (w_locks w') = LockManager.mutex_of name (w_locks demo)) /\ pool_kept o demo w'.
Proof.
  split; [reflexivity|]. apply (handlers_release 0%nat (RGetPartitions "missing" 1 0 "") demo); [|reflexivity].
  apply run_pair; [vm_compute|]; reflexivity.
Defined.
