(* ===== verification/Main.v ===== *)
(** * The process (src/main.cpp)

    [main] loads the configuration, builds the server, and hands it to gRPC,
    which is not part of the repository: whether it can listen on the address
    and what the requests it delivers until [Shutdown] do to the server are
    parameters. What is printed is left out. The signal handler and the loop
    that collects expired transactions are modelled as they are written;
    [main] starts no thread for the loop. *)
From S2P Require Import Prelude Cxx Sql Database PgService RefServer PgClient ServerConfig LruCache Mvcc World PartitionRegistry MetadataServer Structure Serving Demo.
From S2P Require LockManager ConnectionPool CatalogManager.

(** The globals of main.cpp: the flag, and whether there is a server and it was
    told to shut down. *)
Record Globals := mkGlobals {
  running : bool;
  grpc_server_ptr : bool;
  shut_down : bool }.

Definition initial_globals : Globals := mkGlobals true false false.

Definition signal_handler (g : Globals) : Globals :=
  mkGlobals false (grpc_server_ptr g) (shut_down g || grpc_server_ptr g).

(** The loop of the collector. [flag i] is what [running] holds at the [i]-th
    test, [meanwhile i] what the other threads do during the [i]-th sleep and
    [clock i] the time after it. The answer ends with the counts it prints. *)
Fixpoint cleanup_loop (fuel : nat) (flag : nat -> bool) (meanwhile : nat -> MVCCManager -> MVCCManager) (clock : nat -> Z)
    (i : nat) (m : MVCCManager) : option (MVCCManager * list Z) :=
  match fuel with
  | O => None
  | S f =>
      if flag i then
        let '(cleaned, m1) := cleanup_expired_transactions (clock i) (meanwhile i m) in
        '(m', printed) ← cleanup_loop f flag meanwhile clock (S i) m1;
        Some (m', if 0 <? cleaned then cleaned :: printed else printed)
      else Some (m, [])
  end.

(** How [main] ends: an exception nobody catches, or an exit code. *)
Inductive ending := Terminates (e : cxx_exn) | Exits (code : Z).

Section main.
Context {P : PgService}.

(** [BuildAndStart]: gRPC listens on the address. [Wait]: the requests it
    delivers until it is shut down. *)
Definition main (getenv : string -> option string) (BuildAndStart : string -> bool) (Wait : World -> World)
    (now : Z) (s : pg) : ending * option World * Globals :=
  match from_env getenv with
  | inl e => (Terminates e, None, initial_globals)
  | inr config =>
      let service := make_server config now s in
      let grpc_server_ptr := BuildAndStart (grpc_address config) in
      if negb grpc_server_ptr then (Exits 1, Some service, initial_globals)
      else (Exits 0, Some (Wait service), mkGlobals true true false)
  end.
End main.

(** ** The collector *)

(** C33: the loop ends after the test that finds the flag cleared, and no
    transaction is left that was older than the timeout after the last sleep. *)
Theorem cleanup_loop_correct flag meanwhile clock n fuel m :
  (forall i, (i < n)%nat -> flag i = true) -> flag n = false -> (n < fuel)%nat ->
  exists m' printed, cleanup_loop fuel flag meanwhile clock 0 m = Some (m', printed)
    /\ Forall (fun k => 0 < k) printed
    /\ forall k, n = S k -> forall id x, active_transactions_ m' !! id = Some x -> expired (clock k) m' x = false.
Proof.
  intros Hrun Hstop Hf.
  enough (forall j i m, (i + j = n)%nat ->
    forall f, (j < f)%nat -> exists m' printed, cleanup_loop f flag meanwhile clock i m = Some (m', printed)
      /\ Forall (fun k => 0 < k) printed
      /\ ((j = 0)%nat -> m' = m)
      /\ (forall k, j = S k -> forall id x, active_transactions_ m' !! id = Some x -> expired (clock (i + k)%nat) m' x = false)) as H.
  { destruct (H n 0%nat m eq_refl fuel Hf) as (m' & out & E & Hp & _ & He). exists m', out. split; [done|]. split; [done|].
    intros k Hk. by apply (He k). }
  clear Hf m fuel. induction j as [|j IH]; intros i m Hi f Hf; (destruct f as [|f]; [lia|]); cbn [cleanup_loop].
  - replace i with n by lia. rewrite Hstop. exists m, []. split; [done|]. split; [constructor|]. split; [done|]. intros k Hk. lia.
  - rewrite (Hrun i) by lia.
    assert (forall id x, active_transactions_ (cleanup_expired_transactions (clock i) (meanwhile i m)).2 !! id = Some x ->
      expired (clock i) (cleanup_expired_transactions (clock i) (meanwhile i m)).2 x = false) as Hclean.
    { pose proof (cleanup_cleans (clock i) (meanwhile i m)) as Hc. exact Hc. }
    destruct (cleanup_expired_transactions (clock i) (meanwhile i m)) as [c m1]. cbn [snd] in Hclean.
    destruct (IH (S i) m1 ltac:(lia) f ltac:(lia)) as (m' & out & -> & Hp & Hz & He). cbn [mbind option_bind].
    exists m', (if 0 <? c then c :: out else out). split; [done|]. split; [|split; [lia|]].
    + destruct (Z.ltb_spec 0 c); [by constructor|done].
    + intros k [= ->]. destruct k as [|k]; [|intros id x; rewrite Nat.add_succ_r; by apply He].
      rewrite (Hz eq_refl), Nat.add_0_r. exact Hclean.
Qed.

(** ** Sizes of zero *)

Section zero.
Context {P : PgService}.

(** A table lookup on a server without connections. *)
Lemma get_table_waits name (w : World) :
  LockManager.table_locks_ (w_locks w) = ∅ -> ConnectionPool.available_connections_ (w_pool w) = [] ->
  (CatalogManager.get_table 0%nat name w).1 = Wait.
Proof.
  intros Hl Hp. unfold CatalogManager.get_table, with_guard.
  destruct (LockManager.acquire_cases LockManager.Sh 0%nat name (w_locks w)) as (lm & Hm & _ & E).
  assert (LockManager.mutex_of name (w_locks w) = LockManager.free_mutex) as Hf by (unfold LockManager.mutex_of; by rewrite Hl, lookup_empty).
  rewrite Hf in E. change (LockManager.owns 0%nat LockManager.free_mutex) with false in E. cbn iota in E.
  rewrite decide_True in E by done. rewrite E. unfold with_connection, ConnectionPool.acquire. cbn [w_pool set_locks]. by rewrite Hp.
Qed.

Lemma zero_pool_waits getenv cfg now (s : pg) name snapshot :
  from_env getenv = inr cfg -> getenv "POOL_SIZE" = Some "0" ->
  (handle 0%nat (RGetTableMetadata name snapshot) (make_server cfg now s)).1 = Wait.
Proof.
  intros E Hz. assert (pool_size cfg = 0) as Hp.
  { unfold from_env in E. destruct (number_from stoul (getenv "CACHE_CAPACITY") _); [done|]. rewrite Hz in E. cbn in E.
    destruct (number_from stoi _ _); [done|]. by injection E as <-. }
  unfold handle, GetTableMetadata, make_server, ConnectionPool.make_pool. rewrite Hp. cbn [ConnectionPool.fill Z.to_nat].
  unfold bind at 1 2. match goal with |- context [CatalogManager.get_table 0%nat name ?w] => set (w0 := w) end.
  pose proof (get_table_waits name w0 eq_refl eq_refl) as Hw. destruct (CatalogManager.get_table 0%nat name w0) as [o w1]. cbn in Hw. by rewrite Hw.
Qed.
End zero.

#[local] Existing Instance reliable_service.

Definition env_of (vars : list (string * string)) (name : string) : option string := (list_to_map vars : gmap string string) !! name.

Definition first_requests : list Request :=
  [RCreateTable (mkCreateTableRequest "orders" "{}" "day" []); RCommitSnapshot "orders" [demo_part "a" 10 100] [] 0 "";
   RGetPartitions "orders" 1 0 ""].

Definition empty_service : pg := ref_start (mkDb [] [] [] [] []) first_seqs [] [].

(** C40: sizes of zero are accepted and the server starts, but it cannot serve:
    with POOL_SIZE=0 a request waits for a connection for ever, whatever the
    database, and with CACHE_CAPACITY=0 the first read of a table is
    undefined. *)
Theorem zero_sizes_accepted :
  (forall (P : PgService) now (s : @pg P) Wait_, exists w,
     main (env_of [("POOL_SIZE", "0")]) (fun _ => true) Wait_ now s = (Exits 0, Some (Wait_ w), mkGlobals true true false)
     /\ forall name snapshot, (handle 0%nat (RGetTableMetadata name snapshot) w).1 = Wait)
  /\ (exists w, main (env_of [("CACHE_CAPACITY", "0")]) (fun _ => true) (fun w => (serve 0%nat first_requests w).2) 0 empty_service
        = (Exits 0, Some (serve 0%nat first_requests w).2, mkGlobals true true false)
     /\ (serve 0%nat first_requests w).1 = UB).
Proof.
  split.
  - intros P now s Wait_. destruct (from_env (env_of [("POOL_SIZE", "0")])) as [e|cfg] eqn:E; [vm_compute in E; discriminate|].
    exists (make_server cfg now s). split; [unfold main; by rewrite E|]. intros name snapshot. by apply (zero_pool_waits _ _ _ _ _ _ E).
  - destruct (from_env (env_of [("CACHE_CAPACITY", "0")])) as [e|cfg] eqn:E; [vm_compute in E; discriminate|].
    exists (make_server cfg 0 empty_service). split; [unfold main; by rewrite E|]. vm_compute in E. injection E as <-.
    vm_compute. reflexivity.
Qed.

(** ** Witness *)

(** A transaction that is older than the timeout, and a flag that is cleared
    during the second sleep. *)
Lemma cleanup_loop_correct_witness :
  let m := (begin_transaction 0 (make_mvcc 5)).2 in
  exists m' printed, cleanup_loop 5 (fun i => (i <? 2)%nat) (fun _ m => m) (fun i => Z.of_nat i * 4000000000) 0 m = Some (m', printed)
    /\ forall id x, active_transactions_ m' !! id = Some x -> expired 4000000000 m' x = false.
Proof.
  intros m. destruct (cleanup_loop_correct (fun i => (i <? 2)%nat) (fun _ m => m) (fun i => Z.of_nat i * 4000000000) 2 5 m)
    as (m' & printed & E & _ & H).
  - intros [|[|i]] Hi; [reflexivity|reflexivity|lia].
  - reflexivity.
  - lia.
  - exists m', printed. split; [exact E|]. exact (H 1%nat eq_refl).
Defined.
