(* ===== verification/Sent.v ===== *)
(** * The statements the server sends

    Any service, with a record of the calls made to it: whatever it answers,
    the handlers send nothing but statements that fit the schema of
    scripts/init_db.sql, with as many parameters as they have placeholders. *)
From S2P Require Import Prelude Cxx Sql Database PgService DbFacts Typing RefServer PgClient LruCache Mvcc World SchemaStore PartitionRegistry MetadataServer Structure Demo.
From S2P Require LockManager ConnectionPool CatalogManager.

(** A call: the text of the statement and its parameters. *)
Abbreviation call := (string * list string)%type.

(** The service [P] and the calls so far. *)
Definition monitored (P : PgService) : PgService := {|
  pg := @pg P * list call;
  PQconnectdb str s := let '(c, s') := PQconnectdb str s.1 in (c, (s', s.2));
  PQstatus c s := PQstatus c s.1;
  PQreset c s := (PQreset c s.1, s.2);
  PQfinish c s := (PQfinish c s.1, s.2);
  PQexecParams c text ps s := let '(r, s') := PQexecParams c text ps s.1 in (r, (s', s.2 ++ [(text, ps)]));
  PQexec c text s := let '(r, s') := PQexec c text s.1 in (r, (s', s.2 ++ [(text, [])]));
  pg_int_in := @pg_int_in P;
  pg_jsonb_in := @pg_jsonb_in P;
  pg_ts_out := @pg_ts_out P;
  abs s := abs s.1 |}.

(** The statement fits the schema, and a server can refuse it only because a
    parameter is not a value of its type or because of a constraint. *)
Definition well_formed_call (c : call) : Prop :=
  accepted c.1 (length c.2) = true
  /\ exists st, parse_sql c.1 = Some st
       /\ (is_query st = true -> forall e d, readable e c.2 st -> run_stmt e st c.2 d = None -> breaks_constraint e st c.2 d).

Lemma accepted_well_formed text ps : accepted text (length ps) = true -> well_formed_call (text, ps).
Proof.
  unfold accepted, well_formed_call. cbn [fst snd]. intros Ha. split; [done|].
  destruct (parse_sql text) as [st|]; [|done]. exists st. split; [done|]. intros Hq e d.
  assert (well_typed (length ps) st = true) as Ht by by destruct st. by apply (well_typed_refused e st ps d (length ps)).
Qed.

Section sent.
Context {P : PgService}.

Definition sent (s : @pg (monitored P)) : list call := s.2.

(** The calls between two states, all of them well formed. *)
Definition sends (s s' : @pg (monitored P)) : Prop := exists l, sent s' = sent s ++ l /\ Forall well_formed_call l.

#[export] Instance sends_preorder : PreOrder sends.
Proof.
  split; [intros s; exists []; by rewrite app_nil_r|]. intros s1 s2 s3 (l & E & H) (l' & E' & H').
  exists (l ++ l'). rewrite E', E, app_assoc. split; [done|]. by apply Forall_app.
Qed.

Lemma sends_same s s' : sent s' = sent s -> sends s s'.
Proof. intros E. exists []. by rewrite app_nil_r. Qed.

Definition db_sends A (m : @PgM (monitored P) A) : Prop := forall s r s', m s = (r, s') -> sends s s'.
Definition run_sends A (m : @M (monitored P) A) : Prop := forall w r w', m w = (r, w') -> sends (w_pg w) (w_pg w').

Lemma sends_bind A B (m : @M (monitored P) A) (k : A -> @M (monitored P) B) :
  run_sends A m -> (forall a, run_sends B (k a)) -> run_sends B (bind m k).
Proof.
  intros Hm Hk w r w'. unfold bind. destruct (m w) as [x w1] eqn:E. specialize (Hm w x w1 E).
  destruct x; [|by intros [= <- <-]..]. intros E2. etrans; [exact Hm|]. by eapply Hk.
Qed.

Lemma sends_db A (m : @PgM (monitored P) A) : db_sends A m -> run_sends A (on_pg m).
Proof. intros Hm w r w'. unfold on_pg. destruct (m (w_pg w)) as [[e|a] s] eqn:E; intros [= <- <-]; by eapply Hm. Qed.

Lemma sends_guard A md self name (body : @M (monitored P) A) : run_sends A body -> run_sends A (with_guard md self name body).
Proof.
  intros Hb w r w'. unfold with_guard. destruct (LockManager.acquire md self name (w_locks w)) as [l|l|e|];
    try (intros [= <- <-]; by apply sends_same).
  destruct (body (set_locks l w)) as [x w1] eqn:E. specialize (Hb _ _ _ E).
  destruct x; [destruct (LockManager.release _ _ _ _)..| |]; by intros [= <- <-].
Qed.

(** Opening and closing connections sends no statement. *)
Lemma acquire_sends p (s : @pg (monitored P)) r p' s' : ConnectionPool.acquire p s = (r, p', s') -> sent s' = sent s.
Proof.
  unfold ConnectionPool.acquire, ConnectionPool.validate_connection, ConnectionPool.create_connection. cbn.
  destruct (ConnectionPool.available_connections_ p) as [|c rest]; [by intros [= <- <- <-]|].
  destruct (bool_decide _); [by intros [= <- <- <-]|]. cbn. destruct (bool_decide _); [by intros [= <- <- <-]|].
  cbn. destruct (PQconnectdb _ _) as [c2 s2]. cbn. by destruct (bool_decide _); intros [= <- <- <-].
Qed.

Lemma sends_connection A (body : nat -> @M (monitored P) A) : (forall c, run_sends A (body c)) -> run_sends A (with_connection body).
Proof.
  intros Hb w r w'. unfold with_connection. destruct (ConnectionPool.acquire (w_pool w) (w_pg w)) as [[x p] s] eqn:Ea.
  apply acquire_sends in Ea. assert (sends (w_pg w) s) as Hs by by apply sends_same.
  destruct x as [|h|e]; [by intros [= <- <-]| |by intros [= <- <-]].
  destruct (ConnectionPool.conn_ h) as [c|]; [|by intros [= <- <-]].
  destruct (body c _) as [x w1] eqn:E. specialize (Hb c _ _ _ E). assert (sends (w_pg w) (w_pg w1)) by (by etrans).
  by destruct x; intros [= <- <-].
Qed.

Lemma sends_params c text ps : accepted text (length ps) = true -> db_sends PGresult (@exec_params (monitored P) c text ps).
Proof.
  intros Ha s r s'. unfold exec_params. cbn. destruct (PQexecParams c text ps s.1) as [x s1]. intros [= <- <-].
  exists [(text, ps)]. split; [done|]. apply Forall_singleton. by apply accepted_well_formed.
Qed.

Lemma sends_exec c text : accepted text 0 = true -> db_sends PGresult (@exec (monitored P) c text).
Proof.
  intros Ha s r s'. unfold exec. cbn. destruct (PQexec c text s.1) as [x s1]. intros [= <- <-].
  exists [(text, [])]. split; [done|]. apply Forall_singleton. by apply accepted_well_formed.
Qed.

Lemma sends_db_bind A B (m : @PgM (monitored P) A) (k : A -> @PgM (monitored P) B) :
  db_sends A m -> (forall a, db_sends B (k a)) -> db_sends B (pbind m k).
Proof.
  intros Hm Hk s r s'. unfold pbind. destruct (m s) as [[e|a] s1] eqn:E; [intros [= <- <-]; by eapply Hm|].
  intros E2. etrans; [by eapply Hm|by eapply Hk].
Qed.

Lemma sends_local A (m : @M (monitored P) A) :
  (forall w r w', m w = (r, w') -> w_pg w' = w_pg w /\ w_pool w' = w_pool w /\ w_locks w' = w_locks w) -> run_sends A m.
Proof. intros Hm w r w' E. destruct (Hm w r w' E) as [-> _]. reflexivity. Qed.

Lemma sends_return A (r : cxx_exn + A) : db_sends A (@pthrow (monitored P) A r).
Proof. intros s x s' [= <- <-]. reflexivity. Qed.

Definition sends_structural : @Structural (monitored P) := {|
  on_run := run_sends;
  on_db := db_sends;
  run_local := sends_local;
  run_bind := sends_bind;
  run_db := sends_db;
  run_guard := sends_guard;
  run_connection := sends_connection;
  db_return := sends_return;
  db_bind := sends_db_bind;
  db_exec_params := sends_params;
  db_exec := sends_exec |}.

(** C11: whatever the database answers, the statements a handler sends fit the
    schema: the tables and columns exist, values have the types of their
    columns, every placeholder has its parameter. So a server that follows the
    SQL standard refuses one only because a parameter is not a value of its
    type or because a constraint would be broken. *)
Theorem statements_well_typed self r (w : @World (monitored P)) :
  exists l, sent (w_pg (handle self r w).2) = sent (w_pg w) ++ l /\ Forall well_formed_call l.
Proof. destruct (handle self r w) as [o w'] eqn:E. exact (run_handle sends_structural self r w o w' E). Qed.
End sent.
