(* ===== verification/History.v ===== *)
(** * The log of snapshots (PgClient::get_snapshot, list_snapshots and their handlers)

    What [GetSnapshot] and [ListSnapshots] answer, that a commit is found
    there, and what a reader of "the latest snapshot" sees of it. *)
From S2P Require Import Prelude Cxx Sql Database PgService DbFacts RefServer PgClient PgSpec PgWrites Changes LruCache Mvcc World PartitionRegistry MetadataServer Serving Demo Transactions RegistrySpec.
From S2P Require LockManager ConnectionPool.

(** ** The log without SQL *)

Definition of_table (tid : Z) (r : snapshot_rec) : bool := bool_decide (sn_table_id r = Some tid).

(** The snapshots of a live table. *)
Definition log_of (d : Db) (name : string) : list snapshot_rec :=
  match find_live d name with Some t => filter (fun r => of_table (tb_table_id t) r) (db_snapshots d) | None => [] end.

Definition find_snapshot (d : Db) (name : string) (n : Z) : option snapshot_rec :=
  head (filter (fun r => sn_snapshot_id r = n) (log_of d name)).

(** [r] may be listed before [r']: the time of a commit is not null, but the
    schema allows it. *)
Definition newer (r r' : snapshot_rec) : Prop :=
  match sn_committed_at r, sn_committed_at r' with
  | None, _ => True
  | Some _, None => False
  | Some a, Some b => b <= a
  end.

Lemma find_snapshot_iff d name n r :
  integrity d -> find_snapshot d name n = Some r <-> r ∈ log_of d name /\ sn_snapshot_id r = n.
Proof.
  intros I. unfold find_snapshot. split.
  - intros E. apply head_Some in E as [l E]. assert (r ∈ filter (fun r => sn_snapshot_id r = n) (log_of d name)) as [? ?]%list_elem_of_filter;
      [rewrite E; by left|done].
  - intros [Hr <-]. rewrite filter_key_unique; [done| |done].
    unfold log_of. destruct (find_live d name); [|by constructor]. apply NoDup_fmap_filter, (in_snapshot_ids _ I).
Qed.

Section reads.
Context {P : PgService} `{!PgLaws P, !PgReliable P}.
Implicit Types (c : PGconn) (s : pg).

Definition scol (name : string) : column snapshot_rec :=
  default (Col "" TText (fun _ => SNull) (fun _ _ => None)) (find_col name).

Definition snapshot_columns : list (column snapshot_rec) :=
  default [] (bind_cols ["snapshot_id"; "table_id"; "parent_snapshot_id"; "operation"; "added_files_count";
    "deleted_files_count"; "committed_at"]).

Lemma snap_row_reads d res i r s :
  integrity d -> r ∈ db_snapshots d -> res_rows res !! i = Some (project (pg_env 0 0) snapshot_columns r) ->
  snapshot_row res i s = (inr (snap_row pg_ts_out r), s).
Proof.
  intros I Hr Hi. destruct (in_snapshot_range _ I r Hr) as (R1 & R2 & R3 & R4).
  assert (opt_in in_i64 (sn_table_id r) = true) as R5.
  { pose proof (in_snapshot_fk _ I r Hr) as F. destruct (sn_table_id r) as [z|]; [|done]. simpl in *.
    apply bool_decide_eq_true, list_elem_of_fmap in F. destruct F as (t & -> & Ht). by apply (in_table_range _ I). }
  unfold snapshot_row, pbind, int64_at, int32_at, pthrow.
  rewrite (field_int64_text _ _ _ (sn_snapshot_id r)); [|unfold field; by rewrite Hi|done].
  rewrite (field_int64_opt _ _ _ (sn_table_id r)); [|unfold field; rewrite Hi; reflexivity|done].
  rewrite (field_int64_opt _ _ _ (sn_parent_snapshot_id r)); [|unfold field; rewrite Hi; reflexivity|done].
  rewrite (field_int32_opt _ _ _ (sn_added_files_count r)); [|unfold field; rewrite Hi; reflexivity|done].
  rewrite (field_int32_opt _ _ _ (sn_deleted_files_count r)); [|unfold field; rewrite Hi; reflexivity|done].
  erewrite !field_str_default; [|unfold field; rewrite Hi; reflexivity..].
  by destruct r as [? ? ? [?|] ? ? ? ?].
Qed.

Definition log_bound (tid : Z) : bound snapshot_rec := BCmp (scol "table_id") CEq (SInt tid).

Lemma holds_log tid r : holds (log_bound tid) r = of_table tid r.
Proof.
  unfold holds, of_table. destruct r as [a [b|] c0 d e f g h]; cbn; [|done].
  destruct (Z.eqb_spec b tid) as [->|Hne]; [by rewrite bool_decide_eq_true_2|]. rewrite bool_decide_eq_false_2; [done|congruence].
Qed.

Lemma holds_one tid n r :
  holds (BAnd (log_bound tid) (BCmp (scol "snapshot_id") CEq (SInt n))) r = of_table tid r && (sn_snapshot_id r =? n).
Proof.
  rewrite <- holds_log. unfold holds. cbn [eval3].
  replace (compare_vals CEq (col_get (scol "snapshot_id") r) (SInt n)) with (Some (sn_snapshot_id r =? n)) by done.
  destruct (eval3 (log_bound tid) r) as [[]|]; by destruct (_ =? _).
Qed.

Lemma get_snapshot_spec c name n s d :
  ready c (abs s) d -> sessions (abs s) !! c = Some Idle ->
  exists s', get_snapshot c name n s = (inr (snap_row pg_ts_out <$> find_snapshot d (c_str name) n), s') /\ abs s' = abs s.
Proof.
  intros Rd Hidle. pose proof (ready_integrity _ _ _ Rd) as I. unfold get_snapshot.
  table_id_step Rd s1 Ea1.
  destruct (find_live d (c_str name)) as [t|] eqn:Et; [|exists s1; by unfold find_snapshot, log_of; rewrite Et].
  destruct (find_live_id d _ t _ (rd_ok _ _ _ Rd) Et) as [_ Hid].
  pose proof (ready_abs _ _ _ _ Ea1 Rd) as Rd1. unfold pbind.
  assert (filter (fun r => sn_snapshot_id r = n) (log_of d (c_str name))
    = filter (fun r => holds (BAnd (log_bound (tb_table_id t)) (BCmp (scol "snapshot_id") CEq (SInt n))) r) (db_snapshots d)) as Hlog.
  { unfold log_of. rewrite Et. clear. induction (db_snapshots d) as [|r l IH]; [done|].
    rewrite !filter_bool_cons, holds_one. destruct (of_table (tb_table_id t) r); cbn [andb]; [|done].
    rewrite filter_cons. destruct (Z.eqb_spec (sn_snapshot_id r) n); [rewrite decide_True by done; by f_equal|by rewrite decide_False]. }
  destruct (in_i64 n) eqn:Hn.
  - sql_select snapshot_rec Rd1 (BAnd (log_bound (tb_table_id t)) (BCmp (scol "snapshot_id") CEq (SInt n)))
      (@None nat) (@None nat) res s' l E Ea Hst Harr Hrows.
    { cbn - [coerce c_str to_string]. by rewrite !coerce_int8 by done. }
    rewrite E. unfold tuples_ok. rewrite Hst. destruct Harr as [Hl _]. change (rows_of d) with (db_snapshots d) in Hl. rewrite <- Hlog in Hl.
    exists s'. split; [|congruence]. unfold PQntuples. rewrite Hrows. cbn [drop_opt take_opt negb].
    rewrite bool_decide_true by done. cbn [negb orb]. unfold find_snapshot in *.
    destruct (find_snapshot d (c_str name) n) as [r|] eqn:Ef; unfold find_snapshot in Ef.
    + destruct (filter _ (log_of _ _)) as [|r' [|r2 l2]] eqn:Efl; [done| |].
      * apply Permutation_singleton_r in Hl as ->. injection Ef as ->. rewrite length_fmap. change (Z.of_nat (length [r]) =? 0) with false. cbv iota beta.
        rewrite (snap_row_reads d res 0%nat r s' I); [done| |].
        -- assert (r ∈ filter (fun r => sn_snapshot_id r = n) (log_of d (c_str name))) as Hin by (rewrite Efl; by left).
           rewrite Efl, Hlog in Hin. by apply list_elem_of_filter in Hin as [_ ?].
        -- rewrite Hrows. reflexivity.
      * exfalso. assert (NoDup (sn_snapshot_id <$> (r' :: r2 :: l2))) as Hnd.
        { rewrite Hlog. apply NoDup_fmap_filter, (in_snapshot_ids _ I). }
        assert (forall x, x ∈ r' :: r2 :: l2 -> sn_snapshot_id x = n) as Hall.
        { intros x Hx. rewrite <- Efl in Hx. by apply list_elem_of_filter in Hx as [? _]. }
        rewrite !fmap_cons in Hnd. apply NoDup_cons in Hnd as [Hnd _]. apply Hnd. apply elem_of_cons. left.
        rewrite (Hall r' ltac:(by left)), (Hall r2 ltac:(by right; left)). done.
    + destruct (filter _ (log_of _ _)) as [|r' l2] eqn:Efl; [|done]. apply Permutation_nil_r in Hl as ->. done.
  - sql_fails Rd1 r s' q E Hst Hle Hq Ea.
    { intros now n' q dp _ _. apply (select_fails (R:=snapshot_rec)); [done|left].
      cbn - [coerce c_str to_string]. by rewrite (coerce_int8 now n' _ Hid), (coerce_int8_out now n' _ Hn). }
    rewrite E. unfold tuples_ok. rewrite Hst. cbn. exists s'. split.
    + destruct (find_snapshot d (c_str name) n) as [x|] eqn:Ef; [|done].
      apply find_snapshot_iff in Ef as [Hx <-]; [|done]. unfold log_of in Hx. rewrite Et in Hx.
      apply list_elem_of_filter in Hx as [_ Hx]. destruct (in_snapshot_range _ I x Hx). congruence.
    + rewrite Ea, (Hq eq_refl), Ea1, fail_view_idle by done. apply set_seqs_same.
Qed.

Lemma order_newer k r r' :
  find_col (R:=snapshot_rec) "committed_at" = Some k -> order_leb k true r r' -> newer r r'.
Proof.
  intros Hk. injection Hk as <-. unfold order_leb, newer. cbn.
  destruct (sn_committed_at r), (sn_committed_at r'); cbn; try done. by rewrite Is_true_true, Z.leb_le.
Qed.

(** The snapshots of a table, newest first, at most [limit] of them. *)
Definition listing (d : Db) (name : string) (limit : Z) (rows : list SnapshotRow) : Prop :=
  exists l, l ≡ₚ log_of d name /\ Sorted newer l
    /\ rows = snap_row pg_ts_out <$> take (Z.to_nat (if 0 <? limit then limit else 50)) l.

Lemma list_snapshots_spec c name limit s d :
  in_i32 limit = true -> ready c (abs s) d ->
  exists rows s', list_snapshots c name limit s = (inr rows, s') /\ abs s' = abs s /\ listing d (c_str name) limit rows.
Proof.
  intros Hlim Rd. pose proof (ready_integrity _ _ _ Rd) as I. unfold list_snapshots.
  table_id_step Rd s1 Ea1. unfold listing, log_of.
  destruct (find_live d (c_str name)) as [t|] eqn:Et; [|exists [], s1; split; [done|]; split; [done|]; exists []; by rewrite take_nil].
  destruct (find_live_id d _ t _ (rd_ok _ _ _ Rd) Et) as [_ Hid].
  pose proof (ready_abs _ _ _ _ Ea1 Rd) as Rd1. unfold pbind. set (n := if 0 <? limit then limit else 50).
  assert (in_i64 n = true /\ (0 <=? n) = true) as [Hn1 Hn2].
  { unfold n. clear -Hlim. unfold in_i32, i32_max, in_i64, i64_min, i64_max in *. destruct (Z.ltb_spec 0 limit); lia. }
  sql_select snapshot_rec Rd1 (log_bound (tb_table_id t)) (Some (Z.to_nat n)) (@None nat) res s' l E Ea Hst Harr Hrows.
  { cbn - [coerce c_str to_string]. by rewrite !coerce_int8 by done. }
  { cbn - [c_str to_string in_i64]. rewrite to_string_nul_free, int_in_law. cbn - [in_i64]. by rewrite Hn1, Hn2. }
  rewrite E. unfold tuples_ok. rewrite Hst, bool_decide_true by done. cbn [negb]. destruct Harr as [Hl (k & Hk & Hs)].
  change (rows_of d) with (db_snapshots d) in Hl.
  rewrite (filter_ext_elem _ (fun r => of_table (tb_table_id t) r)) in Hl by (intros; by rewrite holds_log).
  cbn [drop_opt take_opt] in Hrows. eexists _, s'.
  rewrite (read_rows_ok snapshot_row (snap_row pg_ts_out) snapshot_columns res (take (Z.to_nat n) l) s' Hrows).
  - split; [done|]. split; [congruence|]. exists l. split; [done|]. split; [|done].
    eapply Prelude.Sorted_impl; [|exact Hs]. intros x y. by apply order_newer.
  - intros i r Hr Hi. apply (snap_row_reads d); [done| |done].
    assert (r ∈ l) as Hin by (eapply elem_of_submseteq; [exact Hr|apply sublist_submseteq, sublist_take]).
    rewrite Hl in Hin. by apply list_elem_of_filter in Hin as [_ ?].
Qed.
End reads.

(** ** The handlers *)

Section handlers.
Context {P : PgService} `{!PgLaws P, !PgReliable P} (self : tid).

(** A scope that reads and answers. *)
Lemma reads_then {A B} (m : PGconn -> PgM A) (k : A -> M B) (f : A -> B) (V : A -> Prop) (w : World) d :
  serving w d -> (forall a w1, k a w1 = (Ret (f a), w1)) ->
  (forall c s, ready c (abs s) d -> sessions (abs s) !! c = Some Idle ->
     exists a s', m c s = (inr a, s') /\ abs s' = abs s /\ V a) ->
  exists a w', with_connection (fun c => let* a := on_pg (m c) in k a) w = (Ret (f a), w') /\ serving w' d /\ V a.
Proof.
  intros [S U] Hk Hm.
  destruct (connected (fun c => let* a := on_pg (m c) in k a) w d (fun b d' _ => d' = d /\ exists a, b = f a /\ V a) S)
    as (b & w' & d' & E & S' & El & Em & -> & a & -> & HV).
  - intros c w1 Rd Hi Em Ec _. destruct (Hm c (w_pg w1) Rd Hi) as (a & s' & E & Ea & HV).
    exists (f a), (set_pg s' w1), d. split; [by rewrite (bind_ret _ _ _ _ _ (on_pg_ret _ _ _ _ E))|].
    split; [cbn; rewrite Ea; by apply rested_idle|]. split_and!; try done; [cbn; rewrite Ec; apply S|]. by exists a.
  - exists a, w'. split; [done|]. split; [|done]. split; [done|]. intros n. rewrite El. apply U.
Qed.

Definition snapshot_answer (d : Db) (name : string) (n : Z) : Status * SnapshotDetail :=
  match find_snapshot d name n with
  | Some r => (StatusOK, to_snapshot_detail (snap_row pg_ts_out r))
  | None => (NOT_FOUND "Snapshot not found", empty_detail)
  end.

Lemma get_snapshot_handler name n w d :
  nul_free name -> serving w d ->
  exists w', GetSnapshot name n w = (Ret (snapshot_answer d name n), w') /\ serving w' d.
Proof.
  intros Hn S. unfold GetSnapshot.
  destruct (reads_then (fun c => get_snapshot c name n)
    (fun snap => match snap with None => ret (NOT_FOUND "Snapshot not found", empty_detail) | Some s => ret (StatusOK, to_snapshot_detail s) end)
    (fun snap => match snap with None => (NOT_FOUND "Snapshot not found", empty_detail) | Some s => (StatusOK, to_snapshot_detail s) end)
    (fun a => a = snap_row pg_ts_out <$> find_snapshot d name n) w d S) as (a & w' & E & S' & ->).
  - by intros [a|] w1.
  - intros c s Rd Hi. destruct (get_snapshot_spec c name n s d Rd Hi) as (s' & E & Ea). rewrite Hn in E. by exists (snap_row pg_ts_out <$> find_snapshot d name n), s'.
  - exists w'. split; [|done]. rewrite E. unfold snapshot_answer. by destruct (find_snapshot d name n).
Qed.

(** C20: [GetSnapshot] answers with the stored snapshot exactly when the table
    exists and the snapshot is one of its own, and NOT_FOUND otherwise;
    [ListSnapshots] answers with the snapshots of the table, newest first, at
    most as many as asked for (50 by default), and nothing without a table. *)
Theorem snapshot_log_correct name w d :
  nul_free name -> serving w d ->
  (forall n, exists w', GetSnapshot name n w = (Ret (snapshot_answer d name n), w') /\ serving w' d)
  /\ (forall limit, in_i32 limit = true -> exists rows w', listing d name limit rows
        /\ ListSnapshots name limit w = (Ret (StatusOK, to_snapshot_detail <$> rows), w') /\ serving w' d).
Proof.
  intros Hn S. split; [intros n; by apply get_snapshot_handler|]. intros limit Hl. unfold ListSnapshots.
  destruct (reads_then (fun c => list_snapshots c name limit) (fun rows => ret (StatusOK, to_snapshot_detail <$> rows))
    (fun rows => (StatusOK, to_snapshot_detail <$> rows)) (listing d name limit) w d S) as (rows & w' & E & S' & HV).
  - done.
  - intros c s Rd Hi. destruct (list_snapshots_spec c name limit s d Hl Rd) as (rows & s' & E & Ea & HV). rewrite Hn in HV.
    by exists rows, s'.
  - by exists rows, w'.
Qed.

Lemma commit_log now1 now2 q name parent op parts keys d n d' :
  db_ok q d -> commit_outcome now1 now2 q name parent op parts keys d = Some (n, d') ->
  exists t row, find_live d name = Some t /\ sn_snapshot_id row = n /\ sn_parent_snapshot_id row = Some parent
    /\ sn_operation row = c_str op /\ sn_added_files_count row = Some (i32 (Z.of_nat (length parts)))
    /\ sn_deleted_files_count row = Some (i32 (Z.of_nat (length keys))) /\ sn_committed_at row = Some now1
    /\ (forall r, r ∈ log_of d name -> sn_snapshot_id r < n)
    /\ forall name', log_of d' name' = log_of d name' ++ (if decide (name' = name) then [row] else []).
Proof.
  intros [Hok (_ & _ & Hids & _)] (t & Hl & <- & Hp & -> & E)%commit_outcome_cases. pose proof (proj1 (constraints_integrity d) Hok) as I.
  destruct (commit_shape _ _ _ _ _ _ _ _ _ _ _ E) as (rs & _ & _ & _ & (row & H1 & H2 & H3 & H4 & H5 & H6 & H7 & Hs) & _).
  exists t, row. do 7 (split; [done|]). split.
  { intros r Hr. unfold log_of in Hr. rewrite Hl in Hr. apply list_elem_of_filter in Hr as [_ Hr]. by apply Hids in Hr as [_ ?]. }
  intros name'. unfold log_of. rewrite (commit_find_live now1 now2 q t parent op parts keys d d' Hl E), Hs.
  case_decide as Hd.
  - subst name'. rewrite Hl, filter_app. f_equal. rewrite filter_bool_cons. unfold of_table. cbn.
    by rewrite H2, bool_decide_eq_true_2.
  - rewrite app_nil_r. destruct (find_live d name') as [t'|] eqn:Et; [|done]. rewrite filter_app, filter_bool_cons.
    assert (of_table (tb_table_id t') row = false) as ->; [|by rewrite app_nil_r].
    unfold of_table. rewrite H2. apply bool_decide_eq_false_2. intros [= Hid].
    apply find_live_spec in Et as (Ht' & Hn' & _), Hl as (Ht & _ & _).
    apply Hd. rewrite <- Hn'. f_equal. by apply (NoDup_fmap_elem tb_table_id (db_tables d) t' t (in_table_ids _ I)).
Qed.

(** C10: a commit is recorded: from its success on, its snapshot is found with
    the parent and the operation it was given and the numbers of its changes,
    and every other snapshot, of any table, is found as before. *)
Theorem commit_recorded name parent op parts keys w d r w' :
  nul_free name -> serving w d -> in_i64 parent = true ->
  commit_snapshot self name parent op parts keys w = (Ret r, w') -> cr_success r = true ->
  (exists now, (GetSnapshot name (cr_snapshot_id r) w').1
     = Ret (StatusOK, mkSnapshotDetail (cr_snapshot_id r) parent (c_str op) (i32 (Z.of_nat (length parts)))
         (i32 (Z.of_nat (length keys))) (pg_ts_out now)))
  /\ (forall name' n, nul_free name' -> name' <> name \/ n <> cr_snapshot_id r ->
        (GetSnapshot name' n w').1 = (GetSnapshot name' n w).1).
Proof.
  intros Hn S Hpar E Hok. destruct (commit_run self name parent op parts keys w d r w' Hn S E) as (d' & now1 & now2 & S' & _ & H & _).
  unfold verdict in H. destruct (commit_outcome _ _ _ _ _ _ _ _ _) as [[n d1]|] eqn:Eo; [|destruct H as ([? _] & _); congruence].
  destruct H as [-> ->]. cbn [cr_snapshot_id].
  assert (integrity d1) as I1 by (apply constraints_integrity, (se_db _ _ (proj1 S'))).
  assert (integrity d) as I by (apply constraints_integrity, (se_db _ _ (proj1 S))).
  assert (0 <= parent) as Hp0.
  { apply commit_outcome_cases in Eo as (t & _ & _ & -> & _). unfold current_snapshot. case_match; [|done].
    unfold u64. by apply Z.mod_pos_bound. }
  destruct (commit_log now1 now2 _ name parent op parts keys d n d1 (se_db _ _ (proj1 S)) Eo)
    as (t & row & Hl & <- & H3 & H4 & H5 & H6 & H7 & Hlt & Hlog).
  split.
  - exists now1. destruct (get_snapshot_handler name (sn_snapshot_id row) w' d1 Hn S') as (w2 & -> & _). cbn [fst]. unfold snapshot_answer.
    assert (row ∈ log_of d1 name) as Hrow by (rewrite Hlog, decide_True by done; apply elem_of_app; right; by left).
    assert (find_snapshot d1 name (sn_snapshot_id row) = Some row) as -> by by apply find_snapshot_iff.
    unfold to_snapshot_detail, snap_row. cbn [sr_snapshot_id sr_parent_snapshot_id sr_operation sr_added_files_count
      sr_deleted_files_count sr_committed_at]. rewrite H3, H4, H5, H6, H7. cbn [default fmap option_fmap option_map].
    assert (1 <= sn_snapshot_id row /\ in_i64 (sn_snapshot_id row) = true) as [Hid1 Hid2].
    { unfold log_of in Hrow. destruct (find_live d1 name); [|by apply not_elem_of_nil in Hrow].
      apply list_elem_of_filter in Hrow as [_ Hrow]. split; [|by apply (in_snapshot_range _ I1)].
      by apply (proj2 (se_db _ _ (proj1 S'))). }
    rewrite !u64_in_i64 by (done || lia). done.
  - intros name' n Hn' Hne. destruct (get_snapshot_handler name' n w' d1 Hn' S') as (w2 & -> & _).
    destruct (get_snapshot_handler name' n w d Hn' S) as (w3 & -> & _). cbn [fst]. unfold snapshot_answer, find_snapshot. rewrite Hlog.
    case_decide as Hd; [|by rewrite app_nil_r]. subst name'. rewrite filter_app, filter_cons, decide_False, filter_nil, app_nil_r; [done|].
    destruct Hne as [?|Hne]; [done|]. congruence.
Qed.

(** C21: what "the latest snapshot" (0 in a request) is after a commit: while no
    transaction was committed it is the new snapshot; once the counter of the
    transaction manager has moved it is the snapshot whose number is the
    counter. While the counter is below the id of the new snapshot, the commit
    does not show: the answer is the one of before the commit. *)
Theorem latest_read_after_commit name parent op parts keys w d r w' :
  nul_free name -> serving w d ->
  commit_snapshot self name parent op parts keys w = (Ret r, w') -> cr_success r = true ->
  let latest := latest_committed_snapshot_ (w_mvcc w) in
  (latest = 0 -> (get_partitions self name 0 w').1 = (get_partitions self name (cr_snapshot_id r) w').1)
  /\ (latest <> 0 -> (get_partitions self name 0 w').1 = (get_partitions self name latest w').1)
  /\ (latest <> 0 -> latest < cr_snapshot_id r -> (get_partitions self name 0 w').1 = (get_partitions self name 0 w).1).
Proof.
  intros Hn S E Hok latest. destruct (commit_run self name parent op parts keys w d r w' Hn S E) as (d' & now1 & now2 & S' & Em & H & _).
  unfold verdict in H. destruct (commit_outcome _ _ _ _ _ _ _ _ _) as [[n d1]|] eqn:Eo; [|destruct H as ([? _] & _); congruence].
  destruct H as [-> ->]. cbn [cr_snapshot_id]. pose proof Eo as Eo'. apply commit_outcome_cases in Eo' as (t & Hl & Ht & -> & -> & Ec).
  assert (1 <= sq_snapshots (seqs (abs (w_pg w)))) by apply S. split; [|split].
  - intros Hz. rewrite !(get_partitions_result self _ _ w' d1) by done. rewrite (read_snapshot_given _ _ _ (sq_snapshots _)) by lia.
    unfold read_snapshot. rewrite Em. fold latest. rewrite Hz, Hn. cbn. subst name.
    destruct (commit_current now1 now2 _ t _ op parts keys d d1 Hl Ec) as [->|?]; [done|lia].
  - intros Hz. rewrite !(get_partitions_result self _ _ w' d1) by done. rewrite (read_snapshot_given _ _ _ latest) by done.
    unfold read_snapshot. rewrite Em. fold latest. cbn. by rewrite (proj2 (Z.eqb_neq latest 0)).
  - intros Hz Hlt. rewrite (get_partitions_result self _ _ w' d1), (get_partitions_result self _ _ w d) by done.
    unfold read_snapshot. rewrite Em. fold latest. cbn. rewrite (proj2 (Z.eqb_neq latest 0)) by done.
    f_equal. eapply commit_kept; [apply (se_db _ _ (proj1 S))|exact Eo|by right].
Qed.
End handlers.

(** ** Witnesses *)

#[local] Existing Instance reliable_service.

Lemma snapshot_log_correct_witness :
  (exists w', GetSnapshot "orders" 2 demo = (Ret (snapshot_answer demo_db "orders" 2), w'))
  /\ (snapshot_answer demo_db "orders" 2).1 = StatusOK /\ (snapshot_answer demo_db "orders" 7).1 = NOT_FOUND "Snapshot not found"
  /\ exists rows w', listing demo_db "orders" 1 rows
       /\ ListSnapshots "orders" 1 demo = (Ret (StatusOK, to_snapshot_detail <$> rows), w').
Proof.
  destruct (snapshot_log_correct "orders" demo demo_db eq_refl demo_serving) as [H1 H2]. split; [|split; [|split]].
  - destruct (H1 2) as (w' & E & _). exists w'. exact E.
  - vm_compute. reflexivity.
  - vm_compute. reflexivity.
  - destruct (H2 1 eq_refl) as (rows & w' & H & E & _). exists rows, w'. split; [exact H|exact E].
Defined.

Lemma commit_recorded_witness :
  (exists now, (GetSnapshot "orders" 3 demo_after).1 = Ret (StatusOK, mkSnapshotDetail 3 2 "append" 1 1 (pg_ts_out now)))
  /\ (GetSnapshot "orders" 2 demo_after).1 = (GetSnapshot "orders" 2 demo).1.
Proof.
  destruct (commit_recorded 0%nat "orders" 2 "append" [demo_row "d"] ["b"] demo demo_db (mkCommitResult true 3 "") demo_after
    eq_refl demo_serving eq_refl demo_commit eq_refl) as [H1 H2].
  split; [exact H1|]. apply H2; [reflexivity|right; discriminate].
Defined.

(** The server after a transaction was begun and committed, and after a commit
    of a snapshot. *)
Definition demo_counted : @World reliable_service :=
  (CommitTransaction [false] 1 (BeginTransaction "client" SNAPSHOT demo).2).2.
Definition demo_counted_db : Db := Eval vm_compute in committed (abs (w_pg demo_counted)).
Definition demo_counted_after : @World reliable_service :=
  (commit_snapshot 0%nat "orders" 2 "append" [demo_row "d"] ["b"] demo_counted).2.

Lemma demo_counted_serving : serving demo_counted demo_counted_db.
Proof.
  assert (committed (abs (w_pg demo_counted)) = demo_counted_db) as <- by (vm_compute; reflexivity).
  apply serving_checked; [vm_compute; reflexivity| |vm_compute; reflexivity].
  exists 2. split; [lia|]. vm_compute. reflexivity.
Qed.

(** One transaction was committed: the latest read is at snapshot 1. *)
Lemma latest_read_after_commit_witness :
  ((get_partitions 0%nat "orders" 0 demo_after).1 = (get_partitions 0%nat "orders" 3 demo_after).1)
  /\ (get_partitions 0%nat "orders" 0 demo_counted_after).1 = (get_partitions 0%nat "orders" 1 demo_counted_after).1
  /\ (get_partitions 0%nat "orders" 0 demo_counted_after).1 = (get_partitions 0%nat "orders" 0 demo_counted).1.
Proof.
  assert (latest_committed_snapshot_ (w_mvcc demo) = 0) as H0 by (vm_compute; reflexivity).
  assert (latest_committed_snapshot_ (w_mvcc demo_counted) = 1) as H1 by (vm_compute; reflexivity).
  assert (commit_snapshot 0%nat "orders" 2 "append" [demo_row "d"] ["b"] demo_counted
    = (Ret (mkCommitResult true 3 ""), demo_counted_after)) as E by (apply run_pair; [vm_compute; reflexivity|reflexivity]).
  split.
  - destruct (latest_read_after_commit 0%nat "orders" 2 "append" [demo_row "d"] ["b"] demo demo_db (mkCommitResult true 3 "")
      demo_after eq_refl demo_serving demo_commit eq_refl) as [H _]. exact (H H0).
  - destruct (latest_read_after_commit 0%nat "orders" 2 "append" [demo_row "d"] ["b"] demo_counted demo_counted_db
      (mkCommitResult true 3 "") demo_counted_after eq_refl demo_counted_serving E eq_refl) as [_ [H2 H3]].
    rewrite H1 in H2, H3. split; [apply H2; discriminate|]. apply H3; [discriminate|reflexivity].
Defined.
