(* ===== verification/Listing.v ===== *)
(** * The list of tables (PgClient::list_tables and its handler)

    What [ListTables] answers, and that its offsets page through the catalog. *)
From S2P Require Import Prelude Cxx Sql Database PgService DbFacts RefServer PgClient PgSpec PgWrites LruCache Mvcc World MetadataServer Serving Demo Transactions RegistrySpec ServerSpec CatalogSpec HandlerSpec Requests History.
From S2P Require CatalogManager.

(** ** The listing without SQL *)

(** Tables by increasing id. *)
Definition table_before (t u : table_rec) : Prop := tb_table_id t <= tb_table_id u.
#[export] Instance table_before_dec t u : Decision (table_before t u).
Proof. unfold table_before. apply _. Defined.

#[export] Instance table_before_total : Total table_before.
Proof. intros t u. unfold table_before. lia. Qed.
#[export] Instance table_before_trans : Transitive table_before.
Proof. intros t u v. unfold table_before. lia. Qed.

Definition not_deleted (t : table_rec) : bool := bool_decide (tb_is_deleted t = Some false).

Definition live_tables (d : Db) : list table_rec :=
  merge_sort table_before (filter (fun t => not_deleted t) (db_tables d)).

Lemma live_tables_elem d t : t ∈ live_tables d <-> t ∈ db_tables d /\ tb_is_deleted t = Some false.
Proof.
  unfold live_tables. rewrite merge_sort_Permutation, list_elem_of_filter. unfold not_deleted.
  rewrite Is_true_true, bool_decide_eq_true. tauto.
Qed.

(** A name is listed exactly when its table can be found, and once. *)
Lemma live_tables_found d name t :
  integrity d -> find_live d name = Some t <-> t ∈ live_tables d /\ tb_table_name t = name.
Proof. intros I. rewrite find_live_iff, live_tables_elem by done. tauto. Qed.

Lemma live_tables_names d : integrity d -> NoDup (tb_table_name <$> live_tables d).
Proof.
  intros I. unfold live_tables. rewrite merge_sort_Permutation. apply NoDup_fmap_filter, (in_table_names _ I).
Qed.

(** Pages of [n] rows, one after the other. *)
Lemma pages_join {A} (l : list A) (n k : nat) :
  mjoin ((fun i => take n (drop (i * n) l)) <$> seq 0 k) = take (k * n) l.
Proof.
  induction k as [|k IH]; [done|]. rewrite seq_S, fmap_app, join_app, IH. cbn [fmap list_fmap mjoin list_join].
  rewrite app_nil_r, Nat.mul_succ_l, take_take_drop. done.
Qed.

Section listing.
Context {P : PgService} `{!PgLaws P, !PgReliable P}.
Implicit Types (c : PGconn) (s : pg).

(** The number of tables a page token skips: none without a token, else the
    token as a bigint that is not negative. *)
Definition offset_text (token : string) : string := c_str (if String.eqb token "" then "0" else token).
Definition skipped (token : string) : option nat :=
  z ← pg_int_in (offset_text token); if in_i64 z && (0 <=? z) then Some (Z.to_nat z) else None.

Definition listed (d : Db) (page_size : Z) (token : string) : list table_rec :=
  match skipped token with
  | Some m => take (page_limit page_size 100) (drop m (live_tables d))
  | None => []
  end.

Lemma skipped_empty : skipped "" = Some 0%nat.
Proof. unfold skipped. change (offset_text "") with (to_string 0). by rewrite int_in_law. Qed.

Lemma skipped_number z : in_i64 z = true -> 0 <= z -> skipped (to_string z) = Some (Z.to_nat z).
Proof.
  intros Hz Hp. unfold skipped, offset_text. case_match eqn:E.
  - apply String.eqb_eq in E. pose proof (read_int_to_string z) as Hr. by rewrite E in Hr.
  - rewrite to_string_nul_free, int_in_law. cbn [mbind option_bind]. rewrite Hz. by replace (0 <=? z) with true by lia.
Qed.

Definition open_bound : bound table_rec :=
  BCmp (default (Col "" TText (fun _ => SNull) (fun _ _ => None)) (find_col "is_deleted")) CEq (SBool false).

Lemma holds_open t : holds open_bound t = not_deleted t.
Proof. unfold holds, not_deleted. by destruct t as [? ? ? ? ? ? ? ? ? [[]|]]. Qed.

Lemma arranged_tables d l :
  integrity d -> arranged (Some ("table_id", false)) open_bound (db_tables d) l -> l = live_tables d.
Proof.
  intros I Ha. unfold live_tables. rewrite (filter_ext_elem _ (fun t => holds open_bound t)) by (intros; by rewrite holds_open).
  apply (arranged_by_key tb_table_id table_before "table_id"); [done|by eexists|apply (in_table_ids _ I)|done].
Qed.

Lemma list_tables_spec c ns page_size token s d :
  in_i32 page_size = true -> ready c (abs s) d -> sessions (abs s) !! c = Some Idle ->
  exists s', list_tables c ns page_size token s = (inr (tab_row <$> listed d page_size token), s') /\ abs s' = abs s.
Proof.
  intros Hn Rd Hidle. pose proof (ready_integrity _ _ _ Rd) as I. unfold list_tables, listed, pbind.
  change (c_str (if String.eqb token "" then "0" else token)) with (offset_text token).
  pose proof (in_i32_i64 _ Hn) as Hn'.
  assert (forall now nx l, count_param (pg_env now nx) [l; offset_text token] (Some 2%nat)
    = match skipped token with Some m => Some (Some m) | None => None end) as Hoff.
  { intros now nx l. unfold count_param, skipped. cbn [param lookup list_lookup Nat.pred mbind option_bind pg_env se_int_in].
    destruct (pg_int_in (offset_text token)) as [z|]; cbn [mbind option_bind]; [|done]. by destruct (_ && _). }
  destruct (skipped token) as [m|].
  - sql_select table_rec Rd open_bound (Some (page_limit page_size 100)) (Some m) res s' l E Ea Hst Harr Hrows.
    { by apply limit_param. }
    { apply Hoff. }
    rewrite E. unfold tuples_ok. rewrite Hst, bool_decide_true by done. cbn [negb].
    apply arranged_tables in Harr as ->; [|done]. exists s'. split; [|done].
    rewrite (read_rows_ok table_row tab_row _ _ _ s' Hrows); [done|].
    intros i t Ht Hi. apply (table_row_reads d); [done| |done].
    cbn [take_opt drop_opt] in Ht. apply elem_of_take in Ht as (j & Ht & _). apply list_elem_of_lookup_2 in Ht.
    eapply elem_of_submseteq in Ht; [|apply sublist_submseteq, sublist_drop]. by apply live_tables_elem in Ht as [? _].
  - sql_fails Rd r s' q E Hst Hle Hq Ea.
    { intros now nx q dp _ _. apply (select_fails (R:=table_rec)); [done|right; right]. apply Hoff. }
    rewrite E. unfold tuples_ok. rewrite Hst. exists s'. split; [done|].
    rewrite Ea, (Hq eq_refl), fail_view_idle by done. apply set_seqs_same.
Qed.

(** ** The handler *)

Definition summary (t : table_rec) : TableSummary :=
  mkTableSummary (tb_table_name t) (u64 (default 0 (tb_current_snapshot_id t))) 0.

Lemma list_tables_handler ns page_size token w d :
  in_i32 page_size = true -> serving w d ->
  exists w', ListTables ns page_size token w
      = (Ret (StatusOK, mkListTablesResponse (summary <$> listed d page_size token) ""), w') /\ serving w' d.
Proof.
  intros Hn S. unfold ListTables, CatalogManager.list_tables.
  destruct (reads_then (fun c => list_tables c ns page_size token) ret id (fun a => a = tab_row <$> listed d page_size token) w d S)
    as (a & w' & E & S' & ->); [done| |].
  - intros c s Rd Hi. destruct (list_tables_spec c ns page_size token s d Hn Rd Hi) as (s' & E & Ea). by eexists _, s'.
  - exists w'. split; [|done].
    rewrite <- (with_connection_return (fun c => list_tables c ns page_size token)) in E.
    rewrite (bind_ret _ _ _ _ _ E). unfold id. by rewrite <- list_fmap_compose.
Qed.

(** C19: [ListTables] answers the live tables of the catalog, each found under
    its name and listed once, by increasing id; the page size limits them (100
    by default), the token is the number of tables to skip, and a token that is
    no such number is answered with an empty list; the namespace plays no part.
    A client that counts what it has received and sends the count as its token
    goes through the whole catalog. *)
Theorem list_tables_correct ns page_size token w d :
  in_i32 page_size = true -> serving w d ->
  (exists w', ListTables ns page_size token w
      = (Ret (StatusOK, mkListTablesResponse (summary <$> listed d page_size token) ""), w') /\ serving w' d)
  /\ StronglySorted table_before (live_tables d) /\ NoDup (tb_table_name <$> live_tables d)
  /\ (forall name t, find_live d name = Some t <-> t ∈ live_tables d /\ tb_table_name t = name)
  /\ listed d page_size "" = take (page_limit page_size 100) (live_tables d)
  /\ (forall k, in_i64 (Z.of_nat k * page_size) = true -> 0 < page_size ->
        mjoin ((fun i => listed d page_size (to_string (Z.of_nat i * page_size))) <$> seq 0 k)
        = take (k * Z.to_nat page_size) (live_tables d)).
Proof.
  intros Hn S. pose proof (serving_integrity _ _ S) as I. split; [by apply list_tables_handler|].
  split; [apply StronglySorted_merge_sort; apply _|].
  split; [by apply live_tables_names|]. split; [intros name t; by apply live_tables_found|].
  split; [unfold listed; by rewrite skipped_empty, drop_0|]. intros k Hk Hp. rewrite <- pages_join. f_equal.
  apply list_fmap_ext. intros j i Hi. apply lookup_seq in Hi as (E & Hj). cbn in E. subst j. unfold listed.
  assert (0 <= Z.of_nat i * page_size <= Z.of_nat k * page_size) as Hi by (split; [lia|apply Z.mul_le_mono_nonneg_r; lia]).
  rewrite skipped_number; [|clear -Hk Hi; unfold in_i64, i64_min, i64_max in *; lia|lia].
  unfold page_limit. replace (0 <? page_size) with true by lia. do 2 f_equal. lia.
Qed.
End listing.

(** ** Witness *)

#[local] Existing Instance reliable_service.

Lemma list_tables_correct_witness :
  (exists w', ListTables "ignored" 10 "" demo = (Ret (StatusOK, mkListTablesResponse [mkTableSummary "orders" 2 0] ""), w'))
  /\ (ListTables "" 10 "next" demo).1 = Ret (StatusOK, mkListTablesResponse [] "").
Proof.
  split; [|vm_compute; reflexivity].
  destruct (list_tables_correct "ignored" 10 "" demo demo_db eq_refl demo_serving) as [(w' & E & _) _].
  exists w'. exact E.
Defined.
