(* ===== verification/Faults.v ===== *)
(** * Commits on a database that fails

    What is left of the atomicity of [commit_snapshot] when statements are
    refused and connections are lost. While BEGIN goes through, a commit that
    is not answered with success has changed nothing. *)
From S2P Require Import Prelude Cxx Sql Database PgService DbFacts RefServer PgClient LruCache Mvcc World PartitionRegistry MetadataServer Serving Demo.
From S2P Require LockManager ConnectionPool.

(** ** Statements and the committed database *)

Section statements.
Context {P : PgService} `{!PgLaws P} (c : PGconn) (d : Db).

(** The other connections have no transaction. *)
Definition others_calm (a : PgAbs) : Prop :=
  forall c' x, sessions a !! c' = Some x -> c' <> c -> x = Idle \/ x = Broken.

(** [d] is committed and no transaction is open. *)
Definition calm (a : PgAbs) : Prop :=
  committed a = d /\ others_calm a /\ exists x, sessions a !! c = Some x /\ (x = Idle \/ x = Broken).

(** [d] is committed and [c] has a transaction, a spoilt one, or is lost. *)
Definition in_block (a : PgAbs) : Prop :=
  committed a = d /\ others_calm a
  /\ exists x, sessions a !! c = Some x /\ match x with Idle => False | InTx b _ | InFailedTx b => b = d | Broken => True end.

Lemma others_calm_set x a q : others_calm a -> others_calm (set_seqs q (set_session c x a)).
Proof. intros H c' y. cbn. intros Hy Hne. rewrite lookup_insert_ne in Hy by done. by apply (H c'). Qed.

Lemma calm_serial a : calm a -> serial c a.
Proof. intros (_ & Ho & x & Hx & Hc). split; [|done]. intros b w E. rewrite Hx in E. injection E as ->. by destruct Hc. Qed.
Lemma block_serial a : in_block a -> serial c a.
Proof. intros (Hd & Ho & x & Hx & Hc). split; [|done]. intros b w E. rewrite Hx in E. injection E as ->. congruence. Qed.

Lemma set_session_calm x a q : calm a -> x = Idle \/ x = Broken -> calm (set_seqs q (set_session c x a)).
Proof.
  intros (Hd & Ho & _) Hx. split; [done|]. split; [by apply others_calm_set|]. exists x. cbn. by rewrite lookup_insert_eq.
Qed.

Lemma set_session_block x a q :
  committed a = d -> others_calm a -> match x with Idle => False | InTx b _ | InFailedTx b => b = d | Broken => True end ->
  in_block (set_seqs q (set_session c x a)).
Proof. intros Hd Ho Hx. split; [done|]. split; [by apply others_calm_set|]. exists x. cbn. by rewrite lookup_insert_eq. Qed.

(** A call on a connection that is lost. *)
Lemma exec_ok_broken st ps a r a' : sessions a !! c = Some Broken -> ~ exec_ok pg_env c st ps a r a'.
Proof.
  intros E H. destruct H as [d0 now n r d' q _ V|d0 now n r q q' _ V|b r _ V|x x' d' r _ V Ht _].
  - unfold PgService.view in V. by rewrite E in V.
  - unfold PgService.view in V. by rewrite E in V.
  - by rewrite E in V.
  - rewrite E in V. injection V as <-. by destruct st.
Qed.

Lemma select_ok_calm st ps a r a' : is_select st = true -> calm a -> exec_ok pg_env c st ps a r a' -> calm a'.
Proof.
  intros Hs Ha H. destruct (Ha) as (Hd & Ho & x & Hx & [-> | ->]); [|by destruct (exec_ok_broken _ _ _ _ _ Hx H)].
  destruct H as [d0 now n r d' q _ V Hq _|d0 now n r q q' _ V _ _ _ _|b r _ V|y x' d' r Hn _ _ _].
  - unfold query_ok in Hq. rewrite Hs in Hq. destruct Hq as (_ & _ & _ & ->).
    unfold PgService.view in V. rewrite Hx in V. injection V as <-. unfold set_view. rewrite Hx.
    split; [done|]. split; [done|]. exists Idle. split; [done|by left].
  - unfold fail_view. rewrite Hx. split; [done|]. split; [done|]. exists Idle. split; [done|by left].
  - congruence.
  - by destruct st.
Qed.

Lemma query_ok_block st ps a r a' : is_query st = true -> in_block a -> exec_ok pg_env c st ps a r a' -> in_block a'.
Proof.
  intros Hq Ha H. destruct (Ha) as (Hd & Ho & x & Hx & Hb).
  destruct H as [d0 now n r d' q _ V Hok _|d0 now n r q q' _ V _ _ _ _|b r _ V|y x' d' r Hn _ _ _]; [| |done|congruence].
  - unfold PgService.view in V. rewrite Hx in V. destruct x as [|b w| |]; try done. unfold set_view. rewrite Hx.
    by apply (set_session_block (InTx b d')).
  - unfold PgService.view in V. rewrite Hx in V. destruct x as [|b w| |]; try done. unfold fail_view. rewrite Hx.
    by apply (set_session_block (InFailedTx b)).
Qed.

(** An invariant that losing the connection and failing to run a query keep. *)
Definition robust (I : PgAbs -> Prop) : Prop :=
  forall a, I a -> (forall q, I (set_seqs q (set_session c Broken a))) /\ forall q, I (set_seqs q (fail_view c a)).

Lemma calm_robust : robust calm.
Proof.
  intros a Ha. split; [intros q; apply set_session_calm; auto|]. intros q. destruct Ha as (Hd & Ho & x & Hx & [-> | ->]);
    unfold fail_view; rewrite Hx; (split; [done|]); (split; [done|]); eexists; (split; [done|auto]).
Qed.
Lemma block_robust : robust in_block.
Proof.
  intros a (Hd & Ho & x & Hx & Hb). split; [intros q; by apply set_session_block|].
  intros q. unfold fail_view. rewrite Hx. destruct x; try done; [by apply (set_session_block (InFailedTx base))| |];
    (split; [done|]); (split; [done|]); by eexists.
Qed.

Lemma query_keeps (I : PgAbs -> Prop) st ps a r a' :
  robust I -> is_query st = true -> I a ->
  (forall r1 a1, exec_ok pg_env c st ps a r1 a1 -> I a1) ->
  exec_ok pg_env c st ps a r a' \/ exec_fault pg_env c st ps a r a' -> I a'.
Proof.
  intros HR Hq Ha Hok [H|H]; [by eapply Hok|].
  destruct H as [r q _ _|r q _ _ _|r -> _|x r -> _ _ _|r r' a' Hr _]; try done.
  - by apply HR.
  - by apply HR.
  - apply (proj1 (HR _ (Hok _ _ Hr)) (seqs a')).
Qed.

(** A method that keeps an invariant of the database. *)
Definition keeps {A} (I : PgAbs -> Prop) (m : PgM A) : Prop := forall s r s', I (abs s) -> m s = (r, s') -> I (abs s').

Lemma keeps_bind {A B} I (m : PgM A) (k : A -> PgM B) : keeps I m -> (forall a, keeps I (k a)) -> keeps I (pbind m k).
Proof.
  intros Hm Hk s r s' Hs. unfold pbind. destruct (m s) as [[e|a] s1] eqn:E; [intros [= <- <-]; by eapply Hm|].
  apply Hk. by eapply Hm.
Qed.
Lemma keeps_pret {A} I (a : A) : keeps I (pret a).
Proof. by intros s r s' Hs [= <- <-]. Qed.
Lemma keeps_pthrow {A} I (x : cxx_exn + A) : keeps I (pthrow x).
Proof. by intros s r s' Hs [= <- <-]. Qed.

Lemma exec_params_run text ps (I : PgAbs -> Prop) st :
  parse_sql text = Some st -> (forall a, I a -> serial c a /\ is_Some (sessions a !! c)) ->
  (forall a r a', I a -> exec_ok pg_env c st ps a r a' \/ exec_fault pg_env c st ps a r a' -> I a') ->
  keeps I (exec_params c text ps).
Proof.
  intros Hp HI Hk s r s' Hs. unfold exec_params. destruct (PQexecParams c text ps s) as [x s1] eqn:E. intros [= <- <-].
  destruct (HI _ Hs) as [Hser Hc]. eapply Hk; [exact Hs|]. by eapply exec_params_law.
Qed.

Lemma keeps_select text ps st : parse_sql text = Some st -> is_select st = true -> keeps calm (exec_params c text ps).
Proof.
  intros Hp Hs. eapply exec_params_run; [done| |].
  - intros a Ha. split; [by apply calm_serial|]. destruct Ha as (_ & _ & x & Hx & _). by exists x.
  - intros a r a' Ha. apply query_keeps; [apply calm_robust|by destruct st|done|]. intros r1 a1. by apply select_ok_calm.
Qed.

Lemma keeps_query text ps st : parse_sql text = Some st -> is_query st = true -> keeps in_block (exec_params c text ps).
Proof.
  intros Hp Hs. eapply exec_params_run; [done| |].
  - intros a Ha. split; [by apply block_serial|]. destruct Ha as (_ & _ & x & Hx & _). by exists x.
  - intros a r a' Ha. apply query_keeps; [apply block_robust|done|done|]. intros r1 a1. by apply query_ok_block.
Qed.
End statements.

(** A method whose statements are known. *)
Ltac solve_keeps :=
  repeat first
    [ apply keeps_pret | apply keeps_pthrow
    | apply keeps_bind; [|intro]
    | eapply keeps_query; [vm_compute; reflexivity|reflexivity]
    | eapply keeps_select; [vm_compute; reflexivity|reflexivity]
    | case_match ].

(** ** The scope of a commit *)

Section commit.
Context {P : PgService} `{!PgLaws P} (self : tid) (d : Db).

(** From [I]: an exception leaves [d] committed, an answer [a] leaves [Q a]. *)
Definition triple {A} (I : PgAbs -> Prop) (m : M A) (Q : A -> PgAbs -> Prop) : Prop :=
  forall w r w', I (abs (w_pg w)) -> m w = (r, w') ->
    match r with
    | Ret a => Q a (abs (w_pg w'))
    | Throw _ => committed (abs (w_pg w')) = d
    | Wait | UB => True
    end.

Lemma triple_ret {A} I (a : A) (Q : A -> PgAbs -> Prop) : (forall x, I x -> Q a x) -> triple I (ret a) Q.
Proof. intros H w r w' Hw [= <- <-]. by apply H. Qed.

Lemma triple_bind {A B} I (m : M A) (k : A -> M B) Q R :
  triple I m Q -> (forall a, triple (Q a) (k a) R) -> triple I (bind m k) R.
Proof.
  intros Hm Hk w r w' Hw. unfold bind. destruct (m w) as [x w1] eqn:E. specialize (Hm w x w1 Hw E).
  destruct x; [by apply Hk|by intros [= <- <-]..].
Qed.

Lemma triple_on_pg {A} (I : PgAbs -> Prop) (m : PgM A) :
  (forall a, I a -> committed a = d) -> keeps I m -> triple I (on_pg m) (fun _ => I).
Proof.
  intros HI Hm w r w' Hw. unfold on_pg. destruct (m (w_pg w)) as [[e|a] s] eqn:E; intros [= <- <-]; cbn.
  - apply HI. by eapply Hm.
  - by eapply Hm.
Qed.

(** The answer of a commit that does not change the database. *)
Definition harmless (r : CommitResult) (a : PgAbs) : Prop := cr_success r = true \/ committed a = d.

(** ROLLBACK commits nothing, whatever its result. *)
Lemma rollback_keeps c s r s' :
  serial c (abs s) -> is_Some (sessions (abs s) !! c) -> PQexec c "ROLLBACK" s = (r, s') -> committed (abs s') = committed (abs s).
Proof.
  intros Hs [y Hy] E.
  assert (forall r1 a1, exec_ok pg_env c Rollback [] (abs s) r1 a1 -> committed a1 = committed (abs s)) as Hok.
  { intros r1 a1 H. destruct H as [? ? ? ? ? ? Hq|? ? ? ? ? ? Hq|? ? [Hq|Hq]|z x' d' r1 _ _ Ht _]; try done.
    destruct z; cbn in Ht; by simplify_eq. }
  destruct (exec_law c "ROLLBACK" Rollback s r s') as [H|H]; [reflexivity|done|by exists y|done|by eapply Hok|].
  destruct H as [r q _ _|r q Hq _ _|r Hq _|z r Hq _ _ _|r r' a' Hr _]; try done. exact (Hok _ _ Hr).
Qed.

Lemma roll_back_harmless c msg : triple (in_block c d) (roll_back c msg) harmless.
Proof.
  intros w r w' Hw. unfold roll_back, bind, on_pg, exec. destruct (PQexec c "ROLLBACK" (w_pg w)) as [x s] eqn:E.
  intros [= <- <-]. cbn. right. rewrite (rollback_keeps c (w_pg w) x s); [apply Hw|by apply (block_serial c d)| |done].
  destruct Hw as (_ & _ & y & Hy & _). by exists y.
Qed.

(** COMMIT, and what follows it, answers with success. *)
Lemma publish_harmless c name n : triple (in_block c d) (publish c name n) harmless.
Proof.
  unfold publish. eapply triple_bind; [apply triple_on_pg; [by intros a []|]|].
  { unfold update_table_snapshot. solve_keeps. }
  intros ok. destruct ok; cbn [negb]; [|apply roll_back_harmless].
  intros w r w' _. unfold invalidate_table_cache, bind, on_pg, exec, on_cache, ret. destruct (PQexec c "COMMIT" (w_pg w)) as [x s].
  destruct (invalidate_if (fun key => String.prefix (name +:+ ":") key) (w_cache (set_pg s w))) as [[k c']|]; cbn; intros [= <- <-]; [by left|done].
Qed.

Lemma insert_all_keeps c name n parts : keeps (in_block c d) (insert_all c name n parts).
Proof.
  induction parts as [|p parts IH]; [apply keeps_pret|]. cbn [insert_all].
  apply keeps_bind; [unfold insert_partition, get_table_id, int64_at; solve_keeps|]. intros ok. destruct (negb ok); [apply keeps_pret|done].
Qed.
Lemma delete_all_keeps c name n keys : keeps (in_block c d) (delete_all c name n keys).
Proof.
  induction keys as [|p keys IH]; [apply keeps_pret|]. cbn [delete_all].
  apply keeps_bind; [unfold mark_partition_deleted, get_table_id, int64_at; solve_keeps|]. intros ok. destruct (negb ok); [apply keeps_pret|done].
Qed.

Lemma apply_changes_harmless c name n parts keys : triple (in_block c d) (apply_changes c name n parts keys) harmless.
Proof.
  unfold apply_changes. eapply triple_bind; [apply triple_on_pg; [by intros a []|apply insert_all_keeps]|].
  intros [msg|]; [apply roll_back_harmless|].
  eapply triple_bind; [apply triple_on_pg; [by intros a []|apply delete_all_keeps]|].
  intros [msg|]; [apply roll_back_harmless|apply publish_harmless].
Qed.

(** The database begins a transaction on a connection that is idle. *)
Definition begins : Prop := forall c s r s',
  sessions (abs s) !! c = Some Idle -> PQexec c "BEGIN" s = (r, s') -> res_status r = PGRES_COMMAND_OK.

Lemma begin_block c : begins -> triple (calm c d) (on_pg (exec c "BEGIN")) (fun _ => in_block c d).
Proof.
  intros Hbegin w r w' Hw. unfold on_pg, exec. destruct (PQexec c "BEGIN" (w_pg w)) as [x s] eqn:E.
  intros [= <- <-]. cbn. destruct (Hw) as (Hd & Ho & y & Hy & Hb).
  destruct (exec_law c "BEGIN" Begin (w_pg w) x s) as [H|H]; [reflexivity|by apply (calm_serial c d)|by exists y|done| |].
  - destruct Hb as [-> | ->]; [|by destruct (exec_ok_broken _ _ _ _ _ _ Hy H)].
    inversion H as [? ? ? ? ? ? Hq|? ? ? ? ? ? Hq|b r1 _ Hz|z x' d' r1 _ Hz Ht _]; subst; try done; [congruence|].
    rewrite Hy in Hz. injection Hz as <-. injection Ht as <- <-.
    split; [done|]. split; [|exists (InTx (committed (abs (w_pg w))) (committed (abs (w_pg w)))); cbn; by rewrite lookup_insert_eq].
    intros c' z Hz Hne. cbn in Hz. rewrite lookup_insert_ne in Hz by done. by apply (Ho c').
  - assert (res_status x = PGRES_FATAL_ERROR) as Hf by by destruct H.
    destruct Hb as [-> | ->]; [specialize (Hbegin _ _ _ _ Hy E); congruence|].
    assert (forall a1, a1 = abs (w_pg w) -> in_block c d a1) as Hsame by (intros a1 ->; split; [done|]; split; [done|]; by eexists).
    destruct H as [r q _ _|r q Hq _ _|r Hq _|z r Hq _ _ _|r r' a' Hr _]; try done.
    + by apply set_session_block.
    + by apply Hsame.
    + by destruct (exec_ok_broken _ _ _ _ _ _ Hy Hr).
Qed.

Lemma commit_with_harmless c name parent op parts keys :
  begins -> triple (calm c d) (commit_with c name parent op parts keys) harmless.
Proof.
  intros Hbegin. unfold commit_with. eapply triple_bind; [apply triple_on_pg; [by intros a []|]|].
  { unfold get_current_snapshot, int64_at. solve_keeps. }
  intros cur. destruct (negb _).
  - apply triple_ret. intros a [Hd _]. by right.
  - eapply triple_bind; [by apply begin_block|]. intros u; cbn beta. eapply triple_bind; [apply triple_on_pg; [by intros a []|]|].
    { unfold insert_snapshot, get_table_id, int64_at. solve_keeps. }
    intros n. case_match; [apply roll_back_harmless|apply apply_changes_harmless].
Qed.

(** The scope of a guard does not change the database. *)
Lemma with_guard_inv {A} md name (body : M A) w r w' :
  with_guard md self name body w = (r, w') -> leaves r = true ->
  (w_pg w' = w_pg w /\ exists e, r = Throw e) \/ exists l w1, body (set_locks l w) = (r, w1) /\ w_pg w' = w_pg w1.
Proof.
  unfold with_guard. destruct (LockManager.acquire md self name (w_locks w)) as [l|l|e|]; try by intros [= <- <-].
  - destruct (body (set_locks l w)) as [x w1] eqn:E. intros Hr Hl. right. exists l, w1. rewrite E.
    destruct x; try (by injection Hr as <- <-); destruct (LockManager.release _ _ _ _); by injection Hr as <- <-.
  - intros [= <- <-] _. left. split; [done|by eexists].
Qed.

Lemma with_connection_inv {A} c rest (body : PGconn -> M A) w r w' :
  ConnectionPool.available_connections_ (w_pool w) = c :: rest -> sessions (abs (w_pg w)) !! c = Some Idle ->
  with_connection body w = (r, w') ->
  exists w0 w1, w_pg w0 = w_pg w /\ body c w0 = (r, w1) /\ w_pg w' = w_pg w1.
Proof.
  intros Ea Es. unfold with_connection, ConnectionPool.acquire, ConnectionPool.validate_connection. rewrite Ea.
  assert (PQstatus c (w_pg w) = CONNECTION_OK) as Hst.
  { destruct (PQstatus c (w_pg w)) eqn:E; [done|]. by apply (status_law c (w_pg w) Idle Es) in E. }
  rewrite bool_decide_eq_true_2 by done. cbn [ConnectionPool.conn_].
  set (w0 := set_pg _ _). destruct (body c w0) as [x w1] eqn:E. intros Hr. exists w0, w1. split; [done|]. rewrite E.
  by destruct x; injection Hr as <- <-.
Qed.

Lemma commit_snapshot_harmless name parent op parts keys w r w' :
  begins -> serving w d -> commit_snapshot self name parent op parts keys w = (r, w') ->
  match r with
  | Ret a => harmless a (abs (w_pg w'))
  | Throw _ => committed (abs (w_pg w')) = d
  | Wait | UB => True
  end.
Proof.
  intros Hbegin [S _] E. destruct (leaves r) eqn:Hl; [|by destruct r].
  apply with_guard_inv in E as [[Hw [e ->]]|(l & w1 & E & Hw)]; [rewrite Hw; apply S| |done].
  destruct (ConnectionPool.available_connections_ (w_pool w)) as [|c rest] eqn:Ea; [by destruct (se_some _ _ S)|].
  assert (sessions (abs (w_pg w)) !! c = Some Idle) as Hi by (apply (se_pool _ _ S); rewrite Ea; by left).
  destruct (with_connection_inv c rest _ (set_locks l w) _ _ Ea Hi E) as (w2 & w3 & H2 & E3 & H3). rewrite Hw, H3.
  cbn [w_pg set_locks] in H2. refine (commit_with_harmless c name parent op parts keys Hbegin w2 r w3 _ E3). rewrite H2.
  split; [apply S|]. split; [|exists Idle; split; [done|by left]]. intros c' x Hx _. by apply (se_idle _ _ S c').
Qed.

(** C9: while the database begins the transactions it is asked to begin, a
    commit that is not answered with success has changed nothing, whatever
    else fails: statements may be refused and the connection may be lost at
    any point, before or after a statement took effect. *)
Theorem refused_commit_harmless name parent op parts keys w r w' :
  begins -> serving w d -> commit_snapshot self name parent op parts keys w = (r, w') ->
  (leaves r = true /\ forall a, r = Ret a -> cr_success a = false) -> committed (abs (w_pg w')) = d.
Proof.
  intros Hb S E [Hl Hr]. pose proof (commit_snapshot_harmless _ _ _ _ _ _ _ _ Hb S E) as H.
  destruct r as [a| | |]; try done. destruct H as [H|H]; [|done]. specialize (Hr a eq_refl). congruence.
Qed.
End commit.

(** ** Runs *)

(** The server of Demo.v moved to a service with the given policy and faults. *)
Definition moved (policy : option stmt -> fault -> fault) (faults : list fault) : @World (ref_service policy) :=
  let s := w_pg demo : ref_state in
  mkWorld (mkRef (rf_abs s) (rf_clock s) (rf_next s) faults : @pg (ref_service policy))
    (w_pool demo) (w_locks demo) (w_mvcc demo) (w_cache demo) (w_now demo).

Lemma moved_serving policy faults : serving (moved policy faults) demo_db.
Proof.
  change demo_db with (committed (abs (w_pg (moved policy faults)))).
  apply serving_checked; [vm_compute; reflexivity| |vm_compute; reflexivity].
  exists 2. split; [lia|]. vm_compute. reflexivity.
Qed.

Definition but_begin (call : option stmt) (f : fault) : fault := if bool_decide (call = Some Begin) then Runs else f.

(** The connection is lost after a partition was inserted. *)
Definition lost_demo : @World (ref_service but_begin) :=
  moved but_begin [Runs; Runs; Runs; Runs; Runs; LostAfter].

Definition lost_answer : outcome CommitResult := Ret (mkCommitResult false 0 "Failed to insert partition: x").

Lemma lost_demo_begins : @begins (ref_service but_begin).
Proof.
  intros c s r s' Hs. cbn [PQexec ref_service]. unfold ref_exec.
  assert (parse_sql "BEGIN" = Some Begin) as -> by reflexivity.
  unfold next_fault, but_begin, ref_run. cbn in Hs. rewrite Hs, bool_decide_eq_true_2 by done. cbn. by intros [= <- _].
Qed.

Lemma refused_commit_harmless_witness :
  let w' := (commit_snapshot 0%nat "orders" 2 "append" [demo_row "x"] [] lost_demo).2 in
  (commit_snapshot 0%nat "orders" 2 "append" [demo_row "x"] [] lost_demo).1 = lost_answer
  /\ committed (abs (w_pg w')) = demo_db.
Proof.
  assert ((commit_snapshot 0%nat "orders" 2 "append" [demo_row "x"] [] lost_demo).1 = lost_answer) as E by (vm_compute; reflexivity).
  split; [exact E|]. pose proof (ref_laws but_begin) as L.
  apply (refused_commit_harmless 0%nat demo_db "orders" 2 "append" [demo_row "x"] [] lost_demo lost_answer).
  - exact lost_demo_begins.
  - apply moved_serving.
  - apply run_pair; [exact E|reflexivity].
  - split; [reflexivity|]. by intros a [= <-].
Defined.
