(* ===== verification/Unchecked.v ===== *)
(** * Results that a commit does not check

    [commit_snapshot] ignores the results of BEGIN and COMMIT, and
    [get_current_snapshot] reads a failed query as "no snapshot". What follows,
    on a database that runs its queries but refuses to begin transactions, on
    one that refuses to commit them, and when the query fails. *)
From S2P Require Import Prelude Cxx Sql Database PgService DbFacts RefServer PgClient PgSpec PgWrites Changes LruCache Mvcc World PartitionRegistry MetadataServer Serving Demo Transactions RegistrySpec Faults.
From S2P Require LockManager ConnectionPool.

Section unchecked.
Context {P : PgService} `{!PgLaws P}.
Implicit Types (c : PGconn) (s : pg) (d : Db).

(** A COMMIT that is refused. *)
Definition commit_refused : Prop := forall c s r s',
  PQexec c "COMMIT" s = (r, s') -> res_status r = PGRES_FATAL_ERROR /\ committed (abs s') = committed (abs s).

(** A BEGIN that is refused. *)
Definition begin_refused : Prop := forall c s r s',
  PQexec c "BEGIN" s = (r, s') -> res_status r = PGRES_FATAL_ERROR /\ abs s' = abs s.

(** The scope of a commit from a server at rest. *)
Lemma commit_scope self name parent op parts keys (w : World) d (Q : CommitResult -> Db -> Prop) :
  serving w d ->
  (forall c w1, ready c (abs (w_pg w1)) d -> sessions (abs (w_pg w1)) !! c = Some Idle -> w_pg w1 = w_pg w ->
     cache_ok d (w_cache w1) ->
     exists a w2, commit_with c name parent op parts keys w1 = (Ret a, w2) /\ w_locks w2 = w_locks w1
       /\ Q a (committed (abs (w_pg w2)))) ->
  exists a w', commit_snapshot self name parent op parts keys w = (Ret a, w') /\ Q a (committed (abs (w_pg w'))).
Proof.
  intros [S U] Hbody. unfold commit_snapshot.
  destruct (with_guard_run self LockManager.Ex name w (U name)) as (l & _ & Hrun).
  destruct (ConnectionPool.available_connections_ (w_pool w)) as [|c rest] eqn:Ea; [by destruct (se_some _ _ S)|].
  assert (c ∈ ConnectionPool.available_connections_ (w_pool w)) as Hc by (rewrite Ea; left).
  pose proof (se_pool _ _ S c Hc) as Es.
  destruct (Hbody c (set_pool (ConnectionPool.set_available rest (w_pool w)) (set_locks l w))) as (a & w2 & E & El & HQ);
    [by apply (settled_ready no_table w)|done|done|apply S|].
  pose proof (with_connection_run c rest (set_locks l w) Ea Es _ (fun conn => commit_with conn name parent op parts keys) (Ret a) w2 E eq_refl) as Ec.
  edestruct Hrun as (l' & _ & Eg); [exact Ec|done| |].
  { cbn [w_locks set_pool]. rewrite El. reflexivity. }
  exists a. eexists. split; [exact Eg|exact HQ].
Qed.

(** ** COMMIT *)

Section commit.
Context `{!PgRuns P} (Hbegin : begins) (Hcommit : commit_refused).

(** BEGIN goes through. *)
Lemma begin_goes c s d :
  ready c (abs s) d -> sessions (abs s) !! c = Some Idle ->
  exists r s', exec c "BEGIN" s = (inr r, s') /\ in_tx c (abs s') d (Some d) /\ seqs (abs s') = seqs (abs s).
Proof.
  intros Rd E. unfold exec. destruct (PQexec c "BEGIN" s) as [r s'] eqn:Ex. exists r, s'. split; [done|].
  pose proof (Hbegin c s r s' E Ex) as Hst.
  destruct (exec_law c "BEGIN" Begin s r s') as [H|H]; [reflexivity|by eapply ready_serial|by eexists|done| |].
  - apply (control_effect c Begin _ _ _ Idle _ _ eq_refl E eq_refl) in H. by destruct (begun c (abs s) (abs s') d Rd E H) as (? & _ & ?).
  - exfalso. assert (res_status r = PGRES_FATAL_ERROR) as Hf by by destruct H. congruence.
Qed.

Lemma publish_unchecked c name n s d w w1 :
  nul_free name -> in_tx c (abs s) d (Some w) -> cache_ok d (w_cache w1) ->
  (forall now, is_Some (pointer_update now name n w)) ->
  exists s' k, publish c name n (set_pg s w1) = (Ret (mkCommitResult true n ""), set_cache k (set_pg s' w1))
    /\ committed (abs s') = d.
Proof.
  intros Hn T Hca Hp. unfold publish.
  destruct (update_table_snapshot_spec c name n s w (in_tx_ready _ _ _ _ T)) as (ok & s6 & now & E6 & Hok & Hw6).
  destruct (wrote_tx _ _ _ _ _ _ T Hw6) as [T6 _]. rewrite Hn in *. destruct (Hp now) as [d' Ed]. rewrite Ed in *.
  rewrite bool_decide_eq_true_2 in Hok by (by eexists). subst ok. rewrite (step_pg _ _ _ _ _ _ E6). cbn [negb].
  destruct (PQexec c "COMMIT" s6) as [r7 s7] eqn:E7. destruct (Hcommit c s6 r7 s7 E7) as [_ Hcm].
  rewrite (step_pg (exec c "COMMIT") _ s6 r7 s7) by (unfold exec; by rewrite E7).
  destruct (invalidate_cache_ok no_table name d d (w_cache w1) Hca) as (removed & k & Einv & _); [by intros n' []|done|].
  exists s7, k. split; [|rewrite Hcm; apply T6].
  unfold invalidate_table_cache, bind, on_cache. cbn [w_cache set_pg]. by rewrite Einv.
Qed.

Lemma apply_changes_unchecked c n t parts keys s d w w1 (m := sq_partitions (seqs (abs s))) :
  nul_free (tb_table_name t) -> find_live w (tb_table_name t) = Some t ->
  in_tx c (abs s) d (Some w) -> cache_ok d (w_cache w1) ->
  (forall now, is_Some (changes now n m t parts keys w)) ->
  exists s' k, apply_changes c (tb_table_name t) n parts keys (set_pg s w1)
      = (Ret (mkCommitResult true n ""), set_cache k (set_pg s' w1)) /\ committed (abs s') = d.
Proof.
  intros Hn Hl T Hca Hch. unfold apply_changes, changes in *. rewrite <- Hn in Hl.
  destruct (insert_all_spec c _ n t parts s d w T Hl) as (o4 & s4 & E4 & T4 & Ho4 & _). fold m in T4, Ho4.
  rewrite (step_pg _ _ _ _ _ _ E4). destruct (insert_parts m (tb_table_id t) n parts w) as [w4|] eqn:E4w;
    [|by destruct (Hch 0)]. assert (o4 = None) as -> by (apply Ho4; by eexists).
  assert (find_live w4 (c_str (tb_table_name t)) = Some t) as Hl4.
  { rewrite <- Hl. apply find_live_tables. by apply insert_parts_shape in E4w as (rs & _ & ->). }
  destruct (delete_all_spec c _ n t keys s4 d w4 T4 Hl4) as (o5 & s5 & E5 & T5 & Ho5 & _).
  rewrite (step_pg _ _ _ _ _ _ E5). cbn [mbind option_bind] in *.
  destruct (delete_parts (tb_table_id t) keys n w4) as [w5|] eqn:E5w; [|by destruct (Hch 0)].
  assert (o5 = None) as -> by (apply Ho5; by eexists). by apply (publish_unchecked c _ n s5 d w5).
Qed.

Lemma commit_with_unchecked c t op parts keys w1 d (q := seqs (abs (w_pg w1))) (name := tb_table_name t) :
  nul_free name -> find_live d name = Some t -> ready c (abs (w_pg w1)) d -> sessions (abs (w_pg w1)) !! c = Some Idle ->
  cache_ok d (w_cache w1) ->
  (forall now1 now2, is_Some (commit_change now1 now2 (sq_snapshots q) (sq_partitions q) t (current_snapshot d name) op parts keys d)) ->
  exists w2, commit_with c name (current_snapshot d name) op parts keys w1 = (Ret (mkCommitResult true (sq_snapshots q) ""), w2)
    /\ w_locks w2 = w_locks w1 /\ committed (abs (w_pg w2)) = d.
Proof.
  intros Hn Hl Rd Hi Hca Hch. unfold commit_with. set (s0 := w_pg w1) in *.
  destruct (get_current_snapshot_spec c name s0 d Rd) as (s1 & E1 & Ea1). rewrite Hn in E1.
  rewrite (bind_ret _ _ _ _ _ (on_pg_ret _ _ _ _ E1)). unfold validate_parent_snapshot. rewrite Z.eqb_refl. cbn [negb].
  rewrite <- Ea1 in Rd, Hi. destruct (begin_goes c s1 d Rd Hi) as (r2 & s2 & E2 & T2 & Q2).
  rewrite (step_pg (exec c "BEGIN") _ _ _ _ _ E2). rewrite Ea1 in Q2.
  destruct (insert_snapshot_spec c name (current_snapshot d name) op (i32 (Z.of_nat (length parts)))
    (i32 (Z.of_nat (length keys))) s2 d (in_tx_ready _ _ _ _ T2)) as (z & s3 & now1 & E3 & H3). rewrite Hn, Hl, Q2 in H3.
  rewrite (step_pg _ _ _ _ _ _ E3). destruct H3 as (Hz & Hw3 & Hq3). destruct (wrote_tx _ _ _ _ _ _ T2 Hw3) as [T3 _].
  fold q in Hz, Hq3. specialize (Hch now1). setoid_rewrite commit_change_stages in Hch. fold q in T3.
  destruct (snapshot_insert _ _ _ _ _ _ _ _) as [w|] eqn:Ew; [|by destruct (Hch 0)]. subst z. cbn [mbind option_bind] in Hch.
  assert (1 <= sq_snapshots q) by (unfold q; fold s0; rewrite <- Ea1; apply Rd).
  replace (sq_snapshots q =? 0) with false by lia.
  destruct (apply_changes_unchecked c (sq_snapshots q) t parts keys s3 d w w1) as (s' & k & E & Hd); try done.
  - rewrite <- Hl. apply find_live_tables. by eapply snapshot_insert_tables.
  - rewrite Hq3 by (by eexists). exact Hch.
  - unfold name. rewrite E. eexists. split; [done|]. split; [done|exact Hd].
Qed.
End commit.

(** ** BEGIN *)

Section begin.
Context `{!PgRuns P} (Hbegin : begin_refused).

(** Outside of a transaction a statement is committed at once. *)
Lemma wrote_idle c s s' (w : Db) od :
  ready c (abs s) w -> sessions (abs s) !! c = Some Idle -> wrote c s s' od ->
  ready c (abs s') (default w od) /\ sessions (abs s') !! c = Some Idle.
Proof.
  intros Rd Hi. destruct od as [w'|]; cbn.
  - intros (Rd' & q & _ & Ea). split; [exact Rd'|]. rewrite Ea. unfold set_view. by rewrite Hi.
  - intros (q & Hle & ->). rewrite fail_view_idle by done. split; [|done].
    pose proof (ready_write c (abs s) w w q Rd) as H. rewrite set_view_same in H by apply Rd. apply H; [|done].
    eapply db_ok_mono; [done|apply Rd].
Qed.

Lemma idle_committed c a (w : Db) : ready c a w -> sessions a !! c = Some Idle -> committed a = w.
Proof. intros Rd Hi. pose proof (rd_view _ _ _ Rd) as V. unfold PgService.view in V. rewrite Hi in V. by injection V. Qed.

Definition not_inserted (part : PartitionRow) : string := "Failed to insert partition: " +:+ pr_partition_key part.

(** The loop stops at a partition that cannot be stored; the ones before it
    stay. *)
Lemma insert_all_autocommit c name snap t good bad rest s (w w' : Db) :
  ready c (abs s) w -> sessions (abs s) !! c = Some Idle -> find_live w (c_str name) = Some t ->
  insert_parts (sq_partitions (seqs (abs s))) (tb_table_id t) snap good w = Some w' ->
  (forall k, new_part k (tb_table_id t) snap bad = None) ->
  exists s', insert_all c name snap (good ++ bad :: rest) s = (inr (Some (not_inserted bad)), s')
    /\ ready c (abs s') w' /\ sessions (abs s') !! c = Some Idle.
Proof.
  intros Rd Hi Hl Hgood Hbad. revert s w Rd Hi Hl Hgood. induction good as [|part good IH]; intros s w Rd Hi Hl Hgood;
    cbn [app insert_all insert_parts] in *; unfold pbind at 1.
  - injection Hgood as ->. destruct (insert_partition_spec c name snap bad s w' Rd) as (ok & s1 & -> & H1).
    rewrite Hl in H1. unfold partition_insert in H1. rewrite Hbad in H1. destruct H1 as (-> & Hw & _). exists s1. split; [done|].
    by apply (wrote_idle c s s1 w' None).
  - destruct (insert_partition_spec c name snap part s w Rd) as (ok & s1 & -> & H1). rewrite Hl in H1.
    destruct H1 as (Hok & Hw & Hq). destruct (wrote_idle _ _ _ _ _ Rd Hi Hw) as [Rd1 Hi1].
    destruct (partition_insert _ _ _ _ _) as [w1|] eqn:Ew; [|done]. cbn [mbind option_bind default] in *.
    rewrite bool_decide_eq_true_2 in Hok by (by eexists). subst ok. cbn [negb].
    apply (IH s1 w1 Rd1 Hi1); [|by rewrite Hq by (by eexists)].
    rewrite (find_live_tables w); [done|]. by eapply partition_insert_tables.
Qed.

Lemma begin_fails c s : exists r s', exec c "BEGIN" s = (inr r, s') /\ abs s' = abs s.
Proof.
  unfold exec. destruct (PQexec c "BEGIN" s) as [r s'] eqn:E. exists r, s'. split; [done|]. by destruct (Hbegin c s r s' E).
Qed.

Lemma roll_back_idle c msg s (w : Db) w1 :
  ready c (abs s) w -> sessions (abs s) !! c = Some Idle ->
  exists s', roll_back c msg (set_pg s w1) = (Ret (mkCommitResult false 0 msg), set_pg s' w1) /\ committed (abs s') = w.
Proof.
  intros Rd Hi. unfold roll_back. destruct (PQexec c "ROLLBACK" s) as [r s'] eqn:E. exists s'.
  rewrite (step_pg (exec c "ROLLBACK") _ s r s') by (unfold exec; by rewrite E). split; [done|].
  rewrite (rollback_keeps c s r s'); [by eapply idle_committed|by eapply ready_serial|by eexists|done].
Qed.

(** What stays of a commit that is answered with a failure: its snapshot and
    the partitions before the one that could not be stored. *)
Definition left_behind (n : Z) (rs : list partition_rec) (d d' : Db) : Prop :=
  db_partitions d' = db_partitions d ++ rs /\ db_tables d' = db_tables d
  /\ exists row, db_snapshots d' = db_snapshots d ++ [row] /\ sn_snapshot_id row = n.

Lemma commit_with_autocommit c t op good bad rest keys rs w1 d (q := seqs (abs (w_pg w1))) (name := tb_table_name t) :
  nul_free name -> find_live d name = Some t -> ready c (abs (w_pg w1)) d -> sessions (abs (w_pg w1)) !! c = Some Idle ->
  in_i64 (current_snapshot d name) = true -> in_i64 (sq_snapshots q) = true ->
  in_i64 (sq_partitions q + Z.of_nat (length good)) = true ->
  new_parts (sq_partitions q) (tb_table_id t) (sq_snapshots q) good = Some rs ->
  (forall k, new_part k (tb_table_id t) (sq_snapshots q) bad = None) ->
  exists w2, commit_with c name (current_snapshot d name) op (good ++ bad :: rest) keys w1
      = (Ret (mkCommitResult false 0 (not_inserted bad)), w2)
    /\ w_locks w2 = w_locks w1 /\ left_behind (sq_snapshots q) rs d (committed (abs (w_pg w2))).
Proof.
  intros Hn Hl Rd Hi Hp Hsn Hpn Hrs Hbad. unfold commit_with. set (s0 := w_pg w1) in *.
  destruct (get_current_snapshot_spec c name s0 d Rd) as (s1 & E1 & Ea1). rewrite Hn in E1.
  rewrite (bind_ret _ _ _ _ _ (on_pg_ret _ _ _ _ E1)). unfold validate_parent_snapshot. rewrite Z.eqb_refl. cbn [negb].
  destruct (begin_fails c s1) as (r2 & s2 & E2 & Ea2). rewrite (step_pg (exec c "BEGIN") _ _ _ _ _ E2).
  assert (abs s2 = abs s0) as Ea by congruence. rewrite <- Ea in Rd, Hi.
  set (added := i32 (Z.of_nat (length (good ++ bad :: rest)))). set (deleted := i32 (Z.of_nat (length keys))).
  destruct (insert_snapshot_spec c name (current_snapshot d name) op added deleted s2 d Rd) as (z & s3 & now1 & E3 & H3).
  rewrite Hn, Hl, Ea in H3. fold q in H3. rewrite (step_pg _ _ _ _ _ _ E3). destruct H3 as (Hz & Hw3 & Hq3).
  assert (seqs (abs s2) = q) as Eq by by rewrite Ea. pose proof (rd_ok _ _ _ Rd) as Hok. pose proof (rd_seqs _ _ _ Rd) as Hsq.
  rewrite Eq in Hok, Hsq.
  destruct (inserts_succeed now1 q t (current_snapshot d name) (c_str op) added deleted good d rs) as (d1 & d2 & F1 & F2 & _);
    try done; [apply in_i32_i32..|]. rewrite F1 in Hz, Hw3, Hq3. subst z. specialize (Hq3 ltac:(by eexists)).
  replace (sq_snapshots q =? 0) with false by (destruct Hsq as (_ & _ & ? & _); lia).
  destruct (wrote_idle _ _ _ _ _ Rd Hi Hw3) as [Rd3 Hi3]. cbn in Rd3.
  destruct (insert_all_autocommit c name (sq_snapshots q) t good bad rest s3 d1 d2 Rd3 Hi3) as (s4 & E4 & Rd4 & Hi4); [| |done|].
  { rewrite Hn, <- Hl. apply find_live_tables. by eapply snapshot_insert_tables. }
  { by rewrite Hq3. }
  unfold apply_changes. rewrite (step_pg _ _ _ _ _ _ E4).
  destruct (roll_back_idle c (not_inserted bad) s4 d2 w1 Rd4 Hi4) as (s5 & -> & Hc5). eexists. split; [done|]. split; [done|].
  cbn [w_pg set_pg]. rewrite Hc5. unfold snapshot_insert in F1. case_match; [|done]. apply check_some in F1 as [-> _].
  destruct (insert_parts_shape _ _ _ _ _ _ F2) as (rs' & Hrs' & ->). rewrite Hrs in Hrs'. injection Hrs' as <-.
  split; [done|]. split; [done|]. eexists. split; [reflexivity|done].
Qed.

(** A reader of that snapshot, or of a later one, finds the partitions. *)
Lemma left_behind_visible n tid m good rs d d' (snap : Z) :
  new_parts m tid n good = Some rs -> left_behind n rs d d' -> n <= snap ->
  forall r, r ∈ rs -> r ∈ parts_at d' tid snap.
Proof.
  intros Hrs (Hp & _) Hs r Hr. apply parts_at_elem. split; [rewrite Hp; apply elem_of_app; by right|].
  destruct (new_parts_elem _ _ _ _ _ r Hrs Hr) as (H1 & H2 & H3 & _). unfold visible. rewrite H1, H2, H3.
  rewrite !bool_decide_eq_true_2 by done. by rewrite (proj2 (Z.leb_le _ _) Hs).
Qed.
End begin.

(** ** The query of the current snapshot *)

(** The method does not answer with a conflict over the parent 0. *)
Definition no_conflict (m : M CommitResult) : Prop :=
  forall w r w', m w = (Ret r, w') -> forall current, cr_error_msg r <> conflict_msg 0 current.

Lemma no_conflict_bind {A} (m : M A) (k : A -> M CommitResult) : (forall a, no_conflict (k a)) -> no_conflict (bind m k).
Proof. intros Hk w r w'. unfold bind. destruct (m w) as [[a| | |] w1]; [apply Hk|done..]. Qed.

(** All failures but the conflict start with another letter. *)
Lemma no_conflict_failed c msg : no_conflict (roll_back c ("Failed " +:+ msg)).
Proof. apply no_conflict_bind. intros [] w r w' [= <- _] current. done. Qed.

Lemma insert_all_failed c name n parts s msg s' :
  insert_all c name n parts s = (inr (Some msg), s') -> exists m, msg = "Failed " +:+ m.
Proof.
  revert s. induction parts as [|p parts IH]; intros s; [done|]. cbn [insert_all]. unfold pbind at 1.
  destruct (insert_partition c name n p s) as [[e|[]] s1]; cbn [negb]; [done|apply IH|]. intros [= <- _]. by eexists.
Qed.
Lemma delete_all_failed c name n keys s msg s' :
  delete_all c name n keys s = (inr (Some msg), s') -> exists m, msg = "Failed " +:+ m.
Proof.
  revert s. induction keys as [|p keys IH]; intros s; [done|]. cbn [delete_all]. unfold pbind at 1.
  destruct (mark_partition_deleted c name p n s) as [[e|[]] s1]; cbn [negb]; [done|apply IH|]. intros [= <- _]. by eexists.
Qed.

(** A loop that may fail, and what follows it. *)
Lemma no_conflict_loop c (m : PgM (option string)) (k : M CommitResult) :
  (forall s msg s', m s = (inr (Some msg), s') -> exists x, msg = "Failed " +:+ x) -> no_conflict k ->
  no_conflict (bind (on_pg m) (fun failed => match failed with Some msg => roll_back c msg | None => k end)).
Proof.
  intros Hm Hk w r w'. unfold bind at 1, on_pg. destruct (m (w_pg w)) as [[e|[msg|]] s] eqn:E; [done| |apply Hk].
  destruct (Hm _ _ _ E) as [x ->]. apply no_conflict_failed.
Qed.

Lemma publish_no_conflict c name n : no_conflict (publish c name n).
Proof.
  apply no_conflict_bind. intros []; cbn [negb]; [|apply no_conflict_failed]. do 2 (apply no_conflict_bind; intros ?).
  by intros w r w' [= <- _] current.
Qed.

Lemma apply_changes_no_conflict c name n parts keys : no_conflict (apply_changes c name n parts keys).
Proof.
  unfold apply_changes. apply no_conflict_loop; [apply insert_all_failed|].
  apply no_conflict_loop; [apply delete_all_failed|apply publish_no_conflict].
Qed.

(** Queries that fail are read as snapshot 0. *)
Lemma current_snapshot_unread c name s :
  (forall text ps, res_status (PQexecParams c text ps s).1 <> PGRES_TUPLES_OK) ->
  exists s', get_current_snapshot c name s = (inr 0, s').
Proof.
  intros Hf. unfold get_current_snapshot, pbind, exec_params.
  match goal with |- context [PQexecParams c ?text ?ps s] => specialize (Hf text ps); destruct (PQexecParams c text ps s) as [r s'] end.
  exists s'. unfold tuples_ok. by rewrite bool_decide_eq_false_2.
Qed.

Lemma commit_with_no_conflict c name op parts keys (w1 : World) r w' :
  (forall text ps, res_status (PQexecParams c text ps (w_pg w1)).1 <> PGRES_TUPLES_OK) ->
  commit_with c name 0 op parts keys w1 = (Ret r, w') -> forall current, cr_error_msg r <> conflict_msg 0 current.
Proof.
  intros Hf. destruct (current_snapshot_unread c name (w_pg w1) Hf) as [s' E]. unfold commit_with.
  rewrite (bind_ret _ _ _ _ _ (on_pg_ret _ _ _ _ E)). cbn [validate_parent_snapshot Z.eqb negb].
  generalize (set_pg s' w1). intros w2. revert w2 r w'. apply no_conflict_bind. intros u. apply no_conflict_bind. intros n.
  case_match; [apply no_conflict_failed|apply apply_changes_no_conflict].
Qed.

(** C39: the results of BEGIN, COMMIT and of the query for the current snapshot
    are not checked. On every database that runs its queries and begins
    transactions but refuses COMMIT, a commit that would go through is answered
    with success, and nothing is committed. On every database that runs its
    queries but refuses BEGIN, a commit that is answered with a failure,
    because of a partition that cannot be stored, leaves its snapshot and the
    partitions before that one in the committed database, where every reader
    of that snapshot or a later one finds them. And when the queries of a
    server fail, a commit with parent 0 is never refused as a conflict,
    whatever snapshots the table has. *)
Theorem control_statements_unchecked self name op parts keys w d :
  nul_free name -> serving w d ->
  let q := seqs (abs (w_pg w)) in
  let n := sq_snapshots q in
  let run parent := commit_snapshot self name parent op parts keys w in
  (PgRuns P -> begins -> commit_refused -> forall t new,
     find_live d name = Some t -> in_i64 (current_snapshot d name) = true -> in_i64 n = true ->
     in_i64 (sq_partitions q + Z.of_nat (length parts)) = true ->
     new_parts (sq_partitions q) (tb_table_id t) n parts = Some new ->
     exists w', run (current_snapshot d name) = (Ret (mkCommitResult true n ""), w') /\ committed (abs (w_pg w')) = d)
  /\ (PgRuns P -> begin_refused -> forall t good bad rest rs,
     parts = good ++ bad :: rest ->
     find_live d name = Some t -> in_i64 (current_snapshot d name) = true -> in_i64 n = true ->
     in_i64 (sq_partitions q + Z.of_nat (length good)) = true ->
     new_parts (sq_partitions q) (tb_table_id t) n good = Some rs ->
     (forall k, new_part k (tb_table_id t) n bad = None) ->
     exists w', run (current_snapshot d name) = (Ret (mkCommitResult false 0 (not_inserted bad)), w')
       /\ left_behind n rs d (committed (abs (w_pg w')))
       /\ forall (snap : Z) r, n <= snap -> r ∈ rs -> r ∈ parts_at (committed (abs (w_pg w'))) (tb_table_id t) snap)
  /\ ((forall c text ps, res_status (PQexecParams c text ps (w_pg w)).1 <> PGRES_TUPLES_OK) ->
     forall r w', run 0 = (Ret r, w') -> forall current, cr_error_msg r <> conflict_msg 0 current).
Proof.
  intros Hn S q n run. split; [|split].
  - intros HR Hb Hc t new Hl Hp Hs Hpn Hnew. apply find_live_spec in Hl as Htn. destruct Htn as (_ & <- & _).
    destruct (commit_scope self (tb_table_name t) (current_snapshot d (tb_table_name t)) op parts keys w d
      (fun a d' => a = mkCommitResult true n "" /\ d' = d) S) as (a & w' & E & -> & Hd); [|by exists w'].
    intros c w1 Rd Hi Ep Hca. pose proof (f_equal (fun x => seqs (abs x)) Ep) as Eq. fold q in Eq.
    destruct (commit_with_unchecked Hb Hc c t op parts keys w1 d) as (w2 & E & El & Hd); try done.
    { intros now1 now2. rewrite Eq. apply (commit_succeeds now1 now2 q t _ op parts keys d new); try done; apply S. }
    rewrite Eq in E. by do 2 eexists.
  - intros HR Hb t good bad rest rs -> Hl Hp Hs Hpn Hrs Hbad. apply find_live_spec in Hl as Htn. destruct Htn as (_ & <- & _).
    destruct (commit_scope self (tb_table_name t) (current_snapshot d (tb_table_name t)) op (good ++ bad :: rest) keys w d
      (fun a d' => a = mkCommitResult false 0 (not_inserted bad) /\ left_behind n rs d d') S) as (a & w' & E & -> & Hd).
    { intros c w1 Rd Hi Ep Hca. pose proof (f_equal (fun x => seqs (abs x)) Ep) as Eq. fold q in Eq.
      destruct (commit_with_autocommit Hb c t op good bad rest keys rs w1 d) as (w2 & E & El & Hd); rewrite ?Eq; try done.
      rewrite Eq in Hd. by do 2 eexists. }
    exists w'. split; [done|]. split; [done|]. intros snap r Hs' Hr. by eapply left_behind_visible.
  - intros Hf r w' E. destruct S as [S _].
    destruct (ConnectionPool.available_connections_ (w_pool w)) as [|c rest] eqn:Ea; [by destruct (se_some _ _ S)|].
    assert (sessions (abs (w_pg w)) !! c = Some Idle) as Hi by (apply (se_pool _ _ S); rewrite Ea; by left).
    apply with_guard_inv in E as [[_ [e He]]|(l & w1 & E & _)]; [done| |done].
    destruct (with_connection_inv c rest _ (set_locks l w) _ _ Ea Hi E) as (w2 & w3 & H2 & E3 & _).
    eapply commit_with_no_conflict; [|exact E3]. intros text ps. rewrite H2. apply Hf.
Qed.
End unchecked.

(** ** Runs *)

(** Services that refuse every COMMIT, every BEGIN, or what their list says. *)
Definition no_commit (call : option stmt) (_ : fault) : fault := if bool_decide (call = Some Commit) then Refused else Runs.
Definition no_begin (call : option stmt) (_ : fault) : fault := if bool_decide (call = Some Begin) then Refused else Runs.
Definition as_listed (_ : option stmt) (f : fault) : fault := f.

Lemma no_commit_runs : PgRuns (ref_service no_commit).
Proof. apply ref_runs. intros st f Hq. unfold no_commit. case_bool_decide as Hc; [|done]. by injection Hc as ->. Qed.
Lemma no_begin_runs : PgRuns (ref_service no_begin).
Proof. apply ref_runs. intros st f Hq. unfold no_begin. case_bool_decide as Hc; [|done]. by injection Hc as ->. Qed.

Lemma no_commit_begins : @begins (ref_service no_commit).
Proof.
  intros c s r s' Hs. cbn [PQexec ref_service]. unfold ref_exec. change (parse_sql "BEGIN") with (Some Begin).
  unfold ref_run. cbn in Hs. rewrite Hs. cbn. by intros [= <- _].
Qed.
Lemma no_commit_refused : @commit_refused (ref_service no_commit).
Proof.
  intros c s r s'. cbn [PQexec ref_service]. unfold ref_exec. change (parse_sql "COMMIT") with (Some Commit).
  cbn. intros [= <- <-]. split; [done|]. cbn. unfold ref_refuse. cbn. by repeat case_match.
Qed.
Lemma no_begin_refused : @begin_refused (ref_service no_begin).
Proof.
  intros c s r s'. cbn [PQexec ref_service]. unfold ref_exec. change (parse_sql "BEGIN") with (Some Begin).
  cbn. by intros [= <- <-].
Qed.

(** A partition whose statistics are no document. *)
Definition bad_row : PartitionRow :=
  mkPartitionRow 0 0 0 "y" "s3://bucket/new" "parquet" 5 50 (String.String Ascii.zero "").

Lemma control_statements_unchecked_witness :
  (exists w', commit_snapshot 0%nat "orders" 2 "append" [demo_row "x"] [] (moved no_commit []) = (Ret (mkCommitResult true 3 ""), w')
     /\ committed (abs (w_pg w')) = demo_db)
  /\ (exists w' r, commit_snapshot 0%nat "orders" 2 "append" [demo_row "x"; bad_row] [] (moved no_begin [])
         = (Ret (mkCommitResult false 0 "Failed to insert partition: y"), w')
       /\ pa_partition_key r = "x" /\ r ∈ parts_at (committed (abs (w_pg w'))) 1 3)
  /\ (exists w', commit_snapshot 0%nat "orders" 0 "append" [demo_row "x"] [] (moved as_listed [Refused])
         = (Ret (mkCommitResult true 3 ""), w') /\ "" <> conflict_msg 0 2)
  /\ (commit_snapshot 0%nat "orders" 0 "append" [demo_row "x"] [] demo).1 = Ret (mkCommitResult false 0 (conflict_msg 0 2)).
Proof.
  destruct (find_live demo_db "orders") as [t|] eqn:Et; [|vm_compute in Et; discriminate].
  assert (tb_table_id t = 1) as Ht by (vm_compute in Et; injection Et as <-; reflexivity).
  split; [|split; [|split; [|vm_compute; reflexivity]]].
  - destruct (new_parts (P := ref_service no_commit) 4 (tb_table_id t) 3 [demo_row "x"]) as [new|] eqn:En;
      [|rewrite Ht in En; vm_compute in En; discriminate].
    apply (proj1 (control_statements_unchecked (P := ref_service no_commit) (PgLaws0 := ref_laws no_commit) 0%nat "orders" "append"
      [demo_row "x"] [] (moved no_commit []) demo_db eq_refl (moved_serving no_commit [])) no_commit_runs no_commit_begins
      no_commit_refused t new Et); [vm_compute; reflexivity..|exact En].
  - destruct (new_parts (P := ref_service no_begin) 4 (tb_table_id t) 3 [demo_row "x"]) as [new|] eqn:En;
      [|rewrite Ht in En; vm_compute in En; discriminate].
    destruct (proj1 (proj2 (control_statements_unchecked (P := ref_service no_begin) (PgLaws0 := ref_laws no_begin) 0%nat "orders" "append"
      [demo_row "x"; bad_row] [] (moved no_begin []) demo_db eq_refl (moved_serving no_begin []))) no_begin_runs no_begin_refused t
      [demo_row "x"] bad_row [] new eq_refl Et) as (w' & E & _ & H); [vm_compute; reflexivity..|exact En|reflexivity|].
    rewrite Ht in En, H. vm_compute in En. injection En as <-. exists w'. eexists. split; [exact E|].
    split; [|apply H; [reflexivity|by left]]. reflexivity.
  - eexists. assert (commit_snapshot 0%nat "orders" 0 "append" [demo_row "x"] [] (moved as_listed [Refused])
      = (Ret (mkCommitResult true 3 ""), (commit_snapshot 0%nat "orders" 0 "append" [demo_row "x"] [] (moved as_listed [Refused])).2)) as E
      by (apply run_pair; [vm_compute; reflexivity|reflexivity]).
    split; [exact E|]. apply (proj2 (proj2 (control_statements_unchecked (P := ref_service as_listed) (PgLaws0 := ref_laws as_listed) 0%nat
      "orders" "append" [demo_row "x"] [] (moved as_listed [Refused]) demo_db eq_refl (moved_serving as_listed [Refused]))) ) with (2 := E).
    intros c text ps. cbn [PQexecParams ref_service]. unfold ref_exec. destruct (parse_sql text); discriminate.
Defined.
